(* ===== verification/_CoqProject ===== *)
-Q . S2P
Prelude.v
JsonParser.v
JsonNumber.v
Serializer.v
JsonString.v
JsonArray.v
JsonObject.v
JsonEnum.v
Queries.v
JsonScan.v
LevelDb.v
Replication.v
ReplicationQueue.v
ReplicationSync.v
Methods.v
MethodsSpec.v
ReplicationResume.v
Splitter.v
JsonRpc.v
JsonRpcSpec.v
Connection.v
Udp.v
Multiserver.v
MultiserverSpec.v
MainPort.v
Hoare.v
Stat.v
Mux.v
MuxFilter.v
MuxFilterSpec.v
Locks.v
Broadcast.v
BroadcastSpec.v
SyncRace.v
Concurrent.v
ConcurrentSpec.v
Client.v
ClientSpec.v
Server.v
ServerSpec.v
MultiserverRace.v
HttpHeader.v
HttpHeaderSpec.v
HttpReader.v
HttpReaderSpec.v
HttpWriter.v
HttpWriterSpec.v
