(* ===== verification/Prelude.v ===== *)
(** * leveldb-daemon: a verification development

    leveldb-daemon serves a LevelDB database over JSON-RPC: one message per
    line, several threads, and slaves that follow a master.  This library
    models the path of a request through the program, from the bytes on a
    socket to the database, to the slaves and back, and proves what makes
    each part and their composition correct.

    ** The parts of the program

    - Bytes arrive at a _connection_: [fas/mux] tells its observers which
      descriptors are ready, [fas/mux/mux_filter.hpp] over
      [fas/filter/binary_filter.hpp] and [fas/inet/connection.hpp] reads and
      writes them through buffers, [fas/inet/server.hpp] accepts descriptors
      and gives each to an object of [fas/inet/pool.hpp].
    - Datagrams arrive at the object of [common/udp.hpp], which runs their lines
      at once and answers the last peer.
    - A connection cuts its stream at CR LF ([ad_binary_splitter.hpp]) and
      treats every line as a message ([fas/adv/json_rpc3]): a request runs a
      _method_, an answer goes to the method that asked.
    - On the main port the methods do not run on the thread of the sockets:
      [common/multiserver.hpp] queues the requests for pools of threads.
    - The methods ([src/fas_methods.hpp]) read and write the database
      ([src/db.hpp]) and hand each update to the _replication_
      ([src/replication.hpp]), which sends it to the slaves.
    - Everything that is read or written as text goes through the JSON
      library of [fas/misc/json].

    ** The files

    Each file names the sources of its definitions above them, with their
    lines.

    - [Prelude]: bytes, the outcomes of code that may throw ([res]), programs
      with a state, a history and an outcome ([prog], with the notations of
      stdpp's monads), machine integers ([ity], [int_op], [wrap]), shared
      lemmas and tactics.
    - [JsonParser], [JsonNumber], [JsonString], [JsonArray], [JsonObject],
      [JsonEnum]: the JSON library, one file for each header; [Serializer]:
      the interface between the parts of a composite serializer, with the
      laws [SerOk] and [RoundTrip] as type classes that the serializers of
      the other files discharge; [Queries]: the request types of the daemon
      ([src/fas_queries.hpp]); [JsonScan]: the scanner on what the serializers
      write.
    - [LevelDb]: the database as the type classes [LevelDB] (operations),
      [LevelDBLaws] and [LevelDBHealthy] (documented behaviour), with an
      implementation that satisfies them; [Methods]: the handlers;
      [MethodsSpec]: what they do to the database and to the slaves.
    - [Replication]: the master's side; [ReplicationQueue]: the queue of a
      running slave; [ReplicationSync]: the first synchronisation;
      [ReplicationResume]: master, slave and the connection between them,
      which breaks and is made again.
    - [Splitter], [JsonRpc], [JsonRpcSpec]: lines, messages, calls;
      [Connection]: the method tables of the daemon's two kinds of
      connections and the run of an update from the master to a slave;
      [Multiserver], [MultiserverSpec]: the queues of the main port;
      [MainPort]: the daemon's methods on it; [Udp]: the port for datagrams;
      [Stat]: the clock around a call and the counters of the methods.
    - [Mux]: multiplexers, as the type class [Imux] with [ImuxLaws] and its
      instances [epoller] and [selector]; [Hoare]: triples for [prog];
      [MuxFilter], [MuxFilterSpec]: the connection object, against [Imux];
      [Server], [ServerSpec]: pool and server, against [Imux]; [Client],
      [ClientSpec]: the slave's client and the loop that keeps it connected,
      as a class derived from the connection object.
    - [Locks], [Concurrent], [ConcurrentSpec]: the handlers on several
      threads; [Broadcast], [BroadcastSpec]: an update on its way to the slaves
      while others are, access by access; [SyncRace]: a [set] beside the
      confirmation of a slave that is being synchronised; [MultiserverRace]:
      the requests of a connection, the workers that handle them and the
      thread that reads them and cleans up; a step that touches a deleted
      request is undefined and ends the run.
    - [HttpHeader], [HttpHeaderSpec]: the HTTP messages of the library
      ([fas/misc/http.hpp]); [HttpReader], [HttpReaderSpec]: the readers of
      requests ([fas/adv/http]), which the daemon does not start;
      [HttpWriter], [HttpWriterSpec]: the writers at the other end.

    ** How code is modelled

    An iterator pair is the list of bytes that is left; looking past the end
    of a buffer and signed overflow are the outcome [Undef], an exception is
    [Throw], recursion that is not structural has fuel and the outcome
    [NoFuel].  A fuel bound is part of the operation, derived from the length
    of the text (the scanner recurses at most once per byte); that it is never
    used up is proved ([parse_value_safe] and the round trips: [NoFuel] is not
    among the outcomes).  Member functions are programs over a record of the
    members; what they tell the world - bytes sent, descriptors closed,
    advices called - is their history.  What the world answers (the results of
    [read], [write], [accept], what LevelDB returns, the order of an unordered
    map, the hash of a string) is a parameter: a list of answers in the state,
    an argument, or a type class.  Threads are step relations: one step is one
    access to what is shared.

    ** What is proved

    - End to end: an update of the master arrives in the slave's database and
      its confirmation comes back ([Connection.replicated_set]); a call is
      executed by the method it names and answered under its id
      ([JsonRpcSpec.remote_call]); the main port runs a call like the
      replication port does ([MultiserverSpec.main_port_runs], for ids that are
      not negative and fit an [int], and for text without four-byte symbols),
      and so does the port for datagrams, for whole lines
      ([Udp.udp_serves_whole_lines]); whatever the server threads, the workers
      and the launching of the pools do, a request is queued once or answered
      ([MultiserverSpec.every_request_has_a_queue]); a [set]
      on the main port is stored, told and answered ([MainPort.main_port_set]).
    - Replication: every handler keeps running slaves equal to the master
      ([MethodsSpec.running_slaves_follow]); the queue delivers exactly once,
      in order; synchronisation ends with equal databases when its handlers
      run one after the other and no update hits the current key (that a [set]
      on another thread can get lost is
      [SyncRace.update_lost_beside_confirmation]); from there on a slave that loses its
      connections and resumes misses no update and catches up
      ([ReplicationResume.resumed_slave_is_equal],
      [ReplicationResume.resumed_slave_catches_up]).
    - Connections: the life of a connection object in four phases, delivery of
      what was written, one close per descriptor; the two multiplexers refine
      one map of interests; the server accounts for every descriptor when it
      stops, also when [select] throws in between ([ServerSpec.server_stops]); a
      slave that finds no connection makes a new one when its master accepts,
      and loses no socket ([ClientSpec.slave_reconnects]); the ids of a
      connection are waited for once ([Connection.daemon_ids_unique]).
    - Threads: handlers are atomic key by key, increments are never lost, no
      deadlock; every running slave gets every update once whatever the
      interleaving of the senders, and updates of different keys leave equal
      slaves ([BroadcastSpec.broadcasts_reach_every_slave],
      [BroadcastSpec.disjoint_broadcasts_converge]); and the orders of steps
      that break what is not locked.
    - Text: round trips of every type of the protocol, safety and termination
      of the scanner, the splitter as the inverse of the writer.
    - Statistics: what the counters hold after any sequence of calls, as the
      durations of the calls and the amount by which the clock's difference is
      off, with nothing overflowing for a hundred billion calls
      ([Stat.statistics_account]).
    - HTTP: a header as a list of fields, what is set is read back
      ([HttpHeaderSpec.header_round_trip]); requests with a length are handed
      on once and in order from any blocks
      ([HttpReaderSpec.requests_in_any_blocks]), and the writers write such
      requests ([HttpWriterSpec.messages_are_read_as_sent]).
    - Faults: where the code does not do what it means to, a theorem exhibits
      the run.

    ** What is not modelled

    - LevelDB, the kernel's sockets, epoll and [select], TBB's queue and the
      C library's floating point are not part of the sources; of the first
      four the documented behaviour is assumed through the classes above.
    - Template metaprogramming (aspects, type lists) selects code at compile
      time; the definitions are the selected code.  Advices that only log
      are left out, and so are timeouts, socket options and addresses.
    - In [Concurrent] a call of a member function of [replication] is one
      step; that it visits the slaves one after the other, each under its own
      lock, is in [Broadcast], for slaves that run or stop, and in [SyncRace]
      for one slave that is being synchronised.
    - The number of handlers under way and the depth of the recursion that
      [MuxFilter] counts are integers without a width, where the source has
      [int]: as many calls cannot be nested.
    - A server sees a connection object only as a descriptor, [MuxFilter]
      sees one connection without its server.
    - In [ReplicationResume] what is under way on a connection is lost with it
      and a new connection object is not one that a scheduled look refers to;
      [ReplicationResume.late_answer_loses_update] shows what happens without
      the first of these.
    - [mt_server.hpp] (included by the daemon and not instantiated), the text
      of [get_statistics], options, the start of the process, and the parts of
      the library the daemon does not use (AMF,
      PHP serialisation, memcached, command lists, older JSON and JSON-RPC generations). *)

From stdpp Require Export base list gmap strings option numbers fin_maps relations sorting.
From Stdlib Require Export ZArith Lia Ascii.

#[export] Set Default Goal Selector "!".
Open Scope Z_scope.

(** ** Bytes

    A [std::string], a [std::vector<char>] and a range [beg, end) of
    characters are lists of bytes; an iterator into a buffer is the suffix
    that is left to read, and [beg == end] is the empty list. *)

Abbreviation bytes := (list ascii).

Definition str (s : string) : bytes := String.list_ascii_of_string s.
Arguments str _%_string.

(** JSON text for examples, with the apostrophe standing for the quote. *)
Definition js (s : string) : bytes :=
  (λ c, if Ascii.eqb c "'" then "034"%char else c) <$> str s.
Arguments js _%_string.

(** The unsigned value of a byte; [schar] is the value of the (signed) C++
    [char] that holds it, which is what a comparison such as [*beg <= 32]
    looks at; [chr] is [static_cast<char>] of an integer. *)
Definition code (c : ascii) : Z := Z.of_N (N_of_ascii c).
Definition schar (c : ascii) : Z := if code c <? 128 then code c else code c - 256.
Definition chr (z : Z) : ascii := ascii_of_N (Z.to_N (z mod 256)).

Declare Scope cpp_scope.
Delimit Scope cpp_scope with cpp.
Notation "c '=?c' d" := (Ascii.eqb c d) (at level 70) : cpp_scope.
Notation "c ≠?c d" := (negb (Ascii.eqb c d)) (at level 70) : cpp_scope.
Open Scope cpp_scope.

Abbreviation NUL := "000"%char.
Abbreviation QUOTE := "034"%char.
Abbreviation CR := "013"%char.
Abbreviation LF := "010"%char.
Abbreviation TAB := "009"%char.
Abbreviation BS := "008"%char.
Abbreviation FF := "012"%char.
Abbreviation BSLASH := "092"%char.

Definition is_digit (c : ascii) : bool := (48 <=? code c) && (code c <=? 57).

Lemma code_range c : 0 <= code c < 256.
Proof.
  unfold code. pose proof (N_ascii_bounded c). lia.
Qed.

Lemma code_inj c d : code c = code d → c = d.
Proof.
  unfold code. intros H. apply N2Z.inj in H.
  rewrite <-(ascii_N_embedding c), <-(ascii_N_embedding d). by rewrite H.
Qed.
#[export] Instance code_Inj : Inj (=) (=) code := code_inj.

Lemma code_chr z : code (chr z) = z mod 256.
Proof.
  unfold code, chr. pose proof (Z.mod_pos_bound z 256 ltac:(lia)).
  rewrite N_ascii_embedding; [rewrite Z2N.id; lia | lia].
Qed.

Lemma chr_code c : chr (code c) = c.
Proof.
  apply code_inj. rewrite code_chr. pose proof (code_range c). by rewrite Z.mod_small.
Qed.

(** A boolean fact about one byte is checked on the 256 of them. *)
Definition all_ascii : list ascii := chr <$> seqZ 0 256.

Lemma ascii_forall (P : ascii → bool) : forallb P all_ascii = true → ∀ c, P c = true.
Proof.
  rewrite forallb_forall. intros HP c. apply HP. apply list_elem_of_In.
  unfold all_ascii. apply list_elem_of_fmap. exists (code c).
  rewrite chr_code. split; [done|]. apply elem_of_seqZ. pose proof (code_range c). lia.
Qed.

(** [byte_cases c H] : close a goal [f c = true] by evaluating [f] on every byte. *)
Ltac all_bytes := apply ascii_forall; vm_compute; reflexivity.

Lemma eqb_code c d : (c =?c d) = (code c =? code d).
Proof.
  destruct (Ascii.eqb_spec c d) as [->|Hne]; [by rewrite Z.eqb_refl|].
  symmetry. apply Z.eqb_neq. intros H. by apply Hne, code_inj.
Qed.

(** ** Lexicographic order on byte strings

    [std::string::operator<] and [leveldb::Slice::compare] both compare as
    [memcmp] does: bytes are unsigned, a proper prefix is smaller. *)
Fixpoint bytes_compare (a b : bytes) : comparison :=
  match a, b with
  | [], [] => Eq
  | [], _ :: _ => Lt
  | _ :: _, [] => Gt
  | x :: a', y :: b' =>
      match code x ?= code y with
      | Eq => bytes_compare a' b'
      | r => r
      end
  end.

Definition bytes_ltb (a b : bytes) : bool :=
  match bytes_compare a b with Lt => true | _ => false end.
Definition bytes_leb (a b : bytes) : bool :=
  match bytes_compare a b with Gt => false | _ => true end.
Definition bytes_lt (a b : bytes) : Prop := bytes_compare a b = Lt.
Definition bytes_le (a b : bytes) : Prop := bytes_compare a b ≠ Gt.

Lemma bytes_compare_refl a : bytes_compare a a = Eq.
Proof. induction a as [|x a IH]; [done|]. simpl. by rewrite Z.compare_refl. Qed.

Lemma bytes_compare_eq a b : bytes_compare a b = Eq → a = b.
Proof.
  revert b. induction a as [|x a IH]; intros [|y b]; simpl; try done.
  destruct (Z.compare_spec (code x) (code y)) as [Hc| |]; try done.
  intros H. apply code_inj in Hc as ->. f_equal. by apply IH.
Qed.

Lemma bytes_compare_antisym a b : bytes_compare b a = CompOpp (bytes_compare a b).
Proof.
  revert b. induction a as [|x a IH]; intros [|y b]; simpl; try done.
  rewrite (Z.compare_antisym (code x)). destruct (code x ?= code y); simpl; auto.
Qed.

Lemma bytes_lt_trans a b c : bytes_lt a b → bytes_lt b c → bytes_lt a c.
Proof.
  unfold bytes_lt. revert b c.
  induction a as [|x a IH]; intros [|y b] [|z c]; simpl; try done.
  destruct (Z.compare_spec (code x) (code y)) as [Hxy|Hxy|];
    destruct (Z.compare_spec (code y) (code z)) as [Hyz|Hyz|]; try done; intros H1 H2.
  - rewrite (proj2 (Z.compare_eq_iff _ _)); [|congruence]. by eapply IH.
  - rewrite (proj2 (Z.compare_lt_iff _ _)); [done|lia].
  - rewrite (proj2 (Z.compare_lt_iff _ _)); [done|lia].
  - rewrite (proj2 (Z.compare_lt_iff _ _)); [done|lia].
Qed.

#[export] Instance bytes_lt_StrictOrder : StrictOrder bytes_lt.
Proof.
  split; [|exact bytes_lt_trans].
  intros a. unfold complement, bytes_lt. by rewrite bytes_compare_refl.
Qed.
#[export] Instance bytes_lt_dec : RelDecision bytes_lt.
Proof. intros a b. unfold bytes_lt. solve_decision. Defined.
#[export] Instance bytes_le_dec : RelDecision bytes_le.
Proof. intros a b. unfold bytes_le. apply _. Defined.

Lemma bytes_le_lt_or_eq a b : bytes_le a b ↔ bytes_lt a b ∨ a = b.
Proof.
  unfold bytes_le, bytes_lt. destruct (bytes_compare a b) eqn:E; split; intros H; try done; auto.
  - right. by apply bytes_compare_eq.
  - destruct H as [H| ->]; [done|]. by rewrite bytes_compare_refl in E.
Qed.

Lemma bytes_trichotomy a b : bytes_lt a b ∨ a = b ∨ bytes_lt b a.
Proof.
  unfold bytes_lt. rewrite (bytes_compare_antisym a b).
  destruct (bytes_compare a b) eqn:E; auto. right; left. by apply bytes_compare_eq.
Qed.

Lemma bytes_le_not_lt a b : bytes_le a b ↔ ¬ bytes_lt b a.
Proof.
  unfold bytes_le, bytes_lt. rewrite (bytes_compare_antisym a b).
  destruct (bytes_compare a b); simpl; naive_solver.
Qed.

#[export] Instance bytes_le_trans : Transitive bytes_le.
Proof.
  intros a b c. rewrite !bytes_le_lt_or_eq. intros [H1| ->] [H2| ->]; auto.
  left. by etrans.
Qed.
#[export] Instance bytes_le_total : Total bytes_le.
Proof.
  intros a b. rewrite !bytes_le_lt_or_eq. destruct (bytes_trichotomy a b) as [|[|]]; auto.
Qed.
#[export] Instance bytes_le_antisymm : AntiSymm (=) bytes_le.
Proof.
  intros a b. rewrite bytes_le_not_lt. rewrite bytes_le_lt_or_eq. naive_solver.
Qed.

Lemma bytes_ltb_spec a b : reflect (bytes_lt a b) (bytes_ltb a b).
Proof. unfold bytes_ltb, bytes_lt. destruct (bytes_compare a b); constructor; naive_solver. Qed.
Lemma bytes_leb_spec a b : reflect (bytes_le a b) (bytes_leb a b).
Proof. unfold bytes_leb, bytes_le. destruct (bytes_compare a b); constructor; naive_solver. Qed.

(** ** Outcomes of C++ code

    A function returns, throws, runs into undefined behaviour (a read past
    the end of a foreign buffer, a signed overflow, a dangling pointer), or
    - for the definitions that are recursive on a bound - runs out of it;
    that the last never happens is proved for each of them. *)

(** The exception classes of [fas/misc/json/json_except.hpp], the
    [std::logic_error] of the replication code, and what [throw new] throws:
    a pointer, which no handler of [std::exception] catches. *)
Inductive json_kind :=
  | serialize_error
  | deserialize_error
  | not_supported
  | invalid_json
  | invalid_json_null
  | invalid_json_number
  | invalid_json_bool
  | invalid_json_string
  | invalid_json_member
  | invalid_json_object
  | invalid_json_array
  | invalid_conversion (from_to : option (bytes * bytes))
  | unexpected_end_fragment (msg : option bytes)
  | expected_of (msg : bytes).

Inductive exn :=
  | json_error (k : json_kind) (tail_of : nat)
  | logic_error (msg : bytes)
  | runtime_error (msg : bytes)
  | thrown_pointer (msg : bytes).

#[export] Instance json_kind_eq_dec : EqDecision json_kind.
Proof. solve_decision. Defined.
#[export] Instance exn_eq_dec : EqDecision exn.
Proof. solve_decision. Defined.

Inductive res (A : Type) :=
  | Ok (a : A)
  | Throw (x : exn)
  | Undef
  | NoFuel.
Arguments Ok {A} a.
Arguments Throw {A} x.
Arguments Undef {A}.
Arguments NoFuel {A}.

#[export] Instance Ok_inj {A} : Inj (=) (=) (@Ok A).
Proof. by intros a a' [= ->]. Qed.

#[export] Instance res_ret : MRet res := fun A a => Ok a.
#[export] Instance res_bind : MBind res := fun A B f m =>
  match m with
  | Ok a => f a
  | Throw x => Throw x
  | Undef => Undef
  | NoFuel => NoFuel
  end.

(** [try { m } catch (...) { h }]: undefined behaviour is not an exception. *)
Definition try_catch {A} (m : res A) (h : exn → res A) : res A :=
  match m with Throw x => h x | r => r end.

(** [try { m } catch (std::exception &e) { h }]. *)
Definition catch_exception {A} (m : res A) (h : exn → res A) : res A :=
  match m with
  | Throw (thrown_pointer msg) => Throw (thrown_pointer msg)
  | Throw x => h x
  | r => r
  end.

Lemma bind_Ok {A B} (m : res A) (f : A → res B) (b : B) :
  (m ≫= f) = Ok b ↔ ∃ a, m = Ok a ∧ f a = Ok b.
Proof. destruct m; naive_solver. Qed.

Lemma bind_NoFuel {A B} (m : res A) (f : A → res B) :
  (m ≫= f) = NoFuel ↔ m = NoFuel ∨ ∃ a, m = Ok a ∧ f a = NoFuel.
Proof. destruct m; naive_solver. Qed.

Lemma bind_Undef {A B} (m : res A) (f : A → res B) :
  (m ≫= f) = Undef ↔ m = Undef ∨ ∃ a, m = Ok a ∧ f a = Undef.
Proof. destruct m; naive_solver. Qed.

Lemma mret_Ok {A} (a : A) : mret a = Ok a.
Proof. done. Qed.

(** [res_inv] opens every successful sequence among the hypotheses. *)
Ltac res_inv :=
  repeat match goal with
  | H : (_ ≫= _) = Ok _ |- _ => apply bind_Ok in H as (?&?&?)
  | H : mret _ = Ok _ |- _ => rewrite mret_Ok in H
  | H : Ok _ = Ok _ |- _ => injection H as H
  | H : Throw _ = Ok _ |- _ => discriminate H
  | H : Undef = Ok _ |- _ => discriminate H
  | H : NoFuel = Ok _ |- _ => discriminate H
  | x : _ * _ |- _ => destruct x
  end; simplify_eq/=.

(** [byte_case] splits on the next comparison of two bytes in sight. *)
Ltac byte_case :=
  match goal with
  | |- context [Ascii.eqb ?c ?d] => destruct (Ascii.eqb_spec c d)
  | H : context [Ascii.eqb ?c ?d] |- _ => destruct (Ascii.eqb_spec c d)
  end.

(** ** Buffers

    What a dereference of [end] finds: buffers obtained from
    [std::string::c_str()] end in a NUL byte that may be read, other
    buffers end in memory the program does not own. *)
Inductive past := NulTerminated | Foreign.

Definition deref (e : past) (b : bytes) : res ascii :=
  match b with
  | c :: _ => Ok c
  | [] => match e with NulTerminated => Ok NUL | Foreign => Undef end
  end.

Lemma deref_cons e c b : deref e (c :: b) = Ok c.
Proof. done. Qed.
Lemma deref_defined b : deref NulTerminated b ≠ Undef.
Proof. by destruct b. Qed.
Lemma deref_NoFuel e b : deref e b ≠ NoFuel.
Proof. by destruct b, e. Qed.

(** [throw k(std::distance(beg, end))] with [beg] at [b]; [throw k()]. *)
Definition throw_at {A} (k : json_kind) (b : bytes) : res A :=
  Throw (json_error k (length b)).
Definition throw {A} (k : json_kind) : res A := Throw (json_error k 0).
Definition end_fragment : json_kind := unexpected_end_fragment None.

(** ** Machine integers

    An integer type has a width and a sign.  [int_op] is the result of an
    arithmetic operator on operands of that type: operands narrower than
    [int] are promoted to it, signed results out of range are undefined
    behaviour and unsigned ones wrap.  [wrap] is the conversion back to the
    type on assignment. *)
Record ity := Ity { ity_bits : Z; ity_signed : bool }.

Definition char_t := Ity 8 true.
Definition uchar_t := Ity 8 false.
Definition short_t := Ity 16 true.
Definition ushort_t := Ity 16 false.
Definition int_t := Ity 32 true.
Definition uint_t := Ity 32 false.
Definition long_t := Ity 64 true.
Definition ulong_t := Ity 64 false.
Definition longlong_t := Ity 64 true.
Definition ulonglong_t := Ity 64 false.

Definition std_types : list ity :=
  [char_t; uchar_t; short_t; ushort_t; int_t; uint_t; long_t; ulong_t; longlong_t; ulonglong_t].

Definition int_min (t : ity) : Z := if ity_signed t then - 2 ^ (ity_bits t - 1) else 0.
Definition int_max (t : ity) : Z :=
  if ity_signed t then 2 ^ (ity_bits t - 1) - 1 else 2 ^ ity_bits t - 1.
Definition in_range (t : ity) (z : Z) : bool := (int_min t <=? z) && (z <=? int_max t).

Definition wrap (t : ity) (z : Z) : Z :=
  let m := z mod 2 ^ ity_bits t in
  if ity_signed t && (2 ^ (ity_bits t - 1) <=? m) then m - 2 ^ ity_bits t else m.

Definition int_op (t : ity) (z : Z) : res Z :=
  if ity_bits t <? 32 then (if in_range int_t z then Ok z else Undef)
  else if ity_signed t then (if in_range t z then Ok z else Undef)
  else Ok (wrap t z).

(** [std_case H] : the ten integer types, one goal each; [compute_closed f]
    replaces the applications of [f] to a type by their values. *)
Ltac std_case H :=
  unfold std_types in H;
  repeat (apply elem_of_cons in H as [->|H]); [..|by apply not_elem_of_nil in H].

Ltac eval_in_all c := let x := eval vm_compute in c in change c with x in *.

Ltac std_bounds :=
  repeat match goal with
  | H : context [int_min ?t] |- _ => progress eval_in_all (int_min t)
  | |- context [int_min ?t] => progress eval_in_all (int_min t)
  | H : context [int_max ?t] |- _ => progress eval_in_all (int_max t)
  | |- context [int_max ?t] => progress eval_in_all (int_max t)
  | H : context [ity_bits ?t] |- _ => progress eval_in_all (ity_bits t)
  | |- context [ity_bits ?t] => progress eval_in_all (ity_bits t)
  | |- context [ity_signed ?t] => progress eval_in_all (ity_signed t)
  end.

Lemma in_range_spec t z : in_range t z = true ↔ int_min t <= z <= int_max t.
Proof. unfold in_range. rewrite andb_true_iff, !Z.leb_le. done. Qed.

Lemma wrap_in_range t z : t ∈ std_types → in_range t z = true → wrap t z = z.
Proof.
  intros Ht Hz%in_range_spec. unfold wrap.
  std_case Ht; std_bounds;
    repeat match goal with |- context [2 ^ ?n] => eval_in_all (2 ^ n) end;
    cbv beta zeta; cbn [andb];
    try (case_match; rewrite ?Z.leb_le, ?Z.leb_gt in *; Z.to_euclidean_division_equations; lia);
    Z.to_euclidean_division_equations; lia.
Qed.

(** ** Suffixes

    A parser moves its iterator forward: what it leaves is a suffix of what
    it was given; [b' ≺ b] says that it consumed at least one byte. *)
Definition proper_suffix (b' b : bytes) : Prop := b ≠ [] ∧ b' `suffix_of` tail b.
Infix "≺" := proper_suffix (at level 70) : cpp_scope.

Lemma suffix_tail (b : bytes) : tail b `suffix_of` b.
Proof. destruct b; [done|]. by apply suffix_cons_r. Qed.
Lemma proper_suffix_suffix b' b : b' ≺ b → b' `suffix_of` b.
Proof. intros [_ H]. etrans; [exact H|]. apply suffix_tail. Qed.
Lemma proper_suffix_length b' b : b' ≺ b → (length b' < length b)%nat.
Proof. intros [Hne H%suffix_length]. destruct b; simpl in *; [done|lia]. Qed.
Lemma proper_suffix_l b1 b2 b3 : b1 `suffix_of` b2 → b2 ≺ b3 → b1 ≺ b3.
Proof. intros H [? ?]. split; [done|]. by etrans. Qed.
Lemma proper_suffix_r b1 b2 b3 : b1 ≺ b2 → b2 `suffix_of` b3 → b1 ≺ b3.
Proof.
  intros [Hne H] Hs. destruct b2 as [|c b2]; [done|]. simpl in H. destruct Hs as [k ->].
  split; [by destruct k|]. destruct k as [|d k]; [done|]. simpl.
  apply suffix_app_r. by apply suffix_cons_r.
Qed.
Lemma proper_suffix_trans b1 b2 b3 : b1 ≺ b2 → b2 ≺ b3 → b1 ≺ b3.
Proof. intros H1 H2. eapply proper_suffix_l; [|exact H2]. by apply proper_suffix_suffix. Qed.
Lemma proper_suffix_cons c b : b ≺ c :: b.
Proof. by split. Qed.
Lemma proper_suffix_tail b : b ≠ [] → tail b ≺ b.
Proof. by split. Qed.

Create HintDb suffix.
#[export] Hint Resolve proper_suffix_suffix proper_suffix_cons suffix_tail suffix_cons_r : suffix.
#[export] Hint Extern 1 (_ `suffix_of` _) => reflexivity : suffix.

Lemma suffix_last (b' b : bytes) c : b' `suffix_of` b → b' ≠ [] → last b = Some c → last b' = Some c.
Proof. intros [k ->] Hne. rewrite last_app. destruct (last b') eqn:E; [done|]. by apply last_None in E. Qed.

(** ** Stateful code

    A program over the state [S] that emits events [E]: its outcome, the
    state it leaves - also when it throws - and what it emitted. *)
Definition prog (E S A : Type) : Type := S → res A * S * list E.

#[export] Instance op_ret {E S} : MRet (prog E S) := λ A a c, (Ok a, c, []).
#[export] Instance op_bind {E S} : MBind (prog E S) := λ A B f m c,
  match m c with
  | (Ok a, c', ev) => let '(r, c'', ev') := f a c' in (r, c'', ev ++ ev')
  | (Throw x, c', ev) => (Throw x, c', ev)
  | (Undef, c', ev) => (Undef, c', ev)
  | (NoFuel, c', ev) => (NoFuel, c', ev)
  end.
Definition op_get {E S A} (f : S → A) : prog E S A := λ c, (Ok (f c), c, []).
Definition op_modify {E S} (f : S → S) : prog E S unit := λ c, (Ok tt, f c, []).
Definition op_emit {E S} (ev : E) : prog E S unit := λ c, (Ok tt, c, [ev]).
Definition op_lift {E S A} (r : res A) : prog E S A := λ c, (r, c, []).

Lemma op_bind_Ok {E S A B} (m : prog E S A) (f : A → prog E S B) c a c' ev :
  m c = (Ok a, c', ev) → (m ≫= f) c = let '(r, c'', ev') := f a c' in (r, c'', ev ++ ev').
Proof. unfold mbind, op_bind. by intros ->. Qed.
Lemma op_bind_Throw {E S A B} (m : prog E S A) (f : A → prog E S B) c x c' ev :
  m c = (Throw x, c', ev) → (m ≫= f) c = (Throw x, c', ev).
Proof. unfold mbind, op_bind. by intros ->. Qed.

(** *** Programs that end well *)

Definition runs {E St A} (m : prog E St A) (r : St) (a : A) (r' : St) (ev : list E) : Prop := m r = (Ok a, r', ev).

Section runs.
Context {E St : Type}.

Lemma runs_bind {A B} (m : prog E St A) (f : A → prog E St B) r a r1 ev1 b r2 ev2 :
  runs m r a r1 ev1 → runs (f a) r1 b r2 ev2 → runs (m ≫= f) r b r2 (ev1 ++ ev2).
Proof. unfold runs, mbind, op_bind. intros -> Hf. by rewrite Hf. Qed.
Lemma runs_ret {A} (a : A) (r : St) : runs (E := E) (mret a) r a r [].
Proof. done. Qed.
Lemma runs_get {A B} (g : St → A) (f : A → prog E St B) r b r2 ev :
  runs (f (g r)) r b r2 ev → runs (op_get g ≫= f) r b r2 ev.
Proof. intros Hf. exact (runs_bind _ _ _ _ _ [] _ _ _ eq_refl Hf). Qed.
Lemma runs_modify {B} (g : St → St) (f : unit → prog E St B) r b r2 ev :
  runs (f tt) (g r) b r2 ev → runs (op_modify g ≫= f) r b r2 ev.
Proof. intros Hf. exact (runs_bind _ _ _ _ _ [] _ _ _ eq_refl Hf). Qed.
Lemma runs_lift {A B} (x : A) (m : res A) (f : A → prog E St B) r b r2 ev :
  m = Ok x → runs (f x) r b r2 ev → runs (op_lift m ≫= f) r b r2 ev.
Proof. intros -> Hf. exact (runs_bind _ _ _ _ _ [] _ _ _ eq_refl Hf). Qed.
End runs.

(** Programs are the same when they do the same from every state. *)
Record prog_equiv {E S A} (m m' : prog E S A) : Prop := { equiv_at s : m s = m' s }.
Arguments equiv_at {E S A m m'} _ _.
Infix "≃" := prog_equiv (at level 70) : cpp_scope.

#[export] Instance prog_equiv_equivalence {E S A} : Equivalence (@prog_equiv E S A).
Proof.
  split; [intros m; by split|intros m m' H; split; intros s; by rewrite (equiv_at H)|].
  intros m1 m2 m3 H1 H2. split. intros s. by rewrite (equiv_at H1), (equiv_at H2).
Qed.

#[export] Instance op_bind_proper {E S A B} :
  Proper (pointwise_relation A prog_equiv ==> prog_equiv ==> prog_equiv) (@mbind (prog E S) op_bind A B).
Proof.
  intros f g Hf m m' Hm. split. intros s. unfold mbind, op_bind. rewrite (equiv_at Hm).
  destruct (m' s) as [[[a| | |] s'] ev]; try done. by rewrite (equiv_at (Hf a)).
Qed.

Lemma op_ret_bind {E S A B} (a : A) (f : A → prog E S B) : (mret a ≫= f) ≃ f a.
Proof. split. intros s. unfold mbind, op_bind, mret, op_ret. by destruct (f a s) as [[r s'] ev]. Qed.

Lemma op_lift_bind {E S A B} (a : A) (f : A → prog E S B) : (op_lift (Ok a) ≫= f) ≃ f a.
Proof. exact (op_ret_bind a f). Qed.

Lemma op_get_bind {E S A B} (g : S → A) (f : A → prog E S B) s : (op_get g ≫= f) s = f (g s) s.
Proof. unfold mbind, op_bind, op_get. by destruct (f (g s) s) as [[r s'] ev]. Qed.

Lemma op_ret_bind_at {E S A B} (a : A) (f : A → prog E S B) s : (mret a ≫= f) s = f a s.
Proof. exact (equiv_at (op_ret_bind a f) s). Qed.

Lemma op_modify_bind {E S B} (g : S → S) (f : unit → prog E S B) s : (op_modify g ≫= f) s = f tt (g s).
Proof. unfold mbind, op_bind, op_modify. by destruct (f tt (g s)) as [[r s'] ev]. Qed.

Lemma op_bind_assoc {E S A B C} (m : prog E S A) (f : A → prog E S B) (g : B → prog E S C) :
  ((m ≫= f) ≫= g) ≃ (m ≫= λ a, f a ≫= g).
Proof.
  split. intros s. unfold mbind, op_bind. destruct (m s) as [[[a| | |] s'] ev]; try done.
  destruct (f a s') as [[[b| | |] s''] ev']; try done. destruct (g b s'') as [[r s3] ev3].
  by rewrite app_assoc.
Qed.

Lemma op_bind_ret {E S A} (m : prog E S A) : (m ≫= mret) ≃ m.
Proof.
  split. intros s. unfold mbind, op_bind, mret, op_ret. destruct (m s) as [[[a| | |] s'] ev]; try done.
  by rewrite app_nil_r.
Qed.

Lemma op_bind_ext {E S A B} (m : prog E S A) (f g : A → prog E S B) :
  (∀ a, f a ≃ g a) → (m ≫= f) ≃ (m ≫= g).
Proof. intros H. by apply op_bind_proper. Qed.

(** [m] keeps the invariant [I], whatever its outcome. *)
Definition keeps {E S A} (I : S → Prop) (m : prog E S A) : Prop :=
  ∀ s r s' ev, I s → m s = (r, s', ev) → I s'.

Section keeps.
Context {E S : Type} (I : S → Prop).

Lemma keeps_ret {A} (a : A) : keeps (E := E) I (mret a).
Proof. by intros s r s' ev Hs [= _ <- _]. Qed.
Lemma keeps_lift {A} (r0 : res A) : keeps (E := E) I (op_lift r0).
Proof. by intros s r s' ev Hs [= _ <- _]. Qed.
Lemma keeps_emit (ev0 : E) : keeps I (op_emit ev0).
Proof. by intros s r s' ev Hs [= _ <- _]. Qed.
Lemma keeps_get {A} (f : S → A) : keeps (E := E) I (op_get f).
Proof. by intros s r s' ev Hs [= _ <- _]. Qed.
Lemma keeps_modify (f : S → S) : (∀ s, I s → I (f s)) → keeps (E := E) I (op_modify f).
Proof. intros Hf s r s' ev Hs [= _ <- _]. by apply Hf. Qed.
Lemma keeps_bind {A B} (m : prog E S A) (f : A → prog E S B) :
  keeps I m → (∀ a, keeps I (f a)) → keeps I (m ≫= f).
Proof.
  intros Hm Hf s r s' ev Hs. unfold mbind, op_bind. destruct (m s) as [[r1 s1] ev1] eqn:H1.
  pose proof (Hm _ _ _ _ Hs H1) as Hs1.
  destruct r1; [|by intros [= _ <- _]..]. destruct (f a s1) as [[r2 s2] ev2] eqn:H2.
  intros [= _ <- _]. by eapply Hf.
Qed.
End keeps.

Create HintDb keeps.
#[export] Hint Resolve keeps_ret keeps_lift keeps_emit keeps_get : keeps.
#[export] Hint Extern 2 (keeps _ (_ ≫= _)) => (apply keeps_bind; [|intros ?]) : keeps.

(** ** Step relations *)

Lemma rtc_keeps {A} {R : relation A} (I : A → Prop) :
  (∀ x y, I x → R x y → I y) → ∀ x y, rtc R x y → I x → I y.
Proof. intros HI x y. induction 1; eauto. Qed.
