(* ===== verification/JsonParser.v ===== *)
(** * JsonParser: [fas/misc/json/json_parser.hpp] and [json_except.hpp]

    The class [fas::json::parser] of the JSON library: skipping of white
    space and comments, recognition of [null], booleans, numbers and
    strings, the recursive skipping of a value, and the decimal reader used
    by all integer serializers.  Iterators are suffixes of the buffer; [e]
    says what lies past its end. *)

From S2P Require Import Prelude.

(** ** Exceptions *)

(* src: fas/misc/json/json_except.hpp 26-132 what *)
Definition what (k : json_kind) : bytes :=
  match k with
  | serialize_error => str "serialize error"
  | deserialize_error => str "deserialize error"
  | not_supported => str "not supported"
  | invalid_json => str "invalid json"
  | invalid_json_null => str "invalid json null"
  | invalid_json_number => str "invalid json number"
  | invalid_json_bool => str "invalid json bool"
  | invalid_json_string => str "invalid json string"
  | invalid_json_member => str "invalid json member"
  | invalid_json_object => str "invalid json object"
  | invalid_json_array => str "invalid json array"
  | invalid_conversion None => str "invalid conversion"
  | invalid_conversion (Some (from, to)) =>
      str "invalid conversion from '" ++ from ++ str "' to '" ++ to ++ str "'"
  | unexpected_end_fragment None => str "unexpected end of ragment"
  | unexpected_end_fragment (Some msg) => str "unexpected end of ragment: " ++ msg
  | expected_of msg => str "expected of '" ++ msg ++ str "'"
  end.

(* src: fas/misc/json/json_except.hpp 8-24 json_error::message *)
Definition message (k : json_kind) (tail_of : nat) (b : bytes) : bytes :=
  if (length b <? tail_of)%nat then what k
  else what k ++ str ": " ++ take (length b - tail_of) b
         ++ str ">>>" ++ drop (length b - tail_of) b.

(** ** White space and comments *)

(* src: fas/misc/json/json_parser.hpp 32-32 parser::parse_space *)
Definition is_space (c : ascii) : bool :=
  (c =?c " ") || (c =?c TAB) || (c =?c CR) || (c =?c LF).

Definition starts_with (c : ascii) (b : bytes) : bool :=
  match b with d :: _ => d =?c c | [] => false end.

(** The loop of [parse_space]; [sc] is the variable [start_comment].  The
    [throw] of the source is guarded by [start_comment] on the branch where
    it is false, so the loop has no way to throw. *)
(* src: fas/misc/json/json_parser.hpp 14-49 parser::parse_space *)
Fixpoint parse_space_loop (sc : bool) (b : bytes) : bytes :=
  match b with
  | [] => []
  | c :: r =>
      if sc then
        if c =?c "*" then parse_space_loop (negb (starts_with "/" r)) r
        else parse_space_loop sc r
      else if is_space c then parse_space_loop sc r
      else if c =?c "/" then parse_space_loop (starts_with "*" r) r
      else b
  end.

(* src: fas/misc/json/json_parser.hpp 10-11 parser::parse_space *)
Definition parse_space (b : bytes) : bytes := parse_space_loop false b.

(** ** [null] and booleans *)

(** The chain [++p && ++beg!=end && *beg=='u' && ...]: [w] is what is still
    to match, [p] the count of bytes matched. *)
(* src: fas/misc/json/json_parser.hpp 67-77 parser::parse_null *)
Fixpoint match_word (name w : bytes) (p : nat) (b : bytes) : res bytes :=
  match w with
  | [] => Ok b
  | c :: w' =>
      match b with
      | [] => throw end_fragment
      | d :: b' =>
          if d =?c c then match_word name w' (S p) b'
          else Throw (json_error (expected_of name) p)
      end
  end.

(* src: fas/misc/json/json_parser.hpp 53-54 parser::is_null *)
Definition is_null (b : bytes) : bool := starts_with "n" b.

(* src: fas/misc/json/json_parser.hpp 56-80 parser::parse_null *)
Definition parse_null (b : bytes) : res bytes :=
  match b with
  | [] => throw end_fragment
  | c :: b' =>
      if c =?c "n" then match_word (str "null") (str "ull") 1 b'
      else throw invalid_json_null
  end.

(* src: fas/misc/json/json_parser.hpp 84-85 parser::is_bool *)
Definition is_bool (b : bytes) : bool := starts_with "t" b || starts_with "f" b.

(* src: fas/misc/json/json_parser.hpp 87-123 parser::parse_bool *)
Definition parse_bool (b : bytes) : res bytes :=
  match b with
  | [] => throw end_fragment
  | c :: b' =>
      if c =?c "t" then match_word (str "true") (str "rue") 1 b'
      else if c =?c "f" then match_word (str "false") (str "alse") 1 b'
      else throw invalid_json_bool
  end.

(** ** Numbers *)

Definition starts_digit (b : bytes) : bool :=
  match b with c :: _ => is_digit c | [] => false end.

(* src: fas/misc/json/json_parser.hpp 128-129 parser::is_number *)
Definition is_number (b : bytes) : bool := starts_with "-" b || starts_digit b.

(* src: fas/misc/json/json_parser.hpp 345-350 parser::_parse_digit *)
Fixpoint _parse_digit (b : bytes) (p : nat) : bytes * nat :=
  match b with
  | c :: r => if is_digit c then _parse_digit r (S p) else (b, p)
  | [] => (b, p)
  end.

Definition throw_number {A} (p : nat) : res A := Throw (json_error invalid_json_number p).

(** The three parts of [parse_number]: the integer part after the sign, the
    fraction, the exponent. *)
(* src: fas/misc/json/json_parser.hpp 140-149 parser::parse_number *)
Definition number_int (b : bytes) (p : nat) : res (bytes * nat) :=
  match b with
  | [] => throw end_fragment
  | c :: r =>
      if c =?c "0" then Ok (r, S p)
      else if is_digit c then Ok (_parse_digit b p)
      else throw_number p
  end.

(* src: fas/misc/json/json_parser.hpp 151-160 parser::parse_number *)
Definition number_frac (b : bytes) (p : nat) : res (bytes * nat) :=
  match b with
  | c :: r =>
      if c =?c "." then
        match r with
        | [] => throw end_fragment
        | d :: _ => if is_digit d then Ok (_parse_digit r (S p)) else throw_number (S p)
        end
      else Ok (b, p)
  | [] => Ok (b, p)
  end.

(* src: fas/misc/json/json_parser.hpp 162-170 parser::parse_number *)
Definition number_exp (b : bytes) (p : nat) : res (bytes * nat) :=
  match b with
  | c :: r =>
      if (c =?c "e") || (c =?c "E") then
        let '(r, p) :=
          if starts_with "-" r || starts_with "+" r then (tail r, S (S p)) else (r, S p) in
        match r with
        | [] => throw end_fragment
        | d :: _ => if is_digit d then Ok (_parse_digit r p) else throw_number p
        end
      else Ok (b, p)
  | [] => Ok (b, p)
  end.

(* src: fas/misc/json/json_parser.hpp 131-172 parser::parse_number *)
Definition parse_number (b : bytes) : res bytes :=
  match b with
  | [] => throw end_fragment
  | _ :: _ =>
      let '(b, p) := if starts_with "-" b then (tail b, 1%nat) else (b, 0%nat) in
      '(b, p) ← number_int b p;
      '(b, p) ← number_frac b p;
      '(b, p) ← number_exp b p;
      mret b
  end.

(** ** Strings *)

(* src: fas/misc/json/json_parser.hpp 176-182 parser::is_string *)
Definition is_string (b : bytes) : bool := starts_with QUOTE b.
(* src: fas/misc/json/json_parser.hpp 252-256 parser::is_object *)
Definition is_object (b : bytes) : bool := starts_with "{" b.
(* src: fas/misc/json/json_parser.hpp 258-262 parser::is_array *)
Definition is_array (b : bytes) : bool := starts_with "[" b.

(** [(c & mask) == v] *)
Definition masked (mask v : Z) (c : ascii) : bool := Z.land (code c) mask =? v.

(** The test of a continuation byte after [++beg!=end]: the iterator has moved either way. *)
(* src: fas/misc/json/json_parser.hpp 245-247 parser::parse_symbol *)
Definition next_cont (b : bytes) : bool * bytes :=
  match tail b with
  | [] => (false, [])
  | c :: r => (masked 192 128 c, c :: r)
  end.

(** [k] such tests in a row, stopping at the first that fails. *)
(* src: fas/misc/json/json_parser.hpp 245-247 parser::parse_symbol *)
Fixpoint conts (k : nat) (b : bytes) : bool * bytes :=
  match k with
  | O => (true, b)
  | S k => let '(ok, b) := next_cont b in if ok : bool then conts k b else (false, b)
  end.

(** One of the four conditions of the source: a lead byte, then [k]
    continuation bytes. *)
(* src: fas/misc/json/json_parser.hpp 244-247 parser::parse_symbol *)
Definition try_symbol (e : past) (mask v : Z) (k : nat) (b : bytes) : res (bool * bytes) :=
  c ← deref e b;
  Ok (if masked mask v c then conts k b else (false, b)).

(** The tests run one after the other on the iterator as the failed ones
    before them have left it; the last one looks at two continuation bytes. *)
(* src: fas/misc/json/json_parser.hpp 235-249 parser::parse_symbol *)
Definition parse_symbol (e : past) (b : bytes) : res bytes :=
  '(ok, b) ← try_symbol e 128 0 0 b;
  if ok : bool then Ok (tail b) else
  '(ok, b) ← try_symbol e 224 192 1 b;
  if ok : bool then Ok (tail b) else
  '(ok, b) ← try_symbol e 240 224 2 b;
  if ok : bool then Ok (tail b) else
  '(ok, b) ← try_symbol e 248 240 2 b;
  if ok : bool then Ok (tail b) else
  throw_at invalid_json_string b.

(** The loop of the source runs for [i < 0], that is, never. *)
(* src: fas/misc/json/json_parser.hpp 220-233 parser::parse_hex *)
Definition parse_hex (b : bytes) : res bytes :=
  match b with
  | [] => throw end_fragment
  | _ :: _ => Ok b
  end.

(* src: fas/misc/json/json_parser.hpp 197-199 parser::parse_string *)
Definition escape_chars : bytes := [QUOTE; BSLASH; "/"; "t"; "b"; "n"; "r"; "f"; "u"]%char.

(* src: fas/misc/json/json_parser.hpp 191-213 parser::parse_string *)
Fixpoint parse_string_loop (n : nat) (e : past) (b : bytes) : res bytes :=
  match b with
  | [] => Ok []
  | c :: r =>
      if c =?c QUOTE then Ok b
      else match n with
      | O => NoFuel
      | S n =>
          b ← (if c =?c BSLASH then
                 match r with
                 | [] => throw end_fragment
                 | d :: r' =>
                     if bool_decide (d ∈ escape_chars) then
                       if d =?c "u" then parse_hex r' else Ok r'
                     else throw_at invalid_json_string r
                 end
               else parse_symbol e b);
          parse_string_loop n e b
      end
  end.

(* src: fas/misc/json/json_parser.hpp 184-218 parser::parse_string *)
Definition parse_string (e : past) (b : bytes) : res bytes :=
  match b with
  | [] => throw end_fragment
  | c :: r =>
      if c =?c QUOTE then
        b ← parse_string_loop (length r) e r;
        match b with
        | [] => throw end_fragment
        | d :: r' => if d =?c QUOTE then Ok r' else throw_at (expected_of [QUOTE]) b
        end
      else throw_at (expected_of [QUOTE]) b
  end.

(** ** Values

    The functions of the source call each other; [n] bounds the depth of
    the calls plus the number of turns of their loops.  [fuel_ok] below
    shows that the bound chosen by [parse_value] is never reached. *)

(* src: fas/misc/json/json_parser.hpp 265-280 parser::parse_value *)
Fixpoint parse_value_n (n : nat) (e : past) (b : bytes) {struct n} : res bytes :=
  match n with
  | O => NoFuel
  | S n =>
      if is_null b then parse_null b
      else if is_bool b then parse_bool b
      else if is_number b then parse_number b
      else if is_string b then parse_string e b
      else if is_object b then parse_object_n n e b
      else if is_array b then parse_array_n n e b
      else throw_at invalid_json b
  end
with parse_member_n (n : nat) (e : past) (b : bytes) {struct n} : res bytes :=
  match n with
  | O => NoFuel
  | S n =>
      if is_string b then
        b ← parse_string e b;
        match b with [] => throw end_fragment | _ :: _ =>
        match parse_space b with
        | [] => throw end_fragment
        | c :: r =>
            if c =?c ":" then
              match r with [] => throw end_fragment | _ :: _ =>
              match parse_space r with
              | [] => throw end_fragment
              | (_ :: _) as b => parse_value_n n e b
              end end
            else throw_at (expected_of (str ":")) r
        end end
      else throw_at invalid_json_member b
  end
with parse_object_n (n : nat) (e : past) (b : bytes) {struct n} : res bytes :=
  match n with
  | O => NoFuel
  | S n =>
      if is_object b then
        b ← parse_object_loop n e (tail b);
        if starts_with "}" b then Ok (tail b) else throw_at (expected_of (str "}")) b
      else throw_at (expected_of (str "{")) b
  end
with parse_object_loop (n : nat) (e : past) (b : bytes) {struct n} : res bytes :=
  match n with
  | O => NoFuel
  | S n =>
      match b with
      | [] => Ok b
      | c :: _ =>
          if c =?c "}" then Ok b
          else
            b ← parse_member_n n e (parse_space b);
            let b := parse_space b in
            match b with
            | [] => throw_at (expected_of (str "}")) b
            | c :: r =>
                if (c ≠?c ",") && (c ≠?c "}") then throw_at (expected_of (str "}")) b
                else parse_object_loop n e (if c =?c "," then r else b)
            end
      end
  end
with parse_array_n (n : nat) (e : past) (b : bytes) {struct n} : res bytes :=
  match n with
  | O => NoFuel
  | S n =>
      if is_array b then
        b ← parse_array_loop n e (tail b);
        if starts_with "]" b then Ok (tail b) else throw_at (expected_of (str "]")) b
      else throw_at (expected_of (str "[")) b
  end
with parse_array_loop (n : nat) (e : past) (b : bytes) {struct n} : res bytes :=
  match n with
  | O => NoFuel
  | S n =>
      match b with
      | [] => Ok b
      | c :: _ =>
          if c =?c "]" then Ok b
          else
            b ← parse_value_n n e (parse_space b);
            let b := parse_space b in
            match b with
            | [] => throw_at (expected_of (str "]")) b
            | c :: r =>
                if (c ≠?c ",") && (c ≠?c "]") then throw_at (expected_of (str "]")) b
                else parse_array_loop n e (if c =?c "," then r else b)
            end
      end
  end.

Definition value_fuel (b : bytes) : nat := 4 * length b + 4.

(* src: fas/misc/json/json_parser.hpp 264-280 parser::parse_value *)
Definition parse_value (e : past) (b : bytes) : res bytes := parse_value_n (value_fuel b) e b.
(* src: fas/misc/json/json_parser.hpp 283-298 parser::parse_member *)
Definition parse_member (e : past) (b : bytes) : res bytes := parse_member_n (value_fuel b) e b.
(* src: fas/misc/json/json_parser.hpp 300-320 parser::parse_object *)
Definition parse_object (e : past) (b : bytes) : res bytes := parse_object_n (value_fuel b) e b.
(* src: fas/misc/json/json_parser.hpp 322-341 parser::parse_array *)
Definition parse_array (e : past) (b : bytes) : res bytes := parse_array_n (value_fuel b) e b.

Example parse_value_ex :
  parse_value NulTerminated (js "[1,{'a' : null , 'b':[true]},-1.5e3] x") = Ok (str " x").
Proof. vm_compute. reflexivity. Qed.

(** ** Integers *)

(** One turn of the accumulation, [v = v*10 + (c - '0')] in type [t]. *)
(* src: fas/misc/json/json_parser.hpp 373-373 parser::unserialize_integer *)
Definition accumulate (t : ity) (v : Z) (c : ascii) : res Z :=
  m ← int_op t (v * 10);
  s ← int_op t (m + (code c - 48));
  mret (wrap t s).

(* src: fas/misc/json/json_parser.hpp 369-374 parser::unserialize_integer *)
Fixpoint integer_loop (t : ity) (v : Z) (b : bytes) : Z * res bytes :=
  match b with
  | [] => (v, Ok [])
  | c :: r =>
      if is_digit c then
        match accumulate t v c with
        | Ok v' => integer_loop t v' r
        | Throw x => (v, Throw x)
        | Undef => (v, Undef)
        | NoFuel => (v, NoFuel)
        end
      else (v, Ok b)
  end.

(** The variable is written while reading, so the result pairs its last
    value with the outcome. *)
(* src: fas/misc/json/json_parser.hpp 354-378 parser::unserialize_integer *)
Definition unserialize_integer (t : ity) (v : Z) (b : bytes) : Z * res bytes :=
  match b with
  | [] => (v, throw end_fragment)
  | _ :: _ =>
      let neg := starts_with "-" b in
      let b := if neg then tail b else b in
      match b with
      | [] => (0, throw_at invalid_json_number b)
      | c :: r =>
          if is_digit c then
            if c =?c "0" then (0, Ok r)
            else
              match integer_loop t 0 b with
              | (v, Ok b') =>
                  if neg then
                    match int_op t (v * -1) with
                    | Ok z => (wrap t z, Ok b')
                    | _ => (v, Undef)
                    end
                  else (v, Ok b')
              | r => r
              end
          else (0, throw_at invalid_json_number b)
      end
  end.

(** ** Progress: every parser leaves a suffix of its input *)

Lemma starts_with_true c b : starts_with c b = true → ∃ r, b = c :: r.
Proof. destruct b as [|d r]; [done|]. simpl. byte_case; naive_solver. Qed.

Lemma parse_space_loop_suffix sc b : parse_space_loop sc b `suffix_of` b.
Proof.
  revert sc. induction b as [|c r IH]; intros sc; simpl; [done|].
  repeat case_match; try done; apply suffix_cons_r, IH.
Qed.
Lemma parse_space_suffix b : parse_space b `suffix_of` b.
Proof. apply parse_space_loop_suffix. Qed.
#[export] Hint Resolve parse_space_suffix : suffix.

Lemma match_word_suffix name w p b b' : match_word name w p b = Ok b' → b' `suffix_of` b.
Proof.
  revert p b. induction w as [|c w IH]; intros p b; simpl; [by intros [= ->]|].
  destruct b as [|d b]; [done|]. case_match; [|done]. intros Hw%IH. by apply suffix_cons_r.
Qed.

Lemma match_word_outcome name w p b :
  match_word name w p b ≠ NoFuel ∧ match_word name w p b ≠ Undef.
Proof.
  revert p b. induction w as [|c w IH]; intros p [|d b]; simpl; try done. by case_match.
Qed.

Lemma parse_null_progress b b' : parse_null b = Ok b' → b' ≺ b.
Proof.
  destruct b as [|c b]; [done|]. unfold parse_null. case_match; [|done].
  intros Hw%match_word_suffix. by split.
Qed.

Lemma parse_bool_progress b b' : parse_bool b = Ok b' → b' ≺ b.
Proof.
  destruct b as [|c b]; [done|]. unfold parse_bool.
  repeat case_match; try done; intros Hw%match_word_suffix; by split.
Qed.

Lemma _parse_digit_suffix b p : (_parse_digit b p).1 `suffix_of` b.
Proof.
  revert p. induction b as [|c r IH]; intros p; simpl; [done|].
  case_match; [|done]. apply suffix_cons_r, IH.
Qed.

Lemma _parse_digit_progress c b p : is_digit c = true → (_parse_digit (c :: b) p).1 ≺ c :: b.
Proof. intros Hc. simpl. rewrite Hc. split; [done|]. apply _parse_digit_suffix. Qed.

Lemma number_int_progress b p b' p' : number_int b p = Ok (b', p') → b' ≺ b.
Proof.
  destruct b as [|c r]; [done|]. unfold number_int. repeat case_match; try done.
  - intros [= <- <-]. apply proper_suffix_cons.
  - intros Hw. apply (inj Ok) in Hw.
    pose proof (_parse_digit_progress c r p) as Hp. rewrite Hw in Hp. by apply Hp.
Qed.

Lemma number_frac_suffix b p b' p' : number_frac b p = Ok (b', p') → b' `suffix_of` b.
Proof.
  destruct b as [|c r]; simpl; [by intros [= <- <-]|]. case_match; [|by intros [= <- <-]].
  destruct r as [|d r]; [done|]. case_match; [|done].
  intros Hw. apply (inj Ok) in Hw. apply suffix_cons_r. pose proof (_parse_digit_suffix (d :: r) (S p)) as Hs. by rewrite Hw in Hs.
Qed.

Lemma number_exp_suffix b p b' p' : number_exp b p = Ok (b', p') → b' `suffix_of` b.
Proof.
  destruct b as [|c r]; unfold number_exp; [by intros [= <- <-]|].
  case_match; [|by intros [= <- <-]].
  destruct (if _ : bool then _ else _) as [r' q] eqn:Hr.
  assert (r' `suffix_of` r) by (revert Hr; case_match; intros [= <- <-]; auto with suffix).
  destruct r' as [|d r']; [done|]. destruct (is_digit d); [|done]. intros Hw. apply (inj Ok) in Hw.
  apply suffix_cons_r. etrans; [|done].
  pose proof (_parse_digit_suffix (d :: r') q) as Hs. by rewrite Hw in Hs.
Qed.

Lemma parse_number_progress b b' : parse_number b = Ok b' → b' ≺ b.
Proof.
  destruct b as [|c r]; [done|]. unfold parse_number.
  destruct (if _ : bool then _ else _) as [b0 p] eqn:Hb.
  assert (b0 `suffix_of` c :: r) by (revert Hb; case_match; intros [= <- <-]; auto with suffix).
  intros Hw. res_inv.
  match goal with
  | H1 : number_int _ _ = _, H2 : number_frac _ _ = _, H3 : number_exp _ _ = _ |- _ =>
      apply number_int_progress in H1; apply number_frac_suffix in H2;
      apply number_exp_suffix in H3
  end.
  eapply proper_suffix_l; [|by eapply proper_suffix_r]. by etrans.
Qed.

Lemma parse_number_defined b : parse_number b ≠ NoFuel ∧ parse_number b ≠ Undef.
Proof.
  destruct b as [|c r]; [done|]. unfold parse_number, number_int, number_frac, number_exp.
  repeat (case_match; simplify_eq/=); done.
Qed.

Lemma next_cont_suffix b : (next_cont b).2 `suffix_of` b.
Proof. unfold next_cont. by destruct b as [|c [|d b]]; simpl; auto with suffix. Qed.

Lemma next_cont_true b : (next_cont b).1 = true → (next_cont b).2 ≠ [].
Proof. unfold next_cont. by destruct (tail b). Qed.

Lemma conts_suffix k b : (conts k b).2 `suffix_of` b.
Proof.
  revert b. induction k as [|k IH]; intros b; simpl; [done|].
  pose proof (next_cont_suffix b) as H. destruct (next_cont b) as [[] b']; simpl in *; [|done].
  etrans; [apply IH|done].
Qed.

Lemma conts_true k b : b ≠ [] → (conts k b).1 = true → (conts k b).2 ≠ [].
Proof.
  revert b. induction k as [|k IH]; intros b Hb; simpl; [done|].
  pose proof (next_cont_true b) as H. destruct (next_cont b) as [[] b']; simpl in *; [|done].
  by apply IH, H.
Qed.

Lemma try_symbol_Ok e mask v k b ok b' :
  try_symbol e mask v k b = Ok (ok, b') →
  b' `suffix_of` b ∧ (b ≠ [] ∨ masked mask v NUL = false → ok = true → b' ≠ []).
Proof.
  unfold try_symbol. intros H. apply bind_Ok in H as (c & Hc & H). apply (inj Ok) in H.
  destruct (masked mask v c) eqn:Hm; [|by simplify_eq].
  pose proof (conts_suffix k b) as Hs. pose proof (conts_true k b) as Ht.
  rewrite H in Hs, Ht. split; [done|]. intros [Hb|Hb] ->; [by apply Ht|].
  apply Ht; [|done]. intros ->. destruct e; simplify_eq/=. congruence.
Qed.

Lemma proper_tail b' b : b' `suffix_of` b → b' ≠ [] → tail b' ≺ b.
Proof. intros H Hne. eapply proper_suffix_r; [by apply proper_suffix_tail|done]. Qed.

Lemma parse_symbol_progress e b b' : b ≠ [] → parse_symbol e b = Ok b' → b' ≺ b.
Proof.
  intros Hb H. unfold parse_symbol in H.
  apply bind_Ok in H as ([ok1 b1] & [Hs1 Hn1]%try_symbol_Ok & H).
  destruct ok1; [simplify_eq; apply proper_tail; eauto|].
  apply bind_Ok in H as ([ok2 b2] & [Hs2 Hn2]%try_symbol_Ok & H).
  assert (b2 `suffix_of` b) as Ht2 by (etrans; eassumption).
  destruct ok2; [simplify_eq; apply proper_tail; eauto|].
  apply bind_Ok in H as ([ok3 b3] & [Hs3 Hn3]%try_symbol_Ok & H).
  assert (b3 `suffix_of` b) as Ht3 by (etrans; eassumption).
  destruct ok3; [simplify_eq; apply proper_tail; eauto|].
  apply bind_Ok in H as ([ok4 b4] & [Hs4 Hn4]%try_symbol_Ok & H).
  assert (b4 `suffix_of` b) as Ht4 by (etrans; eassumption).
  destruct ok4; [|done]. simplify_eq. apply proper_tail; eauto.
Qed.

Lemma try_symbol_NoFuel e mask v k b : try_symbol e mask v k b ≠ NoFuel.
Proof. unfold try_symbol. intros [H|(?&?&?)]%bind_NoFuel; [by eapply deref_NoFuel|done]. Qed.

Lemma parse_symbol_NoFuel e b : parse_symbol e b ≠ NoFuel.
Proof.
  unfold parse_symbol.
  do 4 (intros [H|([[] ?]&_&H)]%bind_NoFuel; [by eapply try_symbol_NoFuel|done|revert H]).
  done.
Qed.

Lemma parse_string_loop_progress n e b b' :
  parse_string_loop n e b = Ok b' → b' `suffix_of` b.
Proof.
  revert b. induction n as [|n IH]; intros [|c r]; simpl; try (by repeat case_match; intros [= <-]).
  case_match; [by intros [= <-]|]. intros H'. apply bind_Ok in H' as (b1 & H1 & H2%IH).
  etrans; [exact H2|]. revert H1. case_match.
  - destruct r as [|d r']; [done|]. unfold parse_hex.
    repeat case_match; intros [= <-]; auto with suffix.
  - intros H1%parse_symbol_progress; auto with suffix.
Qed.

Lemma parse_string_loop_NoFuel n e b :
  (length b <= n)%nat → parse_string_loop n e b ≠ NoFuel.
Proof.
  revert b. induction n as [|n IH]; intros [|c r]; simpl; try done; [lia|]. intros Hn.
  case_match; [done|]. intros [Hf|(b1&H1&H2)]%bind_NoFuel.
  - revert Hf. case_match; [|apply parse_symbol_NoFuel].
    destruct r as [|d r']; [done|]. unfold parse_hex. by repeat case_match.
  - revert H2. apply IH. revert H1. case_match.
    + destruct r as [|d r']; [done|]. unfold parse_hex. simpl in Hn.
      repeat case_match; intros [= <-]; simpl in *; lia.
    + intros H1%parse_symbol_progress%proper_suffix_length; simpl in *; [lia|done].
Qed.

Lemma parse_string_progress e b b' : parse_string e b = Ok b' → b' ≺ b.
Proof.
  destruct b as [|c r]; [done|]. simpl. case_match; [|done].
  intros (b1&H1%parse_string_loop_progress&H2)%bind_Ok. split; [done|]. simpl.
  etrans; [|exact H1]. destruct b1 as [|d b1]; [done|]. case_match; [|done].
  injection H2 as <-. auto with suffix.
Qed.

Lemma parse_string_NoFuel e b : parse_string e b ≠ NoFuel.
Proof.
  destruct b as [|c r]; [done|]. simpl. case_match; [|done].
  intros [Hf|(b1&H1&H2)]%bind_NoFuel.
  - by apply parse_string_loop_NoFuel in Hf.
  - by repeat case_match.
Qed.

Lemma parse_null_defined b : parse_null b ≠ NoFuel ∧ parse_null b ≠ Undef.
Proof.
  destruct b as [|c b]; [done|]. unfold parse_null. case_match; [|done]. apply match_word_outcome.
Qed.
Lemma parse_bool_defined b : parse_bool b ≠ NoFuel ∧ parse_bool b ≠ Undef.
Proof.
  destruct b as [|c b]; [done|]. unfold parse_bool.
  repeat case_match; try done; apply match_word_outcome.
Qed.

Lemma starts_with_tail c b : starts_with c b = true → tail b ≺ b.
Proof. by intros [r ->]%starts_with_true. Qed.

Lemma values_progress n e :
  (∀ b b', parse_value_n n e b = Ok b' → b' ≺ b) ∧
  (∀ b b', parse_member_n n e b = Ok b' → b' ≺ b) ∧
  (∀ b b', parse_object_n n e b = Ok b' → b' ≺ b) ∧
  (∀ b b', parse_object_loop n e b = Ok b' → b' `suffix_of` b) ∧
  (∀ b b', parse_array_n n e b = Ok b' → b' ≺ b) ∧
  (∀ b b', parse_array_loop n e b = Ok b' → b' `suffix_of` b).
Proof.
  induction n as [|n (IHv & IHm & IHo & IHol & IHa & IHal)]; [done|].
  split_and!; intros b b'; simpl.
  - repeat case_match; try done;
      eauto using parse_null_progress, parse_bool_progress, parse_number_progress,
        parse_string_progress.
  - case_match; [|done]. intros (b1 & H1%parse_string_progress & H2)%bind_Ok.
    destruct b1 as [|c1 b1]; [done|].
    pose proof (parse_space_suffix (c1 :: b1)) as Hs. destruct (parse_space (c1 :: b1)) as [|c r]; [done|].
    case_match; [|done]. destruct r as [|d r]; [done|].
    pose proof (parse_space_suffix (d :: r)) as Hs'. destruct (parse_space (d :: r)) as [|c2 r2]; [done|].
    apply IHv in H2. eapply proper_suffix_r; [exact H2|].
    etrans; [exact Hs'|]. etrans; [by apply suffix_cons_r|]. etrans; [exact Hs|]. auto with suffix.
  - case_match eqn:Hb; [|done]. intros (b1 & H1%IHol & H2)%bind_Ok.
    case_match; [|done]. injection H2 as <-.
    eapply proper_suffix_l; [|by eapply starts_with_tail].
    etrans; [apply suffix_tail|done].
  - destruct b as [|c r]; [by intros [= <-]|]. case_match; [by intros [= <-]|].
    intros (b1 & H1%IHm%proper_suffix_suffix & H2)%bind_Ok.
    pose proof (parse_space_suffix b1) as Hs. destruct (parse_space b1) as [|d r1]; [done|].
    case_match; [done|]. apply IHol in H2.
    etrans; [exact H2|]. etrans; [|apply parse_space_suffix]. etrans; [|exact H1].
    etrans; [|exact Hs]. case_match; auto with suffix.
  - case_match eqn:Hb; [|done]. intros (b1 & H1%IHal & H2)%bind_Ok.
    case_match; [|done]. injection H2 as <-.
    eapply proper_suffix_l; [|by eapply starts_with_tail].
    etrans; [apply suffix_tail|done].
  - destruct b as [|c r]; [by intros [= <-]|]. case_match; [by intros [= <-]|].
    intros (b1 & H1%IHv%proper_suffix_suffix & H2)%bind_Ok.
    pose proof (parse_space_suffix b1) as Hs. destruct (parse_space b1) as [|d r1]; [done|].
    case_match; [done|]. apply IHal in H2.
    etrans; [exact H2|]. etrans; [|apply parse_space_suffix]. etrans; [|exact H1].
    etrans; [|exact Hs]. case_match; auto with suffix.
Qed.

(** ** The recursion bound is never reached *)

Lemma parse_space_length b : (length (parse_space b) <= length b)%nat.
Proof. apply suffix_length, parse_space_suffix. Qed.

Lemma loop_next_length (c : ascii) (r b1 b : bytes) :
  parse_space b1 = c :: r → (length b1 < length b)%nat →
  (length (if c =?c "," then r else c :: r) < length b)%nat.
Proof.
  intros Hs Hb. pose proof (parse_space_length b1) as Hl. rewrite Hs in Hl.
  case_match; simpl in *; lia.
Qed.

Lemma fuel_ok n e :
  (∀ b, (4 * length b + 2 <= n)%nat → parse_value_n n e b ≠ NoFuel) ∧
  (∀ b, (4 * length b + 3 <= n)%nat → parse_member_n n e b ≠ NoFuel) ∧
  (∀ b, (4 * length b + 1 <= n)%nat → parse_object_n n e b ≠ NoFuel) ∧
  (∀ b, (4 * length b + 4 <= n)%nat → parse_object_loop n e b ≠ NoFuel) ∧
  (∀ b, (4 * length b + 1 <= n)%nat → parse_array_n n e b ≠ NoFuel) ∧
  (∀ b, (4 * length b + 4 <= n)%nat → parse_array_loop n e b ≠ NoFuel).
Proof.
  induction n as [|n (IHv & IHm & IHo & IHol & IHa & IHal)]; [split_and!; intros; lia|].
  destruct (values_progress n e) as (Pv & Pm & _).
  split_and!; intros b Hn; simpl.
  - repeat case_match; try done;
      [apply parse_null_defined | apply parse_bool_defined | apply parse_number_defined
      | apply parse_string_NoFuel | apply IHo; lia | apply IHa; lia].
  - case_match; [|done]. intros [Hf|(b1 & H1 & H2)]%bind_NoFuel; [by apply parse_string_NoFuel in Hf|].
    apply parse_string_progress, proper_suffix_length in H1.
    destruct b1 as [|c1 b1]; [done|].
    pose proof (parse_space_length (c1 :: b1)) as Hs. destruct (parse_space (c1 :: b1)) as [|c r]; [done|].
    case_match; [|done]. destruct r as [|d r]; [done|].
    pose proof (parse_space_length (d :: r)) as Hs'. destruct (parse_space (d :: r)) as [|c2 r2]; [done|].
    revert H2. apply IHv. simpl in *. lia.
  - case_match eqn:Hb; [|done]. intros [Hf|(b1 & H1 & H2)]%bind_NoFuel; [|by case_match].
    apply starts_with_tail, proper_suffix_length in Hb. revert Hf. apply IHol. lia.
  - destruct b as [|c r]; [done|]. case_match; [done|].
    pose proof (parse_space_length (c :: r)) as Hsp.
    intros [Hf|(b1 & H1 & H2)]%bind_NoFuel; [revert Hf; apply IHm; lia|].
    apply Pm, proper_suffix_length in H1.
    destruct (parse_space b1) as [|d r1] eqn:Hs; [done|]. case_match; [done|].
    apply (loop_next_length _ _ _ (c :: r)) in Hs; [|lia]. revert H2. apply IHol. lia.
  - case_match eqn:Hb; [|done]. intros [Hf|(b1 & H1 & H2)]%bind_NoFuel; [|by case_match].
    apply starts_with_tail, proper_suffix_length in Hb. revert Hf. apply IHal. lia.
  - destruct b as [|c r]; [done|]. case_match; [done|].
    pose proof (parse_space_length (c :: r)) as Hsp.
    intros [Hf|(b1 & H1 & H2)]%bind_NoFuel; [revert Hf; apply IHv; lia|].
    apply Pv, proper_suffix_length in H1.
    destruct (parse_space b1) as [|d r1] eqn:Hs; [done|]. case_match; [done|].
    apply (loop_next_length _ _ _ (c :: r)) in Hs; [|lia]. revert H2. apply IHal. lia.
Qed.

Lemma bind_mono {A B} (m m' : res A) (f f' : A → res B) :
  (m ≠ NoFuel → m' = m) → (∀ a, f a ≠ NoFuel → f' a = f a) →
  (m ≫= f) ≠ NoFuel → (m' ≫= f') = (m ≫= f).
Proof. intros Hm Hf H. destruct m; simpl in *; rewrite ?Hm by done; simpl; auto. Qed.

Lemma fuel_mono n e :
  (∀ m b, (n <= m)%nat → parse_value_n n e b ≠ NoFuel → parse_value_n m e b = parse_value_n n e b) ∧
  (∀ m b, (n <= m)%nat → parse_member_n n e b ≠ NoFuel → parse_member_n m e b = parse_member_n n e b) ∧
  (∀ m b, (n <= m)%nat → parse_object_n n e b ≠ NoFuel → parse_object_n m e b = parse_object_n n e b) ∧
  (∀ m b, (n <= m)%nat → parse_object_loop n e b ≠ NoFuel →
     parse_object_loop m e b = parse_object_loop n e b) ∧
  (∀ m b, (n <= m)%nat → parse_array_n n e b ≠ NoFuel → parse_array_n m e b = parse_array_n n e b) ∧
  (∀ m b, (n <= m)%nat → parse_array_loop n e b ≠ NoFuel →
     parse_array_loop m e b = parse_array_loop n e b).
Proof.
  induction n as [|n (IHv & IHm & IHo & IHol & IHa & IHal)]; [done|].
  split_and!; intros [|m] b Hm; try lia; simpl;
    repeat first [ done | by eauto with lia | case_match ];
    apply bind_mono; try (intros; by eauto with lia);
    intros b1; repeat first [ done | by eauto with lia | case_match ].
Qed.

(** The bound of [parse_value] and of the three others can be any larger one. *)
Lemma parse_value_fuel n e b : (value_fuel b <= n)%nat → parse_value_n n e b = parse_value e b.
Proof. intros. apply fuel_mono; [done|]. apply fuel_ok. unfold value_fuel. lia. Qed.
Lemma parse_member_fuel n e b : (value_fuel b <= n)%nat → parse_member_n n e b = parse_member e b.
Proof. intros. apply fuel_mono; [done|]. apply fuel_ok. unfold value_fuel. lia. Qed.
Lemma parse_object_fuel n e b : (value_fuel b <= n)%nat → parse_object_n n e b = parse_object e b.
Proof. intros. apply fuel_mono; [done|]. apply fuel_ok. unfold value_fuel. lia. Qed.
Lemma parse_array_fuel n e b : (value_fuel b <= n)%nat → parse_array_n n e b = parse_array e b.
Proof. intros. apply fuel_mono; [done|]. apply fuel_ok. unfold value_fuel. lia. Qed.

Lemma parse_value_progress e b b' : parse_value e b = Ok b' → b' ≺ b.
Proof. apply values_progress. Qed.
Lemma parse_member_progress e b b' : parse_member e b = Ok b' → b' ≺ b.
Proof. apply values_progress. Qed.
Lemma parse_value_NoFuel e b : parse_value e b ≠ NoFuel.
Proof. apply fuel_ok. unfold value_fuel. lia. Qed.
Lemma parse_member_NoFuel e b : parse_member e b ≠ NoFuel.
Proof. apply fuel_ok. unfold value_fuel. lia. Qed.

(** ** No read past the end

    A buffer is readable when it comes from a [std::string], or when its
    last byte is a line feed, which is how the line splitter delivers the
    requests that arrive on a connection. *)
Definition readable (e : past) (b : bytes) : Prop :=
  e = NulTerminated ∨ b = [] ∨ last b = Some LF.

Lemma readable_suffix e b b' : b' `suffix_of` b → readable e b → readable e b'.
Proof.
  intros Hs [H|[->|H]]; [by left| |].
  - right; left. by apply suffix_nil_inv in Hs.
  - destruct (decide (b' = [])) as [->|Hne]; [by right; left|].
    right; right. by eapply suffix_last.
Qed.

Lemma masked_LF mask v c :
  (mask, v) ∈ [(224, 192); (240, 224); (248, 240); (192, 128)] → masked mask v c = true → c ≠ LF.
Proof.
  intros Hm H ->. repeat (apply elem_of_cons in Hm as [[= -> ->]|Hm]; [by vm_compute in H|]).
  by apply not_elem_of_nil in Hm.
Qed.

Lemma conts_readable k c r : c ≠ LF → last (c :: r) = Some LF → (conts k (c :: r)).2 ≠ [].
Proof.
  revert c r. induction k as [|k IH]; intros c r Hc Hl; simpl; [done|].
  unfold next_cont; simpl. destruct r as [|d r]; [by simplify_eq/=|].
  destruct (masked 192 128 d) eqn:Hd; simpl; [|done].
  apply IH; [|done]. eapply masked_LF; [|exact Hd]. set_solver.
Qed.

Lemma try_symbol_readable e mask v k b ok b' :
  (mask, v) ∈ [(224, 192); (240, 224); (248, 240); (192, 128)] →
  b ≠ [] → last b = Some LF → try_symbol e mask v k b = Ok (ok, b') →
  b' ≠ [] ∧ last b' = Some LF.
Proof.
  intros Hm Hb Hl H. assert (b' ≠ []) as Hne.
  { destruct b as [|c r]; [done|]. unfold try_symbol in H. simpl in H. apply (inj Ok) in H.
    destruct (masked mask v c) eqn:Hc; [|by simplify_eq].
    pose proof (conts_readable k c r) as Hr. rewrite H in Hr. apply Hr; [|done].
    by eapply masked_LF. }
  split; [done|]. eapply suffix_last; [|done|done]. by apply try_symbol_Ok in H as [? _].
Qed.

Lemma try_symbol_Undef e mask v k b : try_symbol e mask v k b = Undef → e = Foreign ∧ b = [].
Proof.
  unfold try_symbol. intros [H|(?&?&?)]%bind_Undef; [|done]. by destruct e, b.
Qed.

Lemma parse_symbol_readable e b : b ≠ [] → readable e b → parse_symbol e b ≠ Undef.
Proof.
  intros Hb [->|[?|Hl]] Hu; [|done|]; revert Hu; unfold parse_symbol.
  { do 4 (intros [H|([[] ?]&_&H)]%bind_Undef; [by apply try_symbol_Undef in H as [? _]|done|revert H]).
    done. }
  intros [Hu|([[] b1]&H1&Hu)]%bind_Undef; [by apply try_symbol_Undef in Hu as [_ ?]|done|].
  unfold try_symbol in H1. destruct b as [|c r]; [done|]. simpl in H1. apply (inj Ok) in H1.
  destruct (masked 128 0 c); [done|]. injection H1 as <-.
  apply bind_Undef in Hu as [Hu|([[] b2]&H2&Hu)]; [by apply try_symbol_Undef in Hu as [_ ?]|done|].
  apply try_symbol_readable in H2 as [Hb2 Hl2]; [|set_solver|done|done].
  apply bind_Undef in Hu as [Hu|([[] b3]&H3&Hu)]; [by apply try_symbol_Undef in Hu as [_ ?]|done|].
  apply try_symbol_readable in H3 as [Hb3 Hl3]; [|set_solver|done|done].
  apply bind_Undef in Hu as [Hu|([[] b4]&H4&Hu)]; [by apply try_symbol_Undef in Hu as [_ ?]|done|].
  done.
Qed.

Lemma parse_string_loop_readable n e b : readable e b → parse_string_loop n e b ≠ Undef.
Proof.
  revert b. induction n as [|n IH]; intros [|c r] Hr; simpl; try done; [by case_match|].
  case_match; [done|]. intros [Hf|(b1&H1&H2)]%bind_Undef.
  - revert Hf. case_match; [|by apply parse_symbol_readable].
    destruct r as [|d r']; [done|]. unfold parse_hex. by repeat case_match.
  - revert H2. apply IH. eapply readable_suffix; [|exact Hr]. revert H1. case_match.
    + destruct r as [|d r']; [done|]. unfold parse_hex.
      repeat case_match; intros [= <-]; auto with suffix.
    + intros H1%parse_symbol_progress; auto with suffix.
Qed.

Lemma parse_string_readable e b : readable e b → parse_string e b ≠ Undef.
Proof.
  destruct b as [|c r]; [done|]. simpl. intros Hr. case_match; [|done].
  intros [Hf|(b1&H1&H2)]%bind_Undef; [|by repeat case_match].
  revert Hf. apply parse_string_loop_readable. eapply readable_suffix; [|exact Hr]. auto with suffix.
Qed.

Lemma values_readable n e :
  (∀ b, readable e b → parse_value_n n e b ≠ Undef) ∧
  (∀ b, readable e b → parse_member_n n e b ≠ Undef) ∧
  (∀ b, readable e b → parse_object_n n e b ≠ Undef) ∧
  (∀ b, readable e b → parse_object_loop n e b ≠ Undef) ∧
  (∀ b, readable e b → parse_array_n n e b ≠ Undef) ∧
  (∀ b, readable e b → parse_array_loop n e b ≠ Undef).
Proof.
  induction n as [|n (IHv & IHm & IHo & IHol & IHa & IHal)]; [done|].
  destruct (values_progress n e) as (Pv & Pm & _).
  split_and!; intros b Hr; simpl.
  - repeat case_match; try done;
      [apply parse_null_defined | apply parse_bool_defined | apply parse_number_defined
      | by apply parse_string_readable | by apply IHo | by apply IHa].
  - case_match; [|done]. intros [Hf|(b1 & H1 & H2)]%bind_Undef; [by apply parse_string_readable in Hf|].
    apply parse_string_progress, proper_suffix_suffix in H1.
    eapply readable_suffix in H1; [|done]. destruct b1 as [|c1 b1]; [done|].
    eapply readable_suffix in H1; [|apply parse_space_suffix].
    destruct (parse_space (c1 :: b1)) as [|c r]; [done|].
    case_match; [|done]. destruct r as [|d r]; [done|].
    eapply (readable_suffix _ _ (d :: r)) in H1; [|auto with suffix].
    eapply readable_suffix in H1; [|apply parse_space_suffix].
    destruct (parse_space (d :: r)); [done|]. by eapply IHv.
  - case_match; [|done]. intros [Hf|(b1 & H1 & H2)]%bind_Undef; [|by case_match].
    revert Hf. apply IHol. eapply readable_suffix; [|done]. apply suffix_tail.
  - destruct b as [|c r]; [done|]. case_match; [done|].
    assert (readable e (parse_space (c :: r))) by (eapply readable_suffix; [apply parse_space_suffix|done]).
    intros [Hf|(b1 & H1 & H2)]%bind_Undef; [by eapply IHm in Hf|].
    apply Pm, proper_suffix_suffix in H1. eapply readable_suffix in H1; [|done].
    eapply readable_suffix in H1; [|apply parse_space_suffix].
    destruct (parse_space b1) as [|d r1]; [done|]. case_match; [done|].
    revert H2. apply IHol. eapply readable_suffix; [|done]. case_match; auto with suffix.
  - case_match; [|done]. intros [Hf|(b1 & H1 & H2)]%bind_Undef; [|by case_match].
    revert Hf. apply IHal. eapply readable_suffix; [|done]. apply suffix_tail.
  - destruct b as [|c r]; [done|]. case_match; [done|].
    assert (readable e (parse_space (c :: r))) by (eapply readable_suffix; [apply parse_space_suffix|done]).
    intros [Hf|(b1 & H1 & H2)]%bind_Undef; [by eapply IHv in Hf|].
    apply Pv, proper_suffix_suffix in H1. eapply readable_suffix in H1; [|done].
    eapply readable_suffix in H1; [|apply parse_space_suffix].
    destruct (parse_space b1) as [|d r1]; [done|]. case_match; [done|].
    revert H2. apply IHal. eapply readable_suffix; [|done]. case_match; auto with suffix.
Qed.

Lemma parse_value_readable e b : readable e b → parse_value e b ≠ Undef.
Proof. apply values_readable. Qed.
Lemma parse_member_readable e b : readable e b → parse_member e b ≠ Undef.
Proof. apply values_readable. Qed.

(** C25. Skipping a JSON value always terminates within the recursion bound,
    and on a buffer that is NUL-terminated or ends with a line feed it never
    reads past the end: the outcome is a proper suffix of the input or an
    exception. *)
Theorem parse_value_safe e b :
  readable e b →
  (∃ b', parse_value e b = Ok b' ∧ b' ≺ b) ∨ (∃ x, parse_value e b = Throw x).
Proof.
  intros Hr. pose proof (parse_value_NoFuel e b). pose proof (parse_value_readable e b Hr).
  destruct (parse_value e b) as [b'|x| |] eqn:Hv; try done; [left|right]; eauto.
  exists b'. split; [done|]. by apply parse_value_progress in Hv.
Qed.

Lemma parse_value_safe_witness :
  let b := js "{'a':[1,'b']} " ++ [LF] in
  (∃ b', parse_value Foreign b = Ok b' ∧ b' ≺ b) ∨ (∃ x, parse_value Foreign b = Throw x).
Proof. cbv zeta. apply parse_value_safe. do 2 right. vm_compute. reflexivity. Defined.

(** ** UTF-8 symbols *)

(** What the head of a well-formed UTF-8 sequence of 1 to 4 bytes is. *)
Definition ascii_byte (c : ascii) : bool := masked 128 0 c.
Definition lead2 (c : ascii) : bool := masked 224 192 c.
Definition lead3 (c : ascii) : bool := masked 240 224 c.
Definition lead4 (c : ascii) : bool := masked 248 240 c.
Definition cont_byte (c : ascii) : bool := masked 192 128 c.

Lemma cont_byte_not_lead c :
  cont_byte c = true → ascii_byte c = false ∧ lead2 c = false ∧ lead3 c = false ∧ lead4 c = false.
Proof.
  intros Hc.
  enough (implb (cont_byte c) (negb (ascii_byte c) && negb (lead2 c) && negb (lead3 c) && negb (lead4 c))
          = true) as H by (rewrite Hc in H; simpl in H; rewrite !andb_true_iff, !negb_true_iff in H; tauto).
  revert c Hc. intros c _. revert c. all_bytes.
Qed.
Lemma lead2_only c : lead2 c = true → ascii_byte c = false.
Proof.
  intros Hc. enough (implb (lead2 c) (negb (ascii_byte c)) = true) as H
    by (rewrite Hc in H; by apply negb_true_iff).
  clear Hc. revert c. all_bytes.
Qed.
Lemma lead3_only c : lead3 c = true → ascii_byte c = false ∧ lead2 c = false.
Proof.
  intros Hc. enough (implb (lead3 c) (negb (ascii_byte c) && negb (lead2 c)) = true) as H
    by (rewrite Hc in H; simpl in H; by rewrite andb_true_iff, !negb_true_iff in H).
  clear Hc. revert c. all_bytes.
Qed.
Lemma lead4_only c : lead4 c = true → ascii_byte c = false ∧ lead2 c = false ∧ lead3 c = false.
Proof.
  intros Hc. enough (implb (lead4 c) (negb (ascii_byte c) && negb (lead2 c) && negb (lead3 c)) = true) as H
    by (rewrite Hc in H; simpl in H; rewrite !andb_true_iff, !negb_true_iff in H; tauto).
  clear Hc. revert c. all_bytes.
Qed.

Lemma parse_symbol_1 e c r : ascii_byte c = true → parse_symbol e (c :: r) = Ok r.
Proof. intros H. unfold parse_symbol, try_symbol. simpl. unfold ascii_byte in H. by rewrite H. Qed.
Lemma parse_symbol_2 e c d r :
  lead2 c = true → cont_byte d = true → parse_symbol e (c :: d :: r) = Ok r.
Proof.
  intros Hc Hd. pose proof (lead2_only _ Hc) as H1.
  unfold ascii_byte, lead2, cont_byte in *. unfold parse_symbol, try_symbol, conts, next_cont. simpl.
  by rewrite H1; simpl; rewrite Hc, Hd.
Qed.
Lemma parse_symbol_3 e c d1 d2 r :
  lead3 c = true → cont_byte d1 = true → cont_byte d2 = true →
  parse_symbol e (c :: d1 :: d2 :: r) = Ok r.
Proof.
  intros Hc Hd1 Hd2. destruct (lead3_only _ Hc) as [H1 H2].
  unfold ascii_byte, lead2, lead3, cont_byte in *.
  unfold parse_symbol, try_symbol, conts, next_cont. simpl.
  rewrite H1; simpl; rewrite H2; simpl. by rewrite Hc, Hd1; simpl; rewrite Hd2.
Qed.
(** A four-byte symbol is left after its third byte ... *)
Lemma parse_symbol_4 e c d1 d2 r :
  lead4 c = true → cont_byte d1 = true → cont_byte d2 = true →
  parse_symbol e (c :: d1 :: d2 :: r) = Ok r.
Proof.
  intros Hc Hd1 Hd2. destruct (lead4_only _ Hc) as (H1 & H2 & H3).
  unfold ascii_byte, lead2, lead3, lead4, cont_byte in *.
  unfold parse_symbol, try_symbol, conts, next_cont. simpl.
  rewrite H1; simpl; rewrite H2; simpl; rewrite H3; simpl. by rewrite Hc, Hd1; simpl; rewrite Hd2.
Qed.
(** ... and its fourth byte is no symbol. *)
Lemma parse_symbol_cont e c r :
  cont_byte c = true → parse_symbol e (c :: r) = throw_at invalid_json_string (c :: r).
Proof.
  intros (H1 & H2 & H3 & H4)%cont_byte_not_lead.
  unfold ascii_byte, lead2, lead3, lead4 in *. unfold parse_symbol, try_symbol. simpl.
  by rewrite H1; simpl; rewrite H2; simpl; rewrite H3; simpl; rewrite H4.
Qed.

(** Characters that stand for themselves inside a JSON string. *)
Definition plain (c : ascii) : bool := ascii_byte c && (c ≠?c QUOTE) && (c ≠?c BSLASH).

Lemma plain_spec c : plain c = true → ascii_byte c = true ∧ (c =?c QUOTE) = false ∧ (c =?c BSLASH) = false.
Proof. unfold plain. rewrite !andb_true_iff, !negb_true_iff. tauto. Qed.

Lemma non_ascii_not_special c :
  ascii_byte c = false → (c =?c QUOTE) = false ∧ (c =?c BSLASH) = false.
Proof.
  intros Hc. split; (byte_case; [subst; by vm_compute in Hc|done]).
Qed.

Lemma parse_string_loop_plain n e s r :
  Forall (λ c, plain c = true) s →
  parse_string_loop (length s + n) e (s ++ r) = parse_string_loop n e r.
Proof.
  induction s as [|c s IH]; intros Hs; [done|].
  inversion Hs as [|? ? (H1 & H2 & H3)%plain_spec Hs']; subst. simpl.
  rewrite H2, H3, parse_symbol_1 by done. simpl. by apply IH.
Qed.

(** The string scanner rejects every well-formed UTF-8 symbol of four
    bytes, although its comment lists them as the fourth form: whatever
    precedes the symbol and follows it, the scan of the literal throws. *)
Theorem parse_string_rejects_4_byte_symbols e s c d1 d2 d3 rest :
  Forall (λ c, plain c = true) s →
  lead4 c = true → cont_byte d1 = true → cont_byte d2 = true → cont_byte d3 = true →
  parse_string e (QUOTE :: s ++ c :: d1 :: d2 :: d3 :: rest)
  = throw_at invalid_json_string (d3 :: rest).
Proof.
  intros Hs Hc H1 H2 H3. destruct (lead4_only _ Hc) as (Ha & _ & _).
  destruct (non_ascii_not_special _ Ha) as [Hq Hb].
  destruct (cont_byte_not_lead _ H3) as (Ha3 & _).
  destruct (non_ascii_not_special _ Ha3) as [Hq3 Hb3].
  unfold parse_string. rewrite Ascii.eqb_refl.
  replace (length (s ++ _)) with (length s + S (S (S (S (length rest)))))%nat
    by (rewrite length_app; simpl; lia).
  rewrite parse_string_loop_plain by done.
  cbn [parse_string_loop]. rewrite Hq, Hb, parse_symbol_4 by done.
  cbn [mbind res_bind parse_string_loop]. by rewrite Hq3, Hb3, parse_symbol_cont.
Qed.

Lemma parse_string_rejects_4_byte_symbols_witness :
  parse_string Foreign (QUOTE :: str "ab" ++ chr 240 :: chr 159 :: chr 152 :: chr 128 :: js "'")
  = throw_at invalid_json_string (chr 128 :: js "'").
Proof.
  apply parse_string_rejects_4_byte_symbols; [repeat constructor|reflexivity..].
Defined.
