(* ===== verification/JsonNumber.v ===== *)
(** * JsonNumber: [fas/misc/json/json_number.hpp]

    The integer and boolean serializers.  An integer is written into a
    buffer of the class, least significant digit first, the buffer is then
    reversed in place by exclusive-or swaps and copied out. *)

From S2P Require Import Prelude JsonParser.

(** ** Sizes *)

(* src: fas/misc/json/json_number.hpp 58-58 integer_buffer_size *)
Definition ity_sizeof (t : ity) : Z := ity_bits t / 8.

(* src: fas/misc/json/json_number.hpp 23-53 is_signed_integer *)
Definition is_less_zero (t : ity) (v : Z) : bool :=
  if ity_signed t then v <? 0 else false.

(* src: fas/misc/json/json_number.hpp 55-59 integer_buffer_size *)
Definition integer_buffer_size (t : ity) : nat :=
  Z.to_nat (ity_sizeof t * 2 + ity_sizeof t / 2 + ity_sizeof t mod 2
            + (if ity_signed t then 1 else 0)).

(** ** Writing *)

(** The two loops [for( ; v!=0 ; ++end, v/=10)]: [room] is what is left of
    the buffer, and writing past it is undefined behaviour. *)
(* src: fas/misc/json/json_number.hpp 76-88 integer_serializer::serialize *)
Fixpoint digits_loop (neg : bool) (room : nat) (v : Z) : res bytes :=
  if v =? 0 then Ok []
  else match room with
  | O => Undef
  | S room =>
      let d := if neg then 48 - Z.rem v 10 else 48 + Z.rem v 10 in
      ds ← digits_loop neg room (Z.quot v 10);
      mret (chr d :: ds)
  end.

(* src: fas/misc/json/json_number.hpp 91-91 integer_serializer::serialize *)
Definition bxor (c d : ascii) : ascii :=
  match c, d with
  | Ascii a0 a1 a2 a3 a4 a5 a6 a7, Ascii b0 b1 b2 b3 b4 b5 b6 b7 =>
      Ascii (xorb a0 b0) (xorb a1 b1) (xorb a2 b2) (xorb a3 b3)
            (xorb a4 b4) (xorb a5 b5) (xorb a6 b6) (xorb a7 b7)
  end.

(** [*i ^= *j] on the buffer. *)
(* src: fas/misc/json/json_number.hpp 91-91 integer_serializer::serialize *)
Definition xor_at (i j : nat) (l : bytes) : bytes :=
  match l !! i, l !! j with
  | Some x, Some y => <[i := bxor x y]> l
  | _, _ => l
  end.

(** [for ( cur = end ; cur-beg > 1; --cur, ++beg)] with the three exclusive
    ors of its body; each turn brings the two ends closer. *)
(* src: fas/misc/json/json_number.hpp 90-91 integer_serializer::serialize *)
Fixpoint swap_loop (n : nat) (beg cur : nat) (l : bytes) : bytes :=
  match n with
  | O => l
  | S n =>
      if (1 <? Z.of_nat cur - Z.of_nat beg) then
        let j := (cur - 1)%nat in
        swap_loop n (S beg) j (xor_at beg j (xor_at j beg (xor_at beg j l)))
      else l
  end.

(* src: fas/misc/json/json_number.hpp 61-96 integer_serializer::serialize *)
Definition serialize (t : ity) (v : Z) : res bytes :=
  let size := integer_buffer_size t in
  '(buf, beg) ←
    (if v =? 0 then (match size with O => Undef | S _ => Ok (str "0", 0%nat) end)
     else if is_less_zero t v then
       match size with
       | O => Undef
       | S room => ds ← digits_loop true room v; mret ("-"%char :: ds, 1%nat)
       end
     else ds ← digits_loop false size v; mret (ds, 0%nat));
  mret (swap_loop (length buf) beg (length buf) buf).

(** ** The serializers *)

(** [serializerN<T>::operator()] for the ten integer types. *)
(* src: fas/misc/json/json_number.hpp 129-137 serializerN::operator() *)
Definition ser_integer (t : ity) (v : Z) : res bytes := serialize t v.

(* src: fas/misc/json/json_number.hpp 98-149 serializerN::operator() *)
Definition unser_integer (t : ity) (v : Z) (b : bytes) : Z * res bytes :=
  if is_null b then (0, parse_null b) else unserialize_integer t v b.

(* src: fas/misc/json/json_number.hpp 216-227 serializerT<value<bool>>::operator() *)
Definition ser_bool (v : bool) : bytes := if v then str "true" else str "false".

(* src: fas/misc/json/json_number.hpp 229-250 serializerT<value<bool>>::operator() *)
Definition unser_bool (v : bool) (b : bytes) : bool * res bytes :=
  match b with
  | [] => (v, throw end_fragment)
  | c :: _ =>
      if is_null b then (false, parse_null b)
      else if c =?c "t" then (true, parse_bool b)
      else if c =?c "f" then (false, parse_bool b)
      else (false, throw_at invalid_json_bool b)
  end.

Example ser_min : ser_integer longlong_t (-9223372036854775808) = Ok (str "-9223372036854775808").
Proof. vm_compute. reflexivity. Qed.
Example ser_char : ser_integer char_t (-128) = Ok (str "-128").
Proof. vm_compute. reflexivity. Qed.
Example unser_1 : unser_integer int_t 7 (str "-1205, 3") = (-1205, Ok (str ", 3")).
Proof. vm_compute. reflexivity. Qed.
Example unser_min : unser_integer longlong_t 7 (str "-9223372036854775808") = (922337203685477580, Undef).
Proof. vm_compute. reflexivity. Qed.

(** ** The in-place reversal *)

Lemma bxor_cancel_r x y : bxor (bxor x y) y = x.
Proof.
  destruct x as [a0 a1 a2 a3 a4 a5 a6 a7], y as [b0 b1 b2 b3 b4 b5 b6 b7]. simpl.
  by rewrite !xorb_assoc, !xorb_nilpotent, !xorb_false_r.
Qed.
Lemma bxor_comm x y : bxor x y = bxor y x.
Proof.
  destruct x as [a0 a1 a2 a3 a4 a5 a6 a7], y as [b0 b1 b2 b3 b4 b5 b6 b7]. simpl.
  f_equal; apply xorb_comm.
Qed.
Lemma bxor_cancel_l x y : bxor (bxor x y) x = y.
Proof. rewrite (bxor_comm x y). apply bxor_cancel_r. Qed.

Lemma xor_at_eq i j l x y :
  l !! i = Some x → l !! j = Some y → xor_at i j l = <[i := bxor x y]> l.
Proof. intros Hi Hj. unfold xor_at. by rewrite Hi, Hj. Qed.

(** The three exclusive ors exchange the two bytes. *)
Lemma xor_swap l i j x y :
  i ≠ j → l !! i = Some x → l !! j = Some y →
  xor_at i j (xor_at j i (xor_at i j l)) = <[j := x]> (<[i := y]> l).
Proof.
  intros Hij Hi Hj.
  assert (i < length l)%nat by (by eapply lookup_lt_Some).
  assert (j < length l)%nat by (by eapply lookup_lt_Some).
  rewrite (xor_at_eq i j l x y) by done.
  set (l1 := <[i := bxor x y]> l).
  assert (l1 !! i = Some (bxor x y)) as H1i by (by apply list_lookup_insert_eq).
  assert (l1 !! j = Some y) as H1j by (unfold l1; by rewrite list_lookup_insert_ne).
  rewrite (xor_at_eq j i l1 y (bxor x y)) by done.
  set (l2 := <[j := bxor y (bxor x y)]> l1).
  assert (l2 !! i = Some (bxor x y)) as H2i by (unfold l2; by rewrite list_lookup_insert_ne).
  assert (l2 !! j = Some x) as H2j.
  { unfold l2. rewrite list_lookup_insert_eq by (unfold l1; by rewrite length_insert).
    f_equal. rewrite (bxor_comm y). apply bxor_cancel_r. }
  rewrite (xor_at_eq i j l2 (bxor x y) x) by done. unfold l2, l1.
  rewrite bxor_cancel_l, (bxor_comm y), bxor_cancel_r.
  rewrite (list_insert_insert_ne _ i j) by done. by rewrite list_insert_insert_eq.
Qed.

Lemma swap_loop_app n pre mid post :
  (length mid <= n)%nat →
  swap_loop n (length pre) (length pre + length mid) (pre ++ mid ++ post)
  = pre ++ reverse mid ++ post.
Proof.
  revert pre mid post. induction n as [|n IH]; intros pre mid post Hn; simpl.
  { by destruct mid; simpl in *; [|lia]. }
  case_match eqn:Hlt; [apply Z.ltb_lt in Hlt|apply Z.ltb_ge in Hlt].
  2:{ destruct mid as [|x [|y mid]]; simpl in *; [done|done|lia]. }
  destruct mid as [|x mid]; [simpl in *; lia|].
  destruct mid as [|y mid _] using rev_ind; [simpl in *; lia|].
  simpl in *. rewrite length_app in *. simpl in *.
  rewrite (xor_swap _ (length pre) _ x y); [|lia| |].
  - replace (length pre + S (length mid + 1) - 1)%nat with (length pre + S (length mid))%nat by lia.
    rewrite insert_app_r_alt by lia. rewrite Nat.sub_diag. simpl.
    rewrite insert_app_r_alt by lia.
    replace (length pre + S (length mid) - length pre)%nat with (S (length mid)) by lia. simpl.
    rewrite <-app_assoc. rewrite insert_app_r_alt by lia. rewrite Nat.sub_diag. simpl.
    specialize (IH (pre ++ [y]) mid (x :: post)).
    rewrite length_app, <-!app_assoc in IH. simpl in IH.
    replace (S (length pre)) with (length pre + 1)%nat by lia.
    replace (length pre + S (length mid))%nat with (length pre + 1 + length mid)%nat by lia.
    rewrite IH by lia. rewrite reverse_cons, reverse_app. by rewrite <-!app_assoc.
  - by apply list_lookup_middle.
  - rewrite lookup_app_r by lia.
    replace (length pre + S (length mid + 1) - 1 - length pre)%nat with (S (length mid)) by lia. simpl.
    rewrite <-app_assoc. by apply list_lookup_middle.
Qed.

Lemma swap_loop_all pre mid :
  swap_loop (length (pre ++ mid)) (length pre) (length (pre ++ mid)) (pre ++ mid) = pre ++ reverse mid.
Proof.
  rewrite length_app. pose proof (swap_loop_app (length pre + length mid) pre mid []) as H.
  rewrite !app_nil_r in H. apply H. lia.
Qed.

(** The exclusive-or loop of [integer_serializer::serialize] is a reversal
    in place of the part of the buffer between its two pointers. *)
Theorem swap_loop_reverse pre mid :
  swap_loop (length (pre ++ mid)) (length pre) (length (pre ++ mid)) (pre ++ mid) = pre ++ reverse mid.
Proof. apply swap_loop_all. Qed.

(** ** Decimal values *)

Definition digit_val (c : ascii) : Z := code c - 48.

(** The value of a string of digits read after [acc]. *)
Definition dval (acc : Z) (s : bytes) : Z := foldl (λ a c, a * 10 + digit_val c) acc s.
Definition digits (s : bytes) : Prop := Forall (λ c, is_digit c = true) s.

(** A canonical numeral: digits with no superfluous leading zero. *)
Definition numeral (s : bytes) : Prop :=
  digits s ∧ s ≠ [] ∧ (head s = Some "0"%char → s = str "0").

Lemma digit_val_range c : is_digit c = true → 0 <= digit_val c <= 9.
Proof. unfold is_digit, digit_val. rewrite andb_true_iff, !Z.leb_le. lia. Qed.

Lemma code_digit d : 0 <= d <= 9 → code (chr (48 + d)) = 48 + d.
Proof. intros Hd. rewrite code_chr, Z.mod_small; lia. Qed.
Lemma is_digit_chr d : 0 <= d <= 9 → is_digit (chr (48 + d)) = true.
Proof. intros Hd. unfold is_digit. rewrite code_digit by done. apply andb_true_iff. rewrite !Z.leb_le. lia. Qed.

Lemma dval_snoc acc s c : dval acc (s ++ [c]) = dval acc s * 10 + digit_val c.
Proof. unfold dval. by rewrite foldl_app. Qed.

Lemma dval_mono acc s : digits s → 0 <= acc → acc <= dval acc s.
Proof.
  revert acc. induction s as [|c s IH]; intros acc Hs Ha; simpl; [lia|].
  inversion Hs as [|? ? Hc%digit_val_range Hs']; subst.
  assert (0 <= acc * 10 + digit_val c) by lia.
  specialize (IH (acc * 10 + digit_val c) Hs'). unfold dval in *. simpl. lia.
Qed.

(** The loop that produces the digits, least significant first. *)
Lemma digits_loop_neg room v : digits_loop true room v = digits_loop false room (- v).
Proof.
  revert v. induction room as [|room IH]; intros v; simpl.
  - by destruct v.
  - rewrite IH, Z.rem_opp_l', Z.quot_opp_l by lia.
    replace (48 + - Z.rem v 10) with (48 - Z.rem v 10) by lia. by destruct v.
Qed.

Lemma digits_loop_spec room v :
  0 <= v < 10 ^ Z.of_nat room →
  ∃ ds, digits_loop false room v = Ok ds ∧ digits (reverse ds) ∧ dval 0 (reverse ds) = v ∧
        (length ds <= room)%nat ∧ (v = 0 → ds = []) ∧
        (0 < v → ds ≠ [] ∧ head (reverse ds) ≠ Some "0"%char).
Proof.
  revert v. induction room as [|room IH]; intros v Hv.
  { replace v with 0 by (simpl in Hv; lia). exists []. split_and!; try done. constructor. }
  destruct (decide (v = 0)) as [->|Hne].
  { exists []. split_and!; try done; [constructor|simpl; lia]. }
  cbn [digits_loop]. rewrite (proj2 (Z.eqb_neq _ _)) by done.
  rewrite Nat2Z.inj_succ, Z.pow_succ_r in Hv by lia.
  rewrite Z.rem_mod_nonneg, Z.quot_div_nonneg by lia.
  pose proof (Z.mod_pos_bound v 10 ltac:(lia)) as Hm.
  pose proof (Z.div_mod v 10 ltac:(lia)) as Hdm.
  destruct (IH (v / 10)) as (ds & -> & Hds & Hval & Hlen & Hzero & Hlead).
  { split; [apply Z.div_pos; lia|]. apply Z.div_lt_upper_bound; lia. }
  exists (chr (48 + v mod 10) :: ds). simpl. rewrite reverse_cons.
  split_and!; [done| | |lia|done|].
  - apply Forall_app. split; [done|]. constructor; [|constructor]. apply is_digit_chr. lia.
  - rewrite dval_snoc, Hval. unfold digit_val. rewrite code_digit by lia. lia.
  - intros _. split; [done|]. destruct (decide (0 < v / 10)) as [Hq|Hq].
    + destruct (Hlead Hq) as [Hn Hh].
      destruct (reverse ds) as [|d ds'] eqn:Hrev; [|exact Hh].
      apply (f_equal length) in Hrev. rewrite length_reverse in Hrev. by destruct ds.
    + rewrite Hzero by (pose proof (Z.div_pos v 10); lia). simpl. intros [= Hc].
      assert (48 + v mod 10 = 48) by (rewrite <-code_digit by lia; by rewrite Hc). lia.
Qed.

(** ** Writing an integer *)

(** The buffer is large enough for every value of the type. *)
Lemma buffer_fits t v :
  t ∈ std_types → in_range t v = true →
  (0 <= v → v < 10 ^ Z.of_nat (integer_buffer_size t)) ∧
  (is_less_zero t v = true →
     v < 0 ∧ ∃ room, integer_buffer_size t = S room ∧ - v < 10 ^ Z.of_nat room) ∧
  (is_less_zero t v = false → 0 <= v) ∧ integer_buffer_size t ≠ O.
Proof.
  intros Ht Hv%in_range_spec. unfold is_less_zero.
  std_case Ht; std_bounds;
    match goal with |- context [integer_buffer_size ?t] => eval_in_all (integer_buffer_size t) end;
    rewrite ?Z.ltb_lt, ?Z.ltb_ge;
    (split_and!; [| |intros; try lia|done]);
    try (match goal with |- context [10 ^ ?n] => eval_in_all (10 ^ n) end; lia);
    intros; try done; (split; [lia|]); eexists; (split; [done|]);
    match goal with |- context [10 ^ ?n] => eval_in_all (10 ^ n) end; lia.
Qed.

Definition sign_of (v : Z) : bytes := if v <? 0 then str "-" else [].

Lemma serialize_numeral_of t v :
  t ∈ std_types → in_range t v = true →
  ∃ ds, serialize t v = Ok (sign_of v ++ ds) ∧
        numeral ds ∧ dval 0 ds = Z.abs v ∧
        (length (sign_of v ++ ds) <= integer_buffer_size t)%nat.
Proof.
  intros Ht Hv. destruct (buffer_fits t v Ht Hv) as (Hpos & Hneg & Hnn & Hsz).
  unfold serialize. destruct (Z.eqb_spec v 0) as [->|Hne].
  { exists (str "0"). destruct (integer_buffer_size t) as [|k]; [done|].
    split_and!; try done; [|simpl; lia]. split_and!; [repeat constructor|done|done]. }
  destruct (is_less_zero t v) eqn:Hz.
  - destruct (Hneg eq_refl) as (Hlt & room & Hroom & Hfit). rewrite Hroom.
    rewrite digits_loop_neg.
    destruct (digits_loop_spec room (- v)) as (ds & -> & Hds & Hval & Hlen & _ & Hlead); [lia|].
    destruct (Hlead ltac:(lia)) as [Hn Hh].
    exists (reverse ds). unfold sign_of. rewrite (proj2 (Z.ltb_lt _ _)) by done. simpl. split_and!.
    + f_equal. exact (swap_loop_all (str "-") ds).
    + split_and!; [done| |by intros].
      intros Hr. apply (f_equal length) in Hr. rewrite length_reverse in Hr. by destruct ds.
    + rewrite Hval. lia.
    + rewrite length_reverse. lia.
  - specialize (Hnn eq_refl). specialize (Hpos Hnn).
    destruct (digits_loop_spec (integer_buffer_size t) v) as (ds & -> & Hds & Hval & Hlen & _ & Hlead);
      [lia|].
    destruct (Hlead ltac:(lia)) as [Hn Hh].
    exists (reverse ds). unfold sign_of. rewrite (proj2 (Z.ltb_ge _ _)) by done. simpl. split_and!.
    + f_equal. exact (swap_loop_all [] ds).
    + split_and!; [done| |by intros].
      intros Hr. apply (f_equal length) in Hr. rewrite length_reverse in Hr. by destruct ds.
    + rewrite Hval. lia.
    + rewrite length_reverse. lia.
Qed.

(** Serializing an integer of any of the ten types never writes past the
    buffer of [integer_serializer] and produces its decimal numeral: an
    optional minus sign, then digits without a leading zero whose value is
    the absolute value of the integer. *)
Theorem serialize_numeral t v :
  t ∈ std_types → in_range t v = true →
  ∃ ds, serialize t v = Ok (sign_of v ++ ds) ∧
        numeral ds ∧ dval 0 ds = Z.abs v ∧
        (length (sign_of v ++ ds) <= integer_buffer_size t)%nat.
Proof. exact (serialize_numeral_of t v). Qed.

Lemma serialize_numeral_witness :
  in_range longlong_t (-9223372036854775808) = true ∧
  ∃ ds, serialize longlong_t (-9223372036854775808) = Ok (str "-" ++ ds) ∧
        numeral ds ∧ dval 0 ds = 9223372036854775808 ∧
        (length (str "-" ++ ds) <= integer_buffer_size longlong_t)%nat.
Proof.
  split; [reflexivity|].
  apply (serialize_numeral longlong_t (-9223372036854775808)); [|reflexivity].
  apply list_elem_of_In. simpl. tauto.
Defined.

(** ** Reading an integer back *)

(** How far above the maximum of a type an intermediate value may be: types
    narrower than [int] are accumulated in [int]. *)
Definition slack (t : ity) : Z := if ity_bits t <? 32 then 1 else 0.

Lemma int_op_small t z :
  t ∈ std_types → 0 <= z <= int_max t + slack t → int_op t z = Ok (if ity_bits t <? 32 then z else wrap t z).
Proof.
  intros Ht Hz. unfold int_op, slack in *.
  destruct (in_range t z) eqn:Hr.
  - destruct (ity_bits t <? 32) eqn:Hb.
    + rewrite (proj2 (in_range_spec int_t z)); [done|]. apply in_range_spec in Hr.
      std_case Ht; std_bounds; vm_compute in Hb; try done; lia.
    + by destruct (ity_signed t); rewrite ?wrap_in_range.
  - destruct (ity_bits t <? 32) eqn:Hb.
    + rewrite (proj2 (in_range_spec int_t z)); [done|].
      std_case Ht; std_bounds; vm_compute in Hb; try done; lia.
    + exfalso. enough (in_range t z = true) by congruence. apply in_range_spec.
      std_case Ht; std_bounds; vm_compute in Hb; try done; lia.
Qed.

Lemma accumulate_ok t acc c :
  t ∈ std_types → is_digit c = true → 0 <= acc →
  acc * 10 + digit_val c <= int_max t + slack t →
  accumulate t acc c = Ok (wrap t (acc * 10 + digit_val c)).
Proof.
  intros Ht Hc%digit_val_range Ha Hle. unfold accumulate. fold (digit_val c).
  rewrite int_op_small by (done || lia). simpl.
  destruct (ity_bits t <? 32) eqn:Hb.
  - rewrite int_op_small by (done || lia). simpl. by rewrite Hb.
  - assert (∀ z, 0 <= z <= int_max t → wrap t z = z) as Hw.
    { intros z Hz. apply wrap_in_range; [done|]. apply in_range_spec.
      std_case Ht; std_bounds; lia. }
    assert (slack t = 0) as Hs by (unfold slack; by rewrite Hb). rewrite Hs in Hle.
    rewrite (Hw (acc * 10)) by lia.
    rewrite int_op_small by (done || lia). simpl. rewrite Hb. f_equal. by rewrite !Hw by (rewrite ?Hw; lia).
Qed.

Lemma wrap_small t z : t ∈ std_types → 0 <= z <= int_max t → wrap t z = z.
Proof.
  intros Ht Hz. apply wrap_in_range; [done|]. apply in_range_spec. std_case Ht; std_bounds; lia.
Qed.

Lemma integer_loop_digits t acc ds rest :
  t ∈ std_types → digits ds → ds ≠ [] → starts_digit rest = false → 0 <= acc →
  dval acc ds <= int_max t + slack t →
  integer_loop t acc (ds ++ rest) = (wrap t (dval acc ds), Ok rest).
Proof.
  intros Ht Hds Hne Hrest Ha Hle.
  revert acc Ha Hle. induction ds as [|c ds IH]; intros acc Ha Hle; [done|].
  inversion Hds as [|? ? Hc Hds']; subst. simpl. rewrite Hc.
  pose proof (digit_val_range c Hc) as Hd.
  change (dval acc (c :: ds)) with (dval (acc * 10 + digit_val c) ds) in *.
  assert (acc * 10 + digit_val c <= dval (acc * 10 + digit_val c) ds) as Hm by (apply dval_mono; [done|lia]).
  rewrite accumulate_ok by (done || lia). destruct ds as [|d ds].
  - simpl. destruct rest as [|x rest]; simpl in *; [done|]. by rewrite Hrest.
  - assert (acc * 10 + digit_val c <= int_max t) as Hi.
    { change (dval (acc * 10 + digit_val c) (d :: ds))
        with (dval ((acc * 10 + digit_val c) * 10 + digit_val d) ds) in *.
      inversion Hds' as [|? ? Hdd%digit_val_range Hds'']; subst.
      assert ((acc * 10 + digit_val c) * 10 + digit_val d
              <= dval ((acc * 10 + digit_val c) * 10 + digit_val d) ds) by (apply dval_mono; [done|lia]).
      unfold slack in *. case_match; [|lia].
      assert (1 <= int_max t) by (clear -Ht; std_case Ht; std_bounds; lia). lia. }
    rewrite wrap_small by (done || lia). apply IH; [done|done|lia|done].
Qed.

Lemma digits_not_null ds rest : digits ds → ds ≠ [] → is_null (ds ++ rest) = false.
Proof.
  intros Hds Hne. destruct ds as [|c ds]; [done|]. inversion Hds as [|? ? Hc]; subst.
  unfold is_null, starts_with. simpl. by byte_case; subst.
Qed.
Lemma digits_not_minus ds rest : digits ds → ds ≠ [] → starts_with "-" (ds ++ rest) = false.
Proof.
  intros Hds Hne. destruct ds as [|c ds]; [done|]. inversion Hds as [|? ? Hc]; subst.
  unfold starts_with. simpl. by byte_case; subst.
Qed.

Ltac eval_slack :=
  repeat match goal with
  | H : context [slack ?t] |- _ => progress eval_in_all (slack t)
  | |- context [slack ?t] => progress eval_in_all (slack t)
  end.

(** The negation at the end of a negative numeral. *)
Lemma negate_ok t v :
  t ∈ std_types → in_range t v = true → v < 0 →
  (32 <= ity_bits t → v ≠ int_min t) →
  - v <= int_max t + slack t ∧
  ∃ z, int_op t (wrap t (- v) * -1) = Ok z ∧ wrap t z = v.
Proof.
  intros Ht Hv%in_range_spec Hneg Hmin.
  assert (- v <= int_max t + slack t) as Hle.
  { clear -Ht Hv Hneg Hmin. std_case Ht; eval_slack; std_bounds;
      try lia; specialize (Hmin ltac:(lia)); lia. }
  split; [done|]. clear Hmin. destruct (decide (- v <= int_max t)) as [Hm|Hm].
  - rewrite wrap_small by (done || lia). replace (- v * -1) with v by lia. exists v.
    split; [|apply wrap_in_range; [done|]; by apply in_range_spec].
    clear Hle Hm. unfold int_op. std_case Ht; std_bounds; try lia;
      cbn [Z.ltb Z.compare Pos.compare Pos.compare_cont];
      rewrite (proj2 (in_range_spec _ _)); std_bounds; (done || lia).
  - std_case Ht; eval_slack; std_bounds; try lia.
    + assert (v = -128) as -> by lia. exists 128. split; vm_compute; reflexivity.
    + assert (v = -32768) as -> by lia. exists 32768. split; vm_compute; reflexivity.
Qed.

Lemma unserialize_numeral t v v0 ds rest :
  t ∈ std_types → in_range t v = true → (32 <= ity_bits t → ity_signed t = true → v ≠ int_min t) →
  starts_digit rest = false → numeral ds → dval 0 ds = Z.abs v →
  unserialize_integer t v0 ((sign_of v ++ ds) ++ rest) = (v, Ok rest).
Proof.
  intros Ht Hv Hmin Hrest (Hds & Hne & Hz) Hval. rewrite <-app_assoc.
  assert (0 <= v → v <= int_max t) as Hmax by (apply in_range_spec in Hv; lia).
  assert (∀ c ds', ds = c :: ds' → is_digit c = true) as Hc.
  { intros c ds' ->. by inversion Hds. }
  unfold sign_of. destruct (Z.ltb_spec v 0) as [Hneg|Hpos].
  - destruct (negate_ok t v Ht Hv Hneg) as (Hle & z & Hop & Hwr).
    { intros Hb. apply Hmin; [done|]. apply in_range_spec in Hv.
      clear -Ht Hv Hneg. std_case Ht; std_bounds; (done || lia). }
    destruct ds as [|c ds]; [done|].
    pose proof (integer_loop_digits t 0 (c :: ds) rest Ht Hds Hne Hrest ltac:(lia) ltac:(lia)) as Hl.
    rewrite Hval, Z.abs_neq in Hl by lia.
    destruct (Ascii.eqb_spec c "0") as [->|Hc0].
    { injection (Hz eq_refl) as ->. change (dval 0 ["0"%char]) with 0 in Hval. lia. }
    unfold unserialize_integer, starts_with.
    change (str "-" ++ (c :: ds) ++ rest) with ("-"%char :: (c :: ds) ++ rest).
    cbn [Ascii.eqb Bool.eqb tail]. change ((c :: ds) ++ rest) with (c :: ds ++ rest) in *.
    cbn [tail]. rewrite (Hc c ds eq_refl), Hl, Hop, Hwr.
    by rewrite (proj2 (Ascii.eqb_neq c "0") Hc0).
  - rewrite Z.abs_eq in Hval by done. cbn [app].
    destruct ds as [|c ds]; [done|].
    pose proof (digits_not_minus (c :: ds) rest Hds Hne) as Hm.
    destruct (Ascii.eqb_spec c "0") as [->|Hc0].
    { injection (Hz eq_refl) as ->. change (dval 0 ["0"%char]) with 0 in Hval. by subst v. }
    assert (dval 0 (c :: ds) <= int_max t + slack t) as Hle.
    { rewrite Hval. unfold slack. case_match; lia. }
    pose proof (integer_loop_digits t 0 (c :: ds) rest Ht Hds Hne Hrest ltac:(lia) Hle) as Hl.
    rewrite Hval, wrap_small in Hl by (done || lia).
    unfold unserialize_integer.
    change ((c :: ds) ++ rest) with (c :: ds ++ rest) in *.
    rewrite Hm, (Hc c ds eq_refl), Hl.
    by rewrite (proj2 (Ascii.eqb_neq c "0") Hc0).
Qed.

(**  Integers survive a round trip: what the serializer of any of the ten
    types writes, followed by anything but a digit, is read back as the same
    value with exactly the numeral consumed - for every value except the
    minimum of [int], [long] and [long long]. *)
Theorem integer_roundtrip t v v0 rest :
  t ∈ std_types → in_range t v = true → (32 <= ity_bits t → ity_signed t = true → v ≠ int_min t) →
  starts_digit rest = false →
  ∃ s, ser_integer t v = Ok s ∧ unser_integer t v0 (s ++ rest) = (v, Ok rest).
Proof.
  intros Ht Hv Hmin Hrest. destruct (serialize_numeral_of t v Ht Hv) as (ds & Hs & Hn & Hval & _).
  exists (sign_of v ++ ds). split; [exact Hs|]. unfold unser_integer.
  replace (is_null _) with false.
  - by apply unserialize_numeral.
  - unfold sign_of. case_match; [done|]. symmetry. by apply digits_not_null; destruct Hn as (?&?&?).
Qed.

Lemma integer_roundtrip_witness :
  in_range short_t (-32768) = true ∧ starts_digit (str ",1") = false ∧
  ∃ s, ser_integer short_t (-32768) = Ok s ∧ unser_integer short_t 5 (s ++ str ",1") = (-32768, Ok (str ",1")).
Proof.
  split; [reflexivity|]. split; [reflexivity|].
  apply (integer_roundtrip short_t (-32768) 5 (str ",1")); [|reflexivity| |reflexivity].
  - apply list_elem_of_In. simpl. tauto.
  - intros H. vm_compute in H. congruence.
Defined.

(** The minimum of the wide signed types does not survive: the digits are
    accumulated as a positive number, which overflows. *)
Theorem integer_min_overflows t v0 rest :
  t ∈ [int_t; long_t; longlong_t] → starts_digit rest = false →
  ∃ s, ser_integer t (int_min t) = Ok s ∧ (unser_integer t v0 (s ++ rest)).2 = Undef.
Proof.
  intros Ht Hr. repeat (apply elem_of_cons in Ht as [->|Ht]); [..|by apply not_elem_of_nil in Ht];
    (eexists; split; [vm_compute; reflexivity|]); destruct rest; reflexivity.
Qed.

Lemma integer_min_overflows_witness :
  ∃ s, ser_integer int_t (int_min int_t) = Ok s ∧ (unser_integer int_t 0 (s ++ str ",")).2 = Undef.
Proof.
  apply (integer_min_overflows int_t 0 (str ",")); [|vm_compute; reflexivity].
  apply list_elem_of_In. simpl. tauto.
Defined.
