(* ===== verification/Serializer.v ===== *)
(** * Serializer: the interface of the JSON serializers

    A class [J] of the JSON library describes how the values of [J::target]
    are written and read ([J::serializer] has an [operator()] for each).
    [serializer A] is such a description as a value; [SerOk] and [RoundTrip]
    are what the composite serializers - pairs, arrays, maps, objects - ask
    of their parts and promise in turn. *)

From S2P Require Import Prelude JsonParser JsonNumber.

Record serializer (A : Type) := Serializer {
  ser : A → res bytes;
  (** [unser e a b] reads into a variable that holds [a]. *)
  unser : past → A → bytes → res (A * bytes);
  (** the value of [typename J::target tg;] *)
  dflt : A;
}.
Arguments Serializer {A} _ _ _.
Arguments ser {A} _ _.
Arguments unser {A} _ _ _ _.
Arguments dflt {A} _.

(** Reading terminates, moves forward, and stays inside readable buffers. *)
Class SerOk {A} (s : serializer A) : Prop := {
  unser_NoFuel e a b : unser s e a b ≠ NoFuel;
  unser_suffix e a b a' b' : unser s e a b = Ok (a', b') → b' `suffix_of` b;
}.

(** The bytes that can follow a value inside a larger text. *)
Definition delim_chars : bytes := [","; "]"; "}"; ":"]%char.
Definition delim (r : bytes) : Prop :=
  match r with [] => True | c :: _ => c ∈ delim_chars end.

(** The text of a value starts with a byte that none of the readers skips
    or takes for the end of a container. *)
Definition visible (t : bytes) : bool :=
  match t with
  | [] => false
  | c :: _ => negb (is_space c) && (c ≠?c "/") && (c ≠?c "]") && (c ≠?c "}") && (c ≠?c ",")
  end.

(** Every value that satisfies [P] is written, and read back into a fresh
    variable, whatever delimiter follows. *)
Class RoundTrip {A} (s : serializer A) (P : A → Prop) : Prop := {
  round_trip a : P a →
    ∃ t, ser s a = Ok t ∧ visible t = true ∧
         ∀ e rest, delim rest → unser s e (dflt s) (t ++ rest) = Ok (a, rest);
}.

(** The same for the readers that do not look at the old value. *)
Class RoundTripAny {A} (s : serializer A) (P : A → Prop) : Prop := {
  round_trip_any a : P a →
    ∃ t, ser s a = Ok t ∧ visible t = true ∧
         ∀ e a0 rest, delim rest → unser s e a0 (t ++ rest) = Ok (a, rest);
}.

#[export] Instance RoundTripAny_RoundTrip {A} (s : serializer A) P : RoundTripAny s P → RoundTrip s P.
Proof.
  intros Hs. split. intros a Ha. destruct (round_trip_any a Ha) as (t & Et & Vt & Rt).
  exists t. split_and!; [done|done|]. intros e rest Hd. by apply Rt.
Qed.

(** The same for the texts that end with a closing bracket: whatever follows
    them is left. *)
Class ClosedTrip {A} (s : serializer A) (P : A → Prop) : Prop := {
  closed_trip a : P a →
    ∃ t, ser s a = Ok t ∧ visible t = true ∧
         ∀ e rest, unser s e (dflt s) (t ++ rest) = Ok (a, rest);
}.

#[export] Instance ClosedTrip_RoundTrip {A} (s : serializer A) P : ClosedTrip s P → RoundTrip s P.
Proof.
  intros Hs. split. intros a Ha. destruct (closed_trip a Ha) as (t & Et & Vt & Rt).
  exists t. split_and!; [done|done|]. intros e rest _. apply Rt.
Qed.

Lemma parse_space_visible t rest : visible t = true → parse_space (t ++ rest) = t ++ rest.
Proof.
  destruct t as [|c t]; [done|]. simpl. rewrite !andb_true_iff, !negb_true_iff.
  intros ((((Hs & Hc) & _) & _) & _). unfold parse_space. simpl. by rewrite Hs, Hc.
Qed.

Lemma parse_space_delim rest : delim rest → parse_space rest = rest.
Proof.
  destruct rest as [|c r]; [done|]. unfold delim, delim_chars. intros Hc.
  repeat (apply elem_of_cons in Hc as [->|Hc]; [done|]). by apply not_elem_of_nil in Hc.
Qed.

Lemma delim_not_digit rest : delim rest → starts_digit rest = false.
Proof.
  destruct rest as [|c r]; [done|]. unfold delim, delim_chars. intros Hc.
  repeat (apply elem_of_cons in Hc as [->|Hc]; [done|]). by apply not_elem_of_nil in Hc.
Qed.

(** Lifting a reader that returns the last value of its variable. *)
Definition drop_on_throw {A} (o : A * res bytes) : res (A * bytes) :=
  match o with
  | (a, Ok b) => Ok (a, b)
  | (_, Throw x) => Throw x
  | (_, Undef) => Undef
  | (_, NoFuel) => NoFuel
  end.

Lemma drop_on_throw_NoFuel {A} (o : A * res bytes) : o.2 ≠ NoFuel → drop_on_throw o ≠ NoFuel.
Proof. by destruct o as [? []]. Qed.
Lemma drop_on_throw_Ok {A} (o : A * res bytes) a b : drop_on_throw o = Ok (a, b) ↔ o = (a, Ok b).
Proof. destruct o as [? []]; naive_solver. Qed.

(** ** The integer and boolean serializers *)

(* src: fas/misc/json.hpp 82-156 value *)
Definition value_integer (t : ity) : serializer Z :=
  Serializer (ser_integer t) (λ _ v b, drop_on_throw (unser_integer t v b)) 0.

(* src: fas/misc/json.hpp 158-163 value<bool> *)
Definition value_bool : serializer bool :=
  Serializer (λ v, Ok (ser_bool v)) (λ _ v b, drop_on_throw (unser_bool v b)) false.

(** The values that the reader can represent without overflow on the way. *)
Definition roundtrip_int (t : ity) (v : Z) : Prop :=
  in_range t v = true ∧ (32 <= ity_bits t → ity_signed t = true → v ≠ int_min t).

#[export] Instance value_integer_RoundTrip t :
  t ∈ std_types → RoundTripAny (value_integer t) (roundtrip_int t).
Proof.
  intros Ht. split. intros v [Hv Hmin].
  destruct (serialize_numeral_of t v Ht Hv) as (ds & Hs & Hn & Hval & _).
  exists (sign_of v ++ ds). split; [exact Hs|]. split.
  - destruct Hn as (Hds & Hne & _). unfold sign_of. case_match; [done|].
    destruct ds as [|c ds]; [done|]. inversion Hds as [|? ? Hc]; subst. simpl.
    revert Hc. clear. intros Hc.
    enough (implb (is_digit c) (negb (is_space c) && (c ≠?c "/") && (c ≠?c "]") && (c ≠?c "}") && (c ≠?c ","))
            = true) as H by (by rewrite Hc in H).
    clear Hc. revert c. all_bytes.
  - intros e a0 rest Hd. simpl. unfold unser_integer.
    rewrite unserialize_numeral by (done || by apply delim_not_digit).
    replace (is_null _) with false; [done|].
    unfold sign_of. case_match; [done|]. symmetry. by apply digits_not_null; destruct Hn as (?&?&?).
Qed.

#[export] Instance value_bool_RoundTrip : RoundTripAny value_bool (λ _, True).
Proof. split. intros v _. destruct v; (eexists; split_and!; [reflexivity|done|done]). Qed.

Lemma integer_loop_suffix t v b v' b' : integer_loop t v b = (v', Ok b') → b' `suffix_of` b.
Proof.
  revert v. induction b as [|c r IH]; intros v; simpl; [by intros [= <- <-]|].
  case_match; [|by intros [= <- <-]]. case_match; try done. intros Hl%IH. auto with suffix.
Qed.

Lemma int_op_outcome t z : (∃ r, int_op t z = Ok r) ∨ int_op t z = Undef.
Proof. unfold int_op. repeat case_match; eauto. Qed.

Lemma accumulate_outcome t v c : (∃ r, accumulate t v c = Ok r) ∨ accumulate t v c = Undef.
Proof.
  unfold accumulate. destruct (int_op_outcome t (v * 10)) as [[m ->]| ->]; simpl; [|by right].
  destruct (int_op_outcome t (m + (code c - 48))) as [[s ->]| ->]; simpl; [left; by eexists|by right].
Qed.

Lemma integer_loop_NoFuel t v b : (integer_loop t v b).2 ≠ NoFuel.
Proof.
  revert v. induction b as [|c r IH]; intros v; simpl; [done|]. case_match; [|done].
  destruct (accumulate_outcome t v c) as [[m ->]| ->]; [apply IH|done].
Qed.

#[export] Instance value_integer_SerOk t : SerOk (value_integer t).
Proof.
  split.
  - intros e a b. simpl. unfold unser_integer. case_match.
    + pose proof (proj1 (parse_null_defined b)). simpl. by destruct (parse_null b).
    + destruct b as [|c r]; [done|]. unfold unserialize_integer.
      destruct (if starts_with "-" (c :: r) then tail (c :: r) else c :: r) as [|d r']; [done|].
      case_match; [|done]. case_match; [done|].
      pose proof (integer_loop_NoFuel t 0 (d :: r')) as Hn.
      destruct (integer_loop t 0 (d :: r')) as [v []]; simpl in *; try done.
      case_match; [|done]. by case_match.
  - intros e a b a' b'. simpl. unfold unser_integer. case_match.
    + destruct (parse_null b) eqn:Hn; simpl; try done. intros [= <- <-].
      by apply proper_suffix_suffix, parse_null_progress.
    + destruct b as [|c r]; [done|]. unfold unserialize_integer.
      destruct (if starts_with "-" (c :: r) then tail (c :: r) else c :: r) as [|d r'] eqn:Hb; [done|].
      assert (d :: r' `suffix_of` c :: r) as Hs.
      { rewrite <-Hb. destruct (starts_with "-" (c :: r)); auto with suffix. }
      destruct (is_digit d); [|discriminate]. destruct (d =?c "0").
      { intros [= <- <-]. etrans; [|exact Hs]. auto with suffix. }
      destruct (integer_loop t 0 (d :: r')) as [v []] eqn:Hl; try done.
      apply integer_loop_suffix in Hl.
      case_match; [|by intros [= <- <-]; etrans].
      case_match; simpl; try done. intros [= <- <-]. by etrans.
Qed.

#[export] Instance value_bool_SerOk : SerOk value_bool.
Proof.
  split.
  - intros e a b. apply drop_on_throw_NoFuel. destruct b as [|c r]; [done|]. unfold unser_bool.
    repeat case_match; try done; apply parse_null_defined || apply parse_bool_defined.
  - intros e a b a' b' Hu%drop_on_throw_Ok. revert Hu. destruct b as [|c r]; [done|].
    unfold unser_bool. repeat case_match; intros Hu; simplify_eq;
      eauto using proper_suffix_suffix, parse_null_progress, parse_bool_progress.
Qed.
