(* ===== verification/JsonString.v ===== *)
(** * JsonString: [fas/misc/json/json_string.hpp] and [src/strvalue.hpp]

    Strings: the escaping writer and the unescaping reader of
    [value<std::string>] and [value<char[N]>], the raw text serializer, and
    the daemon's own [strvalue], which also accepts unquoted text. *)

From S2P Require Import Prelude JsonParser JsonNumber Serializer.

(** ** Writing *)

Definition hex_digit (d : Z) : ascii := if d <? 10 then chr (48 + d) else chr (87 + d).

(** [snprintf(buf, 5, "%04x", v)] for a byte [v]. *)
(* src: fas/misc/json/json_string.hpp 33-38 serializerS<char>::serialize *)
Definition hex4 (v : Z) : bytes :=
  [hex_digit (v / 4096 mod 16); hex_digit (v / 256 mod 16);
   hex_digit (v / 16 mod 16); hex_digit (v mod 16)].

(** The two-character escapes common to both writers. *)
(* src: fas/misc/json/json_string.hpp 19-28 serializerS<char>::serialize *)
Definition short_escape (c : ascii) : option bytes :=
  if (c =?c QUOTE) || (c =?c BSLASH) || (c =?c "/") then Some [BSLASH; c]
  else if c =?c TAB then Some [BSLASH; "t"%char]
  else if c =?c BS then Some [BSLASH; "b"%char]
  else if c =?c CR then Some [BSLASH; "r"%char]
  else if c =?c LF then Some [BSLASH; "n"%char]
  else if c =?c FF then Some [BSLASH; "f"%char]
  else None.

(* src: fas/misc/json/json_string.hpp 19-42 serializerS<char>::serialize *)
Definition escape_char (c : ascii) : bytes :=
  match short_escape c with
  | Some s => s
  | None =>
      if (0 <=? schar c) && (schar c <? 32) then BSLASH :: "u"%char :: hex4 (schar c)
      else [c]
  end.

(** The loop stops at the first NUL character. *)
Fixpoint write_chars (esc : ascii → bytes) (s : bytes) : bytes :=
  match s with
  | [] => []
  | c :: r => if c =?c NUL then [] else esc c ++ write_chars esc r
  end.

(* src: fas/misc/json/json_string.hpp 13-47 serializerS<char>::serialize *)
Definition serialize_string (s : bytes) : bytes :=
  [QUOTE] ++ write_chars escape_char s ++ [QUOTE].

(** The writer of [strvalue] has no [\u] branch. *)
(* src: src/strvalue.hpp 24-35 serializerT<strvalue>::serialize *)
Definition sv_escape_char (c : ascii) : bytes :=
  match short_escape c with Some s => s | None => [c] end.

(* src: src/strvalue.hpp 19-39 serializerT<strvalue>::serialize *)
Definition sv_serialize (s : bytes) : bytes :=
  [QUOTE] ++ write_chars sv_escape_char s ++ [QUOTE].

(** ** Reading

    The readers append to [out]; [n] counts down the bytes still allowed
    ([-1] for no limit). *)

(* src: fas/misc/json/json_string.hpp 180-186 serializerS<char>::_toUShort *)
Definition _toUShort (c : ascii) : res Z :=
  let z := code c in
  if (48 <=? z) && (z <=? 57) then Ok (z - 48)
  else if (97 <=? z) && (z <=? 102) then Ok (z - 97 + 10)
  else if (65 <=? z) && (z <=? 70) then Ok (z - 65 + 10)
  else throw invalid_json_string.

(** [if (beg == end) throw ...; _toUShort( *beg++ )] *)
Definition read_hex (b : bytes) : res (Z * bytes) :=
  match b with
  | [] => throw end_fragment
  | c :: r => d ← _toUShort c; mret (d, r)
  end.

(** The UTF-8 bytes stored for a code unit: the first without a look at
    [n], each of the others only when the limit is not reached. *)
(* src: fas/misc/json/json_string.hpp 151-174 serializerS<char>::_unserialize_uhex *)
Definition store_hex (hex : Z) (b out : bytes) (n : Z) : res (bytes * Z) :=
  if hex <=? 127 then Ok (out ++ [chr hex], n - 1)
  else if hex <=? 2047 then
    let out := out ++ [chr (Z.lor 192 (Z.shiftr hex 6))] in
    let n := n - 1 in
    if n =? 0 then throw_at invalid_json_string b
    else Ok (out ++ [chr (Z.lor 128 (Z.land hex 63))], n - 1)
  else
    let out := out ++ [chr (Z.lor 224 (Z.shiftr hex 12))] in
    let n := n - 1 in
    if n =? 0 then throw_at invalid_json_string b
    else
      let out := out ++ [chr (Z.lor 128 (Z.land (Z.shiftr hex 6) 63))] in
      let n := n - 1 in
      if n =? 0 then throw_at invalid_json_string b
      else Ok (out ++ [chr (Z.lor 128 (Z.land hex 63))], n - 1).

(* src: fas/misc/json/json_string.hpp 138-178 serializerS<char>::_unserialize_uhex *)
Definition _unserialize_uhex (b out : bytes) (n : Z) : res (bytes * bytes * Z) :=
  '(d3, b) ← read_hex b;
  '(d2, b) ← read_hex b;
  '(d1, b) ← read_hex b;
  '(d0, b) ← read_hex b;
  let hex := Z.lor (Z.lor (Z.lor (Z.shiftl d3 12) (Z.shiftl d2 8)) (Z.shiftl d1 4)) d0 in
  '(out, n) ← store_hex hex b out n;
  mret (b, out, n).

(* src: fas/misc/json/json_string.hpp 115-125 serializerS<char>::_symbol_copy *)
Fixpoint _symbol_copy (k : nat) (b out : bytes) (n : Z) : res (bytes * bytes * Z) :=
  match k with
  | O => Ok (b, out, n)
  | S k =>
      if n =? 0 then Ok (b, out, n)
      else match b with
      | [] => throw end_fragment
      | c :: r => _symbol_copy k r (out ++ [c]) (n - 1)
      end
  end.

(* src: fas/misc/json/json_string.hpp 93-113 serializerS<char>::_unserialize_symbol *)
Definition _unserialize_symbol (b out : bytes) (n : Z) : res (bytes * bytes * Z) :=
  match b with
  | [] => throw end_fragment
  | c :: r =>
      if masked 128 0 c then Ok (r, out ++ [c], n - 1)
      else if masked 224 192 c then _symbol_copy 2 b out n
      else if masked 240 224 c then _symbol_copy 3 b out n
      else if masked 248 240 c then _symbol_copy 4 b out n
      else throw_at invalid_json_string b
  end.

(** The character denoted by a one-letter escape. *)
(* src: fas/misc/json/json_string.hpp 66-73 serializerS<char>::unserialize *)
Definition unescape (c : ascii) : option ascii :=
  if (c =?c QUOTE) || (c =?c BSLASH) || (c =?c "/") then Some c
  else if c =?c "t" then Some TAB
  else if c =?c "b" then Some BS
  else if c =?c "r" then Some CR
  else if c =?c "n" then Some LF
  else if c =?c "f" then Some FF
  else None.

(** One turn of the loop of [unserialize], entered with [c :: r] at the iterator. *)
(* src: fas/misc/json/json_string.hpp 60-81 serializerS<char>::unserialize *)
Definition unserialize_turn (c : ascii) (r out : bytes) (n : Z) : res (bytes * bytes * Z) :=
  if c =?c BSLASH then
    match r with
    | [] => throw end_fragment
    | d :: r' =>
        match unescape d with
        | Some x => Ok (r', out ++ [x], n - 1)
        | None => if d =?c "u" then _unserialize_uhex r' out n else throw_at invalid_json_string r
        end
    end
  else _unserialize_symbol (c :: r) out n.

(** The loop up to the closing quote, over the body [turn]. *)
Fixpoint quoted_loop (turn : ascii → bytes → bytes → Z → res (bytes * bytes * Z))
    (fuel : nat) (b out : bytes) (n : Z) : res (bytes * bytes) :=
  match b with
  | [] => Ok (b, out)
  | c :: r =>
      if (c =?c QUOTE) || (n =? 0) then Ok (b, out)
      else match fuel with
      | O => NoFuel
      | S fuel =>
          '(b, out, n) ← turn c r out n;
          quoted_loop turn fuel b out n
      end
  end.

(* src: fas/misc/json/json_string.hpp 58-82 serializerS<char>::unserialize *)
Definition unserialize_loop := quoted_loop unserialize_turn.

(** The closing quote. *)
(* src: fas/misc/json/json_string.hpp 84-90 serializerS<char>::unserialize *)
Definition close_quote (b out : bytes) : res (bytes * bytes) :=
  match b with
  | [] => throw end_fragment
  | c :: r => if c =?c QUOTE then Ok (out, r) else throw (expected_of [QUOTE])
  end.

(* src: fas/misc/json/json_string.hpp 49-91 serializerS<char>::unserialize *)
Definition unserialize_string (b out : bytes) (n : Z) : res (bytes * bytes) :=
  match b with
  | [] => throw end_fragment
  | c :: r =>
      if c =?c QUOTE then
        '(b, out) ← unserialize_loop (length r) r out n;
        close_quote b out
      else throw (expected_of [QUOTE])
  end.

(** ** [value<std::string>] *)

(* src: fas/misc/json/json_string.hpp 218-237 serializerT<value<std::string>> *)
Definition value_string : serializer bytes :=
  Serializer
    (λ s, Ok (serialize_string s))
    (λ _ _ b, if is_null b then b' ← parse_null b; mret ([], b')
              else unserialize_string b [] (-1))
    [].

(** ** [value<char[N]>]

    The array is the list of its [N] bytes; the reader clears it first and
    writes from its start. *)

(* src: fas/misc/json/json_string.hpp 208-208 serializerT<value<char[N]>>::operator() *)
Definition pad (n : nat) (out : bytes) : bytes := out ++ replicate (n - length out) NUL.

(* src: fas/misc/json/json_string.hpp 191-215 serializerT<value<char[N]>> *)
Definition value_chars (N : nat) : serializer bytes :=
  Serializer
    (λ v, Ok (serialize_string v))
    (λ _ _ b, if is_null b then b' ← parse_null b; mret (pad N [], b')
              else '(out, b') ← unserialize_string b [] (Z.of_nat N); mret (pad N out, b'))
    (pad N []).

(** ** [raw_value<std::string>] *)

(* src: fas/misc/json/json_string.hpp 239-265 serializerT<raw_value<T>> *)
Definition raw_value : serializer bytes :=
  Serializer
    (λ v, Ok (match v with [] => [QUOTE; QUOTE] | _ => v end))
    (λ e _ b, b' ← parse_value e b; mret (take (length b - length b') b, b'))
    [].

(** ** [strvalue<std::string>] *)

(** The helpers are those of [serializerS<char>], but take [n] by value:
    what they count is lost on return. *)
(* src: src/strvalue.hpp 97-131 serializerT<strvalue>::_unserialize_symbol *)
Definition sv_unserialize_symbol (b out : bytes) (n : Z) : res (bytes * bytes) :=
  '(b, out, _) ← _unserialize_symbol b out n; mret (b, out).

(* src: src/strvalue.hpp 133-191 serializerT<strvalue>::_unserialize_uhex *)
Definition sv_unserialize_uhex (b out : bytes) (n : Z) : res (bytes * bytes) :=
  '(b, out, _) ← _unserialize_uhex b out n; mret (b, out).

(** The loop over unquoted text. *)
(* src: src/strvalue.hpp 88-88 serializerT<strvalue>::unserialize *)
Definition unquoted_end (c : ascii) : bool :=
  (c =?c "}") || (c =?c " ") || (c =?c "]") || (c =?c ",").

(* src: src/strvalue.hpp 88-90 serializerT<strvalue>::unserialize *)
Fixpoint unquoted_loop (fuel : nat) (b out : bytes) (n : Z) : res (bytes * bytes) :=
  match b with
  | [] => Ok (b, out)
  | c :: r =>
      if unquoted_end c || (n =? 0) then Ok (b, out)
      else match fuel with
      | O => NoFuel
      | S fuel =>
          '(b, out) ← sv_unserialize_symbol b out n;
          unquoted_loop fuel b out n
      end
  end.

(* src: src/strvalue.hpp 65-81 serializerT<strvalue>::unserialize *)
Definition sv_turn (c : ascii) (r out : bytes) (n : Z) : res (bytes * bytes * Z) :=
  if c =?c BSLASH then
    match r with
    | [] => throw end_fragment
    | d :: r' =>
        match unescape d with
        | Some x => Ok (r', out ++ [x], n - 1)
        | None =>
            if d =?c "u" then '(b, out) ← sv_unserialize_uhex r' out n; mret (b, out, n)
            else throw_at invalid_json_string r
        end
    end
  else '(b, out) ← sv_unserialize_symbol (c :: r) out n; mret (b, out, n).

(* src: src/strvalue.hpp 63-82 serializerT<strvalue>::unserialize *)
Definition sv_loop := quoted_loop sv_turn.

(* src: src/strvalue.hpp 54-95 serializerT<strvalue>::unserialize *)
Definition sv_unserialize (b out : bytes) (n : Z) : res (bytes * bytes) :=
  match b with
  | [] => throw end_fragment
  | c :: r =>
      if c =?c QUOTE then
        '(b, out) ← sv_loop (length r) r out n;
        close_quote b out
      else
        '(b, out) ← unquoted_loop (length b) b out n;
        match b with [] => throw end_fragment | _ :: _ => Ok (out, b) end
  end.

(* src: src/strvalue.hpp 10-52 strvalue *)
Definition strvalue : serializer bytes :=
  Serializer
    (λ s, Ok (sv_serialize s))
    (λ _ _ b, if is_null b then b' ← parse_null b; mret ([], b')
              else sv_unserialize b [] (-1))
    [].

Example str_ex :
  unser value_string Foreign [] (js "'a\u0439\n\/', x") =
  Ok (str "a" ++ [chr 208; chr 185; LF; "/"%char], str ", x").
Proof. vm_compute. reflexivity. Qed.
Example sv_ex : unser strvalue Foreign [] (js "12.5}") = Ok (str "12.5", str "}").
Proof. vm_compute. reflexivity. Qed.

(** ** Progress and termination *)

Lemma read_hex_progress b d b' : read_hex b = Ok (d, b') → b' ≺ b.
Proof. destruct b as [|c r]; [done|]. intros Hr. unfold read_hex in Hr. res_inv. apply proper_suffix_cons. Qed.

Lemma _unserialize_uhex_suffix b out n b' out' n' :
  _unserialize_uhex b out n = Ok (b', out', n') → b' `suffix_of` b.
Proof.
  unfold _unserialize_uhex. intros Hu. res_inv.
  repeat match goal with
  | Hr : read_hex _ = Ok _ |- _ => apply read_hex_progress, proper_suffix_suffix in Hr
  end. by repeat (etrans; [eassumption|]).
Qed.

Lemma _symbol_copy_suffix k b out n b' out' n' :
  _symbol_copy k b out n = Ok (b', out', n') → b' `suffix_of` b.
Proof.
  revert b out n. induction k as [|k IH]; intros b out n; simpl; [by intros [= <- <- <-]|].
  case_match; [by intros [= <- <- <-]|]. destruct b as [|c r]; [done|].
  intros Hs%IH. by apply suffix_cons_r.
Qed.

Lemma _symbol_copy_progress k b out n b' out' n' :
  n ≠ 0 → _symbol_copy (S k) b out n = Ok (b', out', n') → b' ≺ b.
Proof.
  intros Hn. simpl. rewrite (proj2 (Z.eqb_neq _ _)) by done. destruct b as [|c r]; [done|].
  intros Hs% _symbol_copy_suffix. by split.
Qed.

Lemma _unserialize_symbol_progress b out n b' out' n' :
  n ≠ 0 → _unserialize_symbol b out n = Ok (b', out', n') → b' ≺ b.
Proof.
  intros Hn. destruct b as [|c r]; [done|]. unfold _unserialize_symbol.
  repeat case_match; try done; try (intros; by eapply _symbol_copy_progress).
  intros [= <- <- <-]. apply proper_suffix_cons.
Qed.

Lemma unserialize_turn_progress c r out n b' out' n' :
  n ≠ 0 → unserialize_turn c r out n = Ok (b', out', n') → b' ≺ c :: r.
Proof.
  intros Hn. unfold unserialize_turn.
  destruct (c =?c BSLASH); [|by apply _unserialize_symbol_progress].
  destruct r as [|d r']; [done|]. destruct (unescape d).
  { intros [= <- <- <-]. split; [done|]. by apply suffix_cons_r. }
  destruct (d =?c "u"); [|done].
  intros Hu% _unserialize_uhex_suffix. split; [done|]. simpl. by apply suffix_cons_r.
Qed.

(** [sv_turn] does what [unserialize_turn] does, except for the count. *)
Lemma sv_turn_turn c r out n :
  match sv_turn c r out n with
  | Ok (b, o, _) => ∃ n', unserialize_turn c r out n = Ok (b, o, n')
  | Throw x => unserialize_turn c r out n = Throw x
  | Undef => unserialize_turn c r out n = Undef
  | NoFuel => unserialize_turn c r out n = NoFuel
  end.
Proof.
  unfold sv_turn, unserialize_turn, sv_unserialize_uhex, sv_unserialize_symbol.
  destruct (c =?c BSLASH).
  - destruct r as [|d r']; [done|]. destruct (unescape d); [by eexists|].
    destruct (d =?c "u"); [|done]. destruct (_unserialize_uhex r' out n) as [[[b o] m]| | |]; simpl; eauto.
  - destruct (_unserialize_symbol (c :: r) out n) as [[[b o] m]| | |]; simpl; eauto.
Qed.

Lemma sv_turn_progress c r out n b' out' n' :
  n ≠ 0 → sv_turn c r out n = Ok (b', out', n') → b' ≺ c :: r.
Proof.
  intros Hn Hs. pose proof (sv_turn_turn c r out n) as Ht. rewrite Hs in Ht.
  destruct Ht as [m Ht]. by eapply unserialize_turn_progress.
Qed.

Lemma read_hex_outcome b : read_hex b ≠ NoFuel ∧ read_hex b ≠ Undef.
Proof. destruct b as [|c r]; [done|]. unfold read_hex, _toUShort. by repeat case_match. Qed.

Lemma store_hex_outcome h b out n : store_hex h b out n ≠ NoFuel ∧ store_hex h b out n ≠ Undef.
Proof. unfold store_hex. by repeat case_match. Qed.

Lemma _unserialize_uhex_outcome b out n :
  _unserialize_uhex b out n ≠ NoFuel ∧ _unserialize_uhex b out n ≠ Undef.
Proof.
  unfold _unserialize_uhex.
  repeat match goal with
  | |- context [read_hex ?x] =>
      pose proof (read_hex_outcome x) as [? ?]; destruct (read_hex x) as [[? ?]| | |]; simpl; try done
  end.
  match goal with |- context [store_hex ?h ?b ?o ?n] =>
    pose proof (store_hex_outcome h b o n) as [? ?]; by destruct (store_hex h b o n) as [[? ?]| | |]
  end.
Qed.

Lemma _symbol_copy_outcome k b out n : _symbol_copy k b out n ≠ NoFuel ∧ _symbol_copy k b out n ≠ Undef.
Proof.
  revert b out n. induction k as [|k IH]; intros b out n; simpl; [done|].
  case_match; [done|]. by destruct b.
Qed.

Lemma _unserialize_symbol_outcome b out n :
  _unserialize_symbol b out n ≠ NoFuel ∧ _unserialize_symbol b out n ≠ Undef.
Proof.
  destruct b as [|c r]; [done|]. unfold _unserialize_symbol.
  repeat case_match; try done; apply _symbol_copy_outcome.
Qed.

Lemma unserialize_turn_outcome c r out n :
  unserialize_turn c r out n ≠ NoFuel ∧ unserialize_turn c r out n ≠ Undef.
Proof.
  unfold unserialize_turn. case_match; [|apply _unserialize_symbol_outcome].
  destruct r; [done|]. repeat case_match; try done. apply _unserialize_uhex_outcome.
Qed.

Lemma sv_turn_outcome c r out n : sv_turn c r out n ≠ NoFuel ∧ sv_turn c r out n ≠ Undef.
Proof.
  pose proof (unserialize_turn_outcome c r out n) as [? ?].
  pose proof (sv_turn_turn c r out n) as Ht. by destruct (sv_turn c r out n).
Qed.

(** A [turn] that moves forward and always has an outcome. *)
Class TurnOk (turn : ascii → bytes → bytes → Z → res (bytes * bytes * Z)) : Prop := {
  turn_progress c r out n b' out' n' :
    n ≠ 0 → turn c r out n = Ok (b', out', n') → b' ≺ c :: r;
  turn_outcome c r out n : turn c r out n ≠ NoFuel ∧ turn c r out n ≠ Undef;
}.
#[export] Instance unserialize_turn_TurnOk : TurnOk unserialize_turn.
Proof. split; [exact unserialize_turn_progress|exact unserialize_turn_outcome]. Qed.
#[export] Instance sv_turn_TurnOk : TurnOk sv_turn.
Proof. split; [exact sv_turn_progress|exact sv_turn_outcome]. Qed.

Section quoted.
Context (turn : ascii → bytes → bytes → Z → res (bytes * bytes * Z)) `{!TurnOk turn}.

Lemma quoted_loop_suffix fuel b out n b' out' :
  quoted_loop turn fuel b out n = Ok (b', out') → b' `suffix_of` b.
Proof.
  revert b out n. induction fuel as [|fuel IH]; intros [|c r] out n; simpl;
    try (by repeat case_match; intros; simplify_eq).
  destruct (Z.eqb_spec n 0); [rewrite orb_true_r; by intros [= <- <-]|].
  case_match; [by intros [= <- <-]|].
  intros (((b1 & o1) & n1) & Ht%turn_progress & Hl%IH)%bind_Ok; [|done].
  etrans; [exact Hl|]. by apply proper_suffix_suffix.
Qed.

Lemma quoted_loop_outcome fuel b out n :
  (length b <= fuel)%nat →
  quoted_loop turn fuel b out n ≠ NoFuel ∧ quoted_loop turn fuel b out n ≠ Undef.
Proof.
  revert b out n. induction fuel as [|fuel IH]; intros [|c r] out n Hf; simpl in *;
    [done|lia|done|].
  destruct (Z.eqb_spec n 0); [by rewrite orb_true_r|]. case_match; [done|].
  pose proof (turn_outcome c r out n) as [? ?].
  destruct (turn c r out n) as [[[b1 o1] n1]| | |] eqn:Ht; simpl; try done.
  apply turn_progress in Ht; [|done]. apply IH. apply proper_suffix_length in Ht. simpl in Ht. lia.
Qed.
End quoted.

Lemma close_quote_suffix b out o' b' : close_quote b out = Ok (o', b') → b' `suffix_of` b.
Proof. destruct b as [|c r]; [done|]. unfold close_quote. case_match; [|done]. intros [= <- <-]. auto with suffix. Qed.
Lemma close_quote_outcome b out : close_quote b out ≠ NoFuel ∧ close_quote b out ≠ Undef.
Proof. destruct b; [done|]. unfold close_quote. by case_match. Qed.

Lemma unserialize_string_suffix b out n o' b' :
  unserialize_string b out n = Ok (o', b') → b' `suffix_of` b.
Proof.
  destruct b as [|c r]; [done|]. simpl. destruct (c =?c QUOTE); [|done].
  intros ([b1 o1] & Hl%quoted_loop_suffix & Hc%close_quote_suffix)%bind_Ok; [|apply _].
  etrans; [exact Hc|]. by apply suffix_cons_r.
Qed.
Lemma unserialize_string_outcome b out n :
  unserialize_string b out n ≠ NoFuel ∧ unserialize_string b out n ≠ Undef.
Proof.
  destruct b as [|c r]; [done|]. simpl. destruct (c =?c QUOTE); [|done].
  pose proof (quoted_loop_outcome unserialize_turn (length r) r out n (le_n _)) as [? ?].
  unfold unserialize_loop. destruct (quoted_loop _ _ _ _ _) as [[b1 o1]| | |]; simpl; try done.
  apply close_quote_outcome.
Qed.

Lemma unquoted_loop_suffix fuel b out n b' out' :
  unquoted_loop fuel b out n = Ok (b', out') → b' `suffix_of` b.
Proof.
  revert b out. induction fuel as [|fuel IH]; intros [|c r] out; simpl;
    try (by repeat case_match; intros; simplify_eq).
  destruct (Z.eqb_spec n 0); [rewrite orb_true_r; by intros [= <- <-]|].
  destruct (_ || _); [by intros [= <- <-]|].
  unfold sv_unserialize_symbol. intros ([b1 o1] & Hs & Hl%IH)%bind_Ok.
  etrans; [exact Hl|]. apply proper_suffix_suffix.
  apply bind_Ok in Hs as ([[b2 o2] n2] & Hs & [= <- <-]).
  by eapply _unserialize_symbol_progress.
Qed.
Lemma unquoted_loop_outcome fuel b out n :
  (length b <= fuel)%nat → unquoted_loop fuel b out n ≠ NoFuel ∧ unquoted_loop fuel b out n ≠ Undef.
Proof.
  revert b out. induction fuel as [|fuel IH]; intros [|c r] out Hf; cbn [unquoted_loop] in *;
    [done|simpl in Hf; lia|done|].
  destruct (Z.eqb_spec n 0); [by rewrite orb_true_r|]. destruct (_ || _); [done|].
  unfold sv_unserialize_symbol. pose proof (_unserialize_symbol_outcome (c :: r) out n) as [? ?].
  destruct (_unserialize_symbol (c :: r) out n) as [[[b1 o1] m]| | |] eqn:Hs; simpl; try done.
  apply _unserialize_symbol_progress in Hs; [|done]. apply IH.
  apply proper_suffix_length in Hs. simpl in *. lia.
Qed.

Lemma sv_unserialize_suffix b out n o' b' :
  sv_unserialize b out n = Ok (o', b') → b' `suffix_of` b.
Proof.
  destruct b as [|c r]; [done|]. unfold sv_unserialize. destruct (c =?c QUOTE).
  - intros ([b1 o1] & Hl%quoted_loop_suffix & Hc%close_quote_suffix)%bind_Ok; [|apply _].
    etrans; [exact Hc|]. by apply suffix_cons_r.
  - intros ([b1 o1] & Hl%unquoted_loop_suffix & Hc)%bind_Ok. destruct b1; [done|]. by simplify_eq.
Qed.
Lemma sv_unserialize_outcome b out n :
  sv_unserialize b out n ≠ NoFuel ∧ sv_unserialize b out n ≠ Undef.
Proof.
  destruct b as [|c r]; [done|]. unfold sv_unserialize. destruct (c =?c QUOTE).
  - pose proof (quoted_loop_outcome sv_turn (length r) r out n (le_n _)) as [? ?].
    unfold sv_loop. destruct (quoted_loop _ _ _ _ _) as [[b1 o1]| | |]; simpl; try done.
    apply close_quote_outcome.
  - pose proof (unquoted_loop_outcome (length (c :: r)) (c :: r) out n (le_n _)) as [? ?].
    destruct (unquoted_loop _ _ _ _) as [[b1 o1]| | |]; simpl; try done. by destruct b1.
Qed.

(** What the four readers do on [null], and otherwise. *)
Lemma null_or_SerOk {A} s d w (f : past → bytes → res (A * bytes)) :
  (∀ e b, f e b ≠ NoFuel) → (∀ e b a b', f e b = Ok (a, b') → b' `suffix_of` b) →
  SerOk (Serializer s (λ e _ b, if is_null b then b' ← parse_null b; mret (w, b') else f e b) d).
Proof.
  intros Hf Hs. split; simpl.
  - intros e _ b. destruct (is_null b); [|apply Hf].
    pose proof (proj1 (parse_null_defined b)). by destruct (parse_null b).
  - intros e _ b a' b'. destruct (is_null b); [|apply Hs].
    intros (b1 & Hn%parse_null_progress & Hr)%bind_Ok. simplify_eq/=. injection Hr as <- <-.
    by apply proper_suffix_suffix.
Qed.

#[export] Instance value_string_SerOk : SerOk value_string.
Proof.
  apply (null_or_SerOk _ _ _ (λ _ b, unserialize_string b [] (-1))).
  - intros _ b. apply unserialize_string_outcome.
  - intros _ b a b'. apply unserialize_string_suffix.
Qed.
#[export] Instance strvalue_SerOk : SerOk strvalue.
Proof.
  apply (null_or_SerOk _ _ _ (λ _ b, sv_unserialize b [] (-1))).
  - intros _ b. apply sv_unserialize_outcome.
  - intros _ b a b'. apply sv_unserialize_suffix.
Qed.
#[export] Instance value_chars_SerOk N : SerOk (value_chars N).
Proof.
  apply (null_or_SerOk _ _ _ (λ _ b, '(out, b') ← unserialize_string b [] (Z.of_nat N); mret (pad N out, b'))).
  - intros _ b. pose proof (unserialize_string_outcome b [] (Z.of_nat N)) as [? ?].
    by destruct (unserialize_string b [] (Z.of_nat N)) as [[? ?]| | |].
  - intros _ b a b' Hu. res_inv. by eapply unserialize_string_suffix.
Qed.
#[export] Instance raw_value_SerOk : SerOk raw_value.
Proof.
  split; simpl.
  - intros e _ b. pose proof (parse_value_NoFuel e b). by destruct (parse_value e b).
  - intros e _ b a b' Hu. res_inv. by eapply proper_suffix_suffix, parse_value_progress.
Qed.

(** ** The round trip of strings *)

(** Text in UTF-8, without NUL: [k] continuation bytes are pending. *)
Fixpoint utf8_from (k : nat) (s : bytes) : bool :=
  match s with
  | [] => (k =? 0)%nat
  | c :: r =>
      match k with
      | S k => cont_byte c && utf8_from k r
      | O =>
          if ascii_byte c then (c ≠?c NUL) && utf8_from 0 r
          else if lead2 c then utf8_from 1 r
          else if lead3 c then utf8_from 2 r
          else if lead4 c then utf8_from 3 r
          else false
      end
  end.
Definition utf8_text (s : bytes) : Prop := utf8_from 0 s = true.
#[export] Instance utf8_text_dec s : Decision (utf8_text s).
Proof. unfold utf8_text. apply _. Defined.

Lemma plain_text s : forallb (λ c, ascii_byte c && (c ≠?c NUL)) s = true → utf8_text s.
Proof.
  induction s as [|c s IH]; [done|]. simpl. rewrite !andb_true_iff. intros [[Ha Hz] Hs].
  unfold utf8_text. simpl. rewrite Ha, Hz. by apply IH.
Qed.

Lemma utf8_from_split k s :
  utf8_from k s = true →
  ∃ cs s', s = cs ++ s' ∧ length cs = k ∧ Forall (λ c, cont_byte c = true) cs ∧ utf8_from 0 s' = true.
Proof.
  revert s. induction k as [|k IH]; intros s Hs; [by exists [], s|].
  destruct s as [|c s]; simpl in Hs; [done|]. apply andb_true_iff in Hs as [Hc Hs].
  apply IH in Hs as (cs & s' & -> & <- & Hcs & Hs'). exists (c :: cs), s'. by split_and!; [..|constructor|].
Qed.

(** An escaper: non-ASCII bytes stand for themselves, and the others are
    written so that the reader's [turn] gives them back. *)
Class EscapeOk (esc : ascii → bytes) (turn : ascii → bytes → bytes → Z → res (bytes * bytes * Z)) : Prop := {
  escape_high c : ascii_byte c = false → esc c = [c];
  escape_low c rest out n : ascii_byte c = true → c ≠ NUL → n < 0 →
    ∃ d t, esc c = d :: t ∧ (d =?c QUOTE) = false ∧
           ∃ n', n' < 0 ∧ turn d (t ++ rest) out n = Ok (rest, out ++ [c], n');
  turn_copy c cs rest out n : n < 0 →
    (lead2 c = true ∧ length cs = 1%nat ∨ lead3 c = true ∧ length cs = 2%nat ∨
     lead4 c = true ∧ length cs = 3%nat) →
    ∃ n', n' < 0 ∧ turn c (cs ++ rest) out n = Ok (rest, out ++ c :: cs, n');
}.

Lemma all_bytes_high (f : ascii → bytes) :
  forallb (λ c, ascii_byte c || bool_decide (f c = [c])) all_ascii = true →
  ∀ c, ascii_byte c = false → f c = [c].
Proof.
  intros Hf c Hc. pose proof (ascii_forall _ Hf c) as H. simpl in H. rewrite Hc in H.
  by apply bool_decide_eq_true in H.
Qed.

Lemma lead_not_bslash c : ascii_byte c = false → (c =?c BSLASH) = false.
Proof. by intros [_ ?]%non_ascii_not_special. Qed.

Lemma _symbol_copy_all k cs rest out n :
  n < 0 → length cs = k → _symbol_copy k (cs ++ rest) out n = Ok (rest, out ++ cs, n - Z.of_nat k).
Proof.
  revert cs out n. induction k as [|k IH]; intros cs out n Hn Hk.
  - destruct cs; [|done]. simpl. by rewrite app_nil_r, Z.sub_0_r.
  - destruct cs as [|c cs]; [done|]. simpl. rewrite (proj2 (Z.eqb_neq _ _)) by lia.
    rewrite IH by (simpl in Hk; lia). rewrite <-app_assoc. simpl. do 2 f_equal. lia.
Qed.

Lemma _unserialize_symbol_copy c cs rest out n :
  n < 0 →
  (lead2 c = true ∧ length cs = 1%nat ∨ lead3 c = true ∧ length cs = 2%nat ∨
   lead4 c = true ∧ length cs = 3%nat) →
  ∃ n', n' < 0 ∧ _unserialize_symbol (c :: cs ++ rest) out n = Ok (rest, out ++ c :: cs, n').
Proof.
  intros Hn Hc. exists (n - Z.of_nat (S (length cs))). split; [lia|].
  unfold _unserialize_symbol.
  destruct Hc as [[Hc Hl]|[[Hc Hl]|[Hc Hl]]].
  - pose proof (lead2_only _ Hc) as H1. unfold lead2, ascii_byte in *. rewrite H1, Hc.
    rewrite Hl. by apply (_symbol_copy_all 2 (c :: cs)); simpl; lia.
  - destruct (lead3_only _ Hc) as [H1 H2]. unfold lead2, lead3, ascii_byte in *. rewrite H1, H2, Hc.
    rewrite Hl. by apply (_symbol_copy_all 3 (c :: cs)); simpl; lia.
  - destruct (lead4_only _ Hc) as (H1 & H2 & H3). unfold lead2, lead3, lead4, ascii_byte in *.
    rewrite H1, H2, H3, Hc. rewrite Hl. by apply (_symbol_copy_all 4 (c :: cs)); simpl; lia.
Qed.

Lemma lead_not_ascii c cs :
  (lead2 c = true ∧ length cs = 1%nat ∨ lead3 c = true ∧ length cs = 2%nat ∨
   lead4 c = true ∧ length (cs : bytes) = 3%nat) → ascii_byte c = false.
Proof.
  intros [[Hc _]|[[Hc _]|[Hc _]]]; [by apply lead2_only|by apply lead3_only|by apply lead4_only].
Qed.

#[export] Instance escape_char_ok : EscapeOk escape_char unserialize_turn.
Proof.
  split.
  - apply all_bytes_high. vm_compute. reflexivity.
  - intros c rest out n Hc Hz Hn.
    destruct c as [[] [] [] [] [] [] [] []]; try discriminate Hc; try done;
      (do 2 eexists; split_and!; [reflexivity|reflexivity|];
       exists (n - 1); split_and!; [lia|reflexivity]).
  - intros c cs rest out n Hn Hc. unfold unserialize_turn.
    rewrite lead_not_bslash by (by eapply lead_not_ascii). by apply _unserialize_symbol_copy.
Qed.

#[export] Instance sv_escape_char_ok : EscapeOk sv_escape_char sv_turn.
Proof.
  split.
  - apply all_bytes_high. vm_compute. reflexivity.
  - intros c rest out n Hc Hz Hn.
    destruct c as [[] [] [] [] [] [] [] []]; try discriminate Hc; try done;
      (do 2 eexists; split_and!; [reflexivity|reflexivity|];
       first [ exists (n - 1); split_and!; [lia|reflexivity] | exists n; split_and!; [lia|reflexivity] ]).
  - intros c cs rest out n Hn Hc. unfold sv_turn, sv_unserialize_symbol.
    rewrite lead_not_bslash by (by eapply lead_not_ascii).
    destruct (_unserialize_symbol_copy c cs rest out n Hn Hc) as (n' & _ & ->). by exists n.
Qed.

(** The loop reads back what the writer wrote, up to the closing quote. *)
Lemma utf8_symbol c s :
  utf8_from 0 (c :: s) = true →
  (ascii_byte c = true ∧ c ≠ NUL ∧ utf8_from 0 s = true) ∨
  ∃ cs s', s = cs ++ s' ∧ utf8_from 0 s' = true ∧ Forall (λ c, cont_byte c = true) cs ∧
    (lead2 c = true ∧ length cs = 1%nat ∨ lead3 c = true ∧ length cs = 2%nat ∨
     lead4 c = true ∧ length cs = 3%nat).
Proof.
  simpl. destruct (ascii_byte c).
  { rewrite andb_true_iff, negb_true_iff. intros [Hc ?]. left. split_and!; [done| |done].
    by intros ->. }
  intros Hs. right.
  destruct (lead2 c); [|destruct (lead3 c); [|destruct (lead4 c); [|done]]];
    apply utf8_from_split in Hs as (cs & s' & -> & Hl & Hcs & Hs'); exists cs, s'; naive_solver.
Qed.

Lemma write_chars_high (esc : ascii → bytes) cs s :
  (∀ c, ascii_byte c = false → esc c = [c]) → Forall (λ c, ascii_byte c = false) cs →
  write_chars esc (cs ++ s) = cs ++ write_chars esc s.
Proof.
  intros Hesc. induction 1 as [|c cs Hc Hcs IH]; [done|]. simpl.
  destruct (Ascii.eqb_spec c NUL) as [->|_]; [discriminate Hc|]. by rewrite Hesc, IH.
Qed.

Lemma cont_not_ascii c : cont_byte c = true → ascii_byte c = false.
Proof.
  intros Hc. enough (implb (cont_byte c) (negb (ascii_byte c)) = true) as H
    by (rewrite Hc in H; by apply negb_true_iff in H).
  clear Hc. revert c. all_bytes.
Qed.

Lemma quoted_loop_written esc turn s :
  EscapeOk esc turn → utf8_text s →
  ∀ fuel rest out n, n < 0 → (length s ≤ fuel)%nat →
    quoted_loop turn fuel (write_chars esc s ++ QUOTE :: rest) out n = Ok (QUOTE :: rest, out ++ s).
Proof.
  intros Hesc. induction s as [s IH] using (induction_ltof1 _ length). unfold ltof in IH.
  intros Hs fuel rest out n Hn Hfuel. destruct s as [|c s].
  { simpl. rewrite app_nil_r. by destruct fuel. }
  destruct fuel as [|fuel]; [simpl in Hfuel; lia|].
  apply utf8_symbol in Hs as [(Hc & Hz & Hs)|(cs & s' & -> & Hs & Hcs & Hl)].
  - simpl. destruct (Ascii.eqb_spec c NUL) as [->|_]; [done|].
    destruct (escape_low c (write_chars esc s ++ QUOTE :: rest) out n Hc Hz Hn)
      as (d & t & -> & Hd & n' & Hn' & Ht).
    rewrite <-app_assoc. simpl. rewrite Hd, (proj2 (Z.eqb_neq n 0)) by lia. simpl.
    rewrite Ht. simpl. rewrite IH; [by rewrite <-app_assoc|simpl; lia|done|done|simpl in Hfuel; lia].
  - assert (Forall (λ c, ascii_byte c = false) (c :: cs)) as Hhigh.
    { constructor; [by eapply lead_not_ascii|]. eapply Forall_impl; [exact Hcs|]. apply cont_not_ascii. }
    change (c :: cs ++ s') with ((c :: cs) ++ s').
    rewrite (write_chars_high esc (c :: cs) s' (@escape_high _ _ Hesc)) by done.
    destruct (turn_copy c cs (write_chars esc s' ++ QUOTE :: rest) out n Hn Hl) as (n' & Hn' & Ht).
    simpl. replace (c =?c QUOTE) with false.
    2:{ symmetry. apply Ascii.eqb_neq. intros ->. inversion Hhigh as [|? ? Hq]. discriminate Hq. }
    rewrite (proj2 (Z.eqb_neq n 0)) by lia. simpl. rewrite <-app_assoc, Ht. simpl.
    rewrite IH; [by rewrite <-app_assoc| |done|done|].
    + simpl. rewrite length_app. lia.
    + simpl in Hfuel. rewrite length_app in Hfuel. lia.
Qed.

Lemma write_chars_length esc turn k s :
  EscapeOk esc turn → utf8_from k s = true → (length s ≤ length (write_chars esc s))%nat.
Proof.
  intros Hesc. revert k. induction s as [|c s IH]; intros k Hs; [done|].
  assert (c ≠ NUL ∧ (ascii_byte c = true ∨ ascii_byte c = false) ∧ ∃ k', utf8_from k' s = true)
    as (Hz & Hc & k' & Hs').
  { simpl in Hs. destruct k as [|k].
    - destruct (ascii_byte c) eqn:Hc.
      + apply andb_true_iff in Hs as [Hz%negb_true_iff Hs]. split_and!; eauto. by intros ->.
      + split_and!; eauto; [by intros ->|]. repeat (case_match; eauto). done.
    - apply andb_true_iff in Hs as [Hc%cont_not_ascii Hs]. split_and!; eauto. by intros ->. }
  simpl. destruct (Ascii.eqb_spec c NUL); [done|]. rewrite length_app. apply IH in Hs'.
  destruct Hc as [Hc|Hc].
  - destruct (@escape_low esc turn Hesc c [] [] (-1) Hc Hz) as (d & t & He & _); [lia|]. rewrite He. simpl. lia.
  - rewrite (@escape_high esc turn Hesc c Hc). simpl. lia.
Qed.

Lemma quoted_round_trip esc turn s rest :
  EscapeOk esc turn → utf8_text s →
  let t := write_chars esc s ++ QUOTE :: rest in
  ('(b, out) ← quoted_loop turn (length t) t [] (-1); close_quote b out) = Ok (s, rest).
Proof.
  intros Hesc Hs t. subst t. pose proof (write_chars_length esc turn 0 s Hesc Hs) as Hl.
  rewrite (quoted_loop_written esc turn s Hesc Hs); [done|lia|]. rewrite length_app. simpl. lia.
Qed.

#[export] Instance value_string_RoundTrip : RoundTripAny value_string utf8_text.
Proof.
  split. intros s Hs. eexists. split_and!; [reflexivity|done|]. intros e a0 rest _.
  change (unserialize_string (serialize_string s ++ rest) [] (-1) = Ok (s, rest)).
  unfold serialize_string. rewrite <-!app_assoc.
  exact (quoted_round_trip escape_char unserialize_turn s rest _ Hs).
Qed.

#[export] Instance strvalue_RoundTrip : RoundTripAny strvalue utf8_text.
Proof.
  split. intros s Hs. eexists. split_and!; [reflexivity|done|]. intros e a0 rest _.
  change (sv_unserialize (sv_serialize s ++ rest) [] (-1) = Ok (s, rest)).
  unfold sv_serialize. rewrite <-!app_assoc.
  exact (quoted_round_trip sv_escape_char sv_turn s rest _ Hs).
Qed.

(** ** One line *)

Lemma write_chars_all (f : ascii → bool) (esc : ascii → bytes) s :
  (∀ c, forallb f (esc c) = true) → forallb f (write_chars esc s) = true.
Proof.
  intros Hf. induction s as [|c s IH]; [done|]. simpl. case_match; [done|].
  by rewrite forallb_app, Hf, IH.
Qed.

(** ** The array of [N] characters *)

(** What is counted off [n] is what is stored. *)
Definition accounted (out : bytes) (n : Z) (r : res (bytes * bytes * Z)) : Prop :=
  match r with
  | Ok (_, out', n') => 0 <= n' ∧ Z.of_nat (length out') + n' = Z.of_nat (length out) + n
  | _ => True
  end.

Lemma _symbol_copy_accounted k b out n : 0 <= n → accounted out n (_symbol_copy k b out n).
Proof.
  revert b out n. induction k as [|k IH]; intros b out n Hn; simpl; [lia|].
  destruct (Z.eqb_spec n 0); [simpl; lia|]. destruct b as [|c r]; [done|].
  specialize (IH r (out ++ [c]) (n - 1) ltac:(lia)). unfold accounted in *.
  destruct (_symbol_copy k r (out ++ [c]) (n - 1)) as [[[? ?] ?]| | |]; [|done..].
  rewrite length_app in IH. simpl in IH. lia.
Qed.

Lemma store_hex_accounted h b out n out' n' :
  0 < n → store_hex h b out n = Ok (out', n') →
  0 <= n' ∧ Z.of_nat (length out') + n' = Z.of_nat (length out) + n.
Proof.
  intros Hn. unfold store_hex.
  destruct (h <=? 127); [intros [= <- <-]; rewrite length_app; simpl; lia|].
  destruct (h <=? 2047).
  - destruct (Z.eqb_spec (n - 1) 0); [done|].
    intros [= <- <-]; rewrite !length_app; simpl; lia.
  - destruct (Z.eqb_spec (n - 1) 0); [done|]. destruct (Z.eqb_spec (n - 1 - 1) 0); [done|].
    intros [= <- <-]; rewrite !length_app; simpl; lia.
Qed.

Lemma unserialize_turn_accounted c r out n : 0 < n → accounted out n (unserialize_turn c r out n).
Proof.
  intros Hn. unfold unserialize_turn. case_match.
  - destruct r as [|d r]; [done|]. destruct (unescape d).
    { simpl. rewrite length_app. simpl. lia. }
    case_match; [|done].
    destruct (_unserialize_uhex r out n) as [[[b' out'] n']| | |] eqn:Hu; [|done..].
    unfold _unserialize_uhex in Hu. res_inv. by eapply store_hex_accounted.
  - unfold _unserialize_symbol.
    repeat case_match; try done; try (apply _symbol_copy_accounted; lia).
    simpl. rewrite length_app. simpl. lia.
Qed.

Lemma unserialize_loop_accounted fuel b out n b' out' :
  0 <= n → unserialize_loop fuel b out n = Ok (b', out') →
  Z.of_nat (length out') <= Z.of_nat (length out) + n.
Proof.
  unfold unserialize_loop. revert b out n. induction fuel as [|fuel IH]; intros b out n Hn.
  - destruct b; simpl; [|case_match; [|done]]; intros [= <- <-]; lia.
  - destruct b as [|c r]; simpl; [intros [= <- <-]; lia|].
    destruct (c =?c QUOTE); [intros [= <- <-]; lia|]. destruct (Z.eqb_spec n 0); [intros [= <- <-]; lia|].
    simpl. pose proof (unserialize_turn_accounted c r out n ltac:(lia)) as Ha.
    destruct (unserialize_turn c r out n) as [[[b1 out1] n1]| | |]; simpl in *; try done.
    intros Hl%IH; lia.
Qed.

(** The code point that a UTF-8 sequence of up to three bytes denotes. *)
Definition utf8_decode (s : bytes) : option Z :=
  match s with
  | [a] => if masked 128 0 a then Some (code a) else None
  | [a; b] =>
      if lead2 a && cont_byte b then Some ((code a - 192) * 64 + (code b - 128)) else None
  | [a; b; c] =>
      if lead3 a && cont_byte b && cont_byte c
      then Some ((code a - 224) * 4096 + (code b - 128) * 64 + (code c - 128)) else None
  | _ => None
  end.

Lemma Z_forall_below (P : Z → bool) m :
  forallb P (seqZ 0 m) = true → ∀ z, 0 <= z < m → P z = true.
Proof. rewrite forallb_forall. intros HP z Hz. apply HP, list_elem_of_In, elem_of_seqZ. lia. Qed.

(** [below m] proves a boolean fact about the numbers below [m]. *)
Ltac below m := apply (Z_forall_below _ m); vm_compute; reflexivity.

Lemma lor_shiftl a b k : 0 <= k → 0 <= b < 2 ^ k → Z.lor (a * 2 ^ k) b = a * 2 ^ k + b.
Proof.
  intros Hk Hb. rewrite <-Z.shiftl_mul_pow2 by done. symmetry. rewrite Z.add_nocarry_lxor.
  - rewrite Z.lxor_lor; [done|]. apply Z.bits_inj'. intros i Hi. rewrite Z.land_spec, Z.bits_0.
    destruct (decide (i < k)) as [Hik|Hik].
    + by rewrite Z.shiftl_spec_low.
    + rewrite <-(Z.mod_small b (2 ^ k)), Z.mod_pow2_bits_high by lia. apply andb_false_r.
  - apply Z.bits_inj'. intros i Hi. rewrite Z.land_spec, Z.bits_0.
    destruct (decide (i < k)) as [Hik|Hik].
    + by rewrite Z.shiftl_spec_low.
    + rewrite <-(Z.mod_small b (2 ^ k)), Z.mod_pow2_bits_high by lia. apply andb_false_r.
Qed.

Lemma toUShort_digit d : 0 <= d < 16 → _toUShort (hex_digit d) = Ok d.
Proof.
  intros Hd. enough (match _toUShort (hex_digit d) with Ok r => r =? d | _ => false end = true) as H.
  { destruct (_toUShort (hex_digit d)); try done. by apply Z.eqb_eq in H as ->. }
  revert d Hd. below 16.
Qed.

Lemma read_hex_digit z r : read_hex (hex_digit (z mod 16) :: r) = Ok (z mod 16, r).
Proof. unfold read_hex. rewrite toUShort_digit; [done|]. apply Z.mod_pos_bound. lia. Qed.

Lemma head2 a : 0 <= a < 32 → lead2 (chr (Z.lor 192 a)) = true ∧ code (chr (Z.lor 192 a)) = 192 + a.
Proof.
  intros Ha. rewrite <-Z.eqb_eq. apply andb_true_iff. revert a Ha. below 32.
Qed.
Lemma head3 a : 0 <= a < 16 → lead3 (chr (Z.lor 224 a)) = true ∧ code (chr (Z.lor 224 a)) = 224 + a.
Proof.
  intros Ha. rewrite <-Z.eqb_eq. apply andb_true_iff. revert a Ha. below 16.
Qed.
Lemma tail_byte x : cont_byte (chr (Z.lor 128 (Z.land x 63))) = true ∧
  code (chr (Z.lor 128 (Z.land x 63))) = 128 + x mod 64.
Proof.
  change 63 with (Z.ones 6). rewrite Z.land_ones by lia. change (2 ^ 6) with 64.
  pose proof (Z.mod_pos_bound x 64 ltac:(lia)) as Hx. revert Hx. generalize (x mod 64). clear x.
  intros a Ha. rewrite <-Z.eqb_eq. apply andb_true_iff. revert a Ha. below 64.
Qed.
Lemma head1 v : 0 <= v < 128 → masked 128 0 (chr v) = true ∧ code (chr v) = v.
Proof.
  intros Hv. rewrite <-Z.eqb_eq. apply andb_true_iff. revert v Hv. below 128.
Qed.

Lemma store_hex_decode v b : 0 <= v < 65536 →
  ∃ o n, store_hex v b [] (-1) = Ok (o, n) ∧ utf8_decode o = Some v.
Proof.
  intros Hv. unfold store_hex. destruct (Z.leb_spec v 127); [|destruct (Z.leb_spec v 2047)].
  - do 2 eexists. split; [done|]. destruct (head1 v ltac:(lia)) as [H1 H2]. simpl. by rewrite H1, H2.
  - do 2 eexists. split; [done|]. rewrite Z.shiftr_div_pow2 by lia. change (2 ^ 6) with 64.
    destruct (head2 (v / 64)) as [H1 H2]; [Z.to_euclidean_division_equations; lia|].
    destruct (tail_byte v) as [H3 H4]. cbn [utf8_decode app]. rewrite H1, H2, H3, H4. simpl.
    f_equal. Z.to_euclidean_division_equations; lia.
  - do 2 eexists. split; [done|]. rewrite !Z.shiftr_div_pow2 by lia. change (2 ^ 6) with 64.
    change (2 ^ 12) with 4096.
    destruct (head3 (v / 4096)) as [H1 H2]; [Z.to_euclidean_division_equations; lia|].
    destruct (tail_byte (v / 64)) as [H3 H4]. destruct (tail_byte v) as [H5 H6].
    cbn [utf8_decode app]. rewrite H1, H2, H3, H4, H5, H6. simpl.
    f_equal. Z.to_euclidean_division_equations; lia.
Qed.

Lemma hex_value v : 0 <= v < 65536 →
  Z.lor (Z.lor (Z.lor (Z.shiftl (v / 4096 mod 16) 12) (Z.shiftl (v / 256 mod 16) 8))
           (Z.shiftl (v / 16 mod 16) 4)) (v mod 16) = v.
Proof.
  intros Hv. rewrite !Z.shiftl_mul_pow2 by lia.
  pose proof (Z.mod_pos_bound (v / 256) 16 ltac:(lia)) as H2.
  pose proof (Z.mod_pos_bound (v / 16) 16 ltac:(lia)) as H1.
  pose proof (Z.mod_pos_bound v 16 ltac:(lia)) as H0.
  rewrite (lor_shiftl _ _ 12) by lia.
  replace (v / 4096 mod 16 * 2 ^ 12 + v / 256 mod 16 * 2 ^ 8) with (v / 256 * 2 ^ 8)
    by (Z.to_euclidean_division_equations; lia).
  rewrite (lor_shiftl _ _ 8) by lia.
  replace (v / 256 * 2 ^ 8 + v / 16 mod 16 * 2 ^ 4) with (v / 16 * 2 ^ 4)
    by (Z.to_euclidean_division_equations; lia).
  rewrite (lor_shiftl _ _ 4) by lia. Z.to_euclidean_division_equations; lia.
Qed.

Lemma store_hex_app h b out n :
  n < 0 → match store_hex h b [] (-1) with
          | Ok (o, _) => ∃ n', n' < 0 ∧ store_hex h b out n = Ok (out ++ o, n')
          | _ => False
          end.
Proof.
  intros Hn. unfold store_hex. simpl.
  destruct (h <=? 127); [exists (n - 1); split; [lia|done]|].
  destruct (h <=? 2047).
  - destruct (Z.eqb_spec (n - 1) 0); [lia|]. exists (n - 1 - 1). split; [lia|]. by rewrite <-app_assoc.
  - destruct (Z.eqb_spec (n - 1) 0); [lia|]. destruct (Z.eqb_spec (n - 1 - 1) 0); [lia|].
    exists (n - 1 - 1 - 1). split; [lia|]. by rewrite <-!app_assoc.
Qed.

(** ** Properties *)

(** C26.  Writing a string and reading it back is the identity on UTF-8 text
    (of any length, 4-byte symbols included), whatever follows it: the
    escapes written by [value<std::string>] are those its reader undoes. *)
Theorem string_roundtrip s rest :
  utf8_text s → unserialize_string (serialize_string s ++ rest) [] (-1) = Ok (s, rest).
Proof.
  intros Hs. unfold serialize_string. rewrite <-!app_assoc. simpl. unfold unserialize_loop.
  apply (quoted_round_trip escape_char unserialize_turn s rest _ Hs).
Qed.

(**  No written string contains a control character, so the separator
    CR LF of the wire protocol never occurs inside a message's strings. *)
Theorem serialize_string_no_control s :
  Forall (λ c, ¬ (0 <= code c < 32)) (serialize_string s).
Proof.
  apply Forall_forall. intros c Hc.
  assert (forallb (λ c, negb ((0 <=? code c) && (code c <? 32))) (serialize_string s) = true) as H.
  { unfold serialize_string. rewrite !forallb_app. simpl. rewrite andb_true_r.
    apply write_chars_all. all_bytes. }
  rewrite forallb_forall in H. apply list_elem_of_In, H in Hc. lia.
Qed.

(**  Reading into a [char[N]] fills exactly the [N] bytes of the array,
    for every input text: it never writes past its end. *)
Theorem value_chars_bounded N e a b v b' :
  unser (value_chars N) e a b = Ok (v, b') → length v = N.
Proof.
  simpl. unfold pad. destruct (is_null b); intros Hu; apply bind_Ok in Hu as (x & Hx & Hu).
  { injection Hu as <- _. rewrite length_replicate. simpl. lia. }
  destruct x as [out b1]. injection Hu as <- _.
  assert (Z.of_nat (length out) <= Z.of_nat N) as Hle; [|rewrite length_app, length_replicate; lia].
  destruct b as [|c r]; [done|]. unfold unserialize_string in Hx. destruct (c =?c QUOTE); [|done].
  apply bind_Ok in Hx as ([b2 out2] & Hl & Hc). apply unserialize_loop_accounted in Hl; [|lia].
  unfold close_quote in Hc. repeat case_match; simplify_eq. simpl in Hl. lia.
Qed.

(**  A [\uXXXX] escape stores the UTF-8 encoding of its code unit, for
    all 65536 of them. *)
Theorem unserialize_uhex_utf8 v rest out n :
  0 <= v < 65536 → n < 0 →
  ∃ o n', _unserialize_uhex (hex4 v ++ rest) out n = Ok (rest, out ++ o, n') ∧
          n' < 0 ∧ utf8_decode o = Some v.
Proof.
  intros Hv Hn. unfold _unserialize_uhex, hex4. cbn [app].
  do 4 (rewrite read_hex_digit; unfold mbind; cbn [res_bind]).
  rewrite hex_value by done.
  destruct (store_hex_decode v rest Hv) as (o & m & Hs & Ho).
  pose proof (store_hex_app v rest out n Hn) as Ha. rewrite Hs in Ha.
  destruct Ha as (n' & Hn' & ->). by exists o, n'.
Qed.

Lemma string_roundtrip_witness :
  unserialize_string (serialize_string (js "a'/" ++ [chr 240; chr 159; chr 152; chr 128]) ++ str ", x") [] (-1)
  = Ok (js "a'/" ++ [chr 240; chr 159; chr 152; chr 128], str ", x").
Proof. apply string_roundtrip. vm_compute. reflexivity. Defined.

Lemma value_chars_bounded_witness : length (js "x" ++ [NUL; NUL]) = 3%nat.
Proof.
  apply (value_chars_bounded 3 Foreign [] (js "'x'") (js "x" ++ [NUL; NUL]) []).
  vm_compute. reflexivity.
Defined.

Lemma unserialize_uhex_utf8_witness :
  ∃ o n', _unserialize_uhex (hex4 1081 ++ js "'") [] (-1) = Ok (js "'", [] ++ o, n') ∧
          n' < 0 ∧ utf8_decode o = Some 1081.
Proof. apply (unserialize_uhex_utf8 1081 (js "'") [] (-1)); lia. Defined.
