(* ===== verification/JsonArray.v ===== *)
(** * JsonArray: [fas/misc/json/json_array.hpp], [src/aj_pairvector.hpp],
      [common/aj_int_quoted.hpp]

    Pairs [key:value], the arrays and maps of [serializerA], which differ in
    their brackets and in the inserter of their container, arrays of a fixed
    size, the vector of pairs of the daemon and the quoted integers. *)

From S2P Require Import Prelude JsonParser JsonNumber Serializer JsonString.

#[local] Arguments Ascii.eqb !_ !_.

(** ** Pairs *)

(** [parse_space; if (beg==end) throw unexpected_end_fragment();] *)
Definition skip_to (b : bytes) : res (ascii * bytes) :=
  match parse_space b with
  | [] => throw end_fragment
  | c :: r => Ok (c, r)
  end.

Definition expect (c : ascii) (b : bytes) : res bytes :=
  '(d, r) ← skip_to b;
  if d =?c c then Ok r else throw_at (expected_of [c]) (d :: r).

(* src: fas/misc/json/json_array.hpp 8-38 serializerT<pair<K, V>> *)
Definition pair {K V : Type} (k : serializer K) (v : serializer V) : serializer (K * V) :=
  Serializer
    (λ t, a ← ser k t.1; b ← ser v t.2; mret (a ++ ":"%char :: b))
    (λ e t b,
      '(t1, b) ← unser k e t.1 b;
      b ← expect ":" b;
      '(c, r) ← skip_to b;
      '(t2, b) ← unser v e t.2 (c :: r);
      mret ((t1, t2), b))
    (dflt k, dflt v).

(** ** Arrays

    [inserter] is the output iterator that a container gives to the loop:
    its state, the state for a container, the effect of [*(bitr++) = tg],
    and the container as it is then. *)
Record inserter (C A : Type) := Inserter {
  in_state : Type;
  in_start : C → in_state;
  in_put : in_state → A → in_state;
  in_container : in_state → C;
}.
Arguments Inserter {C A} _ _ _ _.
Arguments in_state {C A} _.
Arguments in_start {C A} _ _.
Arguments in_put {C A} _ _ _.
Arguments in_container {C A} _ _.

(** [std::back_inserter] of a vector. *)
(* src: fas/misc/json.hpp 370-380 array_base<std::vector<J>> *)
Definition back_inserter {A} : inserter (list A) A :=
  Inserter (list A) id (λ l a, l ++ [a]) id.

(** [std::inserter(t, t.begin())] of a vector: the part before the iterator
    and the part from it on. *)
(* src: src/aj_pairvector.hpp 49-50 paired_array_base<std::pair<JK, JV>> *)
Definition front_inserter {A} : inserter (list A) A :=
  Inserter (list A * list A) (λ l, ([], l)) (λ s a, (s.1 ++ [a], s.2)) (λ s, s.1 ++ s.2).

(** [std::inserter] of a map: [insert] keeps the element that is there. *)
(* src: fas/misc/json.hpp 417-432 array_base<std::unordered_map<JK, JV>> *)
Definition map_inserter {K V} `{Countable K} : inserter (gmap K V) (K * V) :=
  Inserter (gmap K V) id
    (λ m kv, match m !! kv.1 with Some _ => m | None => <[kv.1 := kv.2]> m end) id.

Section serializerA.
Context {A C : Type} (J : serializer A) (I : inserter C A) (t0 : C) (L R : ascii).

Fixpoint unserialize_elements (fuel : nat) (e : past) (it : in_state I) (b : bytes)
    : res (in_state I * bytes) :=
  match b with
  | [] => Ok (it, [])
  | _ :: _ =>
      match fuel with
      | O => NoFuel
      | S fuel =>
          '(c, r) ← skip_to b;
          if c =?c R then Ok (it, c :: r)
          else
            '(tg, b) ← unser J e (dflt J) (c :: r);
            let it := in_put I it tg in
            '(c, r) ← skip_to b;
            if c =?c R then Ok (it, c :: r)
            else if c =?c "," then unserialize_elements fuel e it r
            else throw_at (expected_of (str ",")) (c :: r)
      end
  end.

(** The closing bracket. *)
Definition close_bracket (b : bytes) : res bytes :=
  match b with
  | [] => throw end_fragment
  | c :: r => if c =?c R then Ok r else throw_at (expected_of [R]) b
  end.

(* src: fas/misc/json/json_array.hpp 116-149 serializerA::operator() *)
Definition unserializeA (e : past) (t : C) (b : bytes) : res (C * bytes) :=
  if is_null b then b' ← parse_null b; mret (t0, b')
  else match b with
  | [] => throw end_fragment
  | c :: r =>
      if c =?c L then
        '(it, b) ← unserialize_elements (length r) e (in_start I t) r;
        b' ← close_bracket b;
        mret (in_container I it, b')
      else throw_at (expected_of [L]) b
  end.

(** The elements in the order of iteration, separated by commas. *)
Fixpoint serialize_elements (l : list A) : res bytes :=
  match l with
  | [] => Ok []
  | [a] => ser J a
  | a :: l => s ← ser J a; r ← serialize_elements l; mret (s ++ ","%char :: r)
  end.

(* src: fas/misc/json/json_array.hpp 151-164 serializerA::operator() *)
Definition serializeA (l : list A) : res bytes :=
  s ← serialize_elements l; mret (L :: s ++ [R]).

(* src: fas/misc/json/json_array.hpp 102-165 serializerA *)
Definition serializerA (elements : C → list A) : serializer C :=
  Serializer (λ t, serializeA (elements t)) unserializeA t0.
End serializerA.

(* src: fas/misc/json/json_array.hpp 167-171 serializerT<array<T>> *)
Definition array {A} (J : serializer A) : serializer (list A) :=
  serializerA J back_inserter [] "[" "]" id.

(** The iteration order of an [unordered_map] is not specified: it is the
    argument [order]. *)
(* src: fas/misc/json.hpp 416-432 array_base<std::unordered_map<JK, JV>> *)
Definition unordered_map {K V} `{Countable K} (k : serializer K) (v : serializer V)
    (order : gmap K V → list (K * V)) : serializer (gmap K V) :=
  serializerA (pair k v) map_inserter ∅ "{" "}" order.

(** *** Arrays of a fixed size: [t] keeps its length, its elements from the
    count [i] on are the old ones. *)
Section fixed.
Context {A : Type} (J : serializer A) (N : nat).

(** [*bitr = tg]: a store outside of the array is undefined. *)
Definition store (t : list A) (i : nat) (tg : A) : res (list A) :=
  match t !! i with Some _ => Ok (<[i := tg]> t) | None => Undef end.

Fixpoint unserialize_fixed (fuel : nat) (e : past) (t : list A) (i : nat) (b : bytes)
    : res (list A * bytes) :=
  match b with
  | [] => Ok (t, [])
  | _ :: _ =>
      if (i =? N)%nat then Ok (t, b)
      else match fuel with
      | O => NoFuel
      | S fuel =>
          '(c, r) ← skip_to b;
          if c =?c "]" then Ok (t, c :: r)
          else
            '(tg, b) ← unser J e (dflt J) (c :: r);
            t ← store t i tg;
            '(c, r) ← skip_to b;
            if c =?c "]" then Ok (t, c :: r)
            else if c =?c "," then unserialize_fixed fuel e t (S i) r
            else throw_at (expected_of (str ",")) (c :: r)
      end
  end.

(* src: fas/misc/json/json_array.hpp 174-242 serializerA<array<J[N]>> *)
Definition array_fixed : serializer (list A) :=
  Serializer
    (serializeA J "[" "]")
    (λ e t b,
      if is_null b then b' ← parse_null b; mret (replicate N (dflt J), b')
      else match b with
      | [] => throw end_fragment
      | c :: r =>
          if c =?c "[" then
            '(t, b) ← unserialize_fixed (length r) e t 0 r;
            b' ← close_bracket "]" b;
            mret (t, b')
          else throw_at (expected_of (str "[")) b
      end)
    (replicate N (dflt J)).
End fixed.

(** *** The vector of pairs: an object, or an empty array *)

(** The look at the first two bytes comes before every test for the end. *)
(* src: src/aj_pairvector.hpp 12-35 paired_array_serializer *)
Definition paired_array {K V} (k : serializer K) (v : serializer V) : serializer (list (K * V)) :=
  let parent := serializerA (pair k v) front_inserter [] "{" "}" id in
  Serializer
    (ser parent)
    (λ e t b,
      c ← deref e b;
      if c =?c "[" then
        d ← deref e (tail b);
        if d =?c "]" then Ok ([], tail (tail b)) else unser parent e t b
      else unser parent e t b)
    [].

(* src: src/aj_pairvector.hpp 66-69 push_pair *)
Definition push_pair {K V} (target : list (K * V)) (k : K) (v : V) : list (K * V) := target ++ [(k, v)].

(** *** Quoted values *)

(* src: common/aj_int_quoted.hpp 13-46 serializerQuoted *)
Definition valueQ {A} (s : serializer A) : serializer A :=
  Serializer
    (λ a, t ← ser s a; mret (QUOTE :: t ++ [QUOTE]))
    (λ e a b,
      if is_null b then b' ← parse_null b; mret (a, b')
      else match b with
      | [] => throw end_fragment
      | c :: r =>
          if c =?c QUOTE then
            '(a, b) ← unser s e a r;
            match b with
            | [] => throw end_fragment
            | c :: r => if c =?c QUOTE then Ok (a, r) else throw end_fragment
            end
          else throw end_fragment
      end)
    (dflt s).

Definition ints := array (value_integer int_t).
Definition str_pairs := paired_array value_string strvalue.
Example array_ex : unser ints Foreign [7] (js "[1, 2,]x") = Ok ([7; 1; 2], str "x").
Proof. vm_compute. reflexivity. Qed.
Example array_space_ex : unser ints Foreign [] (js "[ ]") = Ok ([], []).
Proof. vm_compute. reflexivity. Qed.
Example array_ser_ex : ser ints [1; -2; 3] = Ok (str "[1,-2,3]").
Proof. vm_compute. reflexivity. Qed.
Example paired_ex :
  unser str_pairs Foreign [] (js "{ 'a':'b' , 'c':1}") = Ok ([(str "a", str "b"); (str "c", str "1")], []).
Proof. vm_compute. reflexivity. Qed.
Example paired_empty_ex : unser str_pairs Foreign [] (str "[]") = Ok ([], []).
Proof. vm_compute. reflexivity. Qed.

(** ** Termination *)

Lemma skip_to_suffix b c r : skip_to b = Ok (c, r) → c :: r `suffix_of` b.
Proof.
  unfold skip_to. intros Hs. pose proof (parse_space_suffix b) as Hb.
  destruct (parse_space b); [done|]. by simplify_eq.
Qed.
Lemma skip_to_tail b c r : skip_to b = Ok (c, r) → r `suffix_of` b.
Proof. intros Hs%skip_to_suffix. etrans; [|exact Hs]. auto with suffix. Qed.
Lemma skip_to_length b c r : skip_to b = Ok (c, r) → (length r < length b)%nat.
Proof. intros Hs%skip_to_suffix%suffix_length. simpl in Hs. lia. Qed.
Lemma skip_to_NoFuel b : skip_to b ≠ NoFuel.
Proof. unfold skip_to. by destruct (parse_space b). Qed.
Lemma expect_suffix c b r : expect c b = Ok r → r `suffix_of` b.
Proof.
  unfold expect. intros He. apply bind_Ok in He as ([d r'] & Hs & He).
  apply skip_to_tail in Hs. case_match; simplify_eq; done.
Qed.
Lemma expect_NoFuel c b : expect c b ≠ NoFuel.
Proof.
  unfold expect. intros [H|[[d r] [_ H]]]%bind_NoFuel; [by eapply skip_to_NoFuel|].
  by destruct (d =?c c).
Qed.

(** [no_fuel H] opens the sequence that runs out of fuel in [H]. *)
Ltac no_fuel H :=
  apply bind_NoFuel in H as [H|([? ?] & ? & H)];
  [first [by eapply skip_to_NoFuel in H | by eapply unser_NoFuel in H | by eapply expect_NoFuel in H | idtac]|].

#[export] Instance pair_SerOk {K V} (k : serializer K) (v : serializer V) :
  SerOk k → SerOk v → SerOk (pair k v).
Proof.
  intros Hk Hv. split.
  - intros e [t1 t2] b Hu. simpl in Hu. no_fuel Hu.
    apply bind_NoFuel in Hu as [Hu|(b1 & Hb & Hu)]; [by eapply expect_NoFuel|].
    no_fuel Hu. no_fuel Hu. done.
  - intros e [t1 t2] b [a1 a2] b' Hu. simpl in Hu. res_inv.
    repeat match goal with
    | Hs : unser _ _ _ _ = Ok _ |- _ => apply unser_suffix in Hs
    | Hs : expect _ _ = Ok _ |- _ => apply expect_suffix in Hs
    | Hs : skip_to _ = Ok _ |- _ => apply skip_to_suffix in Hs
    end. by repeat (etrans; [eassumption|]).
Qed.

Section serializerA_facts.
Context {A C : Type} (J : serializer A) (I : inserter C A) (t0 : C) (L R : ascii) `{!SerOk J}.

Lemma unserialize_elements_NoFuel fuel e it b :
  (length b ≤ fuel)%nat → unserialize_elements J I R fuel e it b ≠ NoFuel.
Proof using Type*.
  revert it b. induction fuel as [|fuel IH]; intros it [|c0 b0] Hb; try done; [simpl in Hb; lia|].
  cbn [unserialize_elements]. intros H. no_fuel H.
  match goal with Hs : skip_to _ = Ok (?c, ?r) |- _ =>
    apply skip_to_suffix, suffix_length in Hs; destruct (c =?c R); [done|] end.
  no_fuel H. match goal with Hs : unser _ _ _ _ = Ok _ |- _ => apply unser_suffix, suffix_length in Hs end.
  no_fuel H. match goal with Hs : skip_to _ = Ok _ |- _ => apply skip_to_length in Hs end.
  repeat case_match; try done. eapply IH; [|exact H]. simpl in *. lia.
Qed.

Lemma unserialize_elements_suffix fuel e it b it' b' :
  unserialize_elements J I R fuel e it b = Ok (it', b') → b' `suffix_of` b.
Proof using Type*.
  revert it b. induction fuel as [|fuel IH]; intros it [|c0 b0]; cbn [unserialize_elements]; try done;
    try (by intros [= <- <-]).
  intros Hu. apply bind_Ok in Hu as ([c r] & Hs & Hu). apply skip_to_suffix in Hs.
  destruct (c =?c R); [by simplify_eq|].
  apply bind_Ok in Hu as ([tg b1] & Ht & Hu). apply unser_suffix in Ht.
  apply bind_Ok in Hu as ([d r1] & Hs1 & Hu). apply skip_to_suffix in Hs1.
  assert (d :: r1 `suffix_of` c0 :: b0) by (by repeat (etrans; [eassumption|])).
  destruct (d =?c R); [by simplify_eq|]. destruct (d =?c ","); [|done].
  apply IH in Hu. etrans; [exact Hu|]. etrans; [|eassumption]. auto with suffix.
Qed.

Lemma close_bracket_suffix b b' : close_bracket R b = Ok b' → b' `suffix_of` b.
Proof.
  destruct b as [|c r]; [done|]. simpl. case_match; [|done]. intros [= <-]. auto with suffix.
Qed.
Lemma close_bracket_NoFuel b : close_bracket R b ≠ NoFuel.
Proof. destruct b as [|c r]; [done|]. simpl. by case_match. Qed.

#[export] Instance serializerA_SerOk elements : SerOk (serializerA J I t0 L R elements).
Proof using Type*.
  split.
  - intros e t b. simpl. unfold unserializeA. destruct (is_null b).
    { intros [H|[? [_ H]]]%bind_NoFuel; [by eapply parse_null_defined in H|done]. }
    destruct b as [|c r]; [done|]. destruct (c =?c L); [|done].
    intros [H|[[it b] [_ H]]]%bind_NoFuel; [by eapply unserialize_elements_NoFuel in H|].
    apply bind_NoFuel in H as [H|[? [_ H]]]; [by eapply close_bracket_NoFuel|done].
  - intros e t b t' b'. simpl. unfold unserializeA. destruct (is_null b).
    { intros [? [H [= _ ->]]]%bind_Ok. eauto using proper_suffix_suffix, parse_null_progress. }
    destruct b as [|c r]; [done|]. destruct (c =?c L); [|done].
    intros [[it b] [Hu H]]%bind_Ok. apply bind_Ok in H as (b1 & Hc & [= _ ->]).
    apply unserialize_elements_suffix in Hu. apply close_bracket_suffix in Hc.
    apply suffix_cons_r. by etrans.
Qed.
End serializerA_facts.

(** ** Round trips *)

Lemma skip_to_visible t rest :
  visible t = true → ∃ c t', t = c :: t' ∧ (c =?c "]") = false ∧ (c =?c "}") = false ∧
    skip_to (t ++ rest) = Ok (c, t' ++ rest).
Proof.
  intros Hv. unfold skip_to. rewrite parse_space_visible by done.
  destruct t as [|c t]; [done|]. exists c, t. simpl in *.
  rewrite !andb_true_iff, !negb_true_iff in Hv. naive_solver.
Qed.

Lemma skip_to_delim c rest : c ∈ delim_chars → skip_to (c :: rest) = Ok (c, rest).
Proof. intros Hc. unfold skip_to. by rewrite parse_space_delim. Qed.

Lemma colon_delim : ":"%char ∈ delim_chars. Proof. apply list_elem_of_In. simpl. auto 6. Qed.
Lemma comma_delim : ","%char ∈ delim_chars. Proof. apply list_elem_of_In. simpl. auto 6. Qed.

#[export] Instance pair_RoundTrip {K V} (k : serializer K) (v : serializer V) P Q :
  RoundTrip k P → RoundTrip v Q → RoundTrip (pair k v) (λ t, P t.1 ∧ Q t.2).
Proof.
  intros Hk Hv. split. intros [a1 a2] [H1 H2]. simpl in *.
  destruct (round_trip a1 H1) as (s1 & E1 & V1 & R1).
  destruct (round_trip a2 H2) as (s2 & E2 & V2 & R2).
  exists (s1 ++ ":"%char :: s2). rewrite E1. simpl. rewrite E2. split_and!; [done| |].
  - by destruct s1.
  - intros e rest Hd. rewrite <-app_assoc, R1 by apply colon_delim. simpl.
    destruct (skip_to_visible s2 rest V2) as (c & s2' & -> & _ & _ & ->). simpl.
    change (c :: s2' ++ rest) with ((c :: s2') ++ rest). by rewrite R2.
Qed.

Section serializerA_round_trip.
Context {A C : Type} (J : serializer A) (I : inserter C A) (t0 : C) (L R : ascii).
Context (P : A → Prop) `{!RoundTrip J P}.

Lemma serialize_elements_round_trip l :
  Forall P l → (R = "]"%char ∨ R = "}"%char) →
  ∃ s, serialize_elements J l = Ok s ∧
    ∀ fuel e it rest, (length s < fuel)%nat →
      unserialize_elements J I R fuel e it (s ++ R :: rest)
      = Ok (foldl (in_put I) it l, R :: rest).
Proof using Type*.
  intros Hl HR. assert (R ∈ delim_chars) as HRd by (destruct HR; subst; apply list_elem_of_In; simpl; auto 6).
  induction Hl as [|a l Ha Hl IH].
  { exists []. split; [done|]. intros fuel e it rest Hf. destruct fuel; [simpl in Hf; lia|].
    cbn [unserialize_elements app]. rewrite skip_to_delim by done. simpl. by rewrite Ascii.eqb_refl. }
  destruct (round_trip a Ha) as (t & Et & Vt & Rt). destruct IH as (s & Es & Rs).
  destruct (skip_to_visible t [] Vt) as (c & t' & -> & Hc1 & Hc2 & _).
  assert ((c =?c R) = false) as HcR by (by destruct HR; subst).
  destruct l as [|a' l].
  - exists (c :: t'). split; [exact Et|]. intros fuel e it rest Hf. destruct fuel; [simpl in Hf; lia|].
    cbn [unserialize_elements app].
    destruct (skip_to_visible (c :: t') (R :: rest) Vt) as (? & ? & [= <- <-] & _ & _ & Hs).
    simpl app in Hs. rewrite Hs. simpl. rewrite HcR.
    change (c :: t' ++ R :: rest) with ((c :: t') ++ R :: rest). rewrite Rt by done. simpl.
    rewrite skip_to_delim by done. simpl. by rewrite Ascii.eqb_refl.
  - exists ((c :: t') ++ ","%char :: s). split.
    { change (serialize_elements J (a :: a' :: l)) with
        (s ← ser J a; r ← serialize_elements J (a' :: l); mret (s ++ ","%char :: r)).
      by rewrite Et, Es. }
    intros fuel e it rest Hf. destruct fuel; [simpl in Hf; lia|].
    rewrite <-app_assoc. cbn [unserialize_elements app].
    destruct (skip_to_visible (c :: t') (","%char :: s ++ R :: rest) Vt) as (? & ? & [= <- <-] & _ & _ & Hs).
    simpl app in Hs. rewrite Hs. simpl. rewrite HcR.
    change (c :: t' ++ ?x) with ((c :: t') ++ x). rewrite Rt by apply comma_delim. simpl.
    replace (Ascii.eqb _ R) with false by (by destruct HR; subst).
    rewrite Rs; [done|]. rewrite length_app in Hf. simpl in Hf. lia.
Qed.

Lemma unserializeA_round_trip l :
  Forall P l → (L, R) ∈ [("[", "]"); ("{", "}")]%char →
  ∃ s, serializeA J L R l = Ok s ∧ visible s = true ∧
    ∀ e t rest, unserializeA J I t0 L R e t (s ++ rest)
                = Ok (in_container I (foldl (in_put I) (in_start I t) l), rest).
Proof using Type*.
  intros Hl HLR.
  assert ((R = "]"%char ∨ R = "}"%char) ∧ is_null [L] = false ∧ visible [L] = true) as (HR & HLn & HLv).
  { by repeat (apply elem_of_cons in HLR as [[= -> ->]|HLR]; [auto|]); apply not_elem_of_nil in HLR. }
  destruct (serialize_elements_round_trip l Hl HR) as (s & Es & Rs).
  exists (L :: s ++ [R]). unfold serializeA. rewrite Es. split_and!; [done|by simpl in *|].
  intros e t rest. unfold unserializeA. rewrite <-app_comm_cons, <-app_assoc. simpl app.
  replace (is_null _) with false.
  rewrite Ascii.eqb_refl, Rs; [|rewrite length_app; simpl; lia]. simpl.
  by rewrite Ascii.eqb_refl.
Qed.
End serializerA_round_trip.

Lemma foldl_back {A} (l l0 : list A) : foldl (in_put back_inserter) l0 l = l0 ++ l.
Proof.
  revert l0. induction l as [|a l IH]; intros l0; simpl; [by rewrite app_nil_r|].
  by rewrite IH, <-app_assoc.
Qed.

Lemma foldl_front {A} (l l1 l2 : list A) :
  foldl (in_put front_inserter) (l1, l2) l = (l1 ++ l, l2).
Proof.
  revert l1. induction l as [|a l IH]; intros l1; simpl; [by rewrite app_nil_r|].
  by rewrite IH, <-app_assoc.
Qed.

(** The map that the insertion of [l] makes: the first value of a key stays. *)
Definition first_wins {K V} `{Countable K} (l : list (K * V)) : gmap K V := list_to_map l.

Lemma foldl_map {K V} `{Countable K} (l : list (K * V)) (m : gmap K V) :
  foldl (in_put map_inserter) m l = m ∪ first_wins l.
Proof.
  revert m. induction l as [|[k v] l IH]; intros m; simpl; [by rewrite (right_id_L ∅ (∪))|].
  rewrite IH. unfold first_wins. simpl. destruct (m !! k) as [v'|] eqn:Hk.
  - apply map_eq. intros i. rewrite !lookup_union. destruct (decide (k = i)) as [<-|Hi].
    + rewrite lookup_insert_eq, Hk. by destruct (list_to_map l !! k).
    + by rewrite lookup_insert_ne.
  - by rewrite <-insert_union_l, insert_union_r.
Qed.

#[export] Instance array_RoundTrip {A} (J : serializer A) P : RoundTrip J P → RoundTrip (array J) (Forall P).
Proof.
  intros HJ. split. intros l Hl.
  destruct (unserializeA_round_trip J back_inserter [] "[" "]" P l Hl) as (s & Es & Vs & Rs);
    [apply list_elem_of_In; simpl; auto|].
  exists s. split_and!; [done|done|]. intros e rest _. simpl. rewrite Rs.
  exact (f_equal (λ x, Ok (x, rest)) (foldl_back l [])).
Qed.

#[export] Instance unordered_map_RoundTrip {K V} `{Countable K} (k : serializer K) (v : serializer V)
    (order : gmap K V → list (K * V)) P Q :
  (∀ m, order m ≡ₚ map_to_list m) → RoundTrip k P → RoundTrip v Q →
  RoundTrip (unordered_map k v order) (map_Forall (λ a b, P a ∧ Q b)).
Proof.
  intros Ho Hk Hv. split. intros m Hm.
  assert (Forall (λ t, P t.1 ∧ Q t.2) (order m)) as Hl.
  { rewrite Ho. apply Forall_forall. intros [a b] Hab%elem_of_map_to_list. by apply Hm. }
  destruct (unserializeA_round_trip (pair k v) map_inserter ∅ "{" "}" _ _ Hl) as (s & Es & Vs & Rs);
    [apply list_elem_of_In; simpl; auto|].
  exists s. split_and!; [done|done|]. intros e rest _. simpl. rewrite Rs.
  refine (f_equal (λ x, Ok (x, rest)) _). etrans; [exact (foldl_map (order m) ∅)|].
  rewrite (left_id_L ∅ (∪)). unfold first_wins.
  rewrite (list_to_map_proper _ (map_to_list m)); [by rewrite list_to_map_to_list| |done].
  rewrite Ho. apply NoDup_fst_map_to_list.
Qed.

#[export] Instance paired_array_RoundTrip {K V} (k : serializer K) (v : serializer V) P Q :
  RoundTrip k P → RoundTrip v Q →
  RoundTrip (paired_array k v) (Forall (λ t, P t.1 ∧ Q t.2)).
Proof.
  intros Hk Hv. split. intros l Hl.
  destruct (unserializeA_round_trip (pair k v) front_inserter [] "{" "}" _ _ Hl) as (s & Es & Vs & Rs);
    [apply list_elem_of_In; simpl; auto|].
  exists s. split_and!; [done|done|]. intros e rest _. simpl.
  unfold serializeA in Es. apply bind_Ok in Es as (s' & _ & [= <-]). simpl. rewrite <-app_assoc in *.
  specialize (Rs e [] rest). rewrite <-app_comm_cons, <-app_assoc in Rs. rewrite Rs.
  refine (f_equal (λ x, Ok (x, rest)) _).
  pose proof (foldl_front l [] []) as Hf. simpl in *. rewrite Hf. apply app_nil_r.
Qed.

(** ** Termination of the other readers *)

Lemma store_length {A} (t : list A) i a t' : store t i a = Ok t' → length t' = length t.
Proof. unfold store. case_match; [|done]. intros [= <-]. apply length_insert. Qed.

Lemma fixed_length {A} (J : serializer A) N fuel e t i b t' b' :
  unserialize_fixed J N fuel e t i b = Ok (t', b') → length t' = length t.
Proof.
  revert t i b. induction fuel as [|fuel IH]; intros t i [|c0 b0]; cbn [unserialize_fixed];
    try (by intros [= <- <-]); (case_match; [by intros [= <- <-]|]); [done|].
  intros Hu. apply bind_Ok in Hu as ([c r] & Hs & Hu). case_match; [by simplify_eq|].
  apply bind_Ok in Hu as ([tg b1] & Ht & Hu). apply bind_Ok in Hu as (t1 & Hst & Hu).
  apply store_length in Hst. apply bind_Ok in Hu as ([d r1] & Hs1 & Hu).
  case_match; [by simplify_eq|]. case_match; [|done]. apply IH in Hu. congruence.
Qed.

Lemma skip_to_Undef b : skip_to b ≠ Undef.
Proof. unfold skip_to. by destruct (parse_space b). Qed.

Lemma fixed_defined {A} (J : serializer A) N fuel e t i b :
  (∀ a b, unser J e a b ≠ Undef) → length t = N → (i ≤ N)%nat →
  unserialize_fixed J N fuel e t i b ≠ Undef.
Proof.
  intros HJ. revert t i b. induction fuel as [|fuel IH]; intros t i [|c0 b0] Ht Hi;
    cbn [unserialize_fixed]; try done; (destruct (Nat.eqb_spec i N); [done|]); [done|].
  intros [H|[[c r] [_ H]]]%bind_Undef; [by eapply skip_to_Undef|]. case_match; [done|].
  apply bind_Undef in H as [H|[[tg b1] [_ H]]]; [by eapply HJ|].
  apply bind_Undef in H as [H|[t1 [Hst H]]].
  { unfold store in H. destruct (t !! i) eqn:Hl; [done|]. apply lookup_ge_None in Hl. lia. }
  apply store_length in Hst.
  apply bind_Undef in H as [H|[[d r1] [_ H]]]; [by eapply skip_to_Undef|].
  case_match; [done|]. case_match; [|done]. eapply (IH t1 (S i) r1); [lia|lia|done].
Qed.

#[export] Instance valueQ_SerOk {A} (s : serializer A) : SerOk s → SerOk (valueQ s).
Proof.
  intros Hs. split.
  - intros e a b. simpl. destruct (is_null b).
    { intros [H|[? [_ H]]]%bind_NoFuel; [by eapply parse_null_defined in H|done]. }
    destruct b as [|c r]; [done|]. destruct (c =?c QUOTE); [|done].
    intros [H|[[a' [|d b]] [_ H]]]%bind_NoFuel; [by eapply unser_NoFuel|done|by case_match].
  - intros e a b a' b'. simpl. destruct (is_null b).
    { intros [? [H [= _ ->]]]%bind_Ok. eauto using proper_suffix_suffix, parse_null_progress. }
    destruct b as [|c r]; [done|]. destruct (c =?c QUOTE); [|done].
    intros [[a1 [|d b1]] [Hu H]]%bind_Ok; [done|]. apply unser_suffix in Hu.
    case_match; simplify_eq. apply suffix_cons_r. etrans; [|exact Hu]. auto with suffix.
Qed.

#[export] Instance paired_array_SerOk {K V} (k : serializer K) (v : serializer V) :
  SerOk k → SerOk v → SerOk (paired_array k v).
Proof.
  intros Hk Hv.
  pose proof (serializerA_SerOk (pair k v) front_inserter ([] : list (K * V)) "{" "}" id) as [HN HS].
  split.
  - intros e a b. simpl in *. intros [H|[c [_ H]]]%bind_NoFuel; [by eapply deref_NoFuel|].
    case_match; [|by eapply HN]. apply bind_NoFuel in H as [H|[d [_ H]]]; [by eapply deref_NoFuel|].
    case_match; [done|by eapply HN].
  - intros e a b a' b'. simpl in *. intros [c [_ H]]%bind_Ok. case_match; [|by eapply HS].
    apply bind_Ok in H as [d [_ H]]. case_match; [|by eapply HS]. simplify_eq.
    etrans; apply suffix_tail.
Qed.

#[export] Instance valueQ_RoundTrip {A} (s : serializer A) P : RoundTrip s P →
  RoundTrip (valueQ s) (λ a, P a ∧ ∀ t, ser s a = Ok t →
    ∀ e rest, unser s e (dflt s) (t ++ QUOTE :: rest) = Ok (a, QUOTE :: rest)).
Proof.
  intros Hs. split. intros a [Ha Hq]. destruct (round_trip a Ha) as (t & Et & Vt & _).
  exists (QUOTE :: t ++ [QUOTE]). simpl. rewrite Et. split_and!; [done|done|].
  intros e rest _. rewrite <-app_assoc. simpl. by rewrite (Hq t Et).
Qed.

(** ** Properties *)

(**  Reading the text of a list of pairs into a map keeps the entries the
    map has, and of several entries with one key the first: insertion never
    overwrites. *)
Theorem unordered_map_first_wins {K V} `{Countable K} (k : serializer K) (v : serializer V)
    (order : gmap K V → list (K * V)) P Q (l : list (K * V)) :
  RoundTrip k P → RoundTrip v Q → Forall (λ t, P t.1 ∧ Q t.2) l →
  ∃ s, serializeA (pair k v) "{" "}" l = Ok s ∧
    ∀ e m rest, unser (unordered_map k v order) e m (s ++ rest) = Ok (m ∪ first_wins l, rest).
Proof.
  intros Hk Hv Hl.
  destruct (unserializeA_round_trip (pair k v) map_inserter ∅ "{" "}" _ l Hl) as (s & Es & _ & Rs);
    [apply list_elem_of_In; simpl; auto|].
  exists s. split; [done|]. intros e m rest. simpl. rewrite Rs.
  exact (f_equal (λ x, Ok (x, rest)) (foldl_map l m)).
Qed.

Lemma unordered_map_first_wins_witness :
  ∃ s, serializeA (pair value_string (value_integer int_t)) "{" "}" [(str "a", 1); (str "a", 2)] = Ok s ∧
    ∀ e m rest, unser (unordered_map value_string (value_integer int_t) map_to_list) e m (s ++ rest)
                = Ok (m ∪ first_wins [(str "a", 1); (str "a", 2)], rest).
Proof.
  apply (unordered_map_first_wins value_string (value_integer int_t) map_to_list
           utf8_text (roundtrip_int int_t)).
  - apply _.
  - apply RoundTripAny_RoundTrip, value_integer_RoundTrip. apply list_elem_of_In. simpl. tauto.
  - repeat constructor; try (vm_compute; reflexivity); by intros _ _ [=].
Defined.

(**  Reading into an array of a fixed size never stores outside of it,
    for every text: no undefined behaviour beyond that of reading an element,
    and the array keeps its size. *)
Theorem array_fixed_in_bounds {A} (J : serializer A) N e t b :
  (∀ a b, unser J e a b ≠ Undef) → length t = N →
  match unser (array_fixed J N) e t b with
  | Ok (t', _) => length t' = N
  | Undef => False
  | _ => True
  end.
Proof.
  intros HJ Ht. simpl. destruct (is_null b).
  { pose proof (parse_null_defined b) as [_ Hn]. destruct (parse_null b); simpl; try done.
    apply length_replicate. }
  destruct b as [|c r]; [done|]. destruct (c =?c "["); [|done].
  pose proof (fixed_defined J N (length r) e t 0 r HJ Ht ltac:(lia)) as Hd.
  destruct (unserialize_fixed J N (length r) e t 0 r) as [[t' b1]| | |] eqn:Hu; simpl; try done.
  apply fixed_length in Hu. destruct b1 as [|d b1]; [done|]. simpl. destruct (d =?c "]"); [|done]. simpl. congruence.
Qed.

Lemma array_fixed_in_bounds_witness :
  match unser (array_fixed value_string 2) Foreign [[]; []] (js "['a','b']") with
  | Ok (t', _) => length t' = 2%nat
  | Undef => False
  | _ => True
  end.
Proof.
  apply array_fixed_in_bounds; [|reflexivity].
  intros a b. simpl. destruct (is_null b).
  - intros [H|[? [_ H]]]%bind_Undef; [by eapply parse_null_defined in H|discriminate H].
  - apply unserialize_string_outcome.
Defined.
