(* ===== verification/JsonObject.v ===== *)
(** * JsonObject: [fas/misc/json/json_object.hpp]

    Objects: a list of members, each with a name, a field and the serializer
    of the field.  The reader expects the members in the order of the list;
    one that is out of order is searched for from the start of the list, an
    unknown one is skipped. *)

From S2P Require Import Prelude JsonParser JsonNumber Serializer JsonString JsonArray.

#[local] Arguments Ascii.eqb !_ !_.

(** ** Members *)

(** A member of the objects [T]: its name, how its value is written, and how
    the value after its name is read into an object. *)
Record memb (T : Type) := Memb {
  m_name : bytes;
  m_ser : T → res bytes;
  m_unser : past → T → bytes → res (T * bytes);
}.
Arguments Memb {T} _ _ _.
Arguments m_name {T} _.
Arguments m_ser {T} _ _.
Arguments m_unser {T} _ _ _ _.

(** The value is read over the current value of the field. *)
(* src: fas/misc/json.hpp 297-310 member *)
Definition member {T M} (name : bytes) (get : T → M) (set : T → M → T) (W : serializer M) : memb T :=
  Memb name (λ t, ser W (get t))
    (λ e t b, '(v, b) ← unser W e (get t) b; mret (set t v, b)).

(** The value is read into a fresh variable and handed to the setter. *)
(* src: fas/misc/json/json_object.hpp 290-300 serializerT<object>::unserialize_member *)
Definition member_p {T M} (name : bytes) (get : T → M) (set : T → M → T) (W : serializer M) : memb T :=
  Memb name (λ t, ser W (get t))
    (λ e t b, '(v, b) ← unser W e (dflt W) b; mret (set t v, b)).

(* src: fas/misc/json/json_object.hpp 13-25 serializerT<member_value> *)
Definition member_value {T M} (get : T → M) (set : T → M → T) (W : serializer M) (t0 : T) : serializer T :=
  Serializer (λ t, ser W (get t))
    (λ e t b, '(v, b) ← unser W e (get t) b; mret (set t v, b)) t0.

(** ** Writing *)

(* src: fas/misc/json/json_object.hpp 106-115 serializerT<object>::serialize_member_name *)
Definition serialize_member_name (name : bytes) : bytes := QUOTE :: name ++ [QUOTE; ":"%char].

(* src: fas/misc/json/json_object.hpp 117-132 serializerT<object>::serialize_member *)
Definition serialize_member {T} (m : memb T) (t : T) : res bytes :=
  s ← m_ser m t; mret (serialize_member_name (m_name m) ++ s).

(* src: fas/misc/json/json_object.hpp 86-104 serializerT<object>::serialize_members *)
Fixpoint serialize_members {T} (ms : list (memb T)) (t : T) : res bytes :=
  match ms with
  | [] => Ok []
  | [m] => serialize_member m t
  | m :: ms =>
      s ← serialize_member m t;
      r ← serialize_members ms t;
      mret (s ++ ","%char :: r)
  end.

(** ** Reading *)

(** The loop that compares the name with the text. *)
Fixpoint match_name (name b : bytes) : bytes * bytes :=
  match name, b with
  | n :: name', c :: b' => if (c =?c n) && (c ≠?c QUOTE) then match_name name' b' else (name, b)
  | _, _ => (name, b)
  end.

(** [Some b] : the name was this one, the value starts at [b]. *)
(* src: fas/misc/json/json_object.hpp 236-276 serializerT<object>::unserialize_member_name *)
Definition unserialize_member_name (name b : bytes) : res (option bytes) :=
  if negb (is_string b) then throw_at (expected_of [QUOTE]) b
  else
    match match_name name (tail b) with
    | (_, []) => throw end_fragment
    | (name', c :: r) =>
        if (c =?c QUOTE) && (match name' with [] => true | _ => false end) then
          b ← expect ":" r;
          '(c, r) ← skip_to b;
          mret (Some (c :: r))
        else Ok None
    end.

(* src: fas/misc/json/json_object.hpp 279-300 serializerT<object>::unserialize_member *)
Definition unserialize_member {T} (m : memb T) (e : past) (t : T) (b : bytes) : res (option (T * bytes)) :=
  o ← unserialize_member_name (m_name m) b;
  match o with
  | None => Ok None
  | Some b => tb ← m_unser m e t b; mret (Some tb)
  end.

(** [unserialize_members] with [search = true]: one member of the text is
    looked for in the list, and skipped at its end. *)
(* src: fas/misc/json/json_object.hpp 165-178 serializerT<object>::unserialize_members *)
Fixpoint search_members {T} (ms : list (memb T)) (e : past) (t : T) (b : bytes) : res (T * bytes) :=
  match ms with
  | [] => b ← parse_member e b; mret (t, parse_space b)
  | m :: ms =>
      o ← unserialize_member m e t b;
      match o with
      | Some tb => Ok tb
      | None => search_members ms e t b
      end
  end.

(** The loop that skips what is left when the list is exhausted. *)
(* src: fas/misc/json/json_object.hpp 216-224 serializerT<object>::unserialize_members *)
Fixpoint skip_members (fuel : nat) (e : past) (b : bytes) : res bytes :=
  match fuel with
  | O => NoFuel
  | S fuel =>
      b ← parse_member e b;
      '(c, r) ← skip_to b;
      if c =?c "}" then Ok (c :: r)
      else if c =?c "," then skip_members fuel e (parse_space r)
      else throw_at (expected_of (str ",")) (c :: r)
  end.

Section object.
Context {T : Type} (L : list (memb T)) (t0 : T).

(** [unserialize_members] with [search = false]. *)
(* src: fas/misc/json/json_object.hpp 164-234 serializerT<object>::unserialize_members *)
Fixpoint unserialize_members (fuel : nat) (ms : list (memb T)) (e : past) (t : T) (b : bytes)
    : res (T * bytes) :=
  match ms with
  | [] =>
      '(c, r) ← skip_to b;
      if c =?c "}" then Ok (t, c :: r)
      else (b ← skip_members (S fuel) e (c :: r); mret (t, b))
  | m :: ms' =>
      o ← unserialize_member m e t b;
      '(t, b) ← match o return res (T * bytes) with
                | Some tb => Ok tb
                | None => search_members L e t b
                end;
      '(c, r) ← skip_to b;
      '(t, b) ← (if c =?c "," then
                   match fuel with
                   | O => NoFuel
                   | S fuel =>
                       unserialize_members fuel (match o with Some _ => ms' | None => ms end) e t (parse_space r)
                   end
                 else Ok (t, c :: r));
      match b with
      | [] => throw end_fragment
      | c :: _ => if c =?c "}" then Ok (t, b) else throw_at (expected_of (str "}")) b
      end
  end.

(* src: fas/misc/json/json_object.hpp 39-46 serializerT<object>::operator() *)
Definition serialize_object (t : T) : res bytes :=
  s ← serialize_members L t; mret ("{"%char :: s ++ str "}").

(* src: fas/misc/json/json_object.hpp 51-84 serializerT<object>::operator() *)
Definition unserialize_object (e : past) (t : T) (b : bytes) : res (T * bytes) :=
  if is_null b then b' ← parse_null b; mret (t0, b')
  else match b with
  | [] => throw end_fragment
  | c :: r =>
      if c =?c "{" then
        '(c, r) ← skip_to r;
        '(t, b) ← (if c =?c "}" then Ok (t, c :: r)
                   else '(t, b) ← unserialize_members (S (length r)) L e t (c :: r);
                        '(c, r) ← skip_to b; mret (t, c :: r));
        match b with
        | [] => throw end_fragment
        | c :: r => if c =?c "}" then Ok (t, r) else throw_at (expected_of (str "}")) r
        end
      else throw_at (expected_of (str "{")) r
  end.

(* src: fas/misc/json/json_object.hpp 28-84 serializerT<object<T, L>> *)
Definition object : serializer T := Serializer serialize_object unserialize_object t0.
End object.

Example object_ex :
  let o := object [member (str "a") fst (λ t v, (v, t.2)) (value_integer int_t);
                   member (str "b") snd (λ t v, (t.1, v)) value_string] (0, []) in
  ser o (7, str "x") = Ok (js "{'a':7,'b':'x'}") ∧
  unser o Foreign (0, []) (js "{ 'z':[{}], 'b' : 'y','a':12,'q':0}!") = Ok ((12, str "y"), str "!").
Proof. split; vm_compute; reflexivity. Qed.

(** ** Termination *)

(** What is asked of the members of an object. *)
Class MembOk {T} (m : memb T) : Prop := {
  memb_NoFuel e t b : m_unser m e t b ≠ NoFuel;
  memb_suffix e t b t' b' : m_unser m e t b = Ok (t', b') → b' `suffix_of` b;
}.

Lemma member_MembOk {T M} name (get : T → M) set W : SerOk W → MembOk (member name get set W).
Proof.
  intros HW. split; simpl.
  - intros e t b [H|[[v b1] [_ H]]]%bind_NoFuel; [by eapply unser_NoFuel|done].
  - intros e t b t' b' [[v b1] [Hu [= _ <-]]]%bind_Ok. by eapply unser_suffix.
Qed.
Lemma member_p_MembOk {T M} name (get : T → M) set W : SerOk W → MembOk (member_p name get set W).
Proof.
  intros HW. split; simpl.
  - intros e t b [H|[[v b1] [_ H]]]%bind_NoFuel; [by eapply unser_NoFuel|done].
  - intros e t b t' b' [[v b1] [Hu [= _ <-]]]%bind_Ok. by eapply unser_suffix.
Qed.

Lemma match_name_suffix name b : (match_name name b).2 `suffix_of` b.
Proof.
  revert b. induction name as [|n name IH]; intros [|c b]; simpl; auto with suffix.
  case_match; auto with suffix.
Qed.

Lemma member_name_suffix name b b' : unserialize_member_name name b = Ok (Some b') → b' `suffix_of` b.
Proof.
  unfold unserialize_member_name. case_match; [done|].
  pose proof (match_name_suffix name (tail b)) as Hm.
  destruct (match_name name (tail b)) as [name' [|c r]]; [done|]. case_match; [|done].
  intros (b1 & He & Hu)%bind_Ok. apply bind_Ok in Hu as ([d r'] & Hs & [= <-]).
  apply expect_suffix in He. apply skip_to_suffix in Hs. simpl in Hm.
  etrans; [exact Hs|]. etrans; [exact He|]. etrans; [|apply suffix_tail]. etrans; [|exact Hm].
  auto with suffix.
Qed.

Lemma member_name_NoFuel name b : unserialize_member_name name b ≠ NoFuel.
Proof.
  unfold unserialize_member_name. case_match; [done|].
  destruct (match_name name (tail b)) as [name' [|c r]]; [done|]. case_match; [|done].
  intros [He|(b1 & _ & Hu)]%bind_NoFuel; [by eapply expect_NoFuel|].
  apply bind_NoFuel in Hu as [Hu|([d r'] & _ & Hu)]; [by eapply skip_to_NoFuel|done].
Qed.

Lemma unserialize_member_suffix {T} (m : memb T) e t b t' b' :
  MembOk m → unserialize_member m e t b = Ok (Some (t', b')) → b' `suffix_of` b.
Proof.
  intros Hm. unfold unserialize_member. intros ([b1|] & Hn & Hu)%bind_Ok; [|done].
  apply bind_Ok in Hu as ([t1 b2] & Hu & [= <- <-]). apply member_name_suffix in Hn.
  apply memb_suffix in Hu. by etrans.
Qed.
Lemma unserialize_member_NoFuel {T} (m : memb T) e t b : MembOk m → unserialize_member m e t b ≠ NoFuel.
Proof.
  intros Hm. unfold unserialize_member. intros [H|([b1|] & _ & H)]%bind_NoFuel; [|..|done].
  - by eapply member_name_NoFuel.
  - apply bind_NoFuel in H as [H|(tb & _ & H)]; [by eapply memb_NoFuel|done].
Qed.

Lemma search_members_suffix {T} (ms : list (memb T)) e t b t' b' :
  Forall MembOk ms → search_members ms e t b = Ok (t', b') → b' `suffix_of` b.
Proof.
  induction 1 as [|m ms Hm Hms IH]; simpl.
  - intros (b1 & Hp & [= _ <-])%bind_Ok. etrans; [apply parse_space_suffix|].
    by eapply proper_suffix_suffix, parse_member_progress.
  - intros ([[t1 b1]|] & Hu & H)%bind_Ok; [|by apply IH]. simplify_eq. by eapply unserialize_member_suffix.
Qed.
Lemma search_members_NoFuel {T} (ms : list (memb T)) e t b :
  Forall MembOk ms → search_members ms e t b ≠ NoFuel.
Proof.
  induction 1 as [|m ms Hm Hms IH]; simpl.
  - intros [H|(b1 & _ & H)]%bind_NoFuel; [by eapply parse_member_NoFuel|done].
  - intros [H|([tb|] & _ & H)]%bind_NoFuel; [by eapply unserialize_member_NoFuel|done|done].
Qed.

Lemma skip_members_suffix fuel e b b' : skip_members fuel e b = Ok b' → b' `suffix_of` b.
Proof.
  revert b. induction fuel as [|fuel IH]; intros b; simpl; [done|].
  intros (b1 & Hp & H)%bind_Ok. apply bind_Ok in H as ([c r] & Hs & H).
  apply parse_member_progress, proper_suffix_suffix in Hp. apply skip_to_suffix in Hs.
  case_match; [simplify_eq; by etrans|]. case_match; [|done]. apply IH in H.
  etrans; [exact H|]. etrans; [apply parse_space_suffix|].
  etrans; [|exact Hp]. etrans; [|exact Hs]. auto with suffix.
Qed.
Lemma skip_members_NoFuel fuel e b : (length b < fuel)%nat → skip_members fuel e b ≠ NoFuel.
Proof.
  revert b. induction fuel as [|fuel IH]; intros b Hb; simpl; [lia|].
  intros [H|(b1 & Hp & H)]%bind_NoFuel; [by eapply parse_member_NoFuel|].
  apply bind_NoFuel in H as [H|([c r] & Hs & H)]; [by eapply skip_to_NoFuel|].
  case_match; [done|]. case_match; [|done]. eapply IH; [|exact H].
  apply parse_member_progress, proper_suffix_length in Hp. apply skip_to_length in Hs.
  pose proof (suffix_length _ _ (parse_space_suffix r)). lia.
Qed.

Section object_facts.
Context {T : Type} (L : list (memb T)) (t0 : T) `{HL : !Forall MembOk L}.

Lemma unserialize_members_suffix fuel ms e t b t' b' :
  Forall MembOk ms → unserialize_members L fuel ms e t b = Ok (t', b') → b' `suffix_of` b.
Proof using HL.
  revert ms t b t' b'. induction fuel as [|fuel IH]; intros ms t b t' b' Hms Hu; destruct Hms as [|m ms Hm Hms];
    cbn [unserialize_members] in Hu.
  1,3: apply bind_Ok in Hu as ([c r] & Hs & Hu); apply skip_to_suffix in Hs;
    case_match; [by simplify_eq|]; apply bind_Ok in Hu as (b1 & Hk & [= _ <-]);
    apply skip_members_suffix in Hk; by etrans.
  all: apply bind_Ok in Hu as (o & Ho & Hu); apply bind_Ok in Hu as ([t1 b1] & Hs & Hu);
    apply bind_Ok in Hu as ([c r] & Hk & Hu); apply skip_to_suffix in Hk;
    assert (b1 `suffix_of` b) as Hb1 by
      (destruct o as [tb|]; [simplify_eq; by eapply unserialize_member_suffix
                            |exact (search_members_suffix _ _ _ _ _ _ HL Hs)]);
    apply bind_Ok in Hu as ([t2 b2] & Hc & Hu);
    assert (b2 `suffix_of` c :: r) as Hb2;
    [|destruct b2; [done|]; case_match; simplify_eq; etrans; [exact Hb2|]; by etrans].
  - destruct (c =?c ","); [done|by simplify_eq].
  - destruct (c =?c ","); [|by simplify_eq]. apply IH in Hc; [|by destruct o; [|constructor]].
    etrans; [exact Hc|]. apply suffix_cons_r, parse_space_suffix.
Qed.

Lemma unserialize_members_NoFuel fuel ms e t b :
  Forall MembOk ms → (length b ≤ fuel)%nat → unserialize_members L fuel ms e t b ≠ NoFuel.
Proof using HL.
  revert ms t b. induction fuel as [|fuel IH]; intros ms t b Hms Hb Hu.
  { destruct b; [|simpl in Hb; lia]. by destruct Hms. }
  destruct Hms as [|m ms Hm Hms]; cbn [unserialize_members] in Hu.
  - apply bind_NoFuel in Hu as [Hu|([c r] & Hs & Hu)]; [by eapply skip_to_NoFuel|].
    case_match; [done|]. apply bind_NoFuel in Hu as [Hu|(b1 & _ & Hu)]; [|done].
    apply skip_to_suffix, suffix_length in Hs. eapply skip_members_NoFuel; [|exact Hu]. lia.
  - apply bind_NoFuel in Hu as [Hu|(o & Ho & Hu)]; [by eapply unserialize_member_NoFuel|].
    apply bind_NoFuel in Hu as [Hu|([t1 b1] & Hs & Hu)].
    { destruct o; [done|]. exact (search_members_NoFuel _ _ _ _ HL Hu). }
    assert (b1 `suffix_of` b) as Hb1%suffix_length by
      (destruct o as [tb|]; [simplify_eq; by eapply unserialize_member_suffix
                            |exact (search_members_suffix _ _ _ _ _ _ HL Hs)]).
    apply bind_NoFuel in Hu as [Hu|([c r] & Hk & Hu)]; [by eapply skip_to_NoFuel|].
    apply skip_to_length in Hk.
    apply bind_NoFuel in Hu as [Hu|([t2 b2] & _ & Hu)]; [|by repeat case_match].
    destruct (c =?c ","); [|done]. pose proof (suffix_length _ _ (parse_space_suffix r)).
    eapply IH; [|..|exact Hu]; [by destruct o; [|constructor]|lia].
Qed.

#[export] Instance object_SerOk : SerOk (object L t0).
Proof using HL.
  split; simpl; unfold unserialize_object.
  - intros e t b. destruct (is_null b).
    { intros [H|[? [_ H]]]%bind_NoFuel; [by eapply parse_null_defined in H|done]. }
    destruct b as [|c r]; [done|]. destruct (c =?c "{"); [|done].
    intros [H|([d r1] & Hs & H)]%bind_NoFuel; [by eapply skip_to_NoFuel|].
    apply skip_to_suffix, suffix_length in Hs.
    apply bind_NoFuel in H as [H|([t1 b1] & _ & H)]; [|by repeat case_match].
    destruct (d =?c "}"); [done|]. apply bind_NoFuel in H as [H|([t1 b1] & _ & H)].
    + eapply unserialize_members_NoFuel; [exact HL| |exact H]. simpl in *. lia.
    + apply bind_NoFuel in H as [H|([? ?] & _ & H)]; [by eapply skip_to_NoFuel|done].
  - intros e t b t' b'. destruct (is_null b).
    { intros [? [H' [= _ ->]]]%bind_Ok. eauto using proper_suffix_suffix, parse_null_progress. }
    destruct b as [|c r]; [done|]. destruct (c =?c "{"); [|done].
    intros ([d r1] & Hs & Hu)%bind_Ok. apply skip_to_suffix in Hs.
    apply bind_Ok in Hu as ([t1 b1] & Hu & Hc).
    assert (b1 `suffix_of` d :: r1) as Hb1.
    { destruct (d =?c "}"); [by simplify_eq|]. apply bind_Ok in Hu as ([t2 b2] & Hm & Hu).
      apply bind_Ok in Hu as ([? ?] & Hk & [= _ <-]). apply skip_to_suffix in Hk.
      apply unserialize_members_suffix in Hm; [|exact HL]. by etrans. }
    destruct b1 as [|x b1]; [done|]. case_match; [|done]. simplify_eq.
    apply suffix_cons_r. etrans; [|exact Hs]. etrans; [|exact Hb1]. auto with suffix.
Qed.
End object_facts.

(** ** Reading in any order *)

(** A name as the names of members are: no quote, no NUL. *)
Definition plain_name (name : bytes) : bool := forallb (λ c, (c ≠?c QUOTE) && (c ≠?c NUL)) name.

Lemma match_name_same name r : plain_name name = true → match_name name (name ++ QUOTE :: r) = ([], QUOTE :: r).
Proof.
  induction name as [|n name IH]; [by intros|]. simpl. rewrite !andb_true_iff. intros [[Hq _] Hn].
  rewrite Ascii.eqb_refl, Hq. simpl. by apply IH.
Qed.

Lemma match_name_other name name' r :
  name ≠ name' → plain_name name = true → plain_name name' = true →
  ∃ n c b, match_name name (name' ++ QUOTE :: r) = (n, c :: b) ∧
           (c =?c QUOTE) && (match n with [] => true | _ => false end) = false.
Proof.
  revert name'. induction name as [|x name IH]; intros [|y name'] Hne Hn Hn'; simpl in *.
  - done.
  - do 3 eexists. split; [done|]. rewrite !andb_true_iff, negb_true_iff in Hn'.
    destruct Hn' as [[-> _] _]. done.
  - rewrite andb_false_r. do 3 eexists. split; [done|]. done.
  - rewrite !andb_true_iff in *. destruct Hn as [[Hx _] Hn], Hn' as [[Hy _] Hn'].
    destruct (Ascii.eqb_spec y x) as [->|Hxy]; simpl.
    + rewrite Hy. apply IH; congruence.
    + do 3 eexists. split; [done|]. by rewrite andb_false_r.
Qed.

(** One entry of the text of an object, and the text of several. *)
Definition entry {T} (ms : memb T * bytes) : bytes := serialize_member_name (m_name ms.1) ++ ms.2.
Fixpoint join {T} (es : list (memb T * bytes)) : bytes :=
  match es with
  | [] => []
  | [x] => entry x
  | x :: es => entry x ++ ","%char :: join es
  end.

(** [s] is the text of a value that the member [m] reads, taking [t] to [t']. *)
Definition reads {T} (m : memb T) (s : bytes) (t t' : T) : Prop :=
  visible s = true ∧ ∀ e rest, delim rest → m_unser m e t (s ++ rest) = Ok (t', rest).

Inductive reads_all {T} : list (memb T * bytes) → T → T → Prop :=
  | reads_nil t : reads_all [] t t
  | reads_cons m s es t1 t2 t3 : reads m s t1 t2 → reads_all es t2 t3 → reads_all ((m, s) :: es) t1 t3.

Lemma reads_all_inv {T} (m : memb T) s es t t' :
  reads_all ((m, s) :: es) t t' → ∃ t2, reads m s t t2 ∧ reads_all es t2 t'.
Proof. inversion 1; subst; eauto. Qed.

Lemma unserialize_member_same {T} (m : memb T) s t t' e rest :
  plain_name (m_name m) = true → reads m s t t' → delim rest →
  unserialize_member m e t (entry (m, s) ++ rest) = Ok (Some (t', rest)).
Proof.
  intros Hn [Hv Hr] Hd. unfold unserialize_member, unserialize_member_name, entry, serialize_member_name.
  simpl. rewrite <-!app_assoc. simpl. rewrite match_name_same by done.
  rewrite Ascii.eqb_refl. simpl.
  destruct (skip_to_visible s rest Hv) as (c & s' & -> & _ & _ & ->). simpl.
  change (c :: s' ++ rest) with ((c :: s') ++ rest). by rewrite Hr.
Qed.

Lemma unserialize_member_other {T} (m m' : memb T) s t e rest :
  plain_name (m_name m) = true → plain_name (m_name m') = true → m_name m ≠ m_name m' →
  unserialize_member m e t (entry (m', s) ++ rest) = Ok None.
Proof.
  intros Hn Hn' Hne. unfold unserialize_member, unserialize_member_name, entry, serialize_member_name.
  simpl. rewrite <-!app_assoc. simpl.
  destruct (match_name_other _ _ (":"%char :: s ++ rest) Hne Hn Hn') as (n & c & b & -> & Hc).
  by rewrite Hc.
Qed.

Lemma skip_to_entry {T} (x : memb T * bytes) rest : ∃ r, skip_to (entry x ++ rest) = Ok (QUOTE, r) ∧
  entry x ++ rest = QUOTE :: r.
Proof. unfold entry, serialize_member_name. simpl. by eexists. Qed.

Lemma join_cons {T} (x : memb T * bytes) es : es ≠ [] → join (x :: es) = entry x ++ ","%char :: join es.
Proof. by destruct es. Qed.

Lemma join_visible {T} (es : list (memb T * bytes)) rest :
  es ≠ [] → parse_space (join es ++ rest) = join es ++ rest.
Proof.
  intros Hne. rewrite parse_space_visible; [done|].
  by destruct es as [|x [|y es]].
Qed.

Section any_order.
Context {T : Type} (L : list (memb T)) (t0 : T).
Hypothesis Hnames : NoDup (m_name <$> L).
Hypothesis Hplain : Forall (λ m, plain_name (m_name m) = true) L.

Lemma plain_in m : m ∈ L → plain_name (m_name m) = true.
Proof using Hplain. rewrite Forall_forall in Hplain. auto. Qed.

Lemma same_member m m' : m ∈ L → m' ∈ L → m_name m = m_name m' → m = m'.
Proof using Hnames.
  intros H H' Heq. apply list_elem_of_lookup in H as [i Hi]. apply list_elem_of_lookup in H' as [j Hj].
  assert (i = j) as ->; [|congruence].
  eapply (NoDup_lookup (m_name <$> L)); [done|..]; rewrite list_lookup_fmap.
  - by rewrite Hi.
  - rewrite Hj. simpl. by rewrite Heq.
Qed.

Lemma search_members_found m s t t' e rest :
  m ∈ L → reads m s t t' → delim rest →
  search_members L e t (entry (m, s) ++ rest) = Ok (t', rest).
Proof using Hnames Hplain.
  intros Hm Hr Hd.
  assert (∀ ms, (∀ x, x ∈ ms → x ∈ L) → m ∈ ms →
    search_members ms e t (entry (m, s) ++ rest) = Ok (t', rest)) as Hs; [|by apply Hs].
  induction ms as [|x ms IH]; intros Hsub Hin; [by apply not_elem_of_nil in Hin|].
  cbn [search_members].
  assert (x ∈ L) as Hx by (apply Hsub, list_elem_of_here).
  destruct (decide (m_name x = m_name m)) as [Heq|Hne].
  - assert (x = m) as -> by (by apply same_member).
    by rewrite (unserialize_member_same m s t t' e rest) by (done || by apply plain_in).
  - rewrite unserialize_member_other by (done || by apply plain_in). cbn [mbind res_bind]. apply IH.
    + intros y Hy. apply Hsub. by apply list_elem_of_further.
    + apply elem_of_cons in Hin as [->|]; [done|done].
Qed.

(** The entries that are left are members of the list, none of them already
    behind the position [ms] in it. *)
Lemma unserialize_members_any_order es :
  ∀ fuel pre ms e t t' rest,
  es ≠ [] → L = pre ++ ms → Forall (λ x, x.1 ∈ L ∧ m_name x.1 ∉ m_name <$> pre) es →
  NoDup (m_name ∘ fst <$> es) → reads_all es t t' → (length es ≤ fuel)%nat →
  unserialize_members L fuel ms e t (join es ++ "}"%char :: rest) = Ok (t', "}"%char :: rest).
Proof using Hnames Hplain.
  induction es as [|[m s] es IH]; intros fuel pre ms e t t' rest Hne HL Hin Hnd Hr Hf; [done|].
  apply reads_all_inv in Hr as (t2 & Hm & Hes). apply Forall_cons in Hin as [[HmL Hpre] Hin].
  cbn in HmL, Hpre, Hnd, Hf.
  apply NoDup_cons in Hnd as [Hfresh Hnd]. destruct fuel as [|fuel]; [lia|].
  destruct ms as [|x ms].
  { exfalso. apply Hpre. rewrite app_nil_r in HL. rewrite HL in HmL. by apply list_elem_of_fmap_2. }
  set (tl := match es with [] => [] | _ => ","%char :: join es end ++ "}"%char :: rest).
  assert (join ((m, s) :: es) ++ "}"%char :: rest = entry (m, s) ++ tl) as ->.
  { unfold tl. destruct es; [done|]. rewrite join_cons by done. by rewrite <-app_assoc. }
  assert (delim tl) as Hd by (unfold tl; destruct es; apply list_elem_of_In; simpl; auto).
  assert (∃ o : option (T * bytes), unserialize_member x e t (entry (m, s) ++ tl) = Ok o ∧
    match o with Some tb => Ok tb | None => search_members L e t (entry (m, s) ++ tl) end
      = Ok (t2, tl) ∧ (is_Some o → x = m)) as (o & Ho & Hs & Hox).
  { assert (x ∈ L) as HxL by (rewrite HL; apply elem_of_app; right; apply list_elem_of_here).
    destruct (decide (m_name x = m_name m)) as [Heq|Hxm].
    - assert (x = m) as -> by (by apply same_member).
      exists (Some (t2, tl)). split_and!; [|done..]. apply unserialize_member_same; [by apply plain_in|done..].
    - exists None. split_and!; [|by apply search_members_found|by intros [? ?]].
      apply unserialize_member_other; [by apply plain_in..|done]. }
  cbn [unserialize_members]. rewrite Ho. cbn [mbind res_bind]. rewrite Hs. cbn [mbind res_bind]. unfold tl.
  destruct es as [|y es]; cbn [app].
  { inversion Hes; subst. rewrite skip_to_delim; [done|]. apply list_elem_of_In. simpl. auto. }
  rewrite skip_to_delim by apply comma_delim. cbn [mbind res_bind].
  rewrite Ascii.eqb_refl, join_visible by done.
  destruct o as [tb|].
  - rewrite (Hox ltac:(by eexists)) in *.
    rewrite (IH fuel (pre ++ [m]) ms e t2 t' rest); [done|done|by rewrite HL, <-app_assoc| |done|done|simpl in *; lia].
    apply Forall_forall. intros z Hz. rewrite Forall_forall in Hin. destruct (Hin z Hz) as [Hz1 Hz2].
    split; [done|]. rewrite fmap_app. intros [?|Hzm]%elem_of_app; [done|].
    apply list_elem_of_singleton in Hzm. apply Hfresh. rewrite <-Hzm.
    by apply (list_elem_of_fmap_2 (m_name ∘ fst)).
  - rewrite (IH fuel pre (x :: ms) e t2 t' rest); [done..|simpl in *; lia].
Qed.
End any_order.

(** ** Objects as members of larger texts *)

(** [a]'s member [m] is written, and read back over [t] gives [t']. *)
Definition written {T} (m : memb T) (a t t' : T) : Prop :=
  ∃ s, m_ser m a = Ok s ∧ reads m s t t'.

Inductive written_all {T} (a : T) : list (memb T) → T → T → Prop :=
  | written_nil t : written_all a [] t t
  | written_cons m ms t1 t2 t3 :
      written m a t1 t2 → written_all a ms t2 t3 → written_all a (m :: ms) t1 t3.

Lemma member_written {T M} name (get : T → M) set W P a t :
  RoundTrip W P → P (get a) → get t = dflt W →
  written (member name get set W) a t (set t (get a)).
Proof.
  intros HW Ha Ht. destruct (round_trip (get a) Ha) as (s & Es & Vs & Rs).
  exists s. split; [done|]. split; [done|]. intros e rest Hd. simpl. rewrite Ht. by rewrite Rs.
Qed.

Lemma member_written_any {T M} name (get : T → M) set W P a t :
  RoundTripAny W P → P (get a) → written (member name get set W) a t (set t (get a)).
Proof.
  intros HW Ha. destruct (round_trip_any (get a) Ha) as (s & Es & Vs & Rs).
  exists s. split; [done|]. split; [done|]. intros e rest Hd. simpl. by rewrite Rs.
Qed.

Lemma written_entries {T} (a : T) ms t t' :
  written_all a ms t t' →
  ∃ es, es.*1 = ms ∧ serialize_members ms a = Ok (join es) ∧ reads_all es t t'.
Proof.
  induction 1 as [t|m ms t1 t2 t3 (s & Es & Hr) Hms (es & He & Hs & Hes)].
  { exists []. split_and!; [done|done|constructor]. }
  exists ((m, s) :: es). split_and!; [by rewrite fmap_cons, He| |by econstructor].
  assert (serialize_member m a = Ok (entry (m, s))) as Hm by (unfold serialize_member; by rewrite Es).
  destruct es as [|x es]; [destruct ms; [exact Hm|done]|]. rewrite join_cons by done.
  destruct ms as [|m' ms]; [done|].
  change (serialize_members (m :: m' :: ms) a) with
    (s ← serialize_member m a; r ← serialize_members (m' :: ms) a; mret (s ++ ","%char :: r)).
  by rewrite Hm, Hs.
Qed.

Section object_text.
Context {T : Type} (L : list (memb T)) (t0 : T).

(** The decidable side condition on the names of a list of members. *)
Definition names_ok : bool :=
  bool_decide (NoDup (m_name <$> L)) && forallb (λ m, plain_name (m_name m)) L.

Lemma names_ok_spec :
  names_ok = true → NoDup (m_name <$> L) ∧ Forall (λ m, plain_name (m_name m) = true) L.
Proof.
  unfold names_ok. rewrite andb_true_iff, bool_decide_eq_true. intros [Hn Hp]. split; [done|].
  apply Forall_forall. rewrite forallb_forall in Hp. intros m Hm. by apply Hp, list_elem_of_In.
Qed.

Lemma unserialize_any_order es e t t' rest :
  names_ok = true → Forall (λ x, x.1 ∈ L) es → NoDup (m_name ∘ fst <$> es) → reads_all es t t' →
  unserialize_object L t0 e t ("{"%char :: join es ++ "}"%char :: rest) = Ok (t', rest).
Proof.
  intros [Hn Hp]%names_ok_spec Hin Hnd Hr. unfold unserialize_object.
  replace (is_null _) with false by done. rewrite Ascii.eqb_refl.
  destruct es as [|x es].
  { by inversion Hr; subst. }
  assert (∃ r, join (x :: es) ++ "}"%char :: rest = QUOTE :: r ∧
               skip_to (join (x :: es) ++ "}"%char :: rest) = Ok (QUOTE, r)) as (r & Hj & Hs).
  { unfold skip_to. rewrite join_visible by done. destruct es as [|y es].
    - change (join [x]) with (entry x). destruct (skip_to_entry x ("}"%char :: rest)) as (r & _ & ->). eauto.
    - rewrite join_cons by done. rewrite <-app_assoc.
      destruct (skip_to_entry x ((","%char :: join (y :: es)) ++ "}"%char :: rest)) as (r & _ & ->). eauto. }
  rewrite Hs. cbn [mbind res_bind]. rewrite <-Hj.
  replace (Ascii.eqb QUOTE "}") with false by done.
  rewrite (unserialize_members_any_order L Hn Hp (x :: es) _ [] L e t t' rest); try done.
  - eapply Forall_impl; [exact Hin|]. intros y Hy. split; [done|]. by apply not_elem_of_nil.
  - assert (∀ es' : list (memb T * bytes), length es' ≤ length (join es'))%nat as Hl.
    { induction es' as [|z [|z' es'] IH]; [simpl; lia|simpl; lia|].
      rewrite join_cons by done. rewrite length_app. simpl in *. lia. }
    specialize (Hl (x :: es)). apply (f_equal length) in Hj. rewrite length_app in Hj. simpl in *. lia.
Qed.

Lemma object_ClosedTrip P :
  names_ok = true → (∀ a, P a → written_all a L t0 a) → ClosedTrip (object L t0) P.
Proof.
  intros Hok HP. split. intros a Ha.
  destruct (written_entries a L t0 a (HP a Ha)) as (es & He & Hs & Hr).
  exists ("{"%char :: join es ++ str "}"). simpl. unfold serialize_object. rewrite Hs.
  split_and!; [done|done|]. intros e rest. rewrite <-app_assoc.
  apply unserialize_any_order; [done| | |done].
  - apply Forall_forall. intros x Hx. rewrite <-He. by apply list_elem_of_fmap_2.
  - rewrite list_fmap_compose. change (fst <$> es) with (es.*1). rewrite He.
    by apply names_ok_spec.
Qed.
End object_text.

(** ** Properties *)

(**  The members of an object are read in whatever order the text has
    them: when the text names distinct members of the list, each with a value
    that its serializer reads, the whole text is consumed and the effects of
    the values are applied one after the other. *)
Theorem object_any_order {T} (L : list (memb T)) (t0 : T) es e t t' rest :
  names_ok L = true → Forall (λ x, x.1 ∈ L) es → NoDup (m_name ∘ fst <$> es) → reads_all es t t' →
  unser (object L t0) e t ("{"%char :: join es ++ "}"%char :: rest) = Ok (t', rest).
Proof. apply unserialize_any_order. Qed.

Lemma object_any_order_witness :
  let a := member (str "a") fst (λ t v, (v, t.2)) (value_integer int_t) in
  let b := member (str "b") snd (λ t v, (t.1, v)) (value_integer int_t) in
  unser (object [a; b] (0, 0)) Foreign (0, 0) (js "{'b':2,'a':1}!") = Ok ((1, 2), str "!").
Proof.
  intros a b.
  apply (object_any_order [a; b] (0, 0) [(b, str "2"); (a, str "1")] Foreign (0, 0) (1, 2) (str "!")).
  - vm_compute. reflexivity.
  - repeat constructor; apply list_elem_of_In; simpl; auto.
  - apply (bool_decide_unpack _). vm_compute. exact I.
  - apply (reads_cons b (str "2") _ (0, 0) (0, 2) (1, 2)).
    { split; [reflexivity|]. intros e [|c rest] Hd; [reflexivity|]. simpl in Hd.
      unfold delim_chars in Hd. repeat (apply elem_of_cons in Hd as [->|Hd]; [reflexivity|]).
      by apply not_elem_of_nil in Hd. }
    apply (reads_cons a (str "1") _ (0, 2) (1, 2) (1, 2)); [|constructor].
    split; [reflexivity|]. intros e [|c rest] Hd; [reflexivity|]. simpl in Hd.
    unfold delim_chars in Hd. repeat (apply elem_of_cons in Hd as [->|Hd]; [reflexivity|]).
    by apply not_elem_of_nil in Hd.
Defined.
