(* ===== verification/JsonEnum.v ===== *)
(** * JsonEnum: [fas/misc/json/json_enum.hpp] and [common/json_set.hpp]

    Enumerations, written by name, and sets of flags, written as an array
    of names and read from an array or from one string with commas. *)

From S2P Require Import Prelude JsonParser JsonNumber Serializer JsonString JsonArray JsonObject.

#[local] Arguments Ascii.eqb !_ !_.

(** The enumerators of a type: values with their names. *)
Definition enum_list := list (Z * bytes).

(** ** [enumerator] *)

(* src: fas/misc/json/json_enum.hpp 23-43 serializerT<enumerator>::serialize *)
Fixpoint enum_serialize (l : enum_list) (v : Z) : bytes :=
  match l with
  | [] => []
  | (w, name) :: l => if w =? v then name else enum_serialize l v
  end.

(** The comparison of a name with the text between the quotes: what is left
    of both. *)
Fixpoint match_prefix (name b : bytes) : bytes * bytes :=
  match name, b with
  | n :: name', c :: b' => if n =?c c then match_prefix name' b' else (name, b)
  | _, _ => (name, b)
  end.

(* src: fas/misc/json/json_enum.hpp 62-80 serializerT<enumerator>::deserialize *)
Fixpoint enum_deserialize (l : enum_list) (v : Z) (text : bytes) : Z :=
  match l with
  | [] => v
  | (w, name) :: l =>
      match match_prefix name text with
      | ([], []) => w
      | _ => enum_deserialize l v text
      end
  end.

(** [for ( ; beg!=end && *beg<=' '; ++beg)]: [char] is signed, so the bytes
    from 128 on are skipped too. *)
Fixpoint skip_low (b : bytes) : bytes :=
  match b with
  | c :: r => if schar c <=? 32 then skip_low r else b
  | [] => []
  end.

(** The text up to the next quote, and what is left from the quote on. *)
Fixpoint until_quote (b : bytes) : bytes * bytes :=
  match b with
  | c :: r => if c =?c QUOTE then ([], b) else let '(t, r) := until_quote r in (c :: t, r)
  | [] => ([], [])
  end.

(** [expected_of] without a position. *)
Definition throw_expected {A} (c : ascii) : res A := throw (expected_of [c]).

(* src: fas/misc/json/json_enum.hpp 45-60 serializerT<enumerator>::operator() *)
Definition enum_unserialize (l : enum_list) (b : bytes) : res (Z * bytes) :=
  match skip_low b with
  | [] => throw end_fragment
  | c :: r =>
      if c =?c QUOTE then
        match r with
        | [] => throw end_fragment
        | _ :: _ =>
            match until_quote r with
            | (_, []) => throw end_fragment
            | (text, _ :: r) => Ok (enum_deserialize l 0 text, r)
            end
        end
      else throw_expected QUOTE
  end.

(* src: fas/misc/json/json_enum.hpp 10-82 serializerT<enumerator> *)
Definition enumerator (l : enum_list) : serializer Z :=
  Serializer (λ v, Ok (QUOTE :: enum_serialize l v ++ [QUOTE])) (λ _ _ b, enum_unserialize l b) 0.

(** ** [set_enumerator] *)

(* src: common/json_set.hpp 35-57 serializerT<set_enumerator>::serialize *)
Fixpoint set_serialize (l : enum_list) (v : Z) (isFirst : bool) : bytes :=
  match l with
  | [] => []
  | (w, name) :: l =>
      if Z.land w v =? 0 then set_serialize l v isFirst
      else (if isFirst then [] else [","%char]) ++ QUOTE :: name ++ QUOTE :: set_serialize l v false
  end.

(** [text] is the range up to a quote, which [*beg] finds at its end. *)
(* src: common/json_set.hpp 87-109 serializerT<set_enumerator>::deserialize_one *)
Fixpoint deserialize_one (l : enum_list) (v : Z) (text : bytes) : Z * bytes :=
  match l with
  | [] => (v, text)
  | (w, name) :: l =>
      match match_prefix name text with
      | ([], []) => (Z.lor v w, [])
      | ([], c :: r) => if c =?c "," then (Z.lor v w, r) else deserialize_one l v text
      | _ => deserialize_one l v text
      end
  end.

(** The string [One,Two,Three]; the loop ends when a turn moves nothing. *)
(* src: common/json_set.hpp 115-123 serializerT<set_enumerator>::deserialize *)
Fixpoint set_deserialize (fuel : nat) (l : enum_list) (v : Z) (text : bytes) : res Z :=
  match text with
  | [] => Ok v
  | _ :: _ =>
      match fuel with
      | O => NoFuel
      | S fuel =>
          let '(v, r) := deserialize_one l v text in
          if (length r =? length text)%nat then Ok v else set_deserialize fuel l v r
      end
  end.

(** The array of names, from the byte after the bracket. *)
(* src: common/json_set.hpp 127-145 serializerT<set_enumerator>::deserialize_arr *)
Fixpoint deserialize_arr (fuel : nat) (l : enum_list) (e : past) (v : Z) (lastChar : ascii) (b : bytes)
    : res (Z * bytes) :=
  c ← deref e b;
  if c =?c QUOTE then
    match fuel with
    | O => NoFuel
    | S fuel =>
        match tail b with
        | [] => throw end_fragment
        | _ :: _ =>
            match until_quote (tail b) with
            | (_, []) => throw end_fragment
            | (text, _ :: r) =>
                let '(v, _) := deserialize_one l v text in
                d ← deref e r;
                deserialize_arr fuel l e v d (if d =?c "," then tail r else r)
            end
        end
    end
  else if lastChar =?c "," then throw end_fragment
  else Ok (v, b).

(* src: common/json_set.hpp 59-85 serializerT<set_enumerator>::operator() *)
Definition set_unserialize (l : enum_list) (e : past) (b : bytes) : res (Z * bytes) :=
  match skip_low b with
  | [] => throw end_fragment
  | c :: r =>
      if c =?c QUOTE then
        match r with
        | [] => throw end_fragment
        | _ :: _ =>
            match until_quote r with
            | (_, []) => throw end_fragment
            | (text, _ :: r) => v ← set_deserialize (length text) l 0 text; mret (v, r)
            end
        end
      else if c =?c "[" then
        match r with
        | [] => throw end_fragment
        | _ :: _ =>
            '(v, b) ← deserialize_arr (length r) l e 0 " " r;
            match b with
            | [] => throw end_fragment
            | d :: r => if d =?c "]" then Ok (v, r) else throw_expected "]"
            end
        end
      else throw_expected QUOTE
  end.

(* src: common/json_set.hpp 20-147 serializerT<set_enumerator> *)
Definition set_enumerator (l : enum_list) : serializer Z :=
  Serializer (λ v, Ok ("["%char :: set_serialize l v true ++ str "]")) (λ e _ b, set_unserialize l e b) 0.

Definition abc : enum_list := [(1, str "One"); (2, str "Two"); (4, str "Three")].
Example enum_ex : unser (enumerator abc) Foreign 7 (js " 'Two' x") = Ok (2, str " x").
Proof. vm_compute. reflexivity. Qed.
Example set_ex : unser (set_enumerator abc) Foreign 7 (js "['Two','Three']x") = Ok (6, str "x").
Proof. vm_compute. reflexivity. Qed.
Example set_str_ex : unser (set_enumerator abc) Foreign 7 (js "'Three,One'x") = Ok (5, str "x").
Proof. vm_compute. reflexivity. Qed.
Example set_ser_ex : ser (set_enumerator abc) 5 = Ok (js "['One','Three']").
Proof. vm_compute. reflexivity. Qed.

(** ** Facts *)

Lemma match_prefix_nil name text : match_prefix name text = ([], []) ↔ name = text.
Proof.
  revert text. induction name as [|n name IH]; intros [|c text]; simpl; try done.
  destruct (Ascii.eqb_spec n c) as [->|Hne]; [rewrite IH|]; split; intros H; simplify_eq; done.
Qed.

Lemma until_quote_app t r : forallb (λ c, c ≠?c QUOTE) t = true → until_quote (t ++ QUOTE :: r) = (t, QUOTE :: r).
Proof.
  induction t as [|c t IH]; [done|]. simpl. rewrite andb_true_iff, negb_true_iff. intros [-> Ht].
  by rewrite IH.
Qed.

(** The names of the list are distinct, and hold no quote and no comma. *)
Definition enum_ok (l : enum_list) : bool :=
  bool_decide (NoDup l.*2) && forallb (λ wn, forallb (λ c, (c ≠?c QUOTE) && (c ≠?c ",")) wn.2) l.

Lemma enum_ok_cons w name l :
  enum_ok ((w, name) :: l) = true →
  name ∉ l.*2 ∧ forallb (λ c, (c ≠?c QUOTE) && (c ≠?c ",")) name = true ∧ enum_ok l = true.
Proof.
  unfold enum_ok. rewrite !andb_true_iff, !bool_decide_eq_true. rewrite fmap_cons, NoDup_cons.
  simpl. rewrite andb_true_iff. tauto.
Qed.

Lemma plain_unquoted name :
  forallb (λ c, (c ≠?c QUOTE) && (c ≠?c ",")) name = true → forallb (λ c, c ≠?c QUOTE) name = true.
Proof. rewrite !forallb_forall. intros H c Hc. apply H, andb_true_iff in Hc. tauto. Qed.

Lemma enum_deserialize_name l w name v :
  enum_ok l = true → (w, name) ∈ l → enum_deserialize l v name = w.
Proof.
  induction l as [|[w' name'] l IH]; intros Hok Hin; [by apply not_elem_of_nil in Hin|].
  apply enum_ok_cons in Hok as (Hn & _ & Hok). simpl.
  destruct (decide (name' = name)) as [->|Hne].
  - apply elem_of_cons in Hin as [[= ->]|Hin]; [by rewrite (proj2 (match_prefix_nil name name) eq_refl)|].
    exfalso. apply Hn. by apply (list_elem_of_fmap_2 snd _ (w, name)).
  - destruct (match_prefix name' name) as [[|? ?] [|? ?]] eqn:Hm;
      [by apply match_prefix_nil in Hm|..];
      (apply IH; [done|]; apply elem_of_cons in Hin as [[= -> ->]|]; done).
Qed.

Lemma enum_serialize_in l v : v ∈ l.*1 → (v, enum_serialize l v) ∈ l.
Proof.
  induction l as [|[w name] l IH]; simpl; intros Hin; [by apply not_elem_of_nil in Hin|].
  destruct (Z.eqb_spec w v) as [->|Hne]; [apply list_elem_of_here|].
  apply list_elem_of_further, IH. by apply elem_of_cons in Hin as [->|].
Qed.

Lemma enum_ok_in l wn : enum_ok l = true → wn ∈ l → forallb (λ c, c ≠?c QUOTE) wn.2 = true.
Proof.
  unfold enum_ok. rewrite andb_true_iff, forallb_forall. intros [_ H] Hin.
  apply plain_unquoted, H. by apply list_elem_of_In.
Qed.

#[export] Instance enumerator_RoundTrip l : enum_ok l = true → RoundTrip (enumerator l) (λ v, v ∈ l.*1).
Proof.
  intros Hok. split. intros v Hv. eexists. split_and!; [reflexivity|done|]. intros e rest _.
  pose proof (enum_serialize_in l v Hv) as Hin. simpl. rewrite <-app_assoc. simpl.
  unfold enum_unserialize. simpl. destruct (enum_serialize l v ++ QUOTE :: rest) eqn:Hs;
    [by destruct (enum_serialize l v)|].
  rewrite <-Hs, until_quote_app by (by apply (enum_ok_in l (v, _))).
  by rewrite (enum_deserialize_name l v).
Qed.

(** ** Flags *)

(** The flags of the list that [v] has, or-ed to [acc]. *)
Fixpoint flags_of (l : enum_list) (v acc : Z) : Z :=
  match l with
  | [] => acc
  | (w, _) :: l => flags_of l v (if Z.land w v =? 0 then acc else Z.lor acc w)
  end.

Lemma deserialize_one_name l w name v :
  enum_ok l = true → (w, name) ∈ l → (deserialize_one l v name).1 = Z.lor v w.
Proof.
  intros Hok Hin. assert (forallb (λ c, (c ≠?c QUOTE) && (c ≠?c ",")) name = true) as Hc.
  { unfold enum_ok in Hok. rewrite andb_true_iff, forallb_forall in Hok. destruct Hok as [_ H].
    apply (H (w, name)). by apply list_elem_of_In. }
  assert (∀ n, ∃ k, (match_prefix n name).2 = drop k name) as Hsuf.
  { clear. induction name as [|c name IH]; intros [|n ns]; simpl; try (by exists 0%nat).
    case_match; [|by exists 0%nat]. destruct (IH ns) as [k ->]. by exists (S k). }
  revert Hok Hin. induction l as [|[w' name'] l IH]; intros Hok Hin; [by apply not_elem_of_nil in Hin|].
  apply enum_ok_cons in Hok as (Hn & _ & Hok). simpl.
  destruct (decide (name' = name)) as [->|Hne].
  - apply elem_of_cons in Hin as [[= ->]|Hin]; [by rewrite (proj2 (match_prefix_nil name name) eq_refl)|].
    exfalso. apply Hn. by apply (list_elem_of_fmap_2 snd _ (w, name)).
  - assert ((deserialize_one l v name).1 = Z.lor v w) as Hl.
    { apply IH; [done|]. by apply elem_of_cons in Hin as [[= -> ->]|]. }
    destruct (Hsuf name') as [k Hk].
    destruct (match_prefix name' name) as [[|? ?] [|c ?]] eqn:Hm; [by apply match_prefix_nil in Hm| |done..].
    replace (c =?c ",") with false; [done|]. symmetry. rewrite forallb_forall in Hc.
    assert (In c name) as Hin'.
    { rewrite <-(firstn_skipn k name). apply in_or_app. right. simpl in Hk. rewrite <-Hk. by left. }
    apply Hc, andb_true_iff in Hin' as [_ H]. by apply negb_true_iff in H.
Qed.

Lemma set_serialize_first l v :
  ∃ t, set_serialize l v true = t ∧
       set_serialize l v false = match t with [] => [] | _ => ","%char :: t end.
Proof.
  induction l as [|[w name] l (t & IH1 & IH2)]; simpl; [by exists []|].
  destruct (Z.land w v =? 0); [by exists t|]. eauto.
Qed.

Lemma deserialize_arr_written L l v fuel e acc last rest :
  enum_ok L = true → (∀ x, x ∈ l → x ∈ L) →
  (set_serialize l v true = [] → (last =?c ",") = false) →
  (length (set_serialize l v true) ≤ fuel)%nat →
  deserialize_arr fuel L e acc last (set_serialize l v true ++ "]"%char :: rest)
  = Ok (flags_of l v acc, "]"%char :: rest).
Proof.
  intros Hok Hsub. revert fuel acc last. induction l as [|[w name] l IH]; intros fuel acc last Hlast Hf.
  - specialize (Hlast eq_refl). destruct fuel; simpl; by rewrite Hlast.
  - assert (∀ x, x ∈ l → x ∈ L) as Hsub' by (intros; by apply Hsub, list_elem_of_further).
    simpl in *. destruct (Z.land w v =? 0); [by apply IH|]. clear Hlast.
    destruct fuel as [|fuel]; [simpl in Hf; lia|].
    destruct (set_serialize_first l v) as (t & Ht & Hff). rewrite Hff in *. rewrite Ht in *. clear Hff.
    set (r := match t with [] => [] | _ => ","%char :: t end ++ "]"%char :: rest).
    assert ((name ++ QUOTE :: match t with [] => [] | _ => ","%char :: t end) ++ "]"%char :: rest
            = name ++ QUOTE :: r) as Heq by (unfold r; by rewrite <-app_assoc).
    cbn [app] in *. rewrite Heq. cbn [deserialize_arr deref mbind res_bind tail]. rewrite Ascii.eqb_refl.
    destruct (name ++ QUOTE :: r) eqn:Hn; [by destruct name|]. rewrite <-Hn.
    assert ((w, name) ∈ L) as HwL by (apply Hsub, list_elem_of_here).
    rewrite until_quote_app by (by apply (enum_ok_in L (w, name))).
    pose proof (deserialize_one_name L w name acc Hok HwL) as Hone.
    destruct (deserialize_one L acc name) as [acc' ?]. simpl in Hone. subst acc'.
    simpl in Hf. rewrite length_app in Hf. simpl in Hf. unfold r. clear Heq Hn.
    destruct t as [|c t].
    + simpl. apply (IH Hsub' fuel _ "]"%char); [done|simpl; lia].
    + simpl. apply (IH Hsub' fuel _ ","%char); [done|simpl in *; lia].
Qed.

(** ** Properties *)

(**  A set of flags that is written is read back as exactly those flags
    of the list that it has. *)
Theorem set_enumerator_roundtrip l v e rest :
  enum_ok l = true →
  ∃ s, ser (set_enumerator l) v = Ok s ∧
       unser (set_enumerator l) e 0 (s ++ rest) = Ok (flags_of l v 0, rest).
Proof.
  intros Hok. eexists. split; [reflexivity|]. simpl. unfold set_unserialize.
  rewrite <-app_assoc. simpl.
  destruct (set_serialize l v true ++ "]"%char :: rest) eqn:Hs; [by destruct (set_serialize l v true)|].
  rewrite <-Hs, (deserialize_arr_written l l v _ e 0 " " rest); [done..|]. rewrite length_app. lia.
Qed.

Lemma set_enumerator_roundtrip_witness :
  ∃ s, ser (set_enumerator abc) 13 = Ok s ∧
       unser (set_enumerator abc) Foreign 0 (s ++ str "}") = Ok (flags_of abc 13 0, str "}").
Proof. apply set_enumerator_roundtrip. vm_compute. reflexivity. Defined.
