(* ===== verification/Queries.v ===== *)
(** * Queries: [src/fas_queries.hpp]

    The containers that requests and responses are made of, the request
    records of the methods that take an object, and their JSON descriptions. *)

From S2P Require Import Prelude JsonParser JsonNumber Serializer JsonString JsonArray JsonObject.

(** The order in which an [unordered_map] is iterated is the library's. *)
Class HashOrder := {
  hash_order {V : Type} : gmap bytes V → list (bytes * V);
  hash_order_perm {V : Type} (m : gmap bytes V) : hash_order m ≡ₚ map_to_list m;
}.

#[export] Instance key_order : HashOrder.
Proof. by refine {| hash_order := λ V m, map_to_list m |}. Defined.

(** ** Containers *)

(* src: src/fas_queries.hpp 38-38 valmap2raw *)
Definition valmap2raw := list (bytes * bytes).
(* src: src/fas_queries.hpp 39-39 valmap2raw_json *)
Definition valmap2raw_json : serializer valmap2raw := paired_array value_string raw_value.

(* src: src/fas_queries.hpp 41-41 valmap2str *)
Definition valmap2str := list (bytes * bytes).
(* src: src/fas_queries.hpp 42-42 valmap2str_json *)
Definition valmap2str_json : serializer valmap2str := paired_array value_string strvalue.

(* src: src/fas_queries.hpp 44-44 valmap2str_map *)
Definition valmap2str_map := gmap bytes bytes.
(* src: src/fas_queries.hpp 45-45 valmap2str_map_json *)
Definition valmap2str_map_json `{HashOrder} : serializer valmap2str_map :=
  unordered_map value_string strvalue hash_order.

(* src: src/fas_queries.hpp 47-47 valmap2int *)
Definition valmap2int := list (bytes * Z).
(* src: src/fas_queries.hpp 48-48 valmap2int_json *)
Definition valmap2int_json : serializer valmap2int := paired_array value_string (value_integer longlong_t).

(* src: src/fas_queries.hpp 50-50 valmap2int_map *)
Definition valmap2int_map := gmap bytes Z.
(* src: src/fas_queries.hpp 51-51 valmap2int_map_json *)
Definition valmap2int_map_json `{HashOrder} : serializer valmap2int_map :=
  unordered_map value_string (value_integer longlong_t) hash_order.

(* src: src/fas_queries.hpp 53-53 valmap2bool *)
Definition valmap2bool := list (bytes * bool).
(* src: src/fas_queries.hpp 54-54 valmap2bool_json *)
Definition valmap2bool_json : serializer valmap2bool := paired_array value_string value_bool.

(* src: src/fas_queries.hpp 59-59 vallist *)
Definition vallist := list bytes.
(* src: src/fas_queries.hpp 60-60 vallist_json *)
Definition vallist_json : serializer vallist := array value_string.

(** ** Requests *)

(* src: src/fas_queries.hpp 64-72 request::rep_setstate *)
Record rep_setstate_request := Rep_setstate {
  rs_id : bytes;
  rs_state : bytes;
}.

(* src: src/fas_queries.hpp 68-69 request::rep_setstate::rep_setstate *)
Definition rep_setstate_default : rep_setstate_request := Rep_setstate [] (str "start").

(* src: src/fas_queries.hpp 73-79 request::rep_setstate_json *)
Definition rep_setstate_json : serializer rep_setstate_request :=
  object [member (str "id") rs_id (λ t v, Rep_setstate v (rs_state t)) value_string;
          member (str "state") rs_state (λ t v, Rep_setstate (rs_id t) v) value_string]
    rep_setstate_default.

(* src: src/fas_queries.hpp 81-84 request::inc_add *)
Record inc_add_request := Inc_add {
  ia_inc : valmap2int;
  ia_def : valmap2int_map;
}.

(* src: src/fas_queries.hpp 85-91 request::inc_add_json *)
Definition inc_add_json `{HashOrder} : serializer inc_add_request :=
  object [member (str "inc") ia_inc (λ t v, Inc_add v (ia_def t)) valmap2int_json;
          member (str "def") ia_def (λ t v, Inc_add (ia_inc t) v) valmap2int_map_json]
    (Inc_add [] ∅).

(* src: src/fas_queries.hpp 93-98 request::update_packed *)
Record update_packed_request := Update_packed {
  up_key : bytes;
  up_inc : valmap2int;
  up_set : valmap2str;
  up_def : valmap2str_map;
}.

(* src: src/fas_queries.hpp 99-107 request::update_packed_json *)
Definition update_packed_json `{HashOrder} : serializer update_packed_request :=
  object
    [member (str "key") up_key (λ t v, Update_packed v (up_inc t) (up_set t) (up_def t)) value_string;
     member (str "inc") up_inc (λ t v, Update_packed (up_key t) v (up_set t) (up_def t)) valmap2int_json;
     member (str "set") up_set (λ t v, Update_packed (up_key t) (up_inc t) v (up_def t)) valmap2str_json;
     member (str "def") up_def (λ t v, Update_packed (up_key t) (up_inc t) (up_set t) v) valmap2str_map_json]
    (Update_packed [] [] [] ∅).

(* src: src/fas_queries.hpp 109-114 request::get_range *)
Record get_range_request := Get_range {
  gr_from : bytes;
  gr_to : bytes;
  gr_limit : Z;
  gr_skip : Z;
}.

(* src: src/fas_queries.hpp 115-116 request::get_range::get_range *)
Definition get_range_default : get_range_request := Get_range [] [] 1000 0.

(* src: src/fas_queries.hpp 119-127 request::get_range_json *)
Definition get_range_json : serializer get_range_request :=
  object
    [member (str "from") gr_from (λ t v, Get_range v (gr_to t) (gr_limit t) (gr_skip t)) value_string;
     member (str "to") gr_to (λ t v, Get_range (gr_from t) v (gr_limit t) (gr_skip t)) value_string;
     member (str "limit") gr_limit (λ t v, Get_range (gr_from t) (gr_to t) v (gr_skip t)) (value_integer int_t);
     member (str "skip") gr_skip (λ t v, Get_range (gr_from t) (gr_to t) (gr_limit t) v) (value_integer int_t)]
    get_range_default.

Example get_range_ex :
  unser get_range_json Foreign get_range_default (js "{'skip':5,'from':'a'}") =
  Ok (Get_range (str "a") [] 1000 5, []).
Proof. vm_compute. reflexivity. Qed.

(** ** Round trips *)

Lemma longlong_std : longlong_t ∈ std_types.
Proof. apply list_elem_of_In. simpl. tauto. Qed.
Lemma int_std : int_t ∈ std_types.
Proof. apply list_elem_of_In. simpl. tauto. Qed.
#[export] Hint Resolve longlong_std int_std : core.

#[export] Instance longlong_RoundTrip :
  RoundTripAny (value_integer longlong_t) (roundtrip_int longlong_t) := value_integer_RoundTrip _ longlong_std.
#[export] Instance int_RoundTrip :
  RoundTripAny (value_integer int_t) (roundtrip_int int_t) := value_integer_RoundTrip _ int_std.

Definition str_pair (t : bytes * bytes) : Prop := utf8_text t.1 ∧ utf8_text t.2.
Definition int_pair (t : bytes * Z) : Prop := utf8_text t.1 ∧ roundtrip_int longlong_t t.2.

#[export] Instance valmap2str_RoundTrip : RoundTrip valmap2str_json (Forall str_pair) :=
  paired_array_RoundTrip _ _ _ _ _ _.
#[export] Instance valmap2int_RoundTrip : RoundTrip valmap2int_json (Forall int_pair) :=
  paired_array_RoundTrip _ _ _ _ _ _.
#[export] Instance valmap2bool_RoundTrip : RoundTrip valmap2bool_json (Forall (λ t, utf8_text t.1 ∧ True)) :=
  paired_array_RoundTrip _ _ _ _ _ _.
#[export] Instance vallist_RoundTrip : RoundTrip vallist_json (Forall utf8_text) :=
  array_RoundTrip _ _ _.
#[export] Instance valmap2str_map_RoundTrip `{HashOrder} :
  RoundTrip valmap2str_map_json (map_Forall (λ a b, utf8_text a ∧ utf8_text b)) :=
  unordered_map_RoundTrip _ _ _ _ _ hash_order_perm _ _.
#[export] Instance valmap2int_map_RoundTrip `{HashOrder} :
  RoundTrip valmap2int_map_json (map_Forall (λ a b, utf8_text a ∧ roundtrip_int longlong_t b)) :=
  unordered_map_RoundTrip _ _ _ _ _ hash_order_perm _ _.

(** [object_trip]: the round trip of an object whose members are fields. *)
Ltac object_trip :=
  try apply ClosedTrip_RoundTrip; apply object_ClosedTrip; [vm_compute; reflexivity|];
  intros a Ha; destruct a; simpl in Ha; destruct_and?;
  repeat (eapply written_cons;
          [first [ eapply member_written_any; [apply _|eassumption]
                 | eapply member_written; [apply _|eassumption|reflexivity] ]|]);
  constructor.

#[export] Instance rep_setstate_RoundTrip :
  RoundTrip rep_setstate_json (λ a, utf8_text (rs_id a) ∧ utf8_text (rs_state a)).
Proof. object_trip. Qed.

#[export] Instance get_range_RoundTrip :
  RoundTrip get_range_json (λ a, utf8_text (gr_from a) ∧ utf8_text (gr_to a) ∧
    roundtrip_int int_t (gr_limit a) ∧ roundtrip_int int_t (gr_skip a)).
Proof. object_trip. Qed.

#[export] Instance inc_add_RoundTrip `{HashOrder} :
  RoundTrip inc_add_json (λ a, Forall int_pair (ia_inc a) ∧
    map_Forall (λ a b, utf8_text a ∧ roundtrip_int longlong_t b) (ia_def a)).
Proof. object_trip. Qed.

(** The values an [update_packed] request can carry. *)
Definition update_packed_ok (a : update_packed_request) : Prop :=
  utf8_text (up_key a) ∧ Forall int_pair (up_inc a) ∧ Forall str_pair (up_set a) ∧
  map_Forall (λ a b, utf8_text a ∧ utf8_text b) (up_def a).

#[export] Instance update_packed_RoundTrip `{HashOrder} : RoundTrip update_packed_json update_packed_ok.
Proof. unfold update_packed_ok. object_trip. Qed.

(** ** Properties *)

(**  An [update_packed] request, the largest of the protocol, is read
    back exactly as it was written, whatever the iteration order of its map
    of defaults and whatever follows it in the buffer. *)
Theorem update_packed_roundtrip `{HashOrder} a :
  update_packed_ok a →
  ∃ s, ser update_packed_json a = Ok s ∧
    ∀ e rest, delim rest → unser update_packed_json e (dflt update_packed_json) (s ++ rest) = Ok (a, rest).
Proof. intros Ha. destruct (round_trip a Ha) as (s & Hs & _ & Hr). by exists s. Qed.

Lemma update_packed_roundtrip_witness :
  let a := Update_packed (str "k") [(str "n", -5)] [(str "x", js "a'b")] {[ str "y" := str "1" ]} in
  ∃ s, ser update_packed_json a = Ok s ∧
    ∀ e rest, delim rest → unser update_packed_json e (dflt update_packed_json) (s ++ rest) = Ok (a, rest).
Proof.
  intros a. apply update_packed_roundtrip. split_and!.
  - vm_compute. reflexivity.
  - repeat constructor; vm_compute; congruence.
  - repeat constructor; vm_compute; reflexivity.
  - apply map_Forall_singleton. split; vm_compute; reflexivity.
Defined.
