(* ===== verification/JsonScan.v ===== *)
(** * JsonScan: what the serializers write is JSON to the scanner

    [JsonParser] scans values without looking at their types: the raw values
    of the protocol and the search of a datagram for its members rely on it.
    [jtext] is the compact JSON that the serializers write; the scanner
    consumes it exactly.  The one exception are the four-byte symbols of
    UTF-8, on which it throws: [bmp = true] is text without them. *)

From S2P Require Import Prelude JsonParser JsonNumber Serializer JsonString JsonArray JsonObject Queries.

#[local] Arguments Ascii.eqb !_ !_.

(** ** Outcomes of the scanner *)

(** The text was consumed up to [rest], or - when it may hold four-byte
    symbols - the scanner threw. *)
Definition scanned (bmp : bool) (r : res bytes) (rest : bytes) : Prop :=
  r = Ok rest ∨ (bmp = false ∧ ∃ x, r = Throw x).

Lemma scanned_bind bmp (m : res bytes) (f : bytes → res bytes) mid rest :
  scanned bmp m mid → scanned bmp (f mid) rest → scanned bmp (m ≫= f) rest.
Proof. intros [->|[-> [x ->]]] Hf; [exact Hf|]. right. split; [done|]. by exists x. Qed.

Lemma scanned_ok bmp rest : scanned bmp (Ok rest) rest.
Proof. by left. Qed.

(** ** Compact JSON *)

(** The characters between the quotes of a string. *)
Definition string_body (bmp : bool) (w : bytes) : Prop :=
  ∀ n e rest, (length w ≤ n)%nat →
    scanned bmp (parse_string_loop n e (w ++ QUOTE :: rest)) (QUOTE :: rest).

(** A number is followed by one of the bytes that end a value. *)
Definition number_text (t : bytes) : Prop :=
  is_number t = true ∧ ∀ rest, delim rest → parse_number (t ++ rest) = Ok rest.

Inductive jtext (bmp : bool) : bytes → Prop :=
  | jt_bool (v : bool) : jtext bmp (ser_bool v)
  | jt_number t : number_text t → jtext bmp t
  | jt_string w : string_body bmp w → jtext bmp (QUOTE :: w ++ [QUOTE])
  | jt_array w : jelems bmp w → jtext bmp ("["%char :: w ++ ["]"%char])
  | jt_object w : jmembers bmp w → jtext bmp ("{"%char :: w ++ ["}"%char])
with jelems (bmp : bool) : bytes → Prop :=
  | je_nil : jelems bmp []
  | je_one t : jtext bmp t → jelems bmp t
  | je_cons t w : jtext bmp t → jelems bmp w → w ≠ [] → jelems bmp (t ++ ","%char :: w)
with jmembers (bmp : bool) : bytes → Prop :=
  | jm_nil : jmembers bmp []
  | jm_one k t : string_body bmp k → jtext bmp t → jmembers bmp (QUOTE :: k ++ QUOTE :: ":"%char :: t)
  | jm_cons k t w : string_body bmp k → jtext bmp t → jmembers bmp w → w ≠ [] →
      jmembers bmp ((QUOTE :: k ++ QUOTE :: ":"%char :: t) ++ ","%char :: w).

Scheme jtext_mut := Induction for jtext Sort Prop
with jelems_mut := Induction for jelems Sort Prop
with jmembers_mut := Induction for jmembers Sort Prop.

Lemma string_body_weaken w : string_body true w → string_body false w.
Proof. intros Hw n e rest Hn. destruct (Hw n e rest Hn) as [H|[[=] _]]. by left. Qed.

(** The grammar without four-byte symbols is the smaller one. *)
Lemma jtext_weaken t : jtext true t → jtext false t.
Proof.
  revert t. apply (jtext_mut true (λ t _, jtext false t) (λ w _, jelems false w) (λ w _, jmembers false w));
    intros; eauto using jt_bool, jt_number, jt_string, jt_array, jt_object, je_nil, je_one, je_cons, jm_nil, jm_one,
      jm_cons, string_body_weaken.
Qed.

Lemma is_number_head t : is_number t = true → ∃ c r, t = c :: r ∧ (c = "-"%char ∨ is_digit c = true).
Proof.
  destruct t as [|c r]; [done|]. unfold is_number. simpl. intros [->%Ascii.eqb_eq|Hd]%orb_true_iff; eauto.
Qed.

Lemma digit_other c : is_digit c = true ∨ c = "-"%char →
  negb (is_space c) && (c ≠?c "/") && (c ≠?c "]") && (c ≠?c "}") && (c ≠?c ",")
  && (c ≠?c "n") && (c ≠?c "t") && (c ≠?c "f") = true.
Proof.
  intros [H| ->]; [|done].
  enough (implb (is_digit c) (negb (is_space c) && (c ≠?c "/") && (c ≠?c "]") && (c ≠?c "}") && (c ≠?c ",")
    && (c ≠?c "n") && (c ≠?c "t") && (c ≠?c "f")) = true) as Hx by (by rewrite H in Hx).
  clear H. revert c. all_bytes.
Qed.

Lemma jtext_visible bmp t : jtext bmp t → visible t = true.
Proof.
  intros [[]| t' [Hn _]| | |]; try done.
  apply is_number_head in Hn as (c & r & -> & Hc).
  pose proof (digit_other c ltac:(tauto)) as H. simpl. rewrite !andb_true_iff in *. tauto.
Qed.

(** ** The scanner on compact JSON *)

Lemma string_scanned bmp w e rest :
  string_body bmp w → scanned bmp (parse_string e (QUOTE :: w ++ QUOTE :: rest)) rest.
Proof.
  intros Hw. unfold parse_string. rewrite Ascii.eqb_refl. eapply scanned_bind.
  - apply Hw. rewrite length_app. lia.
  - by left.
Qed.

Definition value_scanned (bmp : bool) (t : bytes) : Prop :=
  ∀ n e rest, (4 * length t + 2 <= n)%nat → delim rest →
    scanned bmp (parse_value_n n e (t ++ rest)) rest.

Definition elems_scanned (bmp : bool) (w : bytes) : Prop :=
  (w ≠ [] → visible w = true) ∧
  ∀ n e rest, (4 * length w + 4 <= n)%nat →
    scanned bmp (parse_array_loop n e (w ++ "]"%char :: rest)) ("]"%char :: rest).

Definition members_scanned (bmp : bool) (w : bytes) : Prop :=
  (w ≠ [] → visible w = true) ∧
  ∀ n e rest, (4 * length w + 4 <= n)%nat →
    scanned bmp (parse_object_loop n e (w ++ "}"%char :: rest)) ("}"%char :: rest).

Lemma number_scanned bmp t : number_text t → value_scanned bmp t.
Proof.
  intros [Hn Hp] n e rest Hle Hd. destruct n as [|n]; [lia|].
  apply is_number_head in Hn as (c & r & -> & Hc).
  pose proof (digit_other c ltac:(tauto)) as H. rewrite !andb_true_iff, !negb_true_iff in H.
  destruct H as (((_ & Hcn) & Hct) & Hcf). specialize (Hp rest Hd).
  change ((c :: r) ++ rest) with (c :: r ++ rest) in *.
  assert (parse_value_n (S n) e (c :: r ++ rest) = parse_number (c :: r ++ rest)) as ->; [|by left].
  cbn [parse_value_n]. unfold is_null, is_bool, is_number, starts_with. rewrite Hcn, Hct, Hcf. simpl.
  destruct Hc as [->|Hc]; [done|]. by rewrite Hc, orb_true_r.
Qed.

(** [value_next]: an element followed by a comma or by the closing bracket. *)
Lemma visible_head w rest : visible w = true → ∃ c r, w = c :: r ∧ parse_space (w ++ rest) = w ++ rest ∧
  (c =?c "]") = false ∧ (c =?c "}") = false.
Proof.
  intros Hv. pose proof (parse_space_visible w rest Hv) as Hs. destruct w as [|c r]; [done|].
  exists c, r. simpl in Hv. rewrite !andb_true_iff, !negb_true_iff in Hv. naive_solver.
Qed.

Lemma elem_scanned bmp t e n rest d tl :
  jtext bmp t → value_scanned bmp t → (4 * length t + 3 <= n)%nat → d = ","%char ∨ d = "]"%char →
  scanned bmp (parse_array_loop n e ((if d =?c "," then tl else d :: tl))) rest →
  scanned bmp (parse_array_loop (S n) e (t ++ d :: tl)) rest.
Proof.
  intros Ht Hv Hn Hd Hl. destruct (visible_head t (d :: tl) (jtext_visible _ _ Ht)) as (c & r & -> & Hs & Hc & _).
  cbn [parse_array_loop app]. rewrite Hc. rewrite <-app_comm_cons in Hs. rewrite Hs.
  eapply scanned_bind.
  - apply (Hv n e (d :: tl)); [lia|]. destruct Hd; subst; apply list_elem_of_In; simpl; auto.
  - cbv zeta. rewrite parse_space_delim by (destruct Hd; subst; apply list_elem_of_In; simpl; auto).
    replace ((d ≠?c ",") && (d ≠?c "]")) with false by (by destruct Hd; subst). done.
Qed.

Lemma array_loop_close bmp n e rest :
  (0 < n)%nat → scanned bmp (parse_array_loop n e ("]"%char :: rest)) ("]"%char :: rest).
Proof. intros Hn. destruct n; [lia|]. by left. Qed.
Lemma object_loop_close bmp n e rest :
  (0 < n)%nat → scanned bmp (parse_object_loop n e ("}"%char :: rest)) ("}"%char :: rest).
Proof. intros Hn. destruct n; [lia|]. by left. Qed.

Lemma member_scanned_n bmp k t e n rest :
  string_body bmp k → jtext bmp t → value_scanned bmp t → (4 * length t + 3 <= n)%nat → delim rest →
  scanned bmp (parse_member_n n e (QUOTE :: k ++ QUOTE :: ":"%char :: t ++ rest)) rest.
Proof.
  intros Hk Ht Hv Hn Hd. destruct n as [|n]; [lia|].
  cbn [parse_member_n]. replace (is_string _) with true by done.
  eapply scanned_bind; [by apply string_scanned|]. cbv beta iota zeta.
  rewrite (parse_space_delim (":"%char :: _)) by apply colon_delim. cbv beta iota zeta. rewrite Ascii.eqb_refl.
  destruct (visible_head t rest (jtext_visible _ _ Ht)) as (c & r & -> & Hs & _). rewrite Hs.
  apply Hv; [simpl in *; lia|done].
Qed.

Lemma memb_scanned bmp k t e n rest d tl :
  string_body bmp k → jtext bmp t → value_scanned bmp t → (4 * length t + 3 <= n)%nat →
  d = ","%char ∨ d = "}"%char →
  scanned bmp (parse_object_loop n e ((if d =?c "," then tl else d :: tl))) rest →
  scanned bmp (parse_object_loop (S n) e ((QUOTE :: k ++ QUOTE :: ":"%char :: t) ++ d :: tl)) rest.
Proof.
  intros Hk Ht Hv Hn Hd Hl. cbn [parse_object_loop app].
  replace (QUOTE =?c "}") with false by done.
  rewrite <-app_assoc. cbn [app].
  assert (∀ b, parse_space (QUOTE :: b) = QUOTE :: b) as -> by done.
  eapply scanned_bind.
  - apply (member_scanned_n bmp k t e n (d :: tl)); [done|done|done|lia|].
    destruct Hd; subst; apply list_elem_of_In; simpl; auto.
  - cbv zeta. rewrite parse_space_delim by (destruct Hd; subst; apply list_elem_of_In; simpl; auto).
    replace ((d ≠?c ",") && (d ≠?c "}")) with false by (by destruct Hd; subst). done.
Qed.

Lemma jtext_scanned bmp t : jtext bmp t → value_scanned bmp t.
Proof.
  revert t. apply (jtext_mut bmp (λ t _, value_scanned bmp t) (λ w _, elems_scanned bmp w)
    (λ w _, members_scanned bmp w)).
  - intros v n e rest Hn _. destruct n; [lia|]. by destruct v; left.
  - intros t Ht. by apply number_scanned.
  - intros w Hw n e rest Hn _. destruct n; [lia|].
    change ((QUOTE :: w ++ [QUOTE]) ++ rest) with (QUOTE :: (w ++ [QUOTE]) ++ rest). rewrite <-app_assoc.
    by apply string_scanned.
  - intros w _ [_ Hw] n e rest Hn _. simpl in Hn. rewrite length_app in Hn. simpl in Hn.
    destruct n as [|[|n]]; [lia..|]. simpl app. rewrite <-app_assoc.
    change (parse_value_n (S (S n)) e ("["%char :: w ++ "]"%char :: rest)) with
      (b ← parse_array_loop n e (w ++ "]"%char :: rest);
       if starts_with "]" b then Ok (tail b) else throw_at (expected_of (str "]")) b).
    eapply scanned_bind; [apply Hw; lia|]. by left.
  - intros w _ [_ Hw] n e rest Hn _. simpl in Hn. rewrite length_app in Hn. simpl in Hn.
    destruct n as [|[|n]]; [lia..|]. simpl app. rewrite <-app_assoc.
    change (parse_value_n (S (S n)) e ("{"%char :: w ++ "}"%char :: rest)) with
      (b ← parse_object_loop n e (w ++ "}"%char :: rest);
       if starts_with "}" b then Ok (tail b) else throw_at (expected_of (str "}")) b).
    eapply scanned_bind; [apply Hw; lia|]. by left.
  - split; [done|]. intros n e rest Hn. apply array_loop_close. lia.
  - intros t Ht Hv. split; [by intros _; eapply jtext_visible|]. intros n e rest Hn.
    destruct n; [lia|]. apply elem_scanned; [done|done|lia|by right|]. apply array_loop_close. lia.
  - intros t w Ht Hv _ [_ Hw] Hne. split; [intros _; by apply jtext_visible in Ht; destruct t|].
    intros n e rest Hn. rewrite length_app in Hn. simpl in Hn. destruct n; [lia|].
    rewrite <-app_assoc. apply elem_scanned; [done|done|lia|by left|]. rewrite Ascii.eqb_refl. apply Hw. lia.
  - split; [done|]. intros n e rest Hn. apply object_loop_close. lia.
  - intros k t Hk Ht Hv. split; [done|]. intros n e rest Hn. simpl in Hn. rewrite length_app in Hn. simpl in Hn.
    destruct n; [lia|]. apply memb_scanned; [done|done|done|lia|by right|]. apply object_loop_close. lia.
  - intros k t w Hk Ht Hv _ [_ Hw] Hne. split; [done|].
    intros n e rest Hn. rewrite length_app in Hn. simpl in Hn. rewrite length_app in Hn. simpl in Hn.
    destruct n; [lia|]. rewrite <-app_assoc.
    apply (memb_scanned bmp k t e n _ ","%char (w ++ "}"%char :: rest)); [done|done|done|lia|by left|].
    rewrite Ascii.eqb_refl. apply Hw. lia.
Qed.

Lemma jtext_parse_value bmp t e rest :
  jtext bmp t → delim rest → scanned bmp (parse_value e (t ++ rest)) rest.
Proof.
  intros Ht Hd. apply (jtext_scanned bmp t Ht); [|done]. unfold value_fuel. rewrite length_app. lia.
Qed.

Lemma jtext_parse_member bmp k t e rest :
  string_body bmp k → jtext bmp t → delim rest →
  scanned bmp (parse_member e (QUOTE :: k ++ QUOTE :: ":"%char :: t ++ rest)) rest.
Proof.
  intros Hk Ht Hd. apply member_scanned_n; [done|done|by apply jtext_scanned| |done].
  unfold value_fuel. simpl. rewrite length_app. simpl. rewrite length_app. lia.
Qed.

(** ** Strings *)

(** UTF-8 text, without four-byte symbols when [bmp]. *)
Definition scan_text (bmp : bool) (s : bytes) : Prop :=
  utf8_text s ∧ (bmp = true → Forall (λ c, lead4 c = false) s).

(** An escape of an ASCII character is scanned in some turns of the loop. *)
Class EscapeScan (esc : ascii → bytes) : Prop := {
  escape_scan_high c : ascii_byte c = false → esc c = [c];
  escape_scan_low c : ascii_byte c = true → c ≠ NUL →
    ∃ k, (k ≤ length (esc c))%nat ∧
      ∀ n e r, parse_string_loop (k + n) e (esc c ++ r) = parse_string_loop n e r;
}.

Ltac escape_scan :=
  split; [apply all_bytes_high; vm_compute; reflexivity|];
  intros c Hc Hz;
  destruct c as [[] [] [] [] [] [] [] []]; try discriminate Hc; try done;
  first [ exists 1%nat; split; [simpl; lia|]; intros; reflexivity
        | exists 5%nat; split; [simpl; lia|]; intros; reflexivity ].

#[export] Instance escape_char_scan : EscapeScan escape_char.
Proof. escape_scan. Qed.
#[export] Instance sv_escape_char_scan : EscapeScan sv_escape_char.
Proof. escape_scan. Qed.

Lemma string_body_nil bmp : string_body bmp [].
Proof. intros n e rest _. destruct n; by left. Qed.

(** [k] turns of the loop take [w1]. *)
Lemma string_body_app bmp k w1 w2 :
  (k ≤ length w1)%nat →
  (∀ n e r, parse_string_loop (k + n) e (w1 ++ r) = parse_string_loop n e r) →
  string_body bmp w2 → string_body bmp (w1 ++ w2).
Proof.
  intros Hk H1 H2 n e rest Hn. rewrite length_app in Hn.
  replace n with (k + (n - k))%nat by lia. rewrite <-app_assoc, H1. apply H2. lia.
Qed.

Lemma loop_symbol n e c r rest :
  ascii_byte c = false → parse_symbol e (c :: r) = Ok rest →
  parse_string_loop (1 + n) e (c :: r) = parse_string_loop n e rest.
Proof.
  intros Hc Hp. destruct (non_ascii_not_special _ Hc) as [Hq Hb]. cbn [parse_string_loop Nat.add].
  by rewrite Hq, Hb, Hp.
Qed.

Lemma write_chars_body esc bmp s : EscapeScan esc → scan_text bmp s → string_body bmp (write_chars esc s).
Proof.
  intros Hesc. induction s as [s IH] using (induction_ltof1 _ length). unfold ltof in IH.
  intros [Hu Hb]. destruct s as [|c s]; [apply string_body_nil|].
  apply utf8_symbol in Hu as [(Hc & Hz & Hs)|(cs & s' & -> & Hs & Hcs & Hl)].
  - cbn [write_chars]. destruct (Ascii.eqb_spec c NUL) as [->|_]; [done|].
    destruct (escape_scan_low c Hc Hz) as (k & Hk & Hp). eapply string_body_app; [exact Hk|exact Hp|].
    apply IH; [simpl; lia|]. split; [done|]. intros Hbmp. by apply Hb, Forall_cons in Hbmp as [_ ?].
  - assert (Forall (λ c, ascii_byte c = false) (c :: cs)) as Hhigh.
    { constructor; [by eapply lead_not_ascii|]. eapply Forall_impl; [exact Hcs|]. apply cont_not_ascii. }
    assert (string_body bmp (write_chars esc s')) as Hbody.
    { apply IH; [simpl; rewrite length_app; lia|]. split; [done|]. intros Hbmp. apply Hb in Hbmp.
      apply Forall_cons in Hbmp as [_ Hbmp]. by apply Forall_app in Hbmp as [_ ?]. }
    change (c :: cs ++ s') with ((c :: cs) ++ s').
    rewrite (write_chars_high esc (c :: cs) s' (@escape_scan_high _ Hesc)) by done.
    pose proof (Forall_inv Hhigh) as Hc. simpl in Hc.
    destruct Hl as [[Hl Hn]|[[Hl Hn]|[Hl Hn]]].
    + destruct cs as [|d1 [|]]; try done. apply (string_body_app bmp 1); [simpl; lia| |done].
      intros n e r. apply loop_symbol; [done|]. inversion Hcs; subst. by apply parse_symbol_2.
    + destruct cs as [|d1 [|d2 [|]]]; try done. apply (string_body_app bmp 1); [simpl; lia| |done].
      intros n e r. apply loop_symbol; [done|]. inversion Hcs as [|? ? ? Hcs']; inversion Hcs'; subst.
      by apply parse_symbol_3.
    + destruct bmp.
      { specialize (Hb eq_refl). apply Forall_cons in Hb as [Hb _]. congruence. }
      destruct cs as [|d1 [|d2 [|d3 [|]]]]; try done.
      apply Forall_cons in Hcs as [H1 Hcs]. apply Forall_cons in Hcs as [H2 Hcs]. apply Forall_cons in Hcs as [H3 _].
      intros n e rest Hlen. right. split; [done|]. simpl in Hlen.
      destruct n as [|[|n]]; [lia..|].
      rewrite <-app_assoc. cbn [app].
      rewrite (loop_symbol (S n) e c _ _ Hc (parse_symbol_4 e c d1 d2 _ Hl H1 H2)).
      pose proof (cont_not_ascii _ H3) as Hd3. destruct (non_ascii_not_special _ Hd3) as [Hq Hbs].
      cbn [parse_string_loop]. rewrite Hq, Hbs, parse_symbol_cont by done. by eexists.
Qed.

(** ** The serializers *)

(** [P bmp a]: the value [a] is written as JSON text. *)
Class Scans {A} (s : serializer A) (P : bool → A → Prop) : Prop :=
  ser_jtext bmp a t : P bmp a → ser s a = Ok t → jtext bmp t.

#[export] Instance value_string_Scans : Scans value_string scan_text.
Proof.
  intros bmp a t Ha [= <-]. apply (jt_string bmp (write_chars escape_char a)). by apply write_chars_body; [apply _|].
Qed.
#[export] Instance strvalue_Scans : Scans strvalue scan_text.
Proof.
  intros bmp a t Ha [= <-]. apply (jt_string bmp (write_chars sv_escape_char a)). by apply write_chars_body; [apply _|].
Qed.
#[export] Instance value_bool_Scans : Scans value_bool (λ _ _, True).
Proof. intros bmp a t _ [= <-]. apply jt_bool. Qed.

Lemma parse_digits ds rest p : digits ds → starts_digit rest = false →
  (_parse_digit (ds ++ rest) p).1 = rest.
Proof.
  intros Hds Hr. revert p. induction Hds as [|c ds Hc _ IH]; intros p; simpl.
  - destruct rest as [|c r]; [done|]. simpl in *. by rewrite Hr.
  - by rewrite Hc.
Qed.

Lemma numeral_text ds : numeral ds → ∀ sign, sign = [] ∨ sign = str "-" → number_text (sign ++ ds).
Proof.
  intros (Hds & Hne & Hz) sign Hsign. destruct ds as [|c ds]; [done|].
  pose proof (Forall_inv Hds) as Hc. simpl in Hc. split.
  { destruct Hsign as [-> | ->]; [|done]. unfold is_number. simpl. by rewrite Hc, orb_true_r. }
  intros rest Hd. unfold parse_number.
  assert ((sign ++ c :: ds) ++ rest ≠ []) as Hnn by (by destruct sign).
  destruct ((sign ++ c :: ds) ++ rest) as [|x r] eqn:Heq; [done|]. rewrite <-Heq. clear x r Heq Hnn.
  assert (∃ p, (if starts_with "-" ((sign ++ c :: ds) ++ rest)
            then (tail ((sign ++ c :: ds) ++ rest), 1%nat) else ((sign ++ c :: ds) ++ rest, 0%nat))
          = ((c :: ds) ++ rest, p)) as [p ->].
  { destruct Hsign as [-> | ->]; [|by eexists]. cbn [app starts_with].
    destruct (Ascii.eqb_spec c "-") as [->|_]; [discriminate Hc|by eexists]. }
  assert (∃ p', number_int ((c :: ds) ++ rest) p = Ok (rest, p')) as [p' ->].
  { cbn [number_int app]. destruct (Ascii.eqb_spec c "0") as [->|_].
    - specialize (Hz eq_refl). injection Hz as ->. by eexists.
    - rewrite Hc. exists (_parse_digit (c :: ds ++ rest) p).2. f_equal.
      pose proof (parse_digits (c :: ds) rest p Hds (delim_not_digit _ Hd)) as H.
      rewrite <-app_comm_cons in H. rewrite <-H at 2. apply surjective_pairing. }
  cbn [mbind res_bind]. destruct rest as [|d r]; [done|]. unfold delim, delim_chars in Hd.
  repeat (apply elem_of_cons in Hd as [->|Hd]; [done|]). by apply not_elem_of_nil in Hd.
Qed.

#[export] Instance value_integer_Scans t : t ∈ std_types → Scans (value_integer t) (λ _ v, in_range t v = true).
Proof.
  intros Ht bmp v s Hv Hs. apply jt_number. destruct (serialize_numeral_of t v Ht Hv) as (ds & Hd & Hn & _).
  simpl in Hs. unfold ser_integer in Hs. rewrite Hd in Hs. injection Hs as <-.
  apply numeral_text; [done|]. unfold sign_of. case_match; auto.
Qed.

(** Elements separated by commas; the texts of pairs with a string as key are
    the members of an object. *)
Lemma elements_jelems {A} (J : serializer A) P bmp l t :
  Scans J P → Forall (P bmp) l → serialize_elements J l = Ok t → jelems bmp t.
Proof.
  intros HJ Hl. revert t. induction Hl as [|a l Ha Hl IH]; intros t; [intros [= <-]; constructor|].
  destruct l as [|a' l].
  - intros Hs. apply je_one. by eapply (ser_jtext bmp a).
  - change (serialize_elements J (a :: a' :: l)) with
      (s ← ser J a; r ← serialize_elements J (a' :: l); mret (s ++ ","%char :: r)).
    intros (s & Hs & (r & Hr & [= <-])%bind_Ok)%bind_Ok. apply je_cons; [by eapply (ser_jtext bmp a)|by apply IH|].
    intros ->. inversion Hl; subst. destruct l as [|a'' l].
    + apply (ser_jtext bmp a') in Hr; [|done]. by apply jtext_visible in Hr.
    + apply bind_Ok in Hr as (s1 & _ & (r1 & _ & [=])%bind_Ok). by destruct s1.
Qed.

#[export] Instance array_Scans {A} (J : serializer A) P : Scans J P → Scans (array J) (λ bmp, Forall (P bmp)).
Proof.
  intros HJ bmp l t Hl Hs. simpl in Hs. unfold serializerA in Hs. apply bind_Ok in Hs as (s & Hs & [= <-]).
  apply (jt_array bmp s). by eapply elements_jelems.
Qed.

(** The serializers that write a string. *)
Class WritesString {A} (s : serializer A) (P : bool → A → Prop) : Prop :=
  writes_string bmp a t : P bmp a → ser s a = Ok t → ∃ k, t = QUOTE :: k ++ [QUOTE] ∧ string_body bmp k.

#[export] Instance value_string_WritesString : WritesString value_string scan_text.
Proof.
  intros bmp a t Ha [= <-]. eexists. split; [reflexivity|]. by apply write_chars_body; [apply _|].
Qed.

Lemma elements_jmembers {K V} (k : serializer K) (v : serializer V) P Q bmp l t :
  WritesString k P → Scans v Q → Forall (λ x, P bmp x.1 ∧ Q bmp x.2) l →
  serialize_elements (pair k v) l = Ok t → jmembers bmp t.
Proof.
  intros Hk Hv Hl.
  assert (∀ x s, P bmp x.1 ∧ Q bmp x.2 → ser (pair k v) x = Ok s → ∃ kt vt,
    s = QUOTE :: kt ++ QUOTE :: ":"%char :: vt ∧ string_body bmp kt ∧ jtext bmp vt) as Hpair.
  { intros x s [Hp Hq] (a & Ha & (b & Hb & [= <-])%bind_Ok)%bind_Ok.
    destruct (writes_string bmp _ _ Hp Ha) as (kt & -> & Hkt).
    exists kt, b. split_and!; [by rewrite <-app_comm_cons, <-app_assoc|done|by eapply ser_jtext]. }
  revert t. induction Hl as [|a l Ha Hl IH]; intros t; [intros [= <-]; constructor|].
  destruct l as [|a' l].
  - intros Hs. destruct (Hpair _ _ Ha Hs) as (kt & vt & -> & ? & ?). by apply jm_one.
  - change (serialize_elements (pair k v) (a :: a' :: l)) with
      (s ← ser (pair k v) a; r ← serialize_elements (pair k v) (a' :: l); mret (s ++ ","%char :: r)).
    intros (s & Hs & (r & Hr & [= <-])%bind_Ok)%bind_Ok.
    destruct (Hpair _ _ Ha Hs) as (kt & vt & -> & ? & ?). apply jm_cons; [done|done|by apply IH|].
    intros ->. inversion Hl; subst. destruct l as [|a'' l].
    + by edestruct Hpair as (? & ? & [=] & _).
    + apply bind_Ok in Hr as (s1 & _ & (r1 & _ & [=])%bind_Ok). by destruct s1.
Qed.

#[export] Instance paired_array_Scans {K V} (k : serializer K) (v : serializer V) P Q :
  WritesString k P → Scans v Q → Scans (paired_array k v) (λ bmp, Forall (λ x, P bmp x.1 ∧ Q bmp x.2)).
Proof.
  intros Hk Hv bmp l t Hl Hs. simpl in Hs. unfold serializeA in Hs. apply bind_Ok in Hs as (s & Hs & [= <-]).
  apply (jt_object bmp s). by eapply elements_jmembers.
Qed.

#[export] Instance unordered_map_Scans {K V} `{Countable K} (k : serializer K) (v : serializer V)
    (order : gmap K V → list (K * V)) P Q :
  (∀ m, order m ≡ₚ map_to_list m) → WritesString k P → Scans v Q →
  Scans (unordered_map k v order) (λ bmp, map_Forall (λ a b, P bmp a ∧ Q bmp b)).
Proof.
  intros Ho Hk Hv bmp m t Hm Hs. simpl in Hs. unfold serializeA in Hs. apply bind_Ok in Hs as (s & Hs & [= <-]).
  apply (jt_object bmp s). eapply elements_jmembers; [done|done| |exact Hs].
  rewrite Ho. apply Forall_forall. intros [a b] Hab%elem_of_map_to_list. by apply Hm.
Qed.

(** ** Objects *)

Lemma plain_string_body bmp w : Forall (λ c, plain c = true) w → string_body bmp w.
Proof.
  intros Hw n e rest Hn. replace n with (length w + (n - length w))%nat by lia.
  rewrite parse_string_loop_plain by done. apply string_body_nil. simpl. lia.
Qed.

Section object.
Context {T : Type} (L : list (memb T)) (t0 : T).

Lemma members_jmembers bmp (a : T) (ms : list (memb T)) t :
  Forall (λ m, string_body bmp (m_name m)) ms → Forall (λ m, ∀ s, m_ser m a = Ok s → jtext bmp s) ms →
  serialize_members ms a = Ok t → jmembers bmp t.
Proof.
  intros Hn Hm. revert t. induction ms as [|m ms IH]; intros t.
  { intros [= <-]. constructor. }
  apply Forall_cons in Hn as [Hn1 Hn]. apply Forall_cons in Hm as [Hm1 Hm].
  assert (∀ s, serialize_member m a = Ok s → ∃ v, s = QUOTE :: m_name m ++ QUOTE :: ":"%char :: v ∧ jtext bmp v) as Hs1.
  { intros s (v & Hv & [= <-])%bind_Ok. exists v. split; [|by apply Hm1].
    unfold serialize_member_name. simpl. by rewrite <-app_assoc. }
  destruct ms as [|m' ms].
  - intros Hs. destruct (Hs1 _ Hs) as (v & -> & Hv). by apply jm_one.
  - change (serialize_members (m :: m' :: ms) a) with
      (s ← serialize_member m a; r ← serialize_members (m' :: ms) a; mret (s ++ ","%char :: r)).
    intros (s & Hs & (r & Hr & [= <-])%bind_Ok)%bind_Ok. destruct (Hs1 _ Hs) as (v & -> & Hv).
    apply jm_cons; [done|done|by apply IH|]. intros ->.
    destruct ms as [|m'' ms].
    + by apply bind_Ok in Hr as (? & _ & [=]).
    + apply bind_Ok in Hr as (s1 & _ & (r1 & _ & [=])%bind_Ok). by destruct s1.
Qed.

Lemma object_jtext bmp (a : T) t :
  Forall (λ m, string_body bmp (m_name m)) L → Forall (λ m, ∀ s, m_ser m a = Ok s → jtext bmp s) L →
  ser (object L t0) a = Ok t → jtext bmp t.
Proof.
  intros Hn Hm Hs. simpl in Hs. unfold serialize_object in Hs. apply bind_Ok in Hs as (s & Hs & [= <-]).
  apply (jt_object bmp s). by eapply members_jmembers.
Qed.
End object.

(** A raw value is written as it is. *)
#[export] Instance raw_value_Scans : Scans raw_value jtext.
Proof. intros bmp a t Ha [= <-]. by destruct a; [apply jtext_visible in Ha|]. Qed.

Lemma jtext_of_ser {A} (s : serializer A) P bmp a t : ser s a = Ok t → Scans s P → P bmp a → jtext bmp t.
Proof. intros Ht Hs Ha. by eapply (ser_jtext bmp a). Qed.

(** [object_scans]: the members of an object are written as JSON. *)
Ltac object_scans :=
  intros bmp a t Ha; destruct a; simpl in Ha; destruct_and?; refine (object_jtext _ _ bmp _ t _ _);
  [ repeat (constructor; [apply plain_string_body; repeat (constructor; [reflexivity|]); constructor|]); constructor
  | repeat (constructor; [intros ? Hs; cbn [m_ser member] in Hs; refine (jtext_of_ser _ _ bmp _ _ Hs _ _); eassumption|]); constructor ].

#[export] Instance longlong_Scans : Scans (value_integer longlong_t) (λ _ v, in_range longlong_t v = true) :=
  value_integer_Scans _ longlong_std.
#[export] Instance int_Scans : Scans (value_integer int_t) (λ _ v, in_range int_t v = true) :=
  value_integer_Scans _ int_std.

#[export] Instance valmap2str_Scans :
  Scans valmap2str_json (λ bmp, Forall (λ x, scan_text bmp x.1 ∧ scan_text bmp x.2)) :=
  paired_array_Scans value_string strvalue scan_text scan_text _ _.
#[export] Instance valmap2int_Scans :
  Scans valmap2int_json (λ bmp, Forall (λ x, scan_text bmp x.1 ∧ in_range longlong_t x.2 = true)) :=
  paired_array_Scans value_string _ scan_text (λ _ v, in_range longlong_t v = true) _ _.
#[export] Instance valmap2bool_Scans : Scans valmap2bool_json (λ bmp, Forall (λ x, scan_text bmp x.1 ∧ True)) :=
  paired_array_Scans value_string value_bool scan_text (λ _ _, True) _ _.
#[export] Instance vallist_Scans : Scans vallist_json (λ bmp, Forall (scan_text bmp)) :=
  array_Scans value_string scan_text _.
#[export] Instance valmap2str_map_Scans `{HashOrder} :
  Scans valmap2str_map_json (λ bmp, map_Forall (λ a b, scan_text bmp a ∧ scan_text bmp b)) :=
  unordered_map_Scans value_string strvalue hash_order scan_text scan_text hash_order_perm _ _.
#[export] Instance valmap2int_map_Scans `{HashOrder} :
  Scans valmap2int_map_json (λ bmp, map_Forall (λ a b, scan_text bmp a ∧ in_range longlong_t b = true)) :=
  unordered_map_Scans value_string _ hash_order scan_text (λ _ v, in_range longlong_t v = true) hash_order_perm _ _.

#[export] Instance get_range_Scans : Scans get_range_json (λ bmp a, scan_text bmp (gr_from a) ∧
  scan_text bmp (gr_to a) ∧ in_range int_t (gr_limit a) = true ∧ in_range int_t (gr_skip a) = true).
Proof. object_scans. Qed.
#[export] Instance inc_add_Scans `{HashOrder} : Scans inc_add_json (λ bmp a,
  Forall (λ x, scan_text bmp x.1 ∧ in_range longlong_t x.2 = true) (ia_inc a) ∧
  map_Forall (λ a b, scan_text bmp a ∧ in_range longlong_t b = true) (ia_def a)).
Proof. object_scans. Qed.
#[export] Instance update_packed_Scans `{HashOrder} : Scans update_packed_json (λ bmp a,
  scan_text bmp (up_key a) ∧ Forall (λ x, scan_text bmp x.1 ∧ in_range longlong_t x.2 = true) (up_inc a) ∧
  Forall (λ x, scan_text bmp x.1 ∧ scan_text bmp x.2) (up_set a) ∧
  map_Forall (λ a b, scan_text bmp a ∧ scan_text bmp b) (up_def a)).
Proof. object_scans. Qed.
#[export] Instance rep_setstate_Scans :
  Scans rep_setstate_json (λ bmp a, scan_text bmp (rs_id a) ∧ scan_text bmp (rs_state a)).
Proof. object_scans. Qed.

Lemma jtext_raw_value t e a rest :
  jtext true t → delim rest → unser raw_value e a (t ++ rest) = Ok (t, rest).
Proof.
  intros Ht Hd. simpl. destruct (jtext_parse_value true t e rest Ht Hd) as [->|[[=] _]]. simpl.
  rewrite length_app. replace (length t + length rest - length rest)%nat with (length t) by lia.
  by rewrite take_app_length.
Qed.

(** ** Properties *)

(** A raw value is exactly the text that was written: what a serializer
    of the protocol writes for a value whose strings are UTF-8 without
    four-byte symbols is scanned to its end and no further, so a connection
    that passes parameters and results on as raw text passes on the value. *)
Theorem raw_value_reads_written {A} (s : serializer A) P a t e old rest :
  Scans s P → P true a → ser s a = Ok t → delim rest →
  unser raw_value e old (t ++ rest) = Ok (t, rest).
Proof. intros Hs Ha Ht Hd. apply jtext_raw_value; [by eapply (ser_jtext true)|done]. Qed.

Lemma raw_value_reads_written_witness :
  unser raw_value Foreign [] (js "{'k':'a\/b'}" ++ str ",") = Ok (js "{'k':'a\/b'}", str ",").
Proof.
  apply (raw_value_reads_written valmap2str_json
    (λ bmp, Forall (λ x, scan_text bmp x.1 ∧ scan_text bmp x.2)) [(str "k", str "a/b")]).
  - apply valmap2str_Scans.
  - repeat constructor.
  - reflexivity.
  - apply list_elem_of_In. simpl. auto.
Defined.
