(* ===== verification/LevelDb.v ===== *)
(** * LevelDb: the key-value store behind the methods

    [LevelDB] is what the daemon uses of the leveldb library, which is not
    part of the sources; [LevelDBLaws] states its documented behaviour over
    an abstract map, and [mem_leveldb] is an implementation that satisfies
    the laws.  The rest models [src/db.hpp]: opening the database, the
    in-memory stand-in and the manager of the key locks. *)

From S2P Require Import Prelude.

(** ** Sorted entries *)

(** The entries of a map in the order of their keys. *)
Definition entry_le (a b : bytes * bytes) : Prop := bytes_le a.1 b.1.
#[export] Instance entry_le_dec : RelDecision entry_le.
Proof. intros a b. unfold entry_le. apply _. Defined.
#[export] Instance entry_le_trans : Transitive entry_le.
Proof. intros a b c. unfold entry_le. by etrans. Qed.
#[export] Instance entry_le_total : Total entry_le.
Proof. intros a b. unfold entry_le. apply total, _. Qed.

Definition sorted_entries (m : gmap bytes bytes) : list (bytes * bytes) :=
  merge_sort entry_le (map_to_list m).

Definition entry_lt (a b : bytes * bytes) : Prop := bytes_lt a.1 b.1.
Definition ordered (l : list (bytes * bytes)) : Prop := StronglySorted entry_lt l.

Lemma ordered_NoDup l : ordered l → NoDup l.*1.
Proof.
  induction 1 as [|a l Hl IH Ha]; [constructor|]. simpl. constructor; [|done].
  intros (b & Hb & Hin)%list_elem_of_fmap. rewrite Forall_forall in Ha.
  specialize (Ha b Hin). unfold entry_lt in Ha. rewrite Hb in Ha. by eapply (irreflexivity bytes_lt).
Qed.

Lemma sorted_entries_perm m : sorted_entries m ≡ₚ map_to_list m.
Proof. apply merge_sort_Permutation. Qed.

Lemma sorted_entries_ordered m : ordered (sorted_entries m).
Proof.
  assert (StronglySorted entry_le (sorted_entries m)) as Hs by (unfold sorted_entries; apply (StronglySorted_merge_sort entry_le)).
  assert (NoDup (sorted_entries m).*1) as Hn.
  { rewrite sorted_entries_perm. apply NoDup_fst_map_to_list. }
  revert Hs Hn. generalize (sorted_entries m). intros l Hs Hn.
  induction Hs as [|a l Hl IH Ha]; [constructor|]. apply NoDup_cons in Hn as [Hfresh Hn].
  constructor; [by apply IH|]. eapply Forall_impl; [apply Forall_and; split; [exact Ha|]|].
  { apply Forall_forall. intros b Hb. exact (list_elem_of_fmap_2 fst l b Hb). }
  intros b [Hle Hin]. unfold entry_lt, entry_le in *. apply bytes_le_lt_or_eq in Hle as [|Heq]; [done|].
  exfalso. apply Hfresh. by rewrite Heq.
Qed.

Lemma ordered_app l1 l2 :
  ordered (l1 ++ l2) ↔
  (∀ x1 x2, x1 ∈ l1 → x2 ∈ l2 → entry_lt x1 x2) ∧ ordered l1 ∧ ordered l2.
Proof. apply StronglySorted_app. Qed.

(** ** The library *)

Class LevelDB (D : Type) := {
  (** [Get]: the value, when the status is [ok()] *)
  Get : D → bytes → option bytes;
  (** [Put] and [Delete]: whether the status is [ok()] *)
  Put : D → bytes → bytes → bool * D;
  Delete : D → bytes → bool * D;
  (** [NewIterator]: the entries that it walks over *)
  NewIterator : D → list (bytes * bytes);
}.

(** An operation that reports success has the documented effect; a [Get] that
    reports none has not found the key or has failed.  Iterators walk over a
    snapshot of the entries, in the order of [Slice::compare]. *)
Class LevelDBLaws (D : Type) `{LevelDB D} := {
  contents : D → gmap bytes bytes;
  Get_ok d k v : Get d k = Some v → contents d !! k = Some v;
  Put_ok d k v d' : Put d k v = (true, d') → contents d' = <[k := v]> (contents d);
  Delete_ok d k d' : Delete d k = (true, d') → contents d' = delete k (contents d);
  NewIterator_entries d : NewIterator d = sorted_entries (contents d);
}.

(** A database all of whose operations succeed. *)
Class LevelDBHealthy (D : Type) `{LevelDBLaws D} : Prop := {
  Get_total d k : Get d k = contents d !! k;
  Put_total d k v : (Put d k v).1 = true;
  Delete_total d k : (Delete d k).1 = true;
}.

Lemma Put_healthy {D} `{LevelDBHealthy D} d k v :
  ∃ d', Put d k v = (true, d') ∧ contents d' = <[k := v]> (contents d).
Proof.
  pose proof (Put_total d k v) as Hp. destruct (Put d k v) as [b d'] eqn:Hd. simpl in Hp. subst.
  exists d'. split; [done|]. by apply Put_ok.
Qed.
Lemma Delete_healthy {D} `{LevelDBHealthy D} d k :
  ∃ d', Delete d k = (true, d') ∧ contents d' = delete k (contents d).
Proof.
  pose proof (Delete_total d k) as Hp. destruct (Delete d k) as [b d'] eqn:Hd. simpl in Hp. subst.
  exists d'. split; [done|]. by apply Delete_ok.
Qed.

(** An iterator: the snapshot, and what is left of it from the current entry
    on.  [key], [value] and [Next] require a valid iterator. *)
Record iterator := Iterator {
  it_all : list (bytes * bytes);
  it_rest : list (bytes * bytes);
}.

Definition SeekToFirst (it : iterator) : iterator := Iterator (it_all it) (it_all it).
Fixpoint seek (target : bytes) (l : list (bytes * bytes)) : list (bytes * bytes) :=
  match l with
  | [] => []
  | kv :: l' => if bytes_ltb kv.1 target then seek target l' else l
  end.
Definition Seek (target : bytes) (it : iterator) : iterator :=
  Iterator (it_all it) (seek target (it_all it)).
Definition Valid (it : iterator) : bool := match it_rest it with [] => false | _ => true end.
Definition Next (it : iterator) : res iterator :=
  match it_rest it with
  | [] => Undef
  | _ :: l => Ok (Iterator (it_all it) l)
  end.

Lemma seek_filter target l :
  ordered l → seek target l = filter (λ kv, bytes_le target kv.1) l.
Proof.
  induction 1 as [|a l Hl IH Ha]; [done|]. simpl. destruct (bytes_ltb_spec a.1 target) as [Hlt|Hlt].
  - rewrite filter_cons_False; [done|]. rewrite bytes_le_not_lt. tauto.
  - assert (bytes_le target a.1) as Hle by by apply bytes_le_not_lt.
    rewrite filter_cons_True by done. f_equal. symmetry.
    rewrite Forall_forall in Ha.
    clear IH Hl. induction l as [|b l IH]; [done|]. rewrite filter_cons_True.
    + f_equal. apply IH. intros c Hc. apply Ha. by apply list_elem_of_further.
    + etrans; [exact Hle|]. apply bytes_le_lt_or_eq. left. apply (Ha b), list_elem_of_here.
Qed.

(** ** An implementation *)

#[export] Instance mem_leveldb : LevelDB (gmap bytes bytes) := {
  Get d k := d !! k;
  Put d k v := (true, <[k := v]> d);
  Delete d k := (true, delete k d);
  NewIterator d := sorted_entries d;
}.

#[export] Instance mem_leveldb_laws : LevelDBLaws (gmap bytes bytes).
Proof. by refine {| contents := λ d, d |}; intros; simplify_eq/=. Defined.

#[export] Instance mem_leveldb_healthy : LevelDBHealthy (gmap bytes bytes).
Proof. by split. Qed.

(** ** [src/db.hpp] *)

Record Options := MkOptions {
  max_open_files : Z;
  write_buffer_size : Z;
  block_cache : Z;
  bloom_bits : Z;
  create_if_missing : bool;
}.

(** [Open] is [leveldb::DB::Open]; the sizes are [size_t]. *)
(* src: src/db.hpp 13-24 create_db *)
Definition create_db {D} (Open : Options → bytes → option D) (name : bytes) (buffer cache : Z) : res D :=
  let options := MkOptions (1024 * 100) (wrap ulong_t (buffer * 1024 * 1024))
                   (wrap ulong_t (cache * 1024 * 1024)) 20 true in
  match Open options name with
  | Some db => Ok db
  | None => Throw (thrown_pointer (str "leveldb file opening failed"))
  end.

(** The default sizes in megabytes. *)
(* src: src/db.hpp 13-13 create_db *)
Definition create_db_defaults : Z * Z := (512, 128).

(** *** The in-memory stand-in, whose map is read and written under a lock.

    [data[key]] inserts an empty value for a key that is missing, and the
    value that [Get] is asked for goes to a copy of the caller's pointer. *)
(* src: src/db.hpp 67-67 ldb_mem_db *)
Definition ldb_mem_db := gmap bytes bytes.

(* src: src/db.hpp 70-74 ldb_mem_db::Get *)
Definition ldb_mem_Get (data : ldb_mem_db) (key : bytes) (value : bytes) : (bool * bytes) * ldb_mem_db :=
  let data := match data !! key with Some _ => data | None => <[key := []]> data end in
  ((true, value), data).

(* src: src/db.hpp 75-79 ldb_mem_db::Put *)
Definition ldb_mem_Put (data : ldb_mem_db) (key value : bytes) : bool * ldb_mem_db :=
  (true, <[key := value]> data).

(* src: src/db.hpp 83-87 ldb_mem_db::Delete *)
Definition ldb_mem_Delete (data : ldb_mem_db) (key : bytes) : bool * ldb_mem_db :=
  (true, delete key data).

(* src: src/db.hpp 30-62 ldb_mem_Iterator *)
Definition ldb_mem_NewIterator (data : ldb_mem_db) : iterator :=
  Iterator (sorted_entries data) (sorted_entries data).

(** *** The locks of the keys *)

(* src: src/db.hpp 114-116 LockManager::get *)
Definition lock_index (n : Z) : Z := n mod 1024.

(** [hash] is [std::hash<std::string>]. *)
(* src: src/db.hpp 109-112 LockManager::get *)
Definition key_lock (hash : bytes → Z) (key : bytes) : Z := lock_index (hash key).

Lemma key_lock_range hash key : 0 <= key_lock hash key < 1024.
Proof. apply Z.mod_pos_bound. lia. Qed.

(** ** Properties *)

(** The in-memory stand-in never returns what was stored: a [Get] after
    a [Put] reports success and leaves the caller's string as it was. *)
Theorem ldb_mem_Get_loses_value data key value old :
  ∃ data', ldb_mem_Get (ldb_mem_Put data key value).2 key old = ((true, old), data').
Proof. eexists. reflexivity. Qed.
