(* ===== verification/Replication.v ===== *)
(** * Replication: [src/replication.hpp]

    The master's side of replication.  [Client_t] is what the master keeps of
    a slave: first the database is sent in portions ([syncing], then
    [sync_finishing]), then the queue of updates ([running]), at most
    [pipeline_size] unconfirmed requests at a time.  [Replication] is the
    table of the slaves, to which the methods hand every update.

    A handler changes the client and calls the connection; the calls are
    events.  [client_op A] keeps both also when the handler throws. *)

From S2P Require Import Prelude JsonParser JsonNumber Serializer JsonString JsonArray JsonObject Queries.
From S2P Require Import LevelDb.

(** ** The state of a slave *)

(* src: src/replication.hpp 8-8 client_state *)
Inductive client_state := not_ready | syncing | sync_finishing | running.

#[export] Instance client_state_eq_dec : EqDecision client_state.
Proof. solve_decision. Defined.

(** [address] is the pointer to the object; the lock [mtx] makes each handler
    one step. *)
(* src: src/replication.hpp 9-16 Client_t *)
Record Client_t := Client {
  address : nat;
  cl_id : bytes;
  state : client_state;
  current_keys : list bytes;
  queue : list (bytes * bytes);
  queue_pipelined : Z;
}.

(* src: src/replication.hpp 16-16 Client_t::pipeline_size *)
Definition pipeline_size : Z := 100.

(** The value-initialised object of [new Client_t()], with its [id]. *)
(* src: src/replication.hpp 251-252 Replication::add_client *)
Definition new_client (a : nat) (id : bytes) : Client_t := Client a id not_ready [] [] 0.

Definition set_state (s : client_state) (c : Client_t) : Client_t :=
  Client (address c) (cl_id c) s (current_keys c) (queue c) (queue_pipelined c).
Definition set_current_keys (ks : list bytes) (c : Client_t) : Client_t :=
  Client (address c) (cl_id c) (state c) ks (queue c) (queue_pipelined c).
Definition set_queue (q : list (bytes * bytes)) (c : Client_t) : Client_t :=
  Client (address c) (cl_id c) (state c) (current_keys c) q (queue_pipelined c).
Definition set_queue_pipelined (n : Z) (c : Client_t) : Client_t :=
  Client (address c) (cl_id c) (state c) (current_keys c) (queue c) n.

(** The methods called on the connection, by their tags, and the task that
    looks at the queue again after a millisecond. *)
Inductive rep_method := _set_ | _set_range_ | _del_.
Inductive event :=
  | Request (conn : nat) (m : rep_method) (params : bytes)
  | Schedule (client : nat) (conn : nat).

#[export] Instance rep_method_eq_dec : EqDecision rep_method.
Proof. solve_decision. Defined.

(** ** Handlers *)

Abbreviation op := (prog event).
Abbreviation client_op := (op Client_t).

(* src: src/replication.hpp 43-45 Client_t::current *)
Definition current (c : Client_t) : bytes :=
  match last (current_keys c) with Some k => k | None => [] end.

(* src: src/replication.hpp 47-50 Client_t::enqueue *)
Definition enqueue (buf : bytes * bytes) (c : Client_t) : Client_t := set_queue (queue c ++ [buf]) c.

(* src: src/replication.hpp 53-66 Client_t::send *)
Definition send {A} (T : serializer A) (cmd : bytes) (x : A) (c : Client_t) : res Client_t :=
  buf ← ser T x; mret (enqueue (cmd, buf) c).

(** The names written by [write_status]; the [id] goes in as it is. *)
(* src: src/replication.hpp 21-34 Client_t::write_status *)
Definition state_name (s : client_state) : bytes :=
  match s with
  | not_ready => str "not_ready"
  | syncing => str "syncing"
  | sync_finishing => str "sync_finishing"
  | running => str "running"
  end.

(* src: src/replication.hpp 18-41 Client_t::write_status *)
Definition write_status (c : Client_t) : res bytes :=
  size ← ser (value_integer ulong_t) (Z.of_nat (length (queue c)));
  cur ← ser value_string (current c);
  mret (js "{'id':'" ++ cl_id c ++ js "','state':'" ++ state_name (state c)
        ++ js "','queue':" ++ size ++ js ",'current':" ++ cur ++ str "}").

(* src: src/replication.hpp 103-114 Client_t::_schedule_queue *)
Definition _schedule_queue (conn : nat) : client_op unit :=
  a ← op_get address; op_emit (Schedule a conn).

(** [for (count = 0; it->Valid() && count<1000; ...) push_pair(data, ...)] *)
(* src: src/replication.hpp 131-133 Client_t::_push_next_portion *)
Fixpoint collect (n : nat) (it : iterator) (data : valmap2str) : res valmap2str :=
  match n with
  | O => Ok data
  | S n =>
      match it_rest it with
      | [] => Ok data
      | (k, v) :: _ => it ← Next it; collect n it (push_pair data k v)
      end
  end.

Definition portion_size : nat := 1000.

Section with_db.
Context {D : Type} `{LevelDB D} (d : D).

(** The entries of the next portion after the key [from]. *)
(* src: src/replication.hpp 122-133 Client_t::_push_next_portion *)
Definition next_data (from : bytes) : res valmap2str :=
  let it := Iterator (NewIterator d) [] in
  it ← (match from with
        | [] => Ok (SeekToFirst it)
        | _ :: _ => Next (Seek from it)
        end);
  collect portion_size it [].

(* src: src/replication.hpp 119-152 Client_t::_push_next_portion *)
Definition _push_next_portion (conn : nat) (from : bytes) : client_op bytes :=
  data ← op_lift (next_data from);
  buf ← op_lift (ser valmap2str_json data);
  op_emit (Request conn _set_ buf);;
  key ← (match last data with
         | Some kv => mret kv.1
         | None => op_modify (set_state sync_finishing);; mret from
         end);
  op_modify (λ c, set_current_keys (current_keys c ++ [key]) c);;
  mret key.

(** The method for the name of a queued command. *)
(* src: src/replication.hpp 176-182 Client_t::_push_queue_items *)
Definition command_method (cmd : bytes) : option rep_method :=
  if decide (cmd = str "del") then Some _del_
  else if decide (cmd = str "set") then Some _set_
  else if decide (cmd = str "set_range") then Some _set_range_
  else None.

(* src: src/replication.hpp 169-184 Client_t::_push_queue_items *)
Fixpoint push_items (conn : nat) (items : list (bytes * bytes)) : client_op unit :=
  match items with
  | [] => mret tt
  | (cmd, buf) :: items =>
      p ← op_get queue_pipelined;
      if p <? pipeline_size then
        match command_method cmd with
        | Some m =>
            op_emit (Request conn m buf);;
            op_modify (set_queue_pipelined (p + 1));;
            push_items conn items
        | None => op_lift (Throw (thrown_pointer cmd))
        end
      else mret tt
  end.

(* src: src/replication.hpp 158-186 Client_t::_push_queue_items *)
Definition _push_queue_items (conn : nat) : client_op bool :=
  q ← op_get queue;
  p ← op_get queue_pipelined;
  if decide (q = []) then
    if negb (p =? 0) then op_lift (Throw (logic_error (str "fail: Y R U PIPELINED?")))
    else _schedule_queue conn;; mret false
  else if Z.of_nat (length q) <=? p then mret false
  else if pipeline_size <=? p then mret false
  else push_items conn (drop (Z.to_nat p) q);; mret true.

(* src: src/replication.hpp 203-206 Client_t::_sync_queue *)
Definition _sync_queue (conn : nat) : client_op unit :=
  op_modify (λ c, set_queue_pipelined 0 (set_state running c));;
  _push_queue_items conn;; mret tt.

(* src: src/replication.hpp 223-226 Client_t::sync_queue *)
Definition sync_queue (conn : nat) : client_op unit := _sync_queue conn.

(* src: src/replication.hpp 195-195 Client_t::sync_initial *)
Fixpoint push_portions (n : nat) (conn : nat) (key : bytes) : client_op bytes :=
  match n with
  | O => mret key
  | S n => key ← _push_next_portion conn key; push_portions n conn key
  end.

(* src: src/replication.hpp 192-197 Client_t::sync_initial *)
Definition sync_initial (conn : nat) : client_op unit :=
  push_portions (Z.to_nat pipeline_size) conn [];;
  op_modify (set_state syncing).

(* src: src/replication.hpp 79-98 Client_t::on_confirm *)
Definition on_confirm (conn : nat) : client_op unit :=
  s ← op_get state;
  match s with
  | syncing | sync_finishing =>
      ks ← op_get current_keys;
      match last ks with
      | None => op_lift (Throw (logic_error (str "fail")))
      | Some k =>
          op_modify (set_current_keys (tail ks));;
          if decide (s = syncing) then _push_next_portion conn k;; mret tt
          else if decide (tail ks = []) then _sync_queue conn
          else mret tt
      end
  | running =>
      q ← op_get queue;
      match q with
      | [] => op_lift (Throw (logic_error (str "fail: empty queue but something returned")))
      | _ :: q =>
          p ← op_get queue_pipelined;
          op_modify (λ c, set_queue q (set_queue_pipelined (p - 1) c));;
          _push_queue_items conn;; mret tt
      end
  | not_ready => mret tt
  end.

(** The body of the scheduled thread; [alive] is [conn.get_status()]. *)
(* src: src/replication.hpp 106-111 Client_t::_schedule_queue *)
Definition poll_queue (conn : nat) (alive : bool) : client_op unit :=
  if alive then _push_queue_items conn;; mret tt else mret tt.
End with_db.

(** ** The table of slaves

    [repClients] holds the objects; [next_address] is where the next [new]
    will put one. *)
(* src: src/replication.hpp 229-230 Replication *)
Record Replication := MkReplication {
  repClients : gmap bytes Client_t;
  next_address : nat;
}.

Definition set_repClients (m : gmap bytes Client_t) (r : Replication) : Replication :=
  MkReplication m (next_address r).

Definition replication0 : Replication := MkReplication ∅ 0.

(** [repClients[id]->op(conn)]: the handler runs on the object in the table. *)
Definition on_client {A} (id : bytes) (op : client_op A) (r : Replication)
    : res A * Replication * list event :=
  match repClients r !! id with
  | Some c => let '(a, c', ev) := op c in (a, set_repClients (<[id := c']> (repClients r)) r, ev)
  | None => (Undef, r, [])
  end.

(* src: src/replication.hpp 250-254 Replication::add_client *)
Definition insert_new (id : bytes) (r : Replication) : Replication :=
  match repClients r !! id with
  | Some _ => r
  | None => MkReplication (<[id := new_client (next_address r) id]> (repClients r)) (S (next_address r))
  end.

(** What happens to the old object: [None] when the handler returns there,
    else the requested state. *)
(* src: src/replication.hpp 234-248 Replication::add_client *)
Definition prepare_client (id st : bytes) (r : Replication) : option bytes * Replication :=
  match repClients r !! id with
  | Some _ =>
      if decide (st = str "stop") then (None, set_repClients (delete id (repClients r)) r)
      else if decide (st = str "start") then (Some st, set_repClients (delete id (repClients r)) r)
      else (Some st, r)
  | None =>
      let st := if decide (st = str "auto") then str "start" else st in
      (if decide (st = str "stop") then None else Some st, r)
  end.

(* src: src/replication.hpp 232-262 Replication::add_client *)
Definition add_client {D} `{LevelDB D} (d : D) (id st : bytes) (conn : nat) (r : Replication)
    : res unit * Replication * list event :=
  match prepare_client id st r with
  | (None, r) => (Ok tt, r, [])
  | (Some st, r) =>
      let r := insert_new id r in
      if decide (st = str "start") then
        on_client id (op_modify (set_state not_ready);; sync_initial d conn) r
      else
        on_client id (op_modify (set_state running);; sync_queue conn) r
  end.

(** The part of an update that a client gets: all of it when it is running,
    the keys below [current()] while it is syncing, else nothing. *)
(* src: src/replication.hpp 271-277 Replication::_send_to_clients *)
Definition send_to_client {A} (T : serializer (list A)) (key_of : A → bytes) (cmd : bytes)
    (data : list A) (client : Client_t) : res Client_t :=
  match state client with
  | running => send T cmd data client
  | syncing =>
      match filter (λ a, bytes_lt (key_of a) (current client)) data with
      | [] => Ok client
      | partial => send T cmd partial client
      end
  | _ => Ok client
  end.

Section send.
Context `{HashOrder} {A : Type} (T : serializer (list A)) (key_of : A → bytes) (cmd : bytes).

(* src: src/replication.hpp 268-278 Replication::_send_to_clients *)
Fixpoint send_each (data : list A) (cs : list (bytes * Client_t)) (m : gmap bytes Client_t)
    : res (gmap bytes Client_t) :=
  match cs with
  | [] => Ok m
  | (id, c) :: cs =>
      c ← send_to_client T key_of cmd data c;
      send_each data cs (<[id := c]> m)
  end.

(* src: src/replication.hpp 265-279 Replication::_send_to_clients *)
Definition _send_to_clients (data : list A) (r : Replication) : res Replication :=
  match data with
  | [] => Ok r
  | _ => m ← send_each data (hash_order (repClients r)) (repClients r); mret (set_repClients m r)
  end.
End send.

Section updates.
Context `{HashOrder}.
(* src: src/replication.hpp 283-289 Replication::set *)
Definition rep_set : valmap2str → Replication → res Replication :=
  _send_to_clients valmap2str_json fst (str "set").
(* src: src/replication.hpp 290-296 Replication::set_range *)
Definition rep_set_range : valmap2str → Replication → res Replication :=
  _send_to_clients valmap2str_json fst (str "set_range").
(* src: src/replication.hpp 297-303 Replication::del *)
Definition rep_del : vallist → Replication → res Replication :=
  _send_to_clients vallist_json id (str "del").
End updates.

Example add_ex :
  let d : gmap bytes bytes := {[ str "a" := str "1"; str "b" := str "2" ]} in
  let '(r, rep, ev) := add_client d (str "s") (str "start") 7 replication0 in
  r = Ok tt ∧ length ev = 100%nat ∧
  hd_error ev = Some (Request 7 _set_ (js "{'a':'1','b':'2'}")) ∧
  (state <$> repClients rep !! str "s") = Some syncing ∧
  (current <$> repClients rep !! str "s") = Some (str "b").
Proof. vm_compute. split_and!; reflexivity. Qed.

(** ** Equations *)

(** Writing a list of strings or pairs always succeeds. *)
Lemma serialize_elements_total {A} (J : serializer A) l :
  (∀ a, ∃ s, ser J a = Ok s) → ∃ s, serialize_elements J l = Ok s.
Proof.
  intros HJ. induction l as [|a l [s IH]]; [by exists []|]. destruct (HJ a) as [t Ht].
  destruct l as [|b l]; [by exists t|].
  exists (t ++ ","%char :: s).
  change (serialize_elements J (a :: b :: l)) with
    (s ← ser J a; r ← serialize_elements J (b :: l); mret (s ++ ","%char :: r)).
  by rewrite Ht, IH.
Qed.

Lemma valmap2str_total l : ∃ s, ser valmap2str_json l = Ok s.
Proof.
  destruct (serialize_elements_total (pair value_string strvalue) l) as [s Hs]; [by eexists|].
  exists ("{"%char :: s ++ str "}"). simpl. unfold serializeA, id. by rewrite Hs.
Qed.
Lemma vallist_total l : ∃ s, ser vallist_json l = Ok s.
Proof.
  destruct (serialize_elements_total value_string l) as [s Hs]; [by eexists|].
  exists ("["%char :: s ++ str "]"). simpl. unfold serializeA, id. by rewrite Hs.
Qed.

(** The effect of a broadcast on each slave, whatever the order of the table. *)
Lemma send_each_spec {A} `{HashOrder} (T : serializer (list A)) key_of cmd data cs m :
  (∀ l, ∃ s, ser T l = Ok s) → NoDup cs.*1 → (∀ id c, (id, c) ∈ cs → m !! id = Some c) →
  ∃ m', send_each T key_of cmd data cs m = Ok m' ∧
    ∀ id, (id ∉ cs.*1 → m' !! id = m !! id) ∧
          ∀ c, (id, c) ∈ cs → ∃ c', send_to_client T key_of cmd data c = Ok c' ∧ m' !! id = Some c'.
Proof.
  intros HT. revert m. induction cs as [|[id c] cs IH]; intros m Hnd Hm.
  { exists m. split; [done|]. intros id. split; [done|]. by intros c ?%not_elem_of_nil. }
  apply NoDup_cons in Hnd as [Hfresh Hnd]. simpl in Hfresh.
  assert (∃ c', send_to_client T key_of cmd data c = Ok c') as [c' Hc].
  { unfold send_to_client, send. destruct (state c); try by eexists.
    - destruct (filter _ data) as [|x xs] eqn:Hf; [by eexists|]. destruct (HT (x :: xs)) as [s ->]. by eexists.
    - destruct (HT data) as [s ->]. by eexists. }
  destruct (IH (<[id := c']> m)) as (m' & Hs & Hm'); [done| |].
  { intros id2 c2 Hin. rewrite lookup_insert_ne; [apply Hm; by apply list_elem_of_further|].
    intros <-. apply Hfresh. by apply (list_elem_of_fmap_2 fst _ (id, c2)). }
  exists m'. simpl. rewrite Hc. split; [done|]. intros id2. destruct (Hm' id2) as [H1 H2]. split.
  - intros Hn. apply not_elem_of_cons in Hn as [Hne Hn]. rewrite H1 by done. by rewrite lookup_insert_ne.
  - intros c2 Hin. apply elem_of_cons in Hin as [[= -> ->]|Hin]; [|by apply H2].
    exists c'. split; [done|]. rewrite H1 by done. apply lookup_insert_eq.
Qed.
