(* ===== verification/ReplicationQueue.v ===== *)
(** * ReplicationQueue: the queue of updates of a running slave

    What [on_confirm], [enqueue] and the scheduled task of
    [src/replication.hpp] do together, as a step relation over the client,
    the requests sent to it and the tasks that are scheduled. *)

From S2P Require Import Prelude Serializer Queries LevelDb Replication.

(** ** One call of [_push_queue_items] *)

(** The command of a queued item is one of the three that are sent. *)
Definition sendable (item : bytes * bytes) : Prop := is_Some (command_method item.1).
#[export] Instance sendable_dec item : Decision (sendable item).
Proof. unfold sendable. apply _. Defined.

Definition request (conn : nat) (item : bytes * bytes) : event :=
  match command_method item.1 with
  | Some m => Request conn m item.2
  | None => Request conn _set_ []
  end.

Lemma push_items_spec conn items c :
  Forall sendable items → 0 <= queue_pipelined c <= pipeline_size →
  let n := Z.min (pipeline_size - queue_pipelined c) (Z.of_nat (length items)) in
  push_items conn items c
  = (Ok tt, set_queue_pipelined (queue_pipelined c + n) c, request conn <$> take (Z.to_nat n) items).
Proof.
  intros Hitems. revert c. induction Hitems as [|[cmd buf] items [m Hm] Hitems IH]; intros c Hp n.
  - subst n. simpl. rewrite Z.min_r, Z.add_0_r by lia. by destruct c.
  - cbn [push_items]. unfold mbind, op_bind, op_get at 1. cbn beta iota.
    destruct (Z.ltb_spec (queue_pipelined c) pipeline_size) as [Hlt|Hge].
    + simpl in Hm. rewrite Hm. unfold mbind, op_bind, op_emit, op_modify. cbn beta iota.
      rewrite IH; [|simpl; lia]. cbn [set_queue_pipelined queue_pipelined address cl_id state current_keys queue].
      set (n' := Z.min (pipeline_size - (queue_pipelined c + 1)) (Z.of_nat (length items))).
      assert (n = n' + 1) as -> by (subst n n'; simpl length; lia).
      assert (0 <= n') by (subst n'; lia).
      replace (Z.to_nat (n' + 1)) with (S (Z.to_nat n')) by lia. cbn [take app fmap list_fmap].
      unfold request at 2. simpl. rewrite Hm.
      replace (queue_pipelined c + 1 + n') with (queue_pipelined c + (n' + 1)) by lia. done.
    + assert (n = 0) as -> by (subst n; lia). rewrite Z.add_0_r. by destruct c.
Qed.

(** The invariant of a running client between two handlers. *)
Record queue_ok (c : Client_t) : Prop := {
  ok_running : state c = running;
  ok_sendable : Forall sendable (queue c);
  ok_pipelined : 0 <= queue_pipelined c <= Z.min pipeline_size (Z.of_nat (length (queue c)));
}.

Lemma _push_queue_items_spec conn c p p' :
  queue_ok c → queue_pipelined c = p → p' = Z.min pipeline_size (Z.of_nat (length (queue c))) →
  ∃ b, _push_queue_items conn c
  = (Ok b, set_queue_pipelined p' c,
     if decide (queue c = []) then [Schedule (address c) conn]
     else request conn <$> take (Z.to_nat (p' - p)) (drop (Z.to_nat p) (queue c))).
Proof.
  intros [Hr Hs Hp] Hcp Hp'. rewrite Hcp in Hp. rewrite <-Hp' in Hp.
  assert (set_queue_pipelined p c = c) as Hid by (subst p; by destruct c).
  unfold _push_queue_items, mbind, op_bind, op_get. cbn beta iota. rewrite Hcp.
  destruct (decide (queue c = [])) as [Hq|Hq].
  { rewrite Hq in Hp'. assert (p = 0) as Hp0 by (simpl in Hp'; lia). assert (p' = p) as Hpp by (simpl in Hp'; lia).
    rewrite Hpp, Hid, Hp0. by exists false. }
  destruct (Z.leb_spec (Z.of_nat (length (queue c))) p).
  { assert (p' = p) as Hpp by lia. rewrite Hpp, Z.sub_diag, Hid. by exists false. }
  destruct (Z.leb_spec pipeline_size p).
  { assert (p' = p) as Hpp by lia. rewrite Hpp, Z.sub_diag, Hid. by exists false. }
  rewrite push_items_spec; [|by apply Forall_drop|lia]. rewrite Hcp. cbn beta iota.
  rewrite length_drop.
  replace (Z.min (pipeline_size - p) (Z.of_nat (length (queue c) - Z.to_nat p))) with (p' - p) by lia.
  replace (p + (p' - p)) with p' by lia. exists true. unfold mret, op_ret. by rewrite app_nil_r.
Qed.

(** ** The slave's link *)

Record link := Link {
  l_client : Client_t;
  l_sent : list event;       (** the requests, in the order sent *)
  l_tasks : nat;             (** scheduled looks at the queue *)
  l_confirmed : nat;         (** confirmations received *)
  l_log : list (bytes * bytes);  (** everything that was ever enqueued *)
}.

Definition is_request (e : event) : bool := match e with Request _ _ _ => true | _ => false end.

(** The handler's outcome: its events leave for the slave or the scheduler. *)
Definition after (l : link) (confirmed : nat) (tasks : nat) (c : Client_t) (ev : list event) : link :=
  Link c (l_sent l ++ filter (λ e, is_request e = true) ev)
    (tasks + length (filter (λ e, is_request e = false) ev)) confirmed (l_log l).

Section link_steps.
Context {D : Type} `{LevelDB D} (conn : nat).

(** A handler ends in [r]. *)
Inductive link_step : link → res unit → link → Prop :=
  | step_enqueue l item :
      sendable item →
      link_step l (Ok tt)
        (Link (enqueue item (l_client l)) (l_sent l) (l_tasks l) (l_confirmed l) (l_log l ++ [item]))
  | step_confirm l (d : D) r c ev :
      (l_confirmed l < length (l_sent l))%nat →
      on_confirm d conn (l_client l) = (r, c, ev) →
      link_step l r (after l (S (l_confirmed l)) (l_tasks l) c ev)
  | step_task l r c ev n :
      l_tasks l = S n →
      poll_queue conn true (l_client l) = (r, c, ev) →
      link_step l r (after l (l_confirmed l) n c ev).

(** The link right after [sync_queue] of a client with a queue of its own. *)
Inductive link_init : link → Prop :=
  | init_sync c r c' ev :
      Forall sendable (queue c) →
      sync_queue conn c = (r, c', ev) →
      link_init (Link c' (filter (λ e, is_request e = true) ev)
                   (length (filter (λ e, is_request e = false) ev)) 0 (queue c)).

Inductive link_reachable : link → Prop :=
  | reach_init l : link_init l → link_reachable l
  | reach_step l r l' : link_reachable l → link_step l r l' → link_reachable l'.

(** The invariant: what is queued is what was logged and not confirmed, what
    was sent is the first part of the log, and exactly one of the two drives
    the queue - a task or the next confirmation. *)
Record link_ok (l : link) : Prop := {
  lk_queue : queue_ok (l_client l);
  lk_log : queue (l_client l) = drop (l_confirmed l) (l_log l);
  lk_confirmed : (l_confirmed l ≤ length (l_log l))%nat;
  lk_sent : l_sent l = request conn <$>
              take (l_confirmed l + Z.to_nat (queue_pipelined (l_client l))) (l_log l);
  lk_driver : (l_tasks l = 1%nat ∧ queue_pipelined (l_client l) = 0) ∨
              (l_tasks l = 0%nat ∧ 0 < queue_pipelined (l_client l));
}.

Lemma filter_requests items :
  filter (λ e, is_request e = true) (request conn <$> items) = request conn <$> items ∧
  filter (λ e, is_request e = false) (request conn <$> items) = [].
Proof.
  assert (∀ x, is_request (request conn x) = true) as Hr.
  { intros x. unfold request. by destruct (command_method x.1). }
  induction items as [|x items [IH1 IH2]]; [done|]. rewrite fmap_cons.
  rewrite filter_cons_True, filter_cons_False by (rewrite Hr; done). by rewrite IH1, IH2.
Qed.

Lemma take_take_drop {A} (l : list A) n m : take n l ++ take m (drop n l) = take (n + m) l.
Proof.
  revert l. induction n as [|n IH]; intros l; [done|]. destruct l; simpl; [by rewrite take_nil|].
  by rewrite IH.
Qed.

Lemma drop_tail {A} n (l : list A) : tail (drop n l) = drop (S n) l.
Proof. revert l. induction n as [|n IH]; intros [|x l]; try done. apply IH. Qed.

(** Both drivers end with [_push_queue_items]; it restores the invariant. *)
Lemma push_restores c b c' ev log confirmed sent :
  queue_ok c → queue c = drop confirmed log → (confirmed ≤ length log)%nat →
  sent = request conn <$> take (confirmed + Z.to_nat (queue_pipelined c)) log →
  _push_queue_items conn c = (b, c', ev) →
  is_Some (match b with Ok x => Some x | _ => None end) ∧
  link_ok (Link c' (sent ++ filter (λ e, is_request e = true) ev)
             (length (filter (λ e, is_request e = false) ev)) confirmed log).
Proof.
  intros Hok Hlog Hconf Hsent Hpush.
  destruct (_push_queue_items_spec conn c _ _ Hok eq_refl eq_refl) as [b' Hb]. rewrite Hb in Hpush.
  injection Hpush as <- <- <-. split; [by eexists|].
  destruct Hok as [Hr Hs Hp]. set (p' := Z.min pipeline_size (Z.of_nat (length (queue c)))) in *.
  assert (Hq : queue_ok (set_queue_pipelined p' c)) by (split; simpl; [done|done|lia]).
  destruct (decide (queue c = [])) as [Hnil|Hnil]; simpl.
  - assert (p' = 0) as Hp' by (subst p'; rewrite Hnil; simpl; lia).
    split; simpl; [done|done|done| |by left; lia].
    rewrite app_nil_r, Hsent. do 2 f_equal. lia.
  - destruct (filter_requests (take (Z.to_nat (p' - queue_pipelined c))
                (drop (Z.to_nat (queue_pipelined c)) (queue c)))) as [-> ->].
    assert (0 < p') as Hp'.
    { subst p'. destruct (queue c); [done|]. simpl. unfold pipeline_size. lia. }
    split; simpl; [done|done|done| |by right; lia].
    rewrite Hsent, <-fmap_app, Hlog, drop_drop. f_equal.
    rewrite take_take_drop. f_equal. lia.
Qed.

Lemma on_confirm_running (d : D) c :
  state c = running → queue c ≠ [] →
  on_confirm d conn c =
    let '(r, c', ev) :=
      _push_queue_items conn (set_queue (tail (queue c)) (set_queue_pipelined (queue_pipelined c - 1) c)) in
    (match r with Ok _ => Ok tt | Throw x => Throw x | Undef => Undef | NoFuel => NoFuel end, c', ev).
Proof.
  intros Hs Hq. unfold on_confirm, mbind, op_bind, op_get. cbn beta iota. rewrite Hs.
  destruct (queue c) as [|x q] eqn:Hqc; [done|]. cbn beta iota. unfold op_modify.
  cbn beta iota. simpl tail.
  destruct (_push_queue_items conn _) as [[[] c'] ev]; simpl; by rewrite ?app_nil_r.
Qed.

Lemma link_init_ok l : link_init l → link_ok l.
Proof.
  intros [c r c' ev Hs Hsync]. unfold sync_queue, _sync_queue, mbind, op_bind, op_modify in Hsync.
  cbn beta iota in Hsync. set (c0 := set_queue_pipelined 0 (set_state running c)) in *.
  destruct (_push_queue_items conn c0) as [[b c1] ev1] eqn:Hp.
  assert (queue_ok c0) as Hok by (split; simpl; [done|done|unfold pipeline_size; lia]).
  destruct (push_restores c0 b c1 ev1 (queue c) 0 [] Hok) as [Hb Hl]; [done|lia|done|done|].
  destruct b; try (by destruct Hb). cbn in Hsync. rewrite app_nil_r in Hsync.
  by injection Hsync as <- <- <-.
Qed.

(** The tasks that are left when one of them runs. *)
Lemma link_step_ok l r l' : link_ok l → link_step l r l' → r = Ok tt ∧ link_ok l'.
Proof.
  intros [Hq Hlog Hconf Hsent Hdrv] Hstep. destruct Hstep as [l item Hi|l d r c ev Hn Hc|l r c ev n Hn Hc].
  - split; [done|]. destruct Hq as [Hr Hs Hp]. destruct l as [c sent tasks conf log]. simpl in *.
    split; simpl; [|by rewrite drop_app_le, Hlog by lia|rewrite length_app; lia| |done].
    + split; simpl; [done|by apply Forall_app_2; [|constructor]|rewrite length_app; simpl; lia].
    + rewrite take_app_le; [done|]. apply (f_equal length) in Hlog. rewrite length_drop in Hlog. lia.
  - destruct Hq as [Hr Hs Hp]. destruct l as [cl sent tasks conf log]. simpl in *.
    assert (queue cl ≠ []) as Hne.
    { intros Hnil. rewrite Hsent, length_fmap, length_take in Hn. rewrite Hnil in Hp. simpl in Hp. lia. }
    assert (0 < queue_pipelined cl) as Hpos.
    { rewrite Hsent, length_fmap, length_take in Hn. lia. }
    rewrite on_confirm_running in Hc by done.
    set (c1 := set_queue (tail (queue cl)) (set_queue_pipelined (queue_pipelined cl - 1) cl)) in *.
    destruct (_push_queue_items conn c1) as [[b c2] ev2] eqn:Hpush.
    assert (length (tail (queue cl)) = length (queue cl) - 1)%nat as Htl by (destruct (queue cl); simpl; lia).
    assert (queue_ok c1) as Hok1.
    { split; simpl; [done| |rewrite Htl; destruct (queue cl); [done|simpl in *; lia]].
      destruct (queue cl); [done|]. by inversion Hs. }
    destruct (push_restores c1 b c2 ev2 log (S conf) sent Hok1) as [Hb Hl]; [| | |done|].
    + simpl. by rewrite Hlog, drop_tail.
    + apply (f_equal length) in Hlog. rewrite length_drop in Hlog. destruct (queue cl); [done|simpl in *; lia].
    + simpl. rewrite Hsent. do 2 f_equal. lia.
    + destruct b; try (by destruct Hb). injection Hc as <- <- <-. split; [done|].
      destruct Hdrv as [[_ H0]|[-> _]]; [lia|]. exact Hl.
  - destruct l as [cl sent tasks conf log]. simpl in *. subst tasks.
    destruct Hdrv as [[[= ->] Hp0]|[? _]]; [|lia].
    unfold poll_queue, mbind, op_bind in Hc.
    destruct (_push_queue_items conn cl) as [[b c2] ev2] eqn:Hpush.
    destruct (push_restores cl b c2 ev2 log conf sent Hq) as [Hb Hl]; [done|done|done|done|].
    destruct b; try (by destruct Hb). cbn in Hc. rewrite app_nil_r in Hc. injection Hc as <- <- <-.
    split; [done|]. exact Hl.
Qed.

Lemma link_reachable_ok l : link_reachable l → link_ok l.
Proof.
  induction 1 as [l Hl|l r l' Hr IH Hs]; [by apply link_init_ok|]. by apply (link_step_ok l r l').
Qed.
(** The steps of the slave and of the scheduler, without new updates. *)
Definition drain_step (l l' : link) : Prop := link_step l (Ok tt) l' ∧ l_log l' = l_log l.

Lemma drain_confirm (d : D) l :
  link_ok l → queue_pipelined (l_client l) ≠ 0 →
  ∃ l', drain_step l l' ∧ link_ok l' ∧
        (length (l_log l') - l_confirmed l' < length (l_log l) - l_confirmed l)%nat.
Proof using Type.
  intros Hl Hp. destruct (on_confirm d conn (l_client l)) as [[r c] ev] eqn:Hc.
  assert (l_confirmed l < length (l_sent l))%nat as Hn.
  { destruct Hl as [[_ _ Hq] Hlog Hconf Hsent _].
    apply (f_equal length) in Hlog. rewrite length_drop in Hlog.
    rewrite Hsent, length_fmap, length_take. lia. }
  pose proof (step_confirm l d r c ev Hn Hc) as Hs.
  destruct (link_step_ok _ _ _ Hl Hs) as [-> Hl']. eexists. split_and!; [by split|done|].
  simpl. pose proof (lk_confirmed _ Hl') as Hle. simpl in Hle. lia.
Qed.

Lemma drain_task l :
  link_ok l → queue_pipelined (l_client l) = 0 → queue (l_client l) ≠ [] →
  ∃ l', drain_step l l' ∧ link_ok l' ∧ queue_pipelined (l_client l') ≠ 0 ∧
        l_confirmed l' = l_confirmed l.
Proof using Type.
  intros Hl Hp Hq. destruct (poll_queue conn true (l_client l)) as [[r c] ev] eqn:Hc.
  assert (l_tasks l = 1%nat) as Ht by (destruct (lk_driver _ Hl) as [[? _]|[_ ?]]; [done|lia]).
  pose proof (step_task l r c ev 0 Ht Hc) as Hs.
  destruct (link_step_ok _ _ _ Hl Hs) as [-> Hl']. eexists. split_and!; [by split|done| |done].
  simpl. destruct (_push_queue_items_spec conn (l_client l) _ _ (lk_queue _ Hl) eq_refl eq_refl) as [b Hb].
  unfold poll_queue, mbind, op_bind in Hc. rewrite Hb in Hc. cbn in Hc. injection Hc as <- <-.
  simpl. destruct (queue (l_client l)); [done|]. simpl. unfold pipeline_size. lia.
Qed.

Lemma drain (d : D) l :
  link_ok l → ∃ l', rtc drain_step l l' ∧ link_ok l' ∧ queue (l_client l') = [].
Proof using Type.
  remember (length (l_log l) - l_confirmed l)%nat as n eqn:Hn.
  revert l Hn. induction n as [n IH] using lt_wf_ind. intros l -> Hl.
  destruct (decide (queue (l_client l) = [])) as [Hq|Hq]; [by exists l|].
  assert (∃ l1, rtc drain_step l l1 ∧ link_ok l1 ∧ queue_pipelined (l_client l1) ≠ 0 ∧
    l_confirmed l1 = l_confirmed l ∧ l_log l1 = l_log l) as (l1 & Hr1 & Hl1 & Hp1 & Hc1 & Hg1).
  { destruct (decide (queue_pipelined (l_client l) = 0)) as [Hp|Hp]; [|by exists l].
    destruct (drain_task l Hl Hp Hq) as (l1 & Hs & Hl1 & Hp1 & Hc1). exists l1.
    split_and!; [by apply rtc_once|done|done|done|by destruct Hs]. }
  destruct (drain_confirm d l1 Hl1 Hp1) as (l2 & Hs2 & Hl2 & Hlt). rewrite Hc1, Hg1 in Hlt.
  destruct (IH _ Hlt l2 eq_refl Hl2) as (l3 & Hr3 & Hl3 & Hq3). exists l3. split; [|done].
  etrans; [exact Hr1|]. by eapply rtc_l.
Qed.

Lemma drain_log l l' : rtc drain_step l l' → l_log l' = l_log l.
Proof using Type. induction 1 as [|l1 l2 l3 [_ H12] _ IH]; [done|]. congruence. Qed.
End link_steps.

Definition link0 : link :=
  let '(_, c, ev) := sync_queue 3 (set_queue [(str "set", str "{}"); (str "del", str "[]")] (new_client 0 (str "s"))) in
  Link c (filter (λ e, is_request e = true) ev) 0 0 [(str "set", str "{}"); (str "del", str "[]")].

Lemma link0_reachable : link_reachable (D := gmap bytes bytes) 3 link0.
Proof.
  apply reach_init.
  apply (init_sync 3 (set_queue [(str "set", str "{}"); (str "del", str "[]")] (new_client 0 (str "s")))
           (Ok tt) (l_client link0) (l_sent link0)).
  - repeat constructor; by eexists.
  - vm_compute. reflexivity.
Qed.

(** ** Properties *)

(** C7.  While a slave is running, whatever the interleaving of new updates,
    confirmations and scheduled looks at the queue, it is sent every queued
    update exactly once and in the order in which they were enqueued, with at
    most a hundred of them unconfirmed; and the queue never stalls: either a
    confirmation is outstanding or exactly one look is scheduled. *)
Theorem queue_exactly_once_in_order {D} `{LevelDB D} conn l :
  link_reachable (D := D) conn l →
  l_sent l `prefix_of` (request conn <$> l_log l) ∧
  (l_confirmed l ≤ length (l_sent l) ≤ l_confirmed l + 100)%nat ∧
  (l_tasks l = 1%nat ∧ length (l_sent l) = l_confirmed l ∨
   l_tasks l = 0%nat ∧ (l_confirmed l < length (l_sent l))%nat).
Proof.
  intros Hl%link_reachable_ok. destruct Hl as [[_ _ Hp] Hlog Hconf Hsent Hdrv].
  apply (f_equal length) in Hlog. rewrite length_drop in Hlog. unfold pipeline_size in Hp.
  assert (length (l_sent l) = l_confirmed l + Z.to_nat (queue_pipelined (l_client l)))%nat as Hlen.
  { rewrite Hsent, length_fmap, length_take. lia. }
  split_and!; [|lia|lia|].
  - rewrite Hsent.
    exists (request conn <$> drop (l_confirmed l + Z.to_nat (queue_pipelined (l_client l))) (l_log l)).
    by rewrite <-fmap_app, take_drop.
  - destruct Hdrv as [[-> H0]|[-> H0]]; [left|right]; lia.
Qed.

Lemma queue_exactly_once_in_order_witness :
  l_sent link0 `prefix_of` (request 3 <$> l_log link0) ∧
  (l_confirmed link0 ≤ length (l_sent link0) ≤ l_confirmed link0 + 100)%nat ∧
  (l_tasks link0 = 1%nat ∧ length (l_sent link0) = l_confirmed link0 ∨
   l_tasks link0 = 0%nat ∧ (l_confirmed link0 < length (l_sent link0))%nat).
Proof. apply (queue_exactly_once_in_order (D := gmap bytes bytes) 3 link0), link0_reachable. Defined.

(**  None of the [std::logic_error]s of [on_confirm] and
    [_push_queue_items] is ever thrown on a running slave that confirms only
    what it was sent, and no undefined behaviour occurs. *)
Theorem queue_never_fails {D} `{LevelDB D} conn l r l' :
  link_reachable (D := D) conn l → link_step (D := D) conn l r l' → r = Ok tt.
Proof. intros Hl%link_reachable_ok Hs. by apply (link_step_ok conn l r l'). Qed.

Lemma queue_never_fails_witness :
  (on_confirm (∅ : gmap bytes bytes) 3 (l_client link0)).1.1 = Ok tt.
Proof.
  destruct (on_confirm (∅ : gmap bytes bytes) 3 (l_client link0)) as [[r c] ev] eqn:Hc.
  refine (queue_never_fails (D := gmap bytes bytes) 3 link0 r _ link0_reachable (step_confirm 3 link0 ∅ r c ev _ Hc)).
  apply (bool_decide_unpack _). vm_compute. exact I.
Defined.

(**  From every state of a running slave, confirmations and scheduled
    looks alone lead to a state in which every update that was enqueued has
    been sent and the queue is empty. *)
Theorem queue_drains {D} `{LevelDB D} (d : D) conn l :
  link_reachable (D := D) conn l →
  ∃ l', rtc (drain_step (D := D) conn) l l' ∧
    queue (l_client l') = [] ∧ l_sent l' = request conn <$> l_log l ∧ l_log l' = l_log l.
Proof.
  intros Hl%link_reachable_ok. destruct (drain conn d l Hl) as (l' & Hr & Hl' & Hq).
  pose proof (drain_log conn l l' Hr) as Hg. exists l'. split_and!; [done|done| |done].
  destruct Hl' as [_ Hlog Hconf Hsent _]. rewrite Hsent, <-Hg. f_equal.
  apply take_ge. rewrite Hq in Hlog. apply (f_equal length) in Hlog. rewrite length_drop in Hlog.
  simpl in Hlog. lia.
Qed.

Lemma queue_drains_witness :
  ∃ l', rtc (drain_step (D := gmap bytes bytes) 3) link0 l' ∧
    queue (l_client l') = [] ∧ l_sent l' = request 3 <$> l_log link0 ∧ l_log l' = l_log link0.
Proof. apply (queue_drains (D := gmap bytes bytes) ∅ 3 link0), link0_reachable. Defined.
