(* ===== verification/ReplicationSync.v ===== *)
(** * ReplicationSync: the first synchronisation of a slave

    What the portions of [_push_next_portion] and the updates that are queued
    meanwhile make of the slave's database, compared with the master's. *)

From S2P Require Import Prelude JsonParser Serializer JsonString JsonArray Queries LevelDb Replication ReplicationQueue.

#[local] Opaque portion_size.

Lemma filter_all {A} (P : A → Prop) `{∀ x, Decision (P x)} l : Forall P l → filter P l = l.
Proof. induction 1 as [|x l Hx Hl IH]; [done|]. by rewrite filter_cons_True, IH. Qed.
Lemma filter_none {A} (P : A → Prop) `{∀ x, Decision (P x)} l : Forall (λ x, ¬ P x) l → filter P l = [].
Proof. induction 1 as [|x l Hx Hl IH]; [done|]. by rewrite filter_cons_False. Qed.

(** ** Portions *)

(** The entries behind the key [from]; all of them for the empty key. *)
Definition after_key (from : bytes) (es : list (bytes * bytes)) : list (bytes * bytes) :=
  match from with
  | [] => es
  | _ :: _ => filter (λ kv, bytes_lt from kv.1) es
  end.

Lemma collect_spec n it data : collect n it data = Ok (data ++ take n (it_rest it)).
Proof.
  revert it data. induction n as [|n IH]; intros [all rest] data; simpl; [by rewrite app_nil_r|].
  destruct rest as [|[k v] rest]; [by rewrite app_nil_r|]. simpl. rewrite IH. simpl.
  unfold push_pair. by rewrite <-app_assoc.
Qed.

Lemma seek_split from l1 x l2 :
  Forall (λ kv, bytes_lt kv.1 from) l1 → bytes_le from x.1 → seek from (l1 ++ x :: l2) = x :: l2.
Proof.
  induction 1 as [|a l1 Ha Hl1 IH]; intros Hx; simpl.
  - destruct (bytes_ltb_spec x.1 from) as [Hlt|]; [|done]. by apply bytes_le_not_lt in Hx.
  - destruct (bytes_ltb_spec a.1 from); [by apply IH|done].
Qed.

Lemma next_data_spec {D} `{LevelDBLaws D} (d : D) from :
  (from = [] ∨ is_Some (contents d !! from)) →
  next_data d from = Ok (take portion_size (after_key from (sorted_entries (contents d)))).
Proof.
  intros Hfrom. unfold next_data. rewrite NewIterator_entries. simpl.
  pose proof (sorted_entries_ordered (contents d)) as Hord.
  destruct from as [|c from]; simpl.
  { by rewrite collect_spec. }
  destruct Hfrom as [|[v Hv]]; [done|]. apply elem_of_map_to_list in Hv.
  rewrite <-sorted_entries_perm in Hv. apply list_elem_of_split in Hv as (l1 & l2 & Hes).
  rewrite Hes in *. apply ordered_app in Hord as (H12 & Hl1 & Hl2).
  unfold Next, Seek. simpl. rewrite seek_split; [| |by apply bytes_le_lt_or_eq; right].
  2:{ apply Forall_forall. intros kv Hkv. apply (H12 kv (c :: from, v)); [done|apply list_elem_of_here]. }
  simpl. rewrite collect_spec. do 2 f_equal. simpl. f_equal.
  inversion Hl2 as [|? ? Hs Hall]; subst. rewrite Forall_forall in Hall.
  rewrite filter_app, filter_cons_False by (simpl; apply (irreflexivity bytes_lt)).
  rewrite (filter_all _ l2) by (apply Forall_forall; exact Hall).
  rewrite (filter_none _ l1); [done|].
  apply Forall_forall. intros kv Hkv Hlt.
  assert (bytes_lt kv.1 (c :: from)) as Hgt by (apply (H12 kv (c :: from, v)); [done|apply list_elem_of_here]).
  apply (irreflexivity bytes_lt (c :: from)). by etrans.
Qed.

(** ** What the slave does with the requests *)

Definition insert_all (m : gmap bytes bytes) (l : list (bytes * bytes)) : gmap bytes bytes :=
  foldl (λ m kv, <[kv.1 := kv.2]> m) m l.
Definition delete_all (m : gmap bytes bytes) (l : list bytes) : gmap bytes bytes :=
  foldl (λ m k, delete k m) m l.

Lemma insert_all_untouched m l k : k ∉ l.*1 → insert_all m l !! k = m !! k.
Proof.
  revert m. induction l as [|[k' v] l IH]; intros m Hk; [done|]. simpl in *.
  apply not_elem_of_cons in Hk as [Hne Hk]. rewrite IH by done. by rewrite lookup_insert_ne.
Qed.
Lemma insert_all_congr m1 m2 l k : m1 !! k = m2 !! k → insert_all m1 l !! k = insert_all m2 l !! k.
Proof.
  revert m1 m2. induction l as [|[k' v] l IH]; intros m1 m2 Hk; [done|]. simpl. apply IH.
  destruct (decide (k' = k)) as [<-|Hne]; [by rewrite !lookup_insert_eq|by rewrite !lookup_insert_ne].
Qed.
Lemma insert_all_filter (P : bytes * bytes → Prop) `{∀ x, Decision (P x)} m l k :
  (∀ v, (k, v) ∈ l → P (k, v)) → insert_all m (filter P l) !! k = insert_all m l !! k.
Proof.
  revert m. induction l as [|[k' v] l IH]; intros m Hk; [done|]. simpl.
  assert (∀ v, (k, v) ∈ l → P (k, v)) as Hk' by (intros w Hw; by apply Hk, list_elem_of_further).
  destruct (decide (P (k', v))) as [HP|HP].
  - rewrite filter_cons_True by done. simpl. by apply IH.
  - rewrite filter_cons_False by done. rewrite IH by done. apply insert_all_congr.
    rewrite lookup_insert_ne; [done|]. intros ->. apply HP, Hk, list_elem_of_here.
Qed.
Lemma delete_all_untouched m l k : k ∉ l → delete_all m l !! k = m !! k.
Proof.
  revert m. induction l as [|k' l IH]; intros m Hk; [done|]. simpl in *.
  apply not_elem_of_cons in Hk as [Hne Hk]. rewrite IH by done. by rewrite lookup_delete_ne.
Qed.
Lemma delete_all_congr m1 m2 l k : m1 !! k = m2 !! k → delete_all m1 l !! k = delete_all m2 l !! k.
Proof.
  revert m1 m2. induction l as [|k' l IH]; intros m1 m2 Hk; [done|]. simpl. apply IH.
  destruct (decide (k' = k)) as [<-|Hne]; [by rewrite !lookup_delete_eq|by rewrite !lookup_delete_ne].
Qed.
Lemma delete_all_filter (P : bytes → Prop) `{∀ x, Decision (P x)} m l k :
  (k ∈ l → P k) → delete_all m (filter P l) !! k = delete_all m l !! k.
Proof.
  revert m. induction l as [|k' l IH]; intros m Hk; [done|]. simpl.
  assert (k ∈ l → P k) as Hk' by (intros Hw; by apply Hk, list_elem_of_further).
  destruct (decide (P k')) as [HP|HP].
  - rewrite filter_cons_True by done. simpl. by apply IH.
  - rewrite filter_cons_False by done. rewrite IH by done. apply delete_all_congr.
    rewrite lookup_delete_ne; [done|]. intros ->. apply HP, Hk, list_elem_of_here.
Qed.

(** A request, as the [set] and [del] methods of the slave apply it. *)
Definition slave_apply (st : gmap bytes bytes) (r : rep_method * bytes) : gmap bytes bytes :=
  match r.1 with
  | _set_ | _set_range_ =>
      match unser valmap2str_json Foreign [] r.2 with
      | Ok (l, _) => insert_all st l
      | _ => st
      end
  | _del_ =>
      match unser vallist_json Foreign [] r.2 with
      | Ok (l, _) => delete_all st l
      | _ => st
      end
  end.

(** The requests among the events, and the requests that the queue will send. *)
Definition sent_requests (evs : list event) : list (rep_method * bytes) :=
  omap (λ e, match e with Request _ m p => Some (m, p) | _ => None end) evs.
Definition queued_requests (q : list (bytes * bytes)) : list (rep_method * bytes) :=
  omap (λ item, m ← command_method item.1; Some (m, item.2)) q.

(** The slave's database once it has applied all of these. *)
Definition slave_view (evs : list event) (q : list (bytes * bytes)) : gmap bytes bytes :=
  foldl slave_apply ∅ (sent_requests evs ++ queued_requests q).

Lemma slave_apply_congr st1 st2 r k : st1 !! k = st2 !! k → slave_apply st1 r !! k = slave_apply st2 r !! k.
Proof.
  intros Hk. unfold slave_apply. repeat case_match; eauto using insert_all_congr, delete_all_congr.
Qed.
Lemma slave_fold_congr st1 st2 rs k :
  st1 !! k = st2 !! k → foldl slave_apply st1 rs !! k = foldl slave_apply st2 rs !! k.
Proof.
  revert st1 st2. induction rs as [|r rs IH]; intros st1 st2 Hk; [done|]. by apply IH, slave_apply_congr.
Qed.

(** [below cur r]: the request touches keys below [cur] only. *)
Definition below (cur : bytes) (r : rep_method * bytes) : Prop :=
  ∀ st k, ¬ bytes_lt k cur → slave_apply st r !! k = st !! k.

Lemma below_fold cur st rs k :
  Forall (below cur) rs → ¬ bytes_lt k cur → foldl slave_apply st rs !! k = st !! k.
Proof.
  intros Hrs Hk. revert st. induction Hrs as [|r rs Hr Hrs IH]; intros st; [done|]. simpl.
  rewrite IH. by apply Hr.
Qed.

Lemma below_mono cur cur' r : bytes_le cur cur' → below cur r → below cur' r.
Proof.
  intros Hle Hr st k Hk. apply Hr. intros Hlt. apply Hk. apply bytes_le_lt_or_eq in Hle as [Hle| ->]; [|done].
  by etrans.
Qed.

Lemma slave_apply_set st l m :
  (m = _set_ ∨ m = _set_range_) → Forall str_pair l →
  ∃ s, ser valmap2str_json l = Ok s ∧ slave_apply st (m, s) = insert_all st l.
Proof.
  intros Hm Hl. destruct (round_trip (s := valmap2str_json) l Hl) as (s & Es & _ & Rs).
  exists s. split; [done|]. specialize (Rs Foreign [] I). rewrite app_nil_r in Rs.
  unfold slave_apply. cbn [fst snd]. change (dflt valmap2str_json) with ([] : valmap2str) in Rs.
  destruct Hm as [-> | ->]; by rewrite Rs.
Qed.
Lemma slave_apply_del st l :
  Forall utf8_text l →
  ∃ s, ser vallist_json l = Ok s ∧ slave_apply st (_del_, s) = delete_all st l.
Proof.
  intros Hl. destruct (round_trip (s := vallist_json) l Hl) as (s & Es & _ & Rs).
  exists s. split; [done|]. specialize (Rs Foreign [] I). rewrite app_nil_r in Rs.
  unfold slave_apply. cbn [fst snd]. change (dflt vallist_json) with ([] : vallist) in Rs. by rewrite Rs.
Qed.

(** The slave's [set] and [del] can read the parameters of a request. *)
Definition readable (rq : rep_method * bytes) : Prop :=
  match rq.1 with
  | _set_ | _set_range_ => ∃ l rest, unser valmap2str_json Foreign [] rq.2 = Ok (l, rest)
  | _del_ => ∃ l rest, unser vallist_json Foreign [] rq.2 = Ok (l, rest)
  end.

Lemma readable_set m l s :
  m = _set_ ∨ m = _set_range_ → Forall str_pair l → ser valmap2str_json l = Ok s → readable (m, s).
Proof.
  intros Hm Hl Es. destruct (round_trip (s := valmap2str_json) l Hl) as (s' & Es' & _ & Rs).
  rewrite Es in Es'. injection Es' as <-. specialize (Rs Foreign [] I). rewrite app_nil_r in Rs.
  unfold readable. destruct Hm as [-> | ->]; by do 2 eexists.
Qed.
Lemma readable_del l s : Forall utf8_text l → ser vallist_json l = Ok s → readable (_del_, s).
Proof.
  intros Hl Es. destruct (round_trip (s := vallist_json) l Hl) as (s' & Es' & _ & Rs).
  rewrite Es in Es'. injection Es' as <-. specialize (Rs Foreign [] I). rewrite app_nil_r in Rs.
  by do 2 eexists.
Qed.

(** An item of a queue that the slave will answer. *)
Definition deliverable (item : bytes * bytes) : Prop :=
  ∃ m, command_method item.1 = Some m ∧ readable (m, item.2).

Lemma deliverable_sendable item : deliverable item → sendable item.
Proof. intros (m & Hm & _). by exists m. Qed.

(** ** The invariant of a synchronisation

    [m] is the master's database. *)
Definition text_db (m : gmap bytes bytes) : Prop :=
  m !! [] = None ∧ map_Forall (λ k v, utf8_text k ∧ utf8_text v) m.

Record sync_ok (m : gmap bytes bytes) (c : Client_t) (evs : list event) : Prop := {
  sy_text : text_db m;
  sy_current : current c = [] ∨ is_Some (m !! current c);
  sy_behind k : current c ≠ [] → bytes_le k (current c) → slave_view evs (queue c) !! k = m !! k;
  sy_ahead k : bytes_lt (current c) k ∨ current c = [] → slave_view evs (queue c) !! k = None;
  sy_queue : Forall (below (current c)) (queued_requests (queue c));
  sy_items : Forall deliverable (queue c);
}.

Lemma bytes_lt_nil k : k ≠ [] ↔ bytes_lt [] k.
Proof. by destruct k. Qed.

Lemma after_key_lookup from m k v :
  m !! [] = None →
  (k, v) ∈ after_key from (sorted_entries m) ↔ bytes_lt from k ∧ m !! k = Some v.
Proof.
  intros Hnil. assert ((k, v) ∈ sorted_entries m ↔ m !! k = Some v) as Hin.
  { by rewrite sorted_entries_perm, elem_of_map_to_list. }
  destruct from as [|a from]; simpl.
  - rewrite Hin, <-bytes_lt_nil. naive_solver.
  - rewrite list_elem_of_filter, Hin. done.
Qed.

Lemma after_key_ordered from m : ordered (after_key from (sorted_entries m)).
Proof.
  pose proof (sorted_entries_ordered m) as Ho. destruct from as [|b from]; [done|]. simpl.
  unfold ordered in *. induction Ho as [|a l Hl IH Ha]; [constructor|].
  destruct (decide (bytes_lt (b :: from) a.1)).
  - rewrite filter_cons_True by done. constructor; [done|]. rewrite Forall_forall in *.
    intros x Hx. apply list_elem_of_filter in Hx as [_ Hx]. auto.
  - by rewrite filter_cons_False.
Qed.

(** The lookups of what a portion inserts. *)
Lemma insert_all_lookup st l k v : NoDup l.*1 → (k, v) ∈ l → insert_all st l !! k = Some v.
Proof.
  revert st. induction l as [|[k' v'] l IH]; intros st Hnd Hin; [by apply not_elem_of_nil in Hin|].
  apply NoDup_cons in Hnd as [Hfresh Hnd]. simpl in *. apply elem_of_cons in Hin as [[= -> ->]|Hin].
  - rewrite insert_all_untouched by done. apply lookup_insert_eq.
  - by apply IH.
Qed.

Lemma ordered_last_le l k v kl vl : ordered l → last l = Some (kl, vl) → (k, v) ∈ l → bytes_le k kl.
Proof.
  intros Ho Hl Hin. apply last_Some in Hl as [l' ->]. apply ordered_app in Ho as (H12 & _ & _).
  apply elem_of_app in Hin as [Hin|Hin].
  - apply bytes_le_lt_or_eq. left. apply (H12 (k, v) (kl, vl)); [done|apply list_elem_of_here].
  - apply list_elem_of_singleton in Hin as [= -> ->]. apply bytes_le_lt_or_eq. by right.
Qed.

Lemma elem_of_take_in {A} n (l : list A) x : x ∈ take n l → x ∈ l.
Proof. intros Hx. rewrite <-(take_drop n l). apply elem_of_app. by left. Qed.
Lemma ordered_take n l : ordered l → ordered (take n l).
Proof. rewrite <-(take_drop n l) at 1. rewrite ordered_app. tauto. Qed.

Lemma current_snoc ks k c : current (set_current_keys (ks ++ [k]) c) = k.
Proof. unfold current, set_current_keys. simpl. by rewrite last_snoc. Qed.

Lemma slave_view_app evs conn m p q :
  slave_view (evs ++ [Request conn m p]) q
  = foldl slave_apply (slave_apply (slave_view evs []) (m, p)) (queued_requests q).
Proof.
  unfold slave_view, sent_requests. rewrite omap_app. simpl. rewrite app_nil_r, <-app_assoc.
  by rewrite !foldl_app.
Qed.
Lemma slave_view_queue evs q : slave_view evs q = foldl slave_apply (slave_view evs []) (queued_requests q).
Proof. unfold slave_view. simpl. by rewrite app_nil_r, foldl_app. Qed.

(** A portion extends what agrees with the master up to its last key. *)
Lemma portion_view m c evs conn l s :
  sync_ok m c evs → l = take portion_size (after_key (current c) (sorted_entries m)) →
  ser valmap2str_json l = Ok s → (∀ st, slave_apply st (_set_, s) = insert_all st l) →
  ∀ k, slave_view (evs ++ [Request conn _set_ s]) (queue c) !! k
       = match insert_all ∅ l !! k with Some v => Some v | None => slave_view evs (queue c) !! k end.
Proof.
  intros Hc Hl Hs Hap k. rewrite slave_view_app, Hap.
  assert (∀ kv, kv ∈ l → bytes_lt (current c) kv.1) as Hlt.
  { intros [k1 v1] Hin. subst l. apply (after_key_lookup (current c) m k1 v1 (proj1 (sy_text _ _ _ Hc))).
    by eapply elem_of_take_in. }
  destruct (decide (k ∈ l.*1)) as [Hk|Hk].
  - apply list_elem_of_fmap in Hk as ([k1 v1] & Heq & Hin). simpl in Heq. subst k1.
    specialize (Hlt _ Hin). simpl in Hlt.
    assert (NoDup l.*1) as Hnd.
    { subst l. apply ordered_NoDup, ordered_take, after_key_ordered. }
    rewrite (below_fold (current c)); [|apply Hc|].
    + by rewrite !(insert_all_lookup _ l k v1).
    + intros Hgt. apply (irreflexivity bytes_lt k). by etrans.
  - rewrite (insert_all_untouched ∅) by done. rewrite lookup_empty.
    rewrite (slave_view_queue evs (queue c)). apply slave_fold_congr. by rewrite insert_all_untouched.
Qed.

(** [_push_next_portion] without its monad. *)
Lemma _push_next_portion_eq {D} `{LevelDB D} (d : D) conn from c l s :
  next_data d from = Ok l → ser valmap2str_json l = Ok s →
  _push_next_portion d conn from c =
    match last l with
    | Some kv => (Ok kv.1, set_current_keys (current_keys c ++ [kv.1]) c, [Request conn _set_ s])
    | None => (Ok from, set_current_keys (current_keys c ++ [from]) (set_state sync_finishing c),
               [Request conn _set_ s])
    end.
Proof.
  intros Hl Hs. unfold _push_next_portion, mbind, op_bind, op_lift. rewrite Hl, Hs.
  cbn beta iota. by destruct (last l).
Qed.

Lemma insert_all_empty l k v : NoDup l.*1 → insert_all ∅ l !! k = Some v ↔ (k, v) ∈ l.
Proof.
  intros Hnd. split; [|by apply insert_all_lookup]. intros Hk.
  destruct (decide (k ∈ l.*1)) as [Hin|Hin].
  - apply list_elem_of_fmap in Hin as ([k' v'] & Heq & Hin). simpl in Heq. subst k'.
    rewrite (insert_all_lookup ∅ l k v') in Hk by done. by simplify_eq.
  - by rewrite insert_all_untouched, lookup_empty in Hk.
Qed.

(** Where a key can be, with respect to the current one. *)
Lemma current_cases c k :
  (current c ≠ [] ∧ bytes_le k (current c)) ∨ (bytes_lt (current c) k ∨ current c = []).
Proof.
  destruct (decide (current c = [])); [by right; right|].
  destruct (decide (bytes_le k (current c))) as [|Hn]; [by left|]. right; left.
  destruct (bytes_trichotomy k (current c)) as [Hlt|[Heq|]]; [| |done];
    exfalso; apply Hn, bytes_le_lt_or_eq; auto.
Qed.

Section portion.
Context (m : gmap bytes bytes) (c : Client_t) (evs : list event) (conn : nat) (s : bytes).
Hypothesis Hc : sync_ok m c evs.
Let l := take portion_size (after_key (current c) (sorted_entries m)).
Hypothesis Hs : ser valmap2str_json l = Ok s.

Lemma portion_in k v : (k, v) ∈ l → bytes_lt (current c) k ∧ m !! k = Some v.
Proof using Hc.
  intros Hkv%elem_of_take_in. by apply (after_key_lookup _ _ _ _ (proj1 (sy_text _ _ _ Hc))).
Qed.

Lemma portion_text : Forall str_pair l.
Proof using Hc.
  apply Forall_forall. intros [k v] Hkv%portion_in. destruct Hkv as [_ Hkv].
  exact (proj2 (sy_text _ _ _ Hc) k v Hkv).
Qed.

Lemma portion_NoDup : NoDup l.*1.
Proof using Type. apply ordered_NoDup, ordered_take, after_key_ordered. Qed.

Lemma portion_applied st : slave_apply st (_set_, s) = insert_all st l.
Proof using Hc Hs.
  destruct (slave_apply_set st l _set_ (or_introl eq_refl) portion_text) as (s' & Es & Ha). congruence.
Qed.

Lemma portion_key k :
  slave_view (evs ++ [Request conn _set_ s]) (queue c) !! k
  = match insert_all ∅ l !! k with Some v => Some v | None => slave_view evs (queue c) !! k end.
Proof using Hc Hs. apply (portion_view m c evs conn l s Hc eq_refl Hs portion_applied). Qed.

(** After a portion that is not empty. *)
Lemma portion_more c' kl vl :
  last l = Some (kl, vl) → current c' = kl → queue c' = queue c →
  sync_ok m c' (evs ++ [Request conn _set_ s]).
Proof using Hc Hs.
  intros Hl Hcur Hq. assert (bytes_lt (current c) kl ∧ m !! kl = Some vl) as [Hlt Hm].
  { apply portion_in. apply last_Some in Hl as [l' ->]. apply elem_of_app. right. apply list_elem_of_here. }
  assert (kl ≠ []) as Hkl by (intros ->; by destruct (current c)).
  split; rewrite ?Hcur, ?Hq.
  - apply Hc.
  - right. by eexists.
  - intros k _ Hle. rewrite portion_key. destruct (insert_all ∅ l !! k) as [v|] eqn:Hk.
    { apply insert_all_empty, portion_in in Hk; [|apply portion_NoDup]. by destruct Hk. }
    destruct (current_cases c k) as [[Hne Hk']|Hk'].
    { by apply (sy_behind _ _ _ Hc). }
    rewrite (sy_ahead _ _ _ Hc) by done. destruct (m !! k) as [v|] eqn:Hmk; [exfalso|done].
    assert (k ≠ []) as Hk0.
    { intros ->. pose proof (proj1 (sy_text _ _ _ Hc)). congruence. }
    assert ((k, v) ∈ after_key (current c) (sorted_entries m)) as Hin.
    { apply after_key_lookup; [apply Hc|]. split; [|done].
      destruct Hk' as [|Hk']; [done|]. rewrite Hk'. by apply bytes_lt_nil. }
    rewrite <-(take_drop portion_size (after_key _ _)) in Hin. fold l in Hin.
    apply elem_of_app in Hin as [Hin|Hin].
    { apply insert_all_empty in Hin; [congruence|apply portion_NoDup]. }
    pose proof (after_key_ordered (current c) m) as Ho.
    rewrite <-(take_drop portion_size (after_key _ _)) in Ho. fold l in Ho.
    apply ordered_app in Ho as (H12 & _ & _).
    apply last_Some in Hl as [l' Hl'].
    assert (bytes_lt kl k) as Hgt.
    { apply (H12 (kl, vl) (k, v)); [|done]. rewrite Hl'. apply elem_of_app. right. apply list_elem_of_here. }
    by apply bytes_le_not_lt in Hle.
  - intros k [Hk|Hk]; [|done]. rewrite portion_key.
    destruct (insert_all ∅ l !! k) as [v|] eqn:Hi.
    { apply insert_all_empty in Hi; [|apply portion_NoDup]. exfalso.
      assert (bytes_le k kl) as Hle by (eapply ordered_last_le; [apply ordered_take, after_key_ordered|done|done]).
      by apply bytes_le_not_lt in Hle. }
    apply (sy_ahead _ _ _ Hc). left. by etrans.
  - eapply Forall_impl; [apply Hc|]. intros r Hr. eapply below_mono; [|exact Hr].
    apply bytes_le_lt_or_eq. by left.
  - apply Hc.
Qed.

(** After the empty portion: the slave has everything. *)
Lemma portion_end c' :
  last l = None → current c' = current c → queue c' = queue c →
  sync_ok m c' (evs ++ [Request conn _set_ s]) ∧
  ∀ k, slave_view (evs ++ [Request conn _set_ s]) (queue c') !! k = m !! k.
Proof using Hc Hs.
  intros Hl%last_None Hcur Hq.
  assert (∀ k, slave_view (evs ++ [Request conn _set_ s]) (queue c) !! k = slave_view evs (queue c) !! k) as Hv.
  { intros k. rewrite portion_key, Hl. simpl. by rewrite lookup_empty. }
  assert (after_key (current c) (sorted_entries m) = []) as Ha.
  { unfold l in Hl. destruct (after_key (current c) (sorted_entries m)); [done|].
    #[local] Transparent portion_size. done. }
  split.
  - destruct Hc as [H1 H2 H3 H4 H5 H6]. split; rewrite ?Hcur, ?Hq; [done|done| | |done|done];
      intros k; rewrite Hv; auto.
  - intros k. rewrite Hq, Hv. destruct (current_cases c k) as [[? ?]|Hk]; [by apply (sy_behind _ _ _ Hc)|].
    rewrite (sy_ahead _ _ _ Hc) by done. destruct (m !! k) as [v|] eqn:Hm; [exfalso|done].
    assert ((k, v) ∈ after_key (current c) (sorted_entries m)) as Hin; [|rewrite Ha in Hin; by apply not_elem_of_nil in Hin].
    apply after_key_lookup; [apply Hc|]. split; [|done]. destruct Hk as [|Hk]; [done|]. rewrite Hk.
    apply bytes_lt_nil. intros ->. pose proof (proj1 (sy_text _ _ _ Hc)). congruence.
Qed.
End portion.

(** One call of [_push_next_portion] from the current key. *)
Lemma push_portion_ok {D} `{LevelDBLaws D} (d : D) conn c c1 evs :
  sync_ok (contents d) c evs → queue c1 = queue c →
  ∃ c' ev, _push_next_portion d conn (current c) c1 = (Ok (current c'), c', ev) ∧
    sync_ok (contents d) c' (evs ++ ev) ∧ queue c' = queue c ∧ current_keys c' ≠ [] ∧
    (state c' = state c1 ∨
     state c' = sync_finishing ∧ ∀ k, slave_view (evs ++ ev) (queue c') !! k = contents d !! k).
Proof.
  intros Hc Hq. set (l := take portion_size (after_key (current c) (sorted_entries (contents d)))).
  destruct (valmap2str_total l) as [s Es].
  assert (Hnext : next_data d (current c) = Ok l) by (apply next_data_spec; by apply Hc).
  rewrite (_push_next_portion_eq d conn _ c1 l s Hnext Es).
  destruct (last l) as [[kl vl]|] eqn:Hl; do 2 eexists.
  - rewrite current_snoc. split_and!; [reflexivity| |done|by destruct (current_keys c1)|by left].
    apply (portion_more _ c evs conn s Hc Es _ kl vl Hl); [apply current_snoc|done].
  - rewrite current_snoc. destruct (portion_end _ c evs conn s Hc Es
      (set_current_keys (current_keys c1 ++ [current c]) (set_state sync_finishing c1)) Hl) as [Hok Hall];
      [apply current_snoc|done|].
    split_and!; [reflexivity|exact Hok|done|simpl; by destruct (current_keys c1)|by right].
Qed.

(** ** Updates during the synchronisation *)

Lemma queued_requests_app q item m :
  command_method item.1 = Some m → queued_requests (q ++ [item]) = queued_requests q ++ [(m, item.2)].
Proof. intros Hm. unfold queued_requests. rewrite omap_app. simpl. by rewrite Hm. Qed.

Lemma slave_view_snoc evs q item m :
  command_method item.1 = Some m →
  slave_view evs (q ++ [item]) = slave_apply (slave_view evs q) (m, item.2).
Proof.
  intros Hm. unfold slave_view. by rewrite (queued_requests_app _ _ _ Hm), app_assoc, foldl_snoc.
Qed.

(** An update of the master's database that the client has been told of: the
    effect is the same on the keys behind [current], none on the others. *)
Lemma update_queued m m' c evs cmd meth s :
  sync_ok m c evs → text_db m' → command_method cmd = Some meth →
  is_Some (m' !! current c) ∨ current c = [] →
  below (current c) (meth, s) → readable (meth, s) →
  (∀ st k, st !! k = m !! k → current c ≠ [] → bytes_le k (current c) →
     slave_apply st (meth, s) !! k = m' !! k) →
  sync_ok m' (enqueue (cmd, s) c) evs.
Proof.
  intros Hc Htext Hcmd Hcur Hb Hread Hap.
  split; change (current (enqueue (cmd, s) c)) with (current c);
    change (queue (enqueue (cmd, s) c)) with (queue c ++ [(cmd, s)]).
  - done.
  - tauto.
  - intros k Hne Hle. rewrite (slave_view_snoc _ _ _ meth) by done.
    apply Hap; [|done|done]. by apply (sy_behind _ _ _ Hc).
  - intros k Hk. rewrite (slave_view_snoc _ _ _ meth) by done. rewrite Hb.
    + by apply (sy_ahead _ _ _ Hc).
    + destruct Hk as [Hk| ->]; [|by destruct k]. intros Hlt.
      apply (irreflexivity bytes_lt k). by etrans.
  - rewrite (queued_requests_app _ _ meth) by done. apply Forall_app_2; [apply Hc|]. by constructor.
  - apply Forall_app_2; [apply Hc|]. by repeat constructor; exists meth.
Qed.

(** An update that the client is not told of touches no key up to [current]. *)
Lemma update_ahead m m' c evs :
  sync_ok m c evs → text_db m' → is_Some (m' !! current c) ∨ current c = [] →
  (∀ k, current c ≠ [] → bytes_le k (current c) → m' !! k = m !! k) →
  sync_ok m' c evs.
Proof.
  intros [H1 H2 H3 H4 H5 H6] Htext Hcur Hm. split; [done|tauto| |done|done|done].
  intros k Hne Hle. rewrite Hm by done. auto.
Qed.

Lemma text_db_insert_all m l :
  text_db m → Forall (λ kv, kv.1 ≠ [] ∧ str_pair kv) l → text_db (insert_all m l).
Proof.
  intros Hm Hl. revert m Hm. induction Hl as [|[k v] l [Hne [Hk Hv]] Hl IH]; intros m Hm; [done|].
  apply IH. destruct Hm as [Hnil Hm]. split.
  - by rewrite lookup_insert_ne.
  - by apply map_Forall_insert_2.
Qed.
Lemma text_db_delete_all m l : text_db m → text_db (delete_all m l).
Proof.
  revert m. induction l as [|k l IH]; intros m Hm; [done|]. apply IH. destruct Hm as [Hnil Hm]. split.
  - destruct (decide (k = [])) as [->|]; [apply lookup_delete_eq|by rewrite lookup_delete_ne].
  - by apply map_Forall_delete.
Qed.

Lemma lt_le_not_current c k : bytes_le k (current c) → k ≠ current c → bytes_lt k (current c).
Proof. intros Hle%bytes_le_lt_or_eq Hne. by destruct Hle. Qed.

Lemma set_synced m c c' evs data :
  sync_ok m c evs → state c = syncing →
  Forall (λ kv, kv.1 ≠ [] ∧ str_pair kv) data → current c ∉ data.*1 →
  send_to_client valmap2str_json fst (str "set") data c = Ok c' →
  sync_ok (insert_all m data) c' evs.
Proof.
  intros Hc Hst Hdata Hcur. unfold send_to_client. rewrite Hst.
  assert (Hm' : text_db (insert_all m data)) by (apply text_db_insert_all; [apply Hc|done]).
  assert (Hcm : is_Some (insert_all m data !! current c) ∨ current c = []).
  { rewrite insert_all_untouched by done. pose proof (sy_current _ _ _ Hc). tauto. }
  assert (∃ partial, filter (λ a, bytes_lt a.1 (current c)) data = partial ∧
    Forall (λ kv, bytes_lt kv.1 (current c) ∧ str_pair kv) partial ∧
    ∀ st k, st !! k = m !! k → bytes_le k (current c) →
      insert_all st partial !! k = insert_all m data !! k) as (partial & Hp & Hpt & Hsame).
  { eexists. split; [reflexivity|]. split.
    - apply Forall_forall. intros kv [Hlt Hin]%list_elem_of_filter. rewrite Forall_forall in Hdata.
      by destruct (Hdata kv Hin).
    - intros st k Hk Hle. rewrite insert_all_filter; [by apply insert_all_congr|].
      intros v Hin. apply (lt_le_not_current c k Hle). intros ->. apply Hcur.
      by apply (list_elem_of_fmap_2 fst _ (current c, v)). }
  rewrite Hp. clear Hp. destruct partial as [|x xs].
  { intros [= <-]. apply (update_ahead m); [done|done|done|]. intros k _ Hle. by rewrite <-(Hsame m k). }
  intros Hs. unfold send in Hs. apply bind_Ok in Hs as (s & Es & [= <-]).
  assert (Hap : ∀ st, slave_apply st (_set_, s) = insert_all st (x :: xs)).
  { intros st. destruct (slave_apply_set st (x :: xs) _set_ (or_introl eq_refl)) as (s' & Es' & Ha).
    - eapply Forall_impl; [exact Hpt|]. by intros ? [_ ?].
    - change (ser valmap2str_json (x :: xs) = Ok s) in Es. congruence. }
  apply (update_queued m _ c evs (str "set") _set_ s); [done|done|reflexivity|done| | |].
  - intros st k Hk. rewrite Hap. apply insert_all_untouched. intros Hin. apply Hk.
    apply list_elem_of_fmap in Hin as (kv & -> & Hin). rewrite Forall_forall in Hpt. by apply Hpt.
  - apply (readable_set _set_ (x :: xs)); [by left| |done].
    eapply Forall_impl; [exact Hpt|]. by intros ? [_ ?].
  - intros st k Hk _ Hle. rewrite Hap. by apply Hsame.
Qed.

Lemma del_synced m c c' evs keys :
  sync_ok m c evs → state c = syncing →
  Forall utf8_text keys → current c ∉ keys →
  send_to_client vallist_json id (str "del") keys c = Ok c' →
  sync_ok (delete_all m keys) c' evs.
Proof.
  intros Hc Hst Hdata Hcur. unfold send_to_client. rewrite Hst.
  assert (Hm' : text_db (delete_all m keys)) by (apply text_db_delete_all, Hc).
  assert (Hcm : is_Some (delete_all m keys !! current c) ∨ current c = []).
  { rewrite delete_all_untouched by done. pose proof (sy_current _ _ _ Hc). tauto. }
  assert (∃ partial, filter (λ a, bytes_lt (id a) (current c)) keys = partial ∧
    Forall (λ k, bytes_lt k (current c) ∧ utf8_text k) partial ∧
    ∀ st k, st !! k = m !! k → bytes_le k (current c) →
      delete_all st partial !! k = delete_all m keys !! k) as (partial & Hp & Hpt & Hsame).
  { eexists. split; [reflexivity|]. split.
    - apply Forall_forall. intros k [Hlt Hin]%list_elem_of_filter. rewrite Forall_forall in Hdata. auto.
    - intros st k Hk Hle. rewrite delete_all_filter; [by apply delete_all_congr|].
      intros Hin. apply (lt_le_not_current c k Hle). by intros ->. }
  rewrite Hp. clear Hp. destruct partial as [|x xs].
  { intros [= <-]. apply (update_ahead m); [done|done|done|]. intros k _ Hle. by rewrite <-(Hsame m k). }
  intros Hs. unfold send in Hs. apply bind_Ok in Hs as (s & Es & [= <-]).
  assert (Hap : ∀ st, slave_apply st (_del_, s) = delete_all st (x :: xs)).
  { intros st. destruct (slave_apply_del st (x :: xs)) as (s' & Es' & Ha).
    - eapply Forall_impl; [exact Hpt|]. by intros ? [_ ?].
    - change (ser vallist_json (x :: xs) = Ok s) in Es. congruence. }
  apply (update_queued m _ c evs (str "del") _del_ s); [done|done|reflexivity|done| | |].
  - intros st k Hk. rewrite Hap. apply delete_all_untouched. intros Hin. apply Hk.
    rewrite Forall_forall in Hpt. by apply Hpt.
  - apply (readable_del (x :: xs)); [|done]. eapply Forall_impl; [exact Hpt|]. by intros ? [_ ?].
  - intros st k Hk _ Hle. rewrite Hap. by apply Hsame.
Qed.

(** ** A synchronisation, step by step *)

Section sync.
Context {D : Type} `{LevelDBLaws D} (conn : nat).

(** The master's database, the client and the events so far.  Updates change
    the database and are handed to the client while it is [syncing]; each
    confirmation is answered by the next portion. *)
Definition sync_conf : Type := D * Client_t * list event.

Inductive sync_init : sync_conf → Prop :=
  | si_start d c r c' ev :
      text_db (contents d) → queue c = [] → current_keys c = [] →
      sync_initial d conn c = (r, c', ev) →
      sync_init (d, c', ev).

Inductive sync_step : sync_conf → sync_conf → Prop :=
  | ss_set d c evs data d' c' :
      state c = syncing → Forall (λ kv, kv.1 ≠ [] ∧ str_pair kv) data → current c ∉ data.*1 →
      contents d' = insert_all (contents d) data →
      send_to_client valmap2str_json fst (str "set") data c = Ok c' →
      sync_step (d, c, evs) (d', c', evs)
  | ss_del d c evs keys d' c' :
      state c = syncing → Forall utf8_text keys → current c ∉ keys →
      contents d' = delete_all (contents d) keys →
      send_to_client vallist_json id (str "del") keys c = Ok c' →
      sync_step (d, c, evs) (d', c', evs)
  | ss_confirm d c evs r c' ev :
      state c = syncing →
      on_confirm d conn c = (r, c', ev) →
      sync_step (d, c, evs) (d, c', evs ++ ev).

Definition conf_ok (x : sync_conf) : Prop :=
  let '(d, c, evs) := x in
  sync_ok (contents d) c evs ∧ current_keys c ≠ [] ∧
  (state c = syncing ∨
   state c = sync_finishing ∧ ∀ k, slave_view evs (queue c) !! k = contents d !! k).

Lemma push_portions_ok n (d : D) c evs :
  sync_ok (contents d) c evs → current_keys c ≠ [] ∨ (0 < n)%nat →
  ∃ c' ev, push_portions d n conn (current c) c = (Ok (current c'), c', ev) ∧
    sync_ok (contents d) c' (evs ++ ev) ∧ current_keys c' ≠ [].
Proof.
  revert c evs. induction n as [|n IH]; intros c evs Hc Hne.
  - exists c, []. split_and!; [done|by rewrite app_nil_r|]. destruct Hne; [done|lia].
  - destruct (push_portion_ok d conn c c evs Hc eq_refl) as (c1 & ev1 & Hp & Hc1 & _ & Hk1 & _).
    destruct (IH c1 (evs ++ ev1) Hc1 (or_introl Hk1)) as (c2 & ev2 & Hps & Hc2 & Hk2).
    exists c2, (ev1 ++ ev2). cbn [push_portions].
    rewrite (op_bind_Ok _ _ _ _ _ _ Hp), Hps. split_and!; [done|by rewrite app_assoc|done].
Qed.

Lemma sync_init_ok x : sync_init x → conf_ok x.
Proof.
  intros [d c r c' ev Htext Hq Hk Hs].
  assert (sync_ok (contents d) c []) as Hc.
  { assert (current c = []) as Hcur by (unfold current; by rewrite Hk).
    split; rewrite ?Hcur, ?Hq; [done|by left|done| |by constructor|by constructor].
    intros k _. unfold slave_view. simpl. apply lookup_empty. }
  destruct (push_portions_ok (Z.to_nat pipeline_size) d c [] Hc) as (c1 & ev1 & Hp & Hc1 & Hk1);
    [right; unfold pipeline_size; lia|].
  assert (current c = []) as Hcur by (unfold current; by rewrite Hk). rewrite Hcur in Hp.
  unfold sync_initial in Hs. rewrite (op_bind_Ok _ _ _ _ _ _ Hp) in Hs.
  unfold op_modify in Hs. injection Hs as <- <- <-. rewrite app_nil_r in *.
  split_and!; [|done|by left]. destruct Hc1. by split.
Qed.

Lemma on_confirm_syncing (d : D) c :
  state c = syncing → current_keys c ≠ [] →
  on_confirm d conn c
  = (_push_next_portion d conn (current c);; mret tt) (set_current_keys (tail (current_keys c)) c).
Proof.
  intros Hst Hk. unfold on_confirm, mbind, op_bind, op_get. cbn beta iota. rewrite Hst.
  unfold current. destruct (last (current_keys c)) as [k|] eqn:Hl; [|by apply last_None in Hl].
  cbn beta iota. unfold op_modify. cbn beta iota.
  destruct (decide (syncing = syncing)) as [_|]; [|done].
  by destruct (_push_next_portion d conn k _) as [[[] ?] ?].
Qed.

Lemma sync_step_ok x y : conf_ok x → sync_step x y → conf_ok y.
Proof.
  intros Hx Hxy.
  destruct Hxy as [d c evs data d' c' Hst Hdata Hcur Hd Hs|d c evs keys d' c' Hst Hdata Hcur Hd Hs
            |d c evs r c' ev Hst Hs]; unfold conf_ok in *; destruct Hx as (Hc & Hk & _).
  - rewrite Hd. split; [by eapply set_synced|]. unfold send_to_client in Hs. rewrite Hst in Hs.
    destruct (filter _ data); [simplify_eq; eauto|]. unfold send in Hs.
    apply bind_Ok in Hs as (s & _ & [= <-]). simpl. eauto.
  - rewrite Hd. split; [by eapply del_synced|]. unfold send_to_client in Hs. rewrite Hst in Hs.
    destruct (filter _ keys); [simplify_eq; eauto|]. unfold send in Hs.
    apply bind_Ok in Hs as (s & _ & [= <-]). simpl. eauto.
  - rewrite on_confirm_syncing in Hs by done.
    destruct (push_portion_ok d conn c (set_current_keys (tail (current_keys c)) c) evs Hc eq_refl)
      as (c1 & ev1 & Hp & Hc1 & Hq1 & Hk1 & Hst1).
    rewrite (op_bind_Ok _ _ _ _ _ _ Hp) in Hs. cbn in Hs. rewrite app_nil_r in Hs.
    injection Hs as <- <- <-. split_and!; [done|done|].
    destruct Hst1 as [Hs1|Hs1]; [left; by rewrite Hs1|by right].
Qed.

Definition sync_reachable (x : sync_conf) : Prop := ∃ x0, sync_init x0 ∧ rtc sync_step x0 x.

Lemma sync_reachable_ok x : sync_reachable x → conf_ok x.
Proof.
  intros (x0 & Hi & Hr). apply sync_init_ok in Hi. induction Hr as [|x y z Hxy Hyz IH]; [done|].
  apply IH. by apply (sync_step_ok x y).
Qed.
End sync.

(** ** Properties *)

(** C6.  While a slave is being synchronised, updates of keys other than the
    current one and confirmations may come in any order: the slave, once it
    has applied what it was sent and what is queued for it, agrees with the
    master on every key up to [current()]; when the last portion has been
    sent it has exactly the master's database; and no confirmation fails. *)
Theorem sync_slave_follows_master {D} `{LevelDBLaws D} conn (d : D) c evs :
  sync_reachable conn (d, c, evs) →
  (∀ k, current c ≠ [] → bytes_le k (current c) → slave_view evs (queue c) !! k = contents d !! k) ∧
  (state c = sync_finishing → slave_view evs (queue c) = contents d) ∧
  (state c = syncing → ∃ c' ev, on_confirm d conn c = (Ok tt, c', ev)).
Proof.
  intros Hr. destruct (sync_reachable_ok conn _ Hr) as (Hc & Hk & Hst). split_and!.
  - apply Hc.
  - intros Hfin. apply map_eq. destruct Hst as [Hs|[_ Hs]]; [congruence|done].
  - intros Hs. destruct (push_portion_ok d conn c (set_current_keys (tail (current_keys c)) c) evs Hc eq_refl)
      as (c1 & ev1 & Hp & _). rewrite on_confirm_syncing by done.
    rewrite (op_bind_Ok _ _ _ _ _ _ Hp). cbn. by do 2 eexists.
Qed.

(** The witness: a master with two entries, an update of a key behind the
    current one, and a confirmation. *)
Definition start_conf (d : gmap bytes bytes) (c : Client_t) : sync_conf (D := gmap bytes bytes) :=
  let '(_, c, ev) := sync_initial d 7 c in (d, c, ev).
Definition confirm_conf (x : sync_conf (D := gmap bytes bytes)) : sync_conf (D := gmap bytes bytes) :=
  let '(_, c, ev) := on_confirm x.1.1 7 x.1.2 in (x.1.1, c, x.2 ++ ev).
Definition master0 : gmap bytes bytes := {[ str "a" := str "1"; str "b" := str "2" ]}.
Definition conf0 : sync_conf (D := gmap bytes bytes) := start_conf master0 (new_client 0 (str "s")).
Definition conf1 : sync_conf (D := gmap bytes bytes) :=
  (<[str "a" := str "3"]> conf0.1.1, enqueue (str "set", js "{'a':'3'}") conf0.1.2, conf0.2).
Definition conf2 : sync_conf (D := gmap bytes bytes) := confirm_conf conf1.

Lemma start_conf_init (d : gmap bytes bytes) c :
  text_db d → queue c = [] → current_keys c = [] → sync_init 7 (start_conf d c).
Proof.
  intros Hd Hq Hk. unfold start_conf. destruct (sync_initial d 7 c) as [[r c'] ev] eqn:Hs.
  by apply (si_start 7 d c r).
Qed.
Lemma confirm_conf_step x : state x.1.2 = syncing → sync_step 7 x (confirm_conf x).
Proof.
  destruct x as [[d c] evs]. unfold confirm_conf. simpl. intros Hst.
  destruct (on_confirm d 7 c) as [[r c'] ev] eqn:Hs. by apply (ss_confirm 7 d c evs r).
Qed.
Lemma set_conf_step (x : sync_conf (D := gmap bytes bytes)) data c' :
  state x.1.2 = syncing → Forall (λ kv, kv.1 ≠ [] ∧ str_pair kv) data → current x.1.2 ∉ data.*1 →
  send_to_client valmap2str_json fst (str "set") data x.1.2 = Ok c' →
  sync_step 7 x (insert_all x.1.1 data, c', x.2).
Proof. destruct x as [[d c] evs]. simpl. intros. by apply (ss_set 7 d c evs data). Qed.

Lemma conf2_reachable : sync_reachable 7 conf2.
Proof.
  exists conf0. split.
  { apply start_conf_init; [|done|done].
    split; [reflexivity|]. apply map_Forall_insert_2; [|apply map_Forall_singleton];
      split; vm_compute; reflexivity. }
  eapply rtc_l; [|apply rtc_once, confirm_conf_step; vm_compute; reflexivity].
  apply (set_conf_step conf0 [(str "a", str "3")]).
  - vm_compute. reflexivity.
  - repeat constructor; vm_compute; (discriminate || reflexivity).
  - apply (bool_decide_unpack _). vm_compute. exact I.
  - vm_compute. reflexivity.
Qed.

Lemma sync_slave_follows_master_witness :
  slave_view conf2.2 (queue conf2.1.2) = contents conf2.1.1.
Proof.
  assert (sync_reachable 7 (conf2.1.1, conf2.1.2, conf2.2)) as Hr.
  { pose proof conf2_reachable as Hr. by destruct conf2 as [[d c] evs]. }
  destruct (sync_slave_follows_master 7 conf2.1.1 conf2.1.2 conf2.2 Hr) as (_ & Hfin & _).
  apply Hfin. vm_compute. reflexivity.
Defined.

(** When the key that a portion ended with is deleted before the next
    portion is asked for, the next portion leaves out the entry behind it:
    [Seek] already stands on that entry, and [Next] steps over it. *)
Theorem next_portion_skips_an_entry {D} `{LevelDBLaws D} (d : D) from l1 x l2 :
  from ≠ [] → sorted_entries (contents d) = l1 ++ x :: l2 →
  Forall (λ kv, bytes_lt kv.1 from) l1 → bytes_lt from x.1 →
  next_data d from = Ok (take portion_size l2) ∧ x ∈ after_key from (sorted_entries (contents d)).
Proof.
  intros Hne Hes Hl1 Hx. destruct from as [|a from]; [done|]. split.
  - unfold next_data. rewrite NewIterator_entries, Hes. unfold Next, Seek. cbn [it_rest it_all].
    rewrite seek_split by (done || by apply bytes_le_lt_or_eq; left).
    unfold mbind, res_bind. by rewrite collect_spec.
  - simpl. apply list_elem_of_filter. split; [done|]. rewrite Hes. apply elem_of_app. right.
    apply list_elem_of_here.
Qed.

Lemma next_portion_skips_an_entry_witness :
  let d : gmap bytes bytes := {[ str "a" := str "1"; str "c" := str "3"; str "d" := str "4" ]} in
  next_data d (str "b") = Ok (take portion_size [(str "d", str "4")]) ∧
  (str "c", str "3") ∈ after_key (str "b") (sorted_entries (contents d)).
Proof.
  intros d. apply (next_portion_skips_an_entry d (str "b") [(str "a", str "1")]).
  - discriminate.
  - vm_compute. reflexivity.
  - repeat constructor.
  - vm_compute. reflexivity.
Defined.

(**  An update of exactly the current key of a slave that is being
    synchronised is not queued for it, although the portion with the old
    value has been sent; and in the state [sync_finishing] no update at all
    is queued. *)
Theorem update_not_queued {A} (T : serializer (list A)) key_of cmd data c :
  (state c = syncing ∧ Forall (λ a, key_of a = current c) data) ∨ state c = sync_finishing →
  send_to_client T key_of cmd data c = Ok c.
Proof.
  unfold send_to_client. intros [[-> Hd]| ->]; [|done].
  rewrite filter_none; [done|]. eapply Forall_impl; [exact Hd|]. intros a -> Hlt.
  by apply (irreflexivity bytes_lt) in Hlt.
Qed.

Lemma update_not_queued_witness :
  send_to_client valmap2str_json fst (str "set") [(str "b", str "9")] conf0.1.2 = Ok conf0.1.2.
Proof. apply update_not_queued. left. split; [|repeat constructor]; vm_compute; reflexivity. Defined.
