(* ===== verification/Methods.v ===== *)
(** * Methods: [src/fas_methods.hpp]

    The methods of the daemon: each handler reads and writes the database,
    fills its result and hands the update to the replication. *)

From S2P Require Import Prelude JsonParser JsonNumber Serializer JsonString JsonArray JsonObject Queries.
From S2P Require Import LevelDb Replication.

(** ** The world of a handler

    The database, the table of slaves and, per connection, the [clid] that
    [rep_setstate] keeps in its advice object. *)
Record world (D : Type) := World {
  w_db : D;
  w_replication : Replication;
  w_clid : gmap nat bytes;
}.
Arguments World {D} _ _ _.
Arguments w_db {D} _.
Arguments w_replication {D} _.
Arguments w_clid {D} _.

(** A handler returns whether there is an answer, and the answer. *)
Abbreviation handler D R := (op (world D) (bool * R)).

Section methods.
Context {D : Type} `{LevelDB D} `{HashOrder}.

Definition set_db (d : D) (w : world D) : world D := World d (w_replication w) (w_clid w).
Definition set_replication (r : Replication) (w : world D) : world D := World (w_db w) r (w_clid w).

Definition db_Get (k : bytes) : op (world D) (option bytes) := op_get (λ w, Get (w_db w) k).
Definition db_Put (k v : bytes) : op (world D) bool :=
  λ w, let '(ok, d) := Put (w_db w) k v in (Ok ok, set_db d w, []).
Definition db_Delete (k : bytes) : op (world D) bool :=
  λ w, let '(ok, d) := Delete (w_db w) k in (Ok ok, set_db d w, []).

(** A call of a member function of [replication]. *)
Definition on_replication (f : Replication → res Replication) : op (world D) unit :=
  λ w, match f (w_replication w) with
       | Ok r => (Ok tt, set_replication r w, [])
       | Throw x => (Throw x, w, [])
       | Undef => (Undef, w, [])
       | NoFuel => (NoFuel, w, [])
       end.

(** A call that also sends, with the database at hand. *)
Definition with_replication (f : D → Replication → res unit * Replication * list event)
    : op (world D) unit :=
  λ w, let '(r, rep, ev) := f (w_db w) (w_replication w) in (r, set_replication rep w, ev).

(** ** [rep_status], [rep_setstate] *)

(* src: src/fas_methods.hpp 38-43 rep_status::request *)
Fixpoint status_entries (cs : list (bytes * Client_t)) (first : bool) : res bytes :=
  match cs with
  | [] => Ok []
  | (id, c) :: cs =>
      s ← write_status c;
      r ← status_entries cs false;
      mret ((if first then [] else str ",") ++ js "'" ++ id ++ js "':" ++ s ++ r)
  end.

(* src: src/fas_methods.hpp 33-47 rep_status::request *)
Definition rep_status : handler D bytes :=
  r ← op_get w_replication;
  s ← op_lift (status_entries (hash_order (repClients r)) true);
  mret (true, str "{" ++ s ++ str "}").

(** [result] is what the caller's variable holds: it is not assigned. *)
(* src: src/fas_methods.hpp 60-65 rep_setstate::request *)
Definition rep_setstate (conn : nat) (cmd : rep_setstate_request) (result : bool) : handler D bool :=
  op_modify (λ w, World (w_db w) (w_replication w) (<[conn := rs_id cmd]> (w_clid w)));;
  with_replication (λ d, add_client d (rs_id cmd) (rs_state cmd) conn);;
  mret (true, result).

(* src: src/fas_methods.hpp 57-58 rep_setstate::clear *)
Definition rep_setstate_clear (conn : nat) : op (world D) unit :=
  op_modify (λ w, World (w_db w) (w_replication w) (<[conn := []]> (w_clid w))).

(* src: src/fas_methods.hpp 66-68 rep_setstate::response *)
Definition rep_setstate_response (result : bool) : op (world D) bool := mret true.

(** ** [get], [get_range] *)

(* src: src/fas_methods.hpp 87-92 get::request *)
Fixpoint get_loop (cmd : vallist) (result : valmap2str) : op (world D) valmap2str :=
  match cmd with
  | [] => mret result
  | k :: cmd =>
      r ← db_Get k;
      get_loop cmd (match r with Some r => push_pair result k r | None => result end)
  end.

(* src: src/fas_methods.hpp 85-94 get::request *)
Definition get (cmd : vallist) (result : valmap2str) : handler D valmap2str :=
  result ← get_loop cmd result; mret (true, result).

(** The loop over the iterator, from the entries [rest] on. *)
(* src: src/fas_methods.hpp 119-127 get_range::request *)
Fixpoint range_loop (to : bytes) (total_limit skip count : Z) (rest : list (bytes * bytes))
    (result : valmap2str) : valmap2str :=
  match rest with
  | [] => result
  | (k, v) :: rest =>
      if ((match to with [] => true | _ => false end) || bytes_leb k to) && (count <? total_limit) then
        range_loop to total_limit skip (count + 1) rest
          (if skip <=? count then push_pair result k v else result)
      else result
  end.

(* src: src/fas_methods.hpp 102-130 get_range::request *)
Definition get_range (cmd : get_range_request) (result : valmap2str) : handler D valmap2str :=
  if gr_limit cmd <? 0 then mret (false, result)
  else if gr_skip cmd <? 0 then mret (false, result)
  else
    total_limit ← op_lift (int_op int_t (gr_limit cmd + gr_skip cmd));
    if 11000 <? total_limit then mret (false, result)
    else
      d ← op_get w_db;
      let it := Iterator (NewIterator d) [] in
      let it := match gr_from cmd with [] => SeekToFirst it | _ => Seek (gr_from cmd) it end in
      mret (true, range_loop (gr_to cmd) total_limit (gr_skip cmd) 0 (it_rest it) result).

(** ** [set], [set_range], [del] *)

(* src: src/fas_methods.hpp 180-182 set::request *)
Fixpoint put_loop (cmd : valmap2str) (b : bool) : op (world D) bool :=
  match cmd with
  | [] => mret b
  | (k, v) :: cmd =>
      ok ← db_Put k v;
      put_loop cmd (if ok : bool then b else false)
  end.

(* src: src/fas_methods.hpp 178-186 set::request *)
Definition set (cmd : valmap2str) : handler D bool :=
  b ← put_loop cmd true;
  on_replication (rep_set cmd);;
  mret (true, b).

(* src: src/fas_methods.hpp 144-161 set_range::request *)
Definition set_range (cmd : valmap2str) (result : bool) : handler D bool :=
  match cmd with
  | [] => mret (true, result)
  | _ =>
      b ← put_loop cmd true;
      on_replication (rep_set_range cmd);;
      mret (true, b)
  end.

(* src: src/fas_methods.hpp 204-207 del::request *)
Fixpoint del_loop (cmd : vallist) (result : valmap2bool) : op (world D) valmap2bool :=
  match cmd with
  | [] => mret result
  | k :: cmd =>
      ok ← db_Delete k;
      del_loop cmd (push_pair result k ok)
  end.

(* src: src/fas_methods.hpp 202-210 del::request *)
Definition del (cmd : vallist) (result : valmap2bool) : handler D valmap2bool :=
  result ← del_loop cmd result;
  on_replication (rep_del cmd);;
  mret (true, result).

(** The answer of a slave to a request of the master, the same for [set],
    [set_range] and [del]: it confirms to the client of its connection. *)
(* src: src/fas_methods.hpp 187-192 set::response *)
Definition response (conn : nat) : op (world D) bool :=
  w ← op_get id;
  let clid := default [] (w_clid w !! conn) in
  match repClients (w_replication w) !! clid with
  | None => mret false
  | Some _ =>
      with_replication (λ d, on_client clid (on_confirm d conn));;
      mret true
  end.

(** ** [add], [inc], [inc_add] *)

(* src: src/fas_methods.hpp 227-241 add::request *)
Fixpoint add_loop (cmd repl : valmap2str) (result : valmap2bool)
    : op (world D) (valmap2str * valmap2bool) :=
  match cmd with
  | [] => mret (repl, result)
  | (k, v) :: cmd =>
      r ← db_Get k;
      match r with
      | Some _ => add_loop cmd repl (push_pair result k false)
      | None =>
          ok ← db_Put k v;
          if ok : bool then add_loop cmd (push_pair repl k v) (push_pair result k true)
          else add_loop cmd repl (push_pair result k false)
      end
  end.

(* src: src/fas_methods.hpp 224-244 add::request *)
Definition add (cmd : valmap2str) (result : valmap2bool) : handler D valmap2bool :=
  '(repl, result) ← add_loop cmd [] result;
  on_replication (rep_set repl);;
  mret (true, result).

(** [serializer(val, r.begin(), r.end())]: the value [val] ends with, also
    when the text is no number. *)
Definition read_number (val : Z) (r : bytes) : Z * res bytes := unser_integer longlong_t val r.
Definition write_number (val : Z) : res bytes := ser_integer longlong_t val.

(* src: src/fas_methods.hpp 256-271 inc::request *)
Fixpoint inc_loop (cmd : valmap2int) (result : valmap2raw) : op (world D) valmap2raw :=
  match cmd with
  | [] => mret result
  | (k, n) :: cmd =>
      r ← db_Get k;
      match r with
      | Some r =>
          '(val, _) ← op_lift (drop_on_throw (read_number 0 r));
          val ← op_lift (int_op longlong_t (val + n));
          r ← op_lift (write_number val);
          ok ← db_Put k r;
          inc_loop cmd (if ok : bool then push_pair result k r else result)
      | None => inc_loop cmd result
      end
  end.

(* src: src/fas_methods.hpp 252-274 inc::request *)
Definition inc (cmd : valmap2int) (result : valmap2raw) : handler D valmap2raw :=
  result ← inc_loop cmd result;
  on_replication (rep_set result);;
  mret (true, result).

(** The value that [inc_add] starts from. *)
(* src: src/fas_methods.hpp 290-301 inc_add::request *)
Definition inc_add_base (stored : option bytes) (def : valmap2int_map) (k : bytes) : res Z :=
  match stored with
  | Some r => catch_exception ('(val, _) ← drop_on_throw (read_number 0 r); mret val) (λ _, Ok 0)
  | None => match def !! k with Some v => Ok v | None => Ok 0 end
  end.

(* src: src/fas_methods.hpp 286-308 inc_add::request *)
Fixpoint inc_add_loop (cmd : valmap2int) (def : valmap2int_map) (result : valmap2raw)
    : op (world D) valmap2raw :=
  match cmd with
  | [] => mret result
  | (k, n) :: cmd =>
      r ← db_Get k;
      val ← op_lift (inc_add_base r def k);
      val ← op_lift (int_op longlong_t (val + n));
      r ← op_lift (write_number val);
      ok ← db_Put k r;
      inc_add_loop cmd def (if ok : bool then push_pair result k r else result)
  end.

(* src: src/fas_methods.hpp 282-311 inc_add::request *)
Definition inc_add (cmd : inc_add_request) (result : valmap2raw) : handler D valmap2raw :=
  result ← inc_add_loop (ia_inc cmd) (ia_def cmd) result;
  on_replication (rep_set result);;
  mret (true, result).

(** ** [update_packed] *)

(* src: src/fas_methods.hpp 325-338 update_packed::request *)
Definition packed_data (stored : option bytes) (def : valmap2str_map) : res valmap2str_map :=
  match stored with
  | Some tmp =>
      catch_exception ('(data, _) ← unser valmap2str_map_json NulTerminated ∅ tmp; mret data) (λ _, Ok def)
  | None => Ok def
  end.

(** One increment; a text that is no number leaves what [val] has become. *)
(* src: src/fas_methods.hpp 343-350 update_packed::request *)
Definition packed_inc (sval : bytes) (n : Z) : res bytes :=
  val ← (match sval with
         | [] => Ok 0
         | _ :: _ =>
             match read_number 0 sval with
             | (v, Ok _) => Ok v
             | (v, Throw (thrown_pointer msg)) => Throw (thrown_pointer msg)
             | (v, Throw _) => Ok v
             | (_, Undef) => Undef
             | (_, NoFuel) => NoFuel
             end
         end);
  val ← int_op longlong_t (val + n);
  write_number val.

(* src: src/fas_methods.hpp 342-351 update_packed::request *)
Fixpoint packed_incs (inc : valmap2int) (data : valmap2str_map) : res valmap2str_map :=
  match inc with
  | [] => Ok data
  | (k, n) :: inc =>
      sval ← packed_inc (default [] (data !! k)) n;
      packed_incs inc (<[k := sval]> data)
  end.

(* src: src/fas_methods.hpp 339-341 update_packed::request *)
Definition packed_sets (set : valmap2str) (data : valmap2str_map) : valmap2str_map :=
  foldl (λ data kv, <[kv.1 := kv.2]> data) data set.

(* src: src/fas_methods.hpp 319-364 update_packed::request *)
Definition update_packed (cmd : update_packed_request) : handler D bytes :=
  tmp ← db_Get (up_key cmd);
  data ← op_lift (packed_data tmp (up_def cmd));
  data ← op_lift (packed_incs (up_inc cmd) (packed_sets (up_set cmd) data));
  result ← op_lift (ser valmap2str_map_json data);
  ok ← db_Put (up_key cmd) result;
  if ok : bool then
    on_replication (rep_set [(up_key cmd, result)]);; mret (true, result)
  else mret (true, str "null").
End methods.

Definition world0 (d : gmap bytes bytes) : world (gmap bytes bytes) := World d replication0 ∅.

Example inc_ex :
  (inc [(str "a", 5); (str "b", 1)] [] (world0 {[ str "a" := str "-7" ]})).1.1
  = Ok (true, [(str "a", str "-2")]).
Proof. vm_compute. reflexivity. Qed.
Example range_ex :
  (get_range (Get_range (str "b") (str "d") 2 1) []
     (world0 {[ str "a" := str "1"; str "b" := str "2"; str "c" := str "3"; str "d" := str "4"; str "e" := [] ]})).1.1
  = Ok (true, [(str "c", str "3"); (str "d", str "4")]).
Proof. vm_compute. reflexivity. Qed.
Example packed_ex :
  (update_packed (Update_packed (str "k") [(str "n", 5)] [(str "s", str "x")] {[ str "n" := str "2" ]})
     (world0 ∅)).1.1 = Ok (true, js "{'s':'x','n':'7'}").
Proof. vm_compute. reflexivity. Qed.
