(* ===== verification/MethodsSpec.v ===== *)
(** * MethodsSpec: what the methods do to the database and to the slaves

    The methods of [Methods] on a database that does not fail: their answers,
    the contents they leave, and that the update they hand to the replication
    is the one they made. *)

From S2P Require Import Prelude JsonParser JsonNumber Serializer JsonString JsonArray JsonObject Queries.
From S2P Require Import LevelDb Replication ReplicationQueue ReplicationSync Methods.

Section healthy.
Context {D : Type} `{HD : LevelDBHealthy D} `{HashOrder}.
Implicit Types w : world D.

Definition w_contents w : gmap bytes bytes := contents (w_db w).

(** ** One operation *)

Lemma db_Get_spec k w : db_Get k w = (Ok (w_contents w !! k), w, []).
Proof. unfold db_Get, op_get, w_contents. by rewrite Get_total. Qed.

Lemma db_Put_spec k v w :
  ∃ d', db_Put k v w = (Ok true, set_db d' w, []) ∧ contents d' = <[k := v]> (w_contents w).
Proof.
  destruct (Put_healthy (w_db w) k v) as (d' & Hp & Hc). exists d'. unfold db_Put. by rewrite Hp.
Qed.

Lemma db_Delete_spec k w :
  ∃ d', db_Delete k w = (Ok true, set_db d' w, []) ∧ contents d' = delete k (w_contents w).
Proof.
  destruct (Delete_healthy (w_db w) k) as (d' & Hp & Hc). exists d'. unfold db_Delete. by rewrite Hp.
Qed.

(** [step H]: perform the first operation of a sequence whose outcome is [H]. *)
Ltac step H := rewrite (op_bind_Ok _ _ _ _ _ _ H); cbn [app fst snd].

(** ** The loops *)

Lemma put_loop_spec cmd b w :
  ∃ d', put_loop cmd b w = (Ok b, set_db d' w, []) ∧ contents d' = insert_all (w_contents w) cmd.
Proof using HD.
  revert b w. induction cmd as [|[k v] cmd IH]; intros b w.
  { exists (w_db w). split; [by destruct w|done]. }
  destruct (db_Put_spec k v w) as (d1 & Hp & Hc1). cbn [put_loop]. step Hp.
  destruct (IH b (set_db d1 w)) as (d2 & Hl & Hc2). rewrite Hl. exists d2. split; [done|].
  rewrite Hc2. unfold w_contents in *. simpl. by rewrite Hc1.
Qed.

Lemma del_loop_spec cmd result w :
  ∃ d', del_loop cmd result w = (Ok (result ++ ((λ k, (k, true)) <$> cmd)), set_db d' w, []) ∧
        contents d' = delete_all (w_contents w) cmd.
Proof using HD.
  revert result w. induction cmd as [|k cmd IH]; intros result w.
  { exists (w_db w). simpl. rewrite app_nil_r. split; [by destruct w|done]. }
  destruct (db_Delete_spec k w) as (d1 & Hp & Hc1). cbn [del_loop]. step Hp.
  destruct (IH (push_pair result k true) (set_db d1 w)) as (d2 & Hl & Hc2). rewrite Hl. exists d2.
  unfold push_pair. rewrite <-app_assoc. split; [done|].
  rewrite Hc2. unfold w_contents in *. simpl. by rewrite Hc1.
Qed.

Lemma get_loop_spec cmd result w :
  get_loop cmd result w
  = (Ok (result ++ omap (λ k, (λ v, (k, v)) <$> w_contents w !! k) cmd), w, []).
Proof using HD.
  revert result. induction cmd as [|k cmd IH]; intros result.
  { simpl. by rewrite app_nil_r. }
  cbn [get_loop]. step (db_Get_spec k w). rewrite IH. simpl. unfold push_pair.
  destruct (w_contents w !! k); simpl; [by rewrite <-app_assoc|done].
Qed.

(** What [add] stores: the entries whose keys are absent when their turn comes. *)
Fixpoint added (m : gmap bytes bytes) (cmd : valmap2str) : valmap2str :=
  match cmd with
  | [] => []
  | (k, v) :: cmd =>
      match m !! k with
      | Some _ => added m cmd
      | None => (k, v) :: added (<[k := v]> m) cmd
      end
  end.
Fixpoint add_answers (m : gmap bytes bytes) (cmd : valmap2str) : valmap2bool :=
  match cmd with
  | [] => []
  | (k, v) :: cmd =>
      match m !! k with
      | Some _ => (k, false) :: add_answers m cmd
      | None => (k, true) :: add_answers (<[k := v]> m) cmd
      end
  end.

Lemma add_loop_spec cmd repl result w :
  ∃ d', add_loop cmd repl result w
        = (Ok (repl ++ added (w_contents w) cmd, result ++ add_answers (w_contents w) cmd), set_db d' w, []) ∧
        contents d' = insert_all (w_contents w) (added (w_contents w) cmd).
Proof using HD.
  revert repl result w. induction cmd as [|[k v] cmd IH]; intros repl result w.
  { exists (w_db w). simpl. rewrite !app_nil_r. split; [by destruct w|done]. }
  cbn [add_loop added add_answers]. step (db_Get_spec k w).
  destruct (w_contents w !! k) as [x|] eqn:Hk.
  - destruct (IH repl (push_pair result k false) w) as (d2 & Hl & Hc2). rewrite Hl. exists d2.
    unfold push_pair. by rewrite <-!app_assoc.
  - destruct (db_Put_spec k v w) as (d1 & Hp & Hc1). step Hp.
    destruct (IH (push_pair repl k v) (push_pair result k true) (set_db d1 w)) as (d2 & Hl & Hc2).
    rewrite Hl. exists d2. unfold push_pair. unfold w_contents in *. simpl in *. rewrite Hc1 in *.
    rewrite <-!app_assoc. by split.
Qed.

(** What is stored for a number. *)
Definition numeral_text (s : bytes) : Prop :=
  ∃ n, in_range longlong_t n = true ∧ write_number n = Ok s.

Lemma written_numeral z v s : int_op longlong_t z = Ok v → write_number v = Ok s → numeral_text s.
Proof using Type.
  intros Hi Hs. exists v. split; [|done]. unfold int_op in Hi. simpl in Hi. by case_match; simplify_eq.
Qed.

(** A loop that increments: its result is what it stored. *)
Lemma inc_loop_spec cmd result w r w' ev :
  inc_loop cmd result w = (Ok r, w', ev) →
  ∃ l d', r = result ++ l ∧ w' = set_db d' w ∧ ev = [] ∧
    contents d' = insert_all (w_contents w) l ∧
    Forall (λ kv, kv.1 ∈ cmd.*1 ∧ numeral_text kv.2) l.
Proof using HD.
  revert result w r w' ev. induction cmd as [|[k n] cmd IH]; intros result w r w' ev.
  { cbn. intros [= <- <- <-]. exists [], (w_db w). rewrite app_nil_r. split_and!; try done. by destruct w. }
  cbn [inc_loop]. step (db_Get_spec k w). destruct (w_contents w !! k) as [x|] eqn:Hk.
  - unfold op_lift. destruct (drop_on_throw (read_number 0 x)) as [[v ?]| | |] eqn:Hr; try done.
    step (eq_refl (Ok (v, l), w, @nil event)).
    destruct (int_op longlong_t (v + n)) as [v'| | |] eqn:Hi; try done.
    step (eq_refl (Ok v', w, @nil event)).
    destruct (write_number v') as [s| | |] eqn:Hw; try done.
    step (eq_refl (Ok s, w, @nil event)).
    destruct (db_Put_spec k s w) as (d1 & Hp & Hc1). step Hp.
    destruct (inc_loop cmd (push_pair result k s) (set_db d1 w)) as [[r1 w1] ev1] eqn:Hl.
    intros [= -> <- <-]. apply IH in Hl as (l' & d2 & -> & -> & -> & Hc2 & Hf).
    exists ((k, s) :: l'), d2. unfold push_pair. rewrite <-app_assoc. split_and!; try done.
    + rewrite Hc2. unfold w_contents in *. simpl. by rewrite Hc1.
    + constructor; [split; [apply list_elem_of_here|by eapply written_numeral]|].
      eapply Forall_impl; [exact Hf|]. intros kv [Hin ?]. split; [by apply list_elem_of_further|done].
  - destruct (inc_loop cmd result w) as [[r1 w1] ev1] eqn:Hl.
    intros [= -> <- <-]. apply IH in Hl as (l' & d2 & -> & -> & -> & Hc2 & Hf).
    exists l', d2. split_and!; try done.
    eapply Forall_impl; [exact Hf|]. intros kv [Hin ?]. split; [by apply list_elem_of_further|done].
Qed.

Lemma inc_add_loop_spec cmd def result w r w' ev :
  inc_add_loop cmd def result w = (Ok r, w', ev) →
  ∃ l d', r = result ++ l ∧ w' = set_db d' w ∧ ev = [] ∧
    contents d' = insert_all (w_contents w) l ∧
    Forall (λ kv, kv.1 ∈ cmd.*1 ∧ numeral_text kv.2) l.
Proof using HD.
  revert result w r w' ev. induction cmd as [|[k n] cmd IH]; intros result w r w' ev.
  { cbn. intros [= <- <- <-]. exists [], (w_db w). rewrite app_nil_r. split_and!; try done. by destruct w. }
  cbn [inc_add_loop]. step (db_Get_spec k w). unfold op_lift.
  destruct (inc_add_base (w_contents w !! k) def k) as [v| | |] eqn:Hr; try done.
  step (eq_refl (Ok v, w, @nil event)).
  destruct (int_op longlong_t (v + n)) as [v'| | |] eqn:Hi; try done.
  step (eq_refl (Ok v', w, @nil event)).
  destruct (write_number v') as [s| | |] eqn:Hw; try done.
  step (eq_refl (Ok s, w, @nil event)).
  destruct (db_Put_spec k s w) as (d1 & Hp & Hc1). step Hp.
  destruct (inc_add_loop cmd def (push_pair result k s) (set_db d1 w)) as [[r1 w1] ev1] eqn:Hl.
  intros [= -> <- <-]. apply IH in Hl as (l' & d2 & -> & -> & -> & Hc2 & Hf).
  exists ((k, s) :: l'), d2. unfold push_pair. rewrite <-app_assoc. split_and!; try done.
  + rewrite Hc2. unfold w_contents in *. simpl. by rewrite Hc1.
  + constructor; [split; [apply list_elem_of_here|by eapply written_numeral]|].
    eapply Forall_impl; [exact Hf|]. intros kv [Hin ?]. split; [by apply list_elem_of_further|done].
Qed.

(** ** The broadcast of an update *)

(** What happens to a running slave: requests are appended to its queue that
    make of any database what [f] makes of it. *)
Definition follows (f : gmap bytes bytes → gmap bytes bytes) (c c' : Client_t) : Prop :=
  ∃ items, c' = set_queue (queue c ++ items) c ∧ Forall deliverable items ∧
           ∀ st, foldl slave_apply st (queued_requests items) = f st.

Lemma follows_nil (f : gmap bytes bytes → gmap bytes bytes) c : (∀ st, f st = st) → follows f c c.
Proof using Type.
  intros Hf. exists []. rewrite app_nil_r. split_and!; [by destruct c|done|by intros st; rewrite Hf].
Qed.

Lemma follows_one f cmd s m c :
  command_method cmd = Some m → readable (m, s) → (∀ st, slave_apply st (m, s) = f st) →
  follows f c (enqueue (cmd, s) c).
Proof using Type.
  intros Hm Hr Hf. exists [(cmd, s)]. split_and!; [done|by repeat constructor; exists m|].
  intros st. unfold queued_requests. simpl. rewrite Hm. apply Hf.
Qed.

Lemma follows_view f c c' evs : follows f c c' → slave_view evs (queue c') = f (slave_view evs (queue c)).
Proof using Type.
  intros (items & -> & _ & Hf). unfold slave_view, queued_requests in *. simpl.
  by rewrite omap_app, app_assoc, foldl_app, Hf.
Qed.

(** Every running slave of [r] follows [f] in [r']. *)
Definition broadcast (f : gmap bytes bytes → gmap bytes bytes) (r r' : Replication) : Prop :=
  ∀ id c, repClients r !! id = Some c → state c = running →
    ∃ c', repClients r' !! id = Some c' ∧ follows f c c'.

Lemma send_table {A} (T : serializer (list A)) key_of cmd data r :
  (∀ l, ∃ s, ser T l = Ok s) → data ≠ [] →
  ∃ r', _send_to_clients T key_of cmd data r = Ok r' ∧
    ∀ id c, repClients r !! id = Some c →
      ∃ c', send_to_client T key_of cmd data c = Ok c' ∧ repClients r' !! id = Some c'.
Proof using Type.
  intros HT Hd.
  destruct (send_each_spec T key_of cmd data (hash_order (repClients r)) (repClients r) HT)
    as (m' & Hs & Hm').
  { rewrite hash_order_perm. apply NoDup_fst_map_to_list. }
  { intros id c Hin. rewrite hash_order_perm in Hin. by apply elem_of_map_to_list. }
  exists (set_repClients m' r). unfold _send_to_clients. destruct data; [done|]. rewrite Hs. split; [done|].
  intros id c Hc. destruct (Hm' id) as [_ Hin]. apply (Hin c). rewrite hash_order_perm.
  by apply elem_of_map_to_list.
Qed.

Lemma pairs_broadcast cmd m l r :
  command_method cmd = Some m → m = _set_ ∨ m = _set_range_ → Forall str_pair l →
  ∃ r', _send_to_clients valmap2str_json fst cmd l r = Ok r' ∧ broadcast (λ st, insert_all st l) r r'.
Proof using Type.
  intros Hm Hms Hl. destruct (decide (l = [])) as [->|Hne].
  { exists r. split; [done|]. intros id c Hc Hst. exists c. split; [done|]. by apply follows_nil. }
  destruct (send_table valmap2str_json fst cmd l r valmap2str_total Hne) as (r' & Hr & Ht).
  exists r'. split; [exact Hr|]. intros id c Hc Hst. destruct (Ht id c Hc) as (c' & Hs & Hc').
  exists c'. split; [done|]. unfold send_to_client in Hs. rewrite Hst in Hs. unfold send in Hs.
  apply bind_Ok in Hs as (s & Es & [= <-]). apply (follows_one _ cmd s m); [done|by apply (readable_set m l)|]. intros st.
  destruct (slave_apply_set st l m Hms Hl) as (s' & Es' & Ha).
  change (ser valmap2str_json l = Ok s) in Es. congruence.
Qed.

Lemma rep_set_broadcast l r :
  Forall str_pair l → ∃ r', rep_set l r = Ok r' ∧ broadcast (λ m, insert_all m l) r r'.
Proof using Type. apply (pairs_broadcast (str "set") _set_); [reflexivity|by left]. Qed.

Lemma rep_set_range_broadcast l r :
  Forall str_pair l → ∃ r', rep_set_range l r = Ok r' ∧ broadcast (λ m, insert_all m l) r r'.
Proof using Type. apply (pairs_broadcast (str "set_range") _set_range_); [reflexivity|by right]. Qed.

Lemma rep_del_broadcast l r :
  Forall utf8_text l → ∃ r', rep_del l r = Ok r' ∧ broadcast (λ m, delete_all m l) r r'.
Proof using Type.
  intros Hl. destruct (decide (l = [])) as [->|Hne].
  { exists r. split; [done|]. intros id c Hc Hst. exists c. split; [done|]. by apply follows_nil. }
  destruct (send_table vallist_json id (str "del") l r vallist_total Hne) as (r' & Hr & Ht).
  exists r'. split; [exact Hr|]. intros i c Hc Hst. destruct (Ht i c Hc) as (c' & Hs & Hc').
  exists c'. split; [done|]. unfold send_to_client in Hs. rewrite Hst in Hs. unfold send in Hs.
  apply bind_Ok in Hs as (s & Es & [= <-]). apply (follows_one _ (str "del") s _del_); [reflexivity|by apply (readable_del l)|].
  intros st. destruct (slave_apply_del st l Hl) as (s' & Es' & Ha).
  change (ser vallist_json l = Ok s) in Es. congruence.
Qed.

(** ** Updates *)

(** The requests that change the database. *)
Inductive update :=
  | u_set (cmd : valmap2str)
  | u_set_range (cmd : valmap2str)
  | u_del (cmd : vallist)
  | u_add (cmd : valmap2str)
  | u_inc (cmd : valmap2int)
  | u_inc_add (cmd : inc_add_request)
  | u_update_packed (cmd : update_packed_request).

Definition run_update (u : update) : op (world D) unit :=
  match u with
  | u_set cmd => set cmd;; mret tt
  | u_set_range cmd => set_range cmd false;; mret tt
  | u_del cmd => del cmd [];; mret tt
  | u_add cmd => add cmd [];; mret tt
  | u_inc cmd => inc cmd [];; mret tt
  | u_inc_add cmd => inc_add cmd [];; mret tt
  | u_update_packed cmd => update_packed cmd;; mret tt
  end.

(** The keys and values are text, as the requests that arrive as JSON are. *)
Definition update_text (u : update) : Prop :=
  match u with
  | u_set cmd | u_set_range cmd | u_add cmd => Forall str_pair cmd
  | u_del cmd => Forall utf8_text cmd
  | u_inc cmd => Forall (λ kv, utf8_text kv.1) cmd
  | u_inc_add cmd => Forall (λ kv, utf8_text kv.1) (ia_inc cmd)
  | u_update_packed cmd => utf8_text (up_key cmd)
  end.


Lemma numeral_is_text s : numeral_text s → utf8_text s.
Proof using Type.
  intros (n & Hn & Hs). apply plain_text.
  destruct (serialize_numeral_of longlong_t n longlong_std Hn) as (ds & Hd & (Hdig & _) & _).
  unfold write_number, ser_integer in Hs. rewrite Hd in Hs. injection Hs as <-.
  rewrite forallb_app. apply andb_true_iff. split; [unfold sign_of; by case_match|].
  apply forallb_forall. intros c Hc. unfold digits in Hdig. rewrite Forall_forall in Hdig.
  specialize (Hdig c (proj2 (list_elem_of_In _ _) Hc)). revert Hdig. clear. intros Hd.
  enough (implb (is_digit c) (ascii_byte c && (c ≠?c NUL)) = true) as He by (by rewrite Hd in He).
  clear Hd. revert c. all_bytes.
Qed.

Lemma added_text m cmd : Forall str_pair cmd → Forall str_pair (added m cmd).
Proof using Type.
  intros Hc. revert m. induction Hc as [|[k v] cmd Hkv Hc IH]; intros m; simpl; [done|].
  case_match; [done|]. by constructor.
Qed.

Lemma numerals_text keys l :
  Forall (λ k, utf8_text k) keys → Forall (λ kv : bytes * bytes, kv.1 ∈ keys ∧ numeral_text kv.2) l →
  Forall str_pair l.
Proof using Type.
  intros Hk Hl. eapply Forall_impl; [exact Hl|]. intros kv [Hin Hn].
  rewrite Forall_forall in Hk. split; [by apply Hk|by apply numeral_is_text].
Qed.

(** The last step of every handler: the broadcast of what was stored. *)
Lemma finish_set {R} l (x : R) w :
  Forall str_pair l →
  ∃ r', (on_replication (rep_set l);; mret x) w = (Ok x, set_replication r' w, []) ∧
        broadcast (λ m, insert_all m l) (w_replication w) r'.
Proof using Type.
  intros Hl. destruct (rep_set_broadcast l (w_replication w) Hl) as (r' & Hr & Hb).
  exists r'. split; [|done]. unfold on_replication, mbind, op_bind. by rewrite Hr.
Qed.

Lemma on_replication_Ok {R} f (x y : R) w w' ev :
  (on_replication f;; mret x) w = (Ok y, w', ev) →
  y = x ∧ ∃ r', f (w_replication w) = Ok r' ∧ w' = set_replication r' w ∧ ev = [].
Proof using Type.
  unfold on_replication, mbind, op_bind. destruct (f (w_replication w)) as [r'| | |]; try done. cbn.
  intros [= <- <- <-]. split; [done|]. by exists r'.
Qed.

Lemma op_unit_Ok {S A} (m : op S A) s r s' ev :
  (m;; mret tt) s = (Ok r, s', ev) → ∃ a, m s = (Ok a, s', ev).
Proof using Type.
  unfold mbind, op_bind. destruct (m s) as [[[a| | |] s1] ev1]; try done. cbn.
  intros [= _ <- <-]. rewrite app_nil_r. eauto.
Qed.

(** The effect of an update on the contents, and that every running slave
    follows it; nothing is sent and no connection changes hands. *)
Lemma update_effect u w r w' ev :
  update_text u → map_Forall (λ _ v, utf8_text v) (w_contents w') →
  run_update u w = (Ok r, w', ev) →
  ∃ f, w_contents w' = f (w_contents w) ∧ broadcast f (w_replication w) (w_replication w') ∧
       w_clid w' = w_clid w ∧ ev = [].
Proof using HD.
  intros Hu Hv Hrun. destruct u as [cmd|cmd|cmd|cmd|cmd|cmd|cmd]; simpl in Hu, Hrun;
    apply op_unit_Ok in Hrun as (a & Hrun).
  - unfold set in Hrun. destruct (put_loop_spec cmd true w) as (d' & Hl & Hc).
    rewrite (op_bind_Ok _ _ _ _ _ _ Hl) in Hrun.
    destruct (finish_set cmd (true, true) (set_db d' w) Hu) as (r' & Hf & Hb). rewrite Hf in Hrun.
    injection Hrun as <- <- <-. by exists (λ m, insert_all m cmd).
  - destruct cmd as [|kv cmd].
    { injection Hrun as <- <- <-. exists id. split_and!; [done| |done|done].
      intros i c Hc _. exists c. split; [done|]. by apply follows_nil. }
    unfold set_range in Hrun. destruct (put_loop_spec (kv :: cmd) true w) as (d' & Hl & Hc).
    rewrite (op_bind_Ok _ _ _ _ _ _ Hl) in Hrun.
    destruct (rep_set_range_broadcast (kv :: cmd) (w_replication w) Hu) as (r' & Hf & Hb).
    assert (on_replication (rep_set_range (kv :: cmd)) (set_db d' w) = (Ok tt, set_replication r' (set_db d' w), []))
      as Hrep by (unfold on_replication; change (w_replication (set_db d' w)) with (w_replication w); by rewrite Hf).
    rewrite (op_bind_Ok _ _ _ _ _ _ Hrep) in Hrun.
    injection Hrun as <- <- <-. by exists (λ m, insert_all m (kv :: cmd)).
  - unfold del in Hrun. destruct (del_loop_spec cmd [] w) as (d' & Hl & Hc).
    rewrite (op_bind_Ok _ _ _ _ _ _ Hl) in Hrun.
    destruct (rep_del_broadcast cmd (w_replication w) Hu) as (r' & Hf & Hb).
    unfold on_replication, mbind, op_bind in Hrun. simpl in Hrun. rewrite Hf in Hrun. cbn in Hrun.
    injection Hrun as <- <- <-. by exists (λ m, delete_all m cmd).
  - unfold add in Hrun. destruct (add_loop_spec cmd [] [] w) as (d' & Hl & Hc).
    rewrite (op_bind_Ok _ _ _ _ _ _ Hl) in Hrun. cbn [app] in Hrun.
    destruct (finish_set (added (w_contents w) cmd) (true, add_answers (w_contents w) cmd) (set_db d' w)
                (added_text _ _ Hu)) as (r' & Hf & Hb). rewrite Hf in Hrun.
    injection Hrun as <- <- <-. by exists (λ m, insert_all m (added (w_contents w) cmd)).
  - unfold inc in Hrun.
    destruct (inc_loop cmd [] w) as [[[rl| | |] w1] ev2] eqn:Hl; unfold mbind, op_bind in Hrun;
      rewrite Hl in Hrun; try done.
    destruct (inc_loop_spec _ _ _ _ _ _ Hl) as (l & d' & -> & -> & -> & Hc & Hf). simpl in Hrun.
    assert (Forall str_pair l) as Hlt.
    { eapply numerals_text; [|exact Hf]. apply Forall_fmap. exact Hu. }
    destruct (rep_set_broadcast l (w_replication w) Hlt) as (r' & Hr & Hb).
    unfold on_replication in Hrun. simpl in Hrun. rewrite Hr in Hrun. cbn in Hrun.
    injection Hrun as <- <- <-. by exists (λ m, insert_all m l).
  - unfold inc_add in Hrun.
    destruct (inc_add_loop (ia_inc cmd) (ia_def cmd) [] w) as [[[rl| | |] w1] ev2] eqn:Hl;
      unfold mbind, op_bind in Hrun; rewrite Hl in Hrun; try done.
    destruct (inc_add_loop_spec _ _ _ _ _ _ _ Hl) as (l & d' & -> & -> & -> & Hc & Hf). simpl in Hrun.
    assert (Forall str_pair l) as Hlt.
    { eapply numerals_text; [|exact Hf]. apply Forall_fmap. exact Hu. }
    destruct (rep_set_broadcast l (w_replication w) Hlt) as (r' & Hr & Hb).
    unfold on_replication in Hrun. simpl in Hrun. rewrite Hr in Hrun. cbn in Hrun.
    injection Hrun as <- <- <-. by exists (λ m, insert_all m l).
  - unfold update_packed in Hrun. rewrite (op_bind_Ok _ _ _ _ _ _ (db_Get_spec (up_key cmd) w)) in Hrun.
    unfold op_lift in Hrun.
    destruct (packed_data _ _) as [data| | |]; try done.
    rewrite (op_bind_Ok _ _ _ _ _ _ (eq_refl (Ok data, w, @nil event))) in Hrun.
    destruct (packed_incs _ _) as [data'| | |]; try done.
    rewrite (op_bind_Ok _ _ _ _ _ _ (eq_refl (Ok data', w, @nil event))) in Hrun.
    destruct (ser valmap2str_map_json data') as [s| | |]; try done.
    rewrite (op_bind_Ok _ _ _ _ _ _ (eq_refl (Ok s, w, @nil event))) in Hrun.
    destruct (db_Put_spec (up_key cmd) s w) as (d' & Hp & Hc).
    rewrite (op_bind_Ok _ _ _ _ _ _ Hp) in Hrun. cbn iota in Hrun.
    assert (∃ x w2 ev2, (on_replication (rep_set [(up_key cmd, s)]);; mret (true, s)) (set_db d' w)
              = (Ok x, w2, ev2) ∧ w2 = w' ∧ ev2 = ev) as (x & w2 & ev2 & Hfin & -> & ->).
    { destruct ((on_replication (rep_set [(up_key cmd, s)]);; mret (true, s)) (set_db d' w))
        as [[[x| | |] w2] ev2]; try done. injection Hrun as _ <- <-. by do 3 eexists. }
    apply on_replication_Ok in Hfin as (_ & r' & Hr & -> & ->).
    change (w_replication (set_db d' w)) with (w_replication w) in Hr.
    unfold w_contents in Hv. simpl in Hv. rewrite Hc in Hv.
    assert (Forall str_pair [(up_key cmd, s)]) as Hst.
    { repeat constructor; [exact Hu|]. apply (Hv (up_key cmd) s). apply lookup_insert_eq. }
    destruct (rep_set_broadcast _ (w_replication w) Hst) as (r2 & Hr2 & Hb).
    rewrite Hr in Hr2. injection Hr2 as <-.
    exists (λ m, insert_all m [(up_key cmd, s)]). by split_and!.
Qed.
End healthy.

(** ** Properties *)

(** C3.  After any successful [set], [set_range], [del], [add], [inc], [inc_add] or
    [update_packed], every running slave follows the master: if what it was
    sent and what was queued for it made its database equal to the master's
    before the request, they do so after it. *)
Theorem running_slaves_follow {D} `{LevelDBHealthy D} `{HashOrder} u (w w' : world D) r ev id c evs :
  update_text u → map_Forall (λ _ v, utf8_text v) (w_contents w') →
  run_update u w = (Ok r, w', ev) →
  repClients (w_replication w) !! id = Some c → state c = running →
  slave_view evs (queue c) = w_contents w →
  ∃ c', repClients (w_replication w') !! id = Some c' ∧ state c' = running ∧
        slave_view evs (queue c') = w_contents w'.
Proof.
  intros Hu Hv Hrun Hc Hst Hview.
  destruct (update_effect u w r w' ev Hu Hv Hrun) as (f & Hf & Hb & _ & _).
  destruct (Hb id c Hc Hst) as (c' & Hc' & Hfol). exists c'. split_and!; [done| |].
  - by destruct Hfol as (items & -> & _).
  - by rewrite (follows_view f c c' evs Hfol), Hview, Hf.
Qed.

Definition slave0 : Client_t := Client 0 (str "s") running [] [(str "set", js "{'a':'1'}")] 0.
Definition world1 : world (gmap bytes bytes) :=
  World {[ str "a" := str "1" ]} (MkReplication {[ str "s" := slave0 ]} 1) ∅.
Definition after_inc : world (gmap bytes bytes) := (run_update (u_inc [(str "a", 4)]) world1).1.2.

Lemma running_slaves_follow_witness :
  ∃ c', repClients (w_replication after_inc) !! str "s" = Some c' ∧ state c' = running ∧
        slave_view [] (queue c') = w_contents after_inc.
Proof.
  apply (running_slaves_follow (u_inc [(str "a", 4)]) world1 after_inc tt [] (str "s") slave0 []).
  - repeat constructor.
  - apply (bool_decide_unpack _). vm_compute. exact I.
  - vm_compute. reflexivity.
  - vm_compute. reflexivity.
  - reflexivity.
  - vm_compute. reflexivity.
Defined.

(**  [add] stores the entries whose keys are absent and answers [true]
    for exactly these; it never changes a value that is there. *)
Theorem add_never_overwrites {D} `{LevelDBHealthy D} `{HashOrder} cmd (w w' : world D) r ev :
  add cmd [] w = (Ok r, w', ev) →
  r = (true, add_answers (w_contents w) cmd) ∧
  (∀ k v, w_contents w !! k = Some v → w_contents w' !! k = Some v) ∧
  (∀ k, k ∈ cmd.*1 → is_Some (w_contents w' !! k)).
Proof.
  intros Hrun. unfold add in Hrun. destruct (add_loop_spec cmd [] [] w) as (d' & Hl & Hc).
  rewrite (op_bind_Ok _ _ _ _ _ _ Hl) in Hrun. cbn [app] in Hrun.
  destruct ((on_replication _;; mret _) (set_db d' w)) as [[[x| | |] w2] ev2] eqn:Hfin in Hrun; try done.
  injection Hrun as -> -> <-. apply on_replication_Ok in Hfin as (-> & r' & _ & -> & _). split; [done|].
  change (w_contents (set_replication r' (set_db d' w))) with (contents d'). rewrite Hc.
  clear Hl Hc. generalize (w_contents w). clear. intros m. split.
  - revert m. induction cmd as [|[k' v'] cmd IH]; intros m k v Hk; [done|]. simpl.
    destruct (m !! k') eqn:Hk'; [by apply IH|]. simpl. apply IH.
    rewrite lookup_insert_ne; [done|]. congruence.
  - assert (∀ cmd m k, is_Some (m !! k) → is_Some (insert_all m (added m cmd) !! k)) as Hmono.
    { clear. induction cmd as [|[k' v'] cmd IH]; intros m k Hk; [done|]. simpl.
      destruct (m !! k') eqn:Hk'; [by apply IH|]. simpl. apply IH. by apply lookup_insert_is_Some'; right. }
    revert m. induction cmd as [|[k' v'] cmd IH]; intros m k Hk; [by apply not_elem_of_nil in Hk|]. simpl in *.
    apply elem_of_cons in Hk as [->|Hk].
    + destruct (m !! k') eqn:Hk'; [by apply Hmono; eexists|]. simpl. apply Hmono.
      by rewrite lookup_insert_eq; eexists.
    + destruct (m !! k'); [by apply IH|]. simpl. by apply IH.
Qed.

Lemma add_never_overwrites_witness :
  add_answers (w_contents world1) [(str "a", str "2"); (str "b", str "3"); (str "b", str "4")]
  = [(str "a", false); (str "b", true); (str "b", false)].
Proof.
  destruct (add [(str "a", str "2"); (str "b", str "3"); (str "b", str "4")] [] world1) as [[r w'] ev] eqn:Hrun.
  assert (r = Ok (true, [(str "a", false); (str "b", true); (str "b", false)])) as ->.
  { change r with ((r, w', ev).1.1). rewrite <-Hrun. vm_compute. reflexivity. }
  exact (f_equal snd (eq_sym (proj1 (add_never_overwrites _ _ _ _ _ Hrun)))).
Defined.

(** What is written for a number is read as that number. *)
Lemma number_text v : roundtrip_int longlong_t v → ∃ t, write_number v = Ok t ∧ read_number 0 t = (v, Ok []).
Proof.
  intros Hv. destruct (round_trip_any (s := value_integer longlong_t) v Hv) as (t & Et & _ & Rt). exists t. split; [exact Et|].
  specialize (Rt Foreign 0 [] I). rewrite app_nil_r in Rt. simpl in Rt. by apply drop_on_throw_Ok in Rt.
Qed.

Lemma number_sum v : roundtrip_int longlong_t v → int_op longlong_t v = Ok v.
Proof. intros [Hr _]. unfold int_op. simpl. by rewrite Hr. Qed.

(**  [inc] of one key adds to the number that is stored: the text that
    it stores and answers reads back as the sum. *)
Theorem inc_adds {D} `{LevelDBHealthy D} `{HashOrder} k n v s (w : world D) :
  roundtrip_int longlong_t v → write_number v = Ok s → w_contents w !! k = Some s →
  roundtrip_int longlong_t (v + n) → utf8_text k →
  ∃ s' w', inc [(k, n)] [] w = (Ok (true, [(k, s')]), w', []) ∧
    write_number (v + n) = Ok s' ∧ read_number 0 s' = (v + n, Ok []) ∧
    w_contents w' = <[k := s']> (w_contents w).
Proof.
  intros Hv Hs Hk Hvn Htext.
  destruct (number_text v Hv) as (t & Et & Rs). rewrite Hs in Et. injection Et as <-.
  destruct (number_text (v + n) Hvn) as (s' & Es' & Rs').
  destruct (db_Put_spec k s' w) as (d' & Hp & Hc).
  assert (inc_loop [(k, n)] [] w = (Ok [(k, s')], set_db d' w, [])) as Hl.
  { cbn [inc_loop]. rewrite (op_bind_Ok _ _ _ _ _ _ (db_Get_spec k w)). unfold w_contents in *. rewrite Hk.
    rewrite Rs. simpl. unfold op_lift.
    rewrite (op_bind_Ok _ _ _ _ _ _ (eq_refl (Ok (v, @nil ascii), w, @nil event))).
    rewrite (number_sum _ Hvn). rewrite (op_bind_Ok _ _ _ _ _ _ (eq_refl (Ok (v + n), w, @nil event))).
    rewrite Es'. rewrite (op_bind_Ok _ _ _ _ _ _ (eq_refl (Ok s', w, @nil event))).
    by rewrite (op_bind_Ok _ _ _ _ _ _ Hp). }
  assert (Forall str_pair [(k, s')]) as Hst.
  { repeat constructor; [done|]. apply numeral_is_text. exists (v + n). by destruct Hvn. }
  unfold inc. rewrite (op_bind_Ok _ _ _ _ _ _ Hl).
  destruct (finish_set (R := bool * valmap2raw) [(k, s')] (true, [(k, s')]) (set_db d' w) Hst) as (r' & Hf & _).
  exists s', (set_replication r' (set_db d' w)).
  split_and!; [exact (f_equal (λ x, let '(r, c, ev) := x in (r, c, [] ++ ev)) Hf)|exact Es'|exact Rs'|exact Hc].
Qed.

Lemma inc_adds_witness :
  ∃ s' w', inc [(str "a", -11)] [] world1 = (Ok (true, [(str "a", s')]), w', []) ∧
    write_number (1 + -11) = Ok s' ∧ read_number 0 s' = (1 + -11, Ok []) ∧
    w_contents w' = <[str "a" := s']> (w_contents world1).
Proof.
  apply (inc_adds (str "a") (-11) 1 (str "1") world1);
    [|vm_compute; reflexivity|vm_compute; reflexivity| |vm_compute; reflexivity];
    (split; [vm_compute; reflexivity|intros _ _ Hm; vm_compute in Hm; discriminate]).
Defined.

(** ** Ranges *)

(** The entries that a range query is about. *)
Definition in_key_range (from to : bytes) (kv : bytes * bytes) : Prop :=
  bytes_le from kv.1 ∧ (to = [] ∨ bytes_le kv.1 to).
#[export] Instance in_key_range_dec from to kv : Decision (in_key_range from to kv).
Proof. unfold in_key_range. apply _. Defined.

Definition up_to (to : bytes) (kv : bytes * bytes) : Prop := to = [] ∨ bytes_le kv.1 to.
#[export] Instance up_to_dec to kv : Decision (up_to to kv).
Proof. unfold up_to. apply _. Defined.

Lemma up_to_bool to (k v : bytes) :
  ((match to with [] => true | _ => false end) || bytes_leb k to = true) ↔ up_to to (k, v).
Proof.
  unfold up_to. simpl. destruct to as [|c to]; simpl; [naive_solver|].
  destruct (bytes_leb_spec k (c :: to)); naive_solver.
Qed.

Lemma range_loop_spec to total skip count rest result :
  ordered rest → 0 <= count <= total → 0 <= skip <= total →
  range_loop to total skip count rest result
  = result ++ drop (Z.to_nat (skip - count)) (take (Z.to_nat (total - count)) (filter (up_to to) rest)).
Proof.
  intros Hord. revert count result. induction Hord as [|[k v] rest Hord IH Hall]; intros count result Hc Hs.
  { change (filter (up_to to) []) with (@nil (bytes * bytes)). by rewrite take_nil, drop_nil, app_nil_r. }
  simpl range_loop. destruct ((_ || bytes_leb k to) && (count <? total)) eqn:Hb.
  - apply andb_true_iff in Hb as [Hup Hlt%Z.ltb_lt]. apply up_to_bool with (v := v) in Hup.
    rewrite filter_cons_True by done. rewrite IH by lia.
    replace (Z.to_nat (total - count)) with (S (Z.to_nat (total - (count + 1)))) by lia. cbn [take].
    destruct (Z.leb_spec skip count).
    + replace (Z.to_nat (skip - count)) with 0%nat by lia.
      replace (Z.to_nat (skip - (count + 1))) with 0%nat by lia. unfold push_pair. by rewrite <-app_assoc.
    + replace (Z.to_nat (skip - count)) with (S (Z.to_nat (skip - (count + 1)))) by lia. done.
  - apply andb_false_iff in Hb as [Hup|Hge%Z.ltb_ge].
    + assert (filter (up_to to) ((k, v) :: rest) = []) as ->; [|by rewrite take_nil, drop_nil, app_nil_r].
      assert (¬ up_to to (k, v)) as Hno by (intros Hy; apply up_to_bool in Hy; congruence).
      rewrite filter_cons_False by done. apply filter_none. eapply Forall_impl; [exact Hall|].
      intros kv Hlt [->|Hle]; [by apply Hno; left|]. apply Hno. right. simpl.
      etrans; [|exact Hle]. apply bytes_le_lt_or_eq. by left.
    + replace (Z.to_nat (total - count)) with 0%nat by lia. rewrite take_0. by rewrite drop_nil, app_nil_r.
Qed.

Lemma ordered_filter (P : bytes * bytes → Prop) `{∀ x, Decision (P x)} l : ordered l → ordered (filter P l).
Proof.
  induction 1 as [|a l Hl IH Ha]; [constructor|]. destruct (decide (P a)).
  - rewrite filter_cons_True by done. constructor; [done|]. rewrite Forall_forall in *.
    intros x [_ Hx]%list_elem_of_filter. auto.
  - by rewrite filter_cons_False.
Qed.

Lemma filter_filter_range from to (l : list (bytes * bytes)) :
  filter (up_to to) (filter (λ kv : bytes * bytes, bytes_le from kv.1) l) = filter (in_key_range from to) l.
Proof.
  induction l as [|a l IH]; [done|]. destruct (decide (bytes_le from a.1)) as [Hf|Hf].
  - rewrite (filter_cons_True (λ kv : bytes * bytes, bytes_le from kv.1)) by done.
    destruct (decide (up_to to a)).
    + rewrite !filter_cons_True by done. by rewrite IH.
    + rewrite (filter_cons_False (up_to to)), (filter_cons_False (in_key_range from to)); [done| |done].
      intros [_ ?]. done.
  - rewrite (filter_cons_False (λ kv : bytes * bytes, bytes_le from kv.1)), (filter_cons_False (in_key_range from to));
      [done| |done]. intros [? _]. done.
Qed.

(** C28.  [get_range] answers the entries with [from <= key <= to] in the
    order of the keys, without the first [skip] and at most [limit] of them;
    an empty [from] or [to] is no bound. *)
Theorem get_range_answers {D} `{LevelDBLaws D} cmd (w : world D) :
  0 <= gr_limit cmd → 0 <= gr_skip cmd → gr_limit cmd + gr_skip cmd <= 11000 →
  get_range cmd [] w
  = (Ok (true, take (Z.to_nat (gr_limit cmd)) (drop (Z.to_nat (gr_skip cmd))
       (filter (in_key_range (gr_from cmd) (gr_to cmd)) (sorted_entries (contents (w_db w)))))), w, []).
Proof.
  intros Hl Hs Hsum. unfold get_range.
  rewrite (proj2 (Z.ltb_ge _ _)), (proj2 (Z.ltb_ge _ _)) by lia.
  assert (int_op int_t (gr_limit cmd + gr_skip cmd) = Ok (gr_limit cmd + gr_skip cmd)) as Hi.
  { unfold int_op. simpl. rewrite (proj2 (in_range_spec _ _)); [done|]. std_bounds. lia. }
  unfold op_lift. rewrite Hi.
  rewrite (op_bind_Ok _ _ _ _ _ _ (eq_refl (Ok (gr_limit cmd + gr_skip cmd), w, @nil event))).
  rewrite (proj2 (Z.ltb_ge _ _)) by lia. unfold op_get.
  rewrite (op_bind_Ok _ _ _ _ _ _ (eq_refl (Ok (w_db w), w, @nil event))). cbn -[range_loop].
  rewrite NewIterator_entries. pose proof (sorted_entries_ordered (contents (w_db w))) as Ho.
  assert (it_rest match gr_from cmd with
                  | [] => SeekToFirst (Iterator (sorted_entries (contents (w_db w))) [])
                  | _ :: _ => Seek (gr_from cmd) (Iterator (sorted_entries (contents (w_db w))) [])
                  end = filter (λ kv : bytes * bytes, bytes_le (gr_from cmd) kv.1) (sorted_entries (contents (w_db w)))) as ->.
  { destruct (gr_from cmd) as [|c from].
    - simpl. symmetry. apply filter_all, Forall_forall. intros [k v] _. unfold bytes_le. by destruct k.
    - simpl. by rewrite <-seek_filter. }
  rewrite range_loop_spec by (try apply ordered_filter; done || lia).
  rewrite filter_filter_range. cbn [app]. do 4 f_equal. rewrite Z.sub_0_r, Z.sub_0_r.
  replace (Z.to_nat (gr_limit cmd + gr_skip cmd)) with (Z.to_nat (gr_skip cmd) + Z.to_nat (gr_limit cmd))%nat
    by lia. by rewrite firstn_skipn_comm.
Qed.

Lemma get_range_answers_witness :
  get_range (Get_range (str "b") (str "d") 2 1) []
    (world0 {[ str "a" := str "1"; str "b" := str "2"; str "c" := str "3"; str "d" := str "4"; str "e" := [] ]})
  = (Ok (true, [(str "c", str "3"); (str "d", str "4")]),
     world0 {[ str "a" := str "1"; str "b" := str "2"; str "c" := str "3"; str "d" := str "4"; str "e" := [] ]}, []).
Proof.
  etrans; [apply (get_range_answers (Get_range (str "b") (str "d") 2 1)); simpl; lia|].
  vm_compute. reflexivity.
Defined.

(** [inc] of a key that holds no number throws and changes nothing. *)
Lemma inc_stuck {D} `{LevelDB D} `{HashOrder} k n bad x result (w : world D) :
  Get (w_db w) k = Some bad → (read_number 0 bad).2 = Throw x → inc [(k, n)] result w = (Throw x, w, []).
Proof.
  intros Hk Hbad. unfold inc. cbn [inc_loop]. unfold db_Get. unfold mbind at 1, op_bind at 1.
  rewrite op_get_bind, Hk. destruct (read_number 0 bad) as [z o]. simpl in Hbad. by subst o.
Qed.

(**  [inc] on a list whose second key holds no number throws after the
    first increment is stored, and the increment that was stored is handed to
    no slave. *)
Theorem inc_throws_unreplicated {D} `{LevelDBHealthy D} `{HashOrder} k1 k2 n1 n2 v s bad x (w : world D) :
  k1 ≠ k2 →
  roundtrip_int longlong_t v → write_number v = Ok s → w_contents w !! k1 = Some s →
  roundtrip_int longlong_t (v + n1) →
  w_contents w !! k2 = Some bad → (read_number 0 bad).2 = Throw x →
  ∃ s' w', inc [(k1, n1); (k2, n2)] [] w = (Throw x, w', []) ∧
    write_number (v + n1) = Ok s' ∧ w_contents w' = <[k1 := s']> (w_contents w) ∧
    w_replication w' = w_replication w.
Proof.
  intros Hne Hv Hs Hk1 Hvn Hk2 Hbad.
  assert (read_number 0 s = (v, Ok [])) as Hread.
  { destruct (round_trip_any (s := value_integer longlong_t) v Hv) as (t' & Et & _ & Rt).
    simpl in Et. unfold write_number in Hs. rewrite Hs in Et. injection Et as <-.
    specialize (Rt Foreign 0 [] I). rewrite app_nil_r in Rt. simpl in Rt. by apply drop_on_throw_Ok in Rt. }
  destruct (round_trip_any (s := value_integer longlong_t) (v + n1) Hvn) as (s' & Es' & _). simpl in Es'.
  assert (int_op longlong_t (v + n1) = Ok (v + n1)) as Hi.
  { destruct Hvn as [Hr _]. unfold int_op. simpl. by rewrite Hr. }
  destruct (db_Put_spec k1 s' w) as (d' & Hp & Hc).
  exists s', (set_db d' w). split_and!; [|exact Es'|exact Hc|done].
  unfold inc, mbind. unfold op_bind at 1. cbn [inc_loop].
  rewrite (op_bind_Ok _ _ _ _ _ _ (db_Get_spec k1 w)), Hk1, Hread. simpl. unfold op_lift.
  rewrite (op_bind_Ok _ _ _ _ _ _ (eq_refl (Ok (v, @nil ascii), w, @nil event))).
  rewrite Hi. rewrite (op_bind_Ok _ _ _ _ _ _ (eq_refl (Ok (v + n1), w, @nil event))).
  unfold write_number. rewrite Es'. rewrite (op_bind_Ok _ _ _ _ _ _ (eq_refl (Ok s', w, @nil event))).
  rewrite (op_bind_Ok _ _ _ _ _ _ Hp).
  rewrite (op_bind_Ok _ _ _ _ _ _ (db_Get_spec k2 (set_db d' w))).
  assert (w_contents (set_db d' w) !! k2 = Some bad) as ->.
  { unfold w_contents in *. simpl. by rewrite Hc, lookup_insert_ne. }
  destruct (read_number 0 bad) as [z o]. simpl in Hbad. subst o. reflexivity.
Qed.

Lemma inc_throws_unreplicated_witness :
  ∃ s' w', inc [(str "a", 4); (str "b", 1)] [] (world0 {[ str "a" := str "1"; str "b" := str "x" ]})
           = (Throw (json_error invalid_json_number 1), w', []) ∧
    write_number (1 + 4) = Ok s' ∧
    w_contents w' = <[str "a" := s']> (w_contents (world0 {[ str "a" := str "1"; str "b" := str "x" ]})) ∧
    w_replication w' = w_replication (world0 {[ str "a" := str "1"; str "b" := str "x" ]}).
Proof.
  apply (inc_throws_unreplicated (str "a") (str "b") 4 1 1 (str "1") (str "x")).
  - discriminate.
  - split; [vm_compute; reflexivity|intros _ _ Hm; vm_compute in Hm; discriminate].
  - vm_compute. reflexivity.
  - vm_compute. reflexivity.
  - split; [vm_compute; reflexivity|intros _ _ Hm; vm_compute in Hm; discriminate].
  - vm_compute. reflexivity.
  - vm_compute. reflexivity.
Defined.
