(* ===== verification/ReplicationResume.v ===== *)
(** * ReplicationResume: a slave that loses its connection and resumes

    The master with its methods and its slaves' queues, one slave that applies
    what it is sent with its own methods, and the connection between them,
    which breaks at any time and takes what was under way with it.  The slave
    resumes with [rep_setstate] and the state "continue": the client object of
    [src/replication.hpp] is kept, its queue is sent from its head again. *)

From S2P Require Import Prelude JsonParser Serializer JsonString JsonArray JsonObject Queries.
From S2P Require Import LevelDb Replication ReplicationQueue ReplicationSync Methods MethodsSpec.

(** ** Sending requests again

    A request, and so a queue, either leaves a key alone or gives it a value
    that does not depend on the database: applying the first part of a queue
    before the whole of it makes no difference. *)

Definition settles (k : bytes) (f : gmap bytes bytes → gmap bytes bytes) : Prop :=
  (∀ st, f st !! k = st !! k) ∨ ∃ v, ∀ st, f st !! k = v.

Lemma settles_id (k : bytes) : settles k (λ st, st).
Proof. by left. Qed.

Lemma settles_comp (k : bytes) f g : settles k f → settles k g → settles k (λ st, g (f st)).
Proof.
  intros Hf [Hg|[v Hg]]; [|right; by exists v].
  destruct Hf as [Hf|[v Hf]]; [left|right; exists v]; intros st; by rewrite Hg, Hf.
Qed.

Lemma settles_foldl {A} (k : bytes) (h : gmap bytes bytes → A → gmap bytes bytes) l :
  (∀ a, settles k (λ st, h st a)) → settles k (λ st, foldl h st l).
Proof.
  intros Hh. induction l as [|a l IH]; [apply settles_id|].
  by apply (settles_comp k (λ st, h st a) (λ st, foldl h st l)).
Qed.

Lemma settles_insert (k k' v : bytes) : settles k (λ st, <[k' := v]> st).
Proof.
  destruct (decide (k' = k)) as [->|Hne]; [right; exists (Some v)|left]; intros st.
  - apply lookup_insert_eq.
  - by apply lookup_insert_ne.
Qed.

Lemma settles_delete (k k' : bytes) : settles k (λ st, delete k' st).
Proof.
  destruct (decide (k' = k)) as [->|Hne]; [right; exists None|left]; intros st.
  - apply lookup_delete_eq.
  - by apply lookup_delete_ne.
Qed.

Lemma settles_apply (k : bytes) r : settles k (λ st, slave_apply st r).
Proof.
  unfold slave_apply. destruct r.1; (destruct (unser _ _ _ _) as [[l ?]| | |]; try apply settles_id);
    apply settles_foldl; intros a; (apply settles_insert || apply settles_delete).
Qed.

(** What a queue makes of a database. *)
Definition replay (st : gmap bytes bytes) (q : list (bytes * bytes)) : gmap bytes bytes :=
  foldl slave_apply st (queued_requests q).

Lemma replay_app st q1 q2 : replay st (q1 ++ q2) = replay (replay st q1) q2.
Proof. unfold replay, queued_requests. by rewrite omap_app, foldl_app. Qed.

Lemma replay_again st q n : replay (replay st (take n q)) q = replay st q.
Proof.
  rewrite <-(take_drop n q) at 2 3. rewrite !replay_app. apply map_eq. intros k.
  apply slave_fold_congr.
  destruct (settles_foldl k slave_apply (queued_requests (take n q)) (settles_apply k)) as [Hs|[v Hs]];
    unfold replay; by rewrite !Hs.
Qed.

(** ** The slave's side *)

Section resume.
Context {D : Type} `{HD : LevelDBHealthy D} `{HashOrder}.

(** A request of the master runs the slave's own [set] or [del]; what it
    changes is handed to the slave's slaves. *)
Definition slave_request (rq : rep_method * bytes) : op (world D) unit :=
  match rq.1 with
  | _set_ | _set_range_ =>
      '(l, _) ← op_lift (unser valmap2str_json Foreign [] rq.2); set l;; mret tt
  | _del_ => '(l, _) ← op_lift (unser vallist_json Foreign [] rq.2); del l [];; mret tt
  end.

Lemma broadcast_total {A} (T : serializer (list A)) key_of cmd l (w : world D) :
  (∀ l, ∃ s, ser T l = Ok s) →
  ∃ r', on_replication (_send_to_clients T key_of cmd l) w = (Ok tt, set_replication r' w, []).
Proof using Type.
  intros HT. unfold on_replication. destruct l as [|a l].
  { exists (w_replication w). simpl. by destruct w. }
  destruct (send_table T key_of cmd (a :: l) (w_replication w) HT) as (r' & -> & _); [done|]. by exists r'.
Qed.

Lemma slave_request_spec rq (w : world D) :
  readable rq →
  ∃ w', slave_request rq w = (Ok tt, w', []) ∧ w_contents w' = slave_apply (w_contents w) rq.
Proof using HD.
  assert (∀ l, ∃ b w', set l w = (Ok b, w', []) ∧ w_contents w' = insert_all (w_contents w) l) as Hset.
  { intros l. destruct (put_loop_spec l true w) as (d' & Hl & Hc).
    destruct (broadcast_total valmap2str_json fst (str "set") l (set_db d' w) valmap2str_total) as (r' & Hr).
    eexists _, (set_replication r' (set_db d' w)). split; [|exact Hc].
    unfold set, mbind, op_bind. rewrite Hl. unfold rep_set. rewrite Hr. reflexivity. }
  assert (∀ l, ∃ b w', del l [] w = (Ok b, w', []) ∧ w_contents w' = delete_all (w_contents w) l) as Hdel.
  { intros l. destruct (del_loop_spec l [] w) as (d' & Hl & Hc).
    destruct (broadcast_total vallist_json id (str "del") l (set_db d' w) vallist_total) as (r' & Hr).
    eexists _, (set_replication r' (set_db d' w)). split; [|exact Hc].
    unfold del, mbind, op_bind. rewrite Hl. unfold rep_del. rewrite Hr. reflexivity. }
  unfold readable, slave_request, slave_apply, op_lift, mbind, op_bind in *.
  destruct rq as [[] p]; intros (l & rest & Hu); cbn [fst snd] in *; rewrite Hu; cbn beta iota;
    [destruct (Hset l) as (b & w' & Hw & Hc)..|destruct (Hdel l) as (b & w' & Hw & Hc)];
    exists w'; (split; [|exact Hc]); by rewrite Hw.
Qed.

(** ** The master, the connection and the slave *)

(** [y_wire] holds the requests that were written to the connection and not
    yet read by the slave, [y_answers] counts its answers that are under way,
    [y_looks] has the connection of every look at the queue that is
    scheduled. *)
Record system := Sys {
  y_master : world D;
  y_conn : option nat;
  y_wire : list (rep_method * bytes);
  y_answers : nat;
  y_looks : list nat;
  y_slave : world D;
}.

Inductive action :=
  | a_update (u : update)
  | a_deliver
  | a_answer
  | a_look (conn : nat)
  | a_lost
  | a_resume (conn : nat).

(** What was sent on the connection, and the looks that were scheduled. *)
Definition sent_on (conn : option nat) (ev : list event) : list (rep_method * bytes) :=
  omap (λ e, match e with
             | Request n m p => if decide (conn = Some n) then Some (m, p) else None
             | _ => None
             end) ev.
Definition scheduled (ev : list event) : list nat :=
  omap (λ e, match e with Schedule _ n => Some n | _ => None end) ev.

(** The master ran a handler. *)
Definition ran (m : world D) (ev : list event) (y : system) : system :=
  Sys m (y_conn y) (y_wire y ++ sent_on (y_conn y) ev) (y_answers y) (y_looks y ++ scheduled ev) (y_slave y).

Fixpoint remove_one (x : nat) (l : list nat) : option (list nat) :=
  match l with
  | [] => None
  | y :: l => if decide (x = y) then Some l else (λ l, y :: l) <$> remove_one x l
  end.

Context (sid : bytes).

Definition continue_request : rep_setstate_request := Rep_setstate sid (str "continue").

(** One action: the outcome of the handler and the system after it; [None]
    when there is nothing to act on. *)
Definition act (a : action) (y : system) : option (res unit * system) :=
  match a with
  | a_update u =>
      let '(r, m, ev) := run_update u (y_master y) in Some (r, ran m ev y)
  | a_deliver =>
      match y_wire y with
      | [] => None
      | rq :: wire =>
          let '(r, s, _) := slave_request rq (y_slave y) in
          Some (r, Sys (y_master y) (y_conn y) wire (S (y_answers y)) (y_looks y) s)
      end
  | a_answer =>
      match y_conn y, y_answers y with
      | Some conn, S n =>
          let '(r, m, ev) := (response conn;; mret tt) (y_master y) in
          Some (r, ran m ev (Sys m (y_conn y) (y_wire y) n (y_looks y) (y_slave y)))
      | _, _ => None
      end
  | a_look conn =>
      looks ← remove_one conn (y_looks y);
      let alive := bool_decide (y_conn y = Some conn) in
      let '(r, m, ev) := with_replication (λ _, on_client sid (poll_queue conn alive)) (y_master y) in
      Some (r, ran m ev (Sys m (y_conn y) (y_wire y) (y_answers y) looks (y_slave y)))
  | a_lost =>
      conn ← y_conn y;
      let '(r, m, _) := rep_setstate_clear conn (y_master y) in
      Some (r, Sys m None [] 0 (y_looks y) (y_slave y))
  | a_resume conn =>
      match y_conn y with
      | Some _ => None
      | None =>
          let '(r, m, ev) := (rep_setstate conn continue_request false;; mret tt) (y_master y) in
          Some (r, ran m ev (Sys m (Some conn) [] 0 (y_looks y) (y_slave y)))
      end
  end.

(** Updates are of text and succeed; the object of a new connection is not
    one that a scheduled look still refers to. *)
Definition allowed (a : action) (y : system) : Prop :=
  match a with
  | a_update u =>
      update_text u ∧ map_Forall (λ _ v, utf8_text v) (w_contents (run_update u (y_master y)).1.2) ∧
      (run_update u (y_master y)).1.1 = Ok tt
  | a_resume conn => conn ∉ y_looks y
  | _ => True
  end.

Definition sys_step (a : action) (y : system) (r : res unit) (y' : system) : Prop :=
  allowed a y ∧ act a y = Some (r, y').

(** The confirmations of the last portions: all but the last one only take a
    key from the client. *)
Definition confirms (d : D) (conn : nat) (c c' : Client_t) : Prop :=
  (1 < length (current_keys c))%nat ∧ on_confirm d conn c = (Ok tt, c', []).

(** It starts without a connection, with a slave whose queue makes its
    database the master's; or where a first synchronisation ends: the slave
    has applied all that it was sent and its last confirmation arrives. *)
Inductive sys_init : system → Prop :=
  | sys_start m looks s c :
      repClients (w_replication m) !! sid = Some c → state c = running → Forall deliverable (queue c) →
      replay (w_contents s) (queue c) = w_contents m →
      sys_init (Sys m None [] 0 looks s)
  | sys_synced m conn c0 c k evs looks s r m' ev :
      sync_reachable conn (w_db m, c0, evs) → state c0 = sync_finishing →
      rtc (confirms (w_db m) conn) c0 c → current_keys c = [k] →
      repClients (w_replication m) !! sid = Some c → w_clid m !! conn = Some sid → conn ∉ looks →
      w_contents s = foldl slave_apply ∅ (sent_requests evs) →
      response conn m = (r, m', ev) →
      sys_init (ran m' ev (Sys m (Some conn) [] 0 looks s)).

Inductive sys_reachable : system → Prop :=
  | sys_reach_init y : sys_init y → sys_reachable y
  | sys_reach_step y a r y' : sys_reachable y → sys_step a y r y' → sys_reachable y'.

(** ** The invariant *)

(** The connection is up: the queue begins with the items the slave has
    applied and those on the wire. *)
Record pumped (conn : nat) (y : system) (c : Client_t) : Prop := {
  pm_clid : w_clid (y_master y) !! conn = Some sid;
  pm_queue : queue_ok c;
  pm_pipe : queue_pipelined c = Z.of_nat (y_answers y + length (y_wire y));
  pm_wire : y_wire y = queued_requests (take (length (y_wire y)) (drop (y_answers y) (queue c)));
  pm_slave : ∃ st, w_contents (y_slave y) = replay st (take (y_answers y) (queue c)) ∧
                   replay st (queue c) = w_contents (y_master y);
}.

(** Either something is under way or exactly one look is scheduled. *)
Definition driven (conn : nat) (y : system) : Prop :=
  ((y_answers y + length (y_wire y) = 0)%nat ∧ ∃ l, y_looks y ≡ₚ conn :: l ∧ conn ∉ l) ∨
  ((0 < y_answers y + length (y_wire y))%nat ∧ conn ∉ y_looks y).

Record sys_ok_with (y : system) (c : Client_t) : Prop := {
  so_client : repClients (w_replication (y_master y)) !! sid = Some c;
  so_running : state c = running;
  so_items : Forall deliverable (queue c);
  so_link : match y_conn y with
            | Some conn => pumped conn y c ∧ driven conn y
            | None => y_wire y = [] ∧ y_answers y = 0%nat ∧
                      replay (w_contents (y_slave y)) (queue c) = w_contents (y_master y)
            end;
}.
Definition sys_ok (y : system) : Prop := ∃ c, sys_ok_with y c.

(** The slave's queue. *)
Definition pending (y : system) : list (bytes * bytes) :=
  match repClients (w_replication (y_master y)) !! sid with Some c => queue c | None => [] end.

(** The master's database and the connection are left alone. *)
Definition quiet (y y' : system) : Prop :=
  y_conn y' = y_conn y ∧ w_contents (y_master y') = w_contents (y_master y).

(** ** One call of [_push_queue_items] in the system *)

Lemma deliverables_sendable q : Forall deliverable q → Forall sendable q.
Proof using Type. intros Hq. eapply Forall_impl; [exact Hq|]. apply deliverable_sendable. Qed.

Lemma queued_requests_cons cmd p m q :
  command_method cmd = Some m → queued_requests ((cmd, p) :: q) = (m, p) :: queued_requests q.
Proof using Type. intros Hm. unfold queued_requests. simpl. by rewrite Hm. Qed.

Lemma queued_requests_length q : Forall sendable q → length (queued_requests q) = length q.
Proof using Type.
  induction 1 as [|[cmd p] q [m Hm] Hq IH]; [done|].
  rewrite (queued_requests_cons cmd p m) by done. simpl. by rewrite IH.
Qed.

Lemma sent_requests_on conn q :
  Forall sendable q →
  sent_on (Some conn) (request conn <$> q) = queued_requests q ∧ scheduled (request conn <$> q) = [].
Proof using Type.
  induction 1 as [|[cmd p] q [m Hm] Hq [IH1 IH2]]; [done|].
  rewrite fmap_cons, (queued_requests_cons cmd p m) by done. simpl in Hm.
  assert (request conn (cmd, p) = Request conn m p) as -> by (unfold request; simpl; by rewrite Hm).
  rewrite <-IH1, <-IH2 at 1. unfold sent_on, scheduled. simpl. by rewrite decide_True.
Qed.

Lemma queued_requests_cat q1 q2 : queued_requests (q1 ++ q2) = queued_requests q1 ++ queued_requests q2.
Proof using Type. apply omap_app. Qed.

Lemma pushed conn y c b c' ev m :
  y_conn y = Some conn → conn ∉ y_looks y → pumped conn y c →
  w_clid m !! conn = Some sid → w_contents m = w_contents (y_master y) →
  _push_queue_items conn c = (b, c', ev) →
  (∃ x, b = Ok x) ∧ c' = set_queue_pipelined (Z.min pipeline_size (Z.of_nat (length (queue c)))) c ∧
  pumped conn (ran m ev y) c' ∧ driven conn (ran m ev y).
Proof using Type.
  intros Hy Hlook [_ Hok Hpipe Hwire (st & Hs & Hm)] Hclid Hcont Hpush.
  destruct (_push_queue_items_spec conn c _ _ Hok eq_refl eq_refl) as [b' Hb]. rewrite Hb in Hpush.
  injection Hpush as <- <- <-. split; [by eexists|]. split; [done|].
  destruct Hok as [Hr Hsend Hp]. set (p' := Z.min pipeline_size (Z.of_nat (length (queue c)))) in *.
  assert (queue_ok (set_queue_pipelined p' c)) as Hok' by (split; simpl; [done|done|lia]).
  unfold pipeline_size in *. destruct (decide (queue c = [])) as [Hnil|Hnil].
  - assert (p' = 0) as Hp' by (subst p'; by rewrite Hnil). split.
    + split; simpl; rewrite ?app_nil_r; [done|done|lia|done|].
      exists st. by rewrite Hcont.
    + left. simpl. rewrite app_nil_r. split; [lia|]. exists (y_looks y).
      split; [by rewrite Permutation_app_comm|done].
  - set (n := queue_pipelined c) in *. set (items := take (Z.to_nat (p' - n)) (drop (Z.to_nat n) (queue c))).
    assert (Forall sendable items) as Hit by by apply Forall_take, Forall_drop.
    destruct (sent_requests_on conn items Hit) as [Hsent Hsched].
    assert (length (queue c) ≠ 0)%nat as Hlen by by destruct (queue c).
    assert (length (queued_requests items) = Z.to_nat (p' - n)) as Hitems.
    { rewrite queued_requests_length by done. unfold items. rewrite length_take, length_drop. lia. }
    split.
    + split; simpl; rewrite ?Hy, ?Hsent, ?length_app, ?Hitems; [done|done|lia| |by exists st; rewrite Hcont].
      rewrite Hwire at 1. rewrite <-queued_requests_cat, <-take_take_drop. unfold items.
      rewrite drop_drop. do 4 f_equal. lia.
    + right. simpl. rewrite Hy, Hsent, Hsched, length_app, Hitems, app_nil_r. split; [lia|done].
Qed.

(** ** Every action keeps the invariant *)

Definition set_client (c : Client_t) (w : world D) : world D :=
  set_replication (set_repClients (<[sid := c]> (repClients (w_replication w))) (w_replication w)) w.

Lemma run_on_client {A} (op : D → client_op A) w c :
  repClients (w_replication w) !! sid = Some c →
  (let '(r, rep, ev) := on_client sid (op (w_db w)) (w_replication w) in (r, set_replication rep w, ev))
  = (let '(r, c', ev) := op (w_db w) c in (r, set_client c' w, ev)).
Proof using Type. intros Hc. unfold on_client. rewrite Hc. by destruct (op (w_db w) c) as [[r c'] ev]. Qed.

Lemma set_client_lookup c w : repClients (w_replication (set_client c w)) !! sid = Some c.
Proof using Type. apply lookup_insert_eq. Qed.

Lemma pending_client c m ev y : pending (ran (set_client c m) ev y) = queue c.
Proof using Type. unfold pending, ran. cbn [y_master]. by rewrite set_client_lookup. Qed.

Lemma update_ok y c u r y' :
  sys_ok_with y c → sys_step (a_update u) y r y' → r = Ok tt ∧ sys_ok y'.
Proof using HD.
  intros [Hc Hst Hit Hlink] [(Hu & Hv & Hr) Ha]. simpl in Ha.
  destruct (run_update u (y_master y)) as [[r1 m] ev] eqn:Hrun. simpl in Hv, Hr. subst r1.
  injection Ha as <- <-. split; [done|].
  destruct (update_effect u (y_master y) tt m ev Hu Hv Hrun) as (f & Hf & Hb & Hclid & ->).
  destruct (Hb sid c Hc Hst) as (c' & Hc' & (items & -> & Hitems & Happ)).
  exists (set_queue (queue c ++ items) c). split; simpl; [done|done|by apply Forall_app_2|].
  assert (∀ st, replay st (queue c ++ items) = f (replay st (queue c))) as Hre.
  { intros st. by rewrite replay_app, <-Happ. }
  destruct (y_conn y) as [conn|].
  - destruct Hlink as [[Hcl [_ Hs Hp] Hpipe Hwire (st & Hsl & Hm)] Hdr]. unfold ran. simpl.
    rewrite !app_nil_r. split; [|done]. split; simpl; [by rewrite Hclid| |done| |].
    + split; simpl; [done| |rewrite length_app; lia].
      apply Forall_app_2; [done|by apply deliverables_sendable].
    + rewrite drop_app_le, take_app_le; [done| |]; rewrite ?length_drop; lia.
    + exists st. rewrite take_app_le by lia. by rewrite Hre, Hm, Hf.
  - destruct Hlink as (-> & -> & Hm). unfold ran. simpl. split_and!; [done|done|].
    by rewrite Hre, Hm, Hf.
Qed.

Lemma deliver_ok y c r y' :
  sys_ok_with y c → sys_step a_deliver y r y' → r = Ok tt ∧ sys_ok y'.
Proof using HD.
  intros [Hc Hst Hit Hlink] [_ Ha]. simpl in Ha. destruct (y_wire y) as [|rq wire] eqn:Hw; [done|].
  destruct (y_conn y) as [conn|] eqn:Hy; [|by destruct Hlink as (? & _)].
  destruct Hlink as [[Hcl [_ Hs Hp] Hpipe Hwire (st & Hsl & Hm)] Hdr].
  rewrite Hw in Hpipe, Hwire. simpl length in Hpipe, Hwire.
  destruct (drop (y_answers y) (queue c)) as [|[cmd p] q] eqn:Hd; [by rewrite take_nil in Hwire|].
  assert (y_answers y < length (queue c))%nat as Hlt.
  { apply (f_equal length) in Hd. rewrite length_drop in Hd. simpl in Hd. lia. }
  assert (Forall deliverable ((cmd, p) :: q)) as Hdq by (rewrite <-Hd; by apply Forall_drop).
  apply Forall_cons in Hdq as [(m & Hm' & Hread) Hdq]. simpl in Hm', Hread.
  simpl take in Hwire. rewrite (queued_requests_cons cmd p m) in Hwire by done.
  injection Hwire as -> Hwire.
  destruct (slave_request_spec (m, p) (y_slave y) Hread) as (s' & Hrun & Hs'). rewrite Hrun in Ha.
  injection Ha as <- <-. split; [done|]. exists c. split; simpl; [done|done|done|].
  split.
  - assert (drop (S (y_answers y)) (queue c) = q) as Hdq' by (by rewrite <-drop_tail, Hd).
    split; simpl; [done|by split|lia|by rewrite Hdq'|].
    exists st. split; [|done]. rewrite Hs', Hsl.
    assert (take (S (y_answers y)) (queue c) = take (y_answers y) (queue c) ++ [(cmd, p)]) as ->.
    { rewrite <-(take_drop (y_answers y) (queue c)) at 1. rewrite Hd.
      rewrite take_app_ge by (rewrite length_take; lia). rewrite length_take, Nat.min_l by lia.
      by replace (S (y_answers y) - y_answers y)%nat with 1%nat by lia. }
    rewrite replay_app. set (st' := replay st _). unfold replay. by rewrite (queued_requests_cons cmd p m).
  - right. simpl. split; [lia|]. destruct Hdr as [[Hz _]|[_ ?]]; [|done].
    rewrite Hw in Hz. simpl in Hz. lia.
Qed.

Lemma lost_ok y c r y' : sys_ok_with y c → sys_step a_lost y r y' → r = Ok tt ∧ sys_ok y'.
Proof using Type.
  intros [Hc Hst Hit Hlink] [_ Ha]. simpl in Ha. destruct (y_conn y) as [conn|] eqn:Hy; [|done].
  destruct Hlink as [[Hcl [_ Hs Hp] Hpipe Hwire (st & Hsl & Hm)] Hdr]. injection Ha as <- <-.
  split; [done|]. exists c. split; simpl; [done|done|done|]. split_and!; [done|done|].
  change (replay (w_contents (y_slave y)) (queue c) = w_contents (y_master y)).
  by rewrite Hsl, replay_again.
Qed.

(** The three that end with a push: the client object before and after it. *)
Lemma push_ok conn y b c1 ev m c :
  y_conn y = Some conn → conn ∉ y_looks y → pumped conn y c →
  Forall deliverable (queue c) →
  w_clid m !! conn = Some sid → w_contents m = w_contents (y_master y) →
  _push_queue_items conn c = (b, c1, ev) →
  let y' := ran (set_client c1 m) ev y in
  (∃ x, b = Ok x) ∧ sys_ok y' ∧ pending y' = queue c ∧
  Z.of_nat (y_answers y' + length (y_wire y')) = Z.min pipeline_size (Z.of_nat (length (queue c))).
Proof using Type.
  intros Hy Hlook Hpm Hit Hclid Hm Hpush y'.
  destruct (pushed conn y c b c1 ev (set_client c1 m) Hy Hlook Hpm Hclid Hm Hpush) as (Hb & Hc1 & Hpm1 & Hdr).
  split_and!; [done| |subst y'; by rewrite pending_client, Hc1|].
  - exists c1. split; [apply set_client_lookup|rewrite Hc1; apply Hpm|by rewrite Hc1|].
    subst y'. simpl. by rewrite Hy.
  - etrans; [symmetry; exact (pm_pipe _ _ _ Hpm1)|]. by rewrite Hc1.
Qed.

(** [add_client] on a client that is known: the object stays. *)
Lemma add_client_continue (d : D) conn r c :
  repClients r !! sid = Some c →
  add_client d sid (str "continue") conn r
  = on_client sid (op_modify (set_state running);; sync_queue conn) r.
Proof using Type.
  intros Hc. unfold add_client.
  assert (prepare_client sid (str "continue") r = (Some (str "continue"), r)) as ->.
  { unfold prepare_client. rewrite Hc. by rewrite !decide_False. }
  assert (insert_new sid r = r) as -> by (unfold insert_new; by rewrite Hc).
  by rewrite decide_False.
Qed.

Lemma sync_queue_push conn c b c1 ev :
  _push_queue_items conn (set_queue_pipelined 0 (set_state running c)) = (Ok b, c1, ev) →
  (op_modify (set_state running);; sync_queue conn) c = (Ok tt, c1, ev).
Proof using Type.
  intros Hpush. unfold sync_queue, _sync_queue, op_modify, mbind, op_bind. cbn beta iota.
  change (set_state running (set_state running c)) with (set_state running c).
  rewrite Hpush. cbn. by rewrite !app_nil_r.
Qed.

Lemma rep_setstate_continue conn w c b c1 ev :
  repClients (w_replication w) !! sid = Some c →
  _push_queue_items conn (set_queue_pipelined 0 (set_state running c)) = (Ok b, c1, ev) →
  (rep_setstate conn continue_request false;; mret tt) w
  = (Ok tt, set_client c1 (World (w_db w) (w_replication w) (<[conn := sid]> (w_clid w))), ev).
Proof using Type.
  intros Hc Hpush. set (w0 := World (w_db w) (w_replication w) (<[conn := sid]> (w_clid w))).
  assert (with_replication (λ d, add_client d sid (str "continue") conn) w0 = (Ok tt, set_client c1 w0, ev)) as Hadd.
  { unfold with_replication. rewrite (add_client_continue _ _ _ c Hc). unfold on_client.
    change (w_replication w0) with (w_replication w). rewrite Hc. by rewrite (sync_queue_push conn c b c1 ev Hpush). }
  unfold rep_setstate, op_modify, mbind, op_bind. cbn beta iota. cbn [rs_id rs_state continue_request].
  fold w0. rewrite Hadd. cbn. by rewrite !app_nil_r.
Qed.

Lemma resume_ok y c conn r y' :
  sys_ok_with y c → sys_step (a_resume conn) y r y' → r = Ok tt ∧ sys_ok y'.
Proof using Type.
  intros [Hc Hst Hit Hlink] [Hlook Ha]. simpl in Ha, Hlook. destruct (y_conn y) eqn:Hy; [done|].
  destruct Hlink as (Hw & Hn & Hrep).
  set (m0 := World (w_db (y_master y)) (w_replication (y_master y)) (<[conn := sid]> (w_clid (y_master y)))).
  set (y0 := Sys m0 (Some conn) [] 0 (y_looks y) (y_slave y)).
  set (c0 := set_queue_pipelined 0 (set_state running c)).
  assert (pumped conn y0 c0) as Hpm.
  { split; simpl; [apply lookup_insert_eq| |done|done|by exists (w_contents (y_slave y))].
    split; simpl; [done|by apply deliverables_sendable|unfold pipeline_size; lia]. }
  destruct (_push_queue_items conn c0) as [[b c1] ev] eqn:Hpush.
  destruct (push_ok conn y0 b c1 ev m0 c0 eq_refl Hlook Hpm Hit) as ((x & ->) & Hok & _);
    [apply lookup_insert_eq|done|done|].
  rewrite (rep_setstate_continue conn _ c x c1 ev Hc Hpush) in Ha. by injection Ha as <- <-.
Qed.

Lemma remove_one_perm x l l' : remove_one x l = Some l' → l ≡ₚ x :: l'.
Proof using Type.
  revert l'. induction l as [|y l IH]; intros l'; simpl; [done|]. case_decide as Hx.
  - intros [= ->]. by rewrite Hx.
  - destruct (remove_one x l) as [l1|] eqn:Hl; [|done]. intros [= <-]. rewrite (IH l1 eq_refl).
    apply Permutation_swap.
Qed.
Lemma remove_one_in x l : x ∈ l → is_Some (remove_one x l).
Proof using Type.
  induction l as [|y l IH]; intros Hx; [by apply not_elem_of_nil in Hx|]. simpl.
  case_decide as Hxy; [by eexists|]. apply elem_of_cons in Hx as [?|Hx]; [done|].
  destruct (IH Hx) as [l' ->]. by eexists.
Qed.

Lemma look_ok y c conn r y' :
  sys_ok_with y c → sys_step (a_look conn) y r y' →
  r = Ok tt ∧ sys_ok y' ∧ quiet y y' ∧ pending y' = queue c ∧ y_answers y' = y_answers y ∧
  (y_conn y = Some conn →
   length (y_wire y) = 0%nat ∧ Z.of_nat (length (y_wire y')) = Z.min pipeline_size (Z.of_nat (length (queue c)))).
Proof using Type.
  intros [Hc Hst Hit Hlink] [_ Ha]. simpl in Ha.
  destruct (remove_one conn (y_looks y)) as [looks|] eqn:Hrem; [|done]. cbn in Ha.
  apply remove_one_perm in Hrem. unfold with_replication in Ha.
  rewrite (run_on_client (λ _, poll_queue conn _) (y_master y) c Hc) in Ha. unfold poll_queue in Ha.
  case_bool_decide as Hal.
  - rewrite Hal in Hlink. destruct Hlink as [[Hcl Hq Hpipe Hwire Hsl] Hdr].
    set (y0 := Sys (y_master y) (y_conn y) (y_wire y) (y_answers y) looks (y_slave y)).
    assert ((y_answers y + length (y_wire y) = 0)%nat ∧ conn ∉ looks) as [Hzero Hlook].
    { destruct Hdr as [[Hz (l & Hl & Hni)]|[_ Hni]].
      - rewrite Hrem in Hl. apply (inj (cons conn)) in Hl. split; [done|by rewrite Hl].
      - exfalso. apply Hni. rewrite Hrem. apply list_elem_of_here. }
    assert (pumped conn y0 c) as Hpm by by split.
    destruct (_push_queue_items conn c) as [[b c1] ev] eqn:Hpush.
    destruct (push_ok conn y0 b c1 ev (y_master y) c Hal Hlook Hpm Hit Hcl eq_refl Hpush)
      as ((x & ->) & Hok & Hpend & Hlen).
    unfold mbind, op_bind in Ha. rewrite Hpush in Ha. cbn in Ha. rewrite app_nil_r in Ha.
    injection Ha as <- <-. split_and!; try done. intros _. split; [lia|].
    rewrite <-Hlen. simpl. f_equal. lia.
  - injection Ha as <- <-. split_and!; try done; [|apply pending_client].
    exists c. split; simpl; [apply set_client_lookup|done|done|].
    unfold ran. simpl.
    rewrite !app_nil_r. destruct (y_conn y) as [conn'|]; [|done]. destruct Hlink as [Hpm Hdr]. split.
    + by destruct Hpm.
    + assert (conn ≠ conn') as Hne by congruence. destruct Hdr as [[Hz (l & Hl & Hni)]|[Hz Hni]]; [left|right].
      * split; [done|]. rewrite Hrem in Hl. assert (conn' ∈ looks) as Hin.
        { assert (conn' ∈ conn :: looks) as Hin by (rewrite Hl; apply list_elem_of_here).
          apply elem_of_cons in Hin as [?|?]; [congruence|done]. }
        apply elem_of_Permutation in Hin as [l' Hl']. exists l'. split; [done|]. intros Hin.
        apply Hni. rewrite Hl', Permutation_swap in Hl. apply (inj (cons conn')) in Hl.
        rewrite <-Hl. by apply list_elem_of_further.
      * split; [done|]. intros Hin. apply Hni. rewrite Hrem. by apply list_elem_of_further.
Qed.

(** The object before the push of [on_confirm]. *)
Definition confirmed (c : Client_t) : Client_t :=
  set_queue (tail (queue c)) (set_queue_pipelined (queue_pipelined c - 1) c).

Lemma response_confirm conn w c c1 ev :
  w_clid w !! conn = Some sid → repClients (w_replication w) !! sid = Some c →
  on_confirm (w_db w) conn c = (Ok tt, c1, ev) → response conn w = (Ok true, set_client c1 w, ev).
Proof using Type.
  intros Hclid Hc Hrun.
  assert (with_replication (λ d, on_client sid (on_confirm d conn)) w = (Ok tt, set_client c1 w, ev)) as Hconf.
  { unfold with_replication. rewrite (run_on_client (λ d, on_confirm d conn) w c Hc). by rewrite Hrun. }
  unfold response, op_get, mbind, op_bind. cbn beta iota. unfold id. rewrite Hclid. cbn [default].
  rewrite Hc, Hconf. cbn. by rewrite app_nil_r.
Qed.

Lemma response_push conn w c b c1 ev :
  w_clid w !! conn = Some sid → repClients (w_replication w) !! sid = Some c →
  state c = running → queue c ≠ [] → _push_queue_items conn (confirmed c) = (Ok b, c1, ev) →
  response conn w = (Ok true, set_client c1 w, ev).
Proof using Type.
  intros Hclid Hc Hst Hq Hpush. apply (response_confirm _ _ c); [done..|].
  rewrite on_confirm_running by done. unfold confirmed in Hpush. by rewrite Hpush.
Qed.

Lemma answer_ok y c r y' :
  sys_ok_with y c → sys_step a_answer y r y' →
  r = Ok tt ∧ sys_ok y' ∧ quiet y y' ∧ queue c ≠ [] ∧ pending y' = tail (queue c) ∧
  y_answers y = S (y_answers y') ∧ (length (y_wire y) ≤ length (y_wire y'))%nat.
Proof using Type.
  intros [Hc Hst Hit Hlink] [_ Ha]. simpl in Ha. destruct (y_conn y) as [conn|] eqn:Hy; [|done].
  destruct (y_answers y) as [|n] eqn:Hn; [done|].
  destruct Hlink as [[Hcl [Hr Hs Hp] Hpipe Hwire (st & Hsl & Hm)] Hdr]. rewrite Hn in *.
  destruct (queue c) as [|x q] eqn:Hq; [simpl in Hp; lia|].
  set (y0 := Sys (y_master y) (Some conn) (y_wire y) n (y_looks y) (y_slave y)) in *.
  assert (conn ∉ y_looks y0) as Hlook.
  { destruct Hdr as [[Hz _]|[_ ?]]; [rewrite Hn in Hz; lia|done]. }
  assert (pumped conn y0 (confirmed c)) as Hpm.
  { unfold confirmed. rewrite Hq. simpl tail. split; simpl.
    - done.
    - inversion Hs; subst. split; simpl in *; [done|done|lia].
    - lia.
    - exact Hwire.
    - exists (replay st [x]). rewrite <-!replay_app. by split. }
  assert (Forall deliverable (queue (confirmed c))) as Hit'.
  { unfold confirmed. rewrite Hq. simpl. by inversion Hit. }
  destruct (_push_queue_items conn (confirmed c)) as [[b c1] ev] eqn:Hpush.
  destruct (push_ok conn y0 b c1 ev (y_master y) (confirmed c) eq_refl Hlook Hpm Hit' Hcl eq_refl Hpush)
    as ((z & ->) & Hok & Hpend & _).
  assert ((response conn;; mret tt) (y_master y) = (Ok tt, set_client c1 (y_master y), ev)) as Hrun.
  { unfold mbind, op_bind. rewrite (response_push conn _ c z c1 ev) by (rewrite ?Hq; done).
    cbn. by rewrite app_nil_r. }
  rewrite Hrun in Ha. injection Ha as <- <-. split_and!; try done.
  - etrans; [exact Hpend|]. unfold confirmed. by rewrite Hq.
  - simpl. rewrite length_app. lia.
Qed.

Lemma sys_step_ok y a r y' : sys_ok y → sys_step a y r y' → r = Ok tt ∧ sys_ok y'.
Proof using HD.
  intros [c Hok] Hs. destruct a as [u| | |conn| |conn].
  - by eapply update_ok.
  - by eapply deliver_ok.
  - by edestruct answer_ok as (? & ? & _).
  - by edestruct look_ok as (? & ? & _).
  - by eapply lost_ok.
  - by eapply resume_ok.
Qed.

(** The end of a synchronisation. *)
Lemma on_confirm_finishing (d : D) conn c k ks :
  state c = sync_finishing → current_keys c = k :: ks →
  on_confirm d conn c =
    if decide (ks = []) then _sync_queue conn (set_current_keys ks c) else (Ok tt, set_current_keys ks c, []).
Proof using Type.
  intros Hst Hk. unfold on_confirm, mbind, op_bind, op_get. cbn beta iota. rewrite Hst, Hk.
  destruct (last (k :: ks)) eqn:Hl; [|by apply last_None in Hl]. unfold op_modify. cbn beta iota. simpl tail.
  destruct ks as [|k2 ks]; [|reflexivity]. cbn [decide decide_rel]. simpl.
  by destruct (_sync_queue conn _) as [[[] ?] ?].
Qed.

Lemma confirms_keep (d : D) conn c0 c :
  state c0 = sync_finishing → rtc (confirms d conn) c0 c → c = set_current_keys (current_keys c) c0.
Proof using Type.
  intros Hst Hr. induction Hr as [c|c c1 c2 [Hlen Hc] Hr IH]; [by destruct c|].
  destruct (current_keys c) as [|k ks] eqn:Hk; [simpl in Hlen; lia|].
  rewrite (on_confirm_finishing d conn c k ks) in Hc by done.
  rewrite decide_False in Hc by (intros ->; simpl in Hlen; lia).
  injection Hc as <-. exact (IH Hst).
Qed.

Lemma synced_ok m conn c0 c k evs looks s r m' ev :
  sync_reachable conn (w_db m, c0, evs) → state c0 = sync_finishing →
  rtc (confirms (w_db m) conn) c0 c → current_keys c = [k] →
  repClients (w_replication m) !! sid = Some c → w_clid m !! conn = Some sid → conn ∉ looks →
  w_contents s = foldl slave_apply ∅ (sent_requests evs) →
  response conn m = (r, m', ev) →
  sys_ok (ran m' ev (Sys m (Some conn) [] 0 looks s)).
Proof using Type.
  intros Hr Hst Hconf Hk Hc Hclid Hlook Hs Hresp.
  destruct (sync_reachable_ok conn _ Hr) as (Hok & _ & [Hst'|[_ Hview]]); [congruence|].
  pose proof (confirms_keep _ _ _ _ Hst Hconf) as Hcc. 
  set (c1 := set_queue_pipelined 0 (set_state running (set_current_keys [] c))).
  assert (queue c1 = queue c0) as Hq by exact (f_equal queue Hcc).
  set (y0 := Sys m (Some conn) [] 0 looks s).
  assert (Forall deliverable (queue c1)) as Hit by (rewrite Hq; apply Hok).
  assert (pumped conn y0 c1) as Hpm.
  { split; simpl; [done| |done|done|].
    - split; simpl; [done|apply deliverables_sendable, Hit|unfold pipeline_size; lia].
    - exists (w_contents s). split; [done|]. change (queue c) with (queue c1). rewrite Hq, Hs.
      unfold replay. rewrite <-foldl_app. apply map_eq. exact Hview. }
  destruct (_push_queue_items conn c1) as [[b c2] ev2] eqn:Hpush.
  destruct (push_ok conn y0 b c2 ev2 m c1 eq_refl Hlook Hpm Hit Hclid eq_refl Hpush) as ((x & ->) & Hsys & _).
  assert (on_confirm (w_db m) conn c = (Ok tt, c2, ev2)) as Hrun.
  { rewrite (on_confirm_finishing _ _ _ k []); [|rewrite <-Hst; exact (f_equal state Hcc)|done]. rewrite decide_True by done.
    unfold _sync_queue, op_modify, mbind, op_bind. cbn beta iota. fold c1. rewrite Hpush. cbn. by rewrite app_nil_r. }
  rewrite (response_confirm conn m c c2 ev2 Hclid Hc Hrun) in Hresp. injection Hresp as <- <- <-. exact Hsys.
Qed.

Lemma sys_init_ok y : sys_init y → sys_ok y.
Proof using Type.
  intros Hy. destruct Hy; [|by eapply synced_ok].
  eexists. split; [done|done|done|]. by split_and!.
Qed.

Lemma sys_reachable_ok y : sys_reachable y → sys_ok y.
Proof using HD.
  induction 1 as [y Hy|y a r y' Hy IH Hs]; [by apply sys_init_ok|]. by apply (sys_step_ok y a r y').
Qed.

(** ** Draining *)

(** Without updates and losses, while there is something in the queue. *)
Definition catchup_action (conn : nat) (a : action) : Prop :=
  a = a_deliver ∨ a = a_answer ∨ a = a_look conn.
Definition catchup (conn : nat) (y y' : system) : Prop :=
  pending y ≠ [] ∧ ∃ a r, catchup_action conn a ∧ sys_step a y r y'.

(** Three steps for each item: it is sent, it is read, it is confirmed. *)
Definition work (y : system) : nat := 3 * length (pending y) - length (y_wire y) - 2 * y_answers y.

Lemma pending_ok y c : sys_ok_with y c → pending y = queue c.
Proof using Type. intros [Hc _ _ _]. unfold pending. by rewrite Hc. Qed.

Lemma connected_bounds y conn :
  sys_ok y → y_conn y = Some conn → (y_answers y + length (y_wire y) ≤ length (pending y))%nat.
Proof using Type.
  intros [c Hok] Hy. rewrite (pending_ok y c Hok). destruct Hok as [_ _ _ Hlink]. rewrite Hy in Hlink.
  destruct Hlink as [[_ [_ _ Hp] Hpipe _ _] _]. lia.
Qed.

Lemma catchup_progress y conn :
  sys_ok y → y_conn y = Some conn → pending y ≠ [] → ∃ y', catchup conn y y'.
Proof using Type.
  intros [c Hok] Hy Hne. pose proof Hok as [Hc Hst Hit Hlink]. rewrite Hy in Hlink.
  destruct Hlink as [_ Hdr]. unfold catchup.
  assert (∀ a r y', catchup_action conn a → sys_step a y r y' → ∃ y', pending y ≠ [] ∧
    ∃ a r, catchup_action conn a ∧ sys_step a y r y') as Hgo by (intros a r y' Ha Hs; exists y'; eauto).
  destruct (y_wire y) as [|rq wire] eqn:Hw; [|destruct (slave_request rq (y_slave y)) as [[r s] ev] eqn:Hrun;
    eapply (Hgo a_deliver); [by left|]; split; [done|]; simpl; by rewrite Hw, Hrun].
  destruct (y_answers y) as [|n] eqn:Hn.
  - destruct Hdr as [[_ (l & Hl & _)]|[Hz _]]; [|rewrite Hn, Hw in Hz; simpl in Hz; lia].
    destruct (remove_one_in conn (y_looks y)) as [looks Hrem]; [rewrite Hl; apply list_elem_of_here|].
    destruct (with_replication (λ _, on_client sid (poll_queue conn (bool_decide (y_conn y = Some conn)))) (y_master y))
      as [[r m] ev] eqn:Hrun.
    eapply (Hgo (a_look conn)); [by right; right|]. split; [done|]. simpl. rewrite Hrem. cbn.
    by rewrite Hrun.
  - destruct ((response conn;; mret tt) (y_master y)) as [[r m] ev] eqn:Hrun.
    eapply (Hgo a_answer); [by right; left|]. split; [done|]. simpl. by rewrite Hy, Hn, Hrun.
Qed.

Lemma catchup_ok y y' conn :
  sys_ok y → y_conn y = Some conn → catchup conn y y' → sys_ok y' ∧ quiet y y' ∧ (work y' < work y)%nat.
Proof using HD.
  intros Hsys Hy (Hne & a & r & Ha & Hs). pose proof (connected_bounds y conn Hsys Hy) as Hb.
  destruct (sys_step_ok y a r y' Hsys Hs) as [_ Hsys']. pose proof (connected_bounds y' conn Hsys') as Hb'.
  destruct Hsys as [c Hok]. pose proof (pending_ok y c Hok) as Hp. split; [done|].
  destruct Ha as [->|[-> | ->]].
  - destruct Hs as [_ Ha]. simpl in Ha. destruct (y_wire y) as [|rq wire] eqn:Hw; [done|].
    destruct (slave_request rq (y_slave y)) as [[r1 s] ev]. injection Ha as <- <-. split; [done|].
    unfold work in *. rewrite Hw. simpl. change (pending (Sys _ _ _ _ _ _)) with (pending y) in *.
    simpl in Hb. lia.
  - destruct (answer_ok y c r y' Hok Hs) as (_ & _ & Hq & Hne' & Hp' & Hn & Hw). split; [done|].
    assert (y_conn y' = Some conn) as Hy' by (rewrite <-Hy; apply Hq). specialize (Hb' Hy').
    unfold work. rewrite Hp', Hp in *. destruct (queue c); [done|]. simpl length in *. simpl tail in *. lia.
  - destruct (look_ok y c conn r y' Hok Hs) as (_ & _ & Hq & Hp' & Hn & Hw). split; [done|].
    specialize (Hw Hy). destruct Hw as [Hw0 Hw]. unfold work. rewrite Hp', Hp in *.
    assert (length (queue c) ≠ 0)%nat by by destruct (queue c).
    unfold pipeline_size in Hw. lia.
Qed.

Lemma catchup_runs y conn n y' :
  sys_ok y → y_conn y = Some conn → nsteps (catchup conn) n y y' →
  sys_ok y' ∧ quiet y y' ∧ (n + work y' ≤ work y)%nat.
Proof using HD.
  intros Hsys Hy Hr. induction Hr as [y|n y y1 y' Hstep Hr IH]; [by split_and!|].
  destruct (catchup_ok y y1 conn Hsys Hy Hstep) as (Hsys1 & Hq1 & Hw1).
  destruct IH as (Hsys' & Hq' & Hw'); [done|by rewrite <-Hy; apply Hq1|].
  split_and!; [done| |lia]. destruct Hq1, Hq'. split; congruence.
Qed.

Lemma caught_up y conn :
  sys_ok y → y_conn y = Some conn → pending y = [] → w_contents (y_slave y) = w_contents (y_master y).
Proof using Type.
  intros [c Hok] Hy Hp. rewrite (pending_ok y c Hok) in Hp. destruct Hok as [_ _ _ Hlink].
  rewrite Hy in Hlink. destruct Hlink as [[_ _ _ _ (st & Hsl & Hm)] _]. rewrite Hp in *.
  rewrite take_nil in Hsl. by rewrite Hsl.
Qed.
End resume.

(** ** Properties *)

Section properties.
Context {D : Type} `{LevelDBHealthy D} `{HashOrder}.

(** C4. From the end of its first synchronisation on, a slave may lose its
    connection any number of times, with requests and answers under way, while
    updates arrive, and resume with "continue": no handler of the master or
    the slave fails, and whenever it is connected and its queue is empty its
    database is the master's. *)
Theorem resumed_slave_is_equal sid (y : system (D := D)) :
  sys_reachable sid y →
  (∀ a r y', sys_step sid a y r y' → r = Ok tt) ∧
  (∀ conn, y_conn y = Some conn → pending sid y = [] → w_contents (y_slave y) = w_contents (y_master y)).
Proof.
  intros Hy%sys_reachable_ok. split.
  - intros a r y' Hs. by apply (sys_step_ok sid y a r y').
  - intros conn Hc. by apply (caught_up sid y conn).
Qed.

(** C5. Once the slave is connected again and stays so, every schedule of
    deliveries, answers and looks ends after at most three steps for each
    item of its queue, and where it ends the slave's database is the
    master's; a slave without a connection can always resume. *)
Theorem resumed_slave_catches_up sid (y : system (D := D)) :
  sys_reachable sid y →
  (∀ conn, y_conn y = Some conn →
     (∀ n y', nsteps (catchup sid conn) n y y' → (n ≤ 3 * length (pending sid y))%nat) ∧
     (∀ y', rtc (catchup sid conn) y y' → (∀ y'', ¬ catchup sid conn y' y'') →
        w_contents (y_slave y') = w_contents (y_master y') ∧
        w_contents (y_master y') = w_contents (y_master y))) ∧
  (∀ conn, y_conn y = None → conn ∉ y_looks y → ∃ y', sys_step sid (a_resume conn) y (Ok tt) y' ∧ y_conn y' = Some conn).
Proof.
  intros Hy%sys_reachable_ok. split.
  - intros conn Hc. split.
    + intros n y' Hr. destruct (catchup_runs sid y conn n y' Hy Hc Hr) as (_ & _ & Hw). unfold work in Hw. lia.
    + intros y' Hr Hend. apply rtc_nsteps in Hr as [n Hr].
      destruct (catchup_runs sid y conn n y' Hy Hc Hr) as (Hy' & [Hc' Hm] & _). split; [|done].
      apply (caught_up sid y' conn Hy'); [by rewrite Hc'|].
      destruct (pending sid y') eqn:Hp; [done|]. exfalso.
      destruct (catchup_progress sid y' conn Hy') as [y'' Hs]; [by rewrite Hc'|by rewrite Hp|].
      by apply (Hend y'').
  - intros conn Hc Hlook. destruct (act sid (a_resume conn) y) as [[r y']|] eqn:Ha.
    + destruct (sys_step_ok sid y (a_resume conn) r y' Hy) as [-> _]; [by split|]. exists y'. split; [by split|].
      simpl in Ha. rewrite Hc in Ha. destruct ((rep_setstate _ _ _;; mret tt) _) as [[r m] ev].
      by injection Ha as _ <-.
    + exfalso. simpl in Ha. rewrite Hc in Ha. by destruct ((rep_setstate _ _ _;; mret tt) _) as [[r m] ev].
Qed.

(** A slave that the master does not know - it has never been synchronised, or
    the master was restarted - is taken as running when it asks to continue:
    it is sent nothing of what the database holds. *)
Theorem unknown_slave_gets_nothing sid conn (w : world D) :
  repClients (w_replication w) !! sid = None →
  ∃ w' c, rep_setstate conn (continue_request sid) false w
          = (Ok (true, false), w', [Schedule (next_address (w_replication w)) conn]) ∧
    repClients (w_replication w') !! sid = Some c ∧ state c = running ∧ queue c = [] ∧
    w_contents w' = w_contents w.
Proof.
  intros Hc.
  unfold rep_setstate, with_replication, op_modify, mbind, op_bind. cbn beta iota.
  cbn [w_replication w_db rs_id rs_state continue_request].
  unfold add_client.
  assert (prepare_client sid (str "continue") (w_replication w) = (Some (str "continue"), w_replication w)) as ->
    by (unfold prepare_client; by rewrite Hc).
  unfold insert_new. rewrite Hc, decide_False by done. unfold on_client. cbn [repClients].
  rewrite lookup_insert_eq. set (c := new_client _ _).
  change ((op_modify (set_state running) ≫= λ _, sync_queue conn) c) with
    (Ok tt, set_queue_pipelined 0 (set_state running c), [Schedule (address c) conn]).
  cbn. do 2 eexists. split; [reflexivity|]. split; [apply lookup_insert_eq|done].
Qed.
End properties.

(** The witnesses: a connection that is lost with a request applied and not
    confirmed, an update meanwhile, and a second connection. *)
Section example.
#[local] Abbreviation sys := (system (D := gmap bytes bytes)).

Definition perform (a : action) (y : sys) : sys :=
  match act (str "s") a y with Some (_, y') => y' | None => y end.

Definition before : sys :=
  Sys (World {[ str "a" := str "1" ]} (MkReplication {[ str "s" := Client 0 (str "s") running [] [] 0 ]} 1) ∅)
    None [] 0 [] (World {[ str "a" := str "1" ]} replication0 ∅).
Definition applied_once : sys :=
  perform a_deliver (perform (a_look 3) (perform (a_update (u_set [(str "b", str "2")])) (perform (a_resume 3) before))).
Definition resumed : sys :=
  perform (a_resume 4) (perform (a_update (u_del [str "a"])) (perform a_lost applied_once)).
Definition sent_again : sys :=
  perform a_answer (perform a_answer (perform a_deliver (perform a_deliver resumed))).

Lemma perform_reachable (a : action) (y : sys) :
  sys_reachable (str "s") y → allowed a y → bool_decide (is_Some (act (str "s") a y)) = true →
  sys_reachable (str "s") (perform a y).
Proof.
  intros Hy Ha Hs%bool_decide_eq_true. destruct Hs as [[r y'] Hs].
  assert (perform a y = y') as -> by (unfold perform; by rewrite Hs).
  apply (sys_reach_step _ y a r); [done|by split].
Qed.

Lemma update_allowed (u : update) (y : sys) :
  update_text u →
  bool_decide (map_Forall (λ _ v, utf8_text v) (w_contents (run_update u (y_master y)).1.2)) = true →
  (run_update u (y_master y)).1.1 = Ok tt → allowed (a_update u) y.
Proof. intros Hu Hv%bool_decide_eq_true Hr. by split_and!. Qed.

Lemma before_init : sys_init (str "s") before.
Proof.
  apply (sys_start _ _ _ _ (Client 0 (str "s") running [] [] 0)).
  - vm_compute. reflexivity.
  - reflexivity.
  - constructor.
  - reflexivity.
Qed.

(** The actions of a run, one by one; what they are allowed to do is left. *)
Local Ltac perform_all :=
  apply perform_reachable; [try perform_all|try exact I|vm_compute; reflexivity].

Lemma resumed_reachable : sys_reachable (str "s") resumed.
Proof.
  perform_all.
  - apply sys_reach_init, before_init.
  - apply not_elem_of_nil.
  - apply update_allowed; [|vm_compute; reflexivity..].
    repeat constructor; vm_compute; reflexivity.
  - apply update_allowed; [|vm_compute; reflexivity..].
    repeat constructor; vm_compute; reflexivity.
  - apply (bool_decide_unpack _). vm_compute. exact I.
Qed.

Lemma sent_again_reachable : sys_reachable (str "s") sent_again.
Proof.
  repeat (apply perform_reachable; [|exact I|vm_compute; reflexivity]). apply resumed_reachable.
Qed.
Lemma perform_catchup (a : action) (y : sys) conn :
  catchup_action conn a → allowed a y → bool_decide (pending (str "s") y ≠ []) = true →
  bool_decide (is_Some (act (str "s") a y)) = true → catchup (str "s") conn y (perform a y).
Proof.
  intros Hc Ha Hp%bool_decide_eq_true Hs%bool_decide_eq_true. destruct Hs as [[r y'] Hs].
  split; [done|]. exists a, r. split; [done|]. split; [done|]. unfold perform. by rewrite Hs.
Qed.

Lemma resumed_sent_again : rtc (catchup (str "s") 4) resumed sent_again.
Proof.
  do 2 (eapply rtc_l; [apply (perform_catchup a_deliver); [by left|exact I|vm_compute; reflexivity..]|]).
  do 2 (eapply rtc_l; [apply (perform_catchup a_answer); [by right; left|exact I|vm_compute; reflexivity..]|]).
  apply rtc_refl.
Qed.
End example.

Lemma resumed_slave_is_equal_witness : w_contents (y_slave sent_again) = w_contents (y_master sent_again).
Proof.
  destruct (resumed_slave_is_equal (str "s") sent_again sent_again_reachable) as (_ & He).
  apply (He 4%nat); vm_compute; reflexivity.
Defined.

Lemma resumed_slave_catches_up_witness :
  w_contents (y_slave sent_again) = w_contents (y_master sent_again) ∧
  w_contents (y_master sent_again) = w_contents (y_master resumed).
Proof.
  destruct (resumed_slave_catches_up (str "s") resumed resumed_reachable) as (Hc & _).
  destruct (Hc 4%nat) as (_ & Hend); [vm_compute; reflexivity|].
  apply Hend; [exact resumed_sent_again|].
  intros y'' [Hne _]. apply Hne. vm_compute. reflexivity.
Defined.

(** ** Answers of the old connection

    A confirmation is not tied to the connection its request went out on. *)
Section late.
Context {D : Type} `{LevelDB D} `{HashOrder}.

(** [n] answers that are read on [conn]. *)
Fixpoint late_confirms (d : D) (n : nat) (conn : nat) : client_op unit :=
  match n with
  | O => mret tt
  | S n => on_confirm d conn;; late_confirms d n conn
  end.

Definition emptied (c : Client_t) : Client_t := set_queue [] (set_queue_pipelined 0 c).

Lemma confirms_all d conn c :
  state c = running → queue c ≠ [] → queue_pipelined c = Z.of_nat (length (queue c)) →
  late_confirms d (length (queue c)) conn c = (Ok tt, emptied c, [Schedule (address c) conn]).
Proof.
  remember (queue c) as q eqn:Hq. revert c Hq. induction q as [|x q IH]; intros c Hq Hr Hne Hp; [done|].
  destruct c as [a id st ks q0 p]. cbn in Hq, Hr, Hp. subst st q0 p. cbn [length late_confirms].
  assert (Z.of_nat (S (length q)) - 1 = Z.of_nat (length q)) as Hn by lia.
  set (c' := Client a id running ks q (Z.of_nat (length q))).
  assert (on_confirm d conn (Client a id running ks (x :: q) (Z.of_nat (S (length q))))
    = (Ok tt, c', if decide (q = []) then [Schedule a conn] else [])) as E.
  { unfold on_confirm, _push_queue_items, _schedule_queue, mbind, op_bind, op_get, op_modify, op_emit, op_lift, mret, op_ret.
    cbn -[decide Z.of_nat Z.sub]. unfold set_queue, set_queue_pipelined. cbn -[decide Z.of_nat Z.sub]. rewrite Hn. fold c'.
    destruct (decide (q = [])) as [->|Hq]; [reflexivity|]. by rewrite (proj2 (Z.leb_le _ _)) by lia. }
  rewrite (op_bind_Ok _ _ _ _ _ _ E). destruct (decide (q = [])) as [->|Hq']; [reflexivity|].
  by rewrite (IH c').
Qed.

(** C39. An update can leave the queue without having been sent.  A slave
    has any number of requests under way, up to the size of the pipeline, and
    resumes on a new connection, on which they all are sent again; then the
    answers to the first ones are still read on the old connection.  They
    empty the queue - each confirmation takes its head, whatever connection
    it comes from.  The next update of any method is enqueued, and when an
    answer of the new connection is read before the queue is looked at again,
    it takes the update out: the handler throws, the queue is empty, and no
    request but those of before was ever sent. *)
Theorem late_answer_loses_update {A} (T : serializer (list A)) key_of cmd data d id r c old new :
  repClients r !! id = Some c → state c = running → queue c ≠ [] →
  Z.of_nat (length (queue c)) <= pipeline_size → Forall sendable (queue c) →
  (∀ l, ∃ s, ser T l = Ok s) → data ≠ [] →
  ∃ r1 r2 r3 r4 c3 c4 buf,
    add_client d id (str "continue") new r = (Ok tt, r1, request new <$> queue c) ∧
    on_client id (late_confirms d (length (queue c)) old) r1 = (Ok tt, r2, [Schedule (address c) old]) ∧
    _send_to_clients T key_of cmd data r2 = Ok r3 ∧ ser T data = Ok buf ∧
    repClients r3 !! id = Some c3 ∧ queue c3 = [(cmd, buf)] ∧
    on_client id (on_confirm d new) r3 = (Throw (logic_error (str "fail: Y R U PIPELINED?")), r4, []) ∧
    repClients r4 !! id = Some c4 ∧ queue c4 = [].
Proof.
  intros Hc Hr Hne Hlen Hsend HT Hdata.
  set (n := Z.of_nat (length (queue c))) in *.
  set (c0 := set_queue_pipelined 0 (set_state running c)). set (c1 := set_queue_pipelined n c0).
  set (r1 := set_repClients (<[id := c1]> (repClients r)) r).
  set (r2 := set_repClients (<[id := emptied c1]> (repClients r1)) r1).
  assert (add_client d id (str "continue") new r = (Ok tt, r1, request new <$> queue c)) as E1.
  { unfold add_client. assert (prepare_client id (str "continue") r = (Some (str "continue"), r)) as ->
      by (unfold prepare_client; by rewrite Hc).
    unfold insert_new. rewrite Hc, decide_False by done. unfold on_client. rewrite Hc, op_modify_bind.
    assert (queue_ok c0) as Hok0 by (split; [done|done|simpl; unfold pipeline_size; lia]).
    destruct (_push_queue_items_spec new c0 0 n Hok0 eq_refl) as [b Hb].
    { change (queue c0) with (queue c). fold n. lia. }
    unfold sync_queue, _sync_queue. rewrite op_modify_bind. change (set_queue_pipelined 0 (set_state running (set_state running c))) with c0.
    rewrite (op_bind_Ok _ _ _ _ _ _ Hb). change (queue c0) with (queue c). rewrite decide_False by done.
    cbn -[n c1 request]. rewrite app_nil_r, Z.sub_0_r. fold c1 r1. unfold n. by rewrite Nat2Z.id, drop_0, take_ge. }
  assert (on_client id (late_confirms d (length (queue c)) old) r1 = (Ok tt, r2, [Schedule (address c) old])) as E2.
  { unfold on_client. cbn [r1 set_repClients repClients]. rewrite lookup_insert_eq.
    change (queue c) with (queue c1). rewrite confirms_all by done. reflexivity. }
  destruct (send_table T key_of cmd data r2 HT Hdata) as (r3 & E3 & Hall). destruct (HT data) as [buf Hbuf].
  destruct (Hall id (emptied c1)) as (c3 & Hc3 & Hl3); [apply lookup_insert_eq|].
  assert (c3 = enqueue (cmd, buf) (emptied c1)) as ->.
  { unfold send_to_client in Hc3. change (state (emptied c1)) with running in Hc3. unfold send in Hc3. rewrite Hbuf in Hc3.
    by injection Hc3. }
  set (c4 := set_queue [] (set_queue_pipelined (-1) (enqueue (cmd, buf) (emptied c1)))).
  exists r1, r2, r3, (set_repClients (<[id := c4]> (repClients r3)) r3), (enqueue (cmd, buf) (emptied c1)), c4, buf.
  split_and!; try done; [|apply lookup_insert_eq]. unfold on_client. rewrite Hl3. reflexivity.
Qed.
End late.

Lemma late_answer_loses_update_witness :
  let c := Client 0 (str "s") running [] [(str "set", js "{'b':'2'}")] 1 in
  let r := MkReplication {[ str "s" := c ]} 1 in
  ∃ r1 r2 r3 r4 c3 c4 buf,
    add_client (∅ : gmap bytes bytes) (str "s") (str "continue") 4 r = (Ok tt, r1, [Request 4 _set_ (js "{'b':'2'}")]) ∧
    on_client (str "s") (late_confirms (∅ : gmap bytes bytes) 1 3) r1 = (Ok tt, r2, [Schedule 0 3]) ∧
    _send_to_clients valmap2str_json fst (str "set") [(str "c", str "3")] r2 = Ok r3 ∧
    ser valmap2str_json [(str "c", str "3")] = Ok buf ∧
    repClients r3 !! str "s" = Some c3 ∧ queue c3 = [(str "set", buf)] ∧
    on_client (str "s") (on_confirm (∅ : gmap bytes bytes) 4) r3
      = (Throw (logic_error (str "fail: Y R U PIPELINED?")), r4, []) ∧
    repClients r4 !! str "s" = Some c4 ∧ queue c4 = [].
Proof.
  intros c r.
  apply (late_answer_loses_update valmap2str_json fst (str "set") [(str "c", str "3")] (∅ : gmap bytes bytes) (str "s") r c 3 4).
  - vm_compute. reflexivity.
  - reflexivity.
  - discriminate.
  - vm_compute. discriminate.
  - repeat constructor. vm_compute. by eexists.
  - apply valmap2str_total.
  - discriminate.
Defined.

(** The same in the methods: two connections of one slave, whose events the
    master reads in this order. *)
Definition late_answer : op (world (gmap bytes bytes)) bool :=
  rep_setstate 3 (continue_request (str "s")) false;;
  run_update (u_set [(str "b", str "2")]);;
  with_replication (λ _, on_client (str "s") (poll_queue 3 true));;
  rep_setstate 4 (continue_request (str "s")) false;;
  response 3;;
  run_update (u_set [(str "c", str "3")]);;
  response 4.

Example late_answer_run :
  let '(r, w, ev) := late_answer (y_master before) in
  r = Throw (logic_error (str "fail: Y R U PIPELINED?")) ∧
  w_contents w = {[ str "a" := str "1"; str "b" := str "2"; str "c" := str "3" ]} ∧
  sent_requests ev = [(_set_, js "{'b':'2'}"); (_set_, js "{'b':'2'}")] ∧
  (queue <$> repClients (w_replication w) !! str "s") = Some [].
Proof. vm_compute. split_and!; reflexivity. Qed.
