(* ===== verification/Splitter.v ===== *)
(** * Splitter: [fas/adv/io/ad_binary_splitter.hpp] and the framing of
      [common/aspect/rn_json_aspect.hpp]

    A connection delivers its bytes in blocks of any size; the splitter cuts
    the stream into datagrams at CR LF and keeps what is left for the next
    block.  The writer of the protocol appends CR LF to each message. *)

From S2P Require Import Prelude JsonParser JsonString.

(** ** The splitter *)

(** [sep<ch0, ch1>] *)
(* src: fas/adv/io/ad_binary_splitter.hpp 164-170 sep<ch0, ch1>::operator() *)
Definition sep2 (ch0 ch1 : ascii) (d : bytes) : bool :=
  match d with
  | a :: b :: _ => (a =?c ch0) && (b =?c ch1)
  | _ => false
  end.
(* src: fas/adv/io/ad_binary_splitter.hpp 156-162 sep<ch0>::operator() *)
Definition sep1 (ch0 : ascii) (d : bytes) : bool :=
  match d with a :: _ => a =?c ch0 | _ => false end.

Section splitter.
(** [_sep] and its size; the advice [N] that takes the datagrams: it answers
    whether the splitter was cleared meanwhile. *)
Context {S : Type} (sep : bytes → bool) (size_sep : nat) (send : S → bytes → S * bool).

(** The loop of [_parse_] over [n] positions from [i]: the state of the
    receiver, whether it was cleared, the offset behind the last separator
    and whether there was one. *)
(* src: fas/adv/io/ad_binary_splitter.hpp 122-137 ad_binary_splitter::_parse_ *)
Fixpoint parse_loop (buffer : bytes) (n i offset : nat) (flag : bool) (s : S)
    : S * bool * nat * bool :=
  match n with
  | O => (s, false, offset, flag)
  | Datatypes.S n =>
      if sep (drop i buffer) then
        let '(s, cleared) := send s (take (i + size_sep - offset) (drop offset buffer)) in
        if cleared : bool then (s, true, 0%nat, true)
        else parse_loop buffer n (i + 1) (i + size_sep) true s
      else parse_loop buffer n (i + 1) offset flag s
  end.

(** The result is the offset, [None] for -1. *)
(* src: fas/adv/io/ad_binary_splitter.hpp 116-139 ad_binary_splitter::_parse_ *)
Definition _parse_ (buffer : bytes) (offset offset_start : nat) (s : S) : S * bool * option nat :=
  if (length buffer <? size_sep)%nat then (s, false, None)
  else
    let '(s, cleared, offset, flag) :=
      parse_loop buffer (length buffer - size_sep + 1 - offset_start) offset_start offset false s in
    (s, cleared, if flag : bool then Some offset else None).

(** One block: the state of the receiver, the buffer and the result. *)
(* src: fas/adv/io/ad_binary_splitter.hpp 77-112 ad_binary_splitter::operator() *)
Definition split_block (data d : bytes) (s : S) : S * bytes * option nat :=
  match data with
  | [] =>
      let '(s, cleared, offset) := _parse_ d 0 0 s in
      if cleared : bool then (s, [], offset)
      else (s, match offset with
               | None => d
               | Some o => if (o =? length d)%nat then [] else drop o d
               end, offset)
  | _ :: _ =>
      let datasize := length data in
      let data := data ++ d in
      let start := if (size_sep <? datasize)%nat then (datasize - size_sep)%nat else 0%nat in
      let '(s, cleared, offset) := _parse_ data 0 start s in
      if cleared : bool then (s, [], offset)
      else (s, match offset with
               | None => data
               | Some o => if (o =? length data)%nat then [] else drop o data
               end, offset)
  end.

(** The blocks of a stream, one after the other. *)
Fixpoint split_blocks (data : bytes) (blocks : list bytes) (s : S) : S * bytes :=
  match blocks with
  | [] => (s, data)
  | d :: blocks => let '(s, data, _) := split_block data d s in split_blocks data blocks s
  end.
End splitter.

(** The writer [ad_rn_writer]. *)
(* src: common/aspect/rn_json_aspect.hpp 32-46 ad_rn_writer::operator() *)
Definition rn_write (d : bytes) : bytes := d ++ [CR; LF].

(** A receiver that keeps the datagrams and never clears the splitter. *)
Definition log (s : list bytes) (d : bytes) : list bytes * bool := (s ++ [d], false).
Definition rn_split := split_blocks (sep2 CR LF) 2 log.

Example split_ex :
  rn_split [] [str "ab" ++ [CR]; [LF] ++ str "c"; [CR; LF; CR; LF] ++ str "d"] []
  = ([str "ab" ++ [CR; LF]; str "c" ++ [CR; LF]; [CR; LF]], str "d").
Proof. vm_compute. reflexivity. Qed.

(** ** The stream, byte by byte *)

Definition ends_CR (acc : bytes) : bool := match last acc with Some c => c =?c CR | None => false end.

(** What a stream is cut into when [acc] was read since the last separator. *)
Fixpoint cut (acc b : bytes) : list bytes * bytes :=
  match b with
  | [] => ([], acc)
  | c :: b =>
      if ends_CR acc && (c =?c LF) then let '(ds, r) := cut [] b in ((acc ++ [c]) :: ds, r)
      else cut (acc ++ [c]) b
  end.

Lemma cut_app acc b1 b2 :
  cut acc (b1 ++ b2) = let '(ds1, acc1) := cut acc b1 in let '(ds2, r) := cut acc1 b2 in (ds1 ++ ds2, r).
Proof.
  revert acc. induction b1 as [|c b1 IH]; intros acc; simpl; [by destruct (cut acc b2)|].
  destruct (ends_CR acc && (c =?c LF)); [|apply IH]. rewrite IH.
  destruct (cut [] b1) as [ds1 acc1]. by destruct (cut acc1 b2).
Qed.

Lemma cut_residue acc b : (cut acc b).1 = [] → (cut acc b).2 = acc ++ b.
Proof.
  revert acc. induction b as [|c b IH]; intros acc; simpl; [by rewrite app_nil_r|].
  destruct (ends_CR acc && (c =?c LF)); [by destruct (cut [] b)|].
  intros H. rewrite IH by done. by rewrite <-app_assoc.
Qed.

(** The rest of a cut holds no separator. *)
Definition residue (data : bytes) : Prop := (cut [] data).1 = [].

Lemma cut_rest_residue acc b :
  (cut [] acc).1 = [] → residue (cut acc b).2.
Proof.
  revert acc. induction b as [|c b IH]; intros acc Hacc; simpl; [done|].
  destruct (ends_CR acc && (c =?c LF)) eqn:Hc.
  - destruct (cut [] b) as [ds r] eqn:Hb. simpl. specialize (IH [] eq_refl). by rewrite Hb in IH.
  - apply IH. rewrite cut_app. pose proof (cut_residue [] acc Hacc) as Hr.
    destruct (cut [] acc) as [ds1 acc1]. simpl in *. subst. simpl. by rewrite Hc.
Qed.

Lemma cut_prefix data k : residue data → residue (take k data).
Proof.
  unfold residue. intros H. rewrite <-(take_drop k data), cut_app in H.
  destruct (cut [] (take k data)) as [ds1 acc1]. destruct (cut acc1 (drop k data)) as [ds2 r].
  simpl in *. by apply app_eq_nil in H as [-> _].
Qed.

Lemma residue_cut data b : residue data → cut [] (data ++ b) = cut data b.
Proof.
  intros H. rewrite cut_app. pose proof (cut_residue [] data H) as Hr. unfold residue in H.
  destruct (cut [] data) as [ds acc]. simpl in *. subst. by destruct (cut data b).
Qed.

(** ** The index loop and the stream *)

Lemma drop_cons_lookup {A} i (l : list A) x : l !! i = Some x → drop i l = x :: drop (S i) l.
Proof. intros H. by apply drop_S. Qed.

Lemma slice_snoc (b : bytes) o i c :
  (o ≤ i)%nat → b !! i = Some c → take (i - o) (drop o b) ++ [c] = take (S i - o) (drop o b).
Proof.
  intros Hi Hc. replace (S i - o)%nat with (S (i - o)) by lia. symmetry. apply take_S_r.
  rewrite lookup_drop. by replace (o + (i - o))%nat with i by lia.
Qed.

Lemma ends_CR_slice (b : bytes) o i c :
  (o ≤ i)%nat → b !! i = Some c → ends_CR (take (S i - o) (drop o b)) = (c =?c CR).
Proof. intros Hi Hc. rewrite <-(slice_snoc b o i c) by done. unfold ends_CR. by rewrite last_snoc. Qed.

Lemma parse_loop_spec buffer n i o flag s :
  (i + n + 1 = length buffer)%nat → (o ≤ i ∨ o = S i ∧ buffer !! i = Some LF)%nat →
  ∃ ds r, cut (take (S i - o) (drop o buffer)) (drop (S i) buffer) = (ds, r) ∧
    parse_loop (sep2 CR LF) 2 log buffer n i o flag s
    = (s ++ ds, false, if decide (ds = []) then o else (length buffer - length r)%nat,
       flag || negb (bool_decide (ds = []))).
Proof.
  revert i o flag s. induction n as [|n IH]; intros i o flag s Hn Ho.
  { rewrite (drop_ge buffer (Datatypes.S i)) by lia. do 2 eexists. split; [reflexivity|]. simpl.
    by rewrite app_nil_r, orb_false_r. }
  destruct (lookup_lt_is_Some_2 buffer i ltac:(lia)) as [c Hc].
  destruct (lookup_lt_is_Some_2 buffer (S i) ltac:(lia)) as [d Hd].
  cbn [parse_loop]. rewrite (drop_cons_lookup i _ c), (drop_cons_lookup (S i) _ d) by done.
  cbn [sep2 cut]. replace (i + 1)%nat with (S i) by lia.
  assert (ends_CR (take (S i - o) (drop o buffer)) = (c =?c CR)) as Hcr.
  { destruct Ho as [Ho|[-> HLF]]; [by apply ends_CR_slice|]. rewrite HLF in Hc. injection Hc as <-.
    by replace (S i - S i)%nat with 0%nat by lia. }
  assert (o ≤ S i)%nat as Ho' by lia.
  rewrite Hcr. destruct ((c =?c CR) && (d =?c LF)) eqn:Hsep.
  - apply andb_true_iff in Hsep as [_ ->%Ascii.eqb_eq].
    replace (i + 2)%nat with (S (S i)) by lia.
    destruct (IH (S i) (S (S i)) true (s ++ [take (S (S i) - o) (drop o buffer)]))
      as (ds & r & Hcut & Hloop); [lia|by right|].
    replace (S (S i) - S (S i))%nat with 0%nat in Hcut by lia. rewrite take_0 in Hcut. rewrite Hcut.
    do 2 eexists. split; [reflexivity|].
    unfold log at 1. rewrite (slice_snoc buffer o (S i) LF) by done.
    rewrite Hloop, <-app_assoc. simpl. do 3 f_equal; [|by rewrite orb_true_r].
    destruct (decide (ds = [])) as [->|]; [|done].
    pose proof (f_equal fst Hcut) as H1. apply cut_residue in H1. rewrite Hcut in H1. simpl in H1.
    rewrite H1, length_drop. lia.
  - destruct (IH (S i) o flag s) as (ds & r & Hcut & Hloop); [lia|by left|].
    rewrite (slice_snoc buffer o (S i) d), Hcut by done.
    do 2 eexists. split; [reflexivity|]. exact Hloop.
Qed.

Lemma _parse__spec buffer start s :
  (start = 0 ∨ start + 1 < length buffer)%nat → residue (take (S start) buffer) →
  ∃ ds r, cut [] buffer = (ds, r) ∧
    _parse_ (sep2 CR LF) 2 log buffer 0 start s
    = (s ++ ds, false, if decide (ds = []) then None else Some (length buffer - length r)%nat).
Proof.
  intros Hstart Hres. unfold _parse_. destruct (Nat.ltb_spec (length buffer) 2) as [Hlt|Hge].
  { exists [], buffer. split; [|by rewrite app_nil_r].
    destruct buffer as [|c [|d b]]; simpl in Hlt; [done| |lia]. done. }
  destruct (parse_loop_spec buffer (length buffer - 2 + 1 - start) start 0 false s)
    as (ds & r & Hcut & Hloop); [lia|left; lia|].
  rewrite Nat.sub_0_r, drop_0, <-residue_cut, take_drop in Hcut by done.
  exists ds, r. split; [done|]. rewrite Hloop. destruct (decide (ds = [])) as [->|Hne]; [done|].
  by rewrite bool_decide_false.
Qed.

(** One block does what the stream function does. *)
Lemma split_block_spec data d s :
  residue data →
  ∃ ds r o, cut data d = (ds, r) ∧
    split_block (sep2 CR LF) 2 log data d s = (s ++ ds, r, o).
Proof.
  intros Hres.
  assert (∀ (b : bytes) ds r, cut [] b = (ds, r) → (length r ≤ length b)%nat ∧
            drop (length b - length r) b = r) as Hrest.
  { clear. intros b ds r Hc.
    assert (∃ p, b = p ++ r) as [p ->].
    { assert (∀ b acc ds r, cut acc b = (ds, r) → ∃ p, acc ++ b = p ++ r) as H.
      { clear. induction b as [|c b IH]; intros acc ds r; simpl.
        - intros [= _ <-]. exists []. by rewrite app_nil_r.
        - destruct (ends_CR acc && (c =?c LF)).
          + destruct (cut [] b) as [ds' r'] eqn:Hb. intros [= _ <-]. apply IH in Hb as [p Hp].
            exists (acc ++ [c] ++ p). simpl in *. rewrite Hp. by rewrite <-!app_assoc.
          + intros Hb%IH. by rewrite <-app_assoc in Hb. }
      by apply (H b [] ds r). }
    rewrite length_app. split; [lia|]. replace (length p + length r - length r)%nat with (length p) by lia.
    by rewrite drop_app_length. }
  assert (∀ (b : bytes) ds r, cut [] b = (ds, r) →
    match (if decide (ds = []) then None else Some (length b - length r)%nat) with
    | None => b
    | Some o => if (o =? length b)%nat then [] else drop o b
    end = r) as Hbuf.
  { intros b ds r Hc. destruct (Hrest b ds r Hc) as [Hle Hd]. destruct (decide (ds = [])) as [->|Hne].
    - pose proof (cut_residue [] b) as H. rewrite Hc in H. symmetry. by apply H.
    - destruct (Nat.eqb_spec (length b - length r) (length b)) as [He|]; [|done].
      rewrite He, drop_all in Hd. done. }
  unfold split_block. destruct data as [|x data].
  - destruct (_parse__spec d 0 s) as (ds & r & Hc & Hp); [by left|by destruct d as [|? []]|].
    rewrite Hp. exists ds, r. eexists. split; [done|]. by rewrite (Hbuf d ds r).
  - set (start := if (2 <? length (x :: data))%nat then (length (x :: data) - 2)%nat else 0%nat).
    destruct (_parse__spec ((x :: data) ++ d) start s) as (ds & r & Hc & Hp).
    + subst start. rewrite length_app. destruct (Nat.ltb_spec 2 (length (x :: data))); [right; lia|by left].
    + rewrite take_app_le.
      * by apply cut_prefix.
      * subst start. destruct (Nat.ltb_spec 2 (length (x :: data))); simpl; lia.
    + rewrite Hp. exists ds, r. eexists. split; [by rewrite <-residue_cut|]. by rewrite (Hbuf _ ds r).
Qed.

Lemma split_blocks_spec data blocks s :
  residue data →
  rn_split data blocks s = (s ++ (cut data (concat blocks)).1, (cut data (concat blocks)).2).
Proof.
  unfold rn_split. revert data s. induction blocks as [|d blocks IH]; intros data s Hres; simpl.
  { by rewrite app_nil_r. }
  destruct (split_block_spec data d s Hres) as (ds & r & o & Hc & ->).
  assert (residue r) as Hr.
  { pose proof (cut_rest_residue data d Hres) as H. by rewrite Hc in H. }
  rewrite IH by done. rewrite cut_app, Hc. destruct (cut r (concat blocks)) as [ds2 r2]. simpl.
  by rewrite app_assoc.
Qed.

(** ** What the datagrams are *)

(** A datagram is a message as the writer sends it. *)
Definition framed (d : bytes) : Prop := ∃ m, d = rn_write m ∧ residue m.

Lemma cut_framed acc b :
  residue acc → Forall framed (cut acc b).1 ∧ concat (cut acc b).1 ++ (cut acc b).2 = acc ++ b.
Proof.
  revert acc. induction b as [|c b IH]; intros acc Hacc; simpl; [by rewrite app_nil_r|].
  destruct (ends_CR acc && (c =?c LF)) eqn:Hc.
  - destruct (IH [] eq_refl) as [Hf Hcat]. destruct (cut [] b) as [ds r]. simpl in *. split.
    + constructor; [|done]. apply andb_true_iff in Hc as [HCR ->%Ascii.eqb_eq].
      unfold ends_CR in HCR. destruct (last acc) as [x|] eqn:Hl; [|done].
      apply Ascii.eqb_eq in HCR as ->. apply last_Some in Hl as [m ->].
      exists m. split; [by unfold rn_write; rewrite <-app_assoc|].
      rewrite <-(take_app_length m [CR]). by apply cut_prefix.
    + rewrite <-Hcat, <-!app_assoc. done.
  - destruct (IH (acc ++ [c])) as [Hf Hcat].
    + unfold residue. rewrite cut_app. pose proof (cut_residue [] acc Hacc) as Hr.
      unfold residue in Hacc. destruct (cut [] acc) as [ds1 acc1]. simpl in *. subst. simpl. by rewrite Hc.
    + split; [done|]. by rewrite Hcat, <-app_assoc.
Qed.

Lemma cut_rn_write m b : residue m → cut [] (rn_write m ++ b) = let '(ds, r) := cut [] b in (rn_write m :: ds, r).
Proof.
  intros Hm. unfold rn_write. rewrite <-app_assoc, residue_cut by done. simpl.
  rewrite andb_false_r. unfold ends_CR. rewrite last_snoc. simpl. destruct (cut [] b).
  by rewrite <-app_assoc.
Qed.

Lemma cut_concat ds r : Forall framed ds → residue r → cut [] (concat ds ++ r) = (ds, r).
Proof.
  intros Hds Hr. induction Hds as [|d ds (m & -> & Hm) _ IH]; simpl.
  - rewrite (surjective_pairing (cut [] r)), Hr, (cut_residue [] r Hr). done.
  - by rewrite <-app_assoc, cut_rn_write, IH.
Qed.

(** A message without line feeds, as every serialized message is, can be framed. *)
Lemma no_LF_residue m : LF ∉ m → residue m.
Proof.
  unfold residue. intros H. assert (∀ acc, (cut acc m).1 = []) as Hc; [|apply Hc].
  induction m as [|c m IH]; intros acc; simpl; [done|].
  apply not_elem_of_cons in H as [Hc Hm]. destruct (Ascii.eqb_spec c LF) as [->|_]; [done|].
  rewrite andb_false_r. by apply IH.
Qed.

(** C27. The splitter is the inverse of the writer, however the network cuts
    the stream: after blocks of any sizes it has delivered the datagrams [ds]
    and keeps [r] in its buffer exactly when the stream is [ds] followed by
    [r], each of [ds] is one message with the CR LF the writer appends and
    neither the messages nor [r] hold a separator. *)
Theorem splitter_inverts_writer blocks ds r :
  rn_split [] blocks [] = (ds, r) ↔
  concat blocks = concat ds ++ r ∧ Forall framed ds ∧ residue r.
Proof.
  rewrite split_blocks_spec by done. simpl. rewrite <-surjective_pairing. split.
  - intros Hc. destruct (cut_framed [] (concat blocks) eq_refl) as [Hf Hcat].
    pose proof (cut_rest_residue [] (concat blocks) eq_refl) as Hr.
    rewrite Hc in *. simpl in *. done.
  - intros (-> & Hf & Hr). by apply cut_concat.
Qed.
