(* ===== verification/JsonRpc.v ===== *)
(** * JsonRpc: [fas/adv/json_rpc3] and [common/aspect/json_aspect.hpp]

    The remote calls of a connection.  Requests, answers and notifications
    are JSON objects; a connection keeps the ids of the requests it is
    answering ([ad_invoke]) and, per method, of the requests it has sent
    ([caller]).  A datagram is first searched for the members that tell what
    it is, then handed to the method it names or to the one that waits for
    its id. *)

From stdpp Require Import gmultiset pretty.
From S2P Require Import Prelude JsonParser JsonNumber Serializer JsonString JsonArray JsonObject Queries.
From S2P Require Import Splitter.

(** ** The objects of the protocol *)

(** [std::strcpy] and [std::strncpy] into an array of [N] characters, the
    part behind the text being zero (for [strcpy] it is not initialised, and
    nothing reads it). *)
Definition strncpy (N : nat) (s : bytes) : bytes := pad N (take N s).

(* src: fas/adv/json_rpc3/json_rpc3_types.hpp 67-77 request_object *)
Record request_object (P : Type) := Request_object {
  rq_jsonrpc : bytes;
  rq_method : bytes;
  rq_params : P;
  rq_id : Z;
}.
Arguments Request_object {P} _ _ _ _.
Arguments rq_jsonrpc {P} _.
Arguments rq_method {P} _.
Arguments rq_params {P} _.
Arguments rq_id {P} _.

(* src: fas/adv/json_rpc3/json_rpc3_types.hpp 78-90 request_object::request_object *)
Definition new_request {P} (name : bytes) (p : P) : request_object P :=
  Request_object (strncpy 8 (str "2.0")) (strncpy 64 name) p (-1).

(* src: fas/adv/json_rpc3/json_rpc3_types.hpp 93-101 response_object *)
Record response_object (R : Type) := Response_object {
  rs_jsonrpc : bytes;
  rs_result : R;
  rs_rid : Z;
}.
Arguments Response_object {R} _ _ _.
Arguments rs_jsonrpc {R} _.
Arguments rs_result {R} _.
Arguments rs_rid {R} _.

(* src: fas/adv/json_rpc3/json_rpc3_types.hpp 103-108 response_object::response_object *)
Definition new_response {R} (r : R) : response_object R := Response_object (strncpy 8 (str "2.0")) r (-1).

(* src: fas/adv/json_rpc3/json_rpc3_types.hpp 110-118 notify_object *)
Record notify_object (P : Type) := Notify_object {
  nt_jsonrpc : bytes;
  nt_method : bytes;
  nt_params : P;
}.
Arguments Notify_object {P} _ _ _.
Arguments nt_jsonrpc {P} _.
Arguments nt_method {P} _.
Arguments nt_params {P} _.

(* src: fas/adv/json_rpc3/json_rpc3_types.hpp 120-131 notify_object::notify_object *)
Definition new_notify {P} (name : bytes) (p : P) : notify_object P :=
  Notify_object (strncpy 8 (str "2.0")) (strncpy 64 name) p.

(* src: fas/adv/json_rpc3/json_rpc3_types.hpp 134-158 request_maker *)
Definition request_maker {P} (J : serializer P) : serializer (request_object P) :=
  object
    [member (str "jsonrpc") rq_jsonrpc (λ t v, Request_object v (rq_method t) (rq_params t) (rq_id t)) (value_chars 8);
     member (str "method") rq_method (λ t v, Request_object (rq_jsonrpc t) v (rq_params t) (rq_id t)) (value_chars 64);
     member (str "id") rq_id (λ t v, Request_object (rq_jsonrpc t) (rq_method t) (rq_params t) v) (value_integer int_t);
     member (str "params") rq_params (λ t v, Request_object (rq_jsonrpc t) (rq_method t) v (rq_id t)) J]
    (new_request [] (dflt J)).

(* src: fas/adv/json_rpc3/json_rpc3_types.hpp 160-177 notify_maker *)
Definition notify_maker {P} (J : serializer P) : serializer (notify_object P) :=
  object
    [member (str "jsonrpc") nt_jsonrpc (λ t v, Notify_object v (nt_method t) (nt_params t)) (value_chars 8);
     member (str "method") nt_method (λ t v, Notify_object (nt_jsonrpc t) v (nt_params t)) (value_chars 64);
     member (str "params") nt_params (λ t v, Notify_object (nt_jsonrpc t) (nt_method t) v) J]
    (new_notify [] (dflt J)).

(* src: fas/adv/json_rpc3/json_rpc3_types.hpp 179-196 response_maker *)
Definition response_maker {R} (J : serializer R) : serializer (response_object R) :=
  object
    [member (str "jsonrpc") rs_jsonrpc (λ t v, Response_object v (rs_result t) (rs_rid t)) (value_chars 8);
     member (str "id") rs_rid (λ t v, Response_object (rs_jsonrpc t) (rs_result t) v) (value_integer int_t);
     member (str "result") rs_result (λ t v, Response_object (rs_jsonrpc t) v (rs_rid t)) J]
    (new_response (dflt J)).

Example request_ex :
  ser (request_maker valmap2str_json) (new_request (str "set") [(str "a", str "b")])
  = Ok (js "{'jsonrpc':'2.0','method':'set','id':-1,'params':{'a':'b'}}").
Proof. vm_compute. reflexivity. Qed.

(** ** Searching a datagram *)

(** How far the text matches a key, which is followed by its terminating
    NUL; matching that too, the loop runs out of the array. *)
(* src: fas/adv/json_rpc3/ad_invoke.hpp 205-206 ad_invoke::_search_helper_ *)
Fixpoint match_key (key b : bytes) : res nat :=
  match key, b with
  | [], [] => Ok 0%nat
  | [], _ :: _ => Undef
  | _ :: _, [] => Ok 0%nat
  | k :: key, c :: b => if c =?c k then i ← match_key key b; mret (S i) else Ok 0%nat
  end.

(** [for (;beg!=end && *beg <= 32; ++beg)] with a signed [char]. *)
Fixpoint skip_low (b : bytes) : bytes :=
  match b with
  | [] => []
  | c :: r => if schar c <=? 32 then skip_low r else b
  end.

(* src: fas/adv/json_rpc3/ad_invoke.hpp 164-182 ad_invoke::_search_tovalue_ *)
Definition _search_tovalue_ (e : past) (b : bytes) : res (option bytes) :=
  let b := skip_low b in
  c ← deref e b;
  let b := if c =?c ":" then b else [] in
  let b := skip_low (tail b) in
  let b := if starts_with QUOTE b then tail b else b in
  Ok (match b with [] => None | _ => Some b end).

(** [*method], [*result] and [*id], as suffixes of the datagram. *)
Record found := Found { f_method : option bytes; f_result : option bytes; f_id : option bytes }.

Definition s_method : bytes := js "'method'".
Definition s_result : bytes := js "'result'".
Definition s_id : bytes := js "'id'".

(** The value of the key if it is here, what was found before otherwise. *)
(* src: fas/adv/json_rpc3/ad_invoke.hpp 205-215 ad_invoke::_search_helper_ *)
Definition search_key (key : bytes) (e : past) (b : bytes) (old : option bytes) : res (option bytes) :=
  i ← match_key (key ++ [NUL]) b;
  if (i =? length key)%nat then _search_tovalue_ e (drop i b) else Ok old.

(* src: fas/adv/json_rpc3/ad_invoke.hpp 204-215 ad_invoke::_search_helper_ *)
Definition search_keys (e : past) (b : bytes) (f : found) : res found :=
  m ← search_key s_method e b (f_method f);
  r ← search_key s_result e b (f_result f);
  i ← search_key s_id e b (f_id f);
  mret (Found m r i).

(** The loop over the members; a parse error ends the search, what was found
    stays. *)
(* src: fas/adv/json_rpc3/ad_invoke.hpp 202-240 ad_invoke::_search_helper_ *)
Fixpoint search_loop (fuel : nat) (e : past) (b : bytes) (f : found) : res found :=
  match b with
  | [] => Ok f
  | _ =>
      match fuel with
      | O => NoFuel
      | S fuel =>
          f ← search_keys e b f;
          match parse_member e b with
          | Throw _ => Ok f
          | Undef => Undef
          | NoFuel => NoFuel
          | Ok b =>
              match parse_space b with
              | c :: r => if c =?c "," then search_loop fuel e (parse_space r) f else Ok f
              | [] => Ok f
              end
          end
      end
  end.

(** The code behind the [try] block is unreachable. *)
(* src: fas/adv/json_rpc3/ad_invoke.hpp 184-295 ad_invoke::_search_ *)
Definition _search_ (e : past) (b : bytes) : res found :=
  let none := Found None None None in
  match parse_space b with
  | c :: r => if c =?c "{" then search_loop (length b) e (parse_space r) none else Ok none
  | [] => Ok none
  end.

(* src: fas/adv/json_rpc3/ad_invoke.hpp 297-303 ad_invoke::_raw_equal *)
Fixpoint _raw_equal (name_nz : bytes) (e : past) (raw_name : bytes) : res bool :=
  c ← deref e raw_name;
  match name_nz with
  | [] => Ok (c =?c QUOTE)
  | n :: name_nz =>
      if c =?c QUOTE then Ok false
      else if c =?c n then _raw_equal name_nz e (tail raw_name)
      else Ok false
  end.

(** [std::atoi]: white space, a sign, digits.  What it does with a number
    that is no [int] the standard leaves undefined. *)
Definition c_space (c : ascii) : bool := (code c =? 32) || ((9 <=? code c) && (code c <=? 13)).
Fixpoint skip_c_space (b : bytes) : bytes :=
  match b with
  | [] => []
  | c :: r => if c_space c then skip_c_space r else b
  end.
Fixpoint atoi_digits (e : past) (v : Z) (b : bytes) : res Z :=
  match b with
  | [] => deref e [];; Ok v
  | c :: r => if is_digit c then atoi_digits e (v * 10 + (code c - 48)) r else Ok v
  end.
Definition atoi (e : past) (b : bytes) : res Z :=
  let b := skip_c_space b in
  c ← deref e b;
  let '(sign, b) := if c =?c "-" then (-1, tail b) else if c =?c "+" then (1, tail b) else (1, b) in
  v ← atoi_digits e 0 b;
  if in_range int_t (sign * v) then Ok (sign * v) else Undef.

(** ** A connection

    [E] and [U] are the events and the state of the methods.  [out_ids] is
    the [_out_ids] of the caller of each method, by its place in the list of
    methods. *)
Section connection.
Context {E U : Type}.

(* src: fas/adv/json_rpc3/ad_invoke.hpp 18-26 ad_invoke *)
Record conn := Conn {
  in_ids : gmultiset Z;
  id_count : Z;
  out_ids : gmap nat (gset Z);
  user : U;
}.

Definition set_in_ids (ids : gmultiset Z) (c : conn) : conn := Conn ids (id_count c) (out_ids c) (user c).
Definition set_id_count (n : Z) (c : conn) : conn := Conn (in_ids c) n (out_ids c) (user c).
Definition set_out_ids (ids : gmap nat (gset Z)) (c : conn) : conn := Conn (in_ids c) (id_count c) ids (user c).
Definition set_user (s : U) (c : conn) : conn := Conn (in_ids c) (id_count c) (out_ids c) s.

(** What a connection does: bytes written, [t.release(false)], the clock
    advices around a call, and the events of the methods. *)
Inductive out :=
  | Write (d : bytes)
  | Release
  | Clock_start
  | Mark (position : nat)
  | Clock_finish
  | Emit (ev : E).

Abbreviation io := (prog out conn).

(** The writer of [rn_json_aspect] frames each message. *)
Definition _writer_ (d : bytes) : io unit := op_emit (Write (rn_write d)).

(* src: fas/adv/json_rpc3/ad_invoke.hpp 29-34 ad_invoke::clear *)
Definition ad_clear : io unit := op_modify (λ c, set_in_ids ∅ (set_id_count 0 c)).

(* src: fas/adv/json_rpc3/ad_invoke.hpp 119-119 ad_invoke::create_id *)
Definition create_id : io Z :=
  n ← op_get id_count;
  n ← op_lift (int_op int_t (n + 1));
  op_modify (set_id_count n);;
  mret n.

(* src: fas/adv/json_rpc3/ad_invoke.hpp 121-125 ad_invoke::request *)
Definition ad_request (id : Z) (d : bytes) : io unit := _writer_ d.

(** [itr = _in_ids.lower_bound(id)], erased if it is [id]. *)
Definition erase_in_id (id : Z) : io unit := op_modify (λ c, set_in_ids (in_ids c ∖ {[+ id +]}) c).

(* src: fas/adv/json_rpc3/ad_invoke.hpp 127-137 ad_invoke::response *)
Definition ad_response (id : Z) (d : bytes) : io unit := erase_in_id id;; _writer_ d.

(* src: fas/adv/json_rpc3/ad_invoke.hpp 139-143 ad_invoke::notify *)
Definition ad_notify (d : bytes) : io unit := _writer_ d.

(* src: fas/adv/json_rpc3/ad_invoke.hpp 145-159 ad_invoke::error *)
Definition ad_error (id : Z) (d : bytes) : io unit := erase_in_id id;; _writer_ d.

(** ** Errors *)

Definition percent_d (z : Z) : bytes := str (pretty z).

(** [snprintf(data, 255, ...)] into an array of 255, of which as many bytes
    are then used as the text would have had. *)
Definition snprintf (text : bytes) : res bytes := if (length text <? 255)%nat then Ok text else Undef.

Definition json_error_text (code : Z) (text : bytes) (id : bytes) : bytes :=
  js "{'jsonrpc': '2.0', 'error': {'code': " ++ percent_d code ++ js ", 'message': '" ++ text
  ++ js ".'}, 'id': " ++ id ++ str "}".

(* src: common/aspect/json_aspect.hpp 70-77 ad_json_error::operator() *)
Definition json_error_id (id code : Z) (text : bytes) : io unit :=
  data ← op_lift (snprintf (json_error_text code text (percent_d id)));
  ad_error id data.

(* src: common/aspect/json_aspect.hpp 79-98 ad_json_error::operator() *)
Definition json_error_null (code : Z) (text : bytes) : io unit :=
  data ← op_lift (snprintf (json_error_text code text (str "null")));
  ad_error 0 data.

(* src: common/aspect/json_aspect.hpp 111-119 ad_invalid_json::operator() *)
Definition invalid_json_advice : io unit :=
  json_error_null (-32600) (str "Invalid JSON-RPC.");; op_emit Release.

(* src: common/aspect/json_aspect.hpp 121-129 ad_unknown_method::operator() *)
Definition unknown_method : io unit :=
  json_error_null (-32601) (str "Procedure not found.");; op_emit Release.

(** ** Methods *)

(** What a class says of its incoming requests ([invoke_request],
    [invoke_response] and [request]); [i_fresh] is what a new variable for
    the result holds. *)
Record invoker := Invoker {
  i_params : Type;
  i_result : Type;
  invoke_request : serializer i_params;
  invoke_response : serializer i_result;
  i_fresh : i_result;
  i_request : i_params → Z → i_result → io (bool * i_result);
}.

(** Of its outgoing ones ([call_request], [call_response] and [response]). *)
Record caller := Caller {
  c_params : Type;
  c_result : Type;
  call_request : serializer c_params;
  call_response : serializer c_result;
  c_response : c_result → Z → io unit;
}.

(** Of incoming and outgoing notifications. *)
Record notified := Notified {
  n_params : Type;
  invoke_notify : serializer n_params;
  n_notify : n_params → io unit;
}.

(** A class that lacks the types of a kind gets the empty base class. *)
(* src: fas/adv/json_rpc3/method.hpp 331-353 method *)
Record method := Method {
  name : bytes;
  m_invoker : option invoker;
  m_caller : option caller;
  m_notified : option notified;
}.

(** ** A method and its connection

    [past] says what lies behind the datagrams. *)
Context (e : past).

(** The answer of [request] and of the asynchronous [response]. *)
(* src: fas/adv/json_rpc3/method.hpp 99-112 invoker::response *)
Definition invoker_response (m : invoker) (result : i_result m) (id : Z) : io unit :=
  let res := Response_object (rs_jsonrpc (new_response result)) result id in
  v ← op_lift (ser (response_maker (invoke_response m)) res);
  match v with [] => mret tt | _ => ad_response id v end.

(** [Some next]: the text was read up to there; [None] is the null pointer. *)
(* src: fas/adv/json_rpc3/method.hpp 67-97 invoker::request *)
Definition invoker_request (m : invoker) (b : bytes) : io (option bytes) :=
  match b with
  | [] => mret None
  | _ =>
      match unser (request_maker (invoke_request m)) e (dflt (request_maker (invoke_request m))) b with
      | Ok (req, next) =>
          '(flag, result) ← i_request m (rq_params req) (rq_id req) (i_fresh m);
          (if flag : bool then invoker_response m result (rq_id req) else mret tt);;
          mret (Some next)
      | Throw _ => invalid_json_advice;; mret None
      | Undef => op_lift Undef
      | NoFuel => op_lift NoFuel
      end
  end.

Definition ids_of (i : nat) (c : conn) : gset Z := default ∅ (out_ids c !! i).
Definition set_ids_of (i : nat) (ids : gset Z) (c : conn) : conn :=
  set_out_ids (<[i := ids]> (out_ids c)) c.

(* src: fas/adv/json_rpc3/method.hpp 160-163 caller::has_id *)
Definition has_id (i : nat) (id : Z) (c : conn) : bool := bool_decide (id ∈ ids_of i c).

(* src: fas/adv/json_rpc3/method.hpp 165-165 caller::ids_size *)
Definition ids_size (i : nat) (c : conn) : nat := size (ids_of i c).

(* src: fas/adv/json_rpc3/method.hpp 167-172 caller::get_ids *)
Definition get_ids (i : nat) (c : conn) : list Z := merge_sort Z.le (elements (ids_of i c)).

(* src: fas/adv/json_rpc3/method.hpp 175-175 caller::clear *)
Definition caller_clear (i : nat) : io unit := op_modify (set_ids_of i ∅).

(* src: fas/adv/json_rpc3/method.hpp 177-191 caller::request *)
Definition caller_request (i : nat) (nm : bytes) {P} (J : serializer P) (param : P) : io Z :=
  id ← create_id;
  let req := Request_object (strncpy 8 (str "2.0")) (strncpy 64 nm) param id in
  op_modify (λ c, set_ids_of i ({[ id ]} ∪ ids_of i c) c);;
  v ← op_lift (ser (request_maker J) req);
  (match v with [] => mret tt | _ => ad_request id v end);;
  mret id.

(** [_invalid_id_] is a stub of the aspect. *)
(* src: fas/adv/json_rpc3/method.hpp 193-221 caller::response *)
Definition caller_response (i : nat) (m : caller) (b : bytes) : io (option bytes) :=
  match b with
  | [] => mret None
  | _ =>
      match unser (response_maker (call_response m)) e (dflt (response_maker (call_response m))) b with
      | Ok (res, next) =>
          known ← op_get (has_id i (rs_rid res));
          (if known : bool then
             c_response m (rs_result res) (rs_rid res);;
             op_modify (λ c, set_ids_of i (ids_of i c ∖ {[ rs_rid res ]}) c)
           else mret tt);;
          mret (Some next)
      | Throw _ => invalid_json_advice;; mret None
      | Undef => op_lift Undef
      | NoFuel => op_lift NoFuel
      end
  end.

(* src: fas/adv/json_rpc3/method.hpp 262-280 notified::notify *)
Definition notified_notify (m : notified) (b : bytes) : io (option bytes) :=
  match b with
  | [] => mret None
  | _ =>
      match unser (notify_maker (invoke_notify m)) e (dflt (notify_maker (invoke_notify m))) b with
      | Ok (ntf, next) => n_notify m (nt_params ntf);; mret (Some next)
      | Throw _ => invalid_json_advice;; mret None
      | Undef => op_lift Undef
      | NoFuel => op_lift NoFuel
      end
  end.

(* src: fas/adv/json_rpc3/method.hpp 309-319 notifier::notify *)
Definition notifier_notify {P} (nm : bytes) (call_notify : serializer P) (param : P) : io unit :=
  v ← op_lift (ser (notify_maker call_notify) (Notify_object (strncpy 8 (str "2.0")) (strncpy 64 nm) param));
  match v with [] => mret tt | _ => ad_notify v end.

(* src: fas/adv/json_rpc3/method.hpp 115-128 invoker<M, false>::request *)
Definition method_invoke_request (m : method) (b : bytes) : io (option bytes) :=
  match m_invoker m with Some k => invoker_request k b | None => mret (Some b) end.
(* src: fas/adv/json_rpc3/method.hpp 283-290 notified<M, false>::notify *)
Definition method_invoke_notify (m : method) (b : bytes) : io (option bytes) :=
  match m_notified m with Some k => notified_notify k b | None => mret (Some b) end.
(* src: fas/adv/json_rpc3/method.hpp 226-243 caller<M, false>::response *)
Definition method_invoke_response (i : nat) (m : method) (b : bytes) : io (option bytes) :=
  match m_caller m with Some k => caller_response i k b | None => mret (Some b) end.
(* src: fas/adv/json_rpc3/method.hpp 388-391 method::has_id *)
Definition method_has_id (i : nat) (m : method) (id : Z) (c : conn) : bool :=
  match m_caller m with Some _ => has_id i id c | None => false end.

(** [M::clear], which only [rep_setstate] defines with a body, comes first. *)
(* src: fas/adv/json_rpc3/method.hpp 365-371 method::clear *)
Definition method_clear (i : nat) (clear : io unit) (m : method) : io unit :=
  clear;; match m_caller m with Some _ => caller_clear i | None => mret tt end.

(** ** Dispatch *)

(** One call between the clock advices; the method's place is marked. *)
(* src: fas/adv/json_rpc3/ad_invoke.hpp 323-326 ad_invoke::_invoke *)
Definition timed {A} (i : nat) (call : io A) : io A :=
  op_emit Clock_start;; next ← call; op_emit (Mark i);; op_emit Clock_finish;; mret next.

(** The methods from the place [i] on.  [_lost_result_] is a stub. *)
(* src: fas/adv/json_rpc3/ad_invoke.hpp 305-361 ad_invoke::_invoke *)
Fixpoint _invoke (i : nat) (ms : list method) (nm b : bytes) (code : Z) : io (option bytes) :=
  match ms with
  | [] => (if code <? 0 then unknown_method else mret tt);; mret None
  | current :: ms =>
      equal ← (if 0 <? code then mret true else op_lift (_raw_equal (name current) e nm));
      if equal : bool then
        if code =? -1 then timed i (method_invoke_request current b)
        else if code =? -2 then timed i (method_invoke_notify current b)
        else
          known ← op_get (method_has_id i current code);
          if known : bool then method_invoke_response i current b
          else _invoke (S i) ms nm b code
      else _invoke (S i) ms nm b code
  end.

Context (methods : list method).

(* src: fas/adv/json_rpc3/ad_invoke.hpp 68-116 ad_invoke::_invoke_1 *)
Definition _invoke_1 (b : bytes) : io (option bytes) :=
  f ← op_lift (_search_ e b);
  match f_method f, f_result f, f_id f with
  | None, None, _ | _, Some _, None => invalid_json_advice;; mret None
  | method, result, id =>
      rid ← op_lift (match id with Some t => atoi e t | None => Ok (-1) end);
      match method, result, id with
      | Some nm, None, Some _ =>
          op_modify (λ c, set_in_ids (in_ids c ⊎ {[+ rid +]}) c);;
          _invoke 0 methods nm b (-1)
      | Some nm, None, None => _invoke 0 methods nm b (-2)
      | None, Some nm, Some _ => _invoke 0 methods nm b rid
      | _, _, _ => invalid_json_advice;; mret None
      end
  end.

(** At most [n] messages of a datagram. *)
(* src: fas/adv/json_rpc3/ad_invoke.hpp 49-62 ad_invoke::operator() *)
Fixpoint invoke_loop (n : nat) (b : bytes) : io unit :=
  match n with
  | O => mret tt
  | S n =>
      next ← _invoke_1 b;
      match next with
      | None => mret tt
      | Some next =>
          if (length next =? length b)%nat then mret tt
          else match skip_low next with
               | [] => mret tt
               | next => invoke_loop n next
               end
      end
  end.

(** [_begin_invoke_] and [_end_invoke_] are stubs. *)
(* src: fas/adv/json_rpc3/ad_invoke.hpp 36-66 ad_invoke::operator() *)
Definition ad_invoke (b : bytes) : io unit :=
  match b with [] => mret tt | _ => invoke_loop 10 b end.
End connection.
