(* ===== verification/JsonRpcSpec.v ===== *)
(** * JsonRpcSpec: the calls reach their methods

    A request that a caller writes is executed by the method it names, with
    the parameters that were sent, and answered under its id; the answer is
    handed to the method that sent the request. *)

From stdpp Require Import gmultiset pretty.
From S2P Require Import Prelude JsonParser JsonNumber Serializer JsonString JsonArray JsonObject Queries.
From S2P Require Import JsonScan Splitter JsonRpc.

#[local] Arguments Ascii.eqb !_ !_.
#[local] Set Default Proof Using "Type".

(** ** Short texts *)

(** Characters that the writer of strings does not escape. *)
Definition word_char (c : ascii) : bool :=
  plain c && (c ≠?c "/") && (32 <=? code c).
Definition word (s : bytes) : Prop := Forall (λ c, word_char c = true) s.

Lemma word_char_spec c : word_char c = true →
  plain c = true ∧ escape_char c = [c] ∧ (c =?c NUL) = false ∧ (c =?c QUOTE) = false ∧
  (c =?c BSLASH) = false ∧ masked 128 0 c = true.
Proof.
  intros Hc.
  enough (implb (word_char c) (plain c && bool_decide (escape_char c = [c]) && (c ≠?c NUL) && (c ≠?c QUOTE)
    && (c ≠?c BSLASH) && masked 128 0 c) = true) as H.
  { rewrite Hc in H. simpl in H. rewrite !andb_true_iff, !negb_true_iff, bool_decide_eq_true in H. tauto. }
  clear Hc. revert c. all_bytes.
Qed.

Lemma word_write s N : word s → write_chars escape_char (pad N s) = s.
Proof.
  unfold pad. generalize (N - length s)%nat. intros k. induction 1 as [|c s Hc Hs IH]; simpl.
  - by destruct k.
  - apply word_char_spec in Hc as (_ & He & Hn & _). by rewrite Hn, He, IH.
Qed.

Lemma word_read s fuel rest out n :
  word s → (length s ≤ fuel)%nat → Z.of_nat (length s) <= n →
  quoted_loop unserialize_turn fuel (s ++ QUOTE :: rest) out n = Ok (QUOTE :: rest, out ++ s).
Proof.
  intros Hs. revert fuel out n. induction Hs as [|c s Hc Hs IH]; intros fuel out n Hf Hn.
  { rewrite app_nil_r. by destruct fuel. }
  apply word_char_spec in Hc as (_ & _ & _ & Hq & Hb & Hm).
  destruct fuel as [|fuel]; simpl in Hf; [lia|]. cbn [quoted_loop app]. rewrite Hq.
  simpl in Hn. rewrite (proj2 (Z.eqb_neq n 0)) by lia. cbn [orb].
  assert (∀ r, unserialize_turn c r out n = Ok (r, out ++ [c], n - 1)) as ->.
  { intros r. unfold unserialize_turn, _unserialize_symbol. by rewrite Hb, Hm. }
  cbn [mbind res_bind].
  rewrite IH by lia. by rewrite <-app_assoc.
Qed.

(** The arrays that hold a short text, and its terminating zeros. *)
Definition word_array (N : nat) (v : bytes) : Prop := ∃ s, v = pad N s ∧ word s ∧ (length s ≤ N)%nat.

#[export] Instance value_chars_RoundTrip N : RoundTripAny (value_chars N) (word_array N).
Proof.
  split. intros v (s & -> & Hs & Hl). eexists. split_and!; [reflexivity|done|]. intros e a0 rest _.
  unfold serialize_string. rewrite word_write by done.
  assert (unserialize_string (QUOTE :: (s ++ [QUOTE]) ++ rest) [] (Z.of_nat N) = Ok (s, rest)) as Hu.
  { unfold unserialize_string, unserialize_loop. rewrite Ascii.eqb_refl, <-app_assoc. cbn [app].
    rewrite word_read; [done|done|rewrite length_app; lia|lia]. }
  change ([QUOTE] ++ s ++ [QUOTE]) with (QUOTE :: s ++ [QUOTE]). rewrite <-app_comm_cons.
  cbn [unser value_chars]. replace (is_null _) with false by done. by rewrite Hu.
Qed.

#[export] Instance value_chars_Scans N : Scans (value_chars N) (λ _, word_array N).
Proof.
  intros bmp v t (s & -> & Hs & Hl) [= <-]. unfold serialize_string.
  rewrite word_write by done. apply (jt_string bmp s).
  apply plain_string_body. eapply Forall_impl; [exact Hs|]. intros c Hc. by apply word_char_spec in Hc as (? & _).
Qed.

Lemma strncpy_word N s : word s → (length s ≤ N)%nat → word_array N (strncpy N s).
Proof. intros Hs Hl. exists s. unfold strncpy. by rewrite take_ge. Qed.

Lemma version_word : word_array 8 (strncpy 8 (str "2.0")).
Proof. apply strncpy_word; [repeat constructor|simpl; lia]. Qed.
#[export] Hint Resolve version_word : core.

(** ** The objects of the protocol *)

(** The requests, answers and notifications that are read back. *)
Definition request_ok {P} (OK : P → Prop) (r : request_object P) : Prop :=
  word_array 8 (rq_jsonrpc r) ∧ word_array 64 (rq_method r) ∧ OK (rq_params r) ∧ roundtrip_int int_t (rq_id r).
Definition response_ok {R} (OK : R → Prop) (r : response_object R) : Prop :=
  word_array 8 (rs_jsonrpc r) ∧ OK (rs_result r) ∧ roundtrip_int int_t (rs_rid r).
Definition notify_ok {P} (OK : P → Prop) (r : notify_object P) : Prop :=
  word_array 8 (nt_jsonrpc r) ∧ word_array 64 (nt_method r) ∧ OK (nt_params r).

#[export] Instance request_ClosedTrip {P} (J : serializer P) OK :
  RoundTrip J OK → ClosedTrip (request_maker J) (request_ok OK).
Proof. unfold request_ok. intros HJ. object_trip. Qed.
#[export] Instance response_ClosedTrip {R} (J : serializer R) OK :
  RoundTrip J OK → ClosedTrip (response_maker J) (response_ok OK).
Proof. unfold response_ok. intros HJ. object_trip. Qed.
#[export] Instance notify_ClosedTrip {P} (J : serializer P) OK :
  RoundTrip J OK → ClosedTrip (notify_maker J) (notify_ok OK).
Proof. unfold notify_ok. intros HJ. object_trip. Qed.

(** ** The texts of the objects *)

(** A member with the text of its value. *)
Definition mem (k v : bytes) : bytes := QUOTE :: k ++ QUOTE :: ":"%char :: v.
Definition quoted (s : bytes) : bytes := QUOTE :: s ++ [QUOTE].

Lemma ser_word N s : word s → (length s ≤ N)%nat → ser (value_chars N) (strncpy N s) = Ok (quoted s).
Proof.
  intros Hs Hl. unfold strncpy. rewrite take_ge by done. cbn [ser value_chars]. unfold serialize_string.
  by rewrite word_write.
Qed.

Definition request_text (nm idt t : bytes) : bytes :=
  "{"%char :: mem (str "jsonrpc") (quoted (str "2.0")) ++ ","%char :: mem (str "method") (quoted nm)
  ++ ","%char :: mem (str "id") idt ++ ","%char :: mem (str "params") t ++ str "}".
Definition notify_text (nm t : bytes) : bytes :=
  "{"%char :: mem (str "jsonrpc") (quoted (str "2.0")) ++ ","%char :: mem (str "method") (quoted nm)
  ++ ","%char :: mem (str "params") t ++ str "}".
Definition response_text (idt t : bytes) : bytes :=
  "{"%char :: mem (str "jsonrpc") (quoted (str "2.0")) ++ ","%char :: mem (str "id") idt
  ++ ","%char :: mem (str "result") t ++ str "}".

(** The text of an id: a numeral. *)
Definition id_text (id : Z) (idt : bytes) : Prop := ser (value_integer int_t) id = Ok idt.

Lemma id_text_numeral id : in_range int_t id = true →
  ∃ ds, id_text id (sign_of id ++ ds) ∧ numeral ds ∧ dval 0 ds = Z.abs id.
Proof.
  intros Hid. destruct (serialize_numeral_of int_t id int_std Hid) as (ds & Hs & Hn & Hv & _). by exists ds.
Qed.

Lemma ser_request {P} (J : serializer P) nm p id idt t :
  word nm → (length nm ≤ 64)%nat → id_text id idt → ser J p = Ok t →
  ser (request_maker J) (Request_object (strncpy 8 (str "2.0")) (strncpy 64 nm) p id)
  = Ok (request_text nm idt t).
Proof.
  intros Hn Hl Hi Ht. cbn [ser request_maker object]. unfold serialize_object. cbn [serialize_members].
  unfold serialize_member, serialize_member_name, id_text in *. cbn [m_ser m_name member rq_jsonrpc rq_method rq_id rq_params].
  rewrite !ser_word by first [done | simpl; lia | repeat constructor; done]. cbn [mbind res_bind mret res_ret].
  rewrite Hi, Ht. cbn [mbind res_bind mret res_ret].
  unfold request_text, mem, quoted. f_equal. simpl. repeat (rewrite <-!app_assoc; simpl). done.
Qed.

Lemma ser_response {R} (J : serializer R) r id idt t :
  id_text id idt → ser J r = Ok t →
  ser (response_maker J) (Response_object (strncpy 8 (str "2.0")) r id) = Ok (response_text idt t).
Proof.
  intros Hi Ht. cbn [ser response_maker object]. unfold serialize_object. cbn [serialize_members].
  unfold serialize_member, serialize_member_name, id_text in *. cbn [m_ser m_name member rs_jsonrpc rs_result rs_rid].
  rewrite !ser_word by first [done | simpl; lia | repeat constructor; done]. cbn [mbind res_bind mret res_ret].
  rewrite Hi, Ht. cbn [mbind res_bind mret res_ret].
  unfold response_text, mem, quoted. f_equal. simpl. repeat (rewrite <-!app_assoc; simpl). done.
Qed.

(** ** The search *)

Lemma search_next k v e f f' tl n :
  string_body true k → jtext true v →
  search_keys e (mem k v ++ ","%char :: tl) f = Ok f' →
  search_loop (S n) e (mem k v ++ ","%char :: tl) f = search_loop n e (parse_space tl) f'.
Proof.
  intros Hk Hv Hf. cbn [search_loop]. unfold mem in *. rewrite <-app_comm_cons, <-app_assoc in *.
  cbn [app] in *. rewrite Hf. cbn [mbind res_bind].
  destruct (jtext_parse_member true k v e (","%char :: tl) Hk Hv comma_delim) as [->|[[=] _]].
  by rewrite parse_space_delim by apply comma_delim.
Qed.

(** At the last member the search ends, scanned or not. *)
Lemma search_last bmp k v e f f' tl n :
  string_body bmp k → jtext bmp v →
  search_keys e (mem k v ++ "}"%char :: tl) f = Ok f' →
  search_loop (S n) e (mem k v ++ "}"%char :: tl) f = Ok f'.
Proof.
  intros Hk Hv Hf. cbn [search_loop]. unfold mem in *. rewrite <-app_comm_cons, <-app_assoc in *.
  cbn [app] in *. rewrite Hf. cbn [mbind res_bind].
  assert (delim ("}"%char :: tl)) as Hd by (apply list_elem_of_In; simpl; auto).
  destruct (jtext_parse_member bmp k v e ("}"%char :: tl) Hk Hv Hd) as [->|[_ [x ->]]]; [|done].
  by rewrite parse_space_delim.
Qed.

(** Where the value of a key is found. *)
Lemma search_string s e tl :
  _search_tovalue_ e (":"%char :: quoted s ++ tl) = Ok (Some (s ++ QUOTE :: tl)).
Proof.
  unfold _search_tovalue_, quoted. simpl. rewrite <-app_assoc. simpl. by destruct s.
Qed.

Lemma numeral_head ds : numeral ds → ∃ c r, ds = c :: r ∧ is_digit c = true.
Proof.
  intros (Hd & Hne & _). destruct ds as [|c r]; [done|]. exists c, r. split; [done|]. by apply Forall_inv in Hd.
Qed.

Lemma search_number id ds e tl :
  numeral ds → _search_tovalue_ e (":"%char :: (sign_of id ++ ds) ++ tl) = Ok (Some ((sign_of id ++ ds) ++ tl)).
Proof.
  intros Hn. apply numeral_head in Hn as (c & r & -> & Hc).
  assert (∃ d x, sign_of id ++ c :: r = d :: x ∧ (schar d <=? 32) = false ∧ (d =?c QUOTE) = false) as (d & x & -> & Hd & Hq).
  { unfold sign_of. case_match; simpl; do 2 eexists; (split; [reflexivity|]); [done|].
    enough (implb (is_digit c) (negb (schar c <=? 32) && (c ≠?c QUOTE)) = true) as Hi.
    { rewrite Hc in Hi. simpl in Hi. by rewrite andb_true_iff, !negb_true_iff in Hi. }
    clear. revert c. all_bytes. }
  unfold _search_tovalue_. cbn [skip_low deref mbind res_bind tail app]. change (schar ":" <=? 32) with false.
  cbn iota. cbn [deref mbind res_bind]. change (":" =?c ":") with true. cbn [tail skip_low].
  rewrite Hd. unfold starts_with. by rewrite Hq.
Qed.

Lemma atoi_numeral id ds e tl :
  numeral ds → dval 0 ds = Z.abs id → in_range int_t id = true →
  atoi e ((sign_of id ++ ds) ++ ","%char :: tl) = Ok id.
Proof.
  intros (Hds & Hne & _) Hv Hr.
  assert (∀ l v, digits l → atoi_digits e v (l ++ ","%char :: tl) = Ok (dval v l)) as Hd.
  { clear. intros l v Hl. revert v. induction Hl as [|c l Hc _ IH]; intros v; [done|]. simpl. rewrite Hc. apply IH. }
  destruct ds as [|c ds]; [done|]. pose proof (Forall_inv Hds) as Hc. simpl in Hc.
  assert (∀ x, skip_c_space (c :: x) = c :: x ∧ (c =?c "-") = false ∧ (c =?c "+") = false) as Hskip.
  { intros x. simpl.
    enough (implb (is_digit c) (negb (c_space c) && (c ≠?c "-") && (c ≠?c "+")) = true) as Hi.
    { rewrite Hc in Hi. simpl in Hi. rewrite !andb_true_iff, !negb_true_iff in Hi.
      destruct Hi as ((-> & ->) & ->). done. }
    clear. revert c. all_bytes. }
  destruct (Hskip (ds ++ ","%char :: tl)) as (Hs & Hm & Hp).
  unfold atoi, sign_of. destruct (Z.ltb_spec id 0) as [Hneg|Hpos].
  - change ((str "-" ++ c :: ds) ++ ","%char :: tl) with ("-"%char :: (c :: ds) ++ ","%char :: tl).
    cbn [skip_c_space]. change (c_space "-") with false. cbn [deref mbind res_bind].
    change ("-" =?c "-") with true. cbn [tail]. rewrite Hd by done. cbn [mbind res_bind].
    rewrite Hv. replace (-1 * Z.abs id) with id by lia. by rewrite Hr.
  - cbn [app]. rewrite Hs. cbn [deref mbind res_bind]. rewrite Hm, Hp.
    rewrite (Hd (c :: ds)) by done. cbn [mbind res_bind].
    rewrite Hv. replace (1 * Z.abs id) with id by lia. by rewrite Hr.
Qed.

Lemma search_keys_jsonrpc v tl e f : search_keys e (mem (str "jsonrpc") v ++ tl) f = Ok f.
Proof. by destruct f. Qed.
Lemma search_keys_params v tl e f : search_keys e (mem (str "params") v ++ tl) f = Ok f.
Proof. by destruct f. Qed.
Lemma search_keys_method s tl e f :
  search_keys e (mem (str "method") (quoted s) ++ tl) f = Ok (Found (Some (s ++ QUOTE :: tl)) (f_result f) (f_id f)).
Proof.
  unfold search_keys, mem. rewrite <-app_comm_cons, <-app_assoc.
  change (search_key s_result e (QUOTE :: str "method" ++ ?x) ?y) with (Ok y : res (option bytes)).
  change (search_key s_id e (QUOTE :: str "method" ++ ?x) ?y) with (Ok y : res (option bytes)).
  unfold search_key.
  change (match_key (s_method ++ [NUL]) (QUOTE :: str "method" ++ ?x)) with (Ok 8%nat : res nat).
  cbn [mbind res_bind]. change (8 =? length s_method)%nat with true. cbn iota.
  change (drop 8 _) with (":"%char :: quoted s ++ tl). by rewrite search_string.
Qed.
Lemma search_keys_id id ds tl e f :
  numeral ds →
  search_keys e (mem (str "id") (sign_of id ++ ds) ++ tl) f
  = Ok (Found (f_method f) (f_result f) (Some ((sign_of id ++ ds) ++ tl))).
Proof.
  intros Hn. unfold search_keys, mem. rewrite <-app_comm_cons, <-app_assoc.
  change (search_key s_method e (QUOTE :: str "id" ++ ?x) ?y) with (Ok y : res (option bytes)).
  change (search_key s_result e (QUOTE :: str "id" ++ ?x) ?y) with (Ok y : res (option bytes)).
  cbn [mbind res_bind]. unfold search_key.
  change (match_key (s_id ++ [NUL]) (QUOTE :: str "id" ++ ?x)) with (Ok 4%nat : res nat).
  cbn [mbind res_bind]. change (4 =? length s_id)%nat with true. cbn iota.
  change (drop 4 _) with (":"%char :: (sign_of id ++ ds) ++ tl). by rewrite search_number.
Qed.

(** Where the value of [result] starts, behind the quote of a string. *)
Definition value_start (t : bytes) : bytes := if starts_with QUOTE t then tail t else t.

Lemma jtext_head bmp t : jtext bmp t → ∃ c r, t = c :: r ∧ (schar c <=? 32) = false.
Proof.
  intros [[]|t' [Hn _]| | |]; try (simpl; by do 2 eexists).
  apply is_number_head in Hn as (c & r & -> & Hc). exists c, r. split; [done|].
  destruct Hc as [->|Hc]; [done|].
  enough (implb (is_digit c) (negb (schar c <=? 32)) = true) as Hi.
  { rewrite Hc in Hi. simpl in Hi. by apply negb_true_iff in Hi. }
  clear. revert c. all_bytes.
Qed.

Lemma search_keys_result bmp t tl e f :
  jtext bmp t → tl ≠ [] →
  search_keys e (mem (str "result") t ++ tl) f = Ok (Found (f_method f) (Some (value_start t ++ tl)) (f_id f)).
Proof.
  intros Ht Htl. unfold search_keys, mem. rewrite <-app_comm_cons, <-app_assoc.
  change (search_key s_method e (QUOTE :: str "result" ++ ?x) ?y) with (Ok y : res (option bytes)).
  change (search_key s_id e (QUOTE :: str "result" ++ ?x) ?y) with (Ok y : res (option bytes)).
  cbn [mbind res_bind]. unfold search_key.
  change (match_key (s_result ++ [NUL]) (QUOTE :: str "result" ++ ?x)) with (Ok 8%nat : res nat).
  cbn [mbind res_bind]. change (8 =? length s_result)%nat with true. cbn iota.
  change (drop 8 _) with (":"%char :: t ++ tl).
  destruct (jtext_head bmp t Ht) as (c & r & -> & Hc).
  unfold _search_tovalue_. cbn [skip_low deref mbind res_bind tail app]. change (schar ":" <=? 32) with false.
  cbn iota. cbn [deref mbind res_bind]. change (":" =?c ":") with true. cbn [tail skip_low].
  rewrite Hc. unfold value_start, starts_with. destruct (c =?c QUOTE); cbn [tail app]; [|done].
  destruct (r ++ tl) eqn:Hrt; [|done]. by apply app_eq_nil in Hrt as [_ ?].
Qed.

(** ** What a datagram is taken for *)

Lemma quoted_jtext s : word s → jtext true (quoted s).
Proof.
  intros Hs. apply (jt_string true s). apply plain_string_body. eapply Forall_impl; [exact Hs|].
  intros c Hc. by apply word_char_spec in Hc as (? & _).
Qed.

Lemma plain_body bmp k : forallb plain k = true → string_body bmp k.
Proof. intros Hk. apply plain_string_body. apply Forall_forall. rewrite forallb_forall in Hk. intros c Hc. by apply Hk, list_elem_of_In. Qed.

Lemma search_request nm id ds t e tl :
  word nm → numeral ds → jtext false t →
  ∃ x y, _search_ e (request_text nm (sign_of id ++ ds) t ++ tl)
       = Ok (Found (Some (nm ++ QUOTE :: x)) None (Some ((sign_of id ++ ds) ++ ","%char :: y))).
Proof.
  intros Hn Hds Ht.
  assert (∀ y f, search_keys e (mem (str "id") (sign_of id ++ ds) ++ y) f
    = Ok (Found (f_method f) (f_result f) (Some ((sign_of id ++ ds) ++ y)))) as Hid
    by (intros; by apply search_keys_id).
  pose proof (jt_number true _ (numeral_text ds Hds (sign_of id) ltac:(unfold sign_of; case_match; auto))) as Hj.
  revert Hid Hj. generalize (sign_of id ++ ds). intros idt Hid Hj.
  do 2 eexists. unfold _search_, request_text.
  rewrite <-app_comm_cons. change (parse_space ("{"%char :: ?x)) with ("{"%char :: x). cbn iota. rewrite Ascii.eqb_refl.
  repeat (rewrite <-!app_assoc; cbn [app]).
  change (parse_space (mem ?k ?v ++ ?x)) with (mem k v ++ x).
  remember (length _) as n eqn:Hlen.
  assert (4 ≤ n)%nat as H4.
  { rewrite Hlen. unfold mem. simpl. repeat (rewrite length_app; simpl). lia. }
  destruct n as [|[|[|[|n]]]]; [lia..|]. clear Hlen H4.
  rewrite (search_next (str "jsonrpc") (quoted (str "2.0")) e _ _ _ _ ltac:(by apply plain_body)
    ltac:(apply quoted_jtext; repeat constructor) (search_keys_jsonrpc _ _ _ _)).
  change (parse_space (mem ?k ?v ++ ?x)) with (mem k v ++ x).
  rewrite (search_next (str "method") (quoted nm) e _ _ _ _ ltac:(by apply plain_body)
    (quoted_jtext nm Hn) (search_keys_method _ _ _ _)).
  change (parse_space (mem ?k ?v ++ ?x)) with (mem k v ++ x).
  rewrite (search_next (str "id") idt e _ _ _ _ ltac:(by apply plain_body) Hj (Hid _ _)).
  change (parse_space (mem ?k ?v ++ ?x)) with (mem k v ++ x).
  change (str "}" ++ tl) with ("}"%char :: tl).
  by rewrite (search_last false (str "params") t e _ _ _ _ ltac:(by apply plain_body) Ht (search_keys_params _ _ _ _)).
Qed.

Lemma search_response id ds t e tl :
  numeral ds → jtext false t →
  ∃ x y, _search_ e (response_text (sign_of id ++ ds) t ++ tl)
       = Ok (Found None (Some (value_start t ++ x)) (Some ((sign_of id ++ ds) ++ ","%char :: y))).
Proof.
  intros Hds Ht.
  assert (∀ y f, search_keys e (mem (str "id") (sign_of id ++ ds) ++ y) f
    = Ok (Found (f_method f) (f_result f) (Some ((sign_of id ++ ds) ++ y)))) as Hid
    by (intros; by apply search_keys_id).
  pose proof (jt_number true _ (numeral_text ds Hds (sign_of id) ltac:(unfold sign_of; case_match; auto))) as Hj.
  revert Hid Hj. generalize (sign_of id ++ ds). intros idt Hid Hj.
  do 2 eexists. unfold _search_, response_text.
  rewrite <-app_comm_cons. change (parse_space ("{"%char :: ?x)) with ("{"%char :: x). cbn iota. rewrite Ascii.eqb_refl.
  repeat (rewrite <-!app_assoc; cbn [app]).
  change (parse_space (mem ?k ?v ++ ?x)) with (mem k v ++ x).
  remember (length _) as n eqn:Hlen.
  assert (3 ≤ n)%nat as H3.
  { rewrite Hlen. unfold mem. simpl. repeat (rewrite length_app; simpl). lia. }
  destruct n as [|[|[|n]]]; [lia..|]. clear Hlen H3.
  rewrite (search_next (str "jsonrpc") (quoted (str "2.0")) e _ _ _ _ ltac:(by apply plain_body)
    ltac:(apply quoted_jtext; repeat constructor) (search_keys_jsonrpc _ _ _ _)).
  change (parse_space (mem ?k ?v ++ ?x)) with (mem k v ++ x).
  rewrite (search_next (str "id") idt e _ _ _ _ ltac:(by apply plain_body) Hj (Hid _ _)).
  change (parse_space (mem ?k ?v ++ ?x)) with (mem k v ++ x).
  change (str "}" ++ tl) with ("}"%char :: tl).
  rewrite (search_last false (str "result") t e _ _ _ _ ltac:(by apply plain_body) Ht
    (search_keys_result false t ("}"%char :: tl) e _ Ht ltac:(done))). reflexivity.
Qed.

Lemma raw_equal_spec nm nm' e x :
  word nm → word nm' → _raw_equal nm e (nm' ++ QUOTE :: x) = Ok (bool_decide (nm = nm')).
Proof.
  intros Hn. revert nm'. induction Hn as [|c nm Hc Hn IH]; intros nm' Hn'.
  - destruct Hn' as [|d nm' Hd Hn']; [done|]. simpl. apply word_char_spec in Hd as (_ & _ & _ & -> & _). done.
  - destruct Hn' as [|d nm' Hd Hn']; [done|]. cbn [_raw_equal app deref mbind res_bind tail].
    apply word_char_spec in Hd as (_ & _ & _ & -> & _).
    destruct (Ascii.eqb_spec d c) as [->|Hdc].
    + rewrite IH by done. f_equal. apply bool_decide_ext. split; [by intros ->|by intros [= ->]].
    + rewrite bool_decide_false; [done|]. intros [= -> ->]. done.
Qed.

(** ** Requests *)

Section calls.
Context {E U : Type} (e : past) (methods : list (@method E U)).
Hypothesis Hnames : Forall (λ m, word (name m) ∧ (length (name m) ≤ 64)%nat) methods.

(** The first method of a name. *)
Definition named (nm : bytes) (i : nat) (m : @method E U) : Prop :=
  methods !! i = Some m ∧ name m = nm ∧ ∀ j m', (j < i)%nat → methods !! j = Some m' → name m' ≠ nm.

Lemma invoke_by_name (ms : list (@method E U)) i0 i m nm x b code :
  code < 0 → Forall (λ m, word (name m) ∧ (length (name m) ≤ 64)%nat) ms → word nm →
  ms !! i = Some m → name m = nm → (∀ j m', (j < i)%nat → ms !! j = Some m' → name m' ≠ nm) →
  _invoke e i0 ms (nm ++ QUOTE :: x) b code
  ≃ (if code =? -1 then timed (i0 + i) (method_invoke_request e m b)
     else if code =? -2 then timed (i0 + i) (method_invoke_notify e m b)
     else _invoke e i0 ms (nm ++ QUOTE :: x) b code).
Proof.
  intros Hcode Hms Hnm. revert i0 i. induction Hms as [|m0 ms [Hm0 _] Hms IH]; intros i0 i Hi Hm Hfirst; [done|].
  destruct (code =? -1) eqn:H1; [|destruct (code =? -2) eqn:H2; [|done]]; cbn [_invoke];
    rewrite H1, ?H2, (proj2 (Z.ltb_ge 0 code)) by lia; rewrite (raw_equal_spec (name m0) nm) by done;
    rewrite op_lift_bind; destruct i as [|i]; simpl in Hi.
  1,3: injection Hi as ->; rewrite bool_decide_true by done; by rewrite Nat.add_0_r.
  all: rewrite bool_decide_false by (apply (Hfirst 0%nat m0); [lia|done]);
    replace (i0 + S i)%nat with (i0 + 1 + i)%nat by lia;
    pose proof (IH (i0 + 1)%nat i Hi Hm) as Hi'; rewrite ?H1, ?H2 in Hi';
    replace (S i0) with (i0 + 1)%nat by lia;
    apply Hi'; intros j m' Hj; apply (Hfirst (S j)); lia.
Qed.

Lemma invoke_by_id (ms : list (@method E U)) i0 i m k nm b id c :
  0 < id → ms !! i = Some m → m_caller m = Some k → id ∈ ids_of (i0 + i) c →
  (∀ j m', (j < i)%nat → ms !! j = Some m' → method_has_id (i0 + j) m' id c = false) →
  _invoke e i0 ms nm b id c = caller_response e (i0 + i) k b c.
Proof.
  intros Hid. revert i0 i. induction ms as [|m0 ms IH]; intros i0 i Hi Hk Hin Hfirst; [done|].
  cbn [_invoke]. rewrite (proj2 (Z.ltb_lt 0 id)) by lia. rewrite (equiv_at (op_ret_bind true _) c). cbn iota.
  rewrite (proj2 (Z.eqb_neq id (-1))), (proj2 (Z.eqb_neq id (-2))) by lia.
  unfold op_get. unfold mbind at 1, op_bind at 1. destruct i as [|i]; simpl in Hi.
  - injection Hi as ->. rewrite Nat.add_0_r in *. unfold method_has_id, has_id, method_invoke_response.
    rewrite Hk, bool_decide_true by done. by destruct (caller_response e i0 k b c) as [[] ?].
  - pose proof (Hfirst 0%nat m0 ltac:(lia) eq_refl) as H0. rewrite Nat.add_0_r in H0. rewrite H0.
    replace (S i0) with (i0 + 1)%nat by lia.
    rewrite (IH (i0 + 1)%nat i Hi Hk); replace (i0 + 1 + i)%nat with (i0 + S i)%nat by lia; [|done|].
    + by destruct (caller_response e (i0 + S i) k b c) as [[] ?].
    + intros j m' Hj Hm'. replace (i0 + 1 + j)%nat with (i0 + S j)%nat by lia.
      by apply (Hfirst (S j) m'); [lia|].
Qed.

(** The texts determine the objects. *)
Lemma request_read {P} (J : serializer P) OK nm p id idt t :
  RoundTrip J OK → OK p → roundtrip_int int_t id → word nm → (length nm ≤ 64)%nat →
  id_text id idt → ser J p = Ok t →
  ∀ rest, unser (request_maker J) e (dflt (request_maker J)) (request_text nm idt t ++ rest)
          = Ok (Request_object (strncpy 8 (str "2.0")) (strncpy 64 nm) p id, rest).
Proof.
  intros HJ Hp Hid Hn Hl Hi Ht rest.
  pose proof (ser_request J nm p id idt t Hn Hl Hi Ht) as Hs.
  destruct (closed_trip (s := request_maker J) (P := request_ok OK)
    (Request_object (strncpy 8 (str "2.0")) (strncpy 64 nm) p id)) as (t' & Es & _ & Hr).
  { unfold request_ok. split_and!; [done|by apply strncpy_word|done|done]. }
  rewrite Hs in Es. injection Es as <-. apply Hr.
Qed.

Lemma response_read {R} (J : serializer R) OK r id idt t :
  RoundTrip J OK → OK r → roundtrip_int int_t id → id_text id idt → ser J r = Ok t →
  ∀ rest, unser (response_maker J) e (dflt (response_maker J)) (response_text idt t ++ rest)
          = Ok (Response_object (strncpy 8 (str "2.0")) r id, rest).
Proof.
  intros HJ Hr Hid Hi Ht rest.
  pose proof (ser_response J r id idt t Hi Ht) as Hs.
  destruct (closed_trip (s := response_maker J) (P := response_ok OK)
    (Response_object (strncpy 8 (str "2.0")) r id)) as (t' & Es & _ & Hrd).
  { unfold response_ok. by split_and!. }
  rewrite Hs in Es. injection Es as <-. apply Hrd.
Qed.

(** The message is the whole datagram: the line end behind it is skipped. *)
Lemma invoke_one (d : bytes) (body : prog out (conn (U := U)) (option bytes)) :
  d ≠ [] → _invoke_1 e methods (rn_write d) ≃ (body ≫= λ _, mret (Some [CR; LF])) →
  ad_invoke e methods (rn_write d) ≃ (body ≫= λ _, mret tt).
Proof.
  intros Hd Hb. destruct d as [|x d]; [done|]. unfold ad_invoke.
  change (match rn_write (x :: d) with [] => mret tt | _ => invoke_loop e methods 10 (rn_write (x :: d)) end)
    with (invoke_loop e methods 10 (rn_write (x :: d))).
  cbn [invoke_loop]. rewrite Hb, op_bind_assoc. apply op_bind_ext. intros a. rewrite op_ret_bind.
  replace (length [CR; LF] =? length (rn_write (x :: d)))%nat with false; [done|].
  symmetry. apply Nat.eqb_neq. unfold rn_write. rewrite length_app. simpl. lia.
Qed.

(** The call of a method's [request] and its answer. *)
Definition run_request (i : nat) (k : @invoker E U) (p : i_params k) (id : Z) : prog out (conn (U := U)) unit :=
  op_modify (λ c, set_in_ids (in_ids c ⊎ {[+ id +]}) c);;
  op_emit Clock_start;;
  '(flag, result) ← i_request k p id (i_fresh k);
  (if flag : bool then invoker_response k result id else mret tt);;
  op_emit (Mark i);; op_emit Clock_finish.

(** One message of a datagram, whatever follows it. *)
Lemma request_invoke_1 nm i m k OK p id idt t tl :
  named nm i m → m_invoker m = Some k → RoundTrip (invoke_request k) OK → OK p →
  roundtrip_int int_t id → id_text id idt → ser (invoke_request k) p = Ok t → jtext false t →
  _invoke_1 e methods (request_text nm idt t ++ tl) ≃ (run_request i k p id ≫= λ _, mret (Some tl)).
Proof using Hnames.
  intros (Hi & Hnm & Hfirst) Hk HJ Hp Hid Hidt Ht Hj.
  assert (word nm ∧ (length nm ≤ 64)%nat) as [Hword Hlen].
  { rewrite Forall_forall in Hnames. rewrite <-Hnm. apply Hnames. by eapply list_elem_of_lookup_2. }
  destruct (id_text_numeral id (proj1 Hid)) as (ds & Hds & Hnum & Hval).
  assert (idt = sign_of id ++ ds) as -> by (unfold id_text in *; congruence).
  unfold _invoke_1. destruct (search_request nm id ds t e tl Hword Hnum Hj) as (x & y & ->).
  rewrite op_lift_bind. cbn [f_method f_result f_id].
  rewrite (atoi_numeral id ds e y Hnum Hval (proj1 Hid)), op_lift_bind.
  unfold run_request. rewrite op_bind_assoc. apply op_bind_ext. intros _.
  rewrite (invoke_by_name methods 0 i m nm x _ (-1)) by done. cbn [Z.eqb Nat.add].
  change (-1 =? -1) with true. cbn iota. unfold timed. rewrite op_bind_assoc. apply op_bind_ext. intros _.
  unfold method_invoke_request. rewrite Hk. unfold invoker_request.
  change (request_text nm (sign_of id ++ ds) t ++ tl) with
    ("{"%char :: tail (request_text nm (sign_of id ++ ds) t) ++ tl) at 1. cbn iota.
  change ("{"%char :: tail (request_text nm (sign_of id ++ ds) t) ++ tl) with
    (request_text nm (sign_of id ++ ds) t ++ tl).
  rewrite (request_read (invoke_request k) OK nm p id _ t HJ Hp Hid Hword Hlen Hds Ht). cbn [rq_params rq_id].
  rewrite !op_bind_assoc. apply op_bind_ext. intros [flag result].
  rewrite !op_bind_assoc. apply op_bind_ext. intros _. rewrite op_ret_bind, !op_bind_assoc.
  apply op_bind_ext. intros _. done.
Qed.

Lemma request_executed_text nm i m k OK p id idt t :
  named nm i m → m_invoker m = Some k → RoundTrip (invoke_request k) OK → OK p →
  roundtrip_int int_t id → id_text id idt → ser (invoke_request k) p = Ok t → jtext false t →
  ad_invoke e methods (rn_write (request_text nm idt t)) ≃ run_request i k p id.
Proof using Hnames.
  intros Hn Hk HJ Hp Hid Hidt Ht Hj.
  pose proof (request_invoke_1 nm i m k OK p id idt t [CR; LF] Hn Hk HJ Hp Hid Hidt Ht Hj) as H1.
  rewrite (invoke_one _ (run_request i k p id ≫= λ _, mret None)); [|done|].
  - rewrite op_bind_assoc. rewrite <-(op_bind_ret (run_request i k p id)) at 2. apply op_bind_ext.
    intros []. by rewrite op_ret_bind.
  - unfold rn_write. rewrite H1, op_bind_assoc. apply op_bind_ext. intros []. by rewrite op_ret_bind.
Qed.

(** ** Answers *)

(** What the delivery of an answer does: the method's [response], then the
    id is no longer waited for. *)
Definition run_response (i : nat) (k : @caller E U) (r : c_result k) (id : Z) : prog out (conn (U := U)) unit :=
  c_response k r id;; op_modify (λ c, set_ids_of i (ids_of i c ∖ {[ id ]}) c).

(** The place [i] is the first whose caller waits for [id]. *)
Definition waits (i : nat) (k : @caller E U) (id : Z) (c : conn (U := U)) : Prop :=
  (∃ m, methods !! i = Some m ∧ m_caller m = Some k) ∧ id ∈ ids_of i c ∧
  ∀ j, (j < i)%nat → id ∉ ids_of j c.

Lemma method_has_id_ids j m id c : id ∉ ids_of j c → method_has_id j (m : @method E U) id c = false.
Proof.
  intros H. unfold method_has_id, has_id. destruct (m_caller m); [|done]. by rewrite bool_decide_false.
Qed.

Lemma invoke_one_at (d : bytes) (c c' : conn (U := U)) r ev :
  d ≠ [] → _invoke_1 e methods (rn_write d) c = (Ok r, c', ev) → r = Some [CR; LF] ∨ r = None →
  ad_invoke e methods (rn_write d) c = (Ok tt, c', ev).
Proof.
  intros Hd H1 Hr. destruct d as [|x d]; [done|]. unfold ad_invoke.
  change (match rn_write (x :: d) with [] => mret tt | _ => invoke_loop e methods 10 (rn_write (x :: d)) end)
    with (invoke_loop e methods 10 (rn_write (x :: d))).
  cbn [invoke_loop]. rewrite (op_bind_Ok _ _ _ _ _ _ H1). destruct Hr as [-> | ->].
  - replace (length [CR; LF] =? length (rn_write (x :: d)))%nat with false; [exact (f_equal (λ x, (Ok tt, c', x)) (app_nil_r ev))|].
    symmetry. apply Nat.eqb_neq. unfold rn_write. rewrite length_app. simpl. lia.
  - cbn. by rewrite app_nil_r.
Qed.

Lemma response_delivered_text i k OK r id idt t c c' ev :
  0 < id → waits i k id c → RoundTrip (call_response k) OK → OK r →
  roundtrip_int int_t id → id_text id idt → ser (call_response k) r = Ok t → jtext false t →
  run_response i k r id c = (Ok tt, c', ev) →
  ad_invoke e methods (rn_write (response_text idt t)) c = (Ok tt, c', ev).
Proof.
  intros Hpos ((m & Hi & Hk) & Hin & Hfirst) HJ Hr Hid Hidt Ht Hj Hrun.
  destruct (id_text_numeral id (proj1 Hid)) as (ds & Hds & Hnum & Hval).
  assert (idt = sign_of id ++ ds) as -> by (unfold id_text in *; congruence).
  apply (invoke_one_at _ c c' (Some [CR; LF])); [done| |by left].
  unfold _invoke_1, rn_write.
  destruct (search_response id ds t e [CR; LF] Hnum Hj) as (x & y & ->).
  rewrite (equiv_at (op_lift_bind _ _)). cbn [f_method f_result f_id].
  rewrite (atoi_numeral id ds e y Hnum Hval (proj1 Hid)), (equiv_at (op_lift_bind _ _)).
  rewrite (invoke_by_id methods 0 i m k) by (done || (intros; by apply method_has_id_ids, Hfirst)).
  cbn [Nat.add]. unfold caller_response.
  change (response_text (sign_of id ++ ds) t ++ [CR; LF]) with
    ("{"%char :: tail (response_text (sign_of id ++ ds) t) ++ [CR; LF]) at 1. cbn iota.
  change ("{"%char :: tail (response_text (sign_of id ++ ds) t) ++ [CR; LF]) with
    (response_text (sign_of id ++ ds) t ++ [CR; LF]).
  rewrite (response_read (call_response k) OK r id _ t HJ Hr Hid Hds Ht). cbn [rs_result rs_rid].
  rewrite op_get_bind. unfold has_id. rewrite bool_decide_true by done. cbn iota.
  unfold run_response in Hrun. rewrite (op_bind_Ok _ _ _ _ _ _ Hrun).
  cbn. by rewrite app_nil_r.
Qed.

(** ** The ids of a connection *)

(** Every id waited for was created by this connection, by one method. *)
Definition ids_ok (c : conn (U := U)) : Prop :=
  0 <= id_count c ∧
  (∀ i id, id ∈ ids_of i c → 0 < id <= id_count c) ∧
  (∀ i j id, id ∈ ids_of i c → id ∈ ids_of j c → i = j).

Lemma ids_of_set i j ids (c : conn (U := U)) :
  ids_of j (set_ids_of i ids c) = if decide (i = j) then ids else ids_of j c.
Proof.
  unfold ids_of, set_ids_of. cbn. destruct (decide (i = j)) as [->|Hne].
  - by rewrite lookup_insert_eq.
  - by rewrite lookup_insert_ne.
Qed.

Lemma caller_request_run i nm {P} (J : serializer P) (p : P) t (c : conn (U := U)) :
  word nm → (length nm ≤ 64)%nat → 0 <= id_count c < int_max int_t → ser J p = Ok t →
  ∃ idt, id_text (id_count c + 1) idt ∧
    caller_request (E := E) i nm J p c =
      (Ok (id_count c + 1),
       set_ids_of i ({[ id_count c + 1 ]} ∪ ids_of i c) (set_id_count (id_count c + 1) c),
       [Write (rn_write (request_text nm idt t))]).
Proof.
  intros Hn Hl Hc Ht. set (id := id_count c + 1).
  assert (in_range int_t id = true) as Hr.
  { apply in_range_spec. subst id. unfold int_min, int_max in *. simpl in *. lia. }
  destruct (id_text_numeral id Hr) as (ds & Hidt & _). exists (sign_of id ++ ds). split; [done|].
  assert (create_id (E := E) c = (Ok id, set_id_count id c, [])) as Hcr.
  { unfold create_id. rewrite op_get_bind. fold id.
    assert (int_op int_t id = Ok id) as -> by (unfold int_op; cbn -[in_range]; by rewrite Hr).
    by rewrite (equiv_at (op_lift_bind _ _)). }
  unfold caller_request. rewrite (op_bind_Ok _ _ _ _ _ _ Hcr). cbv zeta.
  rewrite (ser_request J nm p id _ t Hn Hl Hidt Ht). done.
Qed.

Lemma caller_request_ids_ok i (c : conn (U := U)) :
  ids_ok c → ids_ok (set_ids_of i ({[ id_count c + 1 ]} ∪ ids_of i c) (set_id_count (id_count c + 1) c)).
Proof. clear Hnames methods.
  intros (Hc & Hr & Hd).
  assert (∀ j id, id ∈ ids_of j (set_ids_of i ({[ id_count c + 1 ]} ∪ ids_of i c) (set_id_count (id_count c + 1) c)) →
    id ∈ ids_of j c ∨ (j = i ∧ id = id_count c + 1)) as Hof.
  { intros j id. rewrite ids_of_set. case_decide; [subst; set_solver|]. by left. }
  split_and!; [cbn; lia| |].
  - intros j id [H|[_ ->]]%Hof; cbn; [|lia]. apply Hr in H. lia.
  - intros j1 j2 id H1%Hof H2%Hof. destruct H1 as [H1|[-> ->]], H2 as [H2|[-> H2']]; subst; try done;
      [by eapply Hd|apply Hr in H1; lia|apply Hr in H2; lia].
Qed.

(** What the calls keep of the ids: it outlives the answers, and the requests
    as long as there are ids for them. *)
Class IdsInv (I : conn (U := U) → Prop) : Prop := {
  inv_fewer c c' : I c → id_count c' = id_count c → (∀ i, ids_of i c' ⊆ ids_of i c) → I c';
  inv_asks i c : I c → in_range int_t (id_count c + 1) = true →
    I (set_ids_of i ({[ id_count c + 1 ]} ∪ ids_of i c) (set_id_count (id_count c + 1) c));
}.

Section kept_ids.
Context (I : conn (U := U) → Prop) `{!IdsInv I}.

(** A method whose handlers keep the ids as they should be. *)
Definition method_ids_ok (m : @method E U) : Prop :=
  (∀ k, m_invoker m = Some k → ∀ p id r, keeps I (i_request k p id r)) ∧
  (∀ k, m_caller m = Some k → ∀ r id, keeps I (c_response k r id)) ∧
  (∀ k, m_notified m = Some k → ∀ p, keeps I (n_notify k p)).

Lemma set_in_ids_keeps f : keeps (E := @out E) I (op_modify (λ c, set_in_ids (f c) c)).
Proof using IdsInv0. apply keeps_modify. intros c Hc. by apply (inv_fewer c). Qed.
Lemma erase_keeps i id : keeps (E := @out E) I (op_modify (λ c, set_ids_of i (ids_of i c ∖ {[ id ]}) c)).
Proof using IdsInv0.
  apply keeps_modify. intros c Hc. apply (inv_fewer c); [done..|]. intros j. rewrite ids_of_set. case_decide; [subst|done].
  intros x Hx. by apply elem_of_difference in Hx as [? _].
Qed.

Lemma invalid_json_keeps : keeps (E := @out E) I invalid_json_advice.
Proof using IdsInv0.
  unfold invalid_json_advice, json_error_null, ad_error, erase_in_id, _writer_.
  eauto 8 using set_in_ids_keeps with keeps.
Qed.
Lemma unknown_method_keeps : keeps (E := @out E) I unknown_method.
Proof using IdsInv0.
  unfold unknown_method, json_error_null, ad_error, erase_in_id, _writer_.
  eauto 8 using set_in_ids_keeps with keeps.
Qed.
Lemma invoker_response_keeps (k : @invoker E U) r id : keeps I (invoker_response k r id).
Proof using IdsInv0.
  unfold invoker_response, ad_response, erase_in_id, _writer_. apply keeps_bind; [eauto with keeps|].
  intros []; eauto using set_in_ids_keeps with keeps.
Qed.

Lemma method_calls_keep i (m : @method E U) b :
  method_ids_ok m →
  keeps I (method_invoke_request e m b) ∧ keeps I (method_invoke_notify e m b) ∧
  keeps I (method_invoke_response e i m b).
Proof using IdsInv0.
  intros (Hi & Hc & Hn). split_and!.
  - unfold method_invoke_request. destruct (m_invoker m) as [k|]; [|eauto with keeps].
    destruct b as [|x b]; [cbn; eauto with keeps|]. unfold invoker_request.
    destruct (unser _ _ _ _) as [[req next]| | |]; [|eauto using invalid_json_keeps with keeps..].
    apply keeps_bind; [by apply Hi|]. intros [[] r]; eauto using invoker_response_keeps with keeps.
  - unfold method_invoke_notify. destruct (m_notified m) as [k|]; [|eauto with keeps].
    destruct b as [|x b]; [cbn; eauto with keeps|]. unfold notified_notify.
    destruct (unser _ _ _ _) as [[ntf next]| | |]; [|eauto using invalid_json_keeps with keeps..].
    apply keeps_bind; [by apply Hn|]. eauto with keeps.
  - unfold method_invoke_response. destruct (m_caller m) as [k|]; [|eauto with keeps].
    destruct b as [|x b]; [cbn; eauto with keeps|]. unfold caller_response.
    destruct (unser _ _ _ _) as [[res next]| | |]; [|eauto using invalid_json_keeps with keeps..].
    apply keeps_bind; [eauto with keeps|]. intros []; [|eauto with keeps].
    apply keeps_bind; [|eauto with keeps]. apply keeps_bind; [by apply Hc|]. intros _. apply erase_keeps.
Qed.

Lemma invoke_keeps ms i nm b code : Forall method_ids_ok ms → keeps I (_invoke e i ms nm b code).
Proof using IdsInv0.
  intros Hms. revert i. induction Hms as [|m ms Hm Hms IH]; intros i; cbn [_invoke].
  - apply keeps_bind; [|eauto with keeps]. case_match; eauto using unknown_method_keeps with keeps.
  - destruct (method_calls_keep i m b Hm) as (H1 & H2 & H3).
    apply keeps_bind; [case_match; eauto with keeps|]. intros []; [|done]. unfold timed.
    repeat case_match; eauto 8 with keeps.
    apply keeps_bind; [eauto with keeps|]. intros []; done.
Qed.

Lemma invoke_1_keeps b : Forall method_ids_ok methods → keeps I (_invoke_1 e methods b).
Proof using IdsInv0.
  intros Hms. unfold _invoke_1. apply keeps_bind; [eauto with keeps|]. intros [m r i]. cbn [f_method f_result f_id].
  assert (∀ nm code, keeps I (_invoke e 0 methods nm b code)) as Hinv by (intros; by apply invoke_keeps).
  destruct m, r, i; eauto 8 using invalid_json_keeps, set_in_ids_keeps with keeps.
Qed.

Lemma ad_invoke_keeps b : Forall method_ids_ok methods → keeps I (ad_invoke e methods b).
Proof using IdsInv0.
  intros Hms. unfold ad_invoke. destruct b as [|x b]; [eauto with keeps|].
  generalize 10%nat, (x :: b). intros n. induction n as [|n IH]; intros b'; cbn [invoke_loop]; [eauto with keeps|].
  apply keeps_bind; [by apply invoke_1_keeps|]. intros [next|]; [|eauto with keeps].
  case_match; [eauto with keeps|]. case_match; eauto with keeps.
Qed.
End kept_ids.
End calls.

Definition table_ok {E U} (methods : list (@method E U)) : Prop :=
  Forall (λ m, word (name m) ∧ (length (name m) ≤ 64)%nat) methods.

(** ** Properties *)

(** C8. A remote call.  The caller writes one datagram under a fresh id; the
    server that receives it runs the method of that name on the parameters
    whose text was sent and writes one answer under the same id, having
    nothing left to answer; the caller that receives the answer hands the
    result to the method that asked, and waits for the id no longer.  The two
    sides may describe the texts of parameters and results differently. *)
Theorem remote_call {E1 U1 E2 U2} e1 e2 (methods1 : list (@method E1 U1)) (methods2 : list (@method E2 U2))
    nm i m1 k1 j m2 k2 OKp OKr p q r r' t u c1 c1' ev1 c2 c2' ev2 :
  let id := id_count c1 + 1 in
  let sent := set_ids_of i ({[ id ]} ∪ ids_of i c1) (set_id_count id c1) in
  table_ok methods2 → word nm → (length nm ≤ 64)%nat → ids_ok c1 → id_count c1 < int_max int_t →
  methods1 !! i = Some m1 → m_caller m1 = Some k1 → named methods2 nm j m2 → m_invoker m2 = Some k2 →
  RoundTrip (invoke_request k2) OKp → OKp q → RoundTrip (call_response k1) OKr → OKr r →
  ser (call_request k1) p = Ok t → ser (invoke_request k2) q = Ok t → jtext false t →
  ser (invoke_response k2) r' = Ok u → ser (call_response k1) r = Ok u → jtext false u →
  i_request k2 q id (i_fresh k2) (set_in_ids (in_ids c2 ⊎ {[+ id +]}) c2) = (Ok (true, r'), c2', ev2) →
  run_response i k1 r id sent = (Ok tt, c1', ev1) →
  ∃ w w', caller_request (E := E1) i nm (call_request k1) p c1 = (Ok id, sent, [Write w]) ∧ ids_ok sent ∧
    ad_invoke e2 methods2 w c2
    = (Ok tt, set_in_ids (in_ids c2' ∖ {[+ id +]}) c2',
       Clock_start :: ev2 ++ [Write w'; Mark j; Clock_finish]) ∧
    ad_invoke e1 methods1 w' sent = (Ok tt, c1', ev1).
Proof.
  intros id sent Htab Hnm Hlen Hids Hmax Hm1 Hk1 Hnamed Hk2 HJp Hq HJr Hr Ht Ht2 Hjt Hu2 Hu Hju Hreq Hresp.
  destruct (caller_request_run (E := E1) i nm (call_request k1) p t c1) as (idt & Hidt & Hcall);
    [done|done|split; [apply Hids|done]|done|].
  fold id in Hidt, Hcall. fold sent in Hcall.
  assert (ids_ok sent) as Hsent by (by apply caller_request_ids_ok).
  assert (roundtrip_int int_t id) as Hid.
  { assert (0 <= id_count c1) by apply Hids. split; [apply in_range_spec|intros _ _]; subst id;
      unfold int_min, int_max in *; simpl in *; lia. }
  exists (rn_write (request_text nm idt t)), (rn_write (response_text idt u)). split_and!; [done|done| |].
  - rewrite (equiv_at (request_executed_text e2 methods2 Htab nm j m2 k2 OKp q id idt t
      Hnamed Hk2 HJp Hq Hid Hidt Ht2 Hjt)).
    unfold run_request. unfold op_modify, op_emit. unfold mbind at 1, op_bind at 1. cbn beta iota.
    unfold mbind at 1, op_bind at 1. cbn beta iota. rewrite (op_bind_Ok _ _ _ _ _ _ Hreq). cbn beta iota.
    unfold invoker_response. cbn [new_response rs_jsonrpc].
    rewrite (ser_response (invoke_response k2) r' id idt u Hidt Hu2).
    unfold mbind, op_bind, op_lift, ad_response, erase_in_id, op_modify, _writer_, op_emit. cbn.
    rewrite <-!app_assoc. done.
  - apply (response_delivered_text e1 methods1 i k1 OKr r id idt u); try done.
    + subst id. destruct Hids. lia.
    + split_and!; [by exists m1| |].
      * unfold sent. rewrite ids_of_set, decide_True by done. set_solver.
      * intros j' Hj' Hin. destruct Hsent as (_ & _ & Hd).
        assert (id ∈ ids_of i sent) as Hi by (unfold sent; rewrite ids_of_set, decide_True by done; set_solver).
        specialize (Hd _ _ _ Hin Hi). lia.
Qed.

(** Two ends of one method: a caller that sends raw text, and a handler. *)
Definition echo_call : @caller unit unit := Caller _ _ raw_value value_bool (λ _ _, mret tt).
Definition echo_invoke : @invoker unit unit :=
  Invoker _ _ value_bool value_bool false (λ b _ _, mret (true, negb b)).
Definition echo_caller : @method unit unit := Method (str "echo") None (Some echo_call) None.
Definition echo_handler : @method unit unit := Method (str "echo") (Some echo_invoke) None None.

Lemma remote_call_witness :
  let c := Conn ∅ 4 ∅ tt in
  let sent := set_ids_of 0 ({[ 5 ]} ∪ ids_of 0 c) (set_id_count 5 c) in
  ∃ w w', caller_request (E := unit) 0 (str "echo") raw_value (str "true") c = (Ok 5, sent, [Write w]) ∧ ids_ok sent ∧
    ad_invoke (E := unit) Foreign [echo_handler] w c
    = (Ok tt, set_in_ids ({[+ 5 +]} ∖ {[+ 5 +]}) c, [Clock_start; Write w'; Mark 0; Clock_finish]) ∧
    ad_invoke Foreign [echo_caller] w' sent = (Ok tt, set_ids_of 0 (ids_of 0 sent ∖ {[ 5 ]}) sent, []).
Proof.
  intros c sent.
  refine (remote_call Foreign Foreign [echo_caller] [echo_handler] (str "echo") 0 echo_caller echo_call 0 echo_handler echo_invoke
    (λ _, True) (λ _, True) (str "true") true false false (str "true") (str "false") c _ [] c
    (set_in_ids {[+ 5 +]} c) []
    _ _ _ _ _ eq_refl eq_refl _ eq_refl _ I _ I eq_refl eq_refl _ eq_refl eq_refl _ _ _).
  - constructor; [split; [repeat constructor|simpl; lia]|constructor].
  - repeat constructor.
  - simpl. lia.
  - split_and!; [done|unfold ids_of; cbn; intros *; rewrite lookup_empty; cbn; set_solver..].
  - reflexivity.
  - split_and!; [done|done|lia].
  - apply (jt_bool false true).
  - apply (jt_bool false false).
  - reflexivity.
  - reflexivity.
Defined.

