(* ===== verification/Connection.v ===== *)
(** * Connection: the methods of the daemon on its connections

    The tables of [src/fas_methods.hpp] ([method_list] for the connections the
    daemon accepts, [method_list_client] for the one it makes to its master)
    over the calls of [JsonRpc].  The handlers of [Methods] run on the user
    part of the connection; what they ask the connection to send becomes a
    request of the method with that tag. *)

From stdpp Require Import gmultiset.
From S2P Require Import Prelude JsonParser JsonNumber Serializer JsonString JsonArray JsonObject Queries.
From S2P Require Import JsonScan LevelDb Replication ReplicationSync Methods MethodsSpec Splitter JsonRpc JsonRpcSpec.

Section connection.
Context {D : Type} `{LevelDB D} `{HashOrder}.

(** [self] is the number of the connection in the events of the handlers,
    [place] the place in the table of the method with a tag. *)
Context (self : nat) (place : rep_method → nat).

Abbreviation dio := (prog (@out event) (@conn (world D))).

(** The name of the class behind a tag: [_set_range_] is bound to [set]. *)
(* src: src/fas_methods.hpp 372-376 method_list *)
Definition tag_name (m : rep_method) : bytes :=
  match m with
  | _set_ => str "set"
  | _set_range_ => str "set"
  | _del_ => str "del"
  end.

(** [conn.get_aspect().get<Tag>().request(conn, buf)] *)
Definition send_request (m : rep_method) (buf : bytes) : dio unit :=
  caller_request (place m) (tag_name m) raw_value buf;; mret tt.

Fixpoint perform (evs : list event) : dio unit :=
  match evs with
  | [] => mret tt
  | Request conn m buf :: evs =>
      (if (conn =? self)%nat then send_request m buf else op_emit (Emit (Request conn m buf)));;
      perform evs
  | ev :: evs => op_emit (Emit ev);; perform evs
  end.

(** A handler on the connection: what it sent goes out also when it throws. *)
Definition call {A} (h : prog event (world D) A) : dio A := λ c,
  let '(r, w, evs) := h (user c) in (perform evs;; op_lift r) (set_user w c).

(** [junk] is what the stack holds where a handler's [bool] result is;
    [statistics] the text of [get_statistics], which is not modelled. *)
Context (junk : bool) (statistics : world D → bytes).

Definition confirm {R} (r : R) (id : Z) : dio unit := call (response self);; mret tt.

(* src: src/fas_methods.hpp 171-194 set *)
Definition set_method : @method event (world D) :=
  Method (str "set")
    (Some (Invoker _ _ valmap2str_json value_bool junk (λ cmd _ _, call (set cmd))))
    (Some (Caller _ _ raw_value value_bool confirm)) None.

(** Registered by no table. *)
(* src: src/fas_methods.hpp 137-168 set_range *)
Definition set_range_method : @method event (world D) :=
  Method (str "set_range")
    (Some (Invoker _ _ valmap2str_json value_bool junk (λ cmd _ r, call (set_range cmd r))))
    (Some (Caller _ _ raw_value value_bool confirm)) None.

(* src: src/fas_methods.hpp 195-217 del *)
Definition del_method : @method event (world D) :=
  Method (str "del")
    (Some (Invoker _ _ vallist_json valmap2bool_json [] (λ cmd _ r, call (del cmd r))))
    (Some (Caller _ _ raw_value valmap2bool_json confirm)) None.

(* src: src/fas_methods.hpp 80-95 get *)
Definition get_method : @method event (world D) :=
  Method (str "get") (Some (Invoker _ _ vallist_json valmap2str_json [] (λ cmd _ r, call (get cmd r)))) None None.

(* src: src/fas_methods.hpp 97-131 get_range *)
Definition get_range_method : @method event (world D) :=
  Method (str "get_range")
    (Some (Invoker _ _ get_range_json valmap2str_json [] (λ cmd _ r, call (get_range cmd r)))) None None.

(* src: src/fas_methods.hpp 219-245 add *)
Definition add_method : @method event (world D) :=
  Method (str "add") (Some (Invoker _ _ valmap2str_json valmap2bool_json [] (λ cmd _ r, call (add cmd r)))) None None.

(* src: src/fas_methods.hpp 247-275 inc *)
Definition inc_method : @method event (world D) :=
  Method (str "inc") (Some (Invoker _ _ valmap2int_json valmap2raw_json [] (λ cmd _ r, call (inc cmd r)))) None None.

(* src: src/fas_methods.hpp 277-312 inc_add *)
Definition inc_add_method : @method event (world D) :=
  Method (str "inc_add") (Some (Invoker _ _ inc_add_json valmap2raw_json [] (λ cmd _ r, call (inc_add cmd r)))) None None.

(* src: src/fas_methods.hpp 314-365 update_packed *)
Definition update_packed_method : @method event (world D) :=
  Method (str "update_packed")
    (Some (Invoker _ _ update_packed_json raw_value [] (λ cmd _ _, call (update_packed cmd)))) None None.

(* src: src/fas_methods.hpp 28-48 rep_status *)
Definition rep_status_method : @method event (world D) :=
  Method (str "rep_status") (Some (Invoker _ _ raw_value raw_value [] (λ _ _ _, call rep_status))) None None.

(* src: src/fas_methods.hpp 50-70 rep_setstate *)
Definition rep_setstate_method : @method event (world D) :=
  Method (str "rep_setstate")
    (Some (Invoker _ _ rep_setstate_json value_bool junk (λ cmd _ r, call (rep_setstate self cmd r))))
    (Some (Caller _ _ rep_setstate_json value_bool (λ r _, call (rep_setstate_response r);; mret tt))) None.

Definition get_statistics_method : @method event (world D) :=
  Method (str "get_statistics")
    (Some (Invoker Z _ (value_integer int_t) raw_value []
       (λ _ _ _, call (s ← op_get statistics; mret (true, s))))) None None.

(** The methods in the order of the lists, which the selection by
    [_gmethod_] keeps. *)
(* src: src/fas_methods.hpp 369-384 method_list *)
Definition method_list : list (@method event (world D)) :=
  [get_method; get_range_method; set_method; set_method; inc_method; inc_add_method; add_method; del_method;
   rep_status_method; update_packed_method; rep_setstate_method; get_statistics_method].

(* src: src/fas_methods.hpp 408-415 method_list_client *)
Definition method_list_client : list (@method event (world D)) :=
  [set_method; set_method; del_method; rep_setstate_method].

(** The group [_cleaner_]: when a connection object is used again, the
    dispatcher and [rep_setstate] are cleared, the other methods are not. *)
(* src: src/fas_methods.hpp 71-78 rep_setstate_advice *)
Definition cleaner (setstate_place : nat) : dio unit :=
  ad_clear;; method_clear setstate_place (call (rep_setstate_clear self)) rep_setstate_method.
End connection.

(** The places of the tagged methods. *)
Definition server_place (m : rep_method) : nat :=
  match m with _set_ => 2 | _set_range_ => 3 | _del_ => 7 end.
Definition client_place (m : rep_method) : nat :=
  match m with _set_ => 0 | _set_range_ => 1 | _del_ => 2 end.

(** ** The ids of the daemon's connections *)

Section ids.
Context {D : Type} `{LevelDB D} `{HashOrder} (self : nat) (place : rep_method → nat).

Lemma caller_request_keeps {E U} (I : conn (U := U) → Prop) `{!IdsInv I} i nm {P} (J : serializer P) (p : P) :
  keeps (E := @out E) I (caller_request i nm J p).
Proof.
  intros c r c' ev Hc. unfold caller_request, create_id. rewrite (equiv_at (op_bind_assoc _ _ _)), op_get_bind.
  rewrite (equiv_at (op_bind_assoc _ _ _)). destruct (in_range int_t (id_count c + 1)) eqn:Hid.
  2:{ assert (int_op int_t (id_count c + 1) = Undef) as -> by (unfold int_op; cbn -[in_range]; by rewrite Hid).
      by intros [= _ <- _]. }
  assert (int_op int_t (id_count c + 1) = Ok (id_count c + 1)) as -> by (unfold int_op; cbn -[in_range]; by rewrite Hid).
  rewrite (equiv_at (op_lift_bind _ _)). intros Hrun.
  assert (∀ c0, c0 = set_ids_of i ({[ id_count c + 1 ]} ∪ ids_of i c) (set_id_count (id_count c + 1) c) → I c0) as Hok.
  { intros c0 ->. by apply inv_asks. }
  apply Hok. clear Hok. revert Hrun.
  set (c1 := set_ids_of i _ _).
  unfold op_modify, mbind at 1, op_bind at 1. cbn beta iota. unfold mbind at 1, op_bind at 1. cbn beta iota.
  unfold mbind at 1, op_bind at 1, mret at 1, op_ret at 1. cbn beta iota.
  change (set_ids_of i ({[id_count c + 1]} ∪ ids_of i (set_id_count (id_count c + 1) c)) (set_id_count (id_count c + 1) c)) with c1.
  generalize (Request_object (strncpy 8 (str "2.0")) (strncpy 64 nm) p (id_count c + 1)). intros req.
  destruct (ser (request_maker J) req) as [[|x v]| | |]; cbn; by intros [= _ <- _].
Qed.

Section kept.
Context (I : conn (U := world D) → Prop) `{!IdsInv I}.

Lemma perform_keeps (evs : list event) : keeps I (perform self place evs).
Proof.
  induction evs as [|[conn m buf|cl conn] evs IH]; cbn [perform]; [eauto with keeps| |eauto with keeps].
  apply keeps_bind; [|done]. case_match; [|eauto with keeps].
  unfold send_request. apply keeps_bind; [by apply caller_request_keeps|eauto with keeps].
Qed.

Lemma call_keeps {A} (h : prog event (world D) A) : keeps I (call self place h).
Proof.
  intros c r c' ev Hc. unfold call. destruct (h (user c)) as [[r0 w] evs]. intros Hrun.
  eapply (keeps_bind _ (perform self place evs) (λ _, op_lift r0)); [apply perform_keeps|eauto with keeps| |exact Hrun].
  by apply (inv_fewer c).
Qed.
#[local] Hint Resolve call_keeps : keeps.

Lemma daemon_methods_ids_ok junk statistics :
  Forall (method_ids_ok I) (method_list self place junk statistics) ∧
  Forall (method_ids_ok I) (method_list_client self place junk).
Proof.
  split; unfold method_list, method_list_client;
    repeat (constructor; [split_and!; intros k [= <-]; intros; cbn; unfold confirm; eauto with keeps|]);
    constructor.
Qed.
End kept.

Lemma daemon_tables_ok junk statistics :
  table_ok (method_list self place junk statistics) ∧ table_ok (method_list_client self place junk).
Proof.
  split; unfold table_ok, method_list, method_list_client;
    repeat (constructor; [split; [repeat (constructor; [reflexivity|]); constructor|simpl; lia]|]); constructor.
Qed.
End ids.

(** The state of a connection object when it is made. *)
Definition new_conn {U} (u : U) : conn := Conn ∅ 0 ∅ u.

Lemma new_conn_ids_ok {U} (u : U) : ids_ok (new_conn u).
Proof.
  split_and!; [done| |]; unfold ids_of; cbn; intros *; rewrite lookup_empty; cbn; set_solver.
Qed.

(** *** The life of a connection

    From the time when the object is made to its first cleaning. *)
Section life.
Context {D : Type} `{LevelDB D} `{HashOrder} (self : nat) (place : rep_method → nat) (methods : list (@method event (world D))).

(** Bytes arrive, whatever they are; the daemon sends a request of a method
    (an update, a portion, the call of [rep_setstate]); and what the
    connection shares with the others, or the requests it is answering,
    change without it. *)
Inductive conn_step : conn (U := world D) → conn (U := world D) → Prop :=
  | conn_reads e b c r c' ev :
      ad_invoke e methods b c = (r, c', ev) → match r with Ok _ | Throw _ => True | _ => False end → conn_step c c'
  | conn_asks i nm P (J : serializer P) p c r c' ev :
      caller_request (E := event) i nm J p c = (r, c', ev) → match r with Ok _ | Throw _ => True | _ => False end →
      conn_step c c'
  | conn_shares w ids c : conn_step c (set_in_ids ids (set_user w c)).

(** No id is used twice: what is waited for now and was created by the time of
    [c0] was waited for then, by the same method. *)
Definition since (c0 c : conn (U := world D)) : Prop :=
  ids_ok c ∧ id_count c <= int_max int_t ∧ id_count c0 <= id_count c ∧
  ∀ i id, id ∈ ids_of i c → id <= id_count c0 → id ∈ ids_of i c0.

#[export] Instance since_IdsInv c0 : IdsInv (since c0).
Proof.
  split.
  - intros c c' ((Hn & Hr & Hd) & Hmax & Hle & Hold) Hc Hi. unfold since, ids_ok. rewrite Hc. split_and!; try done.
    + intros i id Hin. by apply (Hr i), Hi.
    + intros i j id H1 H2. by apply (Hd i j id); apply Hi.
    + intros i id Hin. by apply Hold, Hi.
  - intros i c (Hok & Hmax & Hle & Hold) Hrange. apply in_range_spec in Hrange. split; [by apply caller_request_ids_ok|].
    change (id_count (set_ids_of i ({[id_count c + 1]} ∪ ids_of i c) (set_id_count (id_count c + 1) c))) with (id_count c + 1).
    split; [apply Hrange|]. split; [lia|]. intros j id. rewrite ids_of_set. intros Hin Hid. apply Hold; [|done].
    case_decide; [subst j|done]. apply elem_of_union in Hin as [->%elem_of_singleton|?]; [lia|done].
Qed.

Hypothesis methods_ok : ∀ c0, Forall (method_ids_ok (since c0)) methods.

Lemma conn_step_since c0 c c' : since c0 c → conn_step c c' → since c0 c'.
Proof using methods_ok.
  intros Hc Hstep. destruct Hstep as [e b c r c' ev E _|i nm P J p c r c' ev E _|w ids c].
  - exact (ad_invoke_keeps e methods (since c0) b (methods_ok c0) c r c' ev Hc E).
  - exact (caller_request_keeps (since c0) i nm J p c r c' ev Hc E).
  - by apply (inv_fewer c).
Qed.

Lemma life_since c0 c : ids_ok c0 → id_count c0 <= int_max int_t → rtc conn_step c0 c → since c0 c.
Proof using methods_ok.
  intros Hids Hmax Hc. refine (rtc_keeps (since c0) (conn_step_since c0) _ _ Hc _). by split_and!.
Qed.
End life.

(** ** Properties *)

(** C24. The ids of a connection of the daemon, from the making of the object
    to its first cleaning.  Whatever bytes arrive, whatever the connection
    asks and the others do meanwhile: an id is waited for by one method at
    most; an id that was answered, or was given out and is waited for by no
    method, is never waited for again by any, so no method gets the answer to
    another's request, however late it comes; and the answer to an id that is
    waited for is delivered to the method that waits, which then waits for it
    no longer.  Nothing is said of an object that was cleaned and used
    again: there ids begin anew ([reused_connection_misroutes]). *)
Theorem daemon_ids_unique {D} `{LevelDB D} `{HashOrder} self place junk statistics methods (w : world D) c1 c2 :
  methods = method_list self place junk statistics ∨ methods = method_list_client self place junk →
  rtc (conn_step methods) (new_conn w) c1 → rtc (conn_step methods) c1 c2 →
  (∀ i j id, id ∈ ids_of i c1 → id ∈ ids_of j c1 → i = j) ∧
  (∀ i id, id <= id_count c1 → id ∈ ids_of i c2 → id ∈ ids_of i c1) ∧
  ∀ e i m k id OK r idt t c' ev,
    methods !! i = Some m → m_caller m = Some k → id ∈ ids_of i c1 →
    RoundTrip (call_response k) OK → OK r → id_text id idt → ser (call_response k) r = Ok t → jtext false t →
    run_response i k r id c1 = (Ok tt, c', ev) →
    ad_invoke e methods (rn_write (response_text idt t)) c1 = (Ok tt, c', ev) ∧ ∀ j, id ∉ ids_of j c'.
Proof.
  intros Hm H1 H2.
  assert (∀ c0, Forall (method_ids_ok (since c0)) methods) as Hok.
  { intros c0. destruct (daemon_methods_ids_ok self place (since c0) junk statistics). by destruct Hm as [-> | ->]. }
  assert (table_ok methods) as Htab.
  { destruct (daemon_tables_ok self place junk statistics). by destruct Hm as [-> | ->]. }
  destruct (life_since methods Hok (new_conn w) c1 (new_conn_ids_ok w) ltac:(done) H1) as (Hids & Hmax & _).
  destruct (life_since methods Hok c1 c2 Hids Hmax H2) as (_ & _ & _ & Hold).
  pose proof Hids as (Hn & Hr & Hd). split_and!; [exact Hd|by eauto|].
  intros e i m k id OK r idt t c' ev Hi Hk Hin HJ Hr0 Hidt Ht Hj Hrun. destruct (Hr i id Hin) as [Hpos Hle].
  assert (in_range int_t id = true) as Hrange.
  { apply in_range_spec. unfold int_min. cbn -[int_max]. lia. }
  split.
  - eapply (response_delivered_text e methods i k OK r id idt t); try done.
    + split; [by exists m|]. split; [done|]. intros j Hji Hjn. specialize (Hd i j id Hin Hjn). lia.
    + split; [done|]. intros _ _ ->. unfold int_min in Hpos. cbn in Hpos. lia.
  - assert (since c1 c1) as H11 by (by split_and!).
    unfold run_response, mbind, op_bind in Hrun. destruct (c_response k r id c1) as [[[[]| | |] cm] evm] eqn:Er; try done.
    injection Hrun as <- _. intros j. rewrite ids_of_set. case_decide as Hij; [set_solver|].
    intros Hjn. assert (since c1 cm) as (_ & _ & _ & Hcm); [|by apply Hij, (Hd i j id Hin), Hcm].
    specialize (Hok c1). rewrite Forall_forall in Hok. destruct (Hok m) as (_ & Hc & _); [by eapply list_elem_of_lookup_2|].
    exact (Hc k Hk r id c1 _ _ _ H11 Er).
Qed.


Definition del_answer : bytes := js "{'jsonrpc':'2.0','id':1,'result':{'k':true}}".

Lemma cleaner_run {D} `{LevelDB D} `{HashOrder} self (c : conn (U := world D)) :
  ∃ c1, cleaner self server_place false 10 c = (Ok tt, c1, []) ∧ id_count c1 = 0 ∧
    ∀ i, ids_of i c1 = if decide (i = 10%nat) then ∅ else ids_of i c.
Proof.
  eexists. split; [reflexivity|]. split; [reflexivity|]. intros i. rewrite ids_of_set.
  destruct (decide (10%nat = i)), (decide (i = 10%nat)); try lia; done.
Qed.

(** C40. The cleaner of a connection object that is used again starts the ids
    anew but does not clear the callers of [set] and [del].  When the last
    connection was closed while [set] waited for the answer 1, the first
    request of [del] on the new connection gets the id 1 too, and its answer
    is read as one to [set]: the connection is sent an error and released, and
    [del] goes on waiting. *)
Theorem reused_connection_misroutes {D} `{LevelDB D} `{HashOrder} self junk statistics e (c : conn (U := world D)) :
  1 ∈ ids_of 2 c →
  ∃ c1 c2 c3 w error,
    cleaner self server_place false 10 c = (Ok tt, c1, []) ∧
    send_request server_place _del_ (js "['k']") c1 = (Ok tt, c2, [Write w]) ∧ 1 ∈ ids_of 7 c2 ∧
    ad_invoke e (method_list self server_place junk statistics) (rn_write del_answer) c2
    = (Ok tt, c3, [Write error; Release]) ∧ 1 ∈ ids_of 7 c3.
Proof.
  intros H1. destruct (cleaner_run self c) as (c1 & Hc1 & Hn & Hids).
  destruct (caller_request_run (E := event) 7 (str "del") raw_value (js "['k']") (js "['k']") c1)
    as (idt & _ & Hcall); [repeat constructor|simpl; lia|rewrite Hn; done|reflexivity|].
  rewrite Hn in Hcall. set (c2 := set_ids_of 7 _ _) in Hcall.
  assert (1 ∈ ids_of 7 c2) as H7 by (unfold c2; rewrite ids_of_set, decide_True by done; set_solver).
  assert (1 ∈ ids_of 2 c2) as H2 by (unfold c2; rewrite ids_of_set, decide_False by done; unfold ids_of in *; cbn in *; by rewrite Hids).
  do 5 eexists. split; [exact Hc1|]. split.
  { unfold send_request. rewrite (op_bind_Ok _ _ _ _ _ _ Hcall). reflexivity. }
  split; [exact H7|]. split.
  - eapply invoke_one_at; [done| |by right].
    unfold _invoke_1. change (_search_ e (rn_write del_answer)) with
      (Ok (Found None (Some (js "{'k':true}}" ++ [CR; LF])) (Some (js "1,'result':{'k':true}}" ++ [CR; LF])))).
    rewrite (equiv_at (op_lift_bind _ _)). cbn [f_method f_result f_id].
    change (atoi e (js "1,'result':{'k':true}}" ++ [CR; LF])) with (Ok 1 : res Z).
    rewrite (equiv_at (op_lift_bind _ _)).
    rewrite (invoke_by_id e _ 0 2 (set_method self server_place junk)
      (Caller _ _ raw_value value_bool (confirm self server_place))); [|done|reflexivity|reflexivity|exact H2|].
    + reflexivity.
    + intros [|[|j]] m' Hj Hm; [by injection Hm as <-..|lia].
  - exact H7.
Qed.

Definition conn_stale : conn (U := world (gmap bytes bytes)) :=
  Conn ∅ 5 {[ 2%nat := {[ 1 ]} ]} (world0 ∅).

Lemma reused_connection_misroutes_witness :
  ∃ c1 c2 c3 w error,
    cleaner 7 server_place false 10 conn_stale = (Ok tt, c1, []) ∧
    send_request server_place _del_ (js "['k']") c1 = (Ok tt, c2, [Write w]) ∧ 1 ∈ ids_of 7 c2 ∧
    ad_invoke Foreign (method_list 7 server_place false (λ _, [])) (rn_write del_answer) c2
    = (Ok tt, c3, [Write error; Release]) ∧ 1 ∈ ids_of 7 c3.
Proof.
  apply (reused_connection_misroutes 7 false (λ _, []) Foreign conn_stale).
  apply (bool_decide_unpack _). vm_compute. exact I.
Defined.

(** ** Replication over the connection *)

Lemma str_pair_scans cmd : Forall str_pair cmd →
  Forall (λ x, scan_text false x.1 ∧ scan_text false x.2) cmd.
Proof. intros H. eapply Forall_impl; [exact H|]. intros x [H1 H2]. by split; split. Qed.

Lemma call_silent {D} `{LevelDB D} self place {A} (h : prog event (world D) A) c r w :
  h (user c) = (Ok r, w, []) → call self place h c = (Ok r, set_user w c, []).
Proof. unfold call. by intros ->. Qed.

(** C1. One replicated update, from end to end.  The master asks the
    connection of a slave to [set] the pairs [cmd]; the slave, whose
    connection receives the datagram, has the pairs stored when it answers,
    and has nothing left to answer; the master, when it receives the answer,
    runs [set::response] - the confirmation of the replication queue - and no
    longer waits for the id. *)
Theorem replicated_set {D1 D2} `{LevelDB D1} `{LevelDBHealthy D2} `{HashOrder}
    self1 self2 junk1 junk2 statistics cmd t b (c1 c1' : conn (U := world D1)) ev1 (c2 : conn (U := world D2)) :
  let id := id_count c1 + 1 in
  let sent := set_ids_of 2 ({[ id ]} ∪ ids_of 2 c1) (set_id_count id c1) in
  ids_ok c1 → id_count c1 < int_max int_t → Forall str_pair cmd → ser valmap2str_json cmd = Ok t →
  call self1 server_place (response self1) sent = (Ok b, c1', ev1) →
  ∃ w w' c2', send_request server_place _set_ t c1 = (Ok tt, sent, [Write w]) ∧
    ad_invoke Foreign (method_list_client self2 client_place junk2) w c2
    = (Ok tt, c2', [Clock_start; Write w'; Mark 0; Clock_finish]) ∧
    w_contents (user c2') = insert_all (w_contents (user c2)) cmd ∧ in_ids c2' = in_ids c2 ∧
    ad_invoke Foreign (method_list self1 server_place junk1 statistics) w' sent
    = (Ok tt, set_ids_of 2 (ids_of 2 c1' ∖ {[ id ]}) c1', ev1).
Proof.
  intros id sent Hids Hmax Hcmd Ht Hconf.
  destruct (put_loop_spec cmd true (user c2)) as (d' & Hl & Hc).
  destruct (finish_set cmd (true, true) (set_db d' (user c2)) Hcmd) as (r' & Hf & _).
  assert (set cmd (user c2) = (Ok (true, true), set_replication r' (set_db d' (user c2)), [])) as Hset.
  { unfold set. rewrite (op_bind_Ok _ _ _ _ _ _ Hl), Hf. done. }
  assert (named (method_list_client self2 client_place junk2) (str "set") 0 (set_method self2 client_place junk2))
    as Hnamed by (split_and!; [done|done|lia]).
  assert (jtext false t) as Hjt.
  { eapply (ser_jtext (s := valmap2str_json) false); [by apply str_pair_scans|exact Ht]. }
  assert (ser raw_value t = Ok t) as Hraw by (destruct t; [by apply jtext_visible in Hjt|done]).
  assert (word (str "set")) as Hword by repeat constructor.
  pose proof (proj2 (daemon_tables_ok self2 client_place junk2 (λ _, []))) as Htab.
  pose proof (call_silent self2 client_place (set cmd) (set_in_ids (in_ids c2 ⊎ {[+ id +]}) c2) (true, true)
    (set_replication r' (set_db d' (user c2))) Hset) as Hcall.
  assert (run_response 2 (Caller _ _ raw_value value_bool (confirm self1 server_place)) true id sent
          = (Ok tt, set_ids_of 2 (ids_of 2 c1' ∖ {[ id ]}) c1', ev1)) as Hrun.
  { unfold run_response. cbn [c_response]. unfold confirm. rewrite (equiv_at (op_bind_assoc _ _ _)).
    rewrite (op_bind_Ok _ _ _ _ _ _ Hconf), (equiv_at (op_ret_bind _ _)). cbn. by rewrite app_nil_r. }
  destruct (remote_call Foreign Foreign (method_list self1 server_place junk1 statistics)
    (method_list_client self2 client_place junk2) (str "set") 2
    (set_method self1 server_place junk1) (Caller _ _ raw_value value_bool (confirm self1 server_place))
    0 (set_method self2 client_place junk2) (Invoker _ _ valmap2str_json value_bool junk2 (λ cmd _ _, call self2 client_place (set cmd)))
    (Forall str_pair) (λ _, True) t cmd true true t (str "true") c1
    (set_ids_of 2 (ids_of 2 c1' ∖ {[ id ]}) c1') ev1 c2
    (set_user (set_replication r' (set_db d' (user c2))) (set_in_ids (in_ids c2 ⊎ {[+ id +]}) c2)) []
    Htab Hword ltac:(simpl; lia) Hids Hmax eq_refl eq_refl Hnamed eq_refl valmap2str_RoundTrip Hcmd
    (RoundTripAny_RoundTrip _ _ value_bool_RoundTrip) I Hraw Ht Hjt eq_refl eq_refl (jt_bool false true) Hcall Hrun)
    as (w & w' & Hw & _ & Hs & Hm).
  exists w, w'. eexists. split; [|split; [exact Hs|split; [exact Hc|split; [|exact Hm]]]].
  - unfold send_request. cbn [server_place tag_name]. cbn [call_request] in Hw.
    rewrite (op_bind_Ok _ _ _ _ _ _ Hw). done.
  - cbn. multiset_solver.
Qed.

(** A slave that is up to date, with one update on its way. *)
Definition master_conn : conn (U := world (gmap bytes bytes)) :=
  new_conn (World ∅ (MkReplication
    {[ str "s" := Client 0 (str "s") running [] [(str "set", js "{'k':'v'}")] 1 ]} 1) {[ 7%nat := str "s" ]}).

Lemma replicated_set_witness :
  let id := id_count master_conn + 1 in
  let sent := set_ids_of 2 ({[ id ]} ∪ ids_of 2 master_conn) (set_id_count id master_conn) in
  let r := call 7 server_place (response 7) sent in
  ∃ w w' c2', send_request server_place _set_ (js "{'k':'v'}") master_conn = (Ok tt, sent, [Write w]) ∧
    ad_invoke Foreign (method_list_client 9 client_place false) w (new_conn (world0 ∅))
    = (Ok tt, c2', [Clock_start; Write w'; Mark 0; Clock_finish]) ∧
    w_contents (user c2') = insert_all (w_contents (world0 ∅)) [(str "k", str "v")] ∧ in_ids c2' = ∅ ∧
    ad_invoke Foreign (method_list 7 server_place false (λ _, [])) w' sent
    = (Ok tt, set_ids_of 2 (ids_of 2 r.1.2 ∖ {[ id ]}) r.1.2, r.2).
Proof.
  intros id sent r.
  apply (replicated_set 7 9 false false (λ _, []) [(str "k", str "v")] (js "{'k':'v'}") true master_conn
    r.1.2 r.2 (new_conn (world0 ∅))).
  - apply new_conn_ids_ok.
  - reflexivity.
  - repeat constructor.
  - reflexivity.
  - vm_compute. reflexivity.
Defined.

(** The master sends an update and gets the answer to it. *)
Definition asked : conn := (caller_request (E := event) 2 (str "set") raw_value (js "{'k':'v'}") master_conn).1.2.

Lemma daemon_ids_unique_witness :
  let k := Caller _ _ raw_value value_bool (confirm 7 server_place) in
  let r := run_response 2 k true 1 asked in
  (∀ i j id, id ∈ ids_of i asked → id ∈ ids_of j asked → i = j) ∧ 1 ∈ ids_of 2 asked ∧
  ad_invoke Foreign (method_list 7 server_place false (λ _, [])) (rn_write (response_text (str "1") (str "true"))) asked
  = (Ok tt, r.1.2, r.2) ∧ ∀ j, 1 ∉ ids_of j r.1.2.
Proof.
  intros k r.
  destruct (daemon_ids_unique 7 server_place false (λ _, []) (method_list 7 server_place false (λ _, []))
    (user master_conn) asked asked) as (Hd & _ & Hdeliver).
  - left. reflexivity.
  - apply rtc_once. apply (conn_asks _ 2 (str "set") _ raw_value (js "{'k':'v'}") _ (Ok 1) _
      (caller_request (E := event) 2 (str "set") raw_value (js "{'k':'v'}") master_conn).2).
    + vm_compute. reflexivity.
    + exact I.
  - apply rtc_refl.
  - assert (1 ∈ ids_of 2 asked) as H1 by (apply (bool_decide_unpack _); vm_compute; exact I).
    split; [exact Hd|]. split; [exact H1|].
    apply (Hdeliver Foreign 2%nat (set_method 7 server_place false) k 1 (λ _, True) true (str "1") (str "true")).
    + reflexivity.
    + reflexivity.
    + exact H1.
    + exact (RoundTripAny_RoundTrip _ _ value_bool_RoundTrip).
    + exact I.
    + vm_compute. reflexivity.
    + reflexivity.
    + exact (jt_bool false true).
    + vm_compute. reflexivity.
Defined.
