(* ===== verification/Udp.v ===== *)
(** * Udp: [common/udp.hpp]

    The port for datagrams.  One object serves all peers: it keeps the address
    of the last one, the splitter of [ad_binary_splitter.hpp] and the state of
    a connection, and runs the lines of what it receives at once.  The
    splitter is stated again for a receiver that may throw.  Then: whole lines
    are served to whom they came from, and what becomes of the others. *)

From S2P Require Import Prelude JsonParser JsonNumber Serializer JsonString JsonArray JsonObject Queries.
From S2P Require Import JsonScan LevelDb Replication Methods MethodsSpec Splitter JsonRpc JsonRpcSpec Connection.

(** ** The splitter over a receiver that may throw *)

Section splitter.
Context {E S : Type} (sep : bytes → bool) (size_sep : nat) (send : bytes → prog E S bool).

(* src: fas/adv/io/ad_binary_splitter.hpp 122-137 ad_binary_splitter::_parse_ *)
Fixpoint send_loop (buffer : bytes) (n i offset : nat) (flag : bool) : prog E S (bool * nat * bool) :=
  match n with
  | O => mret (false, offset, flag)
  | Datatypes.S n =>
      if sep (drop i buffer) then
        cleared ← send (take (i + size_sep - offset) (drop offset buffer));
        if cleared : bool then mret (true, 0%nat, true)
        else send_loop buffer n (i + 1) (i + size_sep) true
      else send_loop buffer n (i + 1) offset flag
  end.

(* src: fas/adv/io/ad_binary_splitter.hpp 116-139 ad_binary_splitter::_parse_ *)
Definition send_parse (buffer : bytes) (offset_start : nat) : prog E S (bool * option nat) :=
  if (length buffer <? size_sep)%nat then mret (false, None)
  else
    '(cleared, offset, flag) ← send_loop buffer (length buffer - size_sep + 1 - offset_start) offset_start 0 false;
    mret (cleared, if flag : bool then Some offset else None).

(** The state is the buffer [_data] of the splitter and what the receiver
    has. *)
Definition on_receiver {A} (m : prog E S A) : prog E (bytes * S) A := λ s,
  let '(r, c, ev) := m s.2 in (r, (s.1, c), ev).
Definition set_data (d : bytes) : prog E (bytes * S) unit := op_modify (λ s, (d, s.2)).

(** What is kept of a buffer. *)
Definition kept (cleared : bool) (offset : option nat) (buffer : bytes) : bytes :=
  if cleared then []
  else match offset with
       | None => buffer
       | Some o => if (o =? length buffer)%nat then [] else drop o buffer
       end.

(** A block is appended to the buffer before its lines are sent, unless the
    buffer is empty: then it is kept afterwards. *)
(* src: fas/adv/io/ad_binary_splitter.hpp 77-112 ad_binary_splitter::operator() *)
Definition send_block (d : bytes) : prog E (bytes * S) (option nat) :=
  data ← op_get fst;
  match data with
  | [] =>
      '(cleared, offset) ← on_receiver (send_parse d 0);
      set_data (kept cleared offset d);;
      mret offset
  | _ :: _ =>
      let datasize := length data in
      set_data (data ++ d);;
      '(cleared, offset) ←
        on_receiver (send_parse (data ++ d) (if (size_sep <? datasize)%nat then (datasize - size_sep)%nat else 0%nat));
      set_data (kept cleared offset (data ++ d));;
      mret offset
  end.
End splitter.

(** ** The port *)

(** An address; what is sent, and what else a connection does. *)
Abbreviation peer := Z.
Inductive udp_out {E : Type} := Sendto (p : peer) (d : bytes) | Set_rhandler (fd : Z) | Other (o : @out E).

Section server_udp.
Context {E U : Type} (e : past) (methods : list (@method E U)).

Abbreviation connection := (@conn U).

(* src: common/udp.hpp 56-61 server_udp *)
Record server_udp := ServerUdp {
  _udp : Z;
  _remote_address : peer;
  reader : bytes * connection;
}.

Abbreviation uprog := (prog (@udp_out E) server_udp).

Definition set_reader (r : bytes * connection) (u : server_udp) : server_udp := ServerUdp (_udp u) (_remote_address u) r.

(** The writer [ad_udp_write] sends to the last peer, [release] does
    nothing. *)
(* src: common/udp.hpp 107-115 server_udp::_udp_write *)
Definition to_peer (p : peer) (ev : list (@out E)) : list (@udp_out E) :=
  omap (λ o, match o with Write d => Some (Sendto p d) | Release => None | o => Some (Other o) end) ev.

Definition on_reader {A} (m : prog out (bytes * connection) A) : uprog A := λ u,
  let '(r, rd, ev) := m (reader u) in (r, set_reader rd u, to_peer (_remote_address u) ev).

(** [_on_read_], and [_input_] behind it; the datagrams never clear the
    splitter. *)
(* src: common/aspect/rn_json_aspect.hpp 64-70 rn_reader_advice *)
Definition _on_read_ (d : bytes) : prog out (bytes * connection) unit :=
  send_block (sep2 CR LF) 2 (λ l, ad_invoke e methods l;; mret false) d;; mret tt.

(** [got] is the answer of [recvfrom]: nothing for an error. *)
(* src: common/udp.hpp 99-106 server_udp::ready_read *)
Definition ready_read (got : option (peer * bytes)) : uprog unit :=
  match got with
  | Some (p, d) =>
      op_modify (λ u, ServerUdp (_udp u) p (reader u));;
      on_reader (_on_read_ d)
  | None => mret tt
  end.

(** [socket] and [bound] are the outcomes of the system calls. *)
(* src: common/udp.hpp 79-98 server_udp::start *)
Definition start (socket : res Z) (bound : res unit) : uprog unit :=
  fd ← op_lift socket;
  op_modify (λ u, ServerUdp fd (_remote_address u) (reader u));;
  op_lift bound;;
  op_emit (Set_rhandler fd).

(* src: common/udp.hpp 72-78 server_udp::start_on_same_socket *)
Definition start_on_same_socket (t : server_udp) : uprog unit :=
  op_modify (λ u, ServerUdp (_udp t) (_remote_address u) (reader u));;
  op_emit (Set_rhandler (_udp t)).

(** An exception ends one round of the loop. *)
(* src: src/daemon.cpp 55-63 run_select *)
Definition run_select (m : uprog unit) : uprog unit := λ u,
  match m u with (Throw _, u', ev) => (Ok tt, u', ev) | r => r end.

(* src: src/daemon.cpp 262-273 main *)
Fixpoint serve (gots : list (option (peer * bytes))) : uprog unit :=
  match gots with
  | [] => mret tt
  | got :: gots => run_select (ready_read got);; serve gots
  end.
End server_udp.
Arguments server_udp : clear implicits.
Arguments udp_out : clear implicits.

(** ** The splitter and its receiver *)

Section lines.
Context {E S : Type} (line : bytes → prog E S unit).

Fixpoint lines (ds : list bytes) : prog E S unit :=
  match ds with [] => mret tt | d :: ds => line d;; lines ds end.

Lemma set_data_bind {B} d (f : unit → prog E (bytes * S) B) x : (set_data d ≫= f) x = f tt (d, x.2).
Proof. exact (op_modify_bind _ f x). Qed.

Lemma lines_one d : lines [d] ≃ line d.
Proof. cbn [lines]. rewrite <-(op_bind_ret (line d)) at 2. apply op_bind_ext. by intros []. Qed.

Abbreviation sender := (λ l, line l;; mret false).

(** It sends what the splitter of [Splitter] delivers. *)
Lemma send_loop_lines sep size buffer n i o flag s0 s1 cl o' f' :
  parse_loop sep size log buffer n i o flag s0 = (s1, cl, o', f') →
  ∃ ds, s1 = s0 ++ ds ∧ cl = false ∧
    send_loop sep size sender buffer n i o flag ≃ (lines ds;; mret (false, o', f')).
Proof.
  revert i o flag s0. induction n as [|n IH]; intros i o flag s0; cbn [parse_loop send_loop].
  { intros [= <- <- <- <-]. exists []. rewrite app_nil_r. split_and!; [done..|]. cbn [lines]. by rewrite op_ret_bind. }
  case_match; [|apply IH]. unfold log at 1. intros (ds & -> & -> & Heq)%IH. rewrite <-app_assoc.
  eexists (_ :: ds). split_and!; [done..|]. cbn [lines]. rewrite !op_bind_assoc. apply op_bind_ext. intros [].
  by rewrite op_ret_bind.
Qed.

Lemma send_parse_lines sep size buffer start s1 cl o :
  _parse_ sep size log buffer 0 start [] = (s1, cl, o) →
  cl = false ∧ send_parse sep size sender buffer start ≃ (lines s1;; mret (false, o)).
Proof.
  unfold _parse_, send_parse. case_match; [intros [= <- <- <-]; split; [done|]; cbn [lines]; by rewrite op_ret_bind|].
  destruct (parse_loop _ _ _ _ _ _ _ _ _) as [[[s2 cl2] o2] f2] eqn:Hl. intros [= <- <- <-].
  apply send_loop_lines in Hl as (ds & -> & -> & ->). split; [done|]. cbn [app].
  rewrite op_bind_assoc. apply op_bind_ext. intros []. by rewrite op_ret_bind.
Qed.

(** A block: the lines that it completes are run; the rest is kept, and the
    whole buffer when one of them throws and there was a rest before. *)
Lemma send_block_run data d s ds r :
  residue data → cut data d = (ds, r) →
  ∃ o, send_block (sep2 CR LF) 2 sender d (data, s) =
    match lines ds s with
    | (Ok _, s', ev) => (Ok o, (r, s'), ev)
    | (Throw x, s', ev) => (Throw x, (match data with [] => [] | _ => data ++ d end, s'), ev)
    | (Undef, s', ev) => (Undef, (match data with [] => [] | _ => data ++ d end, s'), ev)
    | (NoFuel, s', ev) => (NoFuel, (match data with [] => [] | _ => data ++ d end, s'), ev)
    end.
Proof.
  intros Hres Hcut. destruct (split_block_spec data d [] Hres) as (ds' & r' & o & Hcut' & Hsplit).
  rewrite Hcut in Hcut'. injection Hcut' as <- <-. exists o. revert Hsplit. unfold send_block, split_block.
  rewrite op_get_bind. cbn [fst]. destruct data as [|x data].
  - destruct (_parse_ _ _ _ d 0 0 []) as [[s1 cl] o1] eqn:Hp. apply send_parse_lines in Hp as [-> Hp].
    cbn iota. intros [= -> Hr ->]. unfold on_receiver. unfold mbind at 1, op_bind at 1. cbn [snd fst]. rewrite (equiv_at Hp).
    unfold mbind at 1, op_bind at 1. destruct (lines ds s) as [[[] s'] ev]; try done. cbn -[drop Nat.eqb].
    unfold kept. rewrite Hr. rewrite set_data_bind. cbn. by rewrite !app_nil_r.
  - set (st := if (2 <? length (x :: data))%nat then _ else _).
    destruct (_parse_ _ _ _ ((x :: data) ++ d) 0 st []) as [[s1 cl] o1] eqn:Hp. apply send_parse_lines in Hp as [-> Hp].
    cbn iota. intros [= -> Hr ->]. rewrite set_data_bind. cbn [snd]. unfold on_receiver.
    unfold mbind at 1, op_bind at 1. cbn [snd fst]. rewrite (equiv_at Hp).
    unfold mbind at 1, op_bind at 1. destruct (lines ds s) as [[[] s'] ev]; try done. cbn -[drop Nat.eqb].
    unfold kept. rewrite Hr. rewrite set_data_bind. cbn. by rewrite !app_nil_r.
Qed.
End lines.

(** ** One datagram *)

Section port.
Context {E U : Type} (e : past) (methods : list (@method E U)).

Abbreviation uprog := (prog (udp_out E) (server_udp U)).
Abbreviation run_lines := (lines (ad_invoke e methods)).

(** The outcome of the lines that a datagram completes, on the port. *)
Definition port_after {A} fd p r r' (x : res A * @conn U * list (@out E)) : res unit * server_udp U * list (udp_out E) :=
  match x with
  | (Ok _, c, ev) => (Ok tt, ServerUdp fd p (r, c), to_peer p ev)
  | (Throw t, c, ev) => (Throw t, ServerUdp fd p (r', c), to_peer p ev)
  | (Undef, c, ev) => (Undef, ServerUdp fd p (r', c), to_peer p ev)
  | (NoFuel, c, ev) => (NoFuel, ServerUdp fd p (r', c), to_peer p ev)
  end.

Lemma ready_read_run fd p0 p data c d ds r :
  residue data → cut data d = (ds, r) →
  ready_read e methods (Some (p, d)) (ServerUdp fd p0 (data, c))
  = port_after fd p r (match data with [] => [] | _ => data ++ d end) (run_lines ds c).
Proof.
  intros Hres Hcut. destruct (send_block_run (ad_invoke e methods) data d c ds r Hres Hcut) as [o Hrun].
  cbn [ready_read]. rewrite op_modify_bind. cbn [_udp reader]. unfold on_reader, _on_read_. cbn [reader _remote_address].
  unfold mbind at 1, op_bind at 1. rewrite Hrun. destruct (run_lines ds c) as [[[] c'] ev]; try done.
  cbn. by rewrite app_nil_r.
Qed.

(** A datagram without a line end is kept. *)
Lemma ready_read_kept fd p0 p c d :
  residue d → ready_read e methods (Some (p, d)) (ServerUdp fd p0 ([], c)) = (Ok tt, ServerUdp fd p (d, c), []).
Proof.
  intros Hres. rewrite (ready_read_run fd p0 p [] c d [] d eq_refl); [done|].
  rewrite (surjective_pairing (cut [] d)), (cut_residue [] d Hres). by rewrite Hres.
Qed.

(** Running the messages of each datagram and telling its sender. *)
Definition told {A} (p : peer) (m : prog (@out E) (@conn U) A) : prog (udp_out E) (@conn U) A := λ c,
  let '(r, c', ev) := m c in (r, c', to_peer p ev).
Fixpoint answers (l : list (peer * list bytes)) : prog (udp_out E) (@conn U) unit :=
  match l with
  | [] => mret tt
  | (p, ms) :: l => told p (run_lines (rn_write <$> ms));; answers l
  end.

Definition datagram (x : peer * list bytes) : option (peer * bytes) := Some (x.1, concat (rn_write <$> x.2)).

Lemma whole_lines ms : Forall residue ms → cut [] (concat (rn_write <$> ms)) = (rn_write <$> ms, []).
Proof.
  intros Hms. rewrite <-(app_nil_r (concat _)). apply cut_concat; [|done].
  apply Forall_fmap. eapply Forall_impl; [exact Hms|]. intros m Hm. by exists m.
Qed.

Lemma serve_cons got gots u u1 ev1 :
  ready_read e methods got u = (Ok tt, u1, ev1) →
  serve e methods (got :: gots) u = let '(r, u2, ev2) := serve e methods gots u1 in (r, u2, ev1 ++ ev2).
Proof. intros Hr. cbn [serve]. unfold mbind, op_bind, run_select. by rewrite Hr. Qed.

Lemma serve_cons_throw got gots u u1 ev1 x :
  ready_read e methods got u = (Throw x, u1, ev1) →
  serve e methods (got :: gots) u = let '(r, u2, ev2) := serve e methods gots u1 in (r, u2, ev1 ++ ev2).
Proof. intros Hr. cbn [serve]. unfold mbind, op_bind, run_select. by rewrite Hr. Qed.

Lemma to_peer_app p ev1 ev2 : to_peer p (ev1 ++ ev2) = to_peer p ev1 ++ to_peer (E := E) p ev2.
Proof. apply omap_app. Qed.

(** ** The texts of calls *)

(** [text] is a call that runs [body], whatever is behind it. *)
Definition call_of (text : bytes) (body : prog (@out E) (@conn U) unit) : Prop :=
  starts_with "{" text = true ∧ ∀ tl, _invoke_1 e methods (text ++ tl) ≃ (body ≫= λ _, mret (Some tl)).

Lemma call_of_request nm i m k OK p id idt t :
  table_ok methods → named methods nm i m → m_invoker m = Some k → RoundTrip (invoke_request k) OK → OK p →
  roundtrip_int int_t id → id_text id idt → ser (invoke_request k) p = Ok t → jtext false t →
  call_of (request_text nm idt t) (run_request i k p id).
Proof. intros Htab Hn Hk HJ Hp Hid Hidt Ht Hj. split; [done|]. intros tl. by eapply request_invoke_1. Qed.

(** A message runs its calls one after the other. *)
Lemma invoke_call text body tl n :
  call_of text body →
  invoke_loop e methods (S n) (text ++ tl)
  ≃ (body;; match skip_low tl with [] => mret tt | next => invoke_loop e methods n next end).
Proof.
  intros [Hstart Hcall]. cbn [invoke_loop]. rewrite (Hcall tl), op_bind_assoc. apply op_bind_ext. intros [].
  rewrite op_ret_bind. replace (length tl =? length (text ++ tl))%nat with false; [done|].
  symmetry. apply Nat.eqb_neq. rewrite length_app. destruct text; [done|]. simpl. lia.
Qed.

Lemma ad_invoke_call text body tl :
  call_of text body →
  ad_invoke e methods (text ++ tl)
  ≃ (body;; match skip_low tl with [] => mret tt | next => invoke_loop e methods 9 next end).
Proof.
  intros Hc. rewrite <-(invoke_call text body tl 9 Hc). destruct Hc as [Hstart _]. by destruct text as [|x text].
Qed.

Lemma skip_low_call text tl : starts_with "{" text = true → skip_low (text ++ tl) = text ++ tl.
Proof.
  destruct text as [|x text]; [done|]. cbn [starts_with app skip_low].
  intros ->%Ascii.eqb_eq. reflexivity.
Qed.

Lemma two_calls_run text1 body1 text2 body2 :
  call_of text1 body1 → call_of text2 body2 →
  ad_invoke e methods (text1 ++ rn_write text2) ≃ (body1;; body2).
Proof.
  intros H1 H2. rewrite (ad_invoke_call text1 body1) by done. apply op_bind_ext. intros [].
  unfold rn_write. rewrite skip_low_call by apply H2.
  destruct (text2 ++ [CR; LF]) as [|x t] eqn:Ht; [by destruct text2|]. rewrite <-Ht.
  rewrite (invoke_call text2 body2) by done. cbn [skip_low]. rewrite <-(op_bind_ret body2) at 2.
  apply op_bind_ext. by intros [].
Qed.
End port.

(** ** A line that throws *)

(** No separator begins before the end of a text without one. *)
Lemma sep_behind l y i : residue l → sep2 CR LF (drop i (l ++ y)) = true → (length l < i + 2)%nat.
Proof.
  intros Hres Hsep. destruct (Nat.lt_ge_cases (length l) (i + 2)) as [?|Hge]; [done|exfalso].
  rewrite drop_app_le in Hsep by lia. destruct (drop i l) as [|a [|b r]] eqn:Hd.
  - apply (f_equal length) in Hd. rewrite length_drop in Hd. simpl in Hd. lia.
  - apply (f_equal length) in Hd. rewrite length_drop in Hd. simpl in Hd. lia.
  - cbn [app sep2] in Hsep. apply andb_true_iff in Hsep as [->%Ascii.eqb_eq ->%Ascii.eqb_eq].
    assert (residue (take i l ++ [CR])) as Hp.
    { replace (take i l ++ [CR]) with (take (i + 1) l); [by apply cut_prefix|].
      rewrite <-(take_drop i l) at 1. rewrite Hd, take_app_ge; rewrite length_take_le by lia; [|lia].
      by replace (i + 1 - i)%nat with 1%nat by lia. }
    unfold residue in Hres. rewrite <-(take_drop i l), Hd in Hres.
    replace (take i l ++ CR :: LF :: r) with ((take i l ++ [CR]) ++ LF :: r) in Hres by (by rewrite <-app_assoc).
    rewrite residue_cut in Hres by done. cbn [cut] in Hres. unfold ends_CR in Hres. rewrite last_snoc in Hres.
    change ((CR =?c CR) && (LF =?c LF)) with true in Hres. cbn iota in Hres. by destruct (cut [] r).
Qed.

Section stuck.
Context {E S : Type} (send : bytes → prog E S bool) (l : bytes) (stuck : S → Prop) (ev0 : list E).
Hypothesis Hl : residue l.
Hypothesis Hne : l ≠ [].
Hypothesis Hsend : ∀ tl s, stuck s → ∃ x s', send (l ++ tl) s = (Throw x, s', ev0) ∧ stuck s'.

Lemma send_loop_stuck n i y s :
  stuck s → ∃ r s' ev, send_loop (sep2 CR LF) 2 send (l ++ y) n i 0 false s = (r, s', ev) ∧ stuck s' ∧
    ((r = Ok (false, 0%nat, false) ∧ ev = []) ∨ (∃ x, r = Throw x) ∧ ev = ev0).
Proof using Hl Hsend.
  intros Hs. revert i. induction n as [|n IH]; intros i; cbn [send_loop].
  { do 3 eexists. split; [reflexivity|]. by eauto. }
  destruct (sep2 CR LF (drop i (l ++ y))) eqn:Hsep; [|apply IH].
  apply (sep_behind l y i Hl) in Hsep. rewrite Nat.sub_0_r, drop_0.
  rewrite take_app_ge by lia. destruct (Hsend (take (i + 2 - length l) y) s Hs) as (x & s' & Hx & Hs').
  unfold mbind, op_bind. rewrite Hx. do 3 eexists. split; [reflexivity|]. by eauto.
Qed.

(** A block only makes the buffer longer. *)
Lemma send_block_stuck y d s :
  stuck s → ∃ r s' ev, send_block (sep2 CR LF) 2 send d (l ++ y, s) = (r, (l ++ y ++ d, s'), ev) ∧ stuck s' ∧
    (((∃ o, r = Ok o) ∧ ev = []) ∨ (∃ x, r = Throw x) ∧ ev = ev0).
Proof using Hl Hne Hsend.
  intros Hs. unfold send_block. rewrite op_get_bind. cbn [fst].
  destruct (l ++ y) as [|a b] eqn:Hly; [by apply app_eq_nil in Hly as [? _]|]. rewrite <-Hly. clear a b Hly.
  rewrite <-app_assoc. set (st := if (2 <? length (l ++ y))%nat then _ else _).
  rewrite set_data_bind. cbn [snd]. unfold on_receiver.
  assert (∃ r s' ev, send_parse (sep2 CR LF) 2 send (l ++ y ++ d) st s = (r, s', ev) ∧ stuck s' ∧
    ((r = Ok (false, None) ∧ ev = []) ∨ (∃ x, r = Throw x) ∧ ev = ev0)) as (r & s' & ev & Hp & Hs' & Hr).
  { unfold send_parse. case_match; [by do 3 eexists; eauto|].
    destruct (send_loop_stuck (length (l ++ y ++ d) - 2 + 1 - st) st (y ++ d) s Hs) as (r & s' & ev & Hrun & Hs' & Hr).
    unfold mbind, op_bind. rewrite Hrun. destruct Hr as [[-> ->]|[[x ->] ->]]; (do 3 eexists; split; [reflexivity|]); by eauto. }
  unfold mbind at 1, op_bind at 1. cbn [fst snd]. rewrite Hp. destruct Hr as [[-> ->]|[[x ->] ->]].
  - rewrite set_data_bind. cbn. do 3 eexists. split; [reflexivity|]. by eauto.
  - do 3 eexists. split; [reflexivity|]. by eauto 10.
Qed.
End stuck.

Section poisoned.
Context {E U : Type} (e : past) (methods : list (@method E U)) (l : bytes) (body : prog (@out E) (@conn U) unit).
Context (stuck : @conn U → Prop) (ev0 : list (@out E)).
Hypothesis Hl : residue l.
Hypothesis Hcall : call_of e methods l body.
Hypothesis Hbody : ∀ c, stuck c → ∃ x c', body c = (Throw x, c', ev0) ∧ stuck c'.

Definition received (gots : list (option (peer * bytes))) : bytes :=
  concat ((λ got, match got with Some (_, d) => d | None => [] end) <$> gots).

Lemma ready_read_stuck fd p y c got :
  stuck c → ∃ p' c' ev r, ready_read e methods got (ServerUdp fd p (l ++ y, c))
    = (r, ServerUdp fd p' (l ++ y ++ received [got], c'), ev) ∧ stuck c' ∧
    (r = Ok tt ∨ ∃ x, r = Throw x) ∧ (ev = [] ∨ ∃ p, ev = to_peer p ev0).
Proof using Hl Hcall Hbody.
  intros Hc. destruct got as [[p' d]|].
  - destruct (send_block_stuck (λ t, ad_invoke e methods t;; mret false) l stuck ev0 Hl) with (y := y) (d := d) (s := c)
      as (r & c' & ev & Hrun & Hc' & Hr); [by destruct Hcall; destruct l| |done|].
    { intros tl s Hs. destruct (Hbody s Hs) as (x & s' & Hx & Hs'). exists x, s'. split; [|done].
      unfold mbind, op_bind. rewrite (equiv_at (ad_invoke_call e methods l body tl Hcall)).
      unfold mbind, op_bind. by rewrite Hx. }
    cbn [ready_read]. rewrite op_modify_bind. cbn [_udp reader]. unfold on_reader, _on_read_. cbn [reader _remote_address].
    unfold mbind at 1, op_bind at 1. rewrite Hrun. unfold received. cbn [fmap list_fmap concat]. rewrite app_nil_r.
    destruct Hr as [[[o ->] ->]|[[x ->] ->]]; do 4 eexists; (split; [reflexivity|]); split_and!; by eauto.
  - do 4 eexists. split; [cbn [ready_read]; unfold received; cbn; by rewrite app_nil_r|]. by eauto.
Qed.

Lemma serve_stuck fd p y c gots :
  stuck c → ∃ p' c' evs, serve e methods gots (ServerUdp fd p (l ++ y, c))
    = (Ok tt, ServerUdp fd p' (l ++ y ++ received gots, c'), concat evs) ∧ stuck c' ∧
    Forall (λ ev, ev = [] ∨ ∃ p, ev = to_peer p ev0) evs.
Proof using Hl Hcall Hbody.
  revert p y c. induction gots as [|got gots IH]; intros p y c Hc.
  { exists p, c, []. unfold received. cbn. by rewrite !app_nil_r. }
  destruct (ready_read_stuck fd p y c got Hc) as (p1 & c1 & ev1 & r & Hr & Hc1 & Hout & Hev).
  destruct (IH p1 (y ++ received [got]) c1 Hc1) as (p2 & c2 & evs & Hs & Hc2 & Hevs).
  exists p2, c2, (ev1 :: evs). split; [|by split; [|constructor]].
  assert (received (got :: gots) = received [got] ++ received gots) as ->
    by (unfold received; cbn; by rewrite app_nil_r).
  destruct Hout as [->|[x ->]]; [rewrite (serve_cons _ _ _ _ _ _ _ Hr)|rewrite (serve_cons_throw _ _ _ _ _ _ _ _ Hr)];
    rewrite Hs, <-!app_assoc; reflexivity.
Qed.
End poisoned.

(** ** Properties *)

(** C20. The port for datagrams answers whom it was asked by.  When every
    datagram holds whole messages, the port does what running the messages of
    each datagram on the connection does, in their order; all that is written
    for a datagram is sent to the peer it came from, and nothing is kept. *)
Theorem udp_serves_whole_lines {E U} e (methods : list (@method E U)) fd p0 (l : list (peer * list bytes)) c c' ev :
  Forall (λ x, Forall residue x.2) l → answers e methods l c = (Ok tt, c', ev) →
  serve e methods (datagram <$> l) (ServerUdp fd p0 ([], c))
  = (Ok tt, ServerUdp fd (default p0 (fst <$> last l)) ([], c'), ev).
Proof.
  intros Hl. revert p0 c ev. induction Hl as [|[p ms] l Hms Hl IH]; intros p0 c ev; [by intros [= -> <-]|].
  cbn [answers]. unfold told. unfold mbind at 1, op_bind at 1.
  destruct (lines (ad_invoke e methods) (rn_write <$> ms) c) as [[r c1] ev1] eqn:Hrun.
  destruct r as [[]| | |]; [|done..]. destruct (answers e methods l c1) as [[r2 c2] ev2] eqn:Hrest.
  intros [= -> -> <-]. specialize (IH p c1 ev2 Hrest).
  rewrite fmap_cons, (serve_cons e methods _ _ _ (ServerUdp fd p ([], c1)) (to_peer p ev1)).
  - rewrite IH. rewrite last_cons. by destruct (last l).
  - unfold datagram. cbn [fst snd]. rewrite (ready_read_run e methods fd p0 p [] c _ (rn_write <$> ms) []); [|done|by apply whole_lines].
    by rewrite Hrun.
Qed.

(**  A call without its line end is kept and joined with the next
    datagram, whoever sends it: the call of the peer [p1] is run when [p2]
    sends a call, and both answers are sent to [p2]. *)
Theorem unfinished_call_answered_to_next_peer {E U} e (methods : list (@method E U)) fd p0 p1 p2
    text1 body1 text2 body2 c c' ev :
  call_of e methods text1 body1 → call_of e methods text2 body2 → residue (text1 ++ text2) →
  (body1;; body2) c = (Ok tt, c', ev) →
  serve e methods [Some (p1, text1); Some (p2, rn_write text2)] (ServerUdp fd p0 ([], c))
  = (Ok tt, ServerUdp fd p2 ([], c'), to_peer p2 ev).
Proof.
  intros H1 H2 Hres Hrun.
  assert (residue text1) as Hr1 by (rewrite <-(take_app_length text1 text2); by apply cut_prefix).
  rewrite (serve_cons _ _ _ _ _ _ _ (ready_read_kept e methods fd p0 p1 c text1 Hr1)).
  assert (cut text1 (rn_write text2) = ([text1 ++ rn_write text2], [])) as Hcut2.
  { rewrite <-residue_cut by done. pose proof (cut_rn_write (text1 ++ text2) [] Hres) as Hc.
    unfold rn_write in *. by rewrite app_nil_r, <-app_assoc in Hc. }
  pose proof (ready_read_run e methods fd p1 p2 text1 c (rn_write text2) _ _ Hr1 Hcut2) as Hs2.
  rewrite (equiv_at (lines_one _ _)), (equiv_at (two_calls_run e methods text1 body1 text2 body2 H1 H2)), Hrun in Hs2.
  rewrite (serve_cons _ _ _ _ _ _ _ Hs2). cbn. by rewrite app_nil_r.
Qed.

(** C38. One call stops the port for good.  When [inc] is sent without its line
    end for a key that holds no number, the datagram that completes the line
    makes the handler throw, and the buffer is left as it is: it keeps all
    that is received from then on, no line of it is ever run again but the
    failing one, and no peer is ever sent anything. *)
Theorem poisoned_port {D} `{LevelDB D} `{HashOrder} self place junk statistics e k n id idt t bad x fd p0 p
    (c : conn (U := world D)) gots :
  let l := request_text (str "inc") idt t in
  int_pair (k, n) → roundtrip_int int_t id → id_text id idt → ser valmap2int_json [(k, n)] = Ok t → residue l →
  Get (w_db (user c)) k = Some bad → (read_number 0 bad).2 = Throw x →
  ∃ u ev, serve e (method_list self place junk statistics) (Some (p, l) :: gots) (ServerUdp fd p0 ([], c)) = (Ok tt, u, ev) ∧
    (reader u).1 = l ++ received gots ∧ w_db (user (reader u).2) = w_db (user c) ∧ ∀ q d, Sendto q d ∉ ev.
Proof.
  intros l Hp Hid Hidt Ht Hres Hk Hbad. set (methods := method_list self place junk statistics).
  set (cmd := Invoker _ _ valmap2int_json valmap2raw_json [] (λ cmd _ r, call self place (inc cmd r))).
  assert (jtext false t) as Hj.
  { apply (ser_jtext (s := valmap2int_json) false [(k, n)]); [|done]. repeat constructor; [apply Hp|done|apply Hp]. }
  assert (call_of e methods l (run_request 4 cmd [(k, n)] id)) as Hcall.
  { apply (call_of_request e methods (str "inc") 4 (inc_method self place) cmd (Forall int_pair) [(k, n)] id idt t); try done.
    - apply daemon_tables_ok.
    - split_and!; [done|done|]. intros [|[|[|[|j]]]] m' Hlt; [by intros [= <-]..|lia].
    - apply valmap2int_RoundTrip.
    - by apply Forall_singleton. }
  set (stuck := λ c' : conn (U := world D), Get (w_db (user c')) k = Some bad ∧ w_db (user c') = w_db (user c)).
  assert (∀ c', stuck c' → ∃ x c1, run_request 4 cmd [(k, n)] id c' = (Throw x, c1, [Clock_start]) ∧ stuck c1) as Hbody.
  { intros c' [Hs1 Hs2]. exists x, (set_in_ids (in_ids c' ⊎ {[+ id +]}) c').
    split; [|by split]. unfold run_request. rewrite op_modify_bind. unfold mbind at 1, op_bind at 1. cbn [op_emit].
    unfold mbind at 1, op_bind at 1. cbn [cmd i_request]. unfold call. cbn [user set_in_ids].
    rewrite (inc_stuck k n bad x) by done. by destruct c'. }
  rewrite (serve_cons _ _ _ _ _ _ _ (ready_read_kept e methods fd p0 p c l Hres)), <-(app_nil_r l).
  destruct (serve_stuck e methods l (run_request 4 cmd [(k, n)] id) stuck [Clock_start] Hres Hcall Hbody fd p [] c gots)
    as (p' & c' & evs & Hs & [_ Hdb] & Hevs); [by split|].
  rewrite Hs. do 2 eexists. split; [reflexivity|]. split; [by rewrite app_nil_r|]. split; [exact Hdb|].
  intros q d [Hin|Hin]%elem_of_app; [by apply not_elem_of_nil in Hin|].
  apply list_elem_of_In, in_concat in Hin as (ev1 & Hev1 & Hin).
  rewrite Forall_forall in Hevs. apply list_elem_of_In in Hev1, Hin.
  destruct (Hevs _ Hev1) as [->|[q' ->]]; [by apply not_elem_of_nil in Hin|].
  cbn in Hin. by apply list_elem_of_singleton in Hin.
Qed.

(** ** Witnesses *)

(** The key [k] holds no number. *)
Definition udp_conn : conn (U := world (gmap bytes bytes)) := new_conn (world0 {[ str "k" := str "x" ]}).
Definition udp_methods : list (@method event (world (gmap bytes bytes))) :=
  method_list 7 server_place false (λ _, []).
Definition get_call (id : string) : bytes := request_text (str "get") (str id) (js "['k']").
Definition get_answer (id : string) : bytes := rn_write (response_text (str id) (js "{'k':'x'}")).

Lemma udp_serves_whole_lines_witness :
  ∃ c', serve Foreign udp_methods (datagram <$> [(11, [get_call "1"]); (12, [get_call "2"])]) (ServerUdp 5 0 ([], udp_conn))
    = (Ok tt, ServerUdp 5 12 ([], c'),
        [Other Clock_start; Sendto 11 (get_answer "1"); Other (Mark 0); Other Clock_finish;
         Other Clock_start; Sendto 12 (get_answer "2"); Other (Mark 0); Other Clock_finish]).
Proof.
  eexists. apply (udp_serves_whole_lines Foreign udp_methods 5 0 [(11, [get_call "1"]); (12, [get_call "2"])]).
  - by repeat constructor.
  - vm_compute. reflexivity.
Defined.

Definition get_invoker : @invoker event (world (gmap bytes bytes)) :=
  Invoker _ _ vallist_json valmap2str_json [] (λ cmd _ r, call 7 server_place (get cmd r)).

Lemma get_call_of id idz :
  roundtrip_int int_t idz → id_text idz (str id) →
  call_of Foreign udp_methods (get_call id) (run_request 0 get_invoker [str "k"] idz).
Proof.
  intros Hid Hidt. assert (utf8_text (str "k")) as Hk by (by apply plain_text).
  apply (call_of_request Foreign udp_methods (str "get") 0 (get_method 7 server_place) get_invoker
    (Forall utf8_text)); try done.
  - apply daemon_tables_ok.
  - split_and!; [done|done|lia].
  - apply _.
  - by apply Forall_singleton.
  - apply (ser_jtext (s := vallist_json) false [str "k"]); [|done]. apply Forall_singleton. by split.
Qed.

Lemma unfinished_call_answered_to_next_peer_witness :
  ∃ c', serve Foreign udp_methods [Some (11, get_call "1"); Some (12, rn_write (get_call "2"))] (ServerUdp 5 0 ([], udp_conn))
    = (Ok tt, ServerUdp 5 12 ([], c'),
        [Other Clock_start; Sendto 12 (get_answer "1"); Other (Mark 0); Other Clock_finish;
         Other Clock_start; Sendto 12 (get_answer "2"); Other (Mark 0); Other Clock_finish]).
Proof.
  eexists. eapply (unfinished_call_answered_to_next_peer Foreign udp_methods 5 0 11 12 (get_call "1") _ (get_call "2") _
    udp_conn _ [Clock_start; Write (get_answer "1"); Mark 0; Clock_finish;
                Clock_start; Write (get_answer "2"); Mark 0; Clock_finish]).
  - apply (get_call_of "1" 1); [|reflexivity]. split; [done|intros _ _; done].
  - apply (get_call_of "2" 2); [|reflexivity]. split; [done|intros _ _; done].
  - reflexivity.
  - vm_compute. reflexivity.
Defined.

Lemma poisoned_port_witness :
  let l := request_text (str "inc") (str "1") (js "{'k':1}") in
  ∃ u ev, serve Foreign udp_methods (Some (11, l) :: [Some (12, rn_write (get_call "2")); Some (13, rn_write (get_call "3"))])
            (ServerUdp 5 0 ([], udp_conn)) = (Ok tt, u, ev) ∧
    (reader u).1 = l ++ received [Some (12, rn_write (get_call "2")); Some (13, rn_write (get_call "3"))] ∧
    w_db (user (reader u).2) = {[ str "k" := str "x" ]} ∧ ∀ q d, Sendto q d ∉ ev.
Proof.
  apply (poisoned_port 7 server_place false (λ _, []) Foreign (str "k") 1 1 (str "1") (js "{'k':1}") (str "x")
    (json_error invalid_json_number 1) 5 0 11 udp_conn).
  - split; [by apply plain_text|]. split; [done|intros _ _; done].
  - split; [done|intros _ _; done].
  - reflexivity.
  - reflexivity.
  - reflexivity.
  - reflexivity.
  - reflexivity.
Defined.
