(* ===== verification/Multiserver.v ===== *)
(** * Multiserver: [common/multiserver.hpp] and [common/multiserver_hlp.hpp]

    The connections of the main port do not run the methods: a datagram is
    only taken apart into its members, the parameters as raw text, and put
    into the queue of the pool of threads that the method is assigned to; a
    thread of the pool parses the parameters, runs the method and writes the
    answer to the connection the request came from. *)

From stdpp Require Import gmultiset.
From S2P Require Import Prelude JsonParser JsonNumber Serializer JsonString JsonArray JsonObject Queries.
From S2P Require Import JsonScan Splitter JsonRpc JsonRpcSpec.

(** ** Requests *)

(* src: common/multiserver.hpp 16-25 json_rpc_req *)
Record json_rpc_req := Json_rpc_req {
  q_jsonrpc : bytes;
  q_method : bytes;
  q_id : Z;
  q_params : bytes;
  q_result : bytes;
}.

(** [jsonrpc] is not initialised; nothing reads it. *)
(* src: common/multiserver.hpp 59-61 json_rpc_req::json_rpc_req *)
Definition new_json_rpc_req : json_rpc_req := Json_rpc_req (pad 8 []) [] (-1) [] [].

(* src: common/multiserver.hpp 85-94 json_rpc_req_json *)
Definition json_rpc_req_json : serializer json_rpc_req :=
  object
    [member (str "jsonrpc") q_jsonrpc (λ t v, Json_rpc_req v (q_method t) (q_id t) (q_params t) (q_result t)) (value_chars 8);
     member (str "method") q_method (λ t v, Json_rpc_req (q_jsonrpc t) v (q_id t) (q_params t) (q_result t)) value_string;
     member (str "id") q_id (λ t v, Json_rpc_req (q_jsonrpc t) (q_method t) v (q_params t) (q_result t)) (value_integer longlong_t);
     member (str "params") q_params (λ t v, Json_rpc_req (q_jsonrpc t) (q_method t) (q_id t) v (q_result t)) raw_value;
     member (str "result") q_result (λ t v, Json_rpc_req (q_jsonrpc t) (q_method t) (q_id t) (q_params t) v) raw_value]
    new_json_rpc_req.

(** ** The server *)

(** [queues] holds the requests with the connection they came from. *)
(* src: common/multiserver.hpp 297-307 multiserver *)
Record multiserver := Multiserver {
  method2thread : gmap bytes Z;
  thread_count : list Z;
  queues : list (list (nat * json_rpc_req));
  method2num : gmap bytes Z;
  srvmain_threads : Z;
}.

Definition set_queues (q : list (list (nat * json_rpc_req))) (s : multiserver) : multiserver :=
  Multiserver (method2thread s) (thread_count s) q (method2num s) (srvmain_threads s).

(* src: common/multiserver_hlp.hpp 16-23 fill_map *)
Fixpoint fill_map (map : gmap bytes Z) (names : list bytes) (v : Z) : gmap bytes Z :=
  match names with
  | [] => map
  | name :: names => fill_map (<[name := v]> map) names (v + 1)
  end.

(* src: common/multiserver.hpp 309-316 multiserver::multiserver *)
Definition new_multiserver (names : list bytes) : multiserver :=
  Multiserver ∅ [] [] (fill_map ∅ names 0) 1.

(* src: common/multiserver.hpp 333-339 multiserver::get_thread_number *)
Definition get_thread_number (m : bytes) (s : multiserver) : Z := default 0 (method2thread s !! m).

(* src: common/multiserver.hpp 341-345 multiserver::get_method_number *)
Definition get_method_number (m : bytes) (s : multiserver) : Z := default (-1) (method2num s !! m).

(** Indexing [queues] out of range is undefined. *)
(* src: common/multiserver.hpp 347-352 multiserver::push_queue *)
Definition push_queue (client : nat) (req : json_rpc_req) (s : multiserver) : res multiserver :=
  let num := get_thread_number (q_method req) s in
  if num <? 0 then Undef
  else match queues s !! Z.to_nat num with
  | Some q => Ok (set_queues (<[Z.to_nat num := q ++ [(client, req)]]> (queues s)) s)
  | None => Undef
  end.

(** The queues are made when the threads are. *)
(* src: common/multiserver.hpp 431-431 multiserver::spawn_threads *)
Definition spawn_threads (s : multiserver) : multiserver :=
  set_queues (replicate (length (thread_count s)) []) s.

(** [server_tcp::init] of the daemon. *)
(* src: src/daemon.cpp 89-102 server_tcp::init *)
Definition server_init (threads : Z) (s : multiserver) : multiserver :=
  let n0 := if 8 <=? threads then 2 else 1 in
  let n1 := Z.max 1 (Z.quot (threads - n0) 2) in
  let n2 := Z.max 1 (threads - n0 - n1) in
  Multiserver
    (<[str "update_packed" := 1]> (<[str "inc" := 1]> (<[str "inc_add" := 1]>
      (<[str "set_range" := 1]> (<[str "set" := 1]> (method2thread s))))))
    [n2; n1] (queues s) (method2num s) n0.

(** ** The first half: taking a datagram apart *)

(** [error] writes without the line end that the other writers append. *)
(* src: common/multiserver.hpp 205-209 ad_invoke_first::error *)
Definition first_error {E S} (d : bytes) : prog (@out E) S unit := op_emit (Write d).

(* src: common/aspect/json_aspect.hpp 111-119 ad_invalid_json::operator() *)
Definition first_invalid_json {E S} : prog (@out E) S unit :=
  data ← op_lift (snprintf (json_error_text (-32600) (str "Invalid JSON-RPC.") (str "null")));
  first_error data;; op_emit Release.

(** Only the first object of the datagram is read. *)
(* src: common/multiserver.hpp 172-203 ad_invoke_first::operator() *)
Definition ad_invoke_first {E} (e : past) (client : nat) (d : bytes) : prog (@out E) multiserver unit := λ s,
  match unser json_rpc_req_json e new_json_rpc_req d with
  | Ok (req, _) =>
      match push_queue client req s with
      | Ok s' => (Ok tt, s', [])
      | Throw x => first_invalid_json s
      | Undef => (Undef, s, [])
      | NoFuel => (NoFuel, s, [])
      end
  | Throw _ => first_invalid_json s
  | Undef => (Undef, s, [])
  | NoFuel => (NoFuel, s, [])
  end.

(** ** The second half: a thread of a pool *)

Section worker.
Context {E U : Type}.
Abbreviation io := (prog (@out E) (@conn U)).

(** [id] has become an [int]; the text ends where [c_str()] ends. *)
(* src: common/multiserver_hlp.hpp 25-52 invoke_requester::execute *)
Definition invoke_requester (m : @method E U) (id : Z) (params : bytes) : io unit :=
  match m_invoker m with
  | None => mret tt
  | Some k =>
      match unser (invoke_request k) NulTerminated (dflt (invoke_request k)) params with
      | Ok (req, _) =>
          '(flag, res) ← i_request k req id (i_fresh k);
          if flag : bool then invoker_response k res id else mret tt
      | Throw _ => invalid_json_advice
      | Undef => op_lift Undef
      | NoFuel => op_lift NoFuel
      end
  end.

(* src: common/multiserver_hlp.hpp 55-79 invoke_notifier::execute *)
Definition invoke_notifier (m : @method E U) (params : bytes) : io unit :=
  match m_notified m with
  | None => mret tt
  | Some k =>
      match unser (invoke_notify k) NulTerminated (dflt (invoke_notify k)) params with
      | Ok (req, _) => n_notify k req
      | Throw _ => invalid_json_advice
      | Undef => op_lift Undef
      | NoFuel => op_lift NoFuel
      end
  end.

(* src: common/multiserver_hlp.hpp 113-126 run_method_request *)
Fixpoint run_method_request (num : Z) (ms : list (@method E U)) (req : json_rpc_req) : io unit :=
  match ms with
  | [] => unknown_method
  | current :: ms =>
      if negb (num =? 0) then run_method_request (num - 1) ms req
      else if 0 <=? q_id req then invoke_requester current (wrap int_t (q_id req)) (q_params req)
      else invoke_notifier current (q_params req)
  end.

(** A result is looked at and dropped. *)
(* src: common/multiserver_hlp.hpp 127-139 run_method_call *)
Fixpoint run_method_call (i : nat) (ms : list (@method E U)) (req : json_rpc_req) : io unit :=
  match ms with
  | [] => mret tt
  | current :: ms =>
      known ← op_get (method_has_id i current (wrap int_t (q_id req)));
      if known : bool then mret tt else run_method_call (S i) ms req
  end.

(** What a thread does with a request whose connection is open.  Nothing
    catches what the method throws: the thread function ends with it, and
    with it the process. *)
(* src: common/multiserver.hpp 400-408 multiserver::threadproc *)
Definition process (s : multiserver) (ms : list (@method E U)) (req : json_rpc_req) : io unit :=
  match q_result req with
  | [] =>
      let method_id := match q_method req with [] => -1 | _ => get_method_number (q_method req) s end in
      run_method_request method_id ms req
  | _ => run_method_call 0 ms req
  end.

(** The requests of a queue, one after the other. *)
(* src: common/multiserver.hpp 378-418 multiserver::threadproc *)
Fixpoint threadproc (s : multiserver) (ms : list (@method E U)) (queue : list (nat * json_rpc_req)) : io unit :=
  match queue with
  | [] => mret tt
  | (_, req) :: queue => process s ms req;; threadproc s ms queue
  end.

(** An exception that leaves the function of a [std::thread] ends the
    process. *)
Inductive process_state := Running | Terminated (x : exn).

(* src: common/multiserver.hpp 432-436 multiserver::spawn_threads *)
Definition std_thread (f : io unit) (c : @conn U) : process_state :=
  match f c with (Throw x, _, _) => Terminated x | _ => Running end.
End worker.

(** The wait of an idle thread, in microseconds. *)
(* src: common/multiserver.hpp 384-387 multiserver::threadproc *)
Definition idle_time (time : Z) : Z := if time <? 1000 then time * 2 + 10 else time.
(* src: common/multiserver.hpp 390-390 multiserver::threadproc *)
Definition busy_time (time : Z) : Z := Z.max 1 (Z.quot time 3).
