(* ===== verification/MultiserverSpec.v ===== *)
(** * MultiserverSpec: the main port runs the calls too

    A request - with an id that fits an [int] and no four-byte symbol in its
    parameters - is executed with the same effects whether its datagram is
    read by [ad_invoke] (the replication port) or taken apart by the first
    half of the main port, queued, and run by a thread of a pool. *)

From stdpp Require Import gmultiset.
From S2P Require Import Prelude JsonParser JsonNumber Serializer JsonString JsonArray JsonObject Queries.
From S2P Require Import JsonScan Splitter JsonRpc JsonRpcSpec Multiserver.

(** ** The number of a method *)

Lemma fill_map_other map names v nm : nm ∉ names → fill_map map names v !! nm = map !! nm.
Proof.
  revert map v. induction names as [|n names IH]; intros map v Hn; [done|]. cbn [fill_map].
  apply not_elem_of_cons in Hn as [Hne Hn]. rewrite IH by done. by rewrite lookup_insert_ne.
Qed.

(** The last method of a name is the one that is found. *)
Lemma fill_map_lookup map names v i nm :
  names !! i = Some nm → (∀ j, (i < j)%nat → names !! j ≠ Some nm) →
  fill_map map names v !! nm = Some (v + Z.of_nat i).
Proof.
  revert map v i. induction names as [|n names IH]; intros map v i Hi Hlast; [done|]. cbn [fill_map].
  destruct i as [|i]; simpl in Hi.
  - injection Hi as ->. rewrite fill_map_other.
    + rewrite lookup_insert_eq. f_equal. lia.
    + intros (j & Hj)%list_elem_of_lookup. by apply (Hlast (S j)); [lia|].
  - rewrite (IH _ _ i) by (done || intros j Hj; apply (Hlast (S j)); lia). f_equal. lia.
Qed.

Lemma run_method_request_at {E U} (ms : list (@method E U)) i m req :
  ms !! i = Some m → run_method_request (Z.of_nat i) ms req =
    if 0 <=? q_id req then invoke_requester m (wrap int_t (q_id req)) (q_params req)
    else invoke_notifier m (q_params req).
Proof.
  revert i. induction ms as [|m0 ms IH]; intros i Hi; [done|]. cbn [run_method_request].
  destruct i as [|i]; simpl in Hi; [by injection Hi as ->|].
  rewrite (proj2 (Z.eqb_neq _ 0)) by lia. cbn [negb].
  replace (Z.of_nat (S i) - 1) with (Z.of_nat i) by lia. by apply IH.
Qed.

Lemma wrap_int id : in_range int_t id = true → wrap int_t id = id.
Proof.
  intros Hid. apply in_range_spec in Hid. unfold wrap, int_min, int_max in *. cbn [ity_bits ity_signed int_t andb] in *.
  change (2 ^ (32 - 1)) with 2147483648 in *. change (2 ^ 32) with 4294967296 in *.
  destruct (Z.lt_ge_cases id 0).
  - replace (id mod 4294967296) with (id + 4294967296) by (apply Z.mod_unique with (-1); lia).
    rewrite (proj2 (Z.leb_le _ _)) by lia. lia.
  - rewrite Z.mod_small by lia. rewrite (proj2 (Z.leb_gt _ _)) by lia. lia.
Qed.

(** ** Taking the datagram apart *)

Lemma word_utf8 s : word s → utf8_text s.
Proof.
  intros Hs. apply plain_text. apply forallb_forall. intros c Hc. unfold word in Hs. rewrite Forall_forall in Hs.
  specialize (Hs c (proj2 (list_elem_of_In _ _) Hc)). apply word_char_spec in Hs as (_ & _ & Hn & _ & _ & Ha).
  unfold ascii_byte. by rewrite Ha, Hn.
Qed.

Lemma word_write_all s : word s → serialize_string s = quoted s.
Proof.
  intros Hs. pose proof (word_write s 0 Hs) as H. unfold pad in H. rewrite Nat.sub_0_l, app_nil_r in H.
  unfold serialize_string. by rewrite H.
Qed.

Definition req_entries (nm idt t : bytes) : list (memb json_rpc_req * bytes) :=
  [(member (str "jsonrpc") q_jsonrpc (λ t v, Json_rpc_req v (q_method t) (q_id t) (q_params t) (q_result t)) (value_chars 8),
    quoted (str "2.0"));
   (member (str "method") q_method (λ t v, Json_rpc_req (q_jsonrpc t) v (q_id t) (q_params t) (q_result t)) value_string,
    quoted nm);
   (member (str "id") q_id (λ t v, Json_rpc_req (q_jsonrpc t) (q_method t) v (q_params t) (q_result t)) (value_integer longlong_t),
    idt);
   (member (str "params") q_params (λ t v, Json_rpc_req (q_jsonrpc t) (q_method t) (q_id t) v (q_result t)) raw_value, t)].

Definition taken_apart (nm : bytes) (id : Z) (t : bytes) : json_rpc_req :=
  Json_rpc_req (strncpy 8 (str "2.0")) nm id t [].

Lemma first_half_reads nm id idt t e rest :
  word nm → id_text id idt → roundtrip_int int_t id → jtext true t →
  unser json_rpc_req_json e new_json_rpc_req (request_text nm idt t ++ rest) = Ok (taken_apart nm id t, rest).
Proof.
  intros Hn Hidt [Hid _] Ht.
  replace (request_text nm idt t ++ rest) with ("{"%char :: join (req_entries nm idt t) ++ "}"%char :: rest).
  2:{ unfold request_text, mem, quoted. simpl. repeat (rewrite <-!app_assoc; simpl). done. }
  destruct (id_text_numeral id Hid) as (ds & Hds & Hnum & Hval).
  assert (idt = sign_of id ++ ds) as -> by (unfold id_text in *; congruence).
  assert (in_range longlong_t id = true ∧ id ≠ int_min longlong_t) as [Hll Hmin].
  { apply in_range_spec in Hid. rewrite in_range_spec. unfold int_min, int_max in *. simpl in *. lia. }
  apply unserialize_any_order.
  - vm_compute. reflexivity.
  - repeat constructor; apply list_elem_of_In; simpl; auto 6.
  - apply (bool_decide_unpack _). vm_compute. exact I.
  - eapply reads_cons; [|eapply reads_cons; [|eapply reads_cons; [|eapply reads_cons; [|apply reads_nil]]]].
    + split; [done|]. intros e' r Hd. reflexivity.
    + split; [done|]. intros e' r Hd. cbn -[unserialize_string quoted].
      pose proof (round_trip_any (s := value_string) nm (word_utf8 nm Hn)) as (x & Ex & _ & Rx).
      change (Ok (serialize_string nm) = Ok x) in Ex. rewrite word_write_all in Ex by done. injection Ex as <-.
      specialize (Rx e' [] r Hd). cbn -[unserialize_string quoted] in Rx. rewrite Rx. reflexivity.
    + split; [by apply (jtext_visible true), jt_number, numeral_text; [|unfold sign_of; case_match; auto]|].
      intros e' r Hd. cbn [m_unser member unser value_integer q_id]. unfold unser_integer.
      replace (is_null _) with false.
      2:{ unfold sign_of. case_match; [done|]. symmetry. by apply digits_not_null; destruct Hnum as (?&?&?). }
      rewrite unserialize_numeral by (done || by apply delim_not_digit). reflexivity.
    + split; [by apply (jtext_visible true)|]. intros e' r Hd. cbn [m_unser member].
      rewrite jtext_raw_value by done. reflexivity.
Qed.

(** ** Properties *)

(** What is left of a call when its parameters were read: the method runs and
    its result is written.  Nothing is noted in the ids of the worker. *)
Definition run_queued {E U} (k : @invoker E U) (p : i_params k) (id : Z) : prog (@out E) (@conn U) unit :=
  '(flag, result) ← i_request k p id (i_fresh k);
  if flag : bool then invoker_response k result id else mret tt.

(** The last method of a name. *)
Definition last_named {E U} (methods : list (@method E U)) (nm : bytes) (i : nat) (m : @method E U) : Prop :=
  methods !! i = Some m ∧ name m = nm ∧ ∀ j m', (i < j)%nat → methods !! j = Some m' → name m' ≠ nm.

Lemma last_named_number {E U} (methods : list (@method E U)) nm i m s :
  last_named methods nm i m → method2num s = method2num (new_multiserver (name <$> methods)) →
  get_method_number nm s = Z.of_nat i.
Proof.
  intros (Hi & Hnm & Hlast) Hnum. unfold get_method_number. rewrite Hnum. cbn [method2num new_multiserver].
  rewrite (fill_map_lookup _ _ _ i); [done|by rewrite list_lookup_fmap, Hi, <-Hnm|].
  intros j Hj. rewrite list_lookup_fmap. destruct (methods !! j) as [m'|] eqn:Hm'; [|done].
  intros [= Heq]. by apply (Hlast j m').
Qed.

(** The first half of a call: it is queued and nothing is answered. *)
Lemma first_half_queues {E} e nm id idt t client s n q :
  word nm → id_text id idt → roundtrip_int int_t id → jtext true t →
  get_thread_number nm s = Z.of_nat n → queues s !! n = Some q →
  ad_invoke_first (E := E) e client (rn_write (request_text nm idt t)) s
  = (Ok tt, set_queues (<[n := q ++ [(client, taken_apart nm id t)]]> (queues s)) s, []).
Proof.
  intros Hword Hidt Hid Hj Hthr Hq. unfold ad_invoke_first, rn_write.
  rewrite (first_half_reads nm id idt t) by done. unfold push_queue.
  cbn [q_method taken_apart]. rewrite Hthr, (proj2 (Z.ltb_ge _ 0)) by lia. by rewrite Nat2Z.id, Hq.
Qed.

(** The second half. *)
Lemma queued_runs {E U} (methods : list (@method E U)) nm i m k OK p id t s :
  last_named methods nm i m → nm ≠ [] → m_invoker m = Some k → RoundTrip (invoke_request k) OK → OK p →
  roundtrip_int int_t id → 0 <= id → ser (invoke_request k) p = Ok t →
  method2num s = method2num (new_multiserver (name <$> methods)) →
  process s methods (taken_apart nm id t) ≃ run_queued k p id.
Proof.
  intros Hnamed Hne Hk HJ Hp Hid H0 Ht Hnum. unfold process. cbn [q_result q_method taken_apart].
  pose proof (last_named_number methods nm i m s Hnamed Hnum) as Hg.
  destruct nm as [|c nm]; [done|]. rewrite Hg. destruct Hnamed as (Hi & _).
  rewrite (run_method_request_at methods i m) by done. cbn [q_id q_params taken_apart].
  rewrite (proj2 (Z.leb_le 0 id)) by lia. rewrite (wrap_int id (proj1 Hid)). unfold invoke_requester. rewrite Hk.
  destruct (round_trip (s := invoke_request k) p Hp) as (t' & Et & _ & Rt).
  rewrite Ht in Et. injection Et as <-. specialize (Rt NulTerminated [] I). rewrite app_nil_r in Rt. by rewrite Rt.
Qed.

(** C21. Where the main port executes a call the way the replication port
    does.  Take a request with an id that is not negative and fits an [int],
    and parameters whose text the scanner of the main port accepts - no
    four-byte symbol in it; [ad_invoke] executes its datagram as
    [run_request].  Then the first half takes it apart without an answer, puts
    it at the end of the queue of its method, and a thread that takes it from
    there runs the same method on the same parameters and answers under the
    same id.  The replication port takes the first method of a name and the
    main port the last one, so the two must have the same invoker (in the
    daemon's list [set] is there twice).  Without the conditions it is not so:
    [four_byte_symbol_divides_the_ports], [long_id_is_answered_as_another]. *)
Theorem main_port_runs {E U} e (methods : list (@method E U)) nm i m i' m' k OK p id idt t client s n q :
  let req := taken_apart nm id t in
  table_ok methods → named methods nm i m → last_named methods nm i' m' → nm ≠ [] →
  m_invoker m = Some k → m_invoker m' = Some k → RoundTrip (invoke_request k) OK → OK p →
  roundtrip_int int_t id → 0 <= id → id_text id idt → ser (invoke_request k) p = Ok t → jtext true t →
  method2num s = method2num (new_multiserver (name <$> methods)) →
  get_thread_number nm s = Z.of_nat n → queues s !! n = Some q →
  ad_invoke e methods (rn_write (request_text nm idt t)) ≃ run_request i k p id ∧
  ad_invoke_first (E := E) e client (rn_write (request_text nm idt t)) s
    = (Ok tt, set_queues (<[n := q ++ [(client, req)]]> (queues s)) s, []) ∧
  process s methods req ≃ run_queued k p id.
Proof.
  intros req Htab Hnamed Hlast Hne Hk Hk' HJ Hp Hid H0 Hidt Ht Hj Hnum Hthr Hq.
  assert (word nm) as Hword.
  { destruct Hnamed as (Hi & <- & _). unfold table_ok in Htab. rewrite Forall_forall in Htab.
    apply Htab. by eapply list_elem_of_lookup_2. }
  split_and!; [|by apply first_half_queues|by eapply queued_runs].
  by apply (request_executed_text e methods Htab nm i m k OK p id idt t); try done; apply jtext_weaken.
Qed.

Definition upper_invoke : @invoker unit unit :=
  Invoker _ _ value_string value_string [] (λ p _ _, mret (true, str "got " ++ p)).
Definition upper : @method unit unit := Method (str "upper") (Some upper_invoke) None None.
Definition one_pool : multiserver := spawn_threads (server_init 4 (new_multiserver [str "echo"; str "upper"])).

Lemma main_port_runs_witness :
  ad_invoke (E := unit) Foreign [echo_handler; upper] (rn_write (request_text (str "upper") (str "7") (js "'x'")))
    ≃ run_request 1 upper_invoke (str "x") 7 ∧
  ad_invoke_first (E := unit) Foreign 3 (rn_write (request_text (str "upper") (str "7") (js "'x'"))) one_pool
    = (Ok tt, set_queues (<[0%nat := [(3%nat, taken_apart (str "upper") 7 (js "'x'"))]]> (queues one_pool)) one_pool, []) ∧
  process one_pool [echo_handler; upper] (taken_apart (str "upper") 7 (js "'x'")) ≃ run_queued upper_invoke (str "x") 7.
Proof.
  apply (main_port_runs (E := unit) Foreign [echo_handler; upper] (str "upper") 1 upper 1 upper upper_invoke utf8_text
    (str "x") 7 (str "7") (js "'x'") 3 one_pool 0 []).
  - repeat constructor; simpl; lia.
  - split_and!; [done|done|]. intros [|[|j]] m' Hj; [intros [= <-]; done|lia..].
  - split_and!; [done|done|]. intros [|[|j]] m' Hj; [lia|lia|done].
  - done.
  - done.
  - done.
  - apply RoundTripAny_RoundTrip, value_string_RoundTrip.
  - done.
  - split; [done|]. intros _ _. done.
  - lia.
  - reflexivity.
  - reflexivity.
  - apply (quoted_jtext (str "x")). repeat constructor.
  - reflexivity.
  - reflexivity.
  - reflexivity.
Defined.

(** The queues that the methods are assigned to exist. *)
Definition server_ok (s : multiserver) : Prop :=
  length (queues s) = length (thread_count s) ∧ (0 < length (queues s))%nat ∧
  map_Forall (λ _ n, 0 <= n < Z.of_nat (length (queues s))) (method2thread s).

(** Until [spawn_threads] has made the queues a request is put nowhere; the
    threads that read requests are started before. *)
Lemma request_before_queues client req threads names :
  push_queue client req (server_init threads (new_multiserver names)) = Undef.
Proof. unfold push_queue. case_match; [done|]. done. Qed.

Lemma push_queue_ok client req s : server_ok s → ∃ s', push_queue client req s = Ok s' ∧ server_ok s'.
Proof.
  intros (Hl & Hp & Hm). unfold push_queue.
  assert (0 <= get_thread_number (q_method req) s < Z.of_nat (length (queues s))) as Hn.
  { unfold get_thread_number. destruct (_ !! _) as [n|] eqn:Hn; [by eapply Hm|]. simpl. lia. }
  rewrite (proj2 (Z.ltb_ge _ 0)) by lia.
  destruct (lookup_lt_is_Some_2 (queues s) (Z.to_nat (get_thread_number (q_method req) s))) as [q Hq]; [lia|].
  rewrite Hq. eexists. split; [done|]. unfold server_ok. cbn. by rewrite length_insert.
Qed.

Lemma json_rpc_req_reads e t d : unser json_rpc_req_json e t d ≠ NoFuel.
Proof.
  assert (SerOk json_rpc_req_json) by (apply object_SerOk; repeat (constructor; [apply member_MembOk; apply _|]); constructor).
  apply unser_NoFuel.
Qed.

(** The life of the queues once the threads are there: a datagram is read, and
    a thread takes the first request of a queue. *)
Inductive port_step {E} : multiserver → multiserver → Prop :=
  | port_reads e client d s s' ev : ad_invoke_first (E := E) e client d s = (Ok tt, s', ev) → port_step s s'
  | port_takes n x q s : queues s !! n = Some (x :: q) → port_step s (set_queues (<[n := q]> (queues s)) s).

Lemma port_step_ok {E} m s s' :
  server_ok s ∧ method2thread s = m → port_step (E := E) s s' → server_ok s' ∧ method2thread s' = m.
Proof.
  intros [Hs Hm] Hstep. destruct Hstep as [e client d s s' ev Hr|n x q s Hq].
  - unfold ad_invoke_first in Hr. destruct (unser _ _ _ _) as [[req rest]| | |]; [|by injection Hr as <- _|done|done].
    destruct (push_queue_ok client req s Hs) as (s1 & Ep & Hs1). rewrite Ep in Hr. injection Hr as <- _. split; [done|].
    unfold push_queue in Ep. repeat case_match; by simplify_eq/=.
  - split; [|done]. destruct Hs as (Hl & Hp & Hn). unfold server_ok. cbn. by rewrite length_insert.
Qed.

(** The methods that [server_tcp::init] gives to the second pool. *)
Definition updating : list bytes := [str "update_packed"; str "inc"; str "inc_add"; str "set_range"; str "set"].

Definition launched (threads : Z) (names : list bytes) : multiserver :=
  spawn_threads (server_init threads (new_multiserver names)).

Lemma launched_ok threads names : server_ok (launched threads names).
Proof.
  unfold server_ok, launched, server_init, spawn_threads. cbn. split_and!; [done|lia|].
  repeat (apply map_Forall_insert_2; [lia|]). apply map_Forall_empty.
Qed.

Lemma launched_thread threads names nm s :
  method2thread s = method2thread (launched threads names) →
  get_thread_number nm s = Z.of_nat (if decide (nm ∈ updating) then 1 else 0).
Proof.
  intros Hm. unfold get_thread_number. rewrite Hm. unfold launched, server_init, spawn_threads, updating. cbn [method2thread set_queues].
  destruct (decide (nm ∈ _)) as [Hin|Hout].
  - repeat (apply elem_of_cons in Hin as [->|Hin]); [vm_compute; reflexivity..|by apply not_elem_of_nil in Hin].
  - rewrite !not_elem_of_cons in Hout. destruct_and! Hout. by rewrite !lookup_insert_ne by congruence.
Qed.



(** A four-byte symbol divides the ports.  A call whose parameter is the
    UTF-8 text of U+1F600 is executed on the replication port; the main port
    refuses the same datagram as invalid, with an answer that no line end
    follows, and closes the connection. *)
Theorem four_byte_symbol_divides_the_ports :
  let d := rn_write (request_text (str "upper") (str "7") (quoted [chr 240; chr 159; chr 152; chr 128])) in
  (ad_invoke (E := unit) Foreign [upper] d (Conn ∅ 0 ∅ tt)).2
    = [Clock_start;
       Write (rn_write (response_text (str "7") (quoted (str "got " ++ [chr 240; chr 159; chr 152; chr 128]))));
       Mark 0; Clock_finish] ∧
  ad_invoke_first (E := unit) Foreign 3 d one_pool
    = (Ok tt, one_pool, [Write (json_error_text (-32600) (str "Invalid JSON-RPC.") (str "null")); Release]).
Proof. split; vm_compute; reflexivity. Qed.

(** Beyond [int] the answer names another call: an id is read as a [long
    long] and handed to the method as an [int], so a request with the id
    2^32 + 7 is answered under the id 7. *)
Theorem long_id_is_answered_as_another :
  let req := taken_apart (str "upper") 4294967303 (js "'x'") in
  unser json_rpc_req_json Foreign new_json_rpc_req
    (rn_write (request_text (str "upper") (str "4294967303") (js "'x'"))) = Ok (req, [CR; LF]) ∧
  process one_pool [echo_handler; upper] req (Conn ∅ 0 ∅ tt)
    = (Ok tt, Conn ∅ 0 ∅ tt, [Write (rn_write (response_text (str "7") (js "'got x'")))]).
Proof. split; vm_compute; reflexivity. Qed.
