(* ===== verification/MainPort.v ===== *)
(** * MainPort: the methods of the daemon on its main port

    [server_tcp] of [src/daemon.cpp] is a multiserver over the method list of
    [Connection]: what its threads do with a [set], and what one of them does
    when a method throws. *)

From stdpp Require Import gmultiset.
From S2P Require Import Prelude JsonParser JsonNumber Serializer JsonString JsonArray JsonObject Queries.
From S2P Require Import JsonScan LevelDb Replication ReplicationSync Methods MethodsSpec Splitter JsonRpc JsonRpcSpec.
From S2P Require Import Connection Multiserver MultiserverSpec.

(** ** The server of the main port *)

Section main_port.
Context {D : Type} `{LevelDB D} `{HashOrder} (self : nat) (place : rep_method → nat) (junk : bool).
Context (statistics : world D → bytes).

Abbreviation methods := (method_list self place junk statistics).

(** A server after [init] and the start of its threads: what it found in the
    list of methods, and the pools of the methods. *)
Definition daemon_server (s : multiserver) : Prop :=
  method2num s = method2num (new_multiserver (name <$> methods)) ∧
  method2thread s = method2thread (server_init 0 (new_multiserver [])) ∧ length (queues s) = 2%nat.

Lemma new_daemon_server threads :
  daemon_server (spawn_threads (server_init threads (new_multiserver (name <$> methods)))).
Proof. by split_and!. Qed.

Lemma daemon_server_queues s q : daemon_server s → length q = 2%nat → daemon_server (set_queues q s).
Proof. intros (H1 & H2 & _) Hq. by split_and!. Qed.

(** The methods that write have the second pool. *)
Lemma writers_queue s nm :
  daemon_server s → nm ∈ [str "set"; str "inc"; str "inc_add"; str "update_packed"] →
  get_thread_number nm s = Z.of_nat 1.
Proof.
  intros (_ & Hthr & _) Hnm. unfold get_thread_number. rewrite Hthr.
  repeat (apply elem_of_cons in Hnm as [->|Hnm]; [reflexivity|]). by apply not_elem_of_nil in Hnm.
Qed.

Lemma inc_last : last_named methods (str "inc") 4 (inc_method self place).
Proof.
  split_and!; [done|done|]. intros j m' Hj Hm'.
  do 12 (destruct j as [|j]; [first [lia | injection Hm' as <-; discriminate]|]). done.
Qed.

(** [set] is there twice: the second one is found. *)
Lemma set_last : last_named methods (str "set") 3 (set_method self place junk).
Proof.
  split_and!; [done|done|]. intros j m' Hj Hm'.
  do 12 (destruct j as [|j]; [first [lia | injection Hm' as <-; discriminate]|]). done.
Qed.

Definition set_invoker : @invoker event (world D) :=
  Invoker _ _ valmap2str_json value_bool junk (λ cmd _ _, call self place (set cmd)).
Definition inc_invoker : @invoker event (world D) :=
  Invoker _ _ valmap2int_json valmap2raw_json [] (λ cmd _ r, call self place (inc cmd r)).

(** ** A method that throws *)

Lemma threadproc_throws s c (client : nat) req rest x c' ev :
  process s methods req c = (Throw x, c', ev) →
  std_thread (threadproc s methods ((client, req) :: rest)) c = Terminated x.
Proof. intros Hp. unfold std_thread. cbn [threadproc]. unfold mbind, op_bind. by rewrite Hp. Qed.

Lemma queued_inc_throws k n id bad x c :
  Get (w_db (user c)) k = Some bad → (read_number 0 bad).2 = Throw x →
  ∃ c' ev, run_queued inc_invoker [(k, n)] id c = (Throw x, c', ev).
Proof.
  intros Hk Hbad. unfold run_queued. cbn [inc_invoker i_request]. unfold mbind, op_bind, call.
  rewrite (inc_stuck k n bad x) by done. by do 2 eexists.
Qed.
End main_port.

(** ** Properties *)

(** C37. Two calls from anybody end the daemon.  When the value of a key is no
    number - any client can [set] one - an [inc] of it on the main port is
    queued like every call, the method throws in the thread that takes it from
    the queue, nothing catches, and an exception that leaves the function of a
    thread ends the process, whatever else is in the queue. *)
Theorem inc_terminates_the_daemon {D} `{LevelDB D} `{HashOrder} self place junk statistics e client k n id idt t bad x
    q rest s (c : conn (U := world D)) :
  let methods := method_list self place junk statistics in
  let req := taken_apart (str "inc") id t in
  daemon_server self place junk statistics s → queues s !! 1%nat = Some q →
  scan_text true k → int_pair (k, n) → roundtrip_int int_t id → 0 <= id → id_text id idt →
  ser valmap2int_json [(k, n)] = Ok t →
  Get (w_db (user c)) k = Some bad → (read_number 0 bad).2 = Throw x →
  ∃ s', ad_invoke_first (E := event) e client (rn_write (request_text (str "inc") idt t)) s = (Ok tt, s', []) ∧
    queues s' !! 1%nat = Some (q ++ [(client, req)]) ∧
    std_thread (threadproc s' methods ((client, req) :: rest)) c = Terminated x.
Proof.
  intros methods req Hs Hq Hscan Hp Hid Hpos Hidt Ht Hk Hbad.
  assert (jtext true t) as Hj.
  { apply (ser_jtext (s := valmap2int_json) true [(k, n)]); [|done]. apply Forall_singleton. split; [done|apply Hp]. }
  rewrite (first_half_queues e (str "inc") id idt t client s 1 q); try done;
    [|repeat constructor|apply (writers_queue self place junk statistics s); [done|set_solver]].
  eexists. split; [reflexivity|]. split; [cbn; rewrite list_lookup_insert_eq; [done|by eapply lookup_lt_Some]|].
  destruct (queued_inc_throws self place k n id bad x c Hk Hbad) as (c' & ev & Hrun).
  pose proof (equiv_at (queued_runs methods (str "inc") 4 (inc_method self place) (inc_invoker self place)
    (Forall int_pair) [(k, n)] id t (set_queues (<[1%nat := q ++ [(client, req)]]> (queues s)) s)
    ltac:(apply inc_last) ltac:(done) ltac:(done) valmap2int_RoundTrip ltac:(by apply Forall_singleton)
    Hid Hpos Ht ltac:(apply Hs)) c) as Hproc.
  rewrite Hrun in Hproc. by eapply threadproc_throws.
Qed.

Lemma set_runs {D} `{LevelDBHealthy D} `{HashOrder} cmd (w : world D) :
  Forall str_pair cmd →
  ∃ w', set cmd w = (Ok (true, true), w', []) ∧ w_contents w' = insert_all (w_contents w) cmd ∧
    broadcast (λ m, insert_all m cmd) (w_replication w) (w_replication w').
Proof.
  intros Hcmd. destruct (put_loop_spec cmd true w) as (d' & Hl & Hc).
  destruct (finish_set cmd (true, true) (set_db d' w) Hcmd) as (r' & Hf & Hb).
  exists (set_replication r' (set_db d' w)). split; [|by split].
  unfold set. rewrite (op_bind_Ok _ _ _ _ _ _ Hl), Hf. done.
Qed.

(** C22. A [set] on the main port.  It is queued for the pool of the methods
    that write; the thread that takes it from there stores the pairs, hands
    them to every running slave and answers [true] under the id of the
    call. *)
Theorem main_port_set {D} `{LevelDBHealthy D} `{HashOrder} self place junk statistics e client cmd id idt t
    q s (c : conn (U := world D)) :
  let methods := method_list self place junk statistics in
  let req := taken_apart (str "set") id t in
  daemon_server self place junk statistics s → queues s !! 1%nat = Some q →
  Forall str_pair cmd → Forall (λ x, scan_text true x.1 ∧ scan_text true x.2) cmd →
  roundtrip_int int_t id → 0 <= id → id_text id idt → ser valmap2str_json cmd = Ok t →
  ∃ s' c', ad_invoke_first (E := event) e client (rn_write (request_text (str "set") idt t)) s = (Ok tt, s', []) ∧
    queues s' !! 1%nat = Some (q ++ [(client, req)]) ∧
    threadproc s' methods [(client, req)] c = (Ok tt, c', [Write (rn_write (response_text idt (str "true")))]) ∧
    w_contents (user c') = insert_all (w_contents (user c)) cmd ∧
    broadcast (λ m, insert_all m cmd) (w_replication (user c)) (w_replication (user c')).
Proof.
  intros methods req Hs Hq Hcmd Hscan Hid Hpos Hidt Ht.
  assert (jtext true t) as Hj by by apply (ser_jtext (s := valmap2str_json) true cmd).
  rewrite (first_half_queues e (str "set") id idt t client s 1 q); try done;
    [|repeat constructor|apply (writers_queue self place junk statistics s); [done|set_solver]].
  destruct (set_runs cmd (user c) Hcmd) as (w' & Hset & Hc & Hb).
  eexists. exists (set_in_ids (in_ids c ∖ {[+ id +]}) (set_user w' c)). split; [reflexivity|].
  split; [cbn; rewrite list_lookup_insert_eq; [done|by eapply lookup_lt_Some]|].
  pose proof (equiv_at (queued_runs methods (str "set") 3 (set_method self place junk) (set_invoker self place junk)
    (Forall str_pair) cmd id t (set_queues (<[1%nat := q ++ [(client, req)]]> (queues s)) s)
    ltac:(apply set_last) ltac:(done) ltac:(done) valmap2str_RoundTrip Hcmd Hid Hpos Ht ltac:(apply Hs)) c) as Hproc.
  assert (run_queued (set_invoker self place junk) cmd id c
    = (Ok tt, set_in_ids (in_ids c ∖ {[+ id +]}) (set_user w' c), [Write (rn_write (response_text idt (str "true")))])) as Hrun.
  { unfold run_queued. cbn [set_invoker i_request].
    rewrite (op_bind_Ok _ _ _ _ _ _ (call_silent self place (set cmd) c (true, true) w' Hset)).
    unfold invoker_response. cbn [set_invoker invoke_response].
    replace (ser _ _) with (Ok (response_text idt (str "true")) : res bytes)
      by (symmetry; exact (ser_response value_bool true id idt (str "true") Hidt eq_refl)).
    reflexivity. }
  rewrite Hrun in Hproc. split; [|split; [exact Hc|exact Hb]].
  cbn [threadproc]. rewrite (op_bind_Ok _ _ _ _ _ _ Hproc). reflexivity.
Qed.

(** ** Witnesses *)

Definition daemon_methods : list (@method event (world (gmap bytes bytes))) := method_list 7 server_place false (λ _, []).
Definition main_server : multiserver := spawn_threads (server_init 4 (new_multiserver (name <$> daemon_methods))).

Lemma inc_terminates_the_daemon_witness :
  let text := request_text (str "inc") (str "1") (js "{'k':1}") in
  let req := taken_apart (str "inc") 1 (js "{'k':1}") in
  ∃ s', ad_invoke_first (E := event) Foreign 3 (rn_write text) main_server = (Ok tt, s', []) ∧
    queues s' !! 1%nat = Some [(3%nat, req)] ∧
    std_thread (threadproc s' daemon_methods [(3%nat, req)]) (new_conn (world0 {[ str "k" := str "x" ]}))
    = Terminated (json_error invalid_json_number 1).
Proof.
  apply (inc_terminates_the_daemon 7 server_place false (λ _, []) Foreign 3 (str "k") 1 1 (str "1") (js "{'k':1}")
    (str "x") (json_error invalid_json_number 1) [] [] main_server (new_conn (world0 {[ str "k" := str "x" ]}))).
  - apply new_daemon_server.
  - reflexivity.
  - split; [by apply plain_text|]. intros _. by repeat constructor.
  - split; [by apply plain_text|]. split; [done|intros _ _; done].
  - split; [done|intros _ _; done].
  - done.
  - reflexivity.
  - reflexivity.
  - reflexivity.
  - reflexivity.
Defined.

Lemma main_port_set_witness :
  let req := taken_apart (str "set") 1 (js "{'k':'v'}") in
  ∃ s' c', ad_invoke_first (E := event) Foreign 3 (rn_write (request_text (str "set") (str "1") (js "{'k':'v'}"))) main_server
      = (Ok tt, s', []) ∧
    queues s' !! 1%nat = Some [(3%nat, req)] ∧
    threadproc s' daemon_methods [(3%nat, req)] (new_conn (world0 ∅))
      = (Ok tt, c', [Write (rn_write (response_text (str "1") (str "true")))]) ∧
    w_contents (user c') = insert_all (w_contents (world0 ∅)) [(str "k", str "v")] ∧
    broadcast (λ m, insert_all m [(str "k", str "v")]) (w_replication (world0 ∅)) (w_replication (user c')).
Proof.
  apply (main_port_set 7 server_place false (λ _, []) Foreign 3 [(str "k", str "v")] 1 (str "1") (js "{'k':'v'}") []
    main_server (new_conn (world0 ∅))).
  - apply new_daemon_server.
  - reflexivity.
  - apply Forall_singleton. split; by apply plain_text.
  - apply Forall_singleton. split; (split; [by apply plain_text|]; intros _; by repeat constructor).
  - split; [done|intros _ _; done].
  - done.
  - reflexivity.
  - reflexivity.
Defined.
