(* ===== verification/Hoare.v ===== *)
(** * Hoare: triples for programs with a history

    [triple P m Q R]: started in a state and with a history of events that
    satisfy [P], the program [m] ends, with a value and [Q] or with an
    exception and [R], the history extended by what [m] emitted; it never
    runs into undefined behaviour nor out of fuel. *)

From S2P Require Import Prelude.

Section hoare.
Context {E S : Type}.
Abbreviation assertion := (list E → S → Prop).

Definition triple {A} (P : assertion) (m : prog E S A) (Q : A → assertion) (R : assertion) : Prop :=
  ∀ h s, P h s → match m s with
  | (Ok a, s', ev) => Q a (h ++ ev) s'
  | (Throw _, s', ev) => R (h ++ ev) s'
  | _ => False
  end.

Lemma triple_conseq {A} (P P' : assertion) (m : prog E S A) (Q Q' : A → assertion) (R R' : assertion) :
  triple P' m Q' R' → (∀ h s, P h s → P' h s) → (∀ a h s, Q' a h s → Q a h s) → (∀ h s, R' h s → R h s) →
  triple P m Q R.
Proof.
  intros Hm HP HQ HR h s Hs. specialize (Hm h s (HP _ _ Hs)).
  destruct (m s) as [[[a| | |] s'] ev]; eauto.
Qed.

Lemma triple_ret {A} (a : A) (P : assertion) (Q : A → assertion) R :
  (∀ h s, P h s → Q a h s) → triple P (mret a) Q R.
Proof. intros HQ h s Hs. cbn. rewrite app_nil_r. by apply HQ. Qed.

Lemma triple_bind {A B} (P : assertion) (m : prog E S A) (f : A → prog E S B) (Q : A → assertion) (Q' : B → assertion) R :
  triple P m Q R → (∀ a, triple (Q a) (f a) Q' R) → triple P (m ≫= f) Q' R.
Proof.
  intros Hm Hf h s Hs. specialize (Hm h s Hs). unfold mbind, op_bind.
  destruct (m s) as [[[a| | |] s1] ev1]; try done. specialize (Hf a (h ++ ev1) s1 Hm).
  destruct (f a s1) as [[[b| | |] s2] ev2]; by rewrite ?app_assoc.
Qed.

Lemma triple_get {A} (f : S → A) (P : assertion) (Q : A → assertion) R :
  (∀ h s, P h s → Q (f s) h s) → triple P (op_get f) Q R.
Proof. intros HQ h s Hs. cbn. rewrite app_nil_r. by apply HQ. Qed.

(** Reading a component and going on with its value. *)
Lemma triple_get_bind {A B} (f : S → A) (P : assertion) (g : A → prog E S B) (Q : B → assertion) R :
  (∀ a, triple (λ h s, P h s ∧ f s = a) (g a) Q R) → triple P (op_get f ≫= g) Q R.
Proof.
  intros Hg. eapply triple_bind; [|apply Hg]. apply triple_get. done.
Qed.

Lemma triple_modify (f : S → S) (P : assertion) (Q : unit → assertion) R :
  (∀ h s, P h s → Q tt h (f s)) → triple P (op_modify f) Q R.
Proof. intros HQ h s Hs. cbn. rewrite app_nil_r. by apply HQ. Qed.

Lemma triple_emit (e : E) (P : assertion) (Q : unit → assertion) R :
  (∀ h s, P h s → Q tt (h ++ [e]) s) → triple P (op_emit e) Q R.
Proof. intros HQ h s Hs. by apply HQ. Qed.

Lemma triple_throw {A} x (P : assertion) (Q : A → assertion) (R : assertion) :
  (∀ h s, P h s → R h s) → triple P (op_lift (Throw x)) Q R.
Proof. intros HR h s Hs. cbn. rewrite app_nil_r. by apply HR. Qed.

Lemma triple_if {A} (b : bool) (P : assertion) (m m' : prog E S A) (Q : A → assertion) R :
  triple (λ h s, P h s ∧ b = true) m Q R → triple (λ h s, P h s ∧ b = false) m' Q R →
  triple P (if b then m else m') Q R.
Proof. intros Hm Hm' h s Hs. destruct b; [by apply Hm|by apply Hm']. Qed.

(** [try { m } catch (...) { k; throw; }] *)
Definition op_rethrow {A} (m : prog E S A) (k : prog E S unit) : prog E S A := λ s,
  match m s with
  | (Throw x, s', ev) =>
      match k s' with
      | (Ok tt, s'', ev') => (Throw x, s'', ev ++ ev')
      | (Throw y, s'', ev') => (Throw y, s'', ev ++ ev')
      | (Undef, s'', ev') => (Undef, s'', ev ++ ev')
      | (NoFuel, s'', ev') => (NoFuel, s'', ev ++ ev')
      end
  | r => r
  end.

Lemma triple_rethrow {A} (P : assertion) (m : prog E S A) k (Q : A → assertion) R R' :
  triple P m Q R' → triple R' k (λ _, R) R → triple P (op_rethrow m k) Q R.
Proof.
  intros Hm Hk h s Hs. specialize (Hm h s Hs). unfold op_rethrow.
  destruct (m s) as [[[a|x| |] s1] ev1]; try done. specialize (Hk (h ++ ev1) s1 Hm).
  destruct (k s1) as [[[[]| | |] s2] ev2]; by rewrite ?app_assoc.
Qed.
End hoare.
