(* ===== verification/Stat.v ===== *)
(** * Stat: [fas/misc/stat.hpp], the clock of [fas/adv/ad_clock.hpp] and the
      registration of [common/fas_statistics.hpp]

    How long the methods take: the clock that is started before a method runs
    and read after it, the counters of each method, and the table of them.
    The answers of [gettimeofday] are arguments, [long] arithmetic is checked.
    Then: what the counters hold after any sequence of calls, and two places
    where the times are wrong. *)

From S2P Require Import Prelude.

(** ** Definitions *)

Record timeval := Timeval { tv_sec : Z; tv_usec : Z }.

#[export] Instance timeval_eq_dec : EqDecision timeval.
Proof. solve_decision. Defined.

Definition LONG_MAX : Z := int_max long_t.
Definition zero_time : timeval := Timeval 0 0.

(** Arithmetic on [long]. *)
Abbreviation long := (int_op long_t).

(* src: fas/misc/stat.hpp 10-17 operator< *)
Definition tv_ltb (left right : timeval) : bool :=
  if tv_sec left <? tv_sec right then true
  else if tv_sec left =? tv_sec right then tv_usec left <? tv_usec right
  else false.

(** The loop turns once for each second that is moved. *)
(* src: fas/misc/stat.hpp 154-158 command_stat::_correct *)
Fixpoint correct_loop (fuel : nat) (tv : timeval) : res timeval :=
  if 1000000 <=? tv_usec tv then
    match fuel with
    | O => NoFuel
    | S fuel =>
        sec ← long (tv_sec tv + 1);
        usec ← long (tv_usec tv - 1000000);
        correct_loop fuel (Timeval sec usec)
    end
  else Ok tv.

(* src: fas/misc/stat.hpp 152-159 command_stat::_correct *)
Definition _correct (tv : timeval) : res timeval := correct_loop (Z.to_nat (tv_usec tv / 1000000)) tv.

(** [/] of two [long]s. *)
Definition divide (a b : Z) : res Z := if b =? 0 then Undef else long (Z.quot a b).

(* src: fas/misc/stat.hpp 138-148 command_stat::rate *)
Definition rate (tv : timeval) : res timeval :=
  if (tv_sec tv =? 0) && (tv_usec tv =? 0) then Ok zero_time
  else
    m ← long (tv_sec tv * 1000000);
    m ← long (m + tv_usec tv);
    rate_1000 ← divide 1000000000 m;
    sec ← divide rate_1000 1000;
    m ← long (sec * 1000);
    m ← long (rate_1000 - m);
    usec ← long (m * 1000);
    mret (Timeval sec usec).

(* src: fas/misc/stat.hpp 162-172 command_stat *)
Record command_stat := CommandStat {
  last_span : timeval;
  max_span : timeval;
  min_span : timeval;
  average_span : timeval;
  sum_span : timeval;
  _count : Z;
  _middle_count : Z;
  _middle_max : Z;
  _middle_start : timeval;
  _middle_rate : timeval;
}.

(* src: fas/misc/stat.hpp 30-45 command_stat::clear *)
Definition clear (now : timeval) : command_stat :=
  CommandStat zero_time zero_time (Timeval LONG_MAX LONG_MAX) zero_time zero_time 0 0 2 now zero_time.

(** The time since [start], with the borrow. *)
(* src: fas/misc/stat.hpp 51-61 command_stat::span *)
Definition middle_span (start now : timeval) : res timeval :=
  sec ← long (tv_sec now - tv_sec start);
  now ← (if tv_usec start <=? tv_usec now then
           usec ← long (tv_usec now - tv_usec start);
           mret (Timeval sec usec)
         else
           m ← long (1000000 + tv_usec now);
           usec ← long (m - tv_usec start);
           sec ← long (sec - 1);
           mret (Timeval sec usec));
  _correct now.

(** The rate of one operation, and the number of operations that the next
    one is measured over. *)
(* src: fas/misc/stat.hpp 65-86 command_stat::span *)
Definition middle_step (span now : timeval) (s : command_stat) : res command_stat :=
  r ← rate span;
  a ← long (tv_sec r * 1000);
  b ← divide (tv_usec r) 1000;
  rate_1000 ← long (a + b);
  rate_1000 ← divide rate_1000 (_middle_max s);
  sec ← divide rate_1000 1000;
  a ← long (sec * 1000);
  a ← long (rate_1000 - a);
  usec ← long (a * 1000);
  m ← (if 0 <? tv_sec span then divide (_middle_max s) 2 else long (_middle_max s * 2));
  mret (CommandStat (last_span s) (max_span s) (min_span s) (average_span s) (sum_span s) (_count s)
          0 (if m <? 2 then 2 else m) now (Timeval sec usec)).

(** [now1] and [now2] are the answers of [gettimeofday]. *)
(* src: fas/misc/stat.hpp 49-90 command_stat::span *)
Definition middle (now1 now2 : timeval) (s : command_stat) : res command_stat :=
  if _middle_count s =? _middle_max s then
    span ← middle_span (_middle_start s) now1;
    middle_step span now2 s
  else
    n ← long (_middle_count s + 1);
    mret (CommandStat (last_span s) (max_span s) (min_span s) (average_span s) (sum_span s) (_count s)
            n (_middle_max s) (_middle_start s) (_middle_rate s)).

(* src: fas/misc/stat.hpp 101-114 command_stat::span *)
Definition new_average (average tv : timeval) : res timeval :=
  average ← (if (tv_sec average =? 0) && (tv_usec average =? 0) then Ok tv
             else
               sec ← long (tv_sec average + tv_sec tv);
               sec ← divide sec 2;
               usec ← long (tv_usec average + tv_usec tv);
               usec ← divide usec 2;
               mret (Timeval sec usec));
  _correct average.

(* src: fas/misc/stat.hpp 47-119 command_stat::span *)
Definition span (now1 now2 tv : timeval) (s : command_stat) : res command_stat :=
  s ← middle now1 now2 s;
  count ← long (_count s + 1);
  tv ← _correct tv;
  average ← new_average (average_span s) tv;
  sec ← long (tv_sec (sum_span s) + tv_sec tv);
  usec ← long (tv_usec (sum_span s) + tv_usec tv);
  sum ← _correct (Timeval sec usec);
  mret (CommandStat tv (if tv_ltb (max_span s) tv then tv else max_span s)
          (if tv_ltb tv (min_span s) then tv else min_span s) average sum count
          (_middle_count s) (_middle_max s) (_middle_start s) (_middle_rate s)).

(* src: fas/misc/stat.hpp 123-126 command_stat::get_min *)
Definition get_min (s : command_stat) : timeval :=
  if tv_sec (min_span s) =? LONG_MAX then zero_time else min_span s.

(** *** The table of the methods *)

(* src: fas/misc/stat.hpp 219-221 common_stat *)
Record common_stat := CommonStat { _stat_list : list command_stat; _imark : Z }.

(* src: fas/misc/stat.hpp 182-182 common_stat::common_stat *)
Definition new_common : common_stat := CommonStat [] (-1).

(** [resize], with [now] for the constructor of the new elements. *)
(* src: fas/misc/stat.hpp 186-187 common_stat::operator[] *)
Definition grow (now : timeval) (i : Z) (l : list command_stat) : list command_stat :=
  if Z.of_nat (length l) <=? i then l ++ replicate (Z.to_nat (i + 1) - length l) (clear now) else l.

(* src: fas/misc/stat.hpp 209-209 common_stat::mark *)
Definition mark (i : Z) (c : common_stat) : common_stat := CommonStat (_stat_list c) i.

(* src: fas/misc/stat.hpp 210-217 common_stat::marked_span *)
Definition marked_span (now0 now1 now2 tv : timeval) (c : common_stat) : res (bool * common_stat) :=
  if _imark c =? -1 then Ok (false, c)
  else if _imark c <? 0 then Undef
  else
    let l := grow now0 (_imark c) (_stat_list c) in
    match l !! Z.to_nat (_imark c) with
    | None => Undef
    | Some s =>
        s ← span now1 now2 tv s;
        mret (true, CommonStat (<[Z.to_nat (_imark c) := s]> l) (-1))
    end.

(** *** The clock *)

(* src: fas/adv/ad_clock.hpp 203-210 ad_clock_start::get_span *)
Definition get_span (start now : timeval) : res timeval :=
  borrow ← long (tv_sec start + (if tv_usec now <? tv_usec start then 1 else 0));
  sec ← long (tv_sec now - borrow);
  usec ← (if tv_usec start <? tv_usec now then long (tv_usec now - tv_usec start)
          else long (tv_usec start - tv_usec now));
  mret (Timeval sec usec).

(** What [ad_invoke] does around a method: the clock is started, the method's
    position is marked after it ran, and the clock is read. *)
(* src: fas/adv/json_rpc3/ad_invoke.hpp 322-325 ad_invoke::_invoke *)
Definition timed (position : Z) (start finish now0 now1 now2 : timeval) (c : common_stat)
    : res (bool * common_stat) :=
  tv ← get_span start finish;
  marked_span now0 now1 now2 tv (mark position c).

(** The table is shared by the threads of the UDP port and the thread of the
    replication port; [common_stat_mtx] makes one access of each of these. *)
Inductive stat_access := AMark (i : Z) | ASpan (tv : timeval).

(* src: common/fas_statistics.hpp 19-28 common_stat_mtx *)
Definition access (now : timeval) (a : stat_access) (c : common_stat) : res common_stat :=
  match a with
  | AMark i => Ok (mark i c)
  | ASpan tv => '(_, c) ← marked_span now now now tv c; mret c
  end.

Fixpoint accesses (now : timeval) (l : list stat_access) (c : common_stat) : res common_stat :=
  match l with [] => Ok c | a :: l => c ← access now a c; accesses now l c end.

Example timed_ex :
  let t (s u : Z) := Timeval s u in
  ('(_, c) ← timed 1 (t 5 100) (t 7 300) zero_time zero_time zero_time new_common;
  '(_, c) ← timed 1 (t 9 0) (t 9 50) zero_time zero_time zero_time c;
  mret ((λ s, (_count s, sum_span s, get_min s)) <$> _stat_list c))
  = Ok [(0, zero_time, zero_time); (2, t 2 250, t 0 50)].
Proof. vm_compute. reflexivity. Qed.

(** ** Long arithmetic *)

Definition long_ok (z : Z) : Prop := -9223372036854775808 <= z <= 9223372036854775807.

Lemma long_run z : long_ok z → long z = Ok z.
Proof.
  intros Hz. change (long z) with (if in_range long_t z then Ok z else Undef).
  assert (in_range long_t z = true) as ->; [|done]. apply in_range_spec. unfold long_ok in Hz. std_bounds. lia.
Qed.

Lemma divide_run a b : 0 <= a → 0 < b → long_ok a → divide a b = Ok (a / b).
Proof.
  intros Ha Hb Hl. unfold divide. destruct (Z.eqb_spec b 0); [lia|]. rewrite Z.quot_div_nonneg by lia.
  apply long_run. unfold long_ok in *. pose proof (Z.div_pos a b Ha Hb).
  pose proof (Z.div_le_upper_bound a b a Hb). nia.
Qed.

(** [longs]: run the arithmetic that stays within [long]. *)
Ltac longs :=
  repeat (first [ rewrite long_run by (unfold long_ok; lia)
                | rewrite divide_run by (unfold long_ok; lia) ]; cbn [mbind res_bind mret res_ret]).

(** A length of time in microseconds; one whose microseconds are less than a
    second. *)
Definition micro (tv : timeval) : Z := tv_sec tv * 1000000 + tv_usec tv.
Definition normal (tv : timeval) : Prop := 0 <= tv_sec tv ∧ 0 <= tv_usec tv < 1000000.

Lemma tv_ltb_micro a b : normal a → normal b → tv_ltb a b = (micro a <? micro b).
Proof.
  intros [Ha Ha'] [Hb Hb']. unfold tv_ltb, micro.
  destruct (Z.ltb_spec (tv_sec a) (tv_sec b)); [symmetry; apply Z.ltb_lt; lia|].
  destruct (Z.eqb_spec (tv_sec a) (tv_sec b)) as [->|]; [|symmetry; apply Z.ltb_ge; lia].
  destruct (Z.ltb_spec (tv_usec a) (tv_usec b)); symmetry; [apply Z.ltb_lt|apply Z.ltb_ge]; lia.
Qed.

Lemma micro_inj a b : normal a → normal b → micro a = micro b → a = b.
Proof. destruct a, b. unfold normal, micro. simpl. intros. f_equal; lia. Qed.

(** [_correct] moves whole seconds. *)
Lemma correct_loop_run n tv :
  0 <= tv_sec tv → 0 <= tv_usec tv → Z.of_nat n = tv_usec tv / 1000000 →
  long_ok (tv_usec tv) → long_ok (tv_sec tv + Z.of_nat n) →
  correct_loop n tv = Ok (Timeval (tv_sec tv + Z.of_nat n) (tv_usec tv mod 1000000)).
Proof.
  revert tv. induction n as [|n IH]; intros [s u]; cbn [tv_sec tv_usec correct_loop]; intros Hs Hu Hn Hlu Hls.
  - assert (u < 1000000) by (Z.to_euclidean_division_equations; lia).
    destruct (Z.leb_spec 1000000 u); [lia|]. rewrite Z.mod_small by lia. do 2 f_equal. simpl. lia.
  - assert (1000000 <= u) by (Z.to_euclidean_division_equations; lia).
    destruct (Z.leb_spec 1000000 u); [|lia]. unfold long_ok in *. longs.
    rewrite IH; cbn [tv_sec tv_usec]; [|lia|lia| |unfold long_ok; lia|unfold long_ok; lia].
    + do 2 f_equal; [lia|]. Z.to_euclidean_division_equations; lia.
    + Z.to_euclidean_division_equations; lia.
Qed.

Lemma correct_run tv :
  0 <= tv_sec tv → 0 <= tv_usec tv → long_ok (tv_usec tv) → long_ok (tv_sec tv + tv_usec tv / 1000000) →
  ∃ tv', _correct tv = Ok tv' ∧ normal tv' ∧ micro tv' = micro tv.
Proof.
  intros Hs Hu Hlu Hls. pose proof (Z.div_pos (tv_usec tv) 1000000 Hu ltac:(lia)).
  eexists. split; [apply correct_loop_run; [done|done|lia|done|]|].
  - by rewrite Z2Nat.id.
  - rewrite Z2Nat.id by done. unfold normal, micro. cbn [tv_sec tv_usec]. Z.to_euclidean_division_equations; lia.
Qed.

Lemma correct_normal tv : normal tv → _correct tv = Ok tv.
Proof.
  intros [Hs Hu]. unfold _correct. rewrite Z.div_small by lia. simpl. by destruct (Z.leb_spec 1000000 (tv_usec tv)); [lia|].
Qed.

(** ** One call of [span] *)

(** The clock stands still or goes forward, and not for ever. *)
Definition sane (tv : timeval) : Prop := normal tv ∧ tv_sec tv <= 1152921504606.

Lemma rate_run tv : sane tv → ∃ r, rate tv = Ok r ∧ 0 <= tv_sec r <= 1000000 ∧ 0 <= tv_usec r < 1000000.
Proof.
  intros [[Hs Hu] Hb]. unfold rate. destruct (_ && _) eqn:Hz.
  { eexists. split; [done|]. simpl. lia. }
  assert (0 < tv_sec tv * 1000000 + tv_usec tv).
  { apply andb_false_iff in Hz. rewrite !Z.eqb_neq in Hz. lia. }
  longs. set (m := tv_sec tv * 1000000 + tv_usec tv) in *. set (q := 1000000000 / m) in *.
  assert (0 <= q <= 1000000000) as Hq by (subst q; Z.to_euclidean_division_equations; nia).
  longs. assert (0 <= q / 1000 <= 1000000) as Hd by (Z.to_euclidean_division_equations; lia).
  assert (0 <= q - q / 1000 * 1000 < 1000) by (Z.to_euclidean_division_equations; lia).
  longs. eexists. split; [done|]. simpl. lia.
Qed.

Lemma middle_span_run start now :
  sane start → sane now → micro start <= micro now →
  ∃ d, middle_span start now = Ok d ∧ sane d ∧ micro d = micro now - micro start.
Proof.
  intros [[Hs Hu] Hb] [[Hs' Hu'] Hb'] Hle. unfold middle_span, micro in *. longs.
  destruct (Z.leb_spec (tv_usec start) (tv_usec now)); longs;
    (eexists; split; [apply correct_normal; split; cbn; lia|]); split; try (split; [split|]); cbn; lia.
Qed.

Lemma middle_step_run d now s :
  sane d → 2 <= _middle_max s <= 2305843009213693952 →
  ∃ m r, middle_step d now s
    = Ok (CommandStat (last_span s) (max_span s) (min_span s) (average_span s) (sum_span s) (_count s) 0 m now r) ∧
    2 <= m <= 2 * _middle_max s.
Proof.
  intros Hd Hm. unfold middle_step. destruct (rate_run d Hd) as (r & -> & Hrs & Hru). cbn [mbind res_bind].
  longs. assert (0 <= tv_usec r / 1000 < 1000) by (Z.to_euclidean_division_equations; lia). longs.
  set (q := tv_sec r * 1000 + tv_usec r / 1000) in *.
  assert (0 <= q / _middle_max s <= q) as Hq by (Z.to_euclidean_division_equations; nia). longs.
  set (x := q / _middle_max s) in *.
  assert (0 <= x / 1000 <= x) by (Z.to_euclidean_division_equations; lia).
  assert (0 <= x - x / 1000 * 1000 < 1000) by (Z.to_euclidean_division_equations; lia). longs.
  assert (0 <= _middle_max s / 2 <= _middle_max s) by (Z.to_euclidean_division_equations; lia).
  destruct (0 <? tv_sec d); longs; do 2 eexists; (split; [reflexivity|]); case_match; lia.
Qed.

(** The state between two calls, after the lengths [hist]; [now] is the last
    answer of the clock. *)
Definition total (hist : list timeval) : Z := foldr (λ tv n, micro tv + n) 0 hist.

Record stat_ok (hist : list timeval) (now : timeval) (s : command_stat) : Prop := {
  so_count : _count s = Z.of_nat (length hist);
  so_sum : normal (sum_span s) ∧ micro (sum_span s) = total hist;
  so_last : last hist = Some (last_span s) ∨ hist = [] ∧ last_span s = zero_time;
  so_max : normal (max_span s) ∧ (∀ tv, tv ∈ hist → micro tv <= micro (max_span s)) ∧
           (max_span s ∈ hist ∨ max_span s = zero_time);
  so_min : (hist = [] ∧ min_span s = Timeval LONG_MAX LONG_MAX) ∨
           (min_span s ∈ hist ∧ ∀ tv, tv ∈ hist → micro (min_span s) <= micro tv);
  so_average : sane (average_span s);
  so_middle_count : 0 <= _middle_count s <= _count s;
  so_middle_max : 2 <= _middle_max s ∧ (_middle_max s = 2 ∨ _middle_max s <= 2 * _count s);
  so_start : sane (_middle_start s) ∧ micro (_middle_start s) <= micro now;
}.

Lemma total_app l1 l2 : total (l1 ++ l2) = total l1 + total l2.
Proof. induction l1 as [|x l1 IH]; simpl; [done|]. unfold total in *. simpl. rewrite IH. lia. Qed.
Lemma total_nonneg l : Forall normal l → 0 <= total l.
Proof.
  induction 1 as [|x l [H1 H2] Hl IH]; simpl; [done|]. unfold total, micro in *. simpl. lia.
Qed.
Lemma total_elem l tv : Forall normal l → tv ∈ l → micro tv <= total l.
Proof.
  intros Hl Hin. apply list_elem_of_split in Hin as (l1 & l2 & ->).
  apply Forall_app in Hl as [H1 H2]. apply Forall_cons in H2 as [_ H2].
  rewrite total_app. apply total_nonneg in H1. apply total_nonneg in H2. unfold total in *. simpl. lia.
Qed.

Lemma clear_ok now : sane now → stat_ok [] now (clear now).
Proof.
  intros Hn. split; simpl; try lia.
  - by split_and!.
  - by right.
  - split_and!; [done| |by right]. intros tv Htv. by apply not_elem_of_nil in Htv.
  - by left.
  - by split.
  - by split.
Qed.

Lemma middle_run hist now now1 now2 s :
  stat_ok hist now s → _count s <= 1152921504606846976 →
  sane now1 → sane now2 → micro now <= micro now1 → micro now1 <= micro now2 →
  ∃ s', middle now1 now2 s = Ok s' ∧ last_span s' = last_span s ∧ max_span s' = max_span s ∧
    min_span s' = min_span s ∧ average_span s' = average_span s ∧ sum_span s' = sum_span s ∧
    _count s' = _count s ∧ 0 <= _middle_count s' <= _count s + 1 ∧
    2 <= _middle_max s' ∧ (_middle_max s' = 2 ∨ _middle_max s' <= 2 * _count s) ∧
    sane (_middle_start s') ∧ micro (_middle_start s') <= micro now2.
Proof.
  intros [Hcount _ _ _ _ _ Hmc [Hm2 Hmm] [Hst Hle]] Hb Hn1 Hn2 H1 H2. unfold middle.
  destruct (Z.eqb_spec (_middle_count s) (_middle_max s)) as [Heq|Hne].
  - destruct (middle_span_run (_middle_start s) now1 Hst Hn1) as (d & -> & Hd & _); [lia|].
    cbn [mbind res_bind]. destruct (middle_step_run d now2 s Hd) as (m & r & -> & Hm); [lia|].
    eexists. split; [reflexivity|]. simpl. split_and!; try done; lia.
  - longs. eexists. split; [reflexivity|]. simpl. split_and!; try done; lia.
Qed.

Lemma new_average_run a tv :
  sane a → sane tv → ∃ a', new_average a tv = Ok a' ∧ sane a'.
Proof.
  intros [[Ha Hau] Hab] [[Ht Htu] Htb]. unfold new_average. destruct (_ && _).
  { cbn [mbind res_bind]. eexists. split; [by apply correct_normal|]. by split. }
  longs.
  assert (sane (Timeval ((tv_sec a + tv_sec tv) / 2) ((tv_usec a + tv_usec tv) / 2))) as Hs.
  { split; [split|]; cbn; Z.to_euclidean_division_equations; lia. }
  eexists. split; [apply correct_normal, Hs|exact Hs].
Qed.

(** The greatest and the least of the lengths, with one more. *)
Lemma max_snoc hist m tv :
  normal m ∧ (∀ x, x ∈ hist → micro x <= micro m) ∧ (m ∈ hist ∨ m = zero_time) → normal tv →
  let m' := if tv_ltb m tv then tv else m in
  normal m' ∧ (∀ x, x ∈ hist ++ [tv] → micro x <= micro m') ∧ (m' ∈ hist ++ [tv] ∨ m' = zero_time).
Proof.
  intros (Hm & Hall & Hin) Ht m'. unfold m'. rewrite tv_ltb_micro by done.
  destruct (Z.ltb_spec (micro m) (micro tv)); split_and!; try done.
  - intros x [Hx| ->%list_elem_of_singleton]%elem_of_app; [specialize (Hall x Hx)|]; lia.
  - left. apply elem_of_app. right. apply list_elem_of_here.
  - intros x [Hx| ->%list_elem_of_singleton]%elem_of_app; [by apply Hall|lia].
  - destruct Hin; [left; apply elem_of_app; by left|by right].
Qed.

Lemma min_snoc hist m tv :
  (hist = [] ∧ m = Timeval LONG_MAX LONG_MAX) ∨ (m ∈ hist ∧ ∀ x, x ∈ hist → micro m <= micro x) →
  Forall normal hist → normal tv → tv_sec tv < LONG_MAX →
  let m' := if tv_ltb tv m then tv else m in m' ∈ hist ++ [tv] ∧ ∀ x, x ∈ hist ++ [tv] → micro m' <= micro x.
Proof.
  intros [[-> ->]|[Hin Hall]] Hh Ht Hb m'.
  - assert (m' = tv) as ->.
    { unfold m', tv_ltb. cbn [tv_sec]. by destruct (Z.ltb_spec (tv_sec tv) LONG_MAX); [|lia]. }
    split; [apply list_elem_of_here|]. by intros x ->%list_elem_of_singleton.
  - rewrite Forall_forall in Hh. unfold m'. rewrite tv_ltb_micro by auto.
    destruct (Z.ltb_spec (micro tv) (micro m)); split.
    + apply elem_of_app. right. apply list_elem_of_here.
    + intros x [Hx| ->%list_elem_of_singleton]%elem_of_app; [specialize (Hall x Hx)|]; lia.
    + apply elem_of_app. by left.
    + intros x [Hx| ->%list_elem_of_singleton]%elem_of_app; [by apply Hall|lia].
Qed.

Lemma span_ok hist now now1 now2 tv s :
  stat_ok hist now s → Forall normal hist → normal tv →
  total hist + micro tv <= 1152921504606846976 → Z.of_nat (length hist) <= 1152921504606846975 →
  sane now1 → sane now2 → micro now <= micro now1 → micro now1 <= micro now2 →
  ∃ s', span now1 now2 tv s = Ok s' ∧ stat_ok (hist ++ [tv]) now2 s'.
Proof.
  intros Hs Hh Ht Htot Hlen Hn1 Hn2 H1 H2. pose proof (total_nonneg _ Hh) as Htn.
  assert (sane tv) as Hst by (split; [done|]; unfold normal, micro in *; lia).
  destruct (middle_run hist now now1 now2 s Hs) as (s1 & Hmid & Hl & Hmax & Hmin & Ha & Hsum & Hc & Hmc & Hm2 & Hmm & Hms & Hle);
    [rewrite (so_count _ _ _ Hs); lia|done..|].
  unfold span. rewrite Hmid. cbn [mbind res_bind]. destruct Hs as [Hc0 [Hsn Hsm] Hl0 Hmx0 Hmn0 Ha0 _ _ _].
  rewrite Hc, Hc0. longs. rewrite (correct_normal tv Ht). cbn [mbind res_bind]. rewrite Ha, Hsum, Hmax, Hmin.
  destruct (new_average_run _ _ Ha0 Hst) as (a' & -> & Ha'). cbn [mbind res_bind].
  destruct Hsn as [Hs1 Hs2]. destruct Ht as [Ht1 Ht2]. unfold micro in Htot, Hsm. longs.
  destruct (correct_run (Timeval (tv_sec (sum_span s) + tv_sec tv) (tv_usec (sum_span s) + tv_usec tv)))
    as (sum' & Hcr & Hns & Hms'); [cbn; unfold long_ok; Z.to_euclidean_division_equations; lia..|].
  rewrite Hcr. cbn [mbind res_bind mret res_ret]. eexists. split; [reflexivity|].
  split; cbn [_count sum_span last_span max_span min_span average_span _middle_count _middle_max _middle_start].
  - rewrite length_app. simpl. lia.
  - split; [done|]. rewrite Hms', total_app. unfold total, micro in *. simpl in *. lia.
  - left. by rewrite last_snoc.
  - by apply max_snoc.
  - right. apply min_snoc; [done|done|done|]. unfold LONG_MAX. std_bounds. destruct Hst. lia.
  - done.
  - lia.
  - lia.
  - done.
Qed.

(** ** The clock *)

Definition of_micro (z : Z) : timeval := Timeval (z / 1000000) (z mod 1000000).

Lemma micro_of_micro z : micro (of_micro z) = z.
Proof. unfold micro, of_micro. cbn [tv_sec tv_usec]. Z.to_euclidean_division_equations; lia. Qed.
Lemma of_micro_of tv : normal tv → of_micro (micro tv) = tv.
Proof.
  intros Hn. apply micro_inj; [|done|apply micro_of_micro]. destruct Hn. unfold normal, of_micro, micro. cbn [tv_sec tv_usec].
  Z.to_euclidean_division_equations; lia.
Qed.

(** How far the clock is out: where the microseconds have to borrow from the
    seconds, [get_span] subtracts them the wrong way round. *)
Definition slip (start now : timeval) : Z :=
  if tv_usec now <? tv_usec start then 2 * (tv_usec start - tv_usec now) - 1000000 else 0.

(** What the clock tells of the time between [start] and [now]. *)
Definition told (start now : timeval) : timeval := of_micro (micro now - micro start + slip start now).

Lemma slip_small start now : normal start → normal now → Z.abs (slip start now) < 1000000.
Proof. intros [_ ?] [_ ?]. unfold slip. case_match; lia. Qed.

Lemma slip_zero start now :
  slip start now = 0 ↔ tv_usec start <= tv_usec now ∨ tv_usec start = tv_usec now + 500000.
Proof. unfold slip. destruct (Z.ltb_spec (tv_usec now) (tv_usec start)); lia. Qed.

Lemma get_span_run start now :
  sane start → sane now → micro start <= micro now →
  get_span start now = Ok (told start now) ∧ normal (told start now) ∧
  micro (told start now) <= micro now - micro start + 1000000 ∧ tv_sec (told start now) <= tv_sec now.
Proof.
  intros [Hn Hb] [Hn' Hb'] Hle. pose proof (slip_small start now Hn Hn') as Hs.
  assert (∃ tv, get_span start now = Ok tv ∧ normal tv ∧ micro tv = micro now - micro start + slip start now ∧
    tv_sec tv <= tv_sec now) as (tv & Hg & Hnt & Hm & Hsec).
  { destruct Hn as [? ?], Hn' as [? ?]. unfold get_span, slip, normal, micro in *.
    destruct (Z.ltb_spec (tv_usec now) (tv_usec start)), (Z.ltb_spec (tv_usec start) (tv_usec now)); try lia;
      longs; (eexists; split; [reflexivity|]); cbn; lia. }
  unfold told. rewrite <-Hm, of_micro_of by done. split_and!; try done; try apply Hnt. lia.
Qed.

(** ** The table *)

(** A call of a method, with the answers of the clock in their order. *)
Record call := Call {
  c_position : nat;
  c_start : timeval;
  c_finish : timeval;
  c_now0 : timeval;
  c_now1 : timeval;
  c_now2 : timeval;
}.

Definition run_call (c : common_stat) (k : call) : res common_stat :=
  '(_, c) ← timed (Z.of_nat (c_position k)) (c_start k) (c_finish k) (c_now0 k) (c_now1 k) (c_now2 k) c;
  mret c.
Fixpoint run_calls (ks : list call) (c : common_stat) : res common_stat :=
  match ks with [] => Ok c | k :: ks => c ← run_call c k; run_calls ks c end.

(** How long the calls of the method at [p] took, in microseconds, and what
    the clock told of them. *)
Definition duration (k : call) : Z := micro (c_finish k) - micro (c_start k).
Definition durations (p : nat) (ks : list call) : list Z := duration <$> filter (λ k, c_position k = p) ks.
Definition lengths (p : nat) (ks : list call) : list timeval :=
  omap (λ k, if decide (c_position k = p) then Some (told (c_start k) (c_finish k)) else None) ks.

(** The clock goes forward, for a hundred billion seconds at most. *)
Definition tick (t t' : timeval) : Prop := micro t <= micro t' ∧ normal t' ∧ tv_sec t' <= 100000000000.
Fixpoint ticking (now : timeval) (ks : list call) : Prop :=
  match ks with
  | [] => True
  | k :: ks =>
      tick now (c_start k) ∧ tick (c_start k) (c_finish k) ∧ tick (c_finish k) (c_now0 k) ∧
      tick (c_now0 k) (c_now1 k) ∧ tick (c_now1 k) (c_now2 k) ∧ ticking (c_now2 k) ks
  end.

Record table_ok (ks : list call) (now : timeval) (c : common_stat) : Prop := {
  tb_mark : _imark c = -1;
  tb_stats p s : _stat_list c !! p = Some s → stat_ok (lengths p ks) now s;
  tb_known k : k ∈ ks → (c_position k < length (_stat_list c))%nat;
  tb_normal p : Forall normal (lengths p ks);
  tb_short p : Forall (λ tv, tv_sec tv <= 100000000000) (lengths p ks);
  tb_total p : total (lengths p ks) <= micro now + Z.of_nat (length ks) * 1000000;
}.

Lemma tick_sane t t' : tick t t' → sane t'.
Proof. intros (_ & Hn & Hb). split; [done|]. lia. Qed.

Lemma stat_ok_later hist now now' s : stat_ok hist now s → micro now <= micro now' → stat_ok hist now' s.
Proof.
  intros [H1 H2 H3 H4 H5 H6 H7 H8 [H9 H10]] Hle. split; try done. split; [done|]. by etrans.
Qed.

Lemma lengths_app p ks k :
  lengths p (ks ++ [k]) = lengths p ks ++ (if decide (c_position k = p) then [told (c_start k) (c_finish k)] else []).
Proof. unfold lengths. rewrite omap_app. simpl. by case_decide. Qed.

Lemma lengths_cons p k ks :
  lengths p (k :: ks) = (if decide (c_position k = p) then [told (c_start k) (c_finish k)] else []) ++ lengths p ks.
Proof. unfold lengths. simpl. by case_decide. Qed.

Lemma lengths_le p ks : (length (lengths p ks) ≤ length ks)%nat.
Proof.
  induction ks as [|k ks IH]; [done|]. rewrite lengths_cons, length_app. case_decide; simpl; lia.
Qed.

Lemma grow_length now i l : 0 <= i → (Z.to_nat i < length (grow now i l))%nat ∧ (length l ≤ length (grow now i l))%nat.
Proof.
  intros Hi. unfold grow. destruct (Z.leb_spec (Z.of_nat (length l)) i); [|lia].
  rewrite length_app, length_replicate. lia.
Qed.

Lemma grow_lookup now i l p s :
  grow now i l !! p = Some s → l !! p = Some s ∨ ((length l ≤ p)%nat ∧ s = clear now).
Proof.
  unfold grow. case_match; [|by left]. rewrite lookup_app_Some. intros [?|[Hp Hs]]; [by left|right].
  split; [done|]. by apply lookup_replicate in Hs as [-> _].
Qed.

Lemma run_call_ok ks now c k :
  table_ok ks now c → Z.of_nat (length ks) < 100000000000 → 0 <= micro now →
  ticking now [k] → ∃ c', run_call c k = Ok c' ∧ table_ok (ks ++ [k]) (c_now2 k) c'.
Proof.
  intros [Hmark Hstats Hknown Hnorm Hshort Htot] Hlen Hnow (T1 & T2 & T3 & T4 & T5 & _).
  pose proof (tick_sane _ _ T1) as S1. pose proof (tick_sane _ _ T2) as S2. pose proof (tick_sane _ _ T3) as S3.
  pose proof (tick_sane _ _ T4) as S4. pose proof (tick_sane _ _ T5) as S5.
  destruct T1 as (L1 & _ & _), T2 as (L2 & _ & B2), T3 as (L3 & _ & _), T4 as (L4 & _ & _), T5 as (L5 & N5 & B5).
  destruct (get_span_run _ _ S1 S2 L2) as (Hget & Hn & Hm & Hsh').
  assert (tv_sec (told (c_start k) (c_finish k)) <= 100000000000) as Hsh by lia.
  unfold run_call, timed. rewrite Hget. cbn [mbind res_bind]. unfold marked_span, mark. cbn [_imark _stat_list].
  set (i := c_position k) in *. set (tv := told (c_start k) (c_finish k)) in *.
  destruct (Z.eqb_spec (Z.of_nat i) (-1)); [lia|]. destruct (Z.ltb_spec (Z.of_nat i) 0); [lia|].
  rewrite Nat2Z.id. destruct (grow_length (c_now0 k) (Z.of_nat i) (_stat_list c)) as [Hgi Hgl]; [lia|].
  rewrite Nat2Z.id in Hgi. set (l := grow _ _ _) in *.
  destruct (lookup_lt_is_Some_2 l i Hgi) as [s Hs]. rewrite Hs.
  assert (∀ p s, l !! p = Some s → stat_ok (lengths p ks) (c_now0 k) s) as Hl.
  { intros p s' Hp. apply grow_lookup in Hp as [Hp|[Hp ->]].
    - apply (stat_ok_later _ now); [by apply Hstats|lia].
    - assert (lengths p ks = []) as ->; [|by apply clear_ok].
      clear -Hknown Hp. induction ks as [|x ks IH]; [done|]. rewrite lengths_cons.
      assert (c_position x < length (_stat_list c))%nat by apply Hknown, list_elem_of_here.
      rewrite decide_False by lia. apply IH. intros y Hy. by apply Hknown, list_elem_of_further. }
  pose proof (lengths_le i ks). specialize (Htot i) as Hti.
  assert (micro (c_now2 k) <= 100000000001000000) by (destruct N5; unfold micro; lia).
  destruct (span_ok (lengths i ks) (c_now0 k) (c_now1 k) (c_now2 k) tv s (Hl i s Hs)) as (s' & Hspan & Hok');
    [done|done|lia|lia|done|done|lia|lia|].
  rewrite Hspan. cbn [mbind res_bind mret res_ret]. eexists. split; [reflexivity|].
  assert (∀ p, lengths p (ks ++ [k]) = lengths p ks ++ (if decide (i = p) then [tv] else [])) as Hla
    by (intros p; apply lengths_app).
  split; cbn [_imark _stat_list]; [done| | | | |].
  - intros p s1. rewrite Hla. destruct (decide (i = p)) as [<-|Hne].
    + rewrite list_lookup_insert_eq by done. by intros [= <-].
    + rewrite list_lookup_insert_ne by done. rewrite app_nil_r. intros Hp.
      apply (stat_ok_later _ (c_now0 k)); [by apply Hl|lia].
  - intros x. rewrite length_insert. intros [Hx| ->%list_elem_of_singleton]%elem_of_app; [|done].
    specialize (Hknown x Hx). lia.
  - intros p. rewrite Hla. apply Forall_app_2; [done|]. case_decide; [by apply Forall_singleton|done].
  - intros p. rewrite Hla. apply Forall_app_2; [done|]. case_decide; [by apply Forall_singleton|done].
  - intros p. rewrite Hla, total_app, length_app. specialize (Htot p). simpl.
    case_decide; unfold total in *; simpl; lia.
Qed.

Lemma run_calls_ok done_ ks now c :
  table_ok done_ now c → Z.of_nat (length done_ + length ks) <= 100000000000 → 0 <= micro now →
  ticking now ks → ∃ c' now', run_calls ks c = Ok c' ∧ table_ok (done_ ++ ks) now' c'.
Proof.
  revert done_ now c. induction ks as [|k ks IH]; intros done_ now c Hok Hlen Hnow Ht.
  { exists c, now. by rewrite app_nil_r. }
  destruct Ht as (T1 & T2 & T3 & T4 & T5 & Ht). simpl length in Hlen.
  destruct (run_call_ok done_ now c k Hok) as (c1 & Hr & Hok1); [lia|done|by split_and!|].
  destruct (IH (done_ ++ [k]) (c_now2 k) c1 Hok1) as (c' & now' & Hrs & Hok'); [| |done|].
  - rewrite length_app. simpl. lia.
  - destruct T5 as (_ & [? ?] & _). unfold micro. lia.
  - exists c', now'. cbn [run_calls]. rewrite Hr. cbn [mbind res_bind]. split; [exact Hrs|].
    by rewrite <-app_assoc in Hok'.
Qed.

(** What is told, in microseconds: the true time and a slip that is small. *)
Definition off_by_slip (k : call) (n : Z) : Prop :=
  n = duration k + slip (c_start k) (c_finish k) ∧ Z.abs (n - duration k) < 1000000.

Lemma ticking_normal t0 ks : ticking t0 ks → Forall (λ k, normal (c_start k) ∧ normal (c_finish k)) ks.
Proof.
  revert t0. induction ks as [|x ks IH]; [constructor|]. intros t0 (T1 & T2 & _ & _ & _ & T).
  constructor; [split; [apply T1|apply T2]|by eapply IH].
Qed.
Lemma lengths_told p ks :
  Forall (λ k, normal (c_start k) ∧ normal (c_finish k)) ks →
  Forall2 off_by_slip (filter (λ k, c_position k = p) ks) (micro <$> lengths p ks).
Proof.
  induction 1 as [|k ks [Hs Hf] _ IH]; [constructor|]. rewrite lengths_cons, fmap_app, filter_cons. case_decide; [|done].
  constructor; [|done]. unfold off_by_slip, told, duration. rewrite micro_of_micro. split; [done|].
  pose proof (slip_small _ _ Hs Hf). lia.
Qed.
Lemma lengths_exact p ks :
  Forall (λ k, c_position k = p → slip (c_start k) (c_finish k) = 0) ks → micro <$> lengths p ks = durations p ks.
Proof.
  unfold durations. induction 1 as [|k ks Hk _ IH]; [done|]. rewrite lengths_cons, fmap_app, filter_cons. case_decide; [|done].
  cbn [fmap list_fmap app]. rewrite IH. f_equal. unfold told. rewrite micro_of_micro, Hk by done. apply Z.add_0_r.
Qed.
Lemma total_sum l : total l = foldr Z.add 0 (micro <$> l).
Proof. unfold total. induction l as [|tv l IH]; [done|]. cbn. by rewrite IH. Qed.

(** The members of [h] are told of the calls of a method, and [s] holds what
    its counters are named after. *)
Definition accounts_for (h : list Z) (s : command_stat) : Prop :=
  _count s = Z.of_nat (length h) ∧ micro (sum_span s) = foldr Z.add 0 h ∧ last h = Some (micro (last_span s)) ∧
  micro (max_span s) ∈ h ∧ micro (get_min s) ∈ h ∧ ∀ n, n ∈ h → micro (get_min s) <= n <= micro (max_span s).

Lemma table_accounts ks now c k :
  table_ok ks now c → k ∈ ks →
  ∃ s, _stat_list c !! c_position k = Some s ∧ accounts_for (micro <$> lengths (c_position k) ks) s.
Proof.
  intros [_ Hstats Hknown Hnorm Hshort _] Hk. destruct (lookup_lt_is_Some_2 _ _ (Hknown k Hk)) as [s Hs].
  exists s. split; [done|]. set (h := lengths (c_position k) ks).
  destruct (Hstats _ _ Hs) as [Hc [_ Hsum] Hlast (Hmn & Hmax & Hmi) Hmin _ _ _ _]. fold h in Hc, Hsum, Hlast, Hmax, Hmi, Hmin.
  assert (told (c_start k) (c_finish k) ∈ h) as Hin.
  { unfold h. clear -Hk. induction ks as [|x ks IH]; [by apply not_elem_of_nil in Hk|].
    rewrite lengths_cons. apply elem_of_app. apply elem_of_cons in Hk as [->|Hk]; [left|right; by apply IH].
    rewrite decide_True by done. apply list_elem_of_here. }
  assert (h ≠ []) as Hne by (intros He; rewrite He in Hin; by apply not_elem_of_nil in Hin).
  destruct Hmin as [[? _]|[Hmin Hminle]]; [done|]. destruct Hlast as [Hlast|[? _]]; [|done].
  pose proof (Hnorm (c_position k)) as Hn. fold h in Hn. rewrite Forall_forall in Hn.
  assert (get_min s = min_span s) as Hgm.
  { unfold get_min. destruct (Z.eqb_spec (tv_sec (min_span s)) LONG_MAX) as [He|]; [exfalso|done].
    pose proof (Hshort (c_position k)) as Hsh. fold h in Hsh. rewrite Forall_forall in Hsh.
    specialize (Hsh _ Hmin). rewrite He in Hsh. unfold LONG_MAX in Hsh. std_bounds. simpl in Hsh. lia. }
  unfold accounts_for. rewrite Hgm, length_fmap, fmap_last, Hlast, <-total_sum. split_and!; try done.
  - destruct Hmi as [Hmi|Hz]; [by apply list_elem_of_fmap_2|].
    assert (max_span s = told (c_start k) (c_finish k)) as ->; [|by apply list_elem_of_fmap_2].
    apply micro_inj; [done|by apply Hn|]. pose proof (Hmax _ Hin) as Hle. destruct (Hn _ Hin) as [? ?].
    rewrite Hz in *. unfold micro in *. simpl in *. lia.
  - by apply list_elem_of_fmap_2.
  - intros n (tv & -> & Htv)%list_elem_of_fmap_1. split; auto.
Qed.

(** C32. What the statistics hold of the time that the methods took.  After
    any sequence of calls of any methods, while the clock goes forward,
    nothing has overflowed and the counters of each method hold the number of
    its calls and the sum, the last, the longest and the shortest of what the
    clock told of them.  That is the time that the calls took when in none of
    them the microseconds went back, or in those by exactly half a second;
    otherwise it is the time that they took and a slip of less than a second
    each, [2 * (start - finish) - 1000000] with the microseconds of the two:
    a call from 0.9 s to 1.1 s counts for 0.8 s. *)
Theorem statistics_account t0 ks :
  0 <= micro t0 → ticking t0 ks → Z.of_nat (length ks) <= 100000000000 →
  ∃ c, run_calls ks new_common = Ok c ∧ ∀ k, k ∈ ks →
    ∃ s h, _stat_list c !! c_position k = Some s ∧ accounts_for h s ∧
      Forall2 off_by_slip (filter (λ k', c_position k' = c_position k) ks) h ∧
      (Forall (λ k', c_position k' = c_position k →
         tv_usec (c_start k') <= tv_usec (c_finish k') ∨ tv_usec (c_start k') = tv_usec (c_finish k') + 500000) ks →
       h = durations (c_position k) ks).
Proof.
  intros H0 Ht Hlen.
  assert (table_ok [] t0 new_common) as Hnew.
  { split; [done|done| |by constructor|by constructor|simpl; unfold total; simpl; lia]. by intros k ?%not_elem_of_nil. }
  destruct (run_calls_ok [] ks t0 new_common Hnew) as (c & now & Hr & Hok); [done..|].
  exists c. split; [exact Hr|]. intros k Hk. destruct (table_accounts ks now c k Hok Hk) as (s & Hs & Hacc).
  exists s, (micro <$> lengths (c_position k) ks). split_and!; [done|done| |].
  - by apply lengths_told, (ticking_normal t0).
  - intros Hex. apply lengths_exact. eapply Forall_impl; [exact Hex|]. intros k' He Hp. by apply slip_zero, He.
Qed.

(** The clock returns the time between its start and its reading exactly
    when the microseconds need no borrow or differ by half a second, provided
    that it goes forward; otherwise the microseconds are subtracted the wrong
    way round. *)
Theorem span_exact start now :
  sane start → sane now → micro start <= micro now →
  ∃ tv, get_span start now = Ok tv ∧
    (micro tv = micro now - micro start ↔
     tv_usec start <= tv_usec now ∨ tv_usec start = tv_usec now + 500000).
Proof.
  intros Hs Hn Hle. destruct (get_span_run _ _ Hs Hn Hle) as (Hget & _ & _).
  exists (told start now). split; [done|]. unfold told. rewrite micro_of_micro, <-slip_zero. lia.
Qed.

(** Seconds and microseconds of the average are halved separately: the
    average of 0.9 s and 1.1 s is half a second. *)
Lemma average_loses_half_a_second :
  new_average (Timeval 0 900000) (Timeval 1 100000) = Ok (Timeval 0 500000).
Proof. reflexivity. Qed.

(** Two threads that end their calls together: the length of the first is
    counted for the method of the second, the second is not counted. *)
Lemma shared_table_mixes_calls :
  let a := [AMark 0; ASpan (Timeval 0 10)] in
  let b := [AMark 1; ASpan (Timeval 0 20)] in
  let run := [AMark 0; AMark 1; ASpan (Timeval 0 10); ASpan (Timeval 0 20)] in
  a `sublist_of` run ∧ b `sublist_of` run ∧
  (c ← accesses zero_time run new_common; mret ((λ s, (_count s, sum_span s)) <$> _stat_list c))
  = Ok [(0, zero_time); (1, Timeval 0 10)].
Proof. split_and!; [repeat constructor..|reflexivity]. Qed.

(** ** Witnesses *)

Definition two_calls : list call :=
  let t (s u : Z) := Timeval s u in
  [Call 1 (t 5 100) (t 7 300) (t 7 300) (t 7 301) (t 7 302); Call 1 (t 9 0) (t 9 50) (t 9 60) (t 9 70) (t 9 80)].

Lemma two_calls_tick : ticking zero_time two_calls.
Proof. repeat split; vm_compute; congruence. Qed.

Lemma statistics_account_witness :
  ∃ c s, run_calls two_calls new_common = Ok c ∧ _stat_list c !! 1%nat = Some s ∧ accounts_for [2000200; 50] s.
Proof.
  destruct (statistics_account zero_time two_calls) as (c & Hr & Hk); [by vm_compute|apply two_calls_tick|by vm_compute|].
  destruct (Hk _ (list_elem_of_here _ _)) as (s & h & Hs & Hacc & _ & Hex). exists c, s.
  split; [exact Hr|]. split; [exact Hs|].
  replace [2000200; 50] with h; [exact Hacc|]. rewrite Hex; [vm_compute; reflexivity|].
  repeat (constructor; [intros _; left; vm_compute; discriminate|]). constructor.
Defined.

Lemma span_exact_witness :
  ∃ tv, get_span (Timeval 0 900000) (Timeval 1 100000) = Ok tv ∧ micro tv ≠ 200000.
Proof.
  destruct (span_exact (Timeval 0 900000) (Timeval 1 100000)) as (tv & Hget & Hiff).
  - repeat split; vm_compute; congruence.
  - repeat split; vm_compute; congruence.
  - by vm_compute.
  - exists tv. split; [done|]. intros He. assert (micro tv = micro (Timeval 1 100000) - micro (Timeval 0 900000)) as H
      by (rewrite He; reflexivity). apply Hiff in H as [H|H]; vm_compute in H; congruence.
Defined.
