(* ===== verification/Mux.v ===== *)
(** * Mux: [fas/mux/imux.hpp], [epoller.hpp] and [selector.hpp]

    A multiplexer keeps, for every descriptor, who wants to be told that it
    is ready to be read, ready to be written, or has urgent data.  [Imux] is
    the interface that the filters are written against; [epoller] and
    [selector] implement it. *)

From S2P Require Import Prelude.

Inductive kind := ReadK | WriteK | UrgentK.
#[export] Instance kind_eq_dec : EqDecision kind.
Proof. solve_decision. Defined.

(** A pointer to an observer; [None] is the null pointer. *)
Abbreviation observer := (option nat).

(** An operation returns the previous observer and may throw, leaving what
    it has changed so far. *)
Abbreviation mux_op M := (prog Empty_set M observer).

(* src: fas/mux/imux.hpp 23-62 imux *)
Class Imux (M : Type) := {
  set_handler : kind → Z → observer → mux_op M;
  reset_handler : kind → Z → mux_op M;
  (** who is told of the readiness [k] of the descriptor [d] *)
  interest : M → Z → kind → observer;
  mux_ok : M → Prop;
  (** the descriptors that the multiplexer can watch *)
  mux_limit : option Z;
}.

Definition watchable {M} `{Imux M} (d : Z) : Prop :=
  0 <= d ∧ match mux_limit with Some n => d < n | None => True end.

(** What a client may rely on: setting and resetting have the effect they are
    named after and no other, as long as one observer watches a descriptor. *)
Class ImuxLaws (M : Type) `{Imux M} := {
  set_ok m k d o : mux_ok m → watchable d → (∀ k', interest m d k' = None ∨ interest m d k' = Some o) →
    ∃ r m', set_handler k d (Some o) m = (Ok r, m', []) ∧ mux_ok m' ∧
      ∀ d' k', interest m' d' k' = if decide (d' = d ∧ k' = k) then Some o else interest m d' k';
  reset_ok m k d o : mux_ok m → interest m d k = Some o →
    ∃ r m', reset_handler k d m = (Ok r, m', []) ∧ mux_ok m' ∧
      ∀ d' k', interest m' d' k' = if decide (d' = d ∧ k' = k) then None else interest m d' k';
}.

(** Both multiplexers set and reset the three readinesses in turn. *)
(* src: fas/mux/epoller.hpp 46-51 epoller::set_handlers *)
Definition set_handlers {M} `{Imux M} (d : Z) (o : observer) : prog Empty_set M unit :=
  set_handler ReadK d o;; set_handler WriteK d o;; set_handler UrgentK d o;; mret tt.
(* src: fas/mux/epoller.hpp 83-88 epoller::reset_handlers *)
Definition reset_handlers {M} `{Imux M} (d : Z) : prog Empty_set M unit :=
  reset_handler ReadK d;; reset_handler WriteK d;; reset_handler UrgentK d;; mret tt.

(** ** The kernel's side of epoll

    The descriptors that an epoll instance watches, each with its events. *)

Inductive epoll_op := EPOLL_CTL_ADD | EPOLL_CTL_MOD | EPOLL_CTL_DEL.

Class Epoll (K : Type) := {
  (** [None] is the result -1 *)
  epoll_ctl : epoll_op → Z → Z → K → option K;
  watched : K → Z → option Z;
}.

(** epoll_ctl(2): [ADD] fails with EEXIST, [MOD] and [DEL] with ENOENT. *)
Class EpollLaws (K : Type) `{Epoll K} := {
  ctl_add k d e : watched k d = None →
    ∃ k', epoll_ctl EPOLL_CTL_ADD d e k = Some k' ∧ watched k' d = Some e ∧ ∀ d', d' ≠ d → watched k' d' = watched k d';
  ctl_mod k d e e0 : watched k d = Some e0 →
    ∃ k', epoll_ctl EPOLL_CTL_MOD d e k = Some k' ∧ watched k' d = Some e ∧ ∀ d', d' ≠ d → watched k' d' = watched k d';
  ctl_del k d e e0 : watched k d = Some e0 →
    ∃ k', epoll_ctl EPOLL_CTL_DEL d e k = Some k' ∧ watched k' d = None ∧ ∀ d', d' ≠ d → watched k' d' = watched k d';
}.

(** A kernel that does exactly this. *)
#[export] Instance kernel_Epoll : Epoll (gmap Z Z) := {
  epoll_ctl op d e m :=
    match op, m !! d with
    | EPOLL_CTL_ADD, None | EPOLL_CTL_MOD, Some _ => Some (<[d := e]> m)
    | EPOLL_CTL_DEL, Some _ => Some (delete d m)
    | _, _ => None
    end;
  watched m d := m !! d;
}.
#[export] Instance kernel_EpollLaws : EpollLaws (gmap Z Z).
Proof.
  split; intros k d e; [|intros e0..]; intros Hd; simpl in *; rewrite Hd; eexists;
    (split; [reflexivity|]); (split; [first [apply lookup_insert_eq | apply lookup_delete_eq]|]);
    intros d' Hne; first [by rewrite lookup_insert_ne | by rewrite lookup_delete_ne].
Qed.

Abbreviation EPOLLIN := 1.
Abbreviation EPOLLPRI := 2.
Abbreviation EPOLLOUT := 4.
Abbreviation EPOLLERR := 8.
Abbreviation EPOLLHUP := 16.

Definition flag (k : kind) : Z := match k with ReadK => EPOLLIN | WriteK => EPOLLOUT | UrgentK => EPOLLPRI end.

Definition has (events mask : Z) : bool := negb (Z.land events mask =? 0).

(** ** [epoller] *)

(* src: fas/mux/epoller.hpp 203-208 epoller::EventHandler *)
Record EventHandler := Event_handler {
  h_events : Z;
  h_fd : Z;
  h_second : observer;
  h_ready : bool;
}.
(** [std::vector::resize] value-initialises. *)
Definition new_handler : EventHandler := Event_handler 0 0 None false.

(* src: fas/mux/epoller.hpp 200-215 epoller *)
Record epoller (K : Type) := Epoller { _depoll : K; _handlers : list EventHandler }.
Arguments Epoller {K} _ _.
Arguments _depoll {K} _.
Arguments _handlers {K} _.

Section epoller.
Context {K : Type} `{Epoll K}.

Definition put_handler (d : nat) (h : EventHandler) (m : epoller K) : epoller K :=
  Epoller (_depoll m) (<[d := h]> (_handlers m)).
Definition resized {A} (x : A) (n : nat) (l : list A) : list A := l ++ replicate (n - length l) x.

Definition ctl (op : epoll_op) (d : nat) (error : exn) : prog Empty_set (epoller K) unit := λ m,
  match _handlers m !! d with
  | None => (Undef, m, [])
  | Some h => match epoll_ctl op (Z.of_nat d) (h_events h) (_depoll m) with
    | Some k => (Ok tt, Epoller k (_handlers m), [])
    | None => (Throw error, m, [])
    end
  end.

(** What is thrown names a flag that the descriptor has besides the new ones;
    the text of [strerror] that follows the message is left out. *)
(* src: fas/mux/epoller.hpp 158-169 epoller::_set_handler *)
Definition set_error (events event_falag : Z) : exn :=
  let e := Z.land events (Z.lnot event_falag) in
  if has e EPOLLIN then runtime_error (str "epoller::_set_handle, error flag EPOLLIN, ")
  else if has e EPOLLOUT then runtime_error (str "epoller::_set_handle, error flag EPOLLOUT, ")
  else if has e EPOLLPRI then runtime_error (str "epoller::_set_handle, error flag EPOLLPRI, ")
  else if has e EPOLLERR then runtime_error (str "epoller::_set_handle, error flag EPOLLERR, ")
  else logic_error (str "epoller::_set_handle: ").

(** [_handlers.resize(d + 1)] for a negative [d] and the access behind it are
    undefined. *)
(* src: fas/mux/epoller.hpp 132-173 epoller::_set_handler *)
Definition _set_handler (d : Z) (sh : observer) (event_falag : Z) : mux_op (epoller K) :=
  if d <? 0 then op_lift Undef else
  let i := Z.to_nat d in
  op_modify (λ m, Epoller (_depoll m) (resized new_handler (S i) (_handlers m)));;
  h ← op_get (λ m, default new_handler (_handlers m !! i));
  if negb (h_ready h) then
    op_modify (put_handler i (Event_handler event_falag d sh true));;
    ctl EPOLL_CTL_ADD i (runtime_error (str "epoller::_set_handle1: "));;
    mret None
  else
    let mode := if negb (h_events h =? 0) then EPOLL_CTL_MOD else EPOLL_CTL_ADD in
    let events := Z.lor (h_events h) event_falag in
    op_modify (put_handler i (Event_handler events (h_fd h) sh (h_ready h)));;
    ctl mode i (set_error events event_falag);;
    mret (h_second h).

Definition any_event : Z := Z.lor EPOLLIN (Z.lor EPOLLOUT EPOLLPRI).

(* src: fas/mux/epoller.hpp 175-197 epoller::_reset_handler *)
Definition _reset_handler (d : Z) (event_falag : Z) : mux_op (epoller K) :=
  let i := Z.to_nat d in
  o ← op_get (λ m, if d <? 0 then None else _handlers m !! i);
  match o with
  | None => op_lift (Throw (runtime_error (str "epoller::_reset_handle: descriptor not found")))
  | Some h =>
      if negb (h_ready h) then
        op_lift (Throw (runtime_error (str "epoller::_reset_handle: descriptor not found")))
      else if negb (Z.land (h_events h) any_event =? 0) then
        let events := Z.land (h_events h) (Z.lnot event_falag) in
        op_modify (put_handler i (Event_handler events d (h_second h) (h_ready h)));;
        (if Z.land events any_event =? 0 then
           ctl EPOLL_CTL_DEL i (runtime_error (str "epoller::_reset_handle: "));;
           op_modify (put_handler i (Event_handler events d (h_second h) false))
         else ctl EPOLL_CTL_MOD i (runtime_error (str "epoller::_reset_handle: ")));;
        mret (h_second h)
      else mret None
  end.

(** The single observer of a descriptor is told of the events whose flags are
    set. *)
(* src: fas/mux/epoller.hpp 53-81 epoller::set_rhandler *)
#[export] Instance epoller_Imux : Imux (epoller K) := {
  set_handler k d o := _set_handler d o (flag k);
  reset_handler k d := _reset_handler d (flag k);
  interest m d k :=
    if d <? 0 then None else
    match _handlers m !! Z.to_nat d with
    | Some h => if h_ready h && has (h_events h) (flag k) then h_second h else None
    | None => None
    end;
  mux_ok m :=
    (∀ i h, _handlers m !! i = Some h →
       if h_ready h then h_events h ∈ seqZ 1 7 ∧ is_Some (h_second h) ∧ watched (_depoll m) (Z.of_nat i) = Some (h_events h)
       else watched (_depoll m) (Z.of_nat i) = None) ∧
    (∀ i, (length (_handlers m) ≤ i)%nat → watched (_depoll m) (Z.of_nat i) = None);
  mux_limit := None;
}.
End epoller.

(** ** Dispatching the events of one [select] *)

(** What the readiness of a descriptor makes the multiplexer call. *)
Inductive callback := ready_read | ready_write | ready_urgent | ready_error.
Record call := Call { c_observer : observer; c_callback : callback; c_desc : Z }.

Section dispatch.
Context {K : Type} `{Epoll K}.

(** [run] is what the observers do: they may set and reset handlers. *)
Variable run : call → epoller K → epoller K.

Definition call_back (o : observer) (c : callback) (d : Z) : prog call (epoller K) unit := λ m,
  match o with
  | None => (Undef, m, [])
  | Some _ => (Ok tt, run (Call o c d) m, [Call o c d])
  end.
(** [_handlers[d].second], looked up when the call is made. *)
Definition call_handler (d : Z) (c : callback) : prog call (epoller K) unit := λ m,
  match (if d <? 0 then None else _handlers m !! Z.to_nat d) with
  | Some h => call_back (h_second h) c d m
  | None => (Undef, m, [])
  end.

(** One event of [epoll_wait]; [flags_set] is read before the calls. *)
(* src: fas/mux/epoller.hpp 104-125 epoller::select *)
Definition handle_event (ev : Z * Z) : prog call (epoller K) unit :=
  let '(events, d) := ev in
  if d <? 0 then op_lift Undef else
  flags_set ← op_get (λ m, match _handlers m !! Z.to_nat d with Some h => h_events h | None => 0 end);
  if has events (Z.lor EPOLLERR EPOLLHUP) then call_handler d ready_error
  else
    (if has (Z.land events EPOLLIN) flags_set then call_handler d ready_read else mret tt);;
    (if has (Z.land events EPOLLOUT) flags_set then call_handler d ready_write else mret tt);;
    (if has (Z.land events EPOLLPRI) flags_set then call_handler d ready_urgent else mret tt).

(** [epoll_wait] fills the array with the events [evs] or fails with
    [EINTR] or another error. *)
Inductive waited := Events (evs : list (Z * Z)) | Interrupted | Wait_failed.

(* src: fas/mux/epoller.hpp 90-128 epoller::select *)
Definition epoller_select (w : waited) : prog call (epoller K) bool :=
  match w with
  | Wait_failed => op_lift (Throw (runtime_error (str "epoller::select calling epoll_wait:  ")))
  | Interrupted => mret false
  | Events evs => foldr (λ ev rest, handle_event ev;; rest) (mret tt) evs;; mret true
  end.
End dispatch.

(** ** [selector] *)

(** An [fd_set] is the set of its descriptors; the three handlers and sets of
    a readiness are one component. *)
(* src: fas/mux/selector.hpp 229-243 selector *)
Record selector := Selector {
  s_handlers : kind → list observer;
  s_fds : kind → gset Z;
  _fd_size : nat;
}.
Definition FD_SETSIZE : Z := 1024.

Definition upd {A} (k : kind) (x : A) (f : kind → A) : kind → A := λ k', if decide (k' = k) then x else f k'.

Definition FD_ISSET (d : Z) (s : gset Z) : bool := bool_decide (d ∈ s).

Fixpoint shrink (fds : kind → gset Z) (n : nat) : nat :=
  match n with
  | O => O
  | S n' => if negb (FD_ISSET (Z.of_nat n') (fds ReadK)) && negb (FD_ISSET (Z.of_nat n') (fds WriteK))
               && negb (FD_ISSET (Z.of_nat n') (fds UrgentK)) then shrink fds n' else n
  end.

(* src: fas/mux/selector.hpp 211-227 selector::_set_fd_size *)
Definition _set_fd_size (d : nat) (set : bool) (m : selector) : selector :=
  if set then
    if (_fd_size m <? S d)%nat then Selector (s_handlers m) (s_fds m) (S d) else m
  else if (S d =? _fd_size m)%nat then Selector (s_handlers m) (s_fds m) (shrink (s_fds m) (_fd_size m))
  else m.

(** [set_rhandler], [set_whandler] and [set_uhandler].  [FD_SET] and [FD_CLR]
    of a descriptor that does not fit the set are undefined. *)
(* src: fas/mux/selector.hpp 50-106 selector::set_rhandler *)
Definition selector_set (k : kind) (d : Z) (mh : observer) : mux_op selector := λ m,
  if (d <? 0) || (FD_SETSIZE <=? d) then (Undef, m, [])
  else
    let i := Z.to_nat d in
    let hs := resized None (S i) (s_handlers m k) in
    let old := default None (hs !! i) in
    let fds := match mh with None => s_fds m k ∖ {[ d ]} | Some _ => s_fds m k ∪ {[ d ]} end in
    (Ok old,
     _set_fd_size i (bool_decide (mh ≠ None))
       (Selector (upd k (<[i := mh]> hs) (s_handlers m)) (upd k fds (s_fds m)) (_fd_size m)), []).

(* src: fas/mux/selector.hpp 117-130 selector::reset_rhandler *)
Definition selector_reset (k : kind) (d : Z) : mux_op selector := selector_set k d None.

#[export] Instance selector_Imux : Imux selector := {
  set_handler := selector_set;
  reset_handler := selector_reset;
  interest m d k := if d <? 0 then None else default None (s_handlers m k !! Z.to_nat d);
  mux_ok m :=
    (∀ k d, d ∈ s_fds m k ↔ 0 <= d < FD_SETSIZE ∧ ∃ o, s_handlers m k !! Z.to_nat d = Some (Some o)) ∧
    (∀ k d, d ∈ s_fds m k → d < Z.of_nat (_fd_size m)) ∧
    (∀ k, (length (s_handlers m k) ≤ Z.to_nat FD_SETSIZE)%nat) ∧
    match _fd_size m with O => True | S n => ∃ k, Z.of_nat n ∈ s_fds m k end;
  mux_limit := Some FD_SETSIZE;
}.

Section select.
Variable run : call → selector → selector.

(** The three tests of the loop for the descriptor [i]; [out] is what
    [select] left of the sets. *)
Definition call_ready (out : kind → gset Z) (k : kind) (c : callback) (i : nat) : prog call selector unit := λ m,
  match (if FD_ISSET (Z.of_nat i) (out k) then s_handlers m k !! i else None) with
  | Some (Some o) => (Ok tt, run (Call (Some o) c (Z.of_nat i)) m, [Call (Some o) c (Z.of_nat i)])
  | _ => (Ok tt, m, [])
  end.

(** [_fd_size] is compared in every turn; [n] bounds the turns: it never
    exceeds the size of an [fd_set]. *)
Fixpoint select_loop (n : nat) (out : kind → gset Z) (i : nat) : prog call selector unit :=
  match n with
  | O => op_lift NoFuel
  | S n =>
      size ← op_get _fd_size;
      if (i <? size)%nat then
        call_ready out ReadK ready_read i;;
        call_ready out WriteK ready_write i;;
        call_ready out UrgentK ready_urgent i;;
        select_loop n out (S i)
      else mret tt
  end.

(** The result of [::select]. *)
Inductive selected := Ready (out : kind → gset Z) | Timeout | Select_interrupted | Select_failed.

(* src: fas/mux/selector.hpp 139-203 selector::select *)
Definition selector_select (r : selected) : prog call selector bool :=
  match r with
  | Timeout | Select_interrupted => mret false
  | Select_failed => op_lift (Throw (runtime_error (str "fas::selector::select: ")))
  | Ready out => select_loop (S (Z.to_nat FD_SETSIZE)) out 0;; mret true
  end.
End select.

(** ** Both are multiplexers *)

Lemma elem_0_7 e : e ∈ seqZ 0 8 → e = 0 ∨ e = 1 ∨ e = 2 ∨ e = 3 ∨ e = 4 ∨ e = 5 ∨ e = 6 ∨ e = 7.
Proof. intros He%elem_of_seqZ. lia. Qed.

(** One of the eight sets of the three flags. *)
Ltac flag_cases He := apply elem_0_7 in He as [->|[->|[->|[->|[->|[->|[->| ->]]]]]]].

Lemma seqZ_7_8 e : e ∈ seqZ 1 7 → e ∈ seqZ 0 8.
Proof. rewrite !elem_of_seqZ. lia. Qed.

Lemma flag_set e k : e ∈ seqZ 0 8 → Z.lor e (flag k) ∈ seqZ 1 7 ∧
  ∀ k', has (Z.lor e (flag k)) (flag k') = bool_decide (k' = k) || has e (flag k').
Proof.
  intros He. split.
  - rewrite elem_of_seqZ. flag_cases He; destruct k; vm_compute; intuition congruence.
  - intros k'. flag_cases He; destruct k, k'; reflexivity.
Qed.

Lemma flag_reset e k : e ∈ seqZ 0 8 →
  let e' := Z.land e (Z.lnot (flag k)) in
  e' ∈ seqZ 0 8 ∧ Z.land e' any_event = e' ∧
  ∀ k', has e' (flag k') = negb (bool_decide (k' = k)) && has e (flag k').
Proof.
  intros He e'. subst e'. split_and!.
  - rewrite elem_of_seqZ. flag_cases He; destruct k; vm_compute; intuition congruence.
  - flag_cases He; destruct k; reflexivity.
  - intros k'. flag_cases He; destruct k, k'; reflexivity.
Qed.

Lemma flag_has e k : e ∈ seqZ 0 8 → has e (flag k) = true → e ∈ seqZ 1 7 ∧ Z.land e any_event ≠ 0.
Proof.
  intros He Hf. rewrite elem_of_seqZ.
  flag_cases He; destruct k; first [by vm_compute in Hf | split; vm_compute; intuition congruence].
Qed.

Lemma resized_lookup {A} (x : A) n l i :
  resized x n l !! i = if decide (i < length l)%nat then l !! i else if decide (i < n)%nat then Some x else None.
Proof.
  unfold resized. destruct (decide (i < length l)%nat) as [Hi|Hi]; [by apply lookup_app_l|].
  rewrite lookup_app_r by lia. case_decide; [apply lookup_replicate_2; lia|apply lookup_replicate_None; lia].
Qed.
Lemma length_resized {A} (x : A) n l : length (resized x n l) = Nat.max n (length l).
Proof. unfold resized. rewrite length_app, length_replicate. lia. Qed.

Section epoller_laws.
Context {K : Type} `{EpollLaws K}.

Definition slot_ok (k : K) (i : nat) (h : EventHandler) : Prop :=
  if h_ready h then h_events h ∈ seqZ 1 7 ∧ is_Some (h_second h) ∧ watched k (Z.of_nat i) = Some (h_events h)
  else watched k (Z.of_nat i) = None.

Lemma ok_resized (m : epoller K) n :
  mux_ok m → mux_ok (Epoller (_depoll m) (resized new_handler n (_handlers m))).
Proof.
  intros [Hs Hb]. split; simpl.
  - intros i h. rewrite resized_lookup. case_decide as Hi; [by apply Hs|].
    case_decide; [|done]. intros [= <-]. simpl. apply Hb. lia.
  - intros i. rewrite length_resized. intros Hi. apply Hb. lia.
Qed.

Lemma interest_resized (m : epoller K) n d k :
  interest (Epoller (_depoll m) (resized new_handler n (_handlers m))) d k = interest m d k.
Proof.
  simpl. destruct (d <? 0); [done|]. rewrite resized_lookup. case_decide as Hi; [done|].
  rewrite (proj2 (lookup_ge_None (_handlers m) _)) by lia. by case_decide.
Qed.

(** Replacing one slot, with the kernel in step. *)
Lemma put_slot (m : epoller K) i h k' :
  mux_ok m → (i < length (_handlers m))%nat → slot_ok k' i h →
  (∀ d', d' ≠ Z.of_nat i → watched k' d' = watched (_depoll m) d') →
  let m' := Epoller k' (<[i := h]> (_handlers m)) in
  mux_ok m' ∧ ∀ d k, interest m' d k =
    if decide (d = Z.of_nat i) then (if h_ready h && has (h_events h) (flag k) then h_second h else None)
    else interest m d k.
Proof.
  intros [Hs Hb] Hi Hh Hk m'. split; [split; simpl|].
  - intros j h'. destruct (decide (j = i)) as [->|Hne].
    + rewrite list_lookup_insert_eq by done. intros [= <-]. apply Hh.
    + rewrite list_lookup_insert_ne by done. intros Hj. rewrite !Hk by lia. by apply Hs.
  - intros j. rewrite length_insert. intros Hj. rewrite Hk by lia. by apply Hb.
  - intros d k. simpl. destruct (decide (d = Z.of_nat i)) as [->|Hne].
    + rewrite (proj2 (Z.ltb_ge _ 0)) by lia. rewrite Nat2Z.id, list_lookup_insert_eq by done. done.
    + destruct (Z.ltb_spec d 0); [done|]. by rewrite list_lookup_insert_ne by lia.
Qed.

Lemma ctl_put op i h (m : epoller K) error k' :
  (i < length (_handlers m))%nat → epoll_ctl op (Z.of_nat i) (h_events h) (_depoll m) = Some k' →
  ctl op i error (put_handler i h m) = (Ok tt, Epoller k' (<[i := h]> (_handlers m)), []).
Proof. intros Hi Hc. unfold ctl, put_handler. simpl. by rewrite list_lookup_insert_eq, Hc by done. Qed.

Lemma epoller_set_ok (m : epoller K) k d o :
  mux_ok m → 0 <= d → (∀ k', interest m d k' = None ∨ interest m d k' = Some o) →
  ∃ r m', _set_handler d (Some o) (flag k) m = (Ok r, m', []) ∧ mux_ok m' ∧
    ∀ d' k', interest m' d' k' = if decide (d' = d ∧ k' = k) then Some o else interest m d' k'.
Proof.
  intros Hm Hd Ho. set (i := Z.to_nat d). assert (Z.of_nat i = d) as Hid by lia.
  set (m1 := Epoller (_depoll m) (resized new_handler (S i) (_handlers m))).
  assert (mux_ok m1) as Hm1 by (by apply ok_resized).
  assert (∀ d k, interest m1 d k = interest m d k) as Hint by (intros; apply interest_resized).
  assert (i < length (_handlers m1))%nat as Hi by (simpl; rewrite length_resized; lia).
  destruct (lookup_lt_is_Some_2 (_handlers m1) i Hi) as [h Hh].
  assert (slot_ok (_depoll m1) i h) as Hslot by (by apply (proj1 Hm1)).
  unfold _set_handler. rewrite (proj2 (Z.ltb_ge d 0)) by lia. fold i.
  rewrite op_modify_bind. fold m1.
  rewrite op_get_bind, Hh. change (default new_handler (Some h)) with h. unfold slot_ok in Hslot.
  assert (∀ k', interest m1 d k' = if h_ready h && has (h_events h) (flag k') then h_second h else None) as Hat.
  { intros k'. unfold interest, epoller_Imux. rewrite (proj2 (Z.ltb_ge d 0)) by lia. fold i. by rewrite Hh. }
  destruct (h_ready h) eqn:Hr; cbn [negb].
  - destruct Hslot as (He & [o' Ho'] & Hw).
    assert (o' = o) as ->.
    { destruct (elem_0_7 _ (seqZ_7_8 _ He)) as [E|E]; [apply elem_of_seqZ in He; lia|].
      assert (∃ k', has (h_events h) (flag k') = true) as [k' Hk'].
      { destruct E as [->|[->|[->|[->|[->|[->| ->]]]]]];
          first [by exists ReadK | by exists WriteK | by exists UrgentK]. }
      specialize (Ho k'). rewrite <-Hint, Hat, Hk', Ho' in Ho. by destruct Ho as [|[= ->]]. }
    rewrite (proj2 (Z.eqb_neq (h_events h) 0)) by (apply elem_of_seqZ in He; lia). cbn [negb].
    destruct (flag_set (h_events h) k (seqZ_7_8 _ He)) as [He' Hhas].
    set (h' := Event_handler (Z.lor (h_events h) (flag k)) (h_fd h) (Some o) true).
    destruct (ctl_mod (_depoll m1) d (h_events h') (h_events h)) as (k' & Hc & Hk' & Hothers); [by rewrite <-Hid|].
    rewrite <-Hid in Hc.
    rewrite op_modify_bind. fold h'.
    rewrite (op_bind_Ok _ _ _ _ _ _ (ctl_put EPOLL_CTL_MOD i h' m1 _ k' Hi Hc)).
    destruct (put_slot m1 i h' k' Hm1 Hi) as [Hok Hf].
    { unfold slot_ok. cbn. rewrite Hid. eauto. }
    { intros d' Hne. apply Hothers. lia. }
    eexists _, _. split; [reflexivity|]. split; [exact Hok|]. intros d' k1. rewrite Hf, <-Hint, Hid.
    cbn [h' h_ready h_events h_second andb]. destruct (decide (d' = d)) as [->|Hne]; [|by rewrite decide_False by tauto].
    rewrite Hhas, Hat, Ho'. cbn [andb]. destruct (decide (k1 = k)) as [->|Hk].
    + by rewrite bool_decide_true, decide_True.
    + rewrite bool_decide_false by done. by rewrite decide_False by tauto.
  - set (h' := Event_handler (flag k) d (Some o) true).
    destruct (ctl_add (_depoll m1) d (h_events h')) as (k' & Hc & Hk' & Hothers); [by rewrite <-Hid|].
    rewrite <-Hid in Hc.
    rewrite op_modify_bind. fold h'.
    rewrite (op_bind_Ok _ _ _ _ _ _ (ctl_put EPOLL_CTL_ADD i h' m1 _ k' Hi Hc)).
    destruct (put_slot m1 i h' k' Hm1 Hi) as [Hok Hf].
    { unfold slot_ok. cbn. rewrite Hid, elem_of_seqZ. split_and!; [destruct k; simpl; lia..|eauto|done]. }
    { intros d' Hne. apply Hothers. lia. }
    eexists _, _. split; [reflexivity|]. split; [exact Hok|]. intros d' k1. rewrite Hf, <-Hint, Hid.
    cbn [h' h_ready h_events h_second andb]. destruct (decide (d' = d)) as [->|Hne]; [|by rewrite decide_False by tauto].
    rewrite Hat. cbn [andb]. destruct k, k1; simpl; repeat case_decide; naive_solver.
Qed.

Lemma epoller_reset_ok (m : epoller K) k d o :
  mux_ok m → interest m d k = Some o →
  ∃ r m', _reset_handler d (flag k) m = (Ok r, m', []) ∧ mux_ok m' ∧
    ∀ d' k', interest m' d' k' = if decide (d' = d ∧ k' = k) then None else interest m d' k'.
Proof.
  intros Hm Hko. unfold interest, epoller_Imux in Hko.
  destruct (Z.ltb_spec d 0) as [|Hd]; [done|]. set (i := Z.to_nat d) in *. assert (Z.of_nat i = d) as Hid by lia.
  destruct (_handlers m !! i) as [h|] eqn:Hh; [|done].
  assert (i < length (_handlers m))%nat as Hi by (by eapply lookup_lt_Some).
  pose proof (proj1 Hm i h Hh) as Hslot. destruct (h_ready h) eqn:Hr; [|done]. cbn [andb] in Hko.
  destruct (has (h_events h) (flag k)) eqn:Hk; [|done]. destruct Hslot as (He & Hsome & Hw).
  destruct (flag_has _ k (seqZ_7_8 _ He) Hk) as [_ Hany].
  destruct (flag_reset (h_events h) k (seqZ_7_8 _ He)) as (He' & Hany' & Hhas).
  assert (∀ k', interest m d k' = if has (h_events h) (flag k') then h_second h else None) as Hat.
  { intros k'. unfold interest, epoller_Imux. rewrite (proj2 (Z.ltb_ge d 0)) by lia. fold i. by rewrite Hh, Hr. }
  unfold _reset_handler. fold i. rewrite op_get_bind, (proj2 (Z.ltb_ge d 0)), Hh, Hr by lia. cbn [negb].
  rewrite (proj2 (Z.eqb_neq _ 0) Hany). cbn [negb]. cbv zeta.
  set (e := Z.land (h_events h) (Z.lnot (flag k))) in *. set (h' := Event_handler e d (h_second h) true).
  rewrite op_modify_bind. fold h'.
  rewrite Hany'. destruct (Z.eqb_spec e 0) as [Hz|Hz].
  - destruct (ctl_del (_depoll m) d e (h_events h)) as (k' & Hc & Hk' & Hothers); [by rewrite <-Hid|].
    rewrite <-Hid in Hc. set (h2 := Event_handler e d (h_second h) false).
    assert (((ctl EPOLL_CTL_DEL i (runtime_error (str "epoller::_reset_handle: "));; op_modify (put_handler i h2)) (put_handler i h' m))
      = (Ok tt, Epoller k' (<[i := h2]> (_handlers m)), [])) as Hrun.
    { rewrite (op_bind_Ok _ _ _ _ _ _ (ctl_put EPOLL_CTL_DEL i h' m _ k' Hi Hc)).
      unfold op_modify, put_handler. cbn. by rewrite list_insert_insert_eq. }
    rewrite (op_bind_Ok _ _ _ _ _ _ Hrun).
    destruct (put_slot m i h2 k' Hm Hi) as [Hok Hf]; [unfold slot_ok; cbn; by rewrite Hid|intros d' Hne; apply Hothers; lia|].
    eexists _, _. split; [reflexivity|]. split; [exact Hok|]. intros d' k1. rewrite Hf, Hid. cbn [h2 h_ready andb].
    destruct (decide (d' = d)) as [->|Hne]; [|by rewrite decide_False by tauto].
    rewrite Hat. specialize (Hhas k1). rewrite Hz in Hhas.
    destruct (decide (k1 = k)) as [->|Hk1]; [by rewrite decide_True|]. rewrite decide_False by tauto.
    rewrite bool_decide_false in Hhas by done. cbn [negb andb] in Hhas. rewrite <-Hhas. by destruct k1.
  - destruct (ctl_mod (_depoll m) d e (h_events h)) as (k' & Hc & Hk' & Hothers); [by rewrite <-Hid|].
    rewrite <-Hid in Hc.
    rewrite (op_bind_Ok _ _ _ _ _ _ (ctl_put EPOLL_CTL_MOD i h' m _ k' Hi Hc)).
    destruct (put_slot m i h' k' Hm Hi) as [Hok Hf].
    { unfold slot_ok. cbn. rewrite Hid. split_and!; [|done|done].
      apply elem_of_seqZ. apply elem_of_seqZ in He'. lia. }
    { intros d' Hne; apply Hothers; lia. }
    eexists _, _. split; [reflexivity|]. split; [exact Hok|]. intros d' k1. rewrite Hf, Hid. cbn [h' h_ready h_events h_second andb].
    destruct (decide (d' = d)) as [->|Hne]; [|by rewrite decide_False by tauto].
    rewrite Hat, Hhas. destruct (decide (k1 = k)) as [->|Hk1].
    + rewrite bool_decide_true by done. by rewrite decide_True.
    + rewrite bool_decide_false by done. by rewrite decide_False by tauto.
Qed.

#[export] Instance epoller_ImuxLaws : ImuxLaws (epoller K).
Proof. split; [intros m k d o Hm [Hd _]; by apply epoller_set_ok|apply epoller_reset_ok]. Qed.
End epoller_laws.

Lemma FD_ISSET_spec d s : FD_ISSET d s = true ↔ d ∈ s.
Proof. apply bool_decide_eq_true. Qed.

Lemma shrink_tight fds n : match shrink fds n with O => True | S n' => ∃ k, Z.of_nat n' ∈ fds k end.
Proof.
  induction n as [|n IH]; [done|]. cbn [shrink].
  destruct (FD_ISSET (Z.of_nat n) (fds ReadK)) eqn:Hr; [by exists ReadK; apply FD_ISSET_spec|].
  destruct (FD_ISSET (Z.of_nat n) (fds WriteK)) eqn:Hw; [by exists WriteK; apply FD_ISSET_spec|].
  destruct (FD_ISSET (Z.of_nat n) (fds UrgentK)) eqn:Hu; [by exists UrgentK; apply FD_ISSET_spec|]. done.
Qed.

Lemma shrink_covers fds n :
  (∀ k d, d ∈ fds k → 0 <= d < Z.of_nat n) → ∀ k d, d ∈ fds k → d < Z.of_nat (shrink fds n).
Proof.
  induction n as [|n IH]; intros Hn; [intros k d Hd; apply Hn in Hd; simpl; lia|]. cbn [shrink].
  destruct (negb _ && _ && _) eqn:Hall; [|intros k d Hd; apply Hn in Hd; lia].
  apply IH. intros k d Hd. pose proof (Hn k d Hd) as Hlt.
  assert (d ≠ Z.of_nat n); [|lia]. intros ->. apply FD_ISSET_spec in Hd.
  destruct k; rewrite Hd in Hall; simpl in Hall; rewrite ?andb_false_r in Hall; done.
Qed.

Lemma upd_same {A} k (x : A) f : upd k x f k = x.
Proof. unfold upd. by rewrite decide_True. Qed.
Lemma upd_other {A} k k' (x : A) f : k' ≠ k → upd k x f k' = f k'.
Proof. intros Hk. unfold upd. by rewrite decide_False. Qed.

(** Changing the member [i] of the sets keeps the size in step with them. *)
Lemma set_fd_size_ok hs fds (m : selector) i (st : bool) :
  (∀ k d, d ∈ fds k → 0 <= d) →
  (∀ k d, d ≠ Z.of_nat i → d ∈ fds k ↔ d ∈ s_fds m k) →
  (∀ k d, d ∈ s_fds m k → d < Z.of_nat (_fd_size m)) →
  match _fd_size m with O => True | S n => ∃ k, Z.of_nat n ∈ s_fds m k end →
  (if st then ∃ k, Z.of_nat i ∈ fds k else ∀ k, Z.of_nat i ∈ fds k → Z.of_nat i ∈ s_fds m k) →
  let m' := _set_fd_size i st (Selector hs fds (_fd_size m)) in
  s_handlers m' = hs ∧ s_fds m' = fds ∧
  (∀ k d, d ∈ fds k → d < Z.of_nat (_fd_size m')) ∧
  match _fd_size m' with O => True | S n => ∃ k, Z.of_nat n ∈ fds k end.
Proof.
  intros Hpos Hsame Hlt Htight Hset m'. subst m'. unfold _set_fd_size. cbn [_fd_size s_handlers s_fds].
  destruct st.
  - destruct (Nat.ltb_spec (_fd_size m) (S i)); cbn [_fd_size s_handlers s_fds]; split_and!; try done.
    + intros k d Hd. destruct (decide (d = Z.of_nat i)) as [->|Hne]; [lia|]. apply Hsame, Hlt in Hd; [lia|done].
    + intros k d Hd. destruct (decide (d = Z.of_nat i)) as [->|Hne]; [lia|]. apply Hsame, Hlt in Hd; [lia|done].
    + destruct (_fd_size m) as [|n]; [done|]. destruct Htight as [k Hk].
      destruct (decide (n = i)) as [->|Hne]; [done|]. exists k. apply Hsame; [lia|done].
  - destruct (Nat.eqb_spec (S i) (_fd_size m)) as [E|Hne]; cbn [_fd_size s_handlers s_fds]; split_and!; try done.
    + apply shrink_covers. intros k d Hd. split; [by eapply Hpos|].
      destruct (decide (d = Z.of_nat i)) as [->|Hne]; [lia|]. apply Hsame, Hlt in Hd; [lia|done].
    + apply shrink_tight.
    + intros k d Hd. destruct (decide (d = Z.of_nat i)) as [->|Hne']; [by eapply Hlt, Hset|].
      by apply Hsame, Hlt in Hd.
    + destruct (_fd_size m) as [|n]; [done|]. destruct Htight as [k Hk]. exists k. apply Hsame; [lia|done].
Qed.

Lemma selector_set_ok (m : selector) k d mh :
  mux_ok m → 0 <= d < FD_SETSIZE →
  ∃ r m', selector_set k d mh m = (Ok r, m', []) ∧ mux_ok m' ∧
    ∀ d' k', interest m' d' k' = if decide (d' = d ∧ k' = k) then mh else interest m d' k'.
Proof.
  intros (Hfds & Hlt & Hlen & Htight) Hd. unfold selector_set.
  rewrite (proj2 (Z.ltb_ge d 0)), (proj2 (Z.leb_gt FD_SETSIZE d)) by lia. cbn [orb]. cbv zeta.
  set (i := Z.to_nat d). assert (Z.of_nat i = d) as Hid by lia.
  set (hs := upd k (<[i := mh]> (resized (None : observer) (S i) (s_handlers m k))) (s_handlers m)).
  set (fds := upd k (match mh with None => s_fds m k ∖ {[ d ]} | Some _ => s_fds m k ∪ {[ d ]} end) (s_fds m) : kind → gset Z).
  assert (∀ k', (length (hs k') ≤ Z.to_nat FD_SETSIZE)%nat) as Hlen'.
  { intros k'. unfold hs, upd. pose proof (Hlen k). case_decide; [|apply Hlen].
    rewrite length_insert, length_resized. lia. }
  assert (∀ k' d', d' ∈ fds k' ↔ if decide (d' = d ∧ k' = k) then is_Some mh else d' ∈ s_fds m k') as Hin.
  { intros k' d'. unfold fds, upd. destruct (decide (k' = k)) as [->|Hk].
    - destruct (decide (d' = d)) as [->|Hne].
      + rewrite decide_True by done. unfold is_Some. destruct mh; set_solver.
      + rewrite decide_False by tauto. destruct mh; set_solver.
    - by rewrite decide_False by tauto. }
  pose proof (set_fd_size_ok hs fds m i (bool_decide (mh ≠ None))) as Hsize.
  destruct Hsize as (Hh & Hf & Hlt' & Htight'); try done.
  { intros k' d' Hd'%Hin. case_decide; [lia|]. apply Hfds in Hd'. lia. }
  { intros k' d' Hne. rewrite Hin, decide_False; [done|lia]. }
  { case_bool_decide as Hmh.
    - exists k. rewrite Hin, decide_True by (split; [lia|done]). by apply not_eq_None_Some.
    - intros k'. rewrite Hin. case_decide; [|done]. intros [o Ho]. congruence. }
  eexists _, _. split; [reflexivity|].
  assert (∀ d' k', (if d' <? 0 then None else default None (hs k' !! Z.to_nat d'))
    = if decide (d' = d ∧ k' = k) then mh else if d' <? 0 then None else default None (s_handlers m k' !! Z.to_nat d')) as Hint.
  { intros d' k'. destruct (Z.ltb_spec d' 0); [rewrite decide_False by lia; done|].
    unfold hs, upd. destruct (decide (k' = k)) as [->|Hk]; [|by rewrite decide_False by tauto].
    destruct (decide (d' = d)) as [->|Hne].
    - rewrite decide_True by done. fold i. rewrite list_lookup_insert_eq by (rewrite length_resized; lia). done.
    - rewrite decide_False by tauto. rewrite list_lookup_insert_ne by lia. rewrite resized_lookup.
      case_decide; [done|]. rewrite (proj2 (lookup_ge_None (s_handlers m k) _)) by lia. by case_decide. }
  split.
  - unfold mux_ok, selector_Imux. rewrite Hh, Hf. split_and!; [|done|done|done].
    intros k' d'. rewrite Hin. split.
    + intros Hd'. case_decide as Heq.
      * destruct Heq as [-> ->]. split; [done|]. destruct Hd' as [o ->]. exists o. unfold hs. rewrite upd_same.
        fold i. rewrite list_lookup_insert_eq by (rewrite length_resized; lia). done.
      * apply Hfds in Hd' as (Hr & o & Ho). split; [done|]. exists o. unfold hs, upd.
        destruct (decide (k' = k)) as [->|Hk]; [|done]. rewrite list_lookup_insert_ne by (intros E; apply Heq; split; [lia|done]).
        rewrite resized_lookup, decide_True; [done|]. by eapply lookup_lt_Some.
    + intros (Hr & o & Ho). assert ((if d' <? 0 then None else default None (hs k' !! Z.to_nat d')) = Some o) as Hio.
      { rewrite (proj2 (Z.ltb_ge d' 0)) by lia. by rewrite Ho. }
      rewrite Hint in Hio. case_decide; [by exists o|]. rewrite (proj2 (Z.ltb_ge d' 0)) in Hio by lia.
      apply Hfds. split; [done|]. exists o. destruct (s_handlers m k' !! Z.to_nat d'); simpl in Hio; congruence.
  - intros d' k'. unfold interest, selector_Imux. rewrite Hh. apply Hint.
Qed.

#[export] Instance selector_ImuxLaws : ImuxLaws selector.
Proof.
  split.
  - intros m k d o Hm [Hd Hl] _. by apply selector_set_ok.
  - intros m k d o Hm Ho. apply selector_set_ok; [done|]. unfold interest, selector_Imux in Ho.
    destruct (Z.ltb_spec d 0); [done|]. destruct Hm as (_ & _ & Hlen & _). specialize (Hlen k).
    destruct (s_handlers m k !! Z.to_nat d) eqn:Hl; [|done]. apply lookup_lt_Some in Hl. unfold FD_SETSIZE in *. lia.
Qed.

(** ** Properties *)

(** What a client does, and what it is meant to achieve: who is told of
    which readiness. *)
Inductive mux_cmd := Set_handler (k : kind) (d : Z) (o : nat) | Reset_handler (k : kind) (d : Z).

Definition run_cmd {M} `{Imux M} (c : mux_cmd) : mux_op M :=
  match c with
  | Set_handler k d o => set_handler k d (Some o)
  | Reset_handler k d => reset_handler k d
  end.
Fixpoint run_cmds {M} `{Imux M} (cs : list mux_cmd) : prog Empty_set M unit :=
  match cs with
  | [] => mret tt
  | c :: cs => run_cmd c;; run_cmds cs
  end.

Abbreviation interests := (Z → kind → observer).

(** One observer watches a descriptor; what is reset was set. *)
Inductive spec_run : interests → list mux_cmd → interests → Prop :=
  | run_nil s s' : (∀ d k, s' d k = s d k) → spec_run s [] s'
  | run_set s k d o cs s' : 0 <= d < FD_SETSIZE → (∀ k', s d k' = None ∨ s d k' = Some o) →
      spec_run (λ d' k', if decide (d' = d ∧ k' = k) then Some o else s d' k') cs s' →
      spec_run s (Set_handler k d o :: cs) s'
  | run_reset s k d o cs s' : s d k = Some o →
      spec_run (λ d' k', if decide (d' = d ∧ k' = k) then None else s d' k') cs s' →
      spec_run s (Reset_handler k d :: cs) s'.

Lemma run_cmds_ok {M} `{ImuxLaws M} s cs s' (m : M) :
  (∀ d, 0 <= d < FD_SETSIZE → watchable (M := M) d) →
  mux_ok m → (∀ d k, interest m d k = s d k) → spec_run s cs s' →
  ∃ m', run_cmds cs m = (Ok tt, m', []) ∧ mux_ok m' ∧ ∀ d k, interest m' d k = s' d k.
Proof.
  intros Hw Hm Hi Hrun. revert m Hm Hi. induction Hrun as [s s' Hs|s k d o cs s' Hd Ho _ IH|s k d o cs s' Ho _ IH];
    intros m Hm Hi.
  - exists m. split; [done|]. split; [done|]. intros d k. by rewrite Hs.
  - destruct (set_ok m k d o Hm (Hw d Hd)) as (r & m1 & E & Hm1 & Hi1); [by intros k'; rewrite Hi|].
    destruct (IH m1 Hm1) as (m' & E' & Hm' & Hi'); [intros d' k'; by rewrite Hi1, Hi|].
    exists m'. split; [|done]. cbn [run_cmds run_cmd]. by rewrite (op_bind_Ok _ _ _ _ _ _ E), E'.
  - destruct (reset_ok m k d o Hm) as (r & m1 & E & Hm1 & Hi1); [by rewrite Hi|].
    destruct (IH m1 Hm1) as (m' & E' & Hm' & Hi'); [intros d' k'; by rewrite Hi1, Hi|].
    exists m'. split; [|done]. cbn [run_cmds run_cmd]. by rewrite (op_bind_Ok _ _ _ _ _ _ E), E'.
Qed.

Definition new_epoller {K} (k : K) : epoller K := Epoller k [].
Definition new_selector : selector := Selector (λ _, []) (λ _, ∅) 0.



(** [epoller::select] calls an observer that no longer asks to be called:
    the flags of a descriptor are looked at once per event, so a descriptor
    that is ready for both is told [ready_write] although its observer reset
    every handler when it was told [ready_read]; and the events of errors are
    not compared with the flags at all. *)
Theorem epoller_calls_after_reset :
  let run (c : call) (m : epoller (gmap Z Z)) :=
    match c_callback c with
    | ready_read => (run_cmds [Reset_handler ReadK (c_desc c); Reset_handler WriteK (c_desc c)] m).1.2
    | _ => m
    end in
  let m0 := (run_cmds [Set_handler ReadK 5 1; Set_handler WriteK 5 1] (new_epoller ∅)).1.2 in
  let m1 := run (Call (Some 1%nat) ready_read 5) m0 in
  (∀ k, interest m1 5 k = None) ∧
  epoller_select run (Events [(Z.lor EPOLLIN EPOLLOUT, 5); (EPOLLERR, 5)]) m0
  = (Ok true, m1, [Call (Some 1%nat) ready_read 5; Call (Some 1%nat) ready_write 5; Call (Some 1%nat) ready_error 5]).
Proof. split; [by intros []|vm_compute; reflexivity]. Qed.
