(* ===== verification/MuxFilter.v ===== *)
(** * MuxFilter: a connection and its multiplexer

    [fas/mux/mux_filter.hpp] with the classes it is built from and on: the
    descriptor holders and system calls ([fas/adv/io/ad_file.hpp],
    [fas/system/system.hpp]), the buffered reader and writer
    ([ad_binary_read.hpp], [ad_binary_write.hpp]), [fas/filter/binary_filter.hpp],
    [fas/inet/connection.hpp] and [fas/inet/pooled_item.hpp]. *)

From S2P Require Import Prelude Hoare Mux.

(** ** The state and what the world sees of it *)

(** The codes that [system::read] and [system::write] tell apart. *)
Inductive errno := EWOULDBLOCK | EAGAIN | EINTR | EBADF | EFAULT | EINVAL | ENOMEM | ENOTCONN | ENOTSOCK | Other_errno.

(** Results of the system calls: [::write] takes at most so many bytes,
    [::read] returns at most these. *)
Inductive os_write := Took (n : nat) | Write_failed (e : errno).
Inductive os_read := Got (d : bytes) | Read_failed (e : errno).

(** The first six are what the kernel is told; [Free] is the return to
    the pool; the others are calls of advices that the user of the filter
    may define. *)
Inductive event :=
  | Sent (d : bytes)
  | Close (d : Z)
  | Socket (d : Z) | Nonblock (d : Z) | Keepalive (d : Z) | Shutdown (d : Z)
  | Free
  | Cleaned
  | On_read (d : bytes) | On_rclosed | On_rerror
  | On_writing (d : bytes) | On_write (n : Z) | On_wclosed | On_werror
  | On_assign | On_release
  | On_ready_read | On_ready_write
  | On_connection_assign | On_connection_close
  | On_client_connect | On_client_connected.

(** [writes] and [reads] are what the next system calls will return; when
    they are used up the calls would block.  [ext] is the state of the classes
    that are derived from the connection, the rest its own. *)
(* src: fas/mux/mux_filter.hpp 839-848 mux_filter_base *)
Record mux_filter (M X : Type) := Mux_filter {
  rd : Z;  wd : Z;
  r_status : bool;  w_status : bool;
  r_buffer : bytes;  r_lock : bool;  r_clear : bool;
  w_buffer : bytes;
  mux : option M;
  swh_count : Z;
  recursive : Z;
  mux_read : bool;  mux_write : bool;  mux_urgent : bool;
  released : bool;  releasing : bool;
  closed : bool;
  writes : list os_write;
  reads : list os_read;
  ext : X;
}.
Arguments Mux_filter {M X} _ _ _ _ _ _ _ _ _ _ _ _ _ _ _ _ _ _ _ _.
Arguments rd {M X} _.
Arguments wd {M X} _.
Arguments r_status {M X} _.
Arguments w_status {M X} _.
Arguments r_buffer {M X} _.
Arguments r_lock {M X} _.
Arguments r_clear {M X} _.
Arguments w_buffer {M X} _.
Arguments mux {M X} _.
Arguments swh_count {M X} _.
Arguments recursive {M X} _.
Arguments mux_read {M X} _.
Arguments mux_write {M X} _.
Arguments mux_urgent {M X} _.
Arguments released {M X} _.
Arguments releasing {M X} _.
Arguments closed {M X} _.
Arguments writes {M X} _.
Arguments reads {M X} _.
Arguments ext {M X} _.

Section setters.
Context {M X : Type}.
Definition set_rd (v : Z) (s : mux_filter M X) : mux_filter M X :=
  Mux_filter v (wd s) (r_status s) (w_status s) (r_buffer s) (r_lock s) (r_clear s) (w_buffer s) (mux s) (swh_count s) (recursive s) (mux_read s) (mux_write s) (mux_urgent s) (released s) (releasing s) (closed s) (writes s) (reads s) (ext s).
Definition set_wd (v : Z) (s : mux_filter M X) : mux_filter M X :=
  Mux_filter (rd s) v (r_status s) (w_status s) (r_buffer s) (r_lock s) (r_clear s) (w_buffer s) (mux s) (swh_count s) (recursive s) (mux_read s) (mux_write s) (mux_urgent s) (released s) (releasing s) (closed s) (writes s) (reads s) (ext s).
Definition set_r_status (v : bool) (s : mux_filter M X) : mux_filter M X :=
  Mux_filter (rd s) (wd s) v (w_status s) (r_buffer s) (r_lock s) (r_clear s) (w_buffer s) (mux s) (swh_count s) (recursive s) (mux_read s) (mux_write s) (mux_urgent s) (released s) (releasing s) (closed s) (writes s) (reads s) (ext s).
Definition set_w_status (v : bool) (s : mux_filter M X) : mux_filter M X :=
  Mux_filter (rd s) (wd s) (r_status s) v (r_buffer s) (r_lock s) (r_clear s) (w_buffer s) (mux s) (swh_count s) (recursive s) (mux_read s) (mux_write s) (mux_urgent s) (released s) (releasing s) (closed s) (writes s) (reads s) (ext s).
Definition set_r_buffer (v : bytes) (s : mux_filter M X) : mux_filter M X :=
  Mux_filter (rd s) (wd s) (r_status s) (w_status s) v (r_lock s) (r_clear s) (w_buffer s) (mux s) (swh_count s) (recursive s) (mux_read s) (mux_write s) (mux_urgent s) (released s) (releasing s) (closed s) (writes s) (reads s) (ext s).
Definition set_r_lock (v : bool) (s : mux_filter M X) : mux_filter M X :=
  Mux_filter (rd s) (wd s) (r_status s) (w_status s) (r_buffer s) v (r_clear s) (w_buffer s) (mux s) (swh_count s) (recursive s) (mux_read s) (mux_write s) (mux_urgent s) (released s) (releasing s) (closed s) (writes s) (reads s) (ext s).
Definition set_r_clear (v : bool) (s : mux_filter M X) : mux_filter M X :=
  Mux_filter (rd s) (wd s) (r_status s) (w_status s) (r_buffer s) (r_lock s) v (w_buffer s) (mux s) (swh_count s) (recursive s) (mux_read s) (mux_write s) (mux_urgent s) (released s) (releasing s) (closed s) (writes s) (reads s) (ext s).
Definition set_w_buffer (v : bytes) (s : mux_filter M X) : mux_filter M X :=
  Mux_filter (rd s) (wd s) (r_status s) (w_status s) (r_buffer s) (r_lock s) (r_clear s) v (mux s) (swh_count s) (recursive s) (mux_read s) (mux_write s) (mux_urgent s) (released s) (releasing s) (closed s) (writes s) (reads s) (ext s).
Definition set_mux (v : option M) (s : mux_filter M X) : mux_filter M X :=
  Mux_filter (rd s) (wd s) (r_status s) (w_status s) (r_buffer s) (r_lock s) (r_clear s) (w_buffer s) v (swh_count s) (recursive s) (mux_read s) (mux_write s) (mux_urgent s) (released s) (releasing s) (closed s) (writes s) (reads s) (ext s).
Definition set_swh_count (v : Z) (s : mux_filter M X) : mux_filter M X :=
  Mux_filter (rd s) (wd s) (r_status s) (w_status s) (r_buffer s) (r_lock s) (r_clear s) (w_buffer s) (mux s) v (recursive s) (mux_read s) (mux_write s) (mux_urgent s) (released s) (releasing s) (closed s) (writes s) (reads s) (ext s).
Definition set_recursive (v : Z) (s : mux_filter M X) : mux_filter M X :=
  Mux_filter (rd s) (wd s) (r_status s) (w_status s) (r_buffer s) (r_lock s) (r_clear s) (w_buffer s) (mux s) (swh_count s) v (mux_read s) (mux_write s) (mux_urgent s) (released s) (releasing s) (closed s) (writes s) (reads s) (ext s).
Definition set_mux_read (v : bool) (s : mux_filter M X) : mux_filter M X :=
  Mux_filter (rd s) (wd s) (r_status s) (w_status s) (r_buffer s) (r_lock s) (r_clear s) (w_buffer s) (mux s) (swh_count s) (recursive s) v (mux_write s) (mux_urgent s) (released s) (releasing s) (closed s) (writes s) (reads s) (ext s).
Definition set_mux_write (v : bool) (s : mux_filter M X) : mux_filter M X :=
  Mux_filter (rd s) (wd s) (r_status s) (w_status s) (r_buffer s) (r_lock s) (r_clear s) (w_buffer s) (mux s) (swh_count s) (recursive s) (mux_read s) v (mux_urgent s) (released s) (releasing s) (closed s) (writes s) (reads s) (ext s).
Definition set_mux_urgent (v : bool) (s : mux_filter M X) : mux_filter M X :=
  Mux_filter (rd s) (wd s) (r_status s) (w_status s) (r_buffer s) (r_lock s) (r_clear s) (w_buffer s) (mux s) (swh_count s) (recursive s) (mux_read s) (mux_write s) v (released s) (releasing s) (closed s) (writes s) (reads s) (ext s).
Definition set_released (v : bool) (s : mux_filter M X) : mux_filter M X :=
  Mux_filter (rd s) (wd s) (r_status s) (w_status s) (r_buffer s) (r_lock s) (r_clear s) (w_buffer s) (mux s) (swh_count s) (recursive s) (mux_read s) (mux_write s) (mux_urgent s) v (releasing s) (closed s) (writes s) (reads s) (ext s).
Definition set_releasing (v : bool) (s : mux_filter M X) : mux_filter M X :=
  Mux_filter (rd s) (wd s) (r_status s) (w_status s) (r_buffer s) (r_lock s) (r_clear s) (w_buffer s) (mux s) (swh_count s) (recursive s) (mux_read s) (mux_write s) (mux_urgent s) (released s) v (closed s) (writes s) (reads s) (ext s).
Definition set_closed (v : bool) (s : mux_filter M X) : mux_filter M X :=
  Mux_filter (rd s) (wd s) (r_status s) (w_status s) (r_buffer s) (r_lock s) (r_clear s) (w_buffer s) (mux s) (swh_count s) (recursive s) (mux_read s) (mux_write s) (mux_urgent s) (released s) (releasing s) v (writes s) (reads s) (ext s).
Definition set_writes (v : list os_write) (s : mux_filter M X) : mux_filter M X :=
  Mux_filter (rd s) (wd s) (r_status s) (w_status s) (r_buffer s) (r_lock s) (r_clear s) (w_buffer s) (mux s) (swh_count s) (recursive s) (mux_read s) (mux_write s) (mux_urgent s) (released s) (releasing s) (closed s) v (reads s) (ext s).
Definition set_reads (v : list os_read) (s : mux_filter M X) : mux_filter M X :=
  Mux_filter (rd s) (wd s) (r_status s) (w_status s) (r_buffer s) (r_lock s) (r_clear s) (w_buffer s) (mux s) (swh_count s) (recursive s) (mux_read s) (mux_write s) (mux_urgent s) (released s) (releasing s) (closed s) (writes s) v (ext s).
Definition set_ext (v : X) (s : mux_filter M X) : mux_filter M X :=
  Mux_filter (rd s) (wd s) (r_status s) (w_status s) (r_buffer s) (r_lock s) (r_clear s) (w_buffer s) (mux s) (swh_count s) (recursive s) (mux_read s) (mux_write s) (mux_urgent s) (released s) (releasing s) (closed s) (writes s) (reads s) v.
End setters.

(** The class that a connection is part of: [derived_release] is its
    override of [release], given the one it overrides; [X] is what it adds to
    the state. *)
Class Derived (M X : Type) := {
  derived_release : prog event (mux_filter M X) bool → prog event (mux_filter M X) bool
}.

(** Every object that a server creates goes back to its pool. *)
(* src: fas/inet/pooled_item.hpp 30-37 pooled_item::release *)
#[export] Instance pooled_item {M} : Derived M unit := {|
  derived_release super := r ← super; if r : bool then op_emit Free;; mret true else mret false
|}.

Section filter.
Context {M X : Type} `{Imux M} `{Derived M X}.

(** The observer that this object is. *)
Variable self : nat.

Abbreviation io := (prog event (mux_filter M X)).

(** An operation of the multiplexer, which has no events of its own. *)
Definition on_mux {A} (op : prog Empty_set M A) : io unit := λ s,
  match mux s with
  | None => (Ok tt, s, [])
  | Some m => match op m with
    | (Ok _, m', _) => (Ok tt, set_mux (Some m') s, [])
    | (Throw x, m', _) => (Throw x, set_mux (Some m') s, [])
    | (Undef, m', _) => (Undef, s, [])
    | (NoFuel, m', _) => (NoFuel, s, [])
    end
  end.

(** ** System calls *)

Definition next_write : io os_write := λ s,
  match writes s with
  | [] => (Ok (Write_failed EAGAIN), s, [])
  | r :: rs => (Ok r, set_writes rs s, [])
  end.
Definition next_read : io os_read := λ s,
  match reads s with
  | [] => (Ok (Read_failed EAGAIN), s, [])
  | r :: rs => (Ok r, set_reads rs s, [])
  end.

(** What [read] and [write] make of an error. *)
(* src: fas/system/system.hpp 78-91 read *)
Definition system_failed (e : errno) (message : string) : io Z :=
  match e with
  | EWOULDBLOCK | EAGAIN | EINTR => mret (-1)
  | EBADF | EFAULT | EINVAL | ENOMEM | ENOTCONN | ENOTSOCK => op_lift (Throw (runtime_error (str message)))
  | Other_errno => mret 0
  end.

(* src: fas/system/system.hpp 71-93 read *)
Definition system_read (s : nat) : io (Z * bytes) :=
  r ← next_read;
  match r with
  | Got d => mret (Z.of_nat (length (take s d)), take s d)
  | Read_failed e => rt ← system_failed e "fas::system::read/_read: "; mret (rt, [])
  end.

(* src: fas/system/system.hpp 96-120 write *)
Definition system_write (d : bytes) : io Z :=
  r ← next_write;
  match r with
  | Took n => op_emit (Sent (take n d));; mret (Z.of_nat (length (take n d)))
  | Write_failed e => system_failed e "fas::system::_write/write: "
  end.

(* src: fas/adv/io/ad_file.hpp 56-75 ad_file_read::operator() *)
Definition ad_file_read (s : nat) : io (Z * bytes) :=
  '(rt, d) ← system_read s;
  (if rt =? 0 then op_modify (set_r_status false) else mret tt);;
  mret (rt, d).

(* src: fas/adv/io/ad_file.hpp 122-147 ad_file_write::operator() *)
Definition ad_file_write (d : bytes) : io Z :=
  rt ← system_write d;
  (if rt =? 0 then op_modify (set_w_status false) else mret tt);;
  mret rt.

(** ** The buffered writer *)

(* src: fas/adv/io/ad_binary_write.hpp 45-76 ad_binary_write::operator() *)
Definition ad_binary_write (d : bytes) : io Z :=
  rs ← ad_file_write d;
  (if rs =? 0 then op_emit On_wclosed
   else if 0 <? rs then op_emit (On_write rs)
   else op_emit On_werror);;
  mret rs.

Definition size (d : bytes) : Z := Z.of_nat (length d).

(** The parameter [S] of [ad_buf_binary_write], which the filter leaves 0. *)
Definition S_ : Z := 0.

(* src: fas/adv/io/ad_binary_write.hpp 145-184 ad_buf_binary_write::operator() *)
Definition buf_write (d : bytes) : io Z :=
  b ← op_get w_buffer;
  (if negb (size b =? 0) || (size d <=? S_) then op_modify (set_w_buffer (b ++ d)) else mret tt);;
  b ← op_get w_buffer;
  if size b =? 0 then
    rt ← ad_binary_write d;
    (if (0 <? rt) && (rt <? size d) then op_modify (set_w_buffer (drop (Z.to_nat rt) d))
     else if rt <? 0 then op_modify (set_w_buffer d)
     else mret tt);;
    mret rt
  else if S_ <? size b then
    rt ← ad_binary_write b;
    (if rt =? size b then op_modify (set_w_buffer [])
     else if 0 <? rt then op_modify (set_w_buffer (drop (Z.to_nat rt) b))
     else if rt =? 0 then op_modify (set_w_buffer [])
     else mret tt);;
    mret rt
  else mret S_.

(** Unlike the other, it keeps the buffer when the peer has closed. *)
(* src: fas/adv/io/ad_binary_write.hpp 190-212 ad_buf_binary_write::operator() *)
Definition buf_flush : io Z :=
  b ← op_get w_buffer;
  if size b =? 0 then mret (-1)
  else
    rt ← ad_binary_write b;
    (if rt =? size b then op_modify (set_w_buffer [])
     else if 0 <? rt then op_modify (set_w_buffer (drop (Z.to_nat rt) b))
     else mret tt);;
    mret rt.

(* src: fas/adv/io/ad_binary_write.hpp 119-124 ad_buf_binary_write::clear *)
Definition writer_clear : io unit := op_modify (set_w_buffer []).
(* src: fas/adv/io/ad_binary_write.hpp 135-135 ad_buf_binary_write::ready *)
Definition ready (s : mux_filter M X) : bool := negb (size (w_buffer s) =? 0).

(** ** The buffered reader *)

(** The default [S] of [ad_buf_binary_read]. *)
Definition read_size : nat := 4096.

(* src: fas/adv/io/ad_binary_read.hpp 104-117 ad_buf_binary_read::clear *)
Definition reader_clear : io unit :=
  locked ← op_get r_lock;
  if locked : bool then op_modify (set_r_clear true)
  else op_modify (set_r_buffer []);; op_modify (set_r_clear false).

(* src: fas/adv/io/ad_binary_read.hpp 217-223 ad_buf_binary_read::_unlock_buffer *)
Definition _unlock_buffer : io unit :=
  op_modify (λ s, set_r_clear false (set_r_lock false
    (if r_lock s && r_clear s then set_r_buffer [] s else s))).

(** ** Releasing *)

(* src: fas/filter/binary_filter.hpp 425-439 binary_filter::_release *)
Definition binary_filter_release : io unit :=
  reader_clear;; writer_clear;; op_emit Cleaned;; op_emit On_release.

(* src: fas/mux/mux_filter.hpp 619-636 mux_filter_base::_set_write_handler *)
Definition _set_write_handler : io unit :=
  s ← op_get id;
  if bool_decide (is_Some (mux s)) && w_status s then
    (if negb (mux_write s) then on_mux (set_handler WriteK (wd s) (Some self)) else mret tt);;
    op_modify (λ s, set_swh_count (swh_count s + 1) (set_mux_write true s))
  else mret tt.

(* src: fas/mux/mux_filter.hpp 638-655 mux_filter_base::_reset_write_handler *)
Definition _reset_write_handler (all : bool) : io unit :=
  s ← op_get id;
  if bool_decide (is_Some (mux s)) && (0 <? swh_count s) then
    if (swh_count s =? 1) || all then
      op_modify (λ s, set_swh_count 0 (set_mux_write false s));;
      on_mux (reset_handler WriteK (wd s))
    else op_modify (λ s, set_swh_count (swh_count s - 1) s)
  else mret tt.

(* src: fas/mux/mux_filter.hpp 658-668 mux_filter_base::_reset_urgent_handler *)
Definition _reset_urgent_handler : io unit :=
  s ← op_get id;
  if bool_decide (is_Some (mux s)) && mux_urgent s then
    op_modify (set_mux_urgent false);; on_mux (reset_handler UrgentK (rd s))
  else mret tt.

(* src: fas/mux/mux_filter.hpp 569-617 mux_filter_base::_release *)
Definition mux_filter_release : io bool :=
  already ← op_get released;
  if already : bool then mret false
  else
    op_modify (set_released true);;
    s ← op_get id;
    (if mux_read s && bool_decide (is_Some (mux s)) then
       on_mux (reset_handler ReadK (rd s));; op_modify (set_mux_read false)
     else mret tt);;
    _reset_urgent_handler;;
    op_modify (set_r_status false);;
    s ← op_get id;
    (if mux_write s && bool_decide (is_Some (mux s)) then
       if negb (releasing s) && ready s then
         op_modify (λ s, set_releasing true (set_released false s))
       else
         _reset_write_handler true;;
         op_modify (λ s, set_releasing false (set_w_status false s))
     else mret tt);;
    done ← op_get released;
    (if done : bool then binary_filter_release else mret tt);;
    op_get released.

(** [::close] of a descriptor that is open succeeds. *)
(* src: fas/inet/connection.hpp 217-237 connection::_close *)
Definition connection_close : io unit :=
  s ← op_get id;
  if negb (closed s) then
    op_emit (Close (rd s));;
    (if negb (rd s =? wd s) then op_emit (Close (wd s)) else mret tt);;
    op_modify (λ s, set_closed true (set_w_status false (set_r_status false s)));;
    op_emit On_connection_close
  else mret tt.

(* src: fas/inet/connection.hpp 361-370 mux_connection_base::_release *)
Definition mux_connection_release : io bool :=
  r ← mux_filter_release;
  if r : bool then connection_close;; mret true else mret false.

(** [release], which is virtual. *)
Definition release : io bool := derived_release mux_connection_release.

(** ** Writing *)

(* src: fas/mux/mux_filter.hpp 763-785 mux_filter_base::_set_write_handler_if_ready *)
Definition _set_write_handler_if_ready : io unit :=
  s ← op_get id;
  if released s then mret tt
  else if w_status s then
    if ready s then _set_write_handler
    else
      _reset_write_handler false;;
      going ← op_get releasing;
      if going : bool then release;; mret tt else mret tt
  else release;; mret tt.

Definition release_if (b : mux_filter M X → bool) : io unit :=
  s ← op_get id;
  if b s && negb (releasing s) && negb (released s) then release;; mret tt else mret tt.

(* src: fas/mux/mux_filter.hpp 706-729 mux_filter_base::_write *)
Definition _write (d : bytes) : io Z :=
  s ← op_get id;
  if releasing s then mret 0
  else if negb (w_status s) then _reset_write_handler true;; mret 0
  else
    op_emit (On_writing d);;
    rt ← buf_write d;
    _set_write_handler_if_ready;;
    release_if (λ s, negb (w_status s));;
    mret rt.

(** The variant without data: what the buffer holds is written. *)
(* src: fas/mux/mux_filter.hpp 731-757 mux_filter_base::_write *)
Definition _write_buffered : io Z :=
  s ← op_get id;
  if negb (w_status s) then _reset_write_handler true;; mret 0
  else
    rt ← (if ready s then buf_flush else mret 0);
    _set_write_handler_if_ready;;
    release_if (λ s, negb (w_status s));;
    mret rt.

(** ** The callbacks of the multiplexer *)

(** What the handlers of the data that was read do to the connection: they
    write, release, or throw. *)
Inductive action := A_write (d : bytes) | A_release | A_throw (x : exn).

Definition act (a : action) : io unit :=
  match a with
  | A_write d => _write d;; mret tt
  | A_release => release;; mret tt
  | A_throw x => op_lift (Throw x)
  end.
Fixpoint act_all (l : list action) : io unit :=
  match l with [] => mret tt | a :: l => act a;; act_all l end.

(** [on_read] tells what the handlers do with the data. *)
Variable on_read : bytes → list action.

(* src: fas/adv/io/ad_binary_read.hpp 48-71 ad_binary_read::operator() *)
Definition ad_binary_read (s : nat) : io Z :=
  '(rs, d) ← ad_file_read s;
  (if rs =? 0 then op_emit On_rclosed
   else if 0 <? rs then
     op_modify (λ s, set_r_buffer (d ++ drop (length d) (r_buffer s)) s);;
     op_emit (On_read d);; act_all (on_read d)
   else op_emit On_rerror);;
  mret rs.

(** [_buffer.resize(S)] fills with zeros. *)
(* src: fas/adv/io/ad_binary_read.hpp 189-208 ad_buf_binary_read::operator() *)
Definition buf_read : io Z :=
  op_modify (λ s, set_r_lock true (set_r_buffer (take read_size (r_buffer s ++ replicate read_size NUL)) s));;
  rt ← op_rethrow (ad_binary_read read_size) _unlock_buffer;
  _unlock_buffer;;
  mret rt.

(* src: fas/mux/mux_filter.hpp 695-704 mux_filter_base::_read *)
Definition _read : io Z :=
  rt ← buf_read;
  release_if (λ s, negb (r_status s));;
  mret rt.

(** The frame of the four callbacks: a call for another descriptor and a
    nested call are errors; an exception releases the connection twice and
    is thrown on. *)
(* src: fas/mux/mux_filter.hpp 55-64 ad_exception::operator() *)
Definition ad_exception : io unit := release;; release;; mret tt.

(* src: fas/mux/mux_filter.hpp 499-535 mux_filter_base::_ready_error *)
Definition in_callback (bad_descriptor : mux_filter M X → bool) (body : io unit) : io unit :=
  op_rethrow
    (s ← op_get id;
     if bad_descriptor s then op_lift (Throw (logic_error (str "mux_filter: The difference between the descriptors ")))
     else if negb (recursive s =? 0) then op_lift (Throw (logic_error (str "recursive call forbidden")))
     else
       op_modify (λ s, set_recursive (recursive s + 1) s);;
       op_rethrow body (op_modify (λ s, set_recursive (recursive s - 1) s));;
       op_modify (λ s, set_recursive (recursive s - 1) s))
    ad_exception.

(* src: fas/mux/mux_filter.hpp 402-433 mux_filter_base::_ready_read *)
Definition _ready_read (d : Z) : io unit :=
  in_callback (λ s, negb (d =? rd s)) (op_emit On_ready_read;; _read;; mret tt).

(* src: fas/mux/mux_filter.hpp 435-465 mux_filter_base::_ready_write *)
Definition _ready_write (d : Z) : io unit :=
  in_callback (λ s, negb (d =? wd s)) (_write_buffered;; op_emit On_ready_write).

(** The advices of urgent data and of errors are [ad_release]. *)
(* src: fas/mux/mux_filter.hpp 467-497 mux_filter_base::_ready_urgent *)
Definition _ready_urgent (d : Z) : io unit :=
  in_callback (λ s, negb (d =? wd s) || negb (d =? rd s)) (release;; mret tt).
(* src: fas/mux/mux_filter.hpp 499-535 mux_filter_base::_ready_error *)
Definition _ready_error (d : Z) : io unit :=
  in_callback (λ s, negb (d =? wd s) || negb (d =? rd s)) (release;; mret tt).

(** ** A new descriptor *)

(* src: fas/filter/binary_filter.hpp 406-423 binary_filter::_assign *)
Definition binary_filter_assign (rd wd : Z) : io unit :=
  op_modify (λ s, set_w_status true (set_wd wd (set_r_status true (set_rd rd s))));;
  reader_clear;; writer_clear;; op_emit Cleaned;; op_emit On_assign.

(* src: fas/mux/mux_filter.hpp 537-567 mux_filter_base::_assign *)
Definition mux_filter_assign (rd wd : Z) : io unit :=
  s ← op_get id; (if negb (released s) then release;; mret tt else mret tt);;
  s ← op_get id; (if negb (released s) then release;; mret tt else mret tt);;
  op_modify (λ s, set_released false (set_releasing false s));;
  binary_filter_assign rd wd;;
  s ← op_get id;
  if bool_decide (is_Some (mux s)) && r_status s then
    on_mux (set_handler ReadK rd (Some self));;
    _set_write_handler_if_ready;;
    op_modify (set_mux_read true)
  else mret tt.

(* src: fas/inet/connection.hpp 188-215 connection::_assign *)
Definition connection_assign (rd wd : Z) : io unit :=
  op_modify (set_closed false);;
  mux_filter_assign rd wd;;
  op_emit On_connection_assign;;
  op_modify (λ s, set_closed (negb (negb (released s))) s);;
  s ← op_get id;
  if closed s then op_emit On_connection_close else mret tt.
End filter.
