(* ===== verification/MuxFilterSpec.v ===== *)
(** * MuxFilterSpec: the life of a connection

    What happens to a connection between two assignments of a descriptor,
    whatever the system calls return and whatever the handlers of the data
    do: it is in one of four phases, the bytes go out in the order in which
    they were given, and the descriptor is closed and the object returned to
    the pool once. *)

From S2P Require Import Prelude Hoare Mux MuxFilter.

(** ** Histories *)

Definition sent (h : list event) : bytes := concat (omap (λ e, match e with Sent d => Some d | _ => None end) h).
Definition given (h : list event) : bytes := concat (omap (λ e, match e with On_writing d => Some d | _ => None end) h).
(** How often a descriptor was opened and closed and the object returned. *)
Definition is_end (e : event) : bool := match e with Socket _ | Close _ | Free => true | _ => false end.
Definition ends (h : list event) : list event := filter (λ e, is_end e = true) h.

Lemma sent_app h h' : sent (h ++ h') = sent h ++ sent h'.
Proof. unfold sent. by rewrite omap_app, concat_app. Qed.
Lemma given_app h h' : given (h ++ h') = given h ++ given h'.
Proof. unfold given. by rewrite omap_app, concat_app. Qed.
Lemma ends_app h h' : ends (h ++ h') = ends h ++ ends h'.
Proof. apply filter_app. Qed.

(** ** Derived classes

    What an override of [release] has to keep to: it lets a soft release be
    soft, and once the connection is closed it changes nothing but its own
    part of the state.  [at_rest]: the derived class has nothing under way;
    [given_back]: what it does last, as [ends] sees it. *)
Class DerivedLaws (M X : Type) `{Derived M X} := {
  at_rest : X → Prop;
  ended : X → X;
  end_events : X → list event;
  given_back : list event;
  ended_at_rest x : at_rest x → at_rest (ended x);
  end_events_neutral x : sent (end_events x) = [] ∧ given (end_events x) = [] ∧ ends (end_events x) = given_back;
  derived_soft (super : prog event (mux_filter M X) bool) s s1 ev :
    at_rest (ext s) → ext s1 = ext s → super s = (Ok false, s1, ev) → derived_release super s = (Ok false, s1, ev);
  derived_ended (super : prog event (mux_filter M X) bool) s s1 ev :
    at_rest (ext s) → ext s1 = ext s → released s1 = true → closed s1 = true → super s = (Ok true, s1, ev) →
    derived_release super s = (Ok true, set_ext (ended (ext s)) s1, ev ++ end_events (ext s));
}.

Arguments given_back M X {_ _}.

#[export] Instance pooled_item_laws {M} : DerivedLaws M unit.
Proof.
  refine {| at_rest _ := True; ended x := x; end_events _ := [Free]; given_back := [Free] |}; [done|done|..].
  - intros super s s1 ev _ _ E. cbn. rewrite (op_bind_Ok _ _ _ _ _ _ E). cbn. by rewrite app_nil_r.
  - intros super s s1 ev _ _ _ _ E. cbn. rewrite (op_bind_Ok _ _ _ _ _ _ E). cbn. destruct s1 as [? ? ? ? ? ? ? ? ? ? ? ? ? ? ? ? ? ? ? x], (ext s), x. done.
Defined.

(** ** Phases *)

Section life.
Context {M Ext : Type} `{ImuxLaws M} `{DerivedLaws M Ext} (self : nat) (d : Z) (b : bool) (n : Z).
Hypothesis Hd : watchable (M := M) d.

Abbreviation state := (mux_filter M Ext).

Definition asks (s : state) (k : kind) : bool :=
  match k with ReadK => mux_read s | WriteK => mux_write s | UrgentK => false end.

(** The multiplexer knows exactly what the flags of the object say. *)
Record wired (s : state) : Prop := {
  wired_mux : ∃ m, mux s = Some m ∧ mux_ok m ∧ ∀ k, interest m d k = if asks s k then Some self else None;
  wired_desc : rd s = d ∧ wd s = d;
  wired_urgent : mux_urgent s = false;
  wired_count : 0 <= swh_count s ∧ mux_write s = (0 <? swh_count s);
  wired_rest : at_rest (ext s);
}.

Inductive phase := Active | Draining | Stuck | Done.

(** [Active]: open for both directions.  [Draining]: released, with data left
    to write.  [Stuck]: released with data left, but the peer is gone.
    [Done]: closed and in the pool. *)
Definition in_phase (p : phase) (h : list event) (s : state) : Prop :=
  match p with
  | Active => released s = false ∧ releasing s = false ∧ closed s = false ∧ w_status s = true ∧ mux_read s = true ∧
      (b = true → r_status s = true) ∧ (w_buffer s ≠ [] → mux_write s = true) ∧ sent h ++ w_buffer s = given h ∧ ends h = []
  | Draining => released s = false ∧ releasing s = true ∧ closed s = false ∧ r_status s = false ∧ w_status s = true ∧
      mux_read s = false ∧ mux_write s = true ∧ w_buffer s ≠ [] ∧ sent h ++ w_buffer s = given h ∧ ends h = []
  | Stuck => released s = false ∧ releasing s = true ∧ closed s = false ∧ r_status s = false ∧ w_status s = false ∧
      mux_read s = false ∧ sent h `prefix_of` given h ∧ ends h = []
  | Done => released s = true ∧ closed s = true ∧ r_status s = false ∧ w_status s = false ∧
      mux_read s = false ∧ mux_write s = false ∧ w_buffer s = [] ∧ sent h `prefix_of` given h ∧ ends h = Close d :: given_back M Ext
  end.

(** [n] callbacks are running; [b] says that the end of the incoming data
    was not seen. *)
Definition life (p : phase) (h : list event) (s : state) : Prop :=
  wired s ∧ recursive s = n ∧ in_phase p h s.
Definition alive (h : list event) (s : state) : Prop := ∃ p, life p h s.

(** What an exception leaves: the last data may be lost. *)
Definition broken (h : list event) (s : state) : Prop :=
  wired s ∧ recursive s = n ∧ released s = false ∧ closed s = false ∧ sent h `prefix_of` given h ∧ ends h = [].
Definition thrown (h : list event) (s : state) : Prop := alive h s ∨ broken h s.

(** ** Operations of the multiplexer *)

Lemma on_mux_set (s : state) k m :
  mux s = Some m → mux_ok m → (∀ k', interest m d k' = None ∨ interest m d k' = Some self) →
  ∃ m', on_mux (set_handler k d (Some self)) s = (Ok tt, set_mux (Some m') s, []) ∧ mux_ok m' ∧
    ∀ k', interest m' d k' = if decide (k' = k) then Some self else interest m d k'.
Proof.
  intros Hm Hok Hi. destruct (set_ok m k d self Hok Hd Hi) as (r & m' & E & Hok' & Hi').
  exists m'. unfold on_mux. rewrite Hm, E. split; [done|]. split; [done|]. intros k'. rewrite Hi'.
  destruct (decide (k' = k)); [by rewrite decide_True|by rewrite decide_False by tauto].
Qed.

Lemma on_mux_reset (s : state) k m :
  mux s = Some m → mux_ok m → interest m d k = Some self →
  ∃ m', on_mux (reset_handler k d) s = (Ok tt, set_mux (Some m') s, []) ∧ mux_ok m' ∧
    ∀ k', interest m' d k' = if decide (k' = k) then None else interest m d k'.
Proof.
  intros Hm Hok Hi. destruct (reset_ok m k d self Hok Hi) as (r & m' & E & Hok' & Hi').
  exists m'. unfold on_mux. rewrite Hm, E. split; [done|]. split; [done|]. intros k'. rewrite Hi'.
  destruct (decide (k' = k)); [by rewrite decide_True|by rewrite decide_False by tauto].
Qed.

(** Changes of the other components keep a state wired. *)
Lemma wired_same (s s' : state) :
  wired s → mux s' = mux s → rd s' = rd s → wd s' = wd s → mux_urgent s' = mux_urgent s →
  mux_read s' = mux_read s → mux_write s' = mux_write s → swh_count s' = swh_count s → ext s' = ext s → wired s'.
Proof.
  intros [(m & Hm & Hok & Hi) [Hr Hw] Hu [Hp Hc] He] E1 E2 E3 E4 E5 E6 E7 E8.
  split; [|split; congruence|congruence|rewrite E6, E7; done|by rewrite E8].
  exists m. split; [congruence|]. split; [done|]. intros k. rewrite Hi. destruct k; simpl; by rewrite ?E5, ?E6.
Qed.

(** ** Releasing, step by step *)

(** What is left the same by the steps of a release. *)
Definition same_rest (s s' : state) : Prop :=
  rd s' = rd s ∧ wd s' = wd s ∧ recursive s' = recursive s ∧ mux_urgent s' = mux_urgent s ∧ ext s' = ext s ∧ closed s' = closed s.

Lemma reset_read (s : state) :
  wired s → ∃ s', (if mux_read s && bool_decide (is_Some (mux s)) then
      on_mux (reset_handler ReadK (rd s));; op_modify (set_mux_read false) else mret tt : prog event state unit) s
    = (Ok tt, s', []) ∧ wired s' ∧ same_rest s s' ∧ mux_read s' = false ∧ mux_write s' = mux_write s ∧
    released s' = released s ∧ releasing s' = releasing s ∧ w_status s' = w_status s ∧ w_buffer s' = w_buffer s.
Proof.
  intros [(m & Hm & Hok & Hi) [Hr Hw] Hu [Hp Hc] He].
  rewrite bool_decide_true by (rewrite Hm; eauto). rewrite andb_true_r. destruct (mux_read s) eqn:Hmr.
  - destruct (on_mux_reset s ReadK m Hm Hok) as (m' & E & Hok' & Hi'); [by rewrite Hi; simpl; rewrite Hmr|].
    rewrite Hr, (op_bind_Ok _ _ _ _ _ _ E). eexists. split; [reflexivity|]. split_and!; try done.
    split; [|done..]. exists m'. split; [done|]. split; [done|]. intros k. rewrite Hi', Hi. by destruct k.
  - exists s. split; [done|]. split_and!; try done. split; [|done..]. eauto.
Qed.

Lemma reset_write (s : state) all :
  wired s → ∃ s', _reset_write_handler all s = (Ok tt, s', []) ∧ wired s' ∧ same_rest s s' ∧
    (all = true → mux_write s' = false) ∧ (mux_write s = false → mux_write s' = false) ∧
    swh_count s' = (if all then 0 else Z.max 0 (swh_count s - 1)) ∧
    mux_read s' = mux_read s ∧ released s' = released s ∧ releasing s' = releasing s ∧
    w_status s' = w_status s ∧ r_status s' = r_status s ∧ w_buffer s' = w_buffer s.
Proof.
  intros [(m & Hm & Hok & Hi) [Hr Hw] Hu [Hp Hc] He]. unfold _reset_write_handler. rewrite op_get_bind. cbn [id].
  rewrite bool_decide_true by (rewrite Hm; eauto). cbn [andb].
  destruct (0 <? swh_count s) eqn:Hpos.
  - apply Z.ltb_lt in Hpos as Hpos'. destruct ((swh_count s =? 1) || all) eqn:Hlast.
    + rewrite op_modify_bind. set (s1 := set_swh_count 0 (set_mux_write false s)).
      destruct (on_mux_reset s1 WriteK m Hm Hok) as (m' & E & Hok' & Hi'); [by rewrite Hi; simpl; rewrite Hc|].
      rewrite Hw, E. eexists. split; [reflexivity|]. split_and!; try done.
      * split; [|done..]. exists m'. split; [done|]. split; [done|]. intros k. rewrite Hi', Hi. by destruct k.
      * destruct all; [done|]. rewrite orb_false_r in Hlast. cbn. lia.
    + eexists. split; [reflexivity|]. rewrite orb_false_iff in Hlast. destruct Hlast as [Hne ->]. split_and!; try done.
      * split; [by exists m|done|done| |done]. apply Z.eqb_neq in Hne. assert ((0 <? swh_count s - 1) = true) by (apply Z.ltb_lt; lia).
        cbn. split; [lia|congruence].
      * cbn. lia.
  - exists s. split; [done|]. split_and!; try done.
    + split; [by exists m|done|done| |done]. split; [done|congruence].
    + apply Z.ltb_ge in Hpos. destruct all; lia.
Qed.

Lemma binary_filter_release_run (s : state) :
  wired s → ∃ s', binary_filter_release s = (Ok tt, s', [Cleaned; On_release]) ∧ wired s' ∧ same_rest s s' ∧
    w_buffer s' = [] ∧ mux_read s' = mux_read s ∧ mux_write s' = mux_write s ∧ released s' = released s ∧
    r_status s' = r_status s ∧ w_status s' = w_status s.
Proof.
  intros Hs. unfold binary_filter_release, reader_clear, writer_clear.
  destruct (r_lock s) eqn:Hl; (eexists; split; [unfold mbind, op_bind, op_get, op_modify, op_emit; cbn; rewrite Hl; reflexivity|]);
    (split; [by apply (wired_same s)|]); done.
Qed.

Lemma mux_filter_release_run (s : state) :
  wired s → released s = false →
  ∃ s', wired s' ∧ same_rest s s' ∧ r_status s' = false ∧ mux_read s' = false ∧
    if negb (releasing s) && ready s && mux_write s then
      mux_filter_release s = (Ok false, s', []) ∧ released s' = false ∧ releasing s' = true ∧
      w_status s' = w_status s ∧ mux_write s' = true ∧ w_buffer s' = w_buffer s
    else
      mux_filter_release s = (Ok true, s', [Cleaned; On_release]) ∧ released s' = true ∧ mux_write s' = false ∧
      w_buffer s' = [].
Proof.
  intros Hs Hrel. unfold mux_filter_release. rewrite op_get_bind, Hrel. cbn iota. rewrite op_modify_bind, op_get_bind.
  cbn [id]. set (s0 := set_released true s). assert (wired s0) as Hs0 by (by apply (wired_same s)).
  destruct (reset_read s0 Hs0) as (s1 & E1 & Hs1 & Hsame1 & Hr1 & Hw1 & Hrel1 & Hing1 & Hws1 & Hb1).
  rewrite (op_bind_Ok _ _ _ _ _ _ E1). cbn beta iota.
  assert (_reset_urgent_handler s1 = (Ok tt, s1, [])) as E2.
  { unfold _reset_urgent_handler. rewrite op_get_bind. cbn [id]. rewrite (wired_urgent s1 Hs1). by rewrite andb_false_r. }
  rewrite (op_bind_Ok _ _ _ _ _ _ E2). cbn beta iota. rewrite op_modify_bind, op_get_bind. cbn [id].
  set (s2 := set_r_status false s1). assert (wired s2) as Hs2 by (by apply (wired_same s1)).
  destruct (wired_mux s2 Hs2) as (m2 & Hm2 & _). rewrite bool_decide_true by (rewrite Hm2; eauto).
  rewrite andb_true_r. change (mux_write s2) with (mux_write s1). rewrite Hw1. change (mux_write s0) with (mux_write s).
  change (releasing s2) with (releasing s1). rewrite Hing1. change (releasing s0) with (releasing s).
  assert (released s2 = true) as Hrel2 by exact Hrel1. assert (mux_read s2 = false) as Hr2 by exact Hr1.
  assert (r_status s2 = false) as Hrs2 by done. assert (same_rest s s2) as Hsame2 by exact Hsame1.
  assert (mux_write s2 = mux_write s) as Hw2 by exact Hw1.
  assert (ready s2 = ready s) as -> by (unfold ready; cbn [s2 set_r_status w_buffer]; by rewrite Hb1).
  assert (∀ s3 : state, wired s3 → released s3 = true → mux_read s3 = false → mux_write s3 = false → r_status s3 = false →
    same_rest s s3 → ∃ s', wired s' ∧ same_rest s s' ∧ r_status s' = false ∧ mux_read s' = false ∧
      (done ← op_get released; (if done : bool then binary_filter_release else mret tt);; op_get released) s3
      = (Ok true, s', [Cleaned; On_release]) ∧ released s' = true ∧ mux_write s' = false ∧ w_buffer s' = []) as Hend.
  { intros s3 Hs3 Hr3 Hmr3 Hmw3 Hrs3 Hsame3. rewrite op_get_bind, Hr3. cbn iota.
    destruct (binary_filter_release_run s3 Hs3) as (s4 & E4 & Hs4 & Hsame4 & Hb4 & Hmr4 & Hmw4 & Hrel4 & Hrs4 & _).
    exists s4. split; [done|]. split; [unfold same_rest in *; naive_solver congruence|]. split; [congruence|]. split; [congruence|].
    rewrite (op_bind_Ok _ _ _ _ _ _ E4). unfold op_get. rewrite Hrel4, Hr3. split; [done|]. split; [done|]. split; [congruence|done]. }
  destruct (mux_write s) eqn:Hmw; [rewrite andb_true_r; destruct (negb (releasing s) && ready s) eqn:Hsoft|rewrite andb_false_r].
  - exists (set_releasing true (set_released false s2)).
    split; [by apply (wired_same s2)|]. split; [exact Hsame1|]. split; [done|]. split; [done|].
    rewrite op_modify_bind, op_get_bind. split; [done|]. split; [done|]. split; [done|].
    split; [done|]. split; [by cbn; rewrite Hw1|done].
  - destruct (reset_write s2 true Hs2) as (s3 & E3 & Hs3 & Hsame3 & Hmw3 & _ & _ & Hmr3 & Hrel3 & _ & _ & Hrs3 & _).
    set (s4 := set_releasing false (set_w_status false s3)).
    assert ((_reset_write_handler true;; op_modify (λ s, set_releasing false (set_w_status false s))) s2 = (Ok tt, s4, [])) as E4
      by (by rewrite (op_bind_Ok _ _ _ _ _ _ E3)).
    destruct (Hend s4) as (s' & ? & ? & ? & ? & E5 & ? & ? & ?);
      [by apply (wired_same s3)|cbn; congruence|cbn; congruence|by apply Hmw3|cbn; congruence| |].
    { unfold same_rest in *. cbn in *. naive_solver congruence. }
    exists s'. rewrite (op_bind_Ok _ _ _ _ _ _ E4). by rewrite E5.
  - destruct (Hend s2) as (s' & ? & ? & ? & ? & E5 & ? & ? & ?); try done; [cbn; congruence..|].
    exists s'. rewrite op_ret_bind_at. by rewrite E5.
Qed.

Lemma release_run (s : state) :
  wired s → released s = false → closed s = false →
  ∃ s', wired s' ∧ recursive s' = recursive s ∧ r_status s' = false ∧ mux_read s' = false ∧
    if negb (releasing s) && ready s && mux_write s then
      release s = (Ok false, s', []) ∧ released s' = false ∧ closed s' = false ∧ releasing s' = true ∧
      w_status s' = w_status s ∧ mux_write s' = true ∧ w_buffer s' = w_buffer s
    else
      release s = (Ok true, s', [Cleaned; On_release; Close d; On_connection_close] ++ end_events (ext s)) ∧
      released s' = true ∧ closed s' = true ∧ w_status s' = false ∧ mux_write s' = false ∧ w_buffer s' = [].
Proof.
  intros Hs Hrel Hcl. destruct (mux_filter_release_run s Hs Hrel) as (s1 & Hs1 & (Hrd & Hwd & Hrec & _ & Hext & Hcl1) & Hrs & Hmr & Hrun).
  unfold release. destruct (negb _ && _ && _).
  - destruct Hrun as (E & ? & ? & ? & ? & ?). exists s1.
    split; [done|]. split; [done|]. split; [done|]. split; [done|].
    assert (mux_connection_release s = (Ok false, s1, [])) as E3.
    { unfold mux_connection_release. by rewrite (op_bind_Ok _ _ _ _ _ _ E). }
    rewrite (derived_soft _ _ _ _ (wired_rest s Hs) Hext E3). split_and!; try done; congruence.
  - destruct Hrun as (E & Hrel1 & Hmw1 & Hb1). set (s2 := set_closed true (set_w_status false (set_r_status false s1))).
    assert (connection_close s1 = (Ok tt, s2, [Close d; On_connection_close])) as E2.
    { unfold connection_close. rewrite op_get_bind. cbn [id]. rewrite Hcl1, Hcl. cbn [negb].
      destruct (wired_desc s1 Hs1) as [-> ->]. by rewrite Z.eqb_refl. }
    exists (set_ext (ended (ext s)) s2).
    split. { destruct Hs1 as [? ? ? ? _]. split; try done. apply ended_at_rest, Hs. }
    split; [done|]. split; [done|]. split; [done|].
    assert (mux_connection_release s = (Ok true, s2, [Cleaned; On_release; Close d; On_connection_close])) as E3.
    { unfold mux_connection_release. rewrite (op_bind_Ok _ _ _ _ _ _ E). cbn iota. by rewrite (op_bind_Ok _ _ _ _ _ _ E2). }
    unfold release. rewrite (derived_ended _ s s2 _ (wired_rest s Hs) Hext Hrel1 eq_refl E3). by split_and!.
Qed.

Lemma release_done (s : state) : wired s → released s = true → release s = (Ok false, s, []).
Proof.
  intros Hs Hr. apply (derived_soft _ s s []); [apply Hs|done|].
  unfold mux_connection_release, mux_filter_release, mbind, op_bind, op_get. by rewrite Hr.
Qed.

(** The events of an end, whatever class ends. *)
Lemma end_history x h :
  ends h = [] → let h' := h ++ [Cleaned; On_release; Close d; On_connection_close] ++ end_events x in
  sent h' = sent h ∧ given h' = given h ∧ ends h' = Close d :: given_back M Ext.
Proof.
  intros He h'. subst h'. destruct (end_events_neutral x) as (E1 & E2 & E3).
  rewrite !sent_app, !given_app, !ends_app, He, E1, E2, E3. cbn. by rewrite !app_nil_r.
Qed.

Lemma prefix_given h l : sent h ++ l = given h → sent h `prefix_of` given h.
Proof. intros <-. by exists l. Qed.

Lemma ready_spec (s : state) : ready s = true ↔ w_buffer s ≠ [].
Proof. unfold ready, size. destruct (w_buffer s); simpl; naive_solver. Qed.

(** A connection that is not released, nothing being said of its buffer as
    long as the peer is there. *)
Definition opened (h : list event) (s : state) : Prop :=
  wired s ∧ recursive s = n ∧ released s = false ∧ releasing s = false ∧ closed s = false ∧
  (w_status s = true → sent h ++ w_buffer s = given h) ∧ sent h `prefix_of` given h ∧ ends h = [].

Definition gone (r : bool) (h : list event) (s : state) : Prop :=
  if r then life Done h s else life Draining h s ∨ life Stuck h s.

Lemma release_opened R : triple (opened) release (gone) R.
Proof.
  intros h s (Hs & Hrec & Hrel & Hing & Hcl & Heq & Hpre & Hends).
  destruct (release_run s Hs Hrel Hcl) as (s' & Hs' & Hrec' & Hrs & Hmr & Hrun).
  destruct (negb _ && _ && _) eqn:Hsoft.
  - destruct Hrun as (-> & Hrel' & Hcl' & Hing' & Hws & Hmw & Hb). rewrite !andb_true_iff, ready_spec in Hsoft.
    destruct Hsoft as [[_ Hne] _]. rewrite app_nil_r. cbn [gone].
    destruct (w_status s) eqn:Hw; [left|right]; (split; [done|]); (split; [congruence|]); cbn.
    + rewrite Hb. specialize (Heq eq_refl). naive_solver.
    + naive_solver.
  - destruct Hrun as (-> & ? & ? & ? & ? & ?). cbn. split; [done|]. split; [congruence|]. cbn.
    destruct (end_history (ext s) h Hends) as (E1 & E2 & E3). cbn in E1, E2, E3. rewrite E1, E2, E3. naive_solver.
Qed.

(** The second release is final. *)
Lemma release_twice R :
  triple (λ h s, thrown h s ∧ releasing s = true ∧ released s = false) release (λ _, life Done) R.
Proof.
  intros h s (Ht & Hing & Hrel).
  assert (broken h s) as (Hs & Hrec & _ & Hcl & Hpre & Hends).
  { destruct Ht as [[p (Hs & Hrec & Hp)]|Ht]; [|done]. unfold broken.
    destruct p; cbn in Hp; destruct_and? Hp; try congruence; split_and!; eauto using prefix_given. }
  destruct (release_run s Hs Hrel Hcl) as (s' & Hs' & Hrec' & Hrs & Hmr & Hrun).
  rewrite Hing in Hrun. cbn [negb andb] in Hrun. destruct Hrun as (-> & ? & ? & ? & ? & ?).
  split; [done|]. split; [congruence|]. cbn.
  destruct (end_history (ext s) h Hends) as (E1 & E2 & E3). cbn in E1, E2, E3. rewrite E1, E2, E3. naive_solver.
Qed.

(** ** Writing *)

(** Between the system call and the bookkeeping behind it. *)
Definition between (h : list event) (s : state) : Prop :=
  wired s ∧ recursive s = n ∧ released s = false ∧ closed s = false ∧
  (if releasing s then r_status s = false ∧ mux_read s = false else mux_read s = true ∧ (b = true → r_status s = true)) ∧
  (w_status s = true → sent h ++ w_buffer s = given h) ∧ sent h `prefix_of` given h ∧ ends h = [].

Lemma between_opened h s : between h s → releasing s = false → opened h s.
Proof. unfold between, opened. intros Hb Hr. naive_solver. Qed.
Lemma between_broken h s : between h s → broken h s.
Proof. unfold between, broken. naive_solver. Qed.

Lemma release_between R : triple between release (λ _, alive) R.
Proof.
  intros h s Hs. destruct (releasing s) eqn:Hing.
  - pose proof (release_twice R h s) as Ht. cbn beta in Ht.
    assert (released s = false) as Hrel by apply Hs.
    specialize (Ht (conj (or_intror (between_broken h s Hs)) (conj Hing Hrel))).
    destruct (release s) as [[[r| | |] s'] ev]; try done. by exists Done.
  - pose proof (release_opened R h s (between_opened h s Hs Hing)) as Ht.
    destruct (release s) as [[[[]| | |] s'] ev]; try done; cbn [gone] in Ht; [by exists Done|].
    destruct Ht; [by exists Draining|by exists Stuck].
Qed.

(** The system call changes the status and uses up its result. *)
Lemma ad_binary_write_run (l : bytes) (s : state) :
  ∃ ws st ev, given ev = [] ∧ ends ev = [] ∧
    ((∃ rt, ad_binary_write l s = (Ok rt, set_w_status st (set_writes ws s), ev) ∧ rt <= size l ∧
        sent ev = take (Z.to_nat rt) l ∧ st = (if rt =? 0 then false else w_status s)) ∨
     (∃ x, ad_binary_write l s = (Throw x, set_w_status st (set_writes ws s), ev) ∧ sent ev = [] ∧ st = w_status s)).
Proof.
  unfold ad_binary_write, ad_file_write, system_write, next_write, size, mbind, op_bind.
  destruct s as [? ? ? ws0 ? ? ? ? ? ? ? ? ? ? ? ? ? [|[k|er] rs] ?]; cbn -[take Z.of_nat].
  - exists [], ws0, [On_werror]. split; [done|]. split; [done|]. left. exists (-1). split_and!; [done|lia|done|done].
  - assert (length (take k l) ≤ length l)%nat as Hle by (rewrite length_take; lia).
    assert (take (length (take k l)) l = take k l) as Htt.
    { rewrite length_take. destruct (decide (k ≤ length l)%nat); [by rewrite Nat.min_l by lia|rewrite Nat.min_r by lia; by rewrite !take_ge by lia]. }
    destruct (take k l) as [|x r] eqn:Htk.
    + exists rs, false, [Sent []; On_wclosed]. split; [done|]. split; [done|]. left. exists 0. split_and!; [done|lia|done|done].
    + exists rs, ws0, [Sent (x :: r); On_write (Z.of_nat (length (x :: r)))]. split; [done|]. split; [done|]. left.
      exists (Z.of_nat (length (x :: r))). split_and!; [done|lia| |done].
      unfold sent. cbn -[take Z.of_nat length]. by rewrite app_nil_r, Nat2Z.id.
  - destruct er; cycle 9.
    { exists rs, false, [On_wclosed]. split; [done|]. split; [done|]. left. exists 0. split_and!; [done|lia|done|done]. }
    1-3: exists rs, ws0, [On_werror]; (split; [done|]); (split; [done|]); left; exists (-1); split_and!; [done|lia|done|done].
    all: exists rs, ws0, []; (split; [done|]); (split; [done|]); right; by eexists.
Qed.

(** What a write of [l] did: [X] is left in the buffer, [st] is the status. *)
Definition wrote (l : bytes) (r : res Z * state * list event) (s : state) : Prop :=
  ∃ X st ws ev, given ev = [] ∧ ends ev = [] ∧
    ((∃ rt, r = (Ok rt, set_w_buffer X (set_w_status st (set_writes ws s)), ev) ∧
        (st = true → w_status s = true ∧ sent ev ++ X = l) ∧ sent ev `prefix_of` l) ∨
     (∃ x, r = (Throw x, set_w_buffer X (set_w_status st (set_writes ws s)), ev) ∧ sent ev = [])).

Lemma taken_cases (l X : bytes) rt st0 :
  rt <= size l → (rt =? 0) = false → X = drop (Z.to_nat rt) l →
  ((if rt =? 0 then false else st0) = true → st0 = true ∧ take (Z.to_nat rt) l ++ X = l) ∧
  take (Z.to_nat rt) l `prefix_of` l.
Proof.
  intros Hle Hz ->. split; [intros Hst; rewrite Hz in Hst; by rewrite take_drop|].
  exists (drop (Z.to_nat rt) l). by rewrite take_drop.
Qed.

Lemma take_size (l : bytes) : drop (Z.to_nat (size l)) l = [].
Proof. unfold size. by rewrite Nat2Z.id, drop_all. Qed.

Lemma set_same_buffer (s : state) ws st X : w_buffer s = X →
  set_w_buffer X (set_w_status st (set_writes ws s)) = set_w_status st (set_writes ws s).
Proof. intros <-. by destruct s. Qed.

Lemma buf_flush_run (s : state) : wrote (w_buffer s) (buf_flush s) s.
Proof.
  unfold buf_flush. rewrite op_get_bind. destruct (size (w_buffer s) =? 0) eqn:Hz.
  - exists (w_buffer s), (w_status s), (writes s), []. split; [done|]. split; [done|]. left. exists (-1).
    split; [by destruct s|]. split; [done|]. apply prefix_nil.
  - destruct (ad_binary_write_run (w_buffer s) s) as (ws & st & ev & Hg & He & [(rt & E & Hle & Hsent & Hst)|(x & E & Hsent & Hst)]).
    + rewrite (op_bind_Ok _ _ _ _ _ _ E). unfold wrote.
      destruct (Z.eqb_spec rt (size (w_buffer s))) as [->|Hne]; [|destruct (Z.ltb_spec 0 rt) as [Hp|Hn]].
      * rewrite op_modify_bind. exists [], st, ws, ev. split; [done|]. split; [done|]. left. eexists. split; [cbn; by rewrite app_nil_r|].
        subst st. rewrite Hsent. apply taken_cases; [lia|done|by rewrite take_size].
      * rewrite op_modify_bind. exists (drop (Z.to_nat rt) (w_buffer s)), st, ws, ev. split; [done|]. split; [done|]. left. eexists.
        split; [cbn; by rewrite app_nil_r|]. subst st. rewrite Hsent. apply taken_cases; [lia| |done]. by apply Z.eqb_neq; lia.
      * rewrite op_ret_bind_at. exists (w_buffer s), st, ws, ev. split; [done|]. split; [done|]. left. exists rt.
        split; [cbn; by rewrite app_nil_r, set_same_buffer|]. rewrite Hsent. replace (Z.to_nat rt) with 0%nat by lia.
        rewrite take_0. split; [|apply prefix_nil]. intros ->. by destruct (rt =? 0).
    + unfold mbind, op_bind. rewrite E. exists (w_buffer s), st, ws, ev. split; [done|]. split; [done|]. right. exists x.
      by rewrite set_same_buffer.
Qed.

(** Into an empty buffer, and behind what waits. *)
Lemma buf_write_first (l : bytes) (s : state) : w_buffer s = [] → wrote l (buf_write l s) s.
Proof.
  intros Hw. unfold buf_write, S_. rewrite op_get_bind, Hw.
  change (size [] =? 0) with true. cbn [negb orb].
  assert (((if size l <=? 0 then op_modify (set_w_buffer l) else mret tt) : prog event state unit) s = (Ok tt, s, [])) as E0.
  { destruct (Z.leb_spec (size l) 0); [|done]. unfold op_modify. destruct l; [|unfold size in *; simpl in *; lia].
    destruct s; simpl in *; by subst. }
  rewrite (op_bind_Ok _ _ _ _ _ _ E0). cbn beta iota. rewrite op_get_bind, Hw.
  change (size [] =? 0) with true. cbn iota.
  destruct (ad_binary_write_run l s) as (ws & st & ev & Hg & He & [(rt & E & Hle & Hsent & Hst)|(x & E & Hsent & Hst)]).
  + rewrite (op_bind_Ok _ _ _ _ _ _ E). unfold wrote.
    destruct ((0 <? rt) && (rt <? size l)) eqn:Hpart; [|destruct (Z.ltb_spec rt 0)].
    * rewrite op_modify_bind. exists (drop (Z.to_nat rt) l), st, ws, ev. split; [done|]. split; [done|]. left. eexists.
      split; [cbn; by rewrite app_nil_r|]. subst st. rewrite Hsent. apply taken_cases; [lia| |done]. apply Z.eqb_neq. lia.
    * rewrite op_modify_bind. exists l, st, ws, ev. split; [done|]. split; [done|]. left. exists rt.
      split; [cbn; by rewrite app_nil_r|]. rewrite Hsent. replace (Z.to_nat rt) with 0%nat by lia.
      rewrite take_0. split; [|apply prefix_nil]. intros ->. by destruct (rt =? 0).
    * rewrite op_ret_bind_at. exists [], st, ws, ev. split; [done|]. split; [done|]. left. exists rt.
      split; [cbn; by rewrite app_nil_r, set_same_buffer|]. rewrite Hsent. destruct (Z.eqb_spec rt 0) as [->|Hne].
      { subst st. split; [done|]. apply prefix_nil. }
      assert (rt = size l) as -> by lia. subst st.
      replace (size l =? 0) with false by (symmetry; by apply Z.eqb_neq).
      unfold size. rewrite Nat2Z.id, firstn_all, app_nil_r. done.
  + unfold mbind, op_bind. rewrite E. exists [], st, ws, ev. split; [done|]. split; [done|]. right. exists x.
    by rewrite set_same_buffer.
Qed.

Lemma buf_write_behind (l : bytes) (s : state) : w_buffer s ≠ [] → wrote (w_buffer s ++ l) (buf_write l s) s.
Proof.
  intros Hfull. unfold buf_write, S_. rewrite op_get_bind. destruct (w_buffer s) as [|c w] eqn:Hw; [done|].
  change (size (c :: w) =? 0) with false. cbn [negb orb]. rewrite op_modify_bind.
  set (w' := (c :: w) ++ l). set (s1 := set_w_buffer w' s). rewrite op_get_bind. change (w_buffer s1) with w'.
  change (size w' =? 0) with false. change (0 <? size w') with true. cbn iota.
  destruct (ad_binary_write_run w' s1) as (ws & st & ev & Hg & He & [(rt & E & Hle & Hsent & Hst)|(x & E & Hsent & Hst)]).
  + rewrite (op_bind_Ok _ _ _ _ _ _ E). unfold wrote. change (w_status s1) with (w_status s) in Hst.
    destruct (Z.eqb_spec rt (size w')) as [->|Hne]; [|destruct (Z.ltb_spec 0 rt) as [Hp|Hn];
      [|destruct (Z.eqb_spec rt 0) as [->|Hnz]]].
    * rewrite op_modify_bind. exists [], st, ws, ev. split; [done|]. split; [done|]. left. eexists.
      split; [cbn; by rewrite app_nil_r|]. subst st. rewrite Hsent. apply taken_cases; [lia|done|by rewrite take_size].
    * rewrite op_modify_bind. exists (drop (Z.to_nat rt) w'), st, ws, ev. split; [done|]. split; [done|]. left. eexists.
      split; [cbn; by rewrite app_nil_r|]. subst st. rewrite Hsent. apply taken_cases; [lia| |done]. by apply Z.eqb_neq; lia.
    * rewrite op_modify_bind. exists [], st, ws, ev. split; [done|]. split; [done|]. left. eexists.
      split; [cbn; by rewrite app_nil_r|]. rewrite Hsent. subst st. split; [done|]. apply prefix_nil.
    * rewrite op_ret_bind_at. exists w', st, ws, ev. split; [done|]. split; [done|]. left. exists rt.
      split; [unfold mret, op_ret; by rewrite app_nil_r|]. rewrite Hsent. replace (Z.to_nat rt) with 0%nat by lia.
      rewrite take_0. split; [|apply prefix_nil]. intros ->. by destruct (rt =? 0).
  + unfold mbind, op_bind. rewrite E. exists w', st, ws, ev. split; [done|]. split; [done|]. right. by exists x.
Qed.

Lemma buf_write_run (l : bytes) (s : state) : wrote (w_buffer s ++ l) (buf_write l s) s.
Proof.
  destruct (decide (w_buffer s = [])) as [E|Hne]; [rewrite E; by apply buf_write_first|by apply buf_write_behind].
Qed.

(** The phase but for the status and the bytes. *)
Definition core (h : list event) (s : state) : Prop :=
  wired s ∧ recursive s = n ∧ released s = false ∧ closed s = false ∧
  (if releasing s then r_status s = false ∧ mux_read s = false else mux_read s = true ∧ (b = true → r_status s = true)) ∧
  ends h = [].

Lemma core_between h s : core h s → (w_status s = true → sent h ++ w_buffer s = given h) → sent h `prefix_of` given h →
  between h s.
Proof. unfold core, between. naive_solver. Qed.

Lemma triple_wrote (m : prog event state Z) (l : state → bytes) :
  (∀ s, wrote (l s) (m s) s) →
  triple (λ h s, core h s ∧ w_status s = true ∧ sent h ++ l s = given h) m (λ _, between) broken.
Proof.
  intros Hm h s (Hc & Hst & Heq). destruct (Hm s) as (X & st & ws & ev & Hg & He & Hcase).
  set (s' := set_w_buffer X (set_w_status st (set_writes ws s))) in *.
  assert (core (h ++ ev) s') as Hc'.
  { destruct Hc as (Hw & ? & ? & ? & ? & Hends). split; [by apply (wired_same s)|].
    split_and!; try done. by rewrite ends_app, He, Hends. }
  destruct Hcase as [(rt & -> & Hrt & [y Hy])|(x & -> & Hsent)].
  - apply core_between; [done| |].
    + intros Hst'. destruct (Hrt Hst') as [_ Hl]. cbn. rewrite sent_app, given_app, Hg, <-Heq, app_nil_r, <-Hl.
      by rewrite app_assoc.
    + rewrite sent_app, given_app, Hg, <-Heq, app_nil_r. exists y. by rewrite Hy, app_assoc.
  - destruct Hc' as (? & ? & ? & ? & _ & ?). split_and!; try done.
    rewrite sent_app, given_app, Hsent, Hg, !app_nil_r. by eapply prefix_given.
Qed.

Lemma alive_life p h s : life p h s → alive h s.
Proof. by exists p. Qed.

(** A state whose buffer is registered is in its phase. *)
Lemma between_phase h s :
  between h s → w_status s = true → (w_buffer s ≠ [] → mux_write s = true) →
  (releasing s = true → w_buffer s ≠ []) → alive h s.
Proof.
  intros (Hw & Hrec & Hrel & Hcl & Hing & Heq & Hpre & Hends) Hst Hpend Hne. specialize (Heq Hst).
  destruct (releasing s) eqn:Hr; [exists Draining|exists Active]; (split; [done|]); (split; [done|]); cbn; naive_solver.
Qed.

Lemma set_write_handler_alive R :
  triple (λ h s, between h s ∧ w_status s = true ∧ w_buffer s ≠ []) (_set_write_handler self) (λ _, alive) R.
Proof.
  intros h s (Hb & Hst & Hne). unfold _set_write_handler. rewrite op_get_bind. cbn [id].
  pose proof Hb as (Hw & _). destruct (wired_mux s Hw) as (m & Hm & Hok & Hi).
  rewrite bool_decide_true by (rewrite Hm; eauto). rewrite Hst. cbn [andb]. destruct (wired_desc s Hw) as [Hrd ->].
  assert (∃ s1, (if negb (mux_write s) then on_mux (set_handler WriteK d (Some self)) else mret tt : prog event state unit) s
      = (Ok tt, s1, []) ∧ (∃ m1, s1 = set_mux (Some m1) s ∧ mux_ok m1 ∧
         ∀ k, interest m1 d k = if decide (k = WriteK) then Some self else interest m d k)) as (s1 & E & m1 & -> & Hok1 & Hi1).
  { destruct (mux_write s) eqn:Hmw; cbn [negb].
    - exists s. split; [done|]. exists m. split; [by destruct s; simpl in *; subst|]. split; [done|]. intros k.
      case_decide as Hk; [subst|done]. rewrite Hi. cbn. by rewrite Hmw.
    - destruct (on_mux_set s WriteK m Hm Hok) as (m1 & E & Hok1 & Hi1); [|by eauto 6].
      intros k. rewrite Hi. destruct (asks s k); auto. }
  rewrite (op_bind_Ok _ _ _ _ _ _ E). unfold op_modify. cbn [app]. rewrite app_nil_r.
  set (s' := set_swh_count _ _).
  assert (wired s') as Hw'.
  { split; [|exact (wired_desc s Hw)|exact (wired_urgent s Hw)| |exact (wired_rest s Hw)].
    - exists m1. split; [done|]. split; [done|]. intros k. rewrite Hi1, Hi. by destruct k.
    - destruct (wired_count s Hw) as [Hp _]. cbn. split; [lia|]. symmetry. apply Z.ltb_lt. lia. }
  apply between_phase; [|done|done|done]. destruct Hb as (_ & ? & ? & ? & ? & ? & ? & ?). by split_and!.
Qed.

Lemma write_handler_if_ready_alive R : triple between (_set_write_handler_if_ready self) (λ _, alive) R.
Proof.
  intros h s Hb. unfold _set_write_handler_if_ready. rewrite op_get_bind. cbn [id].
  pose proof Hb as (Hw & Hrec & Hrel & Hcl & Hing & Heq & Hpre & Hends). rewrite Hrel.
  destruct (w_status s) eqn:Hst.
  - destruct (ready s) eqn:Hrd.
    + apply set_write_handler_alive. apply ready_spec in Hrd. done.
    + assert (w_buffer s = []) as Hnil.
      { destruct (w_buffer s) eqn:E; [done|]. exfalso. assert (ready s = true); [|congruence]. apply ready_spec. by rewrite E. }
      destruct (reset_write s false Hw) as (s1 & E & Hs1 & (Hrd1 & Hwd1 & Hrec1 & Hu1 & Hext1 & Hcl1) & _ & _ & _ & Hmr1 & Hrel1 & Hing1 & Hst1 & Hrs1 & Hb1).
      rewrite (op_bind_Ok _ _ _ _ _ _ E), op_get_bind, Hing1.
      assert (between h s1) as Hbt.
      { split; [done|]. rewrite Hing1, Hb1, Hst1. split_and!; try congruence; [by rewrite Hrs1, Hmr1|naive_solver]. }
      destruct (releasing s) eqn:Hr.
      * cbn [app]. pose proof (triple_bind _ _ (λ _, mret tt) _ (λ _, alive) R (release_between R)
          (λ _, triple_ret tt alive (λ _, alive) R (λ h s H, H)) h s1 Hbt) as Ht.
        destruct ((release;; mret tt) s1) as [[[[]| | |] s2] ev2]; cbn [app]; done.
      * unfold mret, op_ret. cbn [app]. rewrite app_nil_r. apply between_phase; [done|congruence|congruence|congruence].
  - exact (triple_bind _ _ (λ _, mret tt) _ (λ _, alive) R (release_between R)
      (λ _, triple_ret tt alive (λ _, alive) R (λ h s H, H)) h s Hb).
Qed.

(** The release behind a write never happens: the bookkeeping has done it. *)
Lemma release_if_w R : triple alive (release_if (λ s, negb (w_status s))) (λ _, alive) R.
Proof.
  intros h s [p (Hw & Hrec & Hp)]. unfold release_if. rewrite op_get_bind. cbn [id].
  replace (negb (w_status s) && negb (releasing s) && negb (released s)) with false;
    [unfold mret, op_ret; rewrite app_nil_r; by exists p|].
  destruct p; cbn in Hp; destruct_and? Hp; repeat match goal with E : _ = _ |- _ => rewrite E; clear E end;
    by rewrite ?andb_false_r.
Qed.

Lemma active_core h s : life Active h s → core h s ∧ w_status s = true ∧ sent h ++ w_buffer s = given h.
Proof.
  intros (Hw & Hrec & Hrel & Hing & Hcl & Hst & Hmr & Hr & _ & Heq & Hends). unfold core. rewrite Hing. by split_and!.
Qed.
Lemma draining_core h s : life Draining h s → core h s ∧ w_status s = true ∧ sent h ++ w_buffer s = given h.
Proof.
  intros (Hw & Hrec & Hrel & Hing & Hcl & Hr & Hst & Hmr & _ & _ & Heq & Hends). unfold core. rewrite Hing. by split_and!.
Qed.

(** Writing in a phase in which nothing can be written. *)
Lemma refuse h s :
  alive h s → w_status s = false →
  match (_reset_write_handler true;; mret 0 : prog event state Z) s with
  | (Ok a, s', ev) => alive (h ++ ev) s'
  | _ => False
  end.
Proof.
  intros [p (Hw & Hrec & Hp)] Hst.
  destruct (reset_write s true Hw) as (s1 & E & Hs1 & (_ & _ & Hrec1 & _ & Hext1 & Hcl1) & Hmw & Hmw' & _ & Hmr1 & Hrel1 & Hing1 & Hst1 & Hrs1 & Hb1).
  rewrite (op_bind_Ok _ _ _ _ _ _ E). unfold mret, op_ret. rewrite !app_nil_r. exists p. split; [done|]. split; [congruence|].
  destruct p; cbn in *; rewrite ?Hb1, ?Hst1, ?Hrs1, ?Hmr1, ?Hrel1, ?Hing1, ?Hcl1; naive_solver congruence.
Qed.

Lemma after_write (m : prog event state Z) (P : list event → state → Prop) R :
  triple P m (λ _, between) R →
  triple P (rt ← m; _set_write_handler_if_ready self;; release_if (λ s, negb (w_status s));; mret rt) (λ _, alive) R.
Proof.
  intros Hm. eapply triple_bind; [exact Hm|]. intros rt.
  eapply triple_bind; [apply write_handler_if_ready_alive|]. intros ?.
  eapply triple_bind; [apply release_if_w|]. intros ?. by apply triple_ret.
Qed.

(** What throws in [_write] is the system call; [C] is a condition on its
    results. *)
Lemma write_phases l (C : state → Prop) R :
  triple (λ h s, core h s ∧ w_status s = true ∧ sent h ++ (w_buffer s ++ l) = given h ∧ C s) (buf_write l) (λ _, between) R →
  triple (λ h s, alive h s ∧ C s) (_write self l) (λ _, alive) R.
Proof.
  intros Hbuf h s [Ha HC]. unfold _write. rewrite op_get_bind. cbn [id]. destruct (releasing s) eqn:Hing.
  { unfold mret, op_ret. by rewrite app_nil_r. }
  destruct (w_status s) eqn:Hst; cbn [negb].
  2:{ pose proof (refuse h s Ha Hst) as Hr. by destruct ((_reset_write_handler true;; mret 0 : prog event state Z) s) as [[[a| | |] s'] ev]. }
  assert (life Active h s) as Hact.
  { destruct Ha as [p Hp]. destruct p; [done|..]; destruct Hp as (_ & _ & Hp); cbn in Hp; naive_solver congruence. }
  enough (triple (λ h s, life Active h s ∧ C s) (op_emit (On_writing l);; rt ← buf_write l;
      _set_write_handler_if_ready self;; release_if (λ s, negb (w_status s));; mret rt) (λ _, alive) R) as Ht
    by exact (Ht h s (conj Hact HC)).
  apply (triple_bind _ _ _ (λ _ h s, core h s ∧ w_status s = true ∧ sent h ++ (w_buffer s ++ l) = given h ∧ C s)).
  - apply triple_emit. intros h' s' [Hl HC']. apply active_core in Hl as (Hc & Hst' & Heq).
    destruct Hc as (? & ? & ? & ? & ? & Hends). split; [|split; [done|split; [|done]]].
    + split_and!; try done. by rewrite ends_app, Hends.
    + rewrite sent_app, given_app, <-Heq. cbn. by rewrite !app_nil_r, <-app_assoc.
  - intros ?. by apply after_write.
Qed.

Lemma write_alive l : triple alive (_write self l) (λ _, alive) thrown.
Proof.
  eapply triple_conseq; [apply (write_phases l (λ _, True) broken)|by split|done|by intros h s Hb; right].
  eapply triple_conseq; [exact (triple_wrote _ (λ s, w_buffer s ++ l) (buf_write_run l))| |done|done].
  intros h s (? & ? & ? & _). by split_and!.
Qed.

Lemma write_buffered_alive : triple alive (_write_buffered self) (λ _, alive) thrown.
Proof.
  intros h s Ha. unfold _write_buffered. rewrite op_get_bind. cbn [id]. destruct (w_status s) eqn:Hst; cbn [negb].
  2:{ pose proof (refuse h s Ha Hst) as Hr. by destruct ((_reset_write_handler true;; mret 0 : prog event state Z) s) as [[[a| | |] s'] ev]. }
  assert (core h s ∧ w_status s = true ∧ sent h ++ w_buffer s = given h) as Hpre.
  { destruct Ha as [[] Hp]; [by apply active_core|by apply draining_core|..];
      destruct Hp as (_ & _ & Hp); cbn in Hp; naive_solver congruence. }
  revert h s Ha Hst Hpre. enough (∀ r : bool, triple (λ h s, core h s ∧ w_status s = true ∧ sent h ++ w_buffer s = given h)
    (rt ← (if r then buf_flush else mret 0); _set_write_handler_if_ready self;;
     release_if (λ s, negb (w_status s));; mret rt) (λ _, alive) thrown) as Ht by (intros h s _ _ Hpre; exact (Ht (ready s) h s Hpre)).
  intros r. eapply triple_conseq; [|intros h s Hp; exact Hp|intros a h s Hq; exact Hq|intros h s Hb; right; exact Hb].
  apply after_write.
  destruct r; [exact (triple_wrote _ w_buffer buf_flush_run)|].
  apply triple_ret. intros h' s' (Hc & Hs' & Heq). apply core_between; eauto using prefix_given.
Qed.

Lemma release_alive R : triple alive release (λ _ h s, alive h s ∧ ¬ (released s = false ∧ releasing s = false)) R.
Proof.
  intros h s [p Hp]. destruct (released s) eqn:Hrel.
  { rewrite (release_done s (proj1 Hp) Hrel), app_nil_r. split; [by exists p|naive_solver congruence]. }
  destruct (releasing s) eqn:Hing.
  - pose proof (release_twice R h s (conj (or_introl (alive_life p h s Hp)) (conj Hing Hrel))) as Ht.
    destruct (release s) as [[[r| | |] s'] ev]; try done. split; [by exists Done|].
    destruct Ht as (_ & _ & Ht). cbn in Ht. naive_solver congruence.
  - assert (life Active h s) as Hact.
    { destruct p; [done|..]; destruct Hp as (_ & _ & Hp); cbn in Hp; naive_solver congruence. }
    apply active_core in Hact as (Hc & Hst & Heq).
    pose proof (release_opened R h s) as Ht.
    assert (opened h s) as Ho.
    { destruct Hc as (? & ? & ? & ? & ? & ?). split_and!; eauto using prefix_given. }
    specialize (Ht Ho). destruct (release s) as [[[[]| | |] s'] ev]; try done; cbn [gone] in Ht.
    + split; [by exists Done|]. destruct Ht as (_ & _ & Ht). cbn in Ht. naive_solver congruence.
    + destruct Ht as [Ht|Ht]; (split; [by eexists|]); destruct Ht as (_ & _ & Ht); cbn in Ht; naive_solver congruence.
Qed.

Lemma act_all_alive l : triple alive (act_all self l) (λ _, alive) thrown.
Proof.
  induction l as [|a l IH]; cbn [act_all]; [by apply triple_ret|].
  eapply triple_bind; [|intros ?; exact IH]. destruct a as [d0| |x]; cbn [act].
  - eapply triple_bind; [apply write_alive|]. intros ?. by apply triple_ret.
  - eapply triple_bind; [apply release_alive|]. intros ?. apply triple_ret. naive_solver.
  - apply triple_throw. by left.
Qed.

(** An exception ends the connection for good. *)
Lemma ad_exception_done R : triple thrown ad_exception (λ _, life Done) R.
Proof.
  intros h s Ht. unfold ad_exception.
  assert (match release s with (Ok _, s', ev) => life Done (h ++ ev) s' ∨
    (thrown (h ++ ev) s' ∧ releasing s' = true ∧ released s' = false) | _ => False end) as Hcase.
  { destruct Ht as [Ha|Hb].
    - pose proof (release_alive (λ _ _, False) h s Ha) as Hcase. destruct (release s) as [[[r| | |] s'] ev]; try done.
      destruct Hcase as [[p Hp] Hn]. destruct p; pose proof Hp as (_ & _ & Hp'); cbn in Hp'; [naive_solver| | |by left];
        right; (split; [left; by eexists|naive_solver]).
    - destruct Hb as (Hw & Hrec & Hrel & Hcl & Hpre & Hends).
      destruct (release_run s Hw Hrel Hcl) as (s' & Hs' & Hrec' & Hrs & Hmr & Hrun). destruct (negb _ && _ && _).
      + destruct Hrun as (-> & ? & ? & ? & ? & ? & ?). rewrite app_nil_r. right. split; [right|done]. split_and!; congruence || done.
      + destruct Hrun as (-> & ? & ? & ? & ? & ?). left. split; [done|]. split; [congruence|]. cbn.
        destruct (end_history (ext s) h Hends) as (E1 & E2 & E3). cbn in E1, E2, E3. rewrite E1, E2, E3. naive_solver. }
  destruct (release s) as [[[r| | |] s1] ev1] eqn:E1; try done. rewrite (op_bind_Ok _ _ _ _ _ _ E1).
  destruct Hcase as [Hdone|Htw].
  - assert (released s1 = true) as Hr1 by (destruct Hdone as (_ & _ & Hp); cbn in Hp; naive_solver).
    rewrite (op_bind_Ok _ _ _ _ _ _ (release_done s1 (proj1 Hdone) Hr1)). unfold mret, op_ret. cbn [app]. by rewrite app_nil_r.
  - pose proof (release_twice (λ _ _, False) (h ++ ev1) s1 Htw) as Ht2.
    destruct (release s1) as [[[r2| | |] s2] ev2] eqn:E2; try done. rewrite (op_bind_Ok _ _ _ _ _ _ E2).
    unfold mret, op_ret. rewrite app_nil_r. by rewrite app_assoc.
Qed.
End life.

(** ** Callbacks *)

Section callbacks.
Context {M Ext : Type} `{ImuxLaws M} `{DerivedLaws M Ext} (self : nat) (d : Z).
Hypothesis Hd : watchable (M := M) d.

Abbreviation state := (mux_filter M Ext).
Abbreviation io := (prog event state).

(** Between two callbacks. *)
Definition calm : list event → state → Prop := alive self d true 0.

(** Changes and events that the phases do not look at. *)
Lemma life_frame b n n' p h h' (s s' : state) :
  life self d b n p h s → sent h' = sent h → given h' = given h → ends h' = ends h →
  mux s' = mux s → rd s' = rd s → wd s' = wd s → mux_urgent s' = mux_urgent s → mux_read s' = mux_read s →
  mux_write s' = mux_write s → swh_count s' = swh_count s → r_status s' = r_status s → w_status s' = w_status s →
  w_buffer s' = w_buffer s → released s' = released s → releasing s' = releasing s → closed s' = closed s →
  ext s' = ext s → recursive s' = n' → life self d b n' p h' s'.
Proof.
  intros (Hw & Hrec & Hp) Es Eg Ee E1 E2 E3 E4 E5 E6 E7 E8 E9 E10 E11 E12 E13 E14 E15.
  split; [by apply (wired_same self d s)|]. split; [done|].
  destruct p; cbn in *; by rewrite ?Es, ?Eg, ?Ee, ?E5, ?E6, ?E8, ?E9, ?E10, ?E11, ?E12, ?E13.
Qed.

(** An event that is neither data nor an end. *)
Definition neutral (e : event) : Prop := sent [e] = [] ∧ given [e] = [] ∧ ends [e] = [].

Lemma neutral_app h e : neutral e → sent (h ++ [e]) = sent h ∧ given (h ++ [e]) = given h ∧ ends (h ++ [e]) = ends h.
Proof. intros (Hs & Hg & He). by rewrite sent_app, given_app, ends_app, Hs, Hg, He, !app_nil_r. Qed.

Lemma alive_neutral b n h e (s : state) : neutral e → alive self d b n h s → alive self d b n (h ++ [e]) s.
Proof. intros He [p Hp]. destruct (neutral_app h e He) as (Es & Eg & Ee). exists p. by eapply life_frame; [exact Hp|..]; try done; apply Hp. Qed.

Lemma alive_weaken b n h (s : state) : alive self d b n h s → alive self d false n h s.
Proof. intros [p (Hw & Hrec & Hp)]. exists p. split; [done|]. split; [done|]. destruct p; cbn in *; naive_solver. Qed.
Lemma thrown_weaken b n h (s : state) : thrown self d b n h s → thrown self d false n h s.
Proof. intros [Ha|Hb]; [left; by eapply alive_weaken|right; exact Hb]. Qed.

Lemma alive_strong b n h (s : state) :
  alive self d b n h s → (released s = false → releasing s = false → r_status s = true) → alive self d true n h s.
Proof. intros [p (Hw & Hrec & Hp)] Hr. exists p. split; [done|]. split; [done|]. destruct p; cbn in *; naive_solver. Qed.

Lemma alive_count n n' b h (s : state) : alive self d b n h s → alive self d b n' h (set_recursive n' s).
Proof. intros [p Hp]. exists p. by eapply life_frame; [exact Hp|..]. Qed.
Lemma thrown_count n n' b h (s : state) : thrown self d b n h s → thrown self d b n' h (set_recursive n' s).
Proof.
  intros [Ha|(Hw & Hrec & Hb)]; [left; by eapply alive_count|]. right. split; [by apply (wired_same self d s)|]. by split.
Qed.

Lemma alive_reading b n h (s s' : state) :
  alive self d b n h s → (∃ x y z w, s' = set_reads w (set_r_buffer x (set_r_lock y (set_r_clear z s)))) → alive self d b n h s'.
Proof. intros [p Hp] (x & y & z & w & ->). exists p. eapply life_frame; [exact Hp|..]; try done. apply Hp. Qed.

(** The frame of the callbacks: a body that keeps the phases at depth 1 keeps
    them, and so does one that throws. *)
Lemma in_callback_calm bad body :
  triple (alive self d true 1) body (λ _, alive self d true 1) (thrown self d false 1) →
  (∀ s, rd s = d → wd s = d → bad s = false) →
  triple calm (in_callback bad body) (λ _, calm) calm.
Proof.
  intros Hbody Hbad. unfold in_callback.
  eapply (triple_rethrow _ _ _ _ _ (thrown self d false 0)).
  2:{ eapply triple_conseq; [exact (ad_exception_done self d false 0 calm)|done| |done].
      intros [] h s (Hw & Hrec & Hp). exists Done. by split_and!. }
  apply triple_get_bind. intros s0. intros h s [Ha <-]. cbn [id].
  destruct Ha as [p Hp]. rewrite (Hbad s) by apply Hp. rewrite (proj1 (proj2 Hp)). cbn [negb Z.eqb].
  assert (triple calm (op_modify (λ s, set_recursive (recursive s + 1) s);;
    op_rethrow body (op_modify (λ s, set_recursive (recursive s - 1) s));;
    op_modify (λ s, set_recursive (recursive s - 1) s)) (λ _, calm) (thrown self d false 0)) as Ht; [|by apply Ht; exists p].
  eapply (triple_bind _ _ _ (λ _, alive self d true 1)).
  - apply triple_modify. intros h' s' Ha'. assert (recursive s' = 0) as -> by (destruct Ha' as [? Hl]; apply Hl).
    by eapply alive_count.
  - intros ?. eapply (triple_bind _ _ _ (λ _, alive self d true 1)).
    + eapply triple_rethrow; [exact Hbody|]. apply triple_modify. intros h' s' Ha'.
      assert (recursive s' = 1) as -> by (destruct Ha' as [[? Hl]|Hl]; apply Hl). by eapply thrown_count.
    + intros ?. apply triple_modify. intros h' s' Ha'.
      assert (recursive s' = 1) as -> by (destruct Ha' as [? Hl]; apply Hl). by eapply alive_count.
Qed.

Lemma ready_write_calm : triple calm (_ready_write self d) (λ _, calm) calm.
Proof.
  apply in_callback_calm; [|intros s _ ->; by rewrite Z.eqb_refl].
  eapply triple_bind; [eapply triple_conseq; [exact (write_buffered_alive self d true 1 Hd)|done|intros a h s Hq; exact Hq|intros h s; apply thrown_weaken]|].
  intros ?. apply triple_emit. intros h s. by apply alive_neutral.
Qed.

Lemma release_calm n R : triple (alive self d true n) (release;; mret tt) (λ _, alive self d true n) R.
Proof.
  eapply triple_bind; [apply (release_alive self d true n)|]. intros ?. apply triple_ret. by intros h s [? _].
Qed.

Lemma ready_error_calm : triple calm (_ready_error d) (λ _, calm) calm.
Proof. apply in_callback_calm; [apply release_calm|]. intros s -> ->. by rewrite Z.eqb_refl. Qed.
Lemma ready_urgent_calm : triple calm (_ready_urgent d) (λ _, calm) calm.
Proof. exact ready_error_calm. Qed.

Variable on_read : bytes → list action.

Lemma next_read_alive b n R : triple (alive self d b n) next_read (λ _, alive self d b n) R.
Proof.
  intros h s Ha. unfold next_read. destruct (reads s) as [|r rs] eqn:Er; rewrite app_nil_r; [done|].
  eapply alive_reading; [exact Ha|]. exists (r_buffer s), (r_lock s), (r_clear s), rs. by destruct s.
Qed.

Lemma system_failed_alive e m b n : triple (alive self d b n) (system_failed e m : io Z) (λ _, alive self d b n) (alive self d b n).
Proof. destruct e; first [by apply triple_ret | by apply triple_throw]. Qed.

Lemma ad_file_read_alive k n :
  triple (alive self d true n) (ad_file_read k)
    (λ r h s, alive self d (negb (r.1 =? 0)) n h s) (alive self d true n).
Proof.
  unfold ad_file_read. eapply (triple_bind _ _ _ (λ _, alive self d true n)).
  - unfold system_read. eapply triple_bind; [apply next_read_alive|]. intros [l|e]; [by apply triple_ret|].
    eapply triple_bind; [apply system_failed_alive|]. intros rt. by apply triple_ret.
  - intros [rt l]. cbn [fst]. destruct (rt =? 0) eqn:Hz.
    + eapply (triple_bind _ _ _ (λ _, alive self d false n)); [|intros ?; apply triple_ret; intros h s Ha; cbn; by rewrite Hz].
      apply triple_modify. intros h s [p (Hw & Hrec & Hp)]. exists p.
      split; [by apply (wired_same self d s)|]. split; [done|]. destruct p; cbn in *; naive_solver.
    + eapply (triple_bind _ _ _ (λ _, alive self d true n)); [by apply triple_ret|]. intros ?. apply triple_ret. intros h s Ha. cbn. by rewrite Hz.
Qed.

Lemma ad_binary_read_alive k n :
  triple (alive self d true n) (ad_binary_read self on_read k) (λ _, alive self d false n) (thrown self d false n).
Proof.
  unfold ad_binary_read. eapply triple_bind.
  { eapply triple_conseq; [apply ad_file_read_alive|done|intros a h s Hq; exact Hq|].
    intros h s Ha. left. by eapply alive_weaken. }
  intros [rs l]. cbn [fst]. eapply (triple_bind _ _ _ (λ _, alive self d false n)); [|intros ?; by apply triple_ret].
  destruct (rs =? 0); cbn [negb]; [apply triple_emit; intros h s; by apply alive_neutral|].
  destruct (0 <? rs); [|apply triple_emit; intros h s Ha; apply alive_neutral; [done|by eapply alive_weaken]].
  eapply (triple_bind _ _ _ (λ _, alive self d true n)).
  { apply triple_modify. intros h s Ha. eapply alive_reading; [exact Ha|].
    exists (l ++ drop (length l) (r_buffer s)), (r_lock s), (r_clear s), (reads s). by destruct s. }
  intros ?. eapply (triple_bind _ _ _ (λ _, alive self d true n)).
  { apply triple_emit. intros h s. by apply alive_neutral. }
  intros ?. eapply triple_conseq; [exact (act_all_alive self d true n Hd (on_read l))|done| |].
  - intros u h s. apply alive_weaken.
  - intros h s. apply thrown_weaken.
Qed.

Lemma unlock_buffer_frame (s : state) : ∃ x y z, set_r_clear false (set_r_lock false
    (if r_lock s && r_clear s then set_r_buffer [] s else s)) = set_reads (reads s) (set_r_buffer x (set_r_lock y (set_r_clear z s))).
Proof.
  destruct (r_lock s && r_clear s); [exists [], false, false|exists (r_buffer s), false, false]; by destruct s.
Qed.
Lemma unlock_alive b n R : triple (alive self d b n) (_unlock_buffer : io unit) (λ _, alive self d b n) R.
Proof.
  apply triple_modify. intros h s Ha. destruct (unlock_buffer_frame s) as (x & y & z & ->).
  eapply alive_reading; [exact Ha|by repeat eexists].
Qed.
Lemma unlock_thrown b n R : triple (thrown self d b n) (_unlock_buffer : io unit) (λ _, thrown self d b n) R.
Proof.
  apply triple_modify. intros h s Ht. destruct (unlock_buffer_frame s) as (x & y & z & ->).
  destruct Ht as [Ha|(Hw & Hb)]; [left; eapply alive_reading; [exact Ha|by repeat eexists]|].
  right. by split; [apply (wired_same self d s)|].
Qed.

Lemma ready_read_calm : triple calm (_ready_read self on_read d) (λ _, calm) calm.
Proof.
  apply in_callback_calm; [|intros s -> _; by rewrite Z.eqb_refl].
  eapply (triple_bind _ _ _ (λ _, alive self d true 1)); [apply triple_emit; intros h s; by apply alive_neutral|].
  intros ?. eapply (triple_bind _ _ _ (λ _, alive self d true 1)); [|intros ?; by apply triple_ret].
  unfold _read. eapply (triple_bind _ _ _ (λ _, alive self d false 1)).
  - unfold buf_read. eapply (triple_bind _ _ _ (λ _, alive self d true 1)).
    { apply triple_modify. intros h s Ha. eapply alive_reading; [exact Ha|].
      eexists _, true, (r_clear s), (reads s). by destruct s. }
    intros ?. eapply triple_bind; [eapply triple_rethrow; [apply ad_binary_read_alive|apply unlock_thrown]|].
    intros rt. eapply triple_bind; [apply unlock_alive|]. intros ?. by apply triple_ret.
  - intros rt. eapply (triple_bind _ _ _ (λ _, alive self d true 1)); [|intros ?; by apply triple_ret].
    unfold release_if. apply triple_get_bind. intros s0 h s [Ha <-]. cbn [id].
    destruct (negb (r_status s) && negb (releasing s) && negb (released s)) eqn:Hgone.
    + assert (triple (alive self d false 1) (release;; mret tt) (λ _, alive self d true 1) (thrown self d false 1)) as Ht;
        [|by apply Ht].
      eapply triple_bind; [apply (release_alive self d false 1)|]. intros ?. apply triple_ret.
      intros h' s' [Ha' Hn]. eapply alive_strong; [exact Ha'|naive_solver].
    + unfold mret, op_ret. rewrite app_nil_r. eapply alive_strong; [exact Ha|]. intros Hr1 Hr2.
      rewrite Hr1, Hr2 in Hgone. by destruct (r_status s).
Qed.
End callbacks.

(** ** The life of a connection *)

Section reachable.
Context {M Ext : Type} `{ImuxLaws M} `{DerivedLaws M Ext} (self : nat) (d : Z).
Hypothesis Hd : watchable (M := M) d.

Abbreviation state := (mux_filter M Ext).

(** An object without a descriptor - a new one, or one from the pool - whose
    multiplexer does not watch [d] yet. *)
Definition idle (s : state) : Prop :=
  (∃ m, mux s = Some m ∧ mux_ok m ∧ ∀ k, interest m d k = None) ∧ released s = true ∧
  mux_read s = false ∧ mux_write s = false ∧ mux_urgent s = false ∧ swh_count s = 0 ∧ recursive s = 0 ∧ at_rest (ext s).

(** What may happen: the multiplexer calls back, the owner releases, or
    another thread writes under the mutex.  What that thread's write throws
    ends the process; what a callback throws is caught by the loop around
    [select]. *)
Inductive conn_op :=
  | Ready_read (on_read : bytes → list action) | Ready_write | Ready_urgent | Ready_error
  | Release | Write (l : bytes).

Definition run_op (o : conn_op) : prog event state unit :=
  match o with
  | Ready_read on_read => _ready_read self on_read d
  | Ready_write => _ready_write self d
  | Ready_urgent => _ready_urgent d
  | Ready_error => _ready_error d
  | Release => release;; mret tt
  | Write l => _write self l;; mret tt
  end.
Definition survives (o : conn_op) (r : res unit) : Prop :=
  match r, o with
  | Ok _, _ => True
  | Throw _, (Ready_read _ | Ready_write | Ready_urgent | Ready_error) => True
  | _, _ => False
  end.

(** [ws] and [rs] are the results of the system calls of this step. *)
Inductive conn_step : list event * state → list event * state → Prop :=
  | conn_step_intro h s o ws rs r s' ev :
      run_op o (set_reads rs (set_writes ws s)) = (r, s', ev) → survives o r → conn_step (h, s) (h ++ ev, s').

Lemma step_to o ws rs r h s h' s' ev :
  run_op o (set_reads rs (set_writes ws s)) = (r, s', ev) → survives o r → h' = h ++ ev → conn_step (h, s) (h', s').
Proof. intros E Hr ->. by eapply conn_step_intro. Qed.

Definition conn_reachable (h : list event) (s : state) : Prop :=
  ∃ s0 s1 h1, idle s0 ∧ connection_assign self d d s0 = (Ok tt, s1, h1) ∧ rtc conn_step (h1, s1) (h, s).

Lemma binary_filter_assign_run (s : state) :
  ∃ x y, binary_filter_assign d d s = (Ok tt,
    set_w_buffer [] (set_r_clear y (set_r_buffer x (set_w_status true (set_wd d (set_r_status true (set_rd d s)))))),
    [Cleaned; On_assign]).
Proof.
  unfold binary_filter_assign, reader_clear, writer_clear. rewrite op_modify_bind.
  set (s1 := set_w_status true _). destruct (r_lock s1) eqn:Hl.
  - exists (r_buffer s1), true. unfold mbind, op_bind, op_get, op_modify, op_emit. rewrite Hl. by destruct s.
  - exists [], false. unfold mbind, op_bind, op_get, op_modify, op_emit. rewrite Hl. by destruct s.
Qed.

Lemma nothing_to_write (s : state) :
  released s = false → w_status s = true → w_buffer s = [] → swh_count s = 0 → releasing s = false →
  _set_write_handler_if_ready self s = (Ok tt, s, []).
Proof.
  intros Hrel Hst Hb Hc Hr. unfold _set_write_handler_if_ready, _reset_write_handler. rewrite op_get_bind. cbn [id].
  rewrite Hrel, Hst. unfold ready. rewrite Hb. change (negb (size [] =? 0)) with false. cbn iota.
  unfold mbind, op_bind, op_get, id. rewrite Hc. change (0 <? 0) with false. rewrite andb_false_r. unfold mret, op_ret. by rewrite Hr.
Qed.

Lemma assign_active (s : state) :
  idle s → ∃ s', connection_assign self d d s = (Ok tt, s', [Cleaned; On_assign; On_connection_assign]) ∧
    life self d true 0 Active [Cleaned; On_assign; On_connection_assign] s' ∧
    ext s' = ext s ∧ writes s' = writes s ∧ w_buffer s' = [].
Proof.
  intros ((m & Hm & Hok & Hi) & Hrel & Hmr & Hmw & Hu & Hsw & Hrec & Hrest).
  destruct (set_ok m ReadK d self Hok Hd) as (r & m' & E & Hok' & Hi'); [intros k; left; apply Hi|].
  unfold connection_assign. rewrite op_modify_bind. set (s1 := set_closed false s).
  set (s2 := set_released false (set_releasing false s1)).
  destruct (binary_filter_assign_run s2) as (x & y & Eb). set (s3 := set_w_buffer [] _) in Eb.
  set (s4 := set_mux (Some m') s3). set (s5 := set_mux_read true s4).
  assert (mux_filter_assign self d d s1 = (Ok tt, s5, [Cleaned; On_assign])) as Ea.
  { unfold mux_filter_assign. rewrite op_get_bind. cbn [id]. change (released s1) with (released s). rewrite Hrel.
    cbn [negb]. rewrite op_ret_bind_at, op_get_bind. cbn [id]. change (released s1) with (released s). rewrite Hrel.
    cbn [negb]. rewrite op_ret_bind_at, op_modify_bind. fold s2. rewrite (op_bind_Ok _ _ _ _ _ _ Eb).
    rewrite op_get_bind. cbn [id]. rewrite bool_decide_true by (change (mux s3) with (mux s); rewrite Hm; eauto).
    change (r_status s3) with true. cbn [andb].
    assert (on_mux (set_handler ReadK d (Some self)) s3 = (Ok tt, s4, [])) as Em.
    { unfold on_mux. change (mux s3) with (mux s). by rewrite Hm, E. }
    rewrite (op_bind_Ok _ _ _ _ _ _ Em).
    by rewrite (op_bind_Ok _ _ _ _ _ _ (nothing_to_write s4 eq_refl eq_refl eq_refl Hsw eq_refl)). }
  rewrite (op_bind_Ok _ _ _ _ _ _ Ea). set (s6 := set_closed false s5). exists s6. split; [done|]. split; [|done].
  split; [|split; [exact Hrec|cbn; split_and!; done]].
  split; [|done|exact Hu| |exact Hrest].
  - exists m'. split; [done|]. split; [done|]. intros k. rewrite Hi'. change (asks s6 k) with (asks (set_mux_read true s) k).
    destruct k; cbn; rewrite ?Hmw; (rewrite decide_True by done; done) || (rewrite decide_False by naive_solver; apply Hi).
  - change (swh_count s6) with (swh_count s). change (mux_write s6) with (mux_write s). rewrite Hsw, Hmw. done.
Qed.

Lemma calm_os h (s : state) ws rs : calm self d h s → calm self d h (set_reads rs (set_writes ws s)).
Proof. intros [p Hp]. exists p. eapply life_frame; [exact Hp|..]; try done. apply Hp. Qed.

Lemma run_op_calm o h (s : state) r s' ev :
  calm self d h s → run_op o s = (r, s', ev) → survives o r → calm self d (h ++ ev) s'.
Proof.
  intros Hs E Hr.
  assert (∀ m : prog event state unit, triple (calm self d) m (λ _, calm self d) (calm self d) →
    m s = (r, s', ev) → calm self d (h ++ ev) s') as Hcalm.
  { intros m Hm E'. specialize (Hm h s Hs). rewrite E' in Hm. by destruct r. }
  destruct o; cbn [run_op] in E; [..|destruct r; try done].
  - eapply Hcalm; [|exact E]. by apply ready_read_calm.
  - eapply Hcalm; [|exact E]. by apply ready_write_calm.
  - eapply Hcalm; [|exact E]. by apply ready_urgent_calm.
  - eapply Hcalm; [|exact E]. by apply ready_error_calm.
  - eapply Hcalm; [|exact E]. apply release_calm.
  - assert (triple (calm self d) (_write self l;; mret tt) (λ _, calm self d) (thrown self d true 0)) as Hw.
    { eapply triple_bind; [apply write_alive; exact Hd|]. intros ?. by apply triple_ret. }
    specialize (Hw h s Hs). by rewrite E in Hw.
Qed.

Lemma reachable_calm h s : conn_reachable h s → calm self d h s.
Proof.
  intros (s0 & s1 & h1 & Hidle & E & Hrun). destruct (assign_active s0 Hidle) as (s1' & E' & Hact & _).
  rewrite E' in E. injection E as <- <-.
  assert (∀ x y, rtc conn_step x y → calm self d x.1 x.2 → calm self d y.1 y.2) as Hsteps.
  { induction 1 as [x|x y z Hxy _ IH]; [done|]. intros Hx. apply IH.
    destruct Hxy as [h' s' o ws rs r s'' ev E Hr]. cbn in *. eapply run_op_calm; [|exact E|exact Hr]. by apply calm_os. }
  apply (Hsteps _ _ Hrun). by exists Active.
Qed.

(** ** Draining *)

Lemma flush_takes (s : state) k :
  w_buffer s ≠ [] → writes s = [Took (S k)] →
  buf_flush s = (Ok (size (take (S k) (w_buffer s))), set_w_buffer (drop (S k) (w_buffer s)) (set_writes [] s),
    [Sent (take (S k) (w_buffer s)); On_write (size (take (S k) (w_buffer s)))]).
Proof.
  intros Hne Hw. destruct s as [? ? ? ? ? ? ? w ? ? ? ? ? ? ? ? ? wr ?]. simpl in Hne, Hw. subst wr.
  unfold buf_flush, ad_binary_write, ad_file_write, system_write, next_write, mbind, op_bind, op_get, op_modify, op_emit,
    mret, op_ret, size.
  assert (length (take (S k) w) ≠ 0%nat) as Hl by (destruct w; [done|simpl; lia]).
  pose proof (length_take w (S k)) as Hmin.
  assert (length (take (S k) w) = length w → drop (S k) w = []) as Hall by (intros E; apply drop_ge; lia).
  assert (length (take (S k) w) ≠ length w → length (take (S k) w) = S k) as Hpart by lia.
  cbn -[Z.of_nat Z.eqb Z.ltb length take drop].
  rewrite (proj2 (Z.eqb_neq (Z.of_nat (length w)) 0)) by (destruct w; simpl; [done|lia]).
  cbn -[Z.of_nat Z.eqb Z.ltb length take drop].
  rewrite (proj2 (Z.eqb_neq (Z.of_nat (length (take (S k) w))) 0)) by lia. cbn -[Z.of_nat Z.eqb Z.ltb length take drop].
  rewrite (proj2 (Z.eqb_neq (Z.of_nat (length (take (S k) w))) 0)) by lia.
  rewrite (proj2 (Z.ltb_lt 0 _)) by lia.
  destruct (Z.eqb_spec (Z.of_nat (length (take (S k) w))) (Z.of_nat (length w))) as [Heq|Hlt].
  - rewrite Hall by lia. reflexivity.
  - cbn -[Z.of_nat Z.eqb Z.ltb length take drop]. rewrite Nat2Z.id, Hpart by lia. reflexivity.
Qed.

Definition draining (s : state) : Prop := released s = false ∧ releasing s = true ∧ w_status s = true.

Lemma draining_life h (s : state) : calm self d h s → draining s → life self d true 0 Draining h s.
Proof.
  intros [p Hp] (Hd1 & Hd2 & Hd3). destruct p; [..|done| |]; destruct Hp as (_ & _ & Hp); cbn in Hp; naive_solver congruence.
Qed.

Lemma in_callback_run bad (body : prog event state unit) (s s' : state) ev :
  bad s = false → recursive s = 0 → body (set_recursive 1 s) = (Ok tt, s', ev) →
  in_callback bad body s = (Ok tt, set_recursive (recursive s' - 1) s', ev).
Proof.
  intros Hb Hr E. unfold in_callback. unfold op_rethrow at 1. rewrite op_get_bind. cbn [id]. rewrite Hb, Hr.
  cbn [negb Z.eqb]. rewrite op_modify_bind, Hr. change (0 + 1) with 1.
  assert (op_rethrow body (op_modify (λ s, set_recursive (recursive s - 1) s)) (set_recursive 1 s) = (Ok tt, s', ev)) as E2
    by (unfold op_rethrow; by rewrite E).
  rewrite (op_bind_Ok _ _ _ _ _ _ E2). cbn. by rewrite app_nil_r.
Qed.

(** The bookkeeping while draining: the handler stays, or all is done. *)
Lemma drain_bookkeeping (s : state) :
  wired self d s → draining s → closed s = false → mux_write s = true →
  ∃ s' ev, _set_write_handler_if_ready self s = (Ok tt, s', ev) ∧ sent ev = [] ∧ given ev = [] ∧
    (w_buffer s = [] ∧ released s' = true ∨ w_buffer s ≠ [] ∧ draining s' ∧ w_buffer s' = w_buffer s).
Proof.
  intros Hw (Hrel & Hing & Hst) Hcl Hmw. unfold _set_write_handler_if_ready. rewrite op_get_bind. cbn [id].
  rewrite Hrel, Hst. destruct (ready s) eqn:Hrd.
  - apply ready_spec in Hrd. unfold _set_write_handler. rewrite op_get_bind. cbn [id].
    destruct (wired_mux _ _ s Hw) as (m & Hm & _). rewrite bool_decide_true by (rewrite Hm; eauto).
    rewrite Hst, Hmw. cbn [andb negb]. rewrite op_ret_bind_at. eexists _, _. split; [reflexivity|].
    split; [done|]. split; [done|]. right. split; [done|]. by split.
  - assert (w_buffer s = []) as Hnil.
    { destruct (w_buffer s) eqn:E; [done|]. exfalso. assert (ready s = true); [|congruence]. apply ready_spec. by rewrite E. }
    destruct (reset_write self d s false Hw) as (s1 & E & Hs1 & (_ & _ & _ & _ & _ & Hcl1) & _ & _ & _ & _ & Hrel1 & Hing1 & _ & _ & _).
    rewrite (op_bind_Ok _ _ _ _ _ _ E), op_get_bind, Hing1, Hing.
    destruct (release_run self d s1 Hs1) as (s2 & _ & _ & _ & _ & Hrun); [congruence..|].
    rewrite Hing1, Hing in Hrun. cbn [negb andb] in Hrun. destruct Hrun as (E2 & Hrel2 & _).
    destruct (end_history d (ext s1) [] eq_refl) as (Es & Eg & _).
    rewrite (op_bind_Ok _ _ _ _ _ _ E2). eexists _, _. split; [reflexivity|]. rewrite app_nil_r.
    split; [exact Es|]. split; [exact Eg|]. by left.
Qed.

(** One more part of the buffer goes out. *)
Lemma drain_once h (s : state) k rs :
  calm self d h s → draining s →
  ∃ s' ev, run_op Ready_write (set_reads rs (set_writes [Took (S k)] s)) = (Ok tt, s', ev) ∧
    (released s' = true ∧ sent (h ++ ev) = given (h ++ ev) ∨
     draining s' ∧ (length (w_buffer s') < length (w_buffer s))%nat).
Proof.
  intros Hc Hdr. destruct (draining_life h s Hc Hdr) as (Hw & Hrec & Hrel & Hing & Hcl & _ & Hst & Hmr & Hmw & Hne & Heq & _).
  set (s2 := set_recursive 1 (set_reads rs (set_writes [Took (S k)] s))).
  set (s3 := set_w_buffer (drop (S k) (w_buffer s)) (set_writes [] s2)).
  destruct (drain_bookkeeping s3) as (s4 & ev & E & Hs & Hg & Hcase); [by apply (wired_same self d s)|done|done|done|].
  assert (release_if (λ s, negb (w_status s)) s4 = (Ok tt, s4, [])) as Er.
  { unfold release_if. rewrite op_get_bind. cbn [id]. replace (_ && _ && _) with false; [done|].
    destruct Hcase as [[_ ->]|(_ & (_ & _ & ->) & _)]; [by rewrite andb_false_r|done]. }
  set (e1 := [Sent (take (S k) (w_buffer s)); On_write (size (take (S k) (w_buffer s)))]).
  assert (_write_buffered self s2 = (Ok (size (take (S k) (w_buffer s))), s4, e1 ++ ev)) as Ew.
  { unfold _write_buffered. rewrite op_get_bind. cbn [id]. change (w_status s2) with (w_status s). rewrite Hst. cbn [negb].
    assert (ready s2 = true) as -> by (by apply ready_spec).
    rewrite (op_bind_Ok _ _ _ _ _ _ (flush_takes s2 k Hne eq_refl)). change (w_buffer s2) with (w_buffer s). fold s3.
    rewrite (op_bind_Ok _ _ _ _ _ _ E), (op_bind_Ok _ _ _ _ _ _ Er). unfold mret, op_ret. by rewrite !app_nil_r. }
  eexists _, _. split.
  { cbn [run_op]. unfold _ready_write. apply in_callback_run.
    - cbn. destruct (wired_desc _ _ s Hw) as [_ ->]. by rewrite Z.eqb_refl.
    - exact Hrec.
    - fold s2. rewrite (op_bind_Ok _ _ _ _ _ _ Ew). reflexivity. }
  change (w_buffer s3) with (drop (S k) (w_buffer s)) in Hcase.
  destruct Hcase as [[Hnil Hr4]|(_ & Hd4 & Hb4)]; [left|right].
  - split; [exact Hr4|]. assert (take (S k) (w_buffer s) = w_buffer s) as Ht by (rewrite <-(take_drop (S k) (w_buffer s)) at 2; by rewrite Hnil, app_nil_r).
    rewrite !sent_app, !given_app, Hs, Hg, <-Heq. cbn. rewrite Ht. by rewrite !app_nil_r.
  - split; [exact Hd4|]. cbn. rewrite Hb4, length_drop. destruct (w_buffer s); [done|]. cbn. lia.
Qed.
End reachable.

(** ** Properties *)

(** C2. The life of a connection, whatever arrives, whatever the handlers of
    the data do and whatever the system calls return.  What the kernel was
    given is always the beginning of what was written, and nothing is missing
    but the buffer as long as the connection is open and the peer there; data
    that waits in the buffer of such a connection is never forgotten: the
    multiplexer will tell that the descriptor can be written.  A connection
    that is released was closed once and given back once - to the pool, when
    it is one of a server -, and no multiplexer tells it anything; one that is not released was not closed.
    No callback runs into undefined behaviour. *)
Theorem connection_life {M X} `{ImuxLaws M} `{DerivedLaws M X} self d h (s : mux_filter M X) :
  watchable (M := M) d → conn_reachable self d h s →
  sent h `prefix_of` given h ∧
  (released s = false → w_status s = true → sent h ++ w_buffer s = given h ∧
     (w_buffer s ≠ [] → ∃ m, mux s = Some m ∧ interest m d WriteK = Some self)) ∧
  (if released s then ends h = Close d :: given_back M X ∧ ∀ m k, mux s = Some m → interest m d k = None
   else ends h = [] ∧ (releasing s = false → ∃ m, mux s = Some m ∧ interest m d ReadK = Some self)) ∧
  ∀ o ws rs, match (run_op self d o (set_reads rs (set_writes ws s))).1.1 with
             | Ok _ | Throw _ => True | _ => False end.
Proof.
  intros Hd Hr. apply reachable_calm in Hr; [|done]. pose proof Hr as [p (Hw & Hrec & Hp)].
  destruct (wired_mux _ _ s Hw) as (m & Hm & _ & Hi).
  assert (∀ k, asks s k = true → ∃ m, mux s = Some m ∧ interest m d k = Some self) as Hasks.
  { intros k Hk. exists m. split; [done|]. by rewrite Hi, Hk. }
  split_and!.
  - destruct p; cbn in Hp; destruct_and? Hp; eauto using prefix_given.
  - intros Hr1 Hr2. destruct p; cbn in Hp; destruct_and? Hp; try congruence; (split; [done|]); intros Hne; apply Hasks; cbn; auto.
  - destruct p; cbn in Hp; destruct_and? Hp;
      repeat match goal with E : released s = _ |- _ => rewrite E; clear E end; (split; [done|]); try congruence.
    + intros _. apply Hasks. done.
    + intros m' k Hm'. rewrite Hm in Hm'. injection Hm' as <-. rewrite Hi. destruct k; cbn;
        repeat match goal with E : _ s = false |- _ => rewrite E; clear E end; done.
  - intros o ws rs. pose proof (calm_os self d h s ws rs Hr) as Hc.
    set (s1 := set_reads rs (set_writes ws s)) in *.
    assert (∀ (P' : list event → mux_filter M X → Prop) (m : prog event (mux_filter M X) unit), triple (calm self d) m (λ _, calm self d) P' →
      match (m s1).1.1 with Ok _ | Throw _ => True | _ => False end) as Hok.
    { intros P' m' Ht. specialize (Ht h s1 Hc). by destruct (m' s1) as [[[| | |] ?] ?]. }
    destruct o; cbn [run_op].
    + by eapply Hok, ready_read_calm.
    + by eapply Hok, ready_write_calm.
    + by eapply Hok, ready_urgent_calm.
    + by eapply Hok, ready_error_calm.
    + by eapply (Hok (λ _ _, True)), release_calm.
    + eapply Hok. eapply triple_bind; [by apply write_alive|]. intros ?. by apply triple_ret.
Qed.

(** C19. A soft release delivers.  Once a connection was released with data
    left to write, every call of [ready_write] in which the kernel takes at
    least one byte makes the rest shorter, and after finitely many of them
    the connection is closed with everything delivered that was written. *)
Theorem release_delivers {M X} `{ImuxLaws M} `{DerivedLaws M X} self d h (s : mux_filter M X) :
  watchable (M := M) d → conn_reachable self d h s → draining s →
  (∀ k rs, ∃ s' ev, run_op self d Ready_write (set_reads rs (set_writes [Took (S k)] s)) = (Ok tt, s', ev) ∧
     (released s' = true ∧ sent (h ++ ev) = given (h ++ ev) ∨
      draining s' ∧ (length (w_buffer s') < length (w_buffer s))%nat)) ∧
  ∃ h' s', rtc (conn_step self d) (h, s) (h', s') ∧ released s' = true ∧ sent h' = given h' ∧ ends h' = Close d :: given_back M X.
Proof.
  intros Hd Hr Hdr. apply reachable_calm in Hr; [|done]. split.
  { intros k rs. by apply drain_once. }
  remember (length (w_buffer s)) as n eqn:Hn. revert h s Hr Hdr Hn.
  induction (lt_wf n) as [n _ IH]. intros h s Hc Hdr ->.
  destruct (drain_once self d h s 0 [] Hc Hdr) as (s1 & ev & E & Hcase).
  assert (conn_step self d (h, s) (h ++ ev, s1)) as Hstep by (by eapply conn_step_intro).
  assert (calm self d (h ++ ev) s1) as Hc1.
  { eapply run_op_calm; [done|apply calm_os; exact Hc|exact E|done]. }
  destruct Hcase as [[Hrel Heq]|[Hdr1 Hlt]].
  - exists (h ++ ev), s1. split; [by apply rtc_once|]. split; [done|]. split; [done|].
    destruct Hc1 as [p (_ & _ & Hp)]. destruct p; cbn in Hp; destruct_and? Hp; congruence.
  - destruct (IH _ Hlt (h ++ ev) s1 Hc1 Hdr1 eq_refl) as (h' & s' & Hrun & Hend).
    exists h', s'. split; [by eapply rtc_l|done].
Qed.

(** A new object whose multiplexer is an [epoller] without descriptors. *)
Definition new_filter : mux_filter (epoller (gmap Z Z)) unit :=
  Mux_filter 0 0 false false [] false false [] (Some (new_epoller ∅)) 0 0 false false false true false true [] [] tt.

Definition assigned : mux_filter (epoller (gmap Z Z)) unit := (connection_assign 1 5 5 new_filter).1.2.
(** The kernel takes one of three bytes; then the connection is released. *)
Definition wrote_part : mux_filter (epoller (gmap Z Z)) unit := (run_op 1 5 (Write (str "abc")) (set_writes [Took 1] assigned)).1.2.
Definition released_part : mux_filter (epoller (gmap Z Z)) unit := (run_op 1 5 Release (set_writes [] wrote_part)).1.2.
Definition part_history : list event :=
  [Cleaned; On_assign; On_connection_assign; On_writing (str "abc"); Sent (str "a"); On_write 1].

Lemma new_filter_idle : idle 5 new_filter.
Proof.
  split; [|by split_and!]. exists (new_epoller ∅). split; [done|]. split; [|by intros []].
  split; [done|]. intros i _. apply lookup_empty.
Qed.

Lemma released_part_reachable : conn_reachable 1 5 part_history released_part.
Proof.
  exists new_filter, assigned, [Cleaned; On_assign; On_connection_assign]. split; [exact new_filter_idle|]. split; [vm_compute; reflexivity|].
  eapply rtc_l; [|apply rtc_once].
  - apply (step_to 1 5 (Write (str "abc")) [Took 1] [] (Ok tt) _ _ part_history wrote_part
      [On_writing (str "abc"); Sent (str "a"); On_write 1]); [vm_compute; reflexivity|done|reflexivity].
  - apply (step_to 1 5 Release [] [] (Ok tt) part_history wrote_part part_history released_part []); [vm_compute; reflexivity|done|by rewrite app_nil_r].
Qed.

Lemma connection_life_witness :
  sent part_history `prefix_of` given part_history ∧ ∃ m, mux released_part = Some m ∧ interest m 5 WriteK = Some 1%nat.
Proof.
  destruct (connection_life 1 5 part_history released_part) as (Hp & Hopen & _); [by split|exact released_part_reachable|].
  split; [exact Hp|]. apply Hopen; vm_compute; [reflexivity..|discriminate].
Defined.

Lemma release_delivers_witness :
  ∃ h' s', rtc (conn_step 1 5) (part_history, released_part) (h', s') ∧ released s' = true ∧ sent h' = given h'.
Proof.
  destruct (release_delivers 1 5 part_history released_part) as (_ & h' & s' & Hrun & Hr & Hs & _);
    [by split|exact released_part_reachable|vm_compute; auto|].
  by exists h', s'.
Defined.

(**  A peer that goes away while the rest is being written leaks the
    connection.  [write()] leaves its buffer as it is when the peer has
    closed, so the release it causes is again a soft one, waiting for a
    buffer that nobody empties; the next [ready_write] only takes the handler
    away.  The connection is then neither closed nor in the pool, and no
    multiplexer will ever call it again. *)
Theorem lost_peer_leaks_connection :
  ∃ h s m, conn_reachable 1 5 h s ∧ mux s = Some m ∧ (∀ k, interest m 5 k = None) ∧ watched (_depoll m) 5 = None ∧
    released s = false ∧ closed s = false ∧ ends h = [].
Proof.
  set (s1 := run_op 1 5 Ready_write (set_writes [Write_failed Other_errno] wrote_part)).
  set (s2 := run_op 1 5 Ready_write (set_writes [] s1.1.2)).
  eexists _, s2.1.2, _. split.
  - exists new_filter, assigned, [Cleaned; On_assign; On_connection_assign]. split; [exact new_filter_idle|]. split; [vm_compute; reflexivity|].
    eapply rtc_l; [|eapply rtc_l; [|apply rtc_once]].
    + apply (step_to 1 5 (Write (str "abc")) [Took 1] [] (Ok tt) _ _ part_history wrote_part
        [On_writing (str "abc"); Sent (str "a"); On_write 1]); [vm_compute; reflexivity|done|reflexivity].
    + apply (conn_step_intro 1 5 part_history wrote_part Ready_write [Write_failed Other_errno] [] (Ok tt) s1.1.2 s1.2); [vm_compute; reflexivity|done].
    + apply (conn_step_intro 1 5 (part_history ++ s1.2) s1.1.2 Ready_write [] [] (Ok tt) s2.1.2 s2.2); [vm_compute; reflexivity|done].
  - split; [vm_compute; reflexivity|]. split; [by intros []; vm_compute|]. vm_compute. auto.
Qed.
