(* ===== verification/Locks.v ===== *)
(** * Locks: [common/lock_atomic.hpp]

    The two spin locks, one atomic access after the other: what a thread
    does between two of them is up to the others.  [spinlock] is what the
    handlers and the clients of the replication hold; [multispinlock] is the
    lock of the in-memory database. *)

From S2P Require Import Prelude.

(** ** [spinlock] *)

(** The value is [true] while somebody holds the lock. *)
(* src: common/lock_atomic.hpp 8-12 spinlock *)
Record spinlock := Spinlock { value : bool }.

Definition new_spinlock : spinlock := Spinlock false.

(** [value.exchange(v)]: the old value. *)
Definition exchange (v : bool) (l : spinlock) : bool * spinlock := (value l, Spinlock v).

(** One round of [while (value.exchange(true)) { }]: whether the loop ends. *)
(* src: common/lock_atomic.hpp 17-19 spinlock::lock *)
Definition spin (l : spinlock) : bool * spinlock :=
  let '(old, l) := exchange true l in (negb old, l).

(* src: common/lock_atomic.hpp 21-23 spinlock::try_lock *)
Definition try_lock (l : spinlock) : bool * spinlock :=
  let '(old, l) := exchange true l in (negb old, l).

(* src: common/lock_atomic.hpp 25-27 spinlock::unlock *)
Definition unlock (l : spinlock) : spinlock := Spinlock false.

Lemma spin_taken l : value l = true → spin l = (false, l).
Proof. destruct l as [[]]; [done|discriminate]. Qed.
Lemma spin_free l : value l = false → spin l = (true, Spinlock true).
Proof. destruct l as [[]]; [discriminate|done]. Qed.

(** ** [multispinlock]

    A counter of readers and a flag of the writer.  Where a thread stands is
    the access that it does next. *)
(* src: common/lock_atomic.hpp 38-43 multispinlock *)
Record multispinlock := Multispinlock { rvalue : Z; wvalue : bool }.

Definition new_multispinlock : multispinlock := Multispinlock 0 false.

Inductive place :=
  | Outside
  | Waiting      (** a writer that has the flag, before it saw no reader *)
  | Writing
  | Entering     (** a reader that saw no flag, before it counts itself *)
  | Reading.

#[export] Instance place_eq_dec : EqDecision place.
Proof. solve_decision. Defined.

(** One access of one thread: what it was doing, what it does next. *)
(* src: common/lock_atomic.hpp 48-62 multispinlock::lock, unlock, lock_r, unlock_r *)
Inductive access : place → multispinlock → place → multispinlock → Prop :=
  | lock_spins r : access Outside (Multispinlock r true) Outside (Multispinlock r true)
  | lock_flag r : access Outside (Multispinlock r false) Waiting (Multispinlock r true)
  | lock_waits r w : r ≠ 0 → access Waiting (Multispinlock r w) Waiting (Multispinlock r w)
  | lock_enters w : access Waiting (Multispinlock 0 w) Writing (Multispinlock 0 w)
  | unlock_flag r w : access Writing (Multispinlock r w) Outside (Multispinlock r false)
  | lock_r_spins r : access Outside (Multispinlock r true) Outside (Multispinlock r true)
  | lock_r_sees r : access Outside (Multispinlock r false) Entering (Multispinlock r false)
  | lock_r_counts r w : access Entering (Multispinlock r w) Reading (Multispinlock (r + 1) w)
  | unlock_r_counts r w : access Reading (Multispinlock r w) Outside (Multispinlock (r - 1) w).

(** Any number of threads. *)
Inductive rw_step : multispinlock * list place → multispinlock * list place → Prop :=
  | rw_step_intro l ps i p l' p' :
      ps !! i = Some p → access p l p' l' → rw_step (l, ps) (l', <[i := p']> ps).

Definition rw_reachable (n : nat) (x : multispinlock * list place) : Prop :=
  rtc rw_step (new_multispinlock, replicate n Outside) x.

Definition count (q : place → bool) (ps : list place) : nat := length (filter (λ p, q p = true) ps).
Definition is_writer (p : place) : bool := match p with Waiting | Writing => true | _ => false end.
Definition is_reader (p : place) : bool := match p with Reading => true | _ => false end.

Lemma count_insert q ps i p p' :
  ps !! i = Some p →
  (count q (<[i := p']> ps) + (if q p then 1 else 0) = count q ps + (if q p' then 1 else 0))%nat.
Proof.
  intros Hi. unfold count. rewrite <-(take_drop_middle ps i p Hi) at 2.
  rewrite insert_take_drop by (by eapply lookup_lt_Some).
  rewrite !filter_app, !filter_cons, !length_app.
  destruct (q p), (q p'); simpl; lia.
Qed.

(** The counter is the number of readers; the flag is set exactly when there
    is a writer, and there is at most one. *)
Definition rw_counted (x : multispinlock * list place) : Prop :=
  rvalue x.1 = Z.of_nat (count is_reader x.2) ∧ count is_writer x.2 = (if wvalue x.1 then 1 else 0)%nat.

Lemma rw_step_counted x y : rw_counted x → rw_step x y → rw_counted y.
Proof.
  intros [Hr Hw] Hxy. destruct Hxy as [l ps i p l' p' Hi Ha]. unfold rw_counted in *. cbn [fst snd] in *.
  pose proof (count_insert is_reader ps i p p' Hi) as Cr. pose proof (count_insert is_writer ps i p p' Hi) as Cw.
  destruct Ha; cbn in *; repeat case_match; split; lia.
Qed.

Lemma rw_reachable_counted n x : rw_reachable n x → rw_counted x.
Proof.
  intros Hr. refine (rtc_keeps rw_counted rw_step_counted _ _ Hr _).
  assert (∀ q, q Outside = false → count q (replicate n Outside) = 0%nat) as H0.
  { intros q Hq. unfold count. clear Hr. induction n as [|n IH]; [done|]. cbn [replicate]. rewrite filter_cons, decide_False by congruence. exact IH. }
  split; cbn [fst snd]; by rewrite H0.
Qed.

(** Two writers never hold it together. *)
Lemma writers_exclude n l ps i j p q :
  rw_reachable n (l, ps) → ps !! i = Some p → ps !! j = Some q → is_writer p = true → is_writer q = true → i = j.
Proof.
  intros [_ Hw]%rw_reachable_counted Hi Hj Hp Hq. cbn [fst snd] in Hw. destruct (decide (i = j)) as [|Hne]; [done|exfalso].
  pose proof (count_insert is_writer ps i p Outside Hi) as C1.
  assert (<[i := Outside]> ps !! j = Some q) as Hj' by (by rewrite list_lookup_insert_ne).
  pose proof (count_insert is_writer _ j q Outside Hj') as C2. rewrite Hp in C1. rewrite Hq in C2. change (is_writer Outside) with false in C1, C2.
  cbn iota in C1, C2. destruct (wvalue l); lia.
Qed.

(** The schedule of the race: the reader sees no flag, then the writer takes
    it and sees no reader, then the reader counts itself. *)
Lemma reader_beside_writer : rw_reachable 2 (Multispinlock 1 true, [Reading; Writing]).
Proof.
  eapply rtc_l; [eapply (rw_step_intro _ _ 0 Outside _ Entering); [done|apply lock_r_sees]|].
  eapply rtc_l; [eapply (rw_step_intro _ _ 1 Outside _ Waiting); [done|apply lock_flag]|].
  eapply rtc_l; [eapply (rw_step_intro _ _ 1 Waiting _ Writing); [done|apply lock_enters]|].
  apply rtc_once. exact (rw_step_intro (Multispinlock 0 true) [Entering; Writing] 0 Entering _ Reading eq_refl (lock_r_counts 0 true)).
Qed.
