(* ===== verification/Broadcast.v ===== *)
(** * Broadcast: updates for the slaves from several threads

    [Replication::_send_to_clients] of [src/replication.hpp] access by
    access.  Every worker thread runs it for the update of its request; the
    table of the slaves has no lock, each slave has its [mtx].  What the
    threads see of a slave between two of their accesses is up to the others:
    other senders, the connection of the slave (whose handlers hold [mtx] from
    their first access to their last) and [Replication::add_client]. *)

From S2P Require Import Prelude JsonParser Serializer JsonString JsonArray Queries LevelDb Replication ReplicationQueue ReplicationSync Locks.

(** ** The updates *)

(** The member function that is called, with its argument. *)
Inductive broadcast :=
  | B_set (data : valmap2str)
  | B_set_range (data : valmap2str)
  | B_del (data : vallist).

(* src: src/replication.hpp 267-267 Replication::_send_to_clients *)
Definition data_size (u : broadcast) : nat :=
  match u with B_set data | B_set_range data => length data | B_del data => length data end.

(** What [Client_t::send] enqueues for the update. *)
(* src: src/replication.hpp 52-66 Client_t::send *)
Definition item_of (u : broadcast) : res (bytes * bytes) :=
  match u with
  | B_set data => buf ← ser valmap2str_json data; mret (str "set", buf)
  | B_set_range data => buf ← ser valmap2str_json data; mret (str "set_range", buf)
  | B_del data => buf ← ser vallist_json data; mret (str "del", buf)
  end.

(** The callbacks: the entries below the key. *)
(* src: src/replication.hpp 283-303 Replication::set, set_range, del *)
Definition partial_of (u : broadcast) (key : bytes) : broadcast :=
  match u with
  | B_set data => B_set (filter (λ kv, bytes_lt kv.1 key) data)
  | B_set_range data => B_set_range (filter (λ kv, bytes_lt kv.1 key) data)
  | B_del data => B_del (filter (λ k, bytes_lt k key) data)
  end.

(** ** The shared state

    A slave is the object and what happened on its connection; [nodes] is
    [repClients] in the order of its iterators, each node with the pointer to
    its object; [slaves] are the objects that were not deleted. *)
Record slave := Slave { s_link : link; s_conn : nat; s_mtx : spinlock }.

(* src: src/replication.hpp 229-230 Replication *)
Record table := Table { nodes : list (bytes * nat); slaves : gmap nat slave }.

Definition client_of (x : slave) : Client_t := l_client (s_link x).
Definition set_mtx (l : spinlock) (x : slave) : slave := Slave (s_link x) (s_conn x) l.
Definition set_slave (a : nat) (x : slave) (s : table) : table := Table (nodes s) (<[a := x]> (slaves s)).

(** Through a pointer: undefined when the object was deleted. *)
Definition slave_at (a : nat) (s : table) : res slave :=
  match slaves s !! a with Some x => Ok x | None => Undef end.

(** [++itc], through the node: undefined when the node was erased. *)
Fixpoint successor (a : nat) (l : list (bytes * nat)) : res (option nat) :=
  match l with
  | [] => Undef
  | (_, b) :: l => if decide (a = b) then Ok (snd <$> head l) else successor a l
  end.

(** ** A sender *)

(** The access that the thread does next. *)
Inductive place :=
  | Begin                                      (** [data.size()], [repClients.begin()] *)
  | IsRunning (a : nat)                        (** [client->state == running] *)
  | IsSyncing (a : nat)                        (** [client->state == syncing] *)
  | ReadCurrent (a : nat)                      (** [client->current()] *)
  | Locking (a : nat) (item : bytes * bytes)   (** [mtx.lock()] of [enqueue] *)
  | Pushing (a : nat) (item : bytes * bytes)   (** [queue.push_back(buf)] *)
  | Unlocking (a : nat)                        (** the end of [enqueue] *)
  | Advance (a : nat)                          (** [itc++] *)
  | Done.

(** [enqueue] inside its lock; the log is what was ever enqueued. *)
(* src: src/replication.hpp 47-50 Client_t::enqueue *)
Definition push_item (item : bytes * bytes) (x : slave) : slave :=
  let l := s_link x in
  Slave (Link (enqueue item (l_client l)) (l_sent l) (l_tasks l) (l_confirmed l) (l_log l ++ [item]))
    (s_conn x) (s_mtx x).

(* src: src/replication.hpp 266-279 Replication::_send_to_clients *)
Definition send_access (u : broadcast) (p : place) (s : table) : res (place * table) :=
  match p with
  | Begin =>
      if decide (data_size u = 0%nat) then mret (Done, s)
      else mret (match nodes s with [] => Done | (_, a) :: _ => IsRunning a end, s)
  | IsRunning a =>
      x ← slave_at a s;
      if decide (state (client_of x) = running) then item ← item_of u; mret (Locking a item, s)
      else mret (IsSyncing a, s)
  | IsSyncing a =>
      x ← slave_at a s;
      mret (if decide (state (client_of x) = syncing) then ReadCurrent a else Advance a, s)
  | ReadCurrent a =>
      x ← slave_at a s;
      let partial := partial_of u (current (client_of x)) in
      if decide (data_size partial = 0%nat) then mret (Advance a, s)
      else item ← item_of partial; mret (Locking a item, s)
  | Locking a item =>
      x ← slave_at a s;
      let '(got, l) := spin (s_mtx x) in
      mret (if got : bool then Pushing a item else p, set_slave a (set_mtx l x) s)
  | Pushing a item => x ← slave_at a s; mret (Unlocking a, set_slave a (push_item item x) s)
  | Unlocking a => x ← slave_at a s; mret (Advance a, set_slave a (set_mtx (unlock (s_mtx x)) x) s)
  | Advance a => next ← successor a (nodes s); mret (match next with Some b => IsRunning b | None => Done end, s)
  | Done => mret (Done, s)
  end.

(** ** A slave that stops

    [add_client] with the state ["stop"], which [setstate] calls on the
    thread of the slave's connection. *)
Inductive stop_place := StopDelete | StopErase | Stopped.

Definition pointer_of (id : bytes) (l : list (bytes * nat)) : option nat :=
  snd <$> head (filter (λ n, n.1 = id) l).

(* src: src/replication.hpp 234-238 Replication::add_client *)
Definition stop_access (id : bytes) (p : stop_place) (s : table) : res (stop_place * table) :=
  match p with
  | StopDelete =>
      match pointer_of id (nodes s) with
      | Some a => mret (StopErase, Table (nodes s) (delete a (slaves s)))
      | None => mret (Stopped, s)
      end
  | StopErase => mret (Stopped, Table (filter (λ n, n.1 ≠ id) (nodes s)) (slaves s))
  | Stopped => mret (Stopped, s)
  end.

(** ** The threads *)

Inductive thread :=
  | Sender (u : broadcast) (p : place)
  | Stopper (id : bytes) (p : stop_place).

Definition thread_access (t : thread) (s : table) : res (thread * table) :=
  match t with
  | Sender u p => '(p, s) ← send_access u p s; mret (Sender u p, s)
  | Stopper id p => '(p, s) ← stop_access id p s; mret (Stopper id p, s)
  end.

Section steps.
Context {D : Type} `{LevelDB D}.

(** One access of a thread, or a handler of a slave's connection: it gets the
    lock, so nobody holds it. *)
Inductive table_step : table * list thread → table * list thread → Prop :=
  | step_thread s ts i t t' s' :
      ts !! i = Some t → thread_access t s = Ok (t', s') → table_step (s, ts) (s', <[i := t']> ts)
  | step_handler s ts a x r l :
      slaves s !! a = Some x → value (s_mtx x) = false →
      link_step (D := D) (s_conn x) (s_link x) r l → l_log l = l_log (s_link x) →
      table_step (s, ts) (set_slave a (Slave l (s_conn x) (s_mtx x)) s, ts).
End steps.

(** The threads take turns as the list says; the handlers wait. *)
Fixpoint run_turns (turns : list nat) (x : table * list thread) : res (table * list thread) :=
  match turns with
  | [] => Ok x
  | i :: turns =>
      match x.2 !! i with
      | Some t => '(t, s) ← thread_access t x.1; run_turns turns (s, <[i := t]> x.2)
      | None => run_turns turns x
      end
  end.

Lemma turns_are_steps {D} `{LevelDB D} turns x y :
  run_turns turns x = Ok y → rtc (table_step (D := D)) x y.
Proof.
  revert x. induction turns as [|i turns IH]; intros [s ts]; cbn; [by intros [= ->]|].
  destruct (ts !! i) as [t|] eqn:Hi; [|apply IH].
  destruct (thread_access t s) as [[t' s']| | |] eqn:Ht; try discriminate. cbn. intros Hy.
  eapply rtc_l; [by eapply step_thread|by apply IH].
Qed.

(** ** A sender alone

    Between two accesses of a sender that no other thread interrupts the
    table is the one of [Replication]: what it does to each slave is
    [send_to_client]. *)

(* src: src/replication.hpp 283-303 Replication::set, set_range, del *)
Definition broadcast_to (u : broadcast) : Client_t → res Client_t :=
  match u with
  | B_set data => send_to_client valmap2str_json fst (str "set") data
  | B_set_range data => send_to_client valmap2str_json fst (str "set_range") data
  | B_del data => send_to_client vallist_json id (str "del") data
  end.

Definition sender_step (u : broadcast) (x y : place * table) : Prop := send_access u x.1 x.2 = Ok y.

Lemma item_of_total u : ∃ item, item_of u = Ok item.
Proof.
  destruct u as [l|l|l]; unfold item_of; [destruct (valmap2str_total l) as [? ->]|destruct (valmap2str_total l) as [? ->]|
    destruct (vallist_total l) as [? ->]]; by eexists.
Qed.

Lemma item_of_sendable u item : item_of u = Ok item → sendable item.
Proof.
  destruct u as [l|l|l]; unfold item_of; [destruct (valmap2str_total l) as [? ->]|destruct (valmap2str_total l) as [? ->]|
    destruct (vallist_total l) as [? ->]]; intros [= <-]; by eexists.
Qed.

Lemma length_zero {A} (l : list A) : length l = 0%nat ↔ l = [].
Proof. by destruct l. Qed.

Lemma send_item {A} (T : serializer A) cmd x c :
  send T cmd x c = (item ← (buf ← ser T x; mret (cmd, buf)); Ok (enqueue item c)).
Proof. unfold send. by destruct (ser T x). Qed.

Lemma send_partial {A} (T : serializer (list A)) cmd l c :
  match l with [] => Ok c | a :: l' => send T cmd (a :: l') c end
  = if decide (length l = 0%nat) then Ok c else item ← (buf ← ser T l; mret (cmd, buf)); Ok (enqueue item c).
Proof. destruct l; [done|]. rewrite decide_False by done. apply send_item. Qed.

(** [send_to_client] by the state of the slave. *)
Lemma broadcast_to_eq u c :
  broadcast_to u c =
  match state c with
  | running => item ← item_of u; Ok (enqueue item c)
  | syncing =>
      let partial := partial_of u (current c) in
      if decide (data_size partial = 0%nat) then Ok c else item ← item_of partial; Ok (enqueue item c)
  | _ => Ok c
  end.
Proof.
  destruct u as [l|l|l]; unfold broadcast_to, send_to_client; destruct (state c); try done.
  all: first [exact (send_item _ _ _ _)|exact (send_partial _ _ _ _)].
Qed.

Lemma slave_at_some a x s : slaves s !! a = Some x → slave_at a s = Ok x.
Proof. unfold slave_at. by intros ->. Qed.

Lemma set_slave_at a x s : slave_at a (set_slave a x s) = Ok x.
Proof. unfold slave_at, set_slave. simpl. by rewrite lookup_insert_eq. Qed.

Lemma set_slave_twice a x y s : set_slave a x (set_slave a y s) = set_slave a x s.
Proof. unfold set_slave. simpl. by rewrite insert_insert_eq. Qed.

(** [enqueue] on a free lock. *)
Lemma enqueue_alone u a item x s :
  slaves s !! a = Some x → value (s_mtx x) = false →
  rtc (sender_step u) (Locking a item, s) (Advance a, set_slave a (push_item item x) s).
Proof.
  intros Hx Hl. destruct x as [l n [v]]. cbn in Hl. subst v.
  eapply rtc_l; [unfold sender_step; cbn; by rewrite (slave_at_some _ _ _ Hx)|].
  eapply rtc_l; [unfold sender_step; cbn; by rewrite set_slave_at|]. cbn. rewrite set_slave_twice.
  eapply rtc_l; [unfold sender_step; cbn; by rewrite set_slave_at|]. cbn. by rewrite set_slave_twice.
Qed.

Lemma visit_alone u a x s :
  slaves s !! a = Some x → value (s_mtx x) = false →
  ∃ x', rtc (sender_step u) (IsRunning a, s) (Advance a, set_slave a x' s) ∧
    broadcast_to u (client_of x) = Ok (client_of x') ∧ value (s_mtx x') = false.
Proof.
  intros Hx Hl. rewrite broadcast_to_eq. pose proof (slave_at_some _ _ _ Hx) as Ha.
  assert (set_slave a x s = s) as Hid by (destruct s as [ns ss]; unfold set_slave; simpl in *; by rewrite insert_id).
  destruct (item_of_total u) as [item Hi]. destruct (item_of_total (partial_of u (current (client_of x)))) as [part Hp].
  assert (∀ p' s', send_access u (IsRunning a) s = Ok (p', s') →
    ∀ z, rtc (sender_step u) (p', s') z → rtc (sender_step u) (IsRunning a, s) z) as Hfirst by (intros; by eapply rtc_l).
  destruct (decide (state (client_of x) = running)) as [Hr|Hr].
  { rewrite Hr. exists (push_item item x). split_and!; [|by rewrite Hi|done].
    eapply Hfirst; [cbn; rewrite Ha; cbn; by rewrite decide_True, Hi by done|by apply enqueue_alone]. }
  assert (∀ z, rtc (sender_step u) (IsSyncing a, s) z → rtc (sender_step u) (IsRunning a, s) z) as Hnext.
  { intros z. apply Hfirst. cbn. rewrite Ha. cbn. by rewrite decide_False. }
  destruct (decide (state (client_of x) = syncing)) as [Hs|Hs].
  2:{ exists x. rewrite Hid. split_and!; [|by destruct (state (client_of x))|done].
      apply Hnext, rtc_once. unfold sender_step. cbn. rewrite Ha. cbn. by rewrite decide_False. }
  rewrite Hs. cbn zeta. destruct (decide (data_size _ = 0%nat)) as [Hz|Hz].
  - exists x. rewrite Hid. split_and!; [|done|done]. apply Hnext.
    eapply rtc_l; [unfold sender_step; cbn; rewrite Ha; cbn; by rewrite decide_True|].
    apply rtc_once. unfold sender_step. cbn. rewrite Ha. cbn. by rewrite decide_True.
  - exists (push_item part x). rewrite Hp. split_and!; [|done|done]. apply Hnext.
    eapply rtc_l; [unfold sender_step; cbn; rewrite Ha; cbn; by rewrite decide_True|].
    eapply rtc_l; [unfold sender_step; cbn; rewrite Ha; cbn; by rewrite decide_False, Hp|]. by apply enqueue_alone.
Qed.

(** The table of [Replication] that a table of objects is, while nobody holds
    a lock. *)
Record table_of (s : table) (r : Replication) : Prop := {
  to_ids : NoDup (nodes s).*1;
  to_pointers : NoDup (nodes s).*2;
  to_objects id a : (id, a) ∈ nodes s →
    ∃ x, slaves s !! a = Some x ∧ value (s_mtx x) = false ∧ repClients r !! id = Some (client_of x);
  to_domain id c : repClients r !! id = Some c → id ∈ (nodes s).*1;
}.

(** The order of the iterators, with [++itc]. *)
Lemma successor_spec l1 id a l2 : a ∉ l1.*2 → successor a (l1 ++ (id, a) :: l2) = Ok (snd <$> head l2).
Proof.
  induction l1 as [|[i b] l1 IH]; intros Ha; simpl in *; [by rewrite decide_True|].
  apply not_elem_of_cons in Ha as [Hne Ha]. rewrite decide_False by done. by apply IH.
Qed.

(** The nodes [l2] are still to be visited. *)
Lemma visits_alone u ns l1 l2 s :
  nodes s = ns → ns = l1 ++ l2 → NoDup ns.*2 →
  (∀ a, a ∈ l2.*2 → ∃ x, slaves s !! a = Some x ∧ value (s_mtx x) = false) →
  ∃ s', rtc (sender_step u) (match l2 with [] => Done | (_, a) :: _ => IsRunning a end, s) (Done, s') ∧
    nodes s' = ns ∧ ∀ a, (a ∉ l2.*2 → slaves s' !! a = slaves s !! a) ∧
      (a ∈ l2.*2 → ∃ x x', slaves s !! a = Some x ∧ slaves s' !! a = Some x' ∧ value (s_mtx x') = false ∧
        broadcast_to u (client_of x) = Ok (client_of x')).
Proof.
  revert l1 s. induction l2 as [|[id b] l2 IH]; intros l1 s Hns Hl Hnd Hs.
  { exists s. split_and!; [done|done|]. intros a. split; [done|]. by intros ?%not_elem_of_nil. }
  destruct (Hs b) as (x & Hx & Hfree); [simpl; apply list_elem_of_here|].
  destruct (visit_alone u b x s Hx Hfree) as (x' & Hrun & Hx' & Hfree').
  assert (b ∉ l1.*2 ∧ b ∉ l2.*2) as [Hb1 Hb2].
  { rewrite Hl, fmap_app in Hnd. apply NoDup_app in Hnd as (_ & Hd & Hnd). split; [|by apply NoDup_cons in Hnd as [? _]].
    intros Hin. apply (Hd b Hin), list_elem_of_here. }
  destruct (IH (l1 ++ [(id, b)]) (set_slave b x' s)) as (s' & Hrun' & Hns' & Hs'); [done|by rewrite <-app_assoc|done| |].
  { intros a Ha. destruct (Hs a) as (y & Hy & ?); [simpl; by apply list_elem_of_further|]. exists y. split; [|done].
    simpl. rewrite lookup_insert_ne; [done|]. by intros ->. }
  exists s'. split_and!; [|done|].
  - etrans; [exact Hrun|]. eapply rtc_l; [|exact Hrun']. unfold sender_step. cbn. rewrite Hns, Hl, successor_spec by done.
    cbn. by destruct l2 as [|[]].
  - intros a. destruct (Hs' a) as [Hout Hin]. cbn [fmap list_fmap snd]. split.
    + intros [Hne Ha]%not_elem_of_cons. rewrite Hout by done. simpl. by rewrite lookup_insert_ne.
    + intros [->|Ha]%elem_of_cons.
      * exists x, x'. rewrite Hout by done. simpl. by rewrite lookup_insert_eq.
      * destruct (Hin Ha) as (y & y' & Hy & ?). exists y, y'. simpl in Hy. rewrite lookup_insert_ne in Hy; [done|].
        by intros ->.
Qed.

(* src: src/replication.hpp 283-303 Replication::set, set_range, del *)
Definition rep_broadcast `{HashOrder} (u : broadcast) : Replication → res Replication :=
  match u with
  | B_set data => rep_set data
  | B_set_range data => rep_set_range data
  | B_del data => rep_del data
  end.

Lemma rep_broadcast_spec `{HashOrder} u r :
  ∃ r', rep_broadcast u r = Ok r' ∧
    ∀ id, match repClients r !! id with
          | Some c => ∃ c', repClients r' !! id = Some c' ∧
              if decide (data_size u = 0%nat) then c' = c else broadcast_to u c = Ok c'
          | None => repClients r' !! id = None
          end.
Proof.
  assert (∀ A (T : serializer (list A)) key_of cmd data, (∀ l, ∃ s, ser T l = Ok s) →
    ∃ r', _send_to_clients T key_of cmd data r = Ok r' ∧
      ∀ id, match repClients r !! id with
            | Some c => ∃ c', repClients r' !! id = Some c' ∧
                if decide (length data = 0%nat) then c' = c else send_to_client T key_of cmd data c = Ok c'
            | None => repClients r' !! id = None
            end) as Hall.
  { intros A T key_of cmd data HT. unfold _send_to_clients.
    destruct data as [|x data]; [exists r; split; [done|]; intros id; destruct (repClients r !! id); [by eexists|done]|].
    destruct (send_each_spec T key_of cmd (x :: data) (hash_order (repClients r)) (repClients r) HT) as (m' & -> & Hm').
    { rewrite hash_order_perm. apply NoDup_fst_map_to_list. }
    { intros id c Hin. rewrite hash_order_perm in Hin. by apply elem_of_map_to_list. }
    exists (set_repClients m' r). split; [done|]. intros id. destruct (Hm' id) as [Hout Hin].
    destruct (repClients r !! id) as [c|] eqn:Hc; simpl repClients.
    - destruct (Hin c) as (c' & Hc' & Hid); [rewrite hash_order_perm; by apply elem_of_map_to_list|].
      exists c'. split; [done|]. by rewrite decide_False.
    - rewrite Hout; [done|]. rewrite hash_order_perm. intros ([i c] & -> & Hi)%list_elem_of_fmap.
      apply elem_of_map_to_list in Hi. simpl in Hc. congruence. }
  destruct u as [l|l|l]; [apply (Hall _ valmap2str_json fst (str "set")), valmap2str_total|
    apply (Hall _ valmap2str_json fst (str "set_range")), valmap2str_total|apply (Hall _ vallist_json id (str "del")), vallist_total].
Qed.

Lemma NoDup_fst_eq {A B} (l : list (A * B)) a b b' : NoDup l.*1 → (a, b) ∈ l → (a, b') ∈ l → b = b'.
Proof.
  induction l as [|[x y] l IH]; intros Hnd H1 H2; [by apply not_elem_of_nil in H1|].
  apply NoDup_cons in Hnd as [Hx Hnd]. simpl in Hx.
  apply elem_of_cons in H1 as [H1|H1]; apply elem_of_cons in H2 as [H2|H2]; simplify_eq; [done| | |by apply IH].
  all: by destruct Hx; apply list_elem_of_fmap; eexists (_, _).
Qed.

Lemma elem_of_snd {A B} (l : list (A * B)) b : b ∈ l.*2 ↔ ∃ a, (a, b) ∈ l.
Proof.
  rewrite list_elem_of_fmap. split; [intros ([a ?] & -> & ?); by exists a|intros [a ?]; by exists (a, b)].
Qed.
Lemma elem_of_fst {A B} (l : list (A * B)) a : a ∈ l.*1 ↔ ∃ b, (a, b) ∈ l.
Proof.
  rewrite list_elem_of_fmap. split; [intros ([? b] & -> & ?); by exists b|intros [b ?]; by exists (a, b)].
Qed.

Lemma begin_alone u s r :
  table_of s r →
  ∃ s', rtc (sender_step u) (Begin, s) (Done, s') ∧ nodes s' = nodes s ∧
    ∀ id a, (id, a) ∈ nodes s → ∃ x x', slaves s !! a = Some x ∧ slaves s' !! a = Some x' ∧ value (s_mtx x') = false ∧
      if decide (data_size u = 0%nat) then client_of x' = client_of x else broadcast_to u (client_of x) = Ok (client_of x').
Proof.
  intros [Hids Hptr Hobj Hdom]. destruct (decide (data_size u = 0%nat)) as [Hz|Hz].
  - exists s. split_and!; [apply rtc_once; unfold sender_step; cbn; by rewrite decide_True|done|].
    intros id a Hin. destruct (Hobj id a Hin) as (x & Hx & Hf & _). by exists x, x.
  - destruct (visits_alone u (nodes s) [] (nodes s) s) as (s' & Hrun & Hns & Hs'); [done|done|done| |].
    { intros a [id Hin]%elem_of_snd. destruct (Hobj id a Hin) as (x & ? & ? & _). by exists x. }
    exists s'. split_and!; [|done|].
    + eapply rtc_l; [|exact Hrun]. unfold sender_step. cbn. by rewrite decide_False.
    + intros id a Hin. destruct (Hs' a) as [_ Ha]. apply Ha. apply elem_of_snd. by exists id.
Qed.
