(* ===== verification/BroadcastSpec.v ===== *)
(** * BroadcastSpec: what the senders of [Broadcast] do together

    The invariant of a table of running slaves under any number of senders,
    their end, and what the slaves make of the updates.  The properties of the
    broadcast are at the end. *)

From S2P Require Import Prelude JsonParser Serializer JsonString JsonArray Queries LevelDb Replication ReplicationQueue ReplicationSync Locks Broadcast.

(** ** Many senders

    The slaves are running, the table does not change: the nodes [ns], with
    the logs [log0] at the start. *)

Fixpoint position (a : nat) (l : list nat) : nat :=
  match l with
  | [] => 0
  | b :: l => if decide (a = b) then 0 else S (position a l)
  end%nat.

Lemma position_split l1 a l2 : a ∉ l1 → position a (l1 ++ a :: l2) = length l1.
Proof.
  induction l1 as [|b l1 IH]; intros Ha; simpl; [by rewrite decide_True|].
  apply not_elem_of_cons in Ha as [Hne Ha]. rewrite decide_False by done. by rewrite IH.
Qed.

Lemma position_lookup a l : a ∈ l → l !! position a l = Some a.
Proof.
  induction l as [|b l IH]; intros Ha; [by apply not_elem_of_nil in Ha|]. simpl.
  destruct (decide (a = b)) as [->|Hne]; [done|]. apply IH. by apply elem_of_cons in Ha as [|].
Qed.

Lemma position_inj a b l : a ∈ l → b ∈ l → position a l = position b l → a = b.
Proof. intros Ha%position_lookup Hb%position_lookup Heq. rewrite Heq in Ha. congruence. Qed.

(** What an insertion into a list of threads changes of what is collected
    from it. *)
Lemma omap_insert_perm {A B} (f : A → option B) l i x y :
  l !! i = Some x → omap f (<[i := y]> l) ++ option_list (f x) ≡ₚ omap f l ++ option_list (f y).
Proof.
  intros Hi. assert (i < length l)%nat as Hlt by (by eapply lookup_lt_Some).
  rewrite insert_take_drop by done. rewrite <-(take_drop_middle l i x Hi) at 3.
  rewrite !omap_app. simpl. destruct (f x), (f y); simpl; rewrite ?app_nil_r; solve_Permutation.
Qed.

Lemma omap_insert_same {A B} (f : A → option B) l i x y :
  l !! i = Some x → f y = f x → omap f (<[i := y]> l) ≡ₚ omap f l.
Proof. intros Hi Hf. pose proof (omap_insert_perm f l i x y Hi) as Hp. rewrite Hf in Hp. by apply Permutation_app_inv_r in Hp. Qed.
Lemma omap_insert_more {A B} (f : A → option B) l i x y b :
  l !! i = Some x → f x = None → f y = Some b → omap f (<[i := y]> l) ≡ₚ omap f l ++ [b].
Proof. intros Hi Hx Hy. pose proof (omap_insert_perm f l i x y Hi) as Hp. rewrite Hx, Hy in Hp. simpl in Hp. by rewrite app_nil_r in Hp. Qed.
Lemma omap_insert_less {A B} (f : A → option B) l i x y b :
  l !! i = Some x → f x = Some b → f y = None → omap f (<[i := y]> l) ++ [b] ≡ₚ omap f l.
Proof. intros Hi Hx Hy. pose proof (omap_insert_perm f l i x y Hi) as Hp. rewrite Hx, Hy in Hp. simpl in Hp. by rewrite app_nil_r in Hp. Qed.

Lemma first_node (l : list (bytes * nat)) :
  (match l with [] => Done | (_, a) :: _ => IsRunning a end = Done ∧ l.*2 = []) ∨
  ∃ a, match l with [] => Done | (_, a) :: _ => IsRunning a end = IsRunning a ∧ a ∈ l.*2 ∧ position a l.*2 = 0%nat.
Proof.
  destruct l as [|[id a] l]; [by left|right]. exists a. split_and!; [done|apply list_elem_of_here|]. simpl. by rewrite decide_True.
Qed.

Section running.
Context {D : Type} `{LevelDB D}.
Context (ns : list (bytes * nat)) (log0 : nat → list (bytes * bytes)).
Hypothesis pointers : NoDup ns.*2.

Notation pos a := (position a ns.*2).

(** The item that a running slave gets of an update. *)
Definition sent_item (u : broadcast) : option (bytes * bytes) :=
  match item_of u with Ok item => if decide (data_size u = 0%nat) then None else Some item | _ => None end.

(** Whether a sender has pushed its item to the slave [a]. *)
Definition past (a : nat) (p : place) : bool :=
  match p with
  | Begin => false
  | IsRunning b | IsSyncing b | ReadCurrent b | Locking b _ | Pushing b _ => Nat.ltb (pos a) (pos b)
  | Unlocking b | Advance b => Nat.leb (pos a) (pos b)
  | Done => true
  end.
Definition pushed (a : nat) (t : thread) : option (bytes * bytes) :=
  match t with Sender u p => if past a p then sent_item u else None | Stopper _ _ => None end.

(** Whether the thread holds the lock of the slave [a]. *)
Definition holds (a : nat) (t : thread) : option unit :=
  match t with
  | Sender _ (Pushing b _) | Sender _ (Unlocking b) => if decide (a = b) then Some () else None
  | _ => None
  end.

Definition place_ok (u : broadcast) (p : place) : Prop :=
  match p with
  | Begin => True
  | IsRunning a | Unlocking a | Advance a => a ∈ ns.*2 ∧ data_size u ≠ 0%nat
  | Locking a item | Pushing a item => a ∈ ns.*2 ∧ data_size u ≠ 0%nat ∧ item_of u = Ok item
  | IsSyncing _ | ReadCurrent _ => False
  | Done => True
  end.
Definition thread_ok (t : thread) : Prop := match t with Sender u p => place_ok u p | Stopper _ _ => False end.

Record slave_ok (a : nat) (x : slave) (ts : list thread) : Prop := {
  so_link : link_reachable (D := D) (s_conn x) (s_link x);
  so_log : ∃ L, l_log (s_link x) = log0 a ++ L ∧ L ≡ₚ omap (pushed a) ts;
  so_lock : length (omap (holds a) ts) = if value (s_mtx x) then 1%nat else 0%nat;
}.

Record table_ok (x : table * list thread) : Prop := {
  tk_nodes : nodes x.1 = ns;
  tk_threads : Forall thread_ok x.2;
  tk_slaves a : a ∈ ns.*2 → ∃ y, slaves x.1 !! a = Some y ∧ slave_ok a y x.2;
}.

Lemma slave_ok_same a y ts i t t' :
  ts !! i = Some t → pushed a t' = pushed a t → holds a t' = holds a t → slave_ok a y ts → slave_ok a y (<[i := t']> ts).
Proof using Type.
  intros Hi Hp Hh [Hl (L & Hlog & HL) Hk]. split; [done| |].
  - exists L. split; [done|]. by rewrite (omap_insert_same _ _ _ t).
  - by rewrite (Permutation_length (omap_insert_same _ _ _ t _ Hi Hh)).
Qed.

(** A thread moves and the table stays. *)
Lemma table_ok_silent s ts i t t' :
  table_ok (s, ts) → ts !! i = Some t → thread_ok t' →
  (∀ a, a ∈ ns.*2 → pushed a t' = pushed a t ∧ holds a t' = holds a t) → table_ok (s, <[i := t']> ts).
Proof using Type.
  intros [Hn Ht Hs] Hi Hok Hsame. split; [done|by apply Forall_insert|]. intros a Ha.
  destruct (Hs a Ha) as (y & Hy & Hk). destruct (Hsame a Ha). exists y. split; [done|]. by eapply slave_ok_same.
Qed.

(** A thread moves and changes the slave [b]. *)
Lemma table_ok_set s ts i t t' b y y' :
  table_ok (s, ts) → ts !! i = Some t → thread_ok t' →
  slaves s !! b = Some y → (slave_ok b y ts → slave_ok b y' (<[i := t']> ts)) →
  (∀ a, a ∈ ns.*2 → a ≠ b → pushed a t' = pushed a t ∧ holds a t' = holds a t) →
  table_ok (set_slave b y' s, <[i := t']> ts).
Proof using Type.
  intros [Hn Ht Hs] Hi Hok Hy Hb Hsame. split; [done|by apply Forall_insert|]. cbn [fst snd] in *. intros a Ha.
  destruct (Hs a Ha) as (z & Hz & Hk). destruct (decide (a = b)) as [->|Hne].
  - rewrite Hy in Hz. injection Hz as <-. exists y'. split; [by apply lookup_insert_eq|]. by apply Hb.
  - destruct (Hsame a Ha Hne). exists z. split; [cbn; by rewrite lookup_insert_ne|]. by eapply slave_ok_same.
Qed.

(** [past] only depends on the place of the pointer in the list. *)
Lemma past_other a b p q :
  a ∈ ns.*2 → b ∈ ns.*2 → a ≠ b →
  (past a p = Nat.ltb (pos a) (pos b) ∨ past a p = Nat.leb (pos a) (pos b)) →
  (past a q = Nat.ltb (pos a) (pos b) ∨ past a q = Nat.leb (pos a) (pos b)) → past a q = past a p.
Proof using Type.
  clear log0. intros Ha Hb Hne. assert (pos a ≠ pos b) by (intros ?%position_inj; done).
  destruct (Nat.ltb_spec (pos a) (pos b)), (Nat.leb_spec (pos a) (pos b)); try lia; naive_solver congruence.
Qed.

Lemma link_running conn l : link_reachable (D := D) conn l → state (l_client l) = running.
Proof using Type. intros Hl%link_reachable_ok. apply Hl. Qed.

(** The two accesses to the lock and the one inside it. *)
Lemma locking_ok s ts i u b item y :
  table_ok (s, ts) → ts !! i = Some (Sender u (Locking b item)) → place_ok u (Locking b item) →
  slaves s !! b = Some y → value (s_mtx y) = false →
  table_ok (set_slave b (set_mtx (Spinlock true) y) s, <[i := Sender u (Pushing b item)]> ts).
Proof using Type.
  intros Hok Hi Hp Hy Hv. refine (table_ok_set _ _ _ _ _ b y _ Hok Hi _ Hy _ _); [done| |].
  - intros [Hl (L & Hlog & HL) Hk]. split; [done| |].
    + exists L. split; [done|]. by rewrite (omap_insert_same _ _ _ _ _ Hi).
    + rewrite Hv in Hk. rewrite (Permutation_length (omap_insert_more (holds b) _ _ _ (Sender u (Pushing b item)) () Hi eq_refl
        ltac:(cbn; by rewrite decide_True))), length_app, Hk. done.
  - intros a _ Hne. split; [done|]. cbn. by rewrite decide_False.
Qed.

Lemma pushing_ok s ts i u b item y :
  table_ok (s, ts) → ts !! i = Some (Sender u (Pushing b item)) → place_ok u (Pushing b item) →
  slaves s !! b = Some y →
  table_ok (set_slave b (push_item item y) s, <[i := Sender u (Unlocking b)]> ts).
Proof using pointers.
  intros Hok Hi (Hb & Hz & Hitem) Hy. refine (table_ok_set _ _ _ _ _ b y _ Hok Hi _ Hy _ _); [done| |].
  - intros [Hl (L & Hlog & HL) Hk]. split.
    + eapply reach_step; [exact Hl|]. apply step_enqueue. by eapply item_of_sendable.
    + exists (L ++ [item]). split; [cbn; by rewrite Hlog, <-app_assoc|].
      rewrite HL. symmetry. apply (omap_insert_more (pushed b) _ _ _ _ item Hi); unfold pushed, past.
      * by rewrite Nat.ltb_irrefl.
      * rewrite Nat.leb_refl. unfold sent_item. by rewrite Hitem, decide_False.
    + cbn. by rewrite (Permutation_length (omap_insert_same (holds b) _ _ _ (Sender u (Unlocking b)) Hi eq_refl)).
  - intros a Ha Hne. split; [|done]. unfold pushed. by rewrite (past_other a b (Pushing b item) (Unlocking b)) by eauto.
Qed.

Lemma unlocking_ok s ts i u b y :
  table_ok (s, ts) → ts !! i = Some (Sender u (Unlocking b)) → place_ok u (Unlocking b) →
  slaves s !! b = Some y →
  table_ok (set_slave b (set_mtx (unlock (s_mtx y)) y) s, <[i := Sender u (Advance b)]> ts).
Proof using Type.
  intros Hok Hi Hp Hy. refine (table_ok_set _ _ _ _ _ b y _ Hok Hi _ Hy _ _); [done| |].
  - intros [Hl (L & Hlog & HL) Hk]. split; [done| |].
    + exists L. split; [done|]. by rewrite (omap_insert_same _ _ _ _ _ Hi).
    + pose proof (Permutation_length (omap_insert_less (holds b) _ _ _ (Sender u (Advance b)) () Hi
        ltac:(cbn; by rewrite decide_True) eq_refl)) as Hlen. rewrite length_app, Hk in Hlen. simpl in *.
      destruct (value (s_mtx y)); lia.
  - intros a _ Hne. split; [done|]. cbn. by rewrite decide_False.
Qed.

(** Where the iterator goes. *)
Lemma advance_ok s b :
  nodes s = ns → b ∈ ns.*2 →
  ∃ next, successor b (nodes s) = Ok next ∧
    match next with
    | Some c => c ∈ ns.*2 ∧ pos c = S (pos b)
    | None => ∀ a, a ∈ ns.*2 → (pos a ≤ pos b)%nat
    end.
Proof using pointers.
  clear log0. intros Hn Hb. apply elem_of_snd in Hb as [id Hb]. apply list_elem_of_split in Hb as (l1 & l2 & Hs).
  assert (NoDup (l1.*2 ++ b :: l2.*2)) as Hnd by (rewrite Hs, fmap_app in pointers; exact pointers).
  assert (b ∉ l1.*2) as Hb1 by (apply NoDup_app in Hnd as (_ & Hd & _); intros Hin; apply (Hd b Hin), list_elem_of_here).
  assert (ns.*2 = l1.*2 ++ b :: l2.*2) as Hns by (rewrite Hs, fmap_app; done).
  rewrite Hn, Hs, successor_spec by done. eexists. split; [done|].
  destruct l2 as [|[id2 c] l2]; cbn in Hns |- *; rewrite <-Hs, Hns.
  - intros a Ha. rewrite (position_split _ _ _ Hb1). apply position_lookup, lookup_lt_Some in Ha.
    rewrite length_app in Ha. simpl in Ha. lia.
  - split; [apply elem_of_app; right; apply list_elem_of_further, list_elem_of_here|].
    rewrite (position_split _ _ _ Hb1). assert (c ∉ l1.*2 ++ [b]) as Hc.
    { change (b :: ((id2, c) :: l2).*2) with ([b] ++ (c :: l2.*2)) in Hnd. rewrite (assoc_L (++)) in Hnd.
      apply NoDup_app in Hnd as (_ & Hd & _). intros Hin. apply (Hd c Hin), list_elem_of_here. }
    change (b :: c :: l2.*2) with ([b] ++ (c :: l2.*2)). rewrite (assoc_L (++)), (position_split _ _ _ Hc), length_app.
    simpl. lia.
Qed.

Lemma sender_ok s ts i u p :
  table_ok (s, ts) → ts !! i = Some (Sender u p) →
  ∃ p' s', send_access u p s = Ok (p', s') ∧ table_ok (s', <[i := Sender u p']> ts).
Proof using pointers.
  intros Hok Hi. assert (place_ok u p) as Hp by exact (Forall_lookup_1 _ _ _ _ (tk_threads _ Hok) Hi).
  assert (∀ b, b ∈ ns.*2 → ∃ y, slave_at b s = Ok y ∧ slaves s !! b = Some y ∧ state (client_of y) = running) as Hat.
  { intros b Hb. destruct (tk_slaves _ Hok b Hb) as (y & Hy & [Hl _ _]). exists y.
    split_and!; [by apply slave_at_some|done|by apply link_running in Hl]. }
  pose proof (table_ok_silent s ts i _ (Sender u Done) Hok Hi I) as Hdone.
  destruct p as [|b|b|b|b item|b item|b|b|]; try done; cbn [send_access].
  - destruct (decide (data_size u = 0%nat)) as [Hz|Hz].
    { do 2 eexists. split; [done|]. apply Hdone. intros a Ha. unfold pushed, sent_item. destruct (item_of u); by rewrite ?decide_True. }
    do 2 eexists. split; [done|]. rewrite (tk_nodes _ Hok : nodes s = ns). destruct (first_node ns) as [[-> Hnil]|(b & -> & Hb & Hpos)].
    { apply Hdone. rewrite Hnil. by intros a ?%not_elem_of_nil. }
    eapply table_ok_silent; [done|done|by split|]. intros a _. split; [|done]. unfold pushed, past. by rewrite Hpos.
  - destruct Hp as [Hb Hz]. destruct (Hat b Hb) as (y & -> & Hy & Hr). destruct (item_of_total u) as [item Hit].
    cbn. rewrite decide_True, Hit by done. do 2 eexists. split; [done|]. eapply table_ok_silent; [done|done|by split_and!|done].
  - pose proof Hp as (Hb & _ & _). destruct (Hat b Hb) as (y & -> & Hy & _). destruct (spin (s_mtx y)) as [got m] eqn:Hspin.
    cbn. destruct (value (s_mtx y)) eqn:Hv; [rewrite (spin_taken _ Hv) in Hspin|rewrite (spin_free _ Hv) in Hspin];
      injection Hspin as <- <-; do 2 eexists; (split; [done|]).
    + rewrite list_insert_id by done. destruct y as [l n [v]]. cbn in Hv. subst v. unfold set_slave, set_mtx. cbn. rewrite insert_id by done. by destruct s.
    + by eapply locking_ok.
  - pose proof Hp as (Hb & _ & _). destruct (Hat b Hb) as (y & -> & Hy & _). do 2 eexists. split; [done|]. by eapply pushing_ok.
  - destruct (Hat b (proj1 Hp)) as (y & -> & Hy & _). do 2 eexists. split; [done|]. by eapply unlocking_ok.
  - destruct Hp as [Hb Hz]. destruct (advance_ok s b (tk_nodes _ Hok) Hb) as (next & -> & Hn). do 2 eexists. split; [done|].
    destruct next as [c|].
    + destruct Hn as [Hc Hpos]. eapply table_ok_silent; [done|done|by split|]. intros a _. split; [|done]. unfold pushed, past.
      rewrite Hpos. by destruct (Nat.ltb_spec (pos a) (S (pos b))), (Nat.leb_spec (pos a) (pos b)); try lia.
    + apply Hdone. intros a Ha. split; [|done]. unfold pushed, past. specialize (Hn a Ha).
      by destruct (Nat.leb_spec (pos a) (pos b)); [|lia].
  - do 2 eexists. split; [done|]. by rewrite list_insert_id.
Qed.

Lemma table_step_ok x y : table_ok x → table_step (D := D) x y → table_ok y.
Proof using pointers.
  intros Hok Hstep. destruct Hstep as [s ts i t t' s' Hi Ht|s ts a x r l Hx Hv Hl Hlog].
  - pose proof (Forall_lookup_1 _ _ _ _ (tk_threads _ Hok) Hi) as Hth. destruct t as [u p|id p]; [|done].
    destruct (sender_ok s ts i u p Hok Hi) as (p' & s1 & Hs & Hok'). cbn in Ht. rewrite Hs in Ht. injection Ht as <- <-. exact Hok'.
  - destruct Hok as [Hn Hts Hs]. split; [done|done|]. cbn [fst snd] in *. intros b Hb.
    destruct (Hs b Hb) as (y & Hy & Hk). destruct (decide (b = a)) as [->|Hne].
    + rewrite Hx in Hy. injection Hy as <-. destruct Hk as [Hr (L & HL & HP) Hc].
      eexists. split; [by apply lookup_insert_eq|]. split; [by eapply reach_step|exists L; split; [cbn; by rewrite Hlog|done]|done].
    + exists y. split; [cbn; by rewrite lookup_insert_ne|done].
Qed.
End running.

(** ** The start and the end *)

(** All slaves run, their locks are free, every thread is about to send. *)
Record broadcasting {D} `{LevelDB D} (s : table) (us : list broadcast) : Prop := {
  br_pointers : NoDup (nodes s).*2;
  br_slaves a : a ∈ (nodes s).*2 →
    ∃ x, slaves s !! a = Some x ∧ link_reachable (D := D) (s_conn x) (s_link x) ∧ value (s_mtx x) = false;
}.

Definition senders (us : list broadcast) : list thread := (λ u, Sender u Begin) <$> us.

Definition log_of (s : table) (a : nat) : list (bytes * bytes) :=
  match slaves s !! a with Some x => l_log (s_link x) | None => [] end.

Lemma omap_none {A B} (f : A → option B) l : (∀ x, x ∈ l → f x = None) → omap f l = [].
Proof.
  induction l as [|x l IH]; intros Hf; [done|]. simpl. rewrite Hf by apply list_elem_of_here.
  apply IH. intros y Hy. by apply Hf, list_elem_of_further.
Qed.

Lemma senders_ok {D} `{LevelDB D} s us :
  broadcasting (D := D) s us → table_ok (D := D) (nodes s) (log_of s) (s, senders us).
Proof.
  intros [Hp Hs]. split; [done| |].
  - apply Forall_fmap, Forall_forall. by intros u _.
  - cbn [fst snd]. intros a Ha. destruct (Hs a Ha) as (x & Hx & Hl & Hv). exists x. split; [done|]. split; [done| |].
    + exists []. split; [unfold log_of; by rewrite Hx, app_nil_r|]. rewrite omap_none; [done|].
      by intros t (u & -> & _)%list_elem_of_fmap.
    + rewrite omap_none, Hv; [done|]. by intros t (u & -> & _)%list_elem_of_fmap.
Qed.

Lemma broadcasting_ok {D} `{LevelDB D} s us y :
  broadcasting (D := D) s us → rtc (table_step (D := D)) (s, senders us) y → table_ok (D := D) (nodes s) (log_of s) y.
Proof.
  intros Hb Hr. refine (rtc_keeps _ (table_step_ok _ _ (br_pointers s us Hb)) _ _ Hr _). by apply senders_ok.
Qed.

(** The threads keep their updates. *)
Definition update_of (t : thread) : option broadcast := match t with Sender u _ => Some u | Stopper _ _ => None end.

Lemma thread_access_update t s t' s' : thread_access t s = Ok (t', s') → update_of t' = update_of t.
Proof.
  destruct t as [u p|id p]; unfold thread_access; [destruct (send_access u p s) as [[]| | |]|destruct (stop_access id p s) as [[]| | |]];
    intros Ht; try discriminate Ht; by injection Ht as <- <-.
Qed.

Lemma updates_kept {D} `{LevelDB D} x y :
  rtc (table_step (D := D)) x y → update_of <$> y.2 = update_of <$> x.2.
Proof.
  induction 1 as [|x y z Hxy _ IH]; [done|]. rewrite IH. destruct Hxy as [s ts i t t' s' Hi Ht|]; [|done]. cbn [snd].
  rewrite list_fmap_insert, (thread_access_update _ _ _ _ Ht). apply list_insert_id. by rewrite list_lookup_fmap, Hi.
Qed.

Definition finished (ts : list thread) : Prop := ∀ t, t ∈ ts → ∃ u, t = Sender u Done.

Lemma finished_pushed ns ts us a :
  finished ts → update_of <$> ts = Some <$> us → omap (pushed ns a) ts = omap sent_item us.
Proof.
  revert us. induction ts as [|t ts IH]; intros [|u us] Hf Hu; try done. cbn [fmap list_fmap] in Hu. injection Hu as Ht Hu.
  destruct (Hf t) as [v ->]; [apply list_elem_of_here|]. injection Ht as ->. cbn [omap list_omap pushed past].
  rewrite (IH us); [done| |done]. intros t Hin. by apply Hf, list_elem_of_further.
Qed.

(** ** The senders finish *)

Section finish.
Context {D : Type} `{LevelDB D}.
Context (ns : list (bytes * nat)) (log0 : nat → list (bytes * bytes)).
Hypothesis pointers : NoDup ns.*2.

Notation left a := (8 * (length ns - position a ns.*2))%nat.

(** The accesses that are left when no lock is waited for. *)
Definition place_left (p : place) : nat :=
  match p with
  | Begin => 8 * length ns + 1
  | IsRunning a | IsSyncing a | ReadCurrent a => left a
  | Locking a _ => left a - 1
  | Pushing a _ => left a - 2
  | Unlocking a => left a - 3
  | Advance a => left a - 4
  | Done => 0
  end.
Definition thread_left (t : thread) : nat := match t with Sender _ p => place_left p | Stopper _ _ => 0 end.

Lemma left_pos a : a ∈ ns.*2 → (8 ≤ left a)%nat.
Proof using Type. intros Ha%position_lookup%lookup_lt_Some. rewrite length_fmap in Ha. lia. Qed.

Lemma sender_progress s ts i u p :
  table_ok (D := D) ns log0 (s, ts) → ts !! i = Some (Sender u p) → p ≠ Done →
  (∀ b item y, p = Locking b item → slaves s !! b = Some y → value (s_mtx y) = false) →
  ∃ p' s', send_access u p s = Ok (p', s') ∧ (place_left p' < place_left p)%nat.
Proof using pointers.
  intros Hok Hi Hp Hfree. assert (place_ok ns u p) as Hpl by exact (Forall_lookup_1 _ _ _ _ (tk_threads _ _ _ Hok) Hi).
  assert (∀ b, b ∈ ns.*2 → ∃ y, slave_at b s = Ok y ∧ slaves s !! b = Some y ∧ state (client_of y) = running) as Hat.
  { intros b Hb. destruct (tk_slaves _ _ _ Hok b Hb) as (y & Hy & [Hl _ _]). exists y.
    split_and!; [by apply slave_at_some|done|by apply link_running in Hl]. }
  destruct p as [|b|b|b|b item|b item|b|b|]; try done; cbn [send_access place_left].
  - destruct (decide (data_size u = 0%nat)) as [Hz|Hz]; (do 2 eexists; split; [done|]); [simpl; lia|].
    rewrite (tk_nodes _ _ _ Hok : nodes s = ns). destruct (first_node ns) as [[-> _]|(b & -> & Hb & Hpos)]; cbn [place_left]; rewrite ?Hpos; lia.
  - destruct Hpl as [Hb Hz]. destruct (Hat b Hb) as (y & -> & Hy & Hr). destruct (item_of_total u) as [item Hit].
    cbn. rewrite decide_True, Hit by done. do 2 eexists. split; [done|]. pose proof (left_pos b Hb). cbn [place_left]. lia.
  - pose proof (proj1 Hpl) as Hb. destruct (Hat b Hb) as (y & -> & Hy & _). pose proof (Hfree b item y eq_refl Hy) as Hv.
    do 2 eexists. split; [done|]. pose proof (left_pos b Hb). rewrite Hv. cbn [negb place_left]. lia.
  - pose proof (proj1 Hpl) as Hb. destruct (Hat b Hb) as (y & -> & Hy & _). do 2 eexists. split; [done|].
    pose proof (left_pos b Hb). cbn [place_left]. lia.
  - pose proof (proj1 Hpl) as Hb. destruct (Hat b Hb) as (y & -> & Hy & _). do 2 eexists. split; [done|].
    pose proof (left_pos b Hb). cbn [place_left]. lia.
  - pose proof (proj1 Hpl) as Hb. destruct (advance_ok ns pointers s b (tk_nodes _ _ _ Hok) Hb) as (next & -> & Hn).
    do 2 eexists. split; [done|]. pose proof (left_pos b Hb) as Hl. destruct next as [c|]; cbn [place_left]; [|lia].
    destruct Hn as [Hc%left_pos Hpos]. rewrite Hpos in *. lia.
Qed.

Lemma sum_list_insert (f : thread → nat) ts i t t' :
  ts !! i = Some t → (f t' < f t)%nat → (sum_list_with f (<[i := t']> ts) < sum_list_with f ts)%nat.
Proof using Type.
  intros Hi Hf. assert (i < length ts)%nat by (by eapply lookup_lt_Some).
  rewrite insert_take_drop by done. rewrite <-(take_drop_middle ts i t Hi) at 3.
  rewrite !sum_list_with_app. simpl. lia.
Qed.

Lemma omap_nonempty {A B} (f : A → option B) l : omap f l ≠ [] → ∃ x y, x ∈ l ∧ f x = Some y.
Proof using Type.
  induction l as [|x l IH]; [done|]. simpl. destruct (f x) as [y|] eqn:Hx.
  - intros _. exists x, y. split; [apply list_elem_of_here|done].
  - intros (z & y & Hz & Hy)%IH. exists z, y. split; [by apply list_elem_of_further|done].
Qed.

(** Whoever waits for a lock waits for a thread that can go on. *)
Lemma someone_progresses s ts i u p :
  table_ok (D := D) ns log0 (s, ts) → ts !! i = Some (Sender u p) → p ≠ Done →
  ∃ j t t' s', ts !! j = Some t ∧ thread_access t s = Ok (t', s') ∧ (thread_left t' < thread_left t)%nat.
Proof using pointers.
  intros Hok Hi Hp.
  assert (∀ j v q, ts !! j = Some (Sender v q) → q ≠ Done →
    (∀ b item y, q = Locking b item → slaves s !! b = Some y → value (s_mtx y) = false) →
    ∃ j t t' s', ts !! j = Some t ∧ thread_access t s = Ok (t', s') ∧ (thread_left t' < thread_left t)%nat) as Hgo.
  { intros j v q Hj Hq Hfree. destruct (sender_progress s ts j v q Hok Hj Hq Hfree) as (q' & s' & Ha & Hlt).
    exists j, (Sender v q), (Sender v q'), s'. split_and!; [done| |done]. unfold thread_access. by rewrite Ha. }
  destruct p as [|b|b|b|b item|b item|b|b|]; try (by eapply Hgo; [exact Hi|done|discriminate]).
  pose proof (proj1 (Forall_lookup_1 _ _ _ _ (tk_threads _ _ _ Hok) Hi) : b ∈ ns.*2) as Hb.
  destruct (tk_slaves _ _ _ Hok b Hb) as (y & Hy & [_ _ Hk]). cbn [fst snd] in Hy, Hk. destruct (value (s_mtx y)) eqn:Hv.
  - destruct (omap_nonempty (holds b) ts) as (t & [] & Ht & Hh); [by intros Hnil; rewrite Hnil in Hk|].
    apply list_elem_of_lookup in Ht as [j Hj]. destruct t as [v q|]; [|discriminate].
    destruct q; try discriminate Hh; by eapply Hgo; [exact Hj|done|discriminate].
  - eapply Hgo; [exact Hi|done|]. intros b' item' y' [= <- <-] Hy'. rewrite Hy in Hy'. by injection Hy' as <-.
Qed.

Lemma senders_finish x :
  table_ok (D := D) ns log0 x → ∃ y, rtc (table_step (D := D)) x y ∧ table_ok (D := D) ns log0 y ∧ finished y.2.
Proof using pointers.
  remember (sum_list_with thread_left x.2) as n eqn:Hn. revert x Hn.
  induction n as [n IH] using lt_wf_ind. intros [s ts] -> Hok.
  destruct (decide (Exists (λ t, thread_left t ≠ 0%nat) ts)) as [Hex|Hall].
  - apply Exists_exists in Hex as (t & Ht & Hl). apply list_elem_of_lookup in Ht as [i Hi].
    destruct t as [u p|]; [|done]. destruct (someone_progresses s ts i u p Hok Hi) as (j & t & t' & s' & Hj & Ha & Hlt).
    { by intros ->. }
    assert (table_step (D := D) (s, ts) (s', <[j := t']> ts)) as Hst by (by eapply step_thread).
    destruct (IH _ (sum_list_insert thread_left ts j t t' Hj Hlt) (s', <[j := t']> ts) eq_refl) as (y & Hr & Hy & Hf).
    { by eapply table_step_ok. }
    exists y. split_and!; [by eapply rtc_l|done|done].
  - exists (s, ts). split_and!; [done|done|]. intros t Ht.
    pose proof (proj1 (Forall_forall _ _) (tk_threads _ _ _ Hok) t Ht) as Hth. destruct t as [u p|]; [|done]. exists u.
    assert (thread_left (Sender u p) = 0%nat) as Hz.
    { destruct (decide (thread_left (Sender u p) = 0%nat)) as [|Hne]; [done|]. destruct Hall. apply Exists_exists. by eexists. }
    f_equal. destruct p as [|b|b|b|b item|b item|b|b|]; cbn in Hth; try done; [cbn in Hz; lia|..].
    all: pose proof (left_pos b (proj1 Hth)); cbn [thread_left place_left] in Hz; lia.
Qed.
End finish.

(** ** What the slaves make of the updates *)

Definition keys_of (u : broadcast) : list bytes :=
  match u with B_set data | B_set_range data => data.*1 | B_del data => data end.

(** The update on a database. *)
Definition apply_broadcast (st : gmap bytes bytes) (u : broadcast) : gmap bytes bytes :=
  match u with B_set data | B_set_range data => insert_all st data | B_del data => delete_all st data end.

(** Keys and values are text that JSON can carry. *)
Definition text_broadcast (u : broadcast) : Prop :=
  match u with B_set data | B_set_range data => Forall str_pair data | B_del data => Forall utf8_text data end.

(** Two updates that touch a key in common are the same. *)
Definition apart (us : list broadcast) : Prop :=
  ∀ u v, u ∈ us → v ∈ us → u = v ∨ ∀ k, k ∈ keys_of u → k ∉ keys_of v.

Lemma apply_untouched st u k : k ∉ keys_of u → apply_broadcast st u !! k = st !! k.
Proof. destruct u; [apply insert_all_untouched..|apply delete_all_untouched]. Qed.
Lemma apply_congr st1 st2 u k : st1 !! k = st2 !! k → apply_broadcast st1 u !! k = apply_broadcast st2 u !! k.
Proof. destruct u; [apply insert_all_congr..|apply delete_all_congr]. Qed.

Lemma apply_commute st u v :
  u = v ∨ (∀ k, k ∈ keys_of u → k ∉ keys_of v) →
  apply_broadcast (apply_broadcast st u) v = apply_broadcast (apply_broadcast st v) u.
Proof.
  intros [->|Hd]; [done|]. apply map_eq. intros k. destruct (decide (k ∈ keys_of u)) as [Hu|Hu].
  - rewrite (apply_untouched _ v) by by apply Hd. apply apply_congr. by rewrite apply_untouched by by apply Hd.
  - rewrite (apply_untouched _ u) by done. apply apply_congr. by rewrite apply_untouched.
Qed.

Lemma apply_permuted us us' st : us ≡ₚ us' → apart us → foldl apply_broadcast st us = foldl apply_broadcast st us'.
Proof.
  intros Hp. revert st. induction Hp as [|u us us' Hp IH|u v us|us us' us'' Hp1 IH1 Hp2 IH2]; intros st Ha; [done| | |].
  - simpl. apply IH. intros x y Hx Hy. by apply Ha; apply list_elem_of_further.
  - simpl. f_equal. apply apply_commute. apply Ha; [apply list_elem_of_here|apply list_elem_of_further, list_elem_of_here].
  - rewrite IH1 by done. apply IH2. intros x y Hx Hy. apply Ha; by rewrite Hp1.
Qed.

(** A slave applies the items of the updates as the master does. *)
Lemma apply_items st us :
  Forall text_broadcast us → foldl slave_apply st (queued_requests (omap sent_item us)) = foldl apply_broadcast st us.
Proof.
  intros Ht. revert st. induction Ht as [|u us Hu Hus IH]; intros st; [done|]. cbn [omap list_omap foldl].
  destruct (sent_item u) as [item|] eqn:Hi.
  - assert (∃ m s, item = (s, m) ∧ ∃ c, command_method s = Some c ∧ slave_apply st (c, m) = apply_broadcast st u)
      as (m & s & -> & c & Hc & Happ).
    { unfold sent_item, item_of in Hi. destruct u as [l|l|l]; cbn [data_size] in Hi.
      1: destruct (slave_apply_set st l _set_ (or_introl eq_refl) Hu) as (s & Es & Hs).
      2: destruct (slave_apply_set st l _set_range_ (or_intror eq_refl) Hu) as (s & Es & Hs).
      3: destruct (slave_apply_del st l Hu) as (s & Es & Hs).
      all: rewrite Es in Hi; cbn in Hi; destruct (decide _); [discriminate|]; injection Hi as <-.
      all: do 2 eexists; split; [done|]; eexists; split; [done|]; exact Hs. }
    unfold queued_requests. cbn [omap list_omap fst snd]. rewrite Hc. cbn. rewrite Happ. apply IH.
  - rewrite IH. f_equal. unfold sent_item in Hi. destruct (item_of_total u) as [i Hu']. rewrite Hu' in Hi.
    destruct (decide _) as [Hz|]; [|done]. destruct u as [l|l|l]; cbn in Hz |- *; by destruct l.
Qed.

Lemma permuted_omap {A B} (f : A → option B) l L : L ≡ₚ omap f l → ∃ l', l' ≡ₚ l ∧ omap f l' = L.
Proof.
  revert l. induction L as [|y L IH]; intros l Hp.
  { symmetry in Hp. apply Permutation_nil_r in Hp. by exists l. }
  assert (y ∈ omap f l) as Hy by (rewrite <-Hp; apply list_elem_of_here).
  apply list_elem_of_omap in Hy as (x & Hx & Hf). apply list_elem_of_split in Hx as (l1 & l2 & ->).
  destruct (IH (l1 ++ l2)) as (l' & Hl' & Hom).
  { apply (Permutation_cons_inv (a := y)). rewrite Hp, !omap_app. simpl. rewrite Hf. solve_Permutation. }
  exists (x :: l'). split; [rewrite Hl'; solve_Permutation|]. cbn. rewrite Hf. by f_equal.
Qed.

Lemma apart_permuted us us' : us' ≡ₚ us → apart us → apart us'.
Proof. intros Hp Ha u v Hu Hv. rewrite Hp in Hu, Hv. by apply Ha. Qed.

Lemma items_converge us L st :
  L ≡ₚ omap sent_item us → Forall text_broadcast us → apart us →
  foldl slave_apply st (queued_requests L) = foldl apply_broadcast st us.
Proof.
  intros (us' & Hp & <-)%permuted_omap Ht Ha. rewrite apply_items by by rewrite Hp.
  apply apply_permuted; [done|by apply (apart_permuted us)].
Qed.

(** ** Runs that are given *)

Lemma sender_runs {D} `{LevelDB D} u i ts x y :
  rtc (sender_step u) x y → ts !! i = Some (Sender u x.1) →
  rtc (table_step (D := D)) (x.2, ts) (y.2, <[i := Sender u y.1]> ts).
Proof.
  intros Hr. revert ts. induction Hr as [[p s]|[p s] [p' s'] z Hs _ IH]; intros ts Hi; cbn [fst snd] in *.
  { by rewrite list_insert_id. }
  eapply rtc_l; [eapply (step_thread _ _ _ _ (Sender u p') s' Hi); unfold thread_access, sender_step in *; cbn [fst snd] in *; by rewrite Hs|].
  rewrite <-(list_insert_insert_eq ts i (Sender u z.1) (Sender u p')). apply IH. apply list_lookup_insert_eq. by eapply lookup_lt_Some.
Qed.

Lemma visit_running u a x item s :
  slaves s !! a = Some x → value (s_mtx x) = false → state (client_of x) = running → item_of u = Ok item →
  rtc (sender_step u) (IsRunning a, s) (Advance a, set_slave a (push_item item x) s).
Proof.
  intros Hx Hv Hr Hi. eapply rtc_l; [|by apply enqueue_alone]. unfold sender_step. cbn.
  rewrite (slave_at_some _ _ _ Hx). cbn. by rewrite decide_True, Hi.
Qed.

(** Two senders and two slaves: the second overtakes the first between them. *)
Lemma overtaken {D} `{LevelDB D} s u v ia a ib b x y iu iv :
  nodes s = [(ia, a); (ib, b)] → a ≠ b →
  slaves s !! a = Some x → value (s_mtx x) = false → state (client_of x) = running →
  slaves s !! b = Some y → value (s_mtx y) = false → state (client_of y) = running →
  data_size u ≠ 0%nat → data_size v ≠ 0%nat → item_of u = Ok iu → item_of v = Ok iv →
  rtc (table_step (D := D)) (s, senders [u; v])
    (set_slave b (push_item iu (push_item iv y)) (set_slave b (push_item iv y)
       (set_slave a (push_item iv (push_item iu x)) (set_slave a (push_item iu x) s))), [Sender u Done; Sender v Done]).
Proof.
  intros Hn Hab Hx Hxv Hxr Hy Hyv Hyr Hu Hv Hiu Hiv.
  set (s1 := set_slave a (push_item iu x) s). set (s2 := set_slave a (push_item iv (push_item iu x)) s1).
  set (s3 := set_slave b (push_item iv y) s2). set (s4 := set_slave b (push_item iu (push_item iv y)) s3).
  assert (∀ w, data_size w ≠ 0%nat → ∀ q, nodes q = nodes s → sender_step w (Begin, q) (IsRunning a, q)) as Hbegin.
  { intros w Hw q Hq. unfold sender_step. cbn. rewrite decide_False by done. by rewrite Hq, Hn. }
  assert (∀ w q, nodes q = nodes s → sender_step w (Advance a, q) (IsRunning b, q)) as Hadv.
  { intros w q Hq. unfold sender_step. cbn. rewrite Hq, Hn. cbn. by rewrite decide_True. }
  assert (∀ w q, nodes q = nodes s → sender_step w (Advance b, q) (Done, q)) as Hend.
  { intros w q Hq. unfold sender_step. cbn. rewrite Hq, Hn. cbn. by rewrite decide_False, decide_True by congruence. }
  assert (rtc (sender_step u) (Begin, s) (IsRunning b, s1)) as R1.
  { eapply rtc_l; [by apply Hbegin|]. eapply rtc_r; [by eapply (visit_running u a x iu s)|by apply Hadv]. }
  assert (rtc (sender_step v) (Begin, s1) (Done, s3)) as R2.
  { eapply rtc_l; [by apply Hbegin|]. etrans; [apply (visit_running v a (push_item iu x) iv s1); try done; apply lookup_insert_eq|].
    eapply rtc_l; [by apply Hadv|]. eapply rtc_r; [apply (visit_running v b y iv s2); try done|by apply Hend].
    cbn. by rewrite !lookup_insert_ne. }
  assert (rtc (sender_step u) (IsRunning b, s3) (Done, s4)) as R3.
  { eapply rtc_r; [apply (visit_running u b (push_item iv y) iu s3); try done; apply lookup_insert_eq|by apply Hend]. }
  etrans; [exact (sender_runs u 0 (senders [u; v]) (Begin, s) _ R1 eq_refl)|].
  etrans; [exact (sender_runs v 1 [Sender u (IsRunning b); Sender v Begin] (Begin, s1) _ R2 eq_refl)|].
  exact (sender_runs u 0 [Sender u (IsRunning b); Sender v Done] (IsRunning b, s3) _ R3 eq_refl).
Qed.

(** Two slaves at the start of a broadcast. *)
Definition running_slave (a : nat) (id : bytes) (conn : nat) : slave :=
  let '(_, c, ev) := sync_queue conn (new_client a id) in
  Slave (Link c [] 1 0 []) conn new_spinlock.
Definition two_slaves : table :=
  Table [(str "s", 0%nat); (str "t", 1%nat)] {[ 0%nat := running_slave 0 (str "s") 7; 1%nat := running_slave 1 (str "t") 8 ]}.

Lemma two_slaves_broadcasting us : broadcasting (D := gmap bytes bytes) two_slaves us.
Proof.
  split; [by apply (bool_decide_unpack _); vm_compute|].
  assert (∀ a id conn, let x := running_slave a id conn in link_reachable (D := gmap bytes bytes) (s_conn x) (s_link x)) as Hr.
  { intros a id conn. apply reach_init. exact (init_sync conn (new_client a id) (Ok tt) _ [Schedule a conn] (Forall_nil_2 _) eq_refl). }
  intros a Ha. apply elem_of_cons in Ha as [->|Ha]; [|apply list_elem_of_singleton in Ha as ->].
  - exists (running_slave 0 (str "s") 7). split_and!; [done|apply Hr|done].
  - exists (running_slave 1 (str "t") 8). split_and!; [done|apply Hr|done].
Qed.

(** The thread sends the update with nobody between its accesses. *)
Definition sends_alone (u : broadcast) (s s' : table) : Prop := rtc (sender_step u) (Begin, s) (Done, s').

(** ** Properties *)

(** C17.  A sender that is not interrupted refines the broadcast of the
    replication: from any table whose locks are free it ends, reads no object
    that was deleted, and leaves the objects of exactly the clients that
    [Replication::set], [set_range] or [del] leaves, each of the slaves, in
    whichever state it is, having got what [send_to_client] gives it. *)
Theorem sender_alone_refines `{HashOrder} u s r :
  table_of s r → ∃ s' r', sends_alone u s s' ∧ rep_broadcast u r = Ok r' ∧ table_of s' r'.
Proof.
  intros Ht. destruct (begin_alone u s r Ht) as (s' & Hrun & Hns & Hs').
  destruct (rep_broadcast_spec u r) as (r' & Hr' & Hspec). exists s', r'. split_and!; [done|done|].
  destruct Ht as [Hids Hptr Hobj Hdom]. split; rewrite ?Hns; [done|done| |].
  - intros id a Hin. destruct (Hs' id a Hin) as (x & x' & Hx & Hx' & Hf & Hc). exists x'. split_and!; [done|done|].
    destruct (Hobj id a Hin) as (y & Hy & _ & Hid). rewrite Hx in Hy. injection Hy as <-.
    specialize (Hspec id). rewrite Hid in Hspec. destruct Hspec as (c' & -> & Hc'). f_equal.
    destruct (decide _); congruence.
  - intros id c Hc. specialize (Hspec id). destruct (repClients r !! id) as [c0|] eqn:Hid; [by eapply Hdom|congruence].
Qed.

Lemma sender_alone_refines_witness :
  ∃ s' r', sends_alone (B_set [(str "k", str "1")]) two_slaves s' ∧
    rep_broadcast (H := key_order) (B_set [(str "k", str "1")])
      (MkReplication {[ str "s" := client_of (running_slave 0 (str "s") 7); str "t" := client_of (running_slave 1 (str "t") 8) ]} 2) = Ok r' ∧
    table_of s' r'.
Proof.
  apply (sender_alone_refines (H := key_order) (B_set [(str "k", str "1")]) two_slaves).
  split; [by apply (bool_decide_unpack _); vm_compute|by apply (bool_decide_unpack _); vm_compute| |].
  - intros id a [[= -> ->]|[[= -> ->]|[]%not_elem_of_nil]%elem_of_cons]%elem_of_cons; eexists; split_and!; reflexivity.
  - intros id c Hc. cbn [repClients] in Hc. apply lookup_insert_Some in Hc as [[<- _]|[_ [<- _]%lookup_singleton_Some]];
      [apply list_elem_of_here|apply list_elem_of_further, list_elem_of_here].
Defined.

(** C15.  Whatever the interleaving of the accesses of any number of senders
    and of the handlers of the slaves' connections: no access is to an object
    that was deleted and none throws; no two threads are in [enqueue] of the
    same slave; each slave's queue stays one of those of
    [queue_exactly_once_in_order], so that what was enqueued is sent once and
    in order; no lock is waited for for ever, and when the senders have ended,
    every running slave has got every update that is not empty exactly once. *)
Theorem broadcasts_reach_every_slave {D} `{LevelDB D} s us s' ts :
  broadcasting (D := D) s us → rtc (table_step (D := D)) (s, senders us) (s', ts) →
  (∀ i t, ts !! i = Some t → ∃ t' s'', thread_access t s' = Ok (t', s'')) ∧
  (∀ a, a ∈ (nodes s).*2 →
    (length (omap (holds a) ts) ≤ 1)%nat ∧
    (∃ x, slaves s' !! a = Some x ∧ link_reachable (D := D) (s_conn x) (s_link x)) ∧
    ∃ L, log_of s' a = log_of s a ++ L ∧ (finished ts → L ≡ₚ omap sent_item us)) ∧
  ∃ y, rtc (table_step (D := D)) (s', ts) y ∧ finished y.2.
Proof.
  intros Hb Hr. pose proof (broadcasting_ok _ _ _ Hb Hr) as Hok. split_and!.
  - intros i t Hi. pose proof (Forall_lookup_1 _ _ _ _ (tk_threads _ _ _ Hok) Hi) as Ht. destruct t as [u p|]; [|done].
    destruct (sender_ok _ _ (br_pointers _ _ Hb) s' ts i u p Hok Hi) as (p' & s'' & Ha & _).
    exists (Sender u p'), s''. unfold thread_access. by rewrite Ha.
  - intros a Ha. destruct (tk_slaves _ _ _ Hok a Ha) as (x & Hx & [Hl (L & Hlog & HL) Hk]). cbn [fst snd] in *. split_and!.
    + rewrite Hk. destruct (value (s_mtx x)); lia.
    + by exists x.
    + exists L. split; [unfold log_of at 1; by rewrite Hx|]. intros Hf. rewrite HL. erewrite finished_pushed; [done|done|].
      apply updates_kept in Hr. cbn [snd] in Hr. rewrite Hr. unfold senders. by rewrite <-list_fmap_compose.
  - destruct (senders_finish _ _ (br_pointers _ _ Hb) _ Hok) as (y & Hy & _ & Hf). by exists y.
Qed.

(** Two updates of different keys, and a run in which the second sender
    overtakes the first. *)
Definition updates0 : list broadcast := [B_set [(str "k", str "1")]; B_del [str "m"; str "n"]].
Definition turns0 : list nat :=
  [0; 0; 1; 0; 1; 1; 0; 0; 1; 1; 0; 1; 1; 1; 1; 1; 1; 1; 1; 0; 0; 0; 0; 0]%nat.
Definition end0 : table * list thread :=
  match run_turns turns0 (two_slaves, senders updates0) with Ok y => y | _ => (two_slaves, []) end.

Lemma end0_reached : rtc (table_step (D := gmap bytes bytes)) (two_slaves, senders updates0) (end0.1, end0.2).
Proof. apply (turns_are_steps turns0). vm_compute. reflexivity. Qed.
Lemma end0_finished : finished end0.2.
Proof.
  assert (end0.2 = [Sender (B_set [(str "k", str "1")]) Done; Sender (B_del [str "m"; str "n"]) Done]) as -> by (by vm_compute).
  intros t [->|[->|[]%not_elem_of_nil]%elem_of_cons]%elem_of_cons; by eexists.
Qed.

Lemma broadcasts_reach_every_slave_witness :
  log_of end0.1 0 = [(str "set", js "{'k':'1'}"); (str "del", js "['m','n']")] ∧
  log_of end0.1 1 = [(str "del", js "['m','n']"); (str "set", js "{'k':'1'}")] ∧
  (∃ L, log_of end0.1 1 = log_of two_slaves 1 ++ L ∧ L ≡ₚ omap sent_item updates0) ∧
  ∃ x, slaves end0.1 !! 1%nat = Some x ∧ link_reachable (D := gmap bytes bytes) (s_conn x) (s_link x).
Proof.
  destruct (broadcasts_reach_every_slave _ _ _ _ (two_slaves_broadcasting updates0) end0_reached) as (_ & Ha & _).
  destruct (Ha 1%nat) as (_ & Hx & L & HL & HP); [apply list_elem_of_further, list_elem_of_here|].
  split; [by vm_compute|]. split; [by vm_compute|]. split; [|exact Hx]. exists L. split; [exact HL|exact (HP end0_finished)].
Defined.

(** C16.  When the updates that the threads send at the same time touch no key
    in common (or are the same), the order in which a slave got them does not
    matter: once the senders have ended, every running slave makes of its
    database what the updates one after the other make of the master's, in
    the order of the requests or any other. *)
Theorem disjoint_broadcasts_converge {D} `{LevelDB D} s us s' ts a :
  broadcasting (D := D) s us → rtc (table_step (D := D)) (s, senders us) (s', ts) → finished ts →
  Forall text_broadcast us → apart us → a ∈ (nodes s).*2 →
  ∃ L, log_of s' a = log_of s a ++ L ∧
    ∀ st, foldl slave_apply st (queued_requests L) = foldl apply_broadcast st us.
Proof.
  intros Hb Hr Hf Ht Hap Ha. pose proof (broadcasting_ok _ _ _ Hb Hr) as Hok.
  destruct (tk_slaves _ _ _ Hok a Ha) as (x & Hx & [_ (L & Hlog & HL) _]). cbn [fst snd] in *.
  exists L. split; [unfold log_of at 1; by rewrite Hx|]. intros st. apply items_converge; [|done|done].
  rewrite HL. erewrite finished_pushed; [done|done|].
  apply updates_kept in Hr. cbn [snd] in Hr. rewrite Hr. unfold senders. by rewrite <-list_fmap_compose.
Qed.

Lemma disjoint_broadcasts_converge_witness :
  ∃ L, log_of end0.1 1 = log_of two_slaves 1 ++ L ∧
    ∀ st, foldl slave_apply st (queued_requests L) = delete (str "n") (delete (str "m") (<[str "k" := str "1"]> st)).
Proof.
  apply (disjoint_broadcasts_converge _ _ _ _ 1 (two_slaves_broadcasting updates0) end0_reached end0_finished).
  - repeat constructor; by apply (bool_decide_unpack _); vm_compute.
  - intros u v [->|[->|[]%not_elem_of_nil]%elem_of_cons]%elem_of_cons [->|[->|[]%not_elem_of_nil]%elem_of_cons]%elem_of_cons;
      [by left|right|right|by left]; apply Forall_forall; apply (bool_decide_unpack _); vm_compute; exact I.
  - apply list_elem_of_further, list_elem_of_here.
Defined.

(** C34.  Two threads that set the same key at the same time can leave two
    running slaves with different values for ever: the table has no lock, so
    the second may overtake the first between two slaves, and every slave
    applies the updates in the order of its own queue. *)
Theorem slaves_diverge {D} `{LevelDB D} s k v w ia a ib b :
  nodes s = [(ia, a); (ib, b)] →
  broadcasting (D := D) s [B_set [(k, v)]; B_set [(k, w)]] →
  utf8_text k → utf8_text v → utf8_text w →
  ∃ s' ts La Lb, rtc (table_step (D := D)) (s, senders [B_set [(k, v)]; B_set [(k, w)]]) (s', ts) ∧ finished ts ∧
    log_of s' a = log_of s a ++ La ∧ log_of s' b = log_of s b ++ Lb ∧
    ∀ st, foldl slave_apply st (queued_requests La) !! k = Some w ∧ foldl slave_apply st (queued_requests Lb) !! k = Some v.
Proof.
  intros Hn Hb Hk Hv Hw. pose proof (br_pointers _ _ Hb) as Hp. rewrite Hn in Hp.
  assert (a ≠ b) as Hab by (apply NoDup_cons in Hp as [Hp _]; intros ->; apply Hp, list_elem_of_here).
  destruct (br_slaves _ _ Hb a) as (x & Hx & Hxl & Hxv); [rewrite Hn; apply list_elem_of_here|].
  destruct (br_slaves _ _ Hb b) as (y & Hy & Hyl & Hyv); [rewrite Hn; apply list_elem_of_further, list_elem_of_here|].
  assert (∀ z, str_pair (k, z) → ∃ item, item_of (B_set [(k, z)]) = Ok item ∧ sent_item (B_set [(k, z)]) = Some item) as Hitem.
  { intros z _. destruct (item_of_total (B_set [(k, z)])) as [item Hi]. exists item. split; [done|].
    unfold sent_item. by rewrite Hi, decide_False. }
  destruct (Hitem v) as (iv & Hiv & Hsv); [done|]. destruct (Hitem w) as (iw & Hiw & Hsw); [done|].
  eexists _, _, [iv; iw], [iw; iv]. split_and!.
  - eapply (overtaken s _ _ ia a ib b x y iv iw); try done; by eapply link_running.
  - intros t [->|[->|[]%not_elem_of_nil]%elem_of_cons]%elem_of_cons; by eexists.
  - unfold log_of, set_slave. cbn [slaves]. rewrite !lookup_insert_ne, lookup_insert_eq, Hx by done. cbn. by rewrite <-app_assoc.
  - unfold log_of, set_slave. cbn [slaves]. rewrite lookup_insert_eq, Hy. cbn. by rewrite <-app_assoc.
  - assert (∀ st us, Forall text_broadcast us → foldl slave_apply st (queued_requests (omap sent_item us)) = foldl apply_broadcast st us)
      as Happ by (intros; by apply apply_items).
    intros st. split.
    + specialize (Happ st [B_set [(k, v)]; B_set [(k, w)]]). cbn [omap list_omap] in Happ. rewrite Hsv, Hsw in Happ.
      rewrite Happ by (repeat constructor; done). cbn. by rewrite lookup_insert_eq.
    + specialize (Happ st [B_set [(k, w)]; B_set [(k, v)]]). cbn [omap list_omap] in Happ. rewrite Hsv, Hsw in Happ.
      rewrite Happ by (repeat constructor; done). cbn. by rewrite lookup_insert_eq.
Qed.

Lemma slaves_diverge_witness :
  ∃ s' ts La Lb, rtc (table_step (D := gmap bytes bytes))
      (two_slaves, senders [B_set [(str "k", str "1")]; B_set [(str "k", str "2")]]) (s', ts) ∧ finished ts ∧
    log_of s' 0 = log_of two_slaves 0 ++ La ∧ log_of s' 1 = log_of two_slaves 1 ++ Lb ∧
    ∀ st, foldl slave_apply st (queued_requests La) !! str "k" = Some (str "2") ∧
      foldl slave_apply st (queued_requests Lb) !! str "k" = Some (str "1").
Proof.
  apply (slaves_diverge two_slaves (str "k") (str "1") (str "2") (str "s") 0 (str "t") 1 eq_refl (two_slaves_broadcasting _));
    apply (bool_decide_unpack _); vm_compute; exact I.
Defined.

(** C35.  A slave that asks to stop is deleted whoever is sending: when its
    [setstate] runs on another thread between the look of a sender at
    [client->state] and the lock of [enqueue], the sender locks a mutex and
    writes to a queue that were freed. *)
Theorem stopped_slave_is_used {D} `{LevelDB D} s u id a l :
  nodes s = (id, a) :: l → broadcasting (D := D) s [u] → data_size u ≠ 0%nat →
  ∃ s' p, rtc (table_step (D := D)) (s, [Sender u Begin; Stopper id StopDelete]) (s', [Sender u p; Stopper id StopErase]) ∧
    thread_access (Sender u p) s' = Undef.
Proof.
  intros Hn Hb Hu. destruct (br_slaves _ _ Hb a) as (x & Hx & Hl & _); [rewrite Hn; apply list_elem_of_here|].
  apply link_running in Hl. destruct (item_of_total u) as [item Hi].
  exists (Table (nodes s) (delete a (slaves s))), (Locking a item). split.
  - assert (rtc (sender_step u) (Begin, s) (Locking a item, s)) as Hr.
    { eapply rtc_l; [unfold sender_step; cbn; rewrite decide_False by done; by rewrite Hn|]. apply rtc_once.
      unfold sender_step. cbn. rewrite (slave_at_some _ _ _ Hx). cbn. by rewrite decide_True, Hi. }
    etrans; [exact (sender_runs u 0 [Sender u Begin; Stopper id StopDelete] (Begin, s) _ Hr eq_refl)|]. apply rtc_once.
    refine (step_thread _ [Sender u (Locking a item); Stopper id StopDelete] 1 _ (Stopper id StopErase) _ eq_refl _).
    assert (pointer_of id (nodes s) = Some a) as Hptr by (unfold pointer_of; by rewrite Hn, filter_cons, decide_True).
    cbn [snd]. unfold thread_access, stop_access. by rewrite Hptr.
  - unfold thread_access, send_access, slave_at. cbn. by rewrite lookup_delete_eq.
Qed.

Lemma stopped_slave_is_used_witness :
  ∃ s' p, rtc (table_step (D := gmap bytes bytes))
      (two_slaves, [Sender (B_set [(str "k", str "1")]) Begin; Stopper (str "s") StopDelete])
      (s', [Sender (B_set [(str "k", str "1")]) p; Stopper (str "s") StopErase]) ∧
    thread_access (Sender (B_set [(str "k", str "1")]) p) s' = Undef.
Proof. by apply (stopped_slave_is_used two_slaves _ _ _ [(str "t", 1%nat)] eq_refl (two_slaves_broadcasting _)). Defined.
