(* ===== verification/SyncRace.v ===== *)
(** * SyncRace: an update beside a confirmation

    [Client_t::on_confirm] holds the lock of its slave from its first access
    to its last; [_send_to_clients] reads [state] and [current()] of the same
    slave without it, after the handler of [set] wrote to the database.  Here
    both are taken apart into their accesses to what they share: the database,
    the keys of the portions, the queue. *)

From S2P Require Import Prelude JsonParser Serializer JsonString JsonArray Queries LevelDb Replication ReplicationQueue ReplicationSync Locks Broadcast.

#[local] Opaque portion_size.

(** ** A confirmation, access by access *)

(** What the thread of the slave's connection does next. *)
Inductive confirm_place (D : Type) :=
  | CLocking                              (** [lck(mtx)] *)
  | CPopping                              (** [back()], [pop_front()] *)
  | CSnapshot (from : bytes)              (** [NewIterator] *)
  | CPortion (from : bytes) (snapshot : D)  (** the loop, the request, [state = sync_finishing] *)
  | CPushing (key : bytes)                (** [current_keys.push_back(key)] *)
  | CUnlocking (r : res unit)
  | CDone (r : res unit).
Arguments CLocking {D}.
Arguments CPopping {D}.
Arguments CSnapshot {D} _.
Arguments CPortion {D} _ _.
Arguments CPushing {D} _.
Arguments CUnlocking {D} _.
Arguments CDone {D} _.

Definition set_link (l : link) (x : slave) : slave := Slave l (s_conn x) (s_mtx x).
Definition set_client (c : Client_t) (l : link) : link := Link c (l_sent l) (l_tasks l) (l_confirmed l) (l_log l).

Section confirm.
Context {D : Type} `{LevelDB D}.

(** Outside the state [syncing] the handler has no access that a sender
    could see half done but its queue, which the lock protects. *)
(* src: src/replication.hpp 81-97 Client_t::on_confirm *)
Definition confirm_pop (d : D) (x : slave) : confirm_place D * slave :=
  let l := s_link x in
  let c := client_of x in
  if decide (state c = syncing) then
    match last (current_keys c) with
    | None => (CUnlocking (Throw (logic_error (str "fail"))), x)
    | Some from =>
        (CSnapshot from, set_link (after l (S (l_confirmed l)) (l_tasks l) (set_current_keys (tail (current_keys c)) c) []) x)
    end
  else
    let '(r, c, ev) := on_confirm d (s_conn x) c in
    (CUnlocking r, set_link (after l (S (l_confirmed l)) (l_tasks l) c ev) x).

(* src: src/replication.hpp 122-148 Client_t::_push_next_portion *)
Definition confirm_portion (from : bytes) (snapshot : D) (x : slave) : res (confirm_place D * slave) :=
  let l := s_link x in
  let c := client_of x in
  data ← next_data snapshot from;
  buf ← ser valmap2str_json data;
  let ev := [Request (s_conn x) _set_ buf] in
  mret (match last data with
        | Some kv => (CPushing kv.1, set_link (after l (l_confirmed l) (l_tasks l) c ev) x)
        | None => (CPushing from, set_link (after l (l_confirmed l) (l_tasks l) (set_state sync_finishing c) ev) x)
        end).

(* src: src/replication.hpp 79-98 Client_t::on_confirm *)
Definition confirm_access (a : nat) (p : confirm_place D) (d : D) (s : table) : res (confirm_place D * table) :=
  x ← slave_at a s;
  match p with
  | CLocking =>
      let '(got, l) := spin (s_mtx x) in
      mret (if got : bool then CPopping else p, set_slave a (set_mtx l x) s)
  | CPopping => let '(p, x) := confirm_pop d x in mret (p, set_slave a x s)
  | CSnapshot from => mret (CPortion from d, s)
  | CPortion from d0 => '(p, x) ← confirm_portion from d0 x; mret (p, set_slave a x s)
  | CPushing key =>
      let c := client_of x in
      mret (CUnlocking (Ok tt), set_slave a (set_link (set_client (set_current_keys (current_keys c ++ [key]) c) (s_link x)) x) s)
  | CUnlocking r => mret (CDone r, set_slave a (set_mtx (unlock (s_mtx x)) x) s)
  | CDone r => mret (p, s)
  end.
End confirm.

(** ** The threads *)

(** [Putting todo cmd]: the handler of [set] in its loop; then it sends. *)
Inductive actor (D : Type) :=
  | Putting (todo cmd : valmap2str)
  | Sending (u : broadcast) (p : place)
  | Confirming (a : nat) (p : confirm_place D).
Arguments Putting {D} _ _.
Arguments Sending {D} _ _.
Arguments Confirming {D} _ _.

Section race.
Context {D : Type} `{LevelDB D}.

Definition race : Type := D * table.

(* src: src/fas_methods.hpp 178-185 set::request *)
Definition put_access (todo cmd : valmap2str) (d : D) : actor D * D :=
  match todo with
  | [] => (Sending (B_set cmd) Begin, d)
  | (k, v) :: todo => (Putting todo cmd, (Put d k v).2)
  end.

Definition actor_access (t : actor D) (w : race) : res (actor D * race) :=
  let '(d, s) := w in
  match t with
  | Putting todo cmd => let '(t, d) := put_access todo cmd d in mret (t, (d, s))
  | Sending u p => '(p, s) ← send_access u p s; mret (Sending u p, (d, s))
  | Confirming a p => '(p, s) ← confirm_access a p d s; mret (Confirming a p, (d, s))
  end.

Inductive race_step : race * list (actor D) → race * list (actor D) → Prop :=
  | race_step_intro w ts i t t' w' :
      ts !! i = Some t → actor_access t w = Ok (t', w') → race_step (w, ts) (w', <[i := t']> ts).

Definition alone_step (x y : actor D * race) : Prop := actor_access x.1 x.2 = Ok y.

Lemma alone_runs i ts x y :
  rtc alone_step x y → ts !! i = Some x.1 → rtc race_step (x.2, ts) (y.2, <[i := y.1]> ts).
Proof using Type.
  intros Hr. revert ts. induction Hr as [[t w]|[t w] [t' w'] z Hxy Hyz IH]; intros ts Hi; cbn [fst snd] in *.
  { by rewrite list_insert_id. }
  eapply rtc_l; [eapply race_step_intro; [exact Hi|exact Hxy]|].
  rewrite <-(list_insert_insert_eq ts i z.1 t'). apply IH. apply list_lookup_insert_eq. by eapply lookup_lt_Some.
Qed.
End race.

(** ** A confirmation alone

    It is [on_confirm]. *)

Definition held : spinlock := Spinlock true.

Definition confirmed_link (x : slave) (c : Client_t) (ev : list event) : link :=
  after (s_link x) (S (l_confirmed (s_link x))) (l_tasks (s_link x)) c ev.

(** The slave after [pop_front]. *)
Definition popped (x : slave) : slave :=
  Slave (confirmed_link x (set_current_keys (tail (current_keys (client_of x))) (client_of x)) []) (s_conn x) held.

(** The next access of a confirmation, to the slave that [H] says. *)
Ltac confirm_next H := unfold alone_step, actor_access, confirm_access; cbn [fst snd]; rewrite H; cbn.

Section alone.
Context {D : Type} `{LevelDB D}.

Lemma confirm_parts (d : D) conn c c' ev :
  state c = syncing → on_confirm d conn c = (Ok tt, c', ev) →
  ∃ from data buf, last (current_keys c) = Some from ∧ next_data d from = Ok data ∧
    ser valmap2str_json data = Ok buf ∧ ev = [Request conn _set_ buf] ∧
    c' = let c0 := set_current_keys (tail (current_keys c)) c in
         match last data with
         | Some kv => set_current_keys (tail (current_keys c) ++ [kv.1]) c0
         | None => set_current_keys (tail (current_keys c) ++ [from]) (set_state sync_finishing c0)
         end.
Proof using Type.
  intros Hs. unfold on_confirm, mbind, op_bind, op_get. cbn beta iota. rewrite Hs.
  destruct (last (current_keys c)) as [from|]; cbn beta iota; [|by intros [=]].
  unfold op_modify. cbn beta iota. rewrite decide_True by done.
  destruct (next_data d from) as [data|x| |] eqn:Hd.
  2-4: unfold _push_next_portion, mbind, op_bind, op_lift; rewrite Hd; cbn; by intros [=].
  destruct (valmap2str_total data) as [buf Hb]. rewrite (_push_next_portion_eq d conn from _ data buf Hd Hb).
  intros Hc. exists from, data, buf. destruct (last data); cbn in Hc; injection Hc as <- <-; by split_and!.
Qed.

(** From the snapshot [d0] on, whatever became of the database. *)
Lemma confirm_rest a x (d0 : D) c' ev :
  state (client_of x) = syncing → on_confirm d0 (s_conn x) (client_of x) = (Ok tt, c', ev) →
  ∃ from, last (current_keys (client_of x)) = Some from ∧
    ∀ d s, slaves s !! a = Some (popped x) →
      rtc alone_step (Confirming a (CPortion from d0), (d, s))
        (Confirming a (CDone (Ok tt)), (d, set_slave a (Slave (confirmed_link x c' ev) (s_conn x) new_spinlock) s)).
Proof using Type.
  intros Hs Hc. destruct (confirm_parts _ _ _ _ _ Hs Hc) as (from & data & buf & Hl & Hd & Hb & -> & ->).
  exists from. split; [done|]. intros d s Hx. cbn zeta.
  assert (∃ c1 k, confirm_portion from d0 (popped x) = Ok (CPushing k, set_link (after (s_link (popped x)) (S (l_confirmed (s_link x)))
      (l_tasks (s_link x) + 0) c1 [Request (s_conn x) _set_ buf]) (popped x)) ∧ current_keys c1 = tail (current_keys (client_of x)) ∧
    set_current_keys (tail (current_keys (client_of x)) ++ [k]) c1 =
      match last data with
      | Some kv => set_current_keys (tail (current_keys (client_of x)) ++ [kv.1])
          (set_current_keys (tail (current_keys (client_of x))) (client_of x))
      | None => set_current_keys (tail (current_keys (client_of x)) ++ [from])
          (set_state sync_finishing (set_current_keys (tail (current_keys (client_of x))) (client_of x)))
      end) as (c1 & k & Hp & Hk & <-).
  { unfold confirm_portion, mbind, res_bind. cbn zeta. rewrite Hd. cbn beta iota. rewrite Hb. cbn beta iota. destruct (last data); do 2 eexists; split_and!; reflexivity. }
  eapply rtc_l; [confirm_next (slave_at_some _ _ _ Hx); by rewrite Hp|].
  eapply rtc_l; [by confirm_next set_slave_at|]. cbn. rewrite set_slave_twice.
  apply rtc_once. confirm_next set_slave_at. rewrite set_slave_twice, Hk.
  unfold confirmed_link, after, set_mtx, unlock, new_spinlock. cbn. by rewrite !Nat.add_0_r, app_nil_r.
Qed.

Lemma confirm_begin a x (d : D) s from :
  slaves s !! a = Some x → value (s_mtx x) = false → state (client_of x) = syncing →
  last (current_keys (client_of x)) = Some from →
  rtc alone_step (Confirming a CLocking, (d, s)) (Confirming a (CPortion from d), (d, set_slave a (popped x) s)).
Proof using Type.
  intros Hx Hf Hs Hl. destruct x as [l n [v]]. cbn in Hf. subst v.
  eapply rtc_l; [by confirm_next (slave_at_some _ _ _ Hx)|].
  eapply rtc_l; [confirm_next set_slave_at; unfold confirm_pop, client_of in *; cbn in *; by rewrite decide_True, Hl by done|].
  cbn. rewrite set_slave_twice. apply rtc_once. by confirm_next set_slave_at.
Qed.

Lemma confirm_alone a x (d : D) s c' ev :
  slaves s !! a = Some x → value (s_mtx x) = false → on_confirm d (s_conn x) (client_of x) = (Ok tt, c', ev) →
  rtc alone_step (Confirming a CLocking, (d, s))
    (Confirming a (CDone (Ok tt)), (d, set_slave a (Slave (confirmed_link x c' ev) (s_conn x) new_spinlock) s)).
Proof using Type.
  intros Hx Hf Hc. destruct (decide (state (client_of x) = syncing)) as [Hs|Hs].
  - destruct (confirm_rest a x d c' ev Hs Hc) as (from & Hl & Hrun).
    etrans; [by eapply confirm_begin|]. specialize (Hrun d (set_slave a (popped x) s)). rewrite set_slave_twice in Hrun. apply Hrun, lookup_insert_eq.
  - destruct x as [l n [v]]. cbn in Hf. subst v. cbn in Hs, Hc.
    eapply rtc_l; [by confirm_next (slave_at_some _ _ _ Hx)|].
    eapply rtc_l; [confirm_next set_slave_at; unfold confirm_pop, client_of in *; cbn in *; rewrite decide_False by done; cbn; by rewrite Hc|].
    cbn. rewrite set_slave_twice. apply rtc_once. confirm_next set_slave_at. by rewrite set_slave_twice.
Qed.
End alone.

(** ** A sender beside it *)

Section skipped.
Context {D : Type} `{LevelDB D}.

(** A sender that reads a [current()] not above any of its keys goes past the
    slave, held or not. *)
Lemma sender_skips u a id y (d : D) s :
  nodes s = [(id, a)] → slaves s !! a = Some y → state (client_of y) = syncing → data_size u ≠ 0%nat →
  data_size (partial_of u (current (client_of y))) = 0%nat →
  rtc alone_step (Sending u Begin, (d, s)) (Sending u Done, (d, s)).
Proof using Type.
  intros Hn Hy Hs Hu Hp. pose proof (slave_at_some _ _ _ Hy) as Ha.
  assert (rtc (sender_step u) (Begin, s) (Done, s)) as Hr.
  { eapply rtc_l; [unfold sender_step; cbn; by rewrite decide_False, Hn|].
    eapply rtc_l; [unfold sender_step; cbn; rewrite Ha; cbn; by rewrite decide_False by (by rewrite Hs)|].
    eapply rtc_l; [unfold sender_step; cbn; rewrite Ha; cbn; by rewrite decide_True|].
    eapply rtc_l; [unfold sender_step; cbn; rewrite Ha; cbn; by rewrite decide_True|].
    apply rtc_once. unfold sender_step. cbn. rewrite Hn. cbn. by rewrite decide_True. }
  apply (rtc_congruence (λ ps : place * table, (Sending u ps.1 : actor D, (d, ps.2))) ) with (2 := Hr).
  intros [p t] [p' t'] Hst. unfold alone_step, sender_step in *. cbn in *. by rewrite Hst.
Qed.

Lemma popped_current x : bytes_le (current (client_of (popped x))) (current (client_of x)).
Proof using Type.
  apply bytes_le_lt_or_eq. unfold current, popped, client_of. cbn.
  destruct (current_keys (l_client (s_link x))) as [|k [|k' ks]]; cbn; [by right| |by right].
  destruct k; [by right|by left].
Qed.
End skipped.

(** ** The rest of the synchronisation *)

Lemma portion_text_of m l :
  text_db m → (∀ kv, kv ∈ l → m !! kv.1 = Some kv.2) →
  ∃ s, ser valmap2str_json l = Ok s ∧ ∀ st, slave_apply st (_set_, s) = insert_all st l.
Proof.
  intros Ht Hl. assert (Forall str_pair l) as Hstr.
  { apply Forall_forall. intros kv Hkv%Hl. exact (proj2 Ht _ _ Hkv). }
  destruct (valmap2str_total l) as [s Es]. exists s. split; [done|]. intros st.
  destruct (slave_apply_set st l _set_ (or_introl eq_refl) Hstr) as (s' & Es' & Ha). congruence.
Qed.

Section later.
Context {D : Type} `{LevelDBLaws D} (conn : nat).

(** A confirmation that is answered by a portion. *)
Inductive confirmed : sync_conf (D := D) → sync_conf (D := D) → Prop :=
  | confirmed_intro d c evs r c' ev :
      state c = syncing → on_confirm d conn c = (r, c', ev) → confirmed (d, c, evs) (d, c', evs ++ ev).

(** The slave stays with [w] under the key [k]; the portions went past it. *)
Record settled (m : gmap bytes bytes) (k : bytes) (w : option bytes) (x : sync_conf (D := D)) : Prop := {
  st_contents : contents x.1.1 = m;
  st_key : is_Some (m !! current x.1.2);
  st_past : bytes_le k (current x.1.2);
  st_view : slave_view x.2 (queue x.1.2) !! k = w;
}.

Lemma settled_step m k w x y : text_db m → k ≠ [] → settled m k w x → confirmed x y → settled m k w y.
Proof.
  intros Ht Hk [Hm Hc Hp Hv] Hxy. destruct Hxy as [d c evs r c' ev Hs Hcf]. cbn [fst snd] in *.
  assert (current c ≠ []) as Hne by (intros Hn; rewrite Hn in Hp; by destruct k).
  assert (current_keys c ≠ []) as Hks by (intros Hn; apply Hne; unfold current; by rewrite Hn).
  rewrite on_confirm_syncing in Hcf by done. destruct (current c) as [|b from] eqn:Hcur; [done|].
  set (l := take portion_size (after_key (b :: from) (sorted_entries (contents d)))).
  assert (next_data d (b :: from) = Ok l) as Hn by (apply next_data_spec; right; by rewrite Hm).
  assert (∀ kv, kv ∈ l → bytes_lt (b :: from) kv.1 ∧ m !! kv.1 = Some kv.2) as Hl.
  { intros [k1 v1] Hin%elem_of_take_in. rewrite Hm in Hin. by apply after_key_lookup in Hin; [|apply Ht]. }
  destruct (portion_text_of m l Ht (λ kv Hkv, proj2 (Hl kv Hkv))) as (s & Es & Hap).
  assert (∃ c2, c' = c2 ∧ ev = [Request conn _set_ s] ∧ queue c2 = queue c ∧
    current c2 = match last l with Some kv => kv.1 | None => b :: from end) as (c2 & -> & -> & Hq & Hc2).
  { unfold mbind, op_bind in Hcf. rewrite (_push_next_portion_eq d conn _ _ l s Hn Es) in Hcf.
    destruct (last l) as [kv|]; injection Hcf as <- <- <-; eexists; split_and!; try done; apply current_snoc. }
  assert (is_Some (m !! current c2) ∧ bytes_le k (current c2)) as [Hk1 Hk2].
  { rewrite Hc2. destruct (last l) as [kv|] eqn:Hlast; [|done].
    destruct (Hl kv) as [Hlt Hkv]; [apply last_Some in Hlast as [l' ->]; apply elem_of_app; right; apply list_elem_of_here|].
    split; [by eexists|]. etrans; [exact Hp|]. apply bytes_le_lt_or_eq. by left. }
  split; cbn [fst snd]; [done|done|done|]. rewrite Hq, slave_view_app, Hap.
  rewrite <-Hv, (slave_view_queue evs (queue c)). apply slave_fold_congr, insert_all_untouched.
  intros ([k1 v1] & -> & [Hlt _]%Hl)%list_elem_of_fmap. by apply bytes_le_not_lt in Hp.
Qed.

Lemma settled_steps m k w x y : text_db m → k ≠ [] → settled m k w x → rtc confirmed x y → settled m k w y.
Proof. intros Ht Hk Hx Hr. induction Hr; [done|]. eauto using settled_step. Qed.
End later.

(** ** The run in which the update is lost *)

Section lost.
Context {D : Type} `{LevelDBHealthy D}.

(** The threads: the handler of a [set] of one key, and a confirmation. *)
Definition setter_and_confirmer (k v : bytes) (a : nat) : list (actor D) :=
  [Putting [(k, v)] [(k, v)]; Confirming a CLocking].
Definition both_ended (k v : bytes) (a : nat) : list (actor D) :=
  [Sending (B_set [(k, v)]) Done; Confirming a (CDone (Ok tt))].

Lemma lost_run d s id a x c' ev k v :
  nodes s = [(id, a)] → slaves s !! a = Some x → value (s_mtx x) = false →
  state (client_of x) = syncing → on_confirm d (s_conn x) (client_of x) = (Ok tt, c', ev) →
  bytes_le (current (client_of x)) k →
  ∃ d', contents d' = <[k := v]> (contents d) ∧
    rtc race_step ((d, s), setter_and_confirmer k v a)
      ((d', set_slave a (Slave (confirmed_link x c' ev) (s_conn x) new_spinlock) s), both_ended k v a).
Proof using Type*.
  intros Hn Hx Hf Hs Hc Hk. destruct (confirm_rest a x d c' ev Hs Hc) as (from & Hl & Hrest).
  destruct (Put_healthy d k v) as (d' & Hput & Hd'). exists d'. split; [done|].
  etrans; [exact (alone_runs 1 (setter_and_confirmer k v a) _ _ (confirm_begin a x d s from Hx Hf Hs Hl) eq_refl)|]. cbn.
  etrans.
  { refine (alone_runs 0 [Putting [(k, v)] [(k, v)]; Confirming a (CPortion from d)] (Putting [(k, v)] [(k, v)], (d, _))
      (Sending (B_set [(k, v)]) Done, (d', set_slave a (popped x) s)) _ eq_refl).
    eapply rtc_l; [unfold alone_step; cbn; by rewrite Hput|]. eapply rtc_l; [reflexivity|].
    apply (sender_skips _ a id (popped x)); [done|apply lookup_insert_eq|exact Hs|done|].
    refine (f_equal length (filter_none (λ kv : bytes * bytes, bytes_lt kv.1 _) [(k, v)] _)).
    apply Forall_singleton. cbn [fst]. intros Hlt.
    apply bytes_le_not_lt in Hk. apply Hk. destruct (proj1 (bytes_le_lt_or_eq _ _) (popped_current x)) as [Hle|<-]; [by etrans|done]. }
  cbn. specialize (Hrest d' (set_slave a (popped x) s)). rewrite set_slave_twice in Hrest.
  refine (alone_runs 1 [Sending (B_set [(k, v)]) Done; Confirming a (CPortion from d)] _ _ (Hrest _) eq_refl).
  apply lookup_insert_eq.
Qed.
End lost.

(** ** Properties *)

(** C36. A slave that is being synchronised can miss an update for good, although
    [sync_slave_follows_master] holds of handlers one after the other: when
    the [set] of a key between [current()] and the last key of the next
    portion writes to the database after the confirmation took its snapshot,
    and reads [current()] before the portion's last key is there, the update
    is in no portion and in no queue.  Both handlers end well, and however
    many confirmations follow, the slave is left with what the master had
    under the key before. *)
Theorem update_lost_beside_confirmation {D} `{LevelDBHealthy D} d s id a x c' ev k v :
  nodes s = [(id, a)] → slaves s !! a = Some x → value (s_mtx x) = false →
  sync_reachable (s_conn x) (d, client_of x, l_sent (s_link x)) → state (client_of x) = syncing →
  on_confirm d (s_conn x) (client_of x) = (Ok tt, c', ev) →
  k ≠ [] → utf8_text k → utf8_text v → bytes_le (current (client_of x)) k → bytes_le k (current c') →
  ∃ d' s' x', rtc race_step ((d, s), setter_and_confirmer k v a) ((d', s'), both_ended k v a) ∧
    slaves s' !! a = Some x' ∧
    ∀ y, rtc (confirmed (s_conn x)) (d', client_of x', l_sent (s_link x')) y →
      contents y.1.1 !! k = Some v ∧ slave_view y.2 (queue y.1.2) !! k = contents d !! k.
Proof.
  intros Hn Hx Hf Hr Hs Hc Hk Hkt Hvt Hlo Hhi. destruct (lost_run d s id a x c' ev k v) as (d' & Hd' & Hrun); [done..|].
  eexists d', _, _. split_and!; [exact Hrun|apply lookup_insert_eq|]. intros y Hy.
  assert (sync_ok (contents d) c' (l_sent (s_link x) ++ ev)) as Hok.
  { apply (sync_reachable_ok (s_conn x) (d, c', l_sent (s_link x) ++ ev)). destruct Hr as (x0 & Hi & Hx0). exists x0.
    split; [done|]. eapply rtc_r; [exact Hx0|by eapply ss_confirm]. }
  assert (filter (λ e, is_request e = true) ev = ev) as Hev by (by destruct (confirm_parts _ _ _ _ _ Hs Hc) as (? & ? & ? & _ & _ & _ & -> & _)).
  assert (current c' ≠ []) as Hne by (intros Hn'; rewrite Hn' in Hhi; by destruct k).
  assert (settled (contents d') k (contents d !! k) y) as [Hm _ _ Hview].
  { eapply (settled_steps (s_conn x)); [| exact Hk| |exact Hy].
    - rewrite Hd'. apply (text_db_insert_all (contents d) [(k, v)]); [apply Hok|]. by repeat constructor.
    - split; cbn; rewrite ?Hev; [done| |exact Hhi|by apply (sy_behind _ _ _ Hok)].
      rewrite Hd'. destruct (sy_current _ _ _ Hok) as [|[w Hw]]; [done|].
      destruct (decide (k = current c')) as [<-|Hkc]; [rewrite lookup_insert_eq|rewrite lookup_insert_ne by done]; by eexists. }
  split; [|exact Hview]. by rewrite Hm, Hd', lookup_insert_eq.
Qed.

(** The synchronised master of [conf0] gets an entry behind the last portion,
    and one before that while the portion with it is on its way. *)
Definition slave_of (x : sync_conf (D := gmap bytes bytes)) : slave := Slave (Link x.1.2 x.2 0 0 []) 7 new_spinlock.
Definition late_conf : sync_conf (D := gmap bytes bytes) := (insert_all conf0.1.1 [(str "d", str "4")], conf0.1.2, conf0.2).
Definition late_table : table := Table [(str "s", 0%nat)] {[ 0%nat := slave_of late_conf ]}.
Definition late_client : Client_t := (on_confirm late_conf.1.1 7 late_conf.1.2).1.2.
Definition late_events : list event := (on_confirm late_conf.1.1 7 late_conf.1.2).2.

Lemma slave_of_reachable x :
  sync_reachable 7 x → sync_reachable (s_conn (slave_of x)) (x.1.1, client_of (slave_of x), l_sent (s_link (slave_of x))).
Proof. by destruct x as [[d c] evs]. Qed.

Lemma late_conf_reachable : sync_reachable 7 late_conf.
Proof.
  exists conf0. split.
  { apply start_conf_init; [|done|done].
    split; [reflexivity|]. apply map_Forall_insert_2; [|apply map_Forall_singleton];
      split; vm_compute; reflexivity. }
  apply rtc_once. apply (set_conf_step conf0 [(str "d", str "4")]).
  - vm_compute. reflexivity.
  - repeat constructor; vm_compute; (discriminate || reflexivity).
  - apply (bool_decide_unpack _). vm_compute. exact I.
  - vm_compute. reflexivity.
Qed.

Lemma update_lost_beside_confirmation_witness :
  late_conf.1.1 !! str "c" = None ∧
  ∃ d' s' x', rtc race_step ((late_conf.1.1, late_table), setter_and_confirmer (str "c") (str "9") 0)
      ((d', s'), both_ended (str "c") (str "9") 0) ∧
    slaves s' !! 0%nat = Some x' ∧
    ∀ y, rtc (confirmed (D := gmap bytes bytes) 7) (d', client_of x', l_sent (s_link x')) y →
      contents y.1.1 !! str "c" = Some (str "9") ∧
      slave_view y.2 (queue y.1.2) !! str "c" = late_conf.1.1 !! str "c".
Proof.
  split; [vm_compute; reflexivity|].
  apply (update_lost_beside_confirmation late_conf.1.1 late_table (str "s") 0 (slave_of late_conf) late_client late_events
    (str "c") (str "9") eq_refl eq_refl eq_refl (slave_of_reachable _ late_conf_reachable)).
  - vm_compute. reflexivity.
  - vm_compute. reflexivity.
  - discriminate.
  - vm_compute. reflexivity.
  - vm_compute. reflexivity.
  - vm_compute. discriminate.
  - vm_compute. discriminate.
Defined.
