(* ===== verification/Concurrent.v ===== *)
(** * Concurrent: the handlers on several threads

    A worker thread of the multiserver runs a handler while others run
    theirs.  [proc] is a handler as the accesses to what the threads share,
    one after the other: the database, whose operations leveldb makes atomic,
    the locks of the keys ([LockManager]) and the replication.  The
    procedures below are the handlers of [src/fas_methods.hpp] again, with
    their lock guards; that each does alone what its definition in [Methods]
    does is proved in [ConcurrentSpec]. *)

From S2P Require Import Prelude JsonParser JsonNumber Serializer JsonString JsonArray JsonObject Queries.
From S2P Require Import LevelDb Replication Methods MethodsSpec Locks.

(** ** Procedures *)

(** [PRep f c]: a call of a member function of [replication]; [c] goes on
    with its outcome. *)
Inductive proc (A : Type) : Type :=
  | PEnd (r : res A)
  | PLock (i : nat) (p : proc A)
  | PUnlock (i : nat) (p : proc A)
  | PGet (k : bytes) (c : option bytes → proc A)
  | PPut (k v : bytes) (c : bool → proc A)
  | PDelete (k : bytes) (c : bool → proc A)
  | PRep (f : Replication → res Replication) (c : res unit → proc A).

Arguments PEnd {A} _.
Arguments PLock {A} _ _.
Arguments PUnlock {A} _ _.
Arguments PGet {A} _ _.
Arguments PPut {A} _ _ _.
Arguments PDelete {A} _ _.
Arguments PRep {A} _ _.

#[export] Instance proc_ret : MRet proc := λ A a, PEnd (Ok a).
#[export] Instance proc_bind : MBind proc := λ A B f,
  fix go (p : proc A) : proc B :=
  match p with
  | PEnd (Ok a) => f a
  | PEnd (Throw x) => PEnd (Throw x)
  | PEnd Undef => PEnd Undef
  | PEnd NoFuel => PEnd NoFuel
  | PLock i p => PLock i (go p)
  | PUnlock i p => PUnlock i (go p)
  | PGet k c => PGet k (λ r, go (c r))
  | PPut k v c => PPut k v (λ ok, go (c ok))
  | PDelete k c => PDelete k (λ ok, go (c ok))
  | PRep g c => PRep g (λ r, go (c r))
  end.

Definition p_get (k : bytes) : proc (option bytes) := PGet k mret.
Definition p_put (k v : bytes) : proc bool := PPut k v mret.
Definition p_delete (k : bytes) : proc bool := PDelete k mret.
Definition p_rep (f : Replication → res Replication) : proc unit := PRep f PEnd.
Definition p_lift {A} (r : res A) : proc A := PEnd r.

(** The destructor of a [std::lock_guard]: it runs however the scope ends. *)
Fixpoint finally {A} (i : nat) (p : proc A) : proc A :=
  match p with
  | PEnd r => PUnlock i (PEnd r)
  | PLock j p => PLock j (finally i p)
  | PUnlock j p => PUnlock j (finally i p)
  | PGet k c => PGet k (λ r, finally i (c r))
  | PPut k v c => PPut k v (λ ok, finally i (c ok))
  | PDelete k c => PDelete k (λ ok, finally i (c ok))
  | PRep f c => PRep f (λ r, finally i (c r))
  end.
Definition guarded {A} (i : nat) (p : proc A) : proc A := PLock i (finally i p).

(** [std::hash<std::string>]. *)
Class StringHash := { std_hash : bytes → Z }.

(** ** The handlers *)

Section handlers.
Context `{HashOrder} `{StringHash}.

(** [getLockmanager()->get(key)]. *)
Definition lock_of (key : bytes) : nat := Z.to_nat (key_lock std_hash key).

(* src: src/fas_methods.hpp 180-182 set::request *)
Fixpoint p_put_loop (cmd : valmap2str) (b : bool) : proc bool :=
  match cmd with
  | [] => mret b
  | (k, v) :: cmd =>
      ok ← p_put k v;
      p_put_loop cmd (if ok : bool then b else false)
  end.

(* src: src/fas_methods.hpp 178-186 set::request *)
Definition p_set (cmd : valmap2str) : proc (bool * bool) :=
  b ← p_put_loop cmd true;
  p_rep (rep_set cmd);;
  mret (true, b).

(* src: src/fas_methods.hpp 144-161 set_range::request *)
Definition p_set_range (cmd : valmap2str) (result : bool) : proc (bool * bool) :=
  match cmd with
  | [] => mret (true, result)
  | _ =>
      b ← p_put_loop cmd true;
      p_rep (rep_set_range cmd);;
      mret (true, b)
  end.

(* src: src/fas_methods.hpp 204-207 del::request *)
Fixpoint p_del_loop (cmd : vallist) (result : valmap2bool) : proc valmap2bool :=
  match cmd with
  | [] => mret result
  | k :: cmd =>
      ok ← p_delete k;
      p_del_loop cmd (push_pair result k ok)
  end.

(* src: src/fas_methods.hpp 202-210 del::request *)
Definition p_del (cmd : vallist) : proc (bool * valmap2bool) :=
  result ← p_del_loop cmd [];
  p_rep (rep_del cmd);;
  mret (true, result).

(* src: src/fas_methods.hpp 230-240 add::request *)
Definition p_add_item (k v : bytes) (repl : valmap2str) (result : valmap2bool)
    : proc (valmap2str * valmap2bool) :=
  guarded (lock_of k)
    (r ← p_get k;
     match r with
     | Some _ => mret (repl, push_pair result k false)
     | None =>
         ok ← p_put k v;
         mret (if ok : bool then (push_pair repl k v, push_pair result k true)
               else (repl, push_pair result k false))
     end).

(* src: src/fas_methods.hpp 227-241 add::request *)
Fixpoint p_add_loop (cmd repl : valmap2str) (result : valmap2bool) : proc (valmap2str * valmap2bool) :=
  match cmd with
  | [] => mret (repl, result)
  | (k, v) :: cmd => '(repl, result) ← p_add_item k v repl result; p_add_loop cmd repl result
  end.

(* src: src/fas_methods.hpp 224-244 add::request *)
Definition p_add (cmd : valmap2str) : proc (bool * valmap2bool) :=
  '(repl, result) ← p_add_loop cmd [] [];
  p_rep (rep_set repl);;
  mret (true, result).

(* src: src/fas_methods.hpp 257-270 inc::request *)
Definition p_inc_item (k : bytes) (n : Z) (result : valmap2raw) : proc valmap2raw :=
  guarded (lock_of k)
    (r ← p_get k;
     match r with
     | Some r =>
         '(val, _) ← p_lift (drop_on_throw (read_number 0 r));
         val ← p_lift (int_op longlong_t (val + n));
         r ← p_lift (write_number val);
         ok ← p_put k r;
         mret (if ok : bool then push_pair result k r else result)
     | None => mret result
     end).

(* src: src/fas_methods.hpp 256-271 inc::request *)
Fixpoint p_inc_loop (cmd : valmap2int) (result : valmap2raw) : proc valmap2raw :=
  match cmd with
  | [] => mret result
  | (k, n) :: cmd => result ← p_inc_item k n result; p_inc_loop cmd result
  end.

(* src: src/fas_methods.hpp 252-274 inc::request *)
Definition p_inc (cmd : valmap2int) : proc (bool * valmap2raw) :=
  result ← p_inc_loop cmd [];
  p_rep (rep_set result);;
  mret (true, result).

(* src: src/fas_methods.hpp 287-307 inc_add::request *)
Definition p_inc_add_item (k : bytes) (n : Z) (def : valmap2int_map) (result : valmap2raw) : proc valmap2raw :=
  guarded (lock_of k)
    (r ← p_get k;
     val ← p_lift (inc_add_base r def k);
     val ← p_lift (int_op longlong_t (val + n));
     r ← p_lift (write_number val);
     ok ← p_put k r;
     mret (if ok : bool then push_pair result k r else result)).

(* src: src/fas_methods.hpp 286-308 inc_add::request *)
Fixpoint p_inc_add_loop (cmd : valmap2int) (def : valmap2int_map) (result : valmap2raw) : proc valmap2raw :=
  match cmd with
  | [] => mret result
  | (k, n) :: cmd => result ← p_inc_add_item k n def result; p_inc_add_loop cmd def result
  end.

(* src: src/fas_methods.hpp 282-311 inc_add::request *)
Definition p_inc_add (cmd : inc_add_request) : proc (bool * valmap2raw) :=
  result ← p_inc_add_loop (ia_inc cmd) (ia_def cmd) [];
  p_rep (rep_set result);;
  mret (true, result).

(** The guard of [update_packed] lasts until the function returns: the only
    handler that tells the slaves while it holds the lock. *)
(* src: src/fas_methods.hpp 319-364 update_packed::request *)
Definition p_update_packed (cmd : update_packed_request) : proc (bool * bytes) :=
  guarded (lock_of (up_key cmd))
    (tmp ← p_get (up_key cmd);
     data ← p_lift (packed_data tmp (up_def cmd));
     data ← p_lift (packed_incs (up_inc cmd) (packed_sets (up_set cmd) data));
     result ← p_lift (ser valmap2str_map_json data);
     ok ← p_put (up_key cmd) result;
     if ok : bool then p_rep (rep_set [(up_key cmd, result)]);; mret (true, result)
     else mret (true, str "null")).

(** What a thread does for one request, the answer aside. *)
Definition update_proc (u : update) : proc unit :=
  match u with
  | u_set cmd => p_set cmd;; mret tt
  | u_set_range cmd => p_set_range cmd false;; mret tt
  | u_del cmd => p_del cmd;; mret tt
  | u_add cmd => p_add cmd;; mret tt
  | u_inc cmd => p_inc cmd;; mret tt
  | u_inc_add cmd => p_inc_add cmd;; mret tt
  | u_update_packed cmd => p_update_packed cmd;; mret tt
  end.
End handlers.

(** ** Threads *)

Section threads.
Context {D : Type} `{LevelDB D}.

(** [locks] are the [longspinlock]s of the [LockManager]. *)
(* src: src/db.hpp 107-120 LockManager *)
Record shared := Shared { locks : list spinlock; sh_world : world D }.

Definition new_shared (w : world D) : shared := Shared (replicate 1024 new_spinlock) w.

Definition set_lock (i : nat) (l : spinlock) (s : shared) : shared := Shared (<[i := l]> (locks s)) (sh_world s).
Definition set_world (w : world D) (s : shared) : shared := Shared (locks s) w.

(** The next access of a procedure; a thread that spins stays where it is. *)
Definition proc_step {A} (p : proc A) (s : shared) : option (proc A * shared) :=
  match p with
  | PEnd _ => None
  | PLock i p' =>
      match locks s !! i with
      | Some l => let '(got, l') := spin l in Some (if got : bool then p' else p, set_lock i l' s)
      | None => None
      end
  | PUnlock i p' =>
      match locks s !! i with
      | Some l => Some (p', set_lock i (unlock l) s)
      | None => None
      end
  | PGet k c => Some (c (Get (w_db (sh_world s)) k), s)
  | PPut k v c => let '(ok, d) := Put (w_db (sh_world s)) k v in Some (c ok, set_world (set_db d (sh_world s)) s)
  | PDelete k c => let '(ok, d) := Delete (w_db (sh_world s)) k in Some (c ok, set_world (set_db d (sh_world s)) s)
  | PRep f c =>
      match f (w_replication (sh_world s)) with
      | Ok r => Some (c (Ok tt), set_world (set_replication r (sh_world s)) s)
      | Throw x => Some (c (Throw x), s)
      | Undef => Some (c Undef, s)
      | NoFuel => Some (c NoFuel, s)
      end
  end.

(** One access of one of the threads. *)
Inductive thread_step {A} : shared * list (proc A) → shared * list (proc A) → Prop :=
  | thread_step_intro s ps i p p' s' :
      ps !! i = Some p → proc_step p s = Some (p', s') → thread_step (s, ps) (s', <[i := p']> ps).

(** The threads take turns as the list says. *)
Fixpoint run_schedule {A} (turns : list nat) (x : shared * list (proc A)) : shared * list (proc A) :=
  match turns with
  | [] => x
  | i :: turns =>
      match x.2 !! i with
      | Some p =>
          match proc_step p x.1 with
          | Some (p', s') => run_schedule turns (s', <[i := p']> x.2)
          | None => run_schedule turns x
          end
      | None => run_schedule turns x
      end
  end.

Lemma run_schedule_steps {A} turns (x : shared * list (proc A)) : rtc thread_step x (run_schedule turns x).
Proof.
  revert x. induction turns as [|i turns IH]; intros [s ps]; cbn; [done|].
  destruct (ps !! i) as [p|] eqn:Hi; [|apply IH]. destruct (proc_step p s) as [[p' s']|] eqn:Hp; [|apply IH].
  eapply rtc_l; [by eapply thread_step_intro|apply IH].
Qed.

(** Alone, without an end when it spins on a lock that is taken. *)
Fixpoint alone {A} (p : proc A) (s : shared) : option (res A * shared) :=
  match p with
  | PEnd r => Some (r, s)
  | PLock i p =>
      match locks s !! i with
      | Some l => let '(got, l') := spin l in if got : bool then alone p (set_lock i l' s) else None
      | None => None
      end
  | PUnlock i p =>
      match locks s !! i with
      | Some l => alone p (set_lock i (unlock l) s)
      | None => None
      end
  | PGet k c => alone (c (Get (w_db (sh_world s)) k)) s
  | PPut k v c => let '(ok, d) := Put (w_db (sh_world s)) k v in alone (c ok) (set_world (set_db d (sh_world s)) s)
  | PDelete k c => let '(ok, d) := Delete (w_db (sh_world s)) k in alone (c ok) (set_world (set_db d (sh_world s)) s)
  | PRep f c =>
      match f (w_replication (sh_world s)) with
      | Ok r => alone (c (Ok tt)) (set_world (set_replication r (sh_world s)) s)
      | Throw x => alone (c (Throw x)) s
      | Undef => alone (c Undef) s
      | NoFuel => alone (c NoFuel) s
      end
  end.
End threads.
