(* ===== verification/ConcurrentSpec.v ===== *)
(** * ConcurrentSpec: what the threads do to one another

    Alone, the procedures of [Concurrent] are the handlers of [Methods].
    Together: the handlers that lock a key read and store it as if in one
    step, so no increment is lost and no thread waits for ever; the slaves,
    who are told after the lock was given back, and [set], which takes no
    lock, are not protected. *)

From S2P Require Import Prelude JsonParser JsonNumber Serializer JsonString JsonArray JsonObject Queries.
From stdpp Require Import well_founded.
From S2P Require Import LevelDb Replication ReplicationSync Methods MethodsSpec Locks Concurrent.

(** ** Alone *)

Section alone.
Context {D : Type} `{LevelDB D} `{HashOrder} `{StringHash}.
Implicit Types s : shared (D := D).

Lemma alone_bind {A B} (p : proc A) (f : A → proc B) s :
  alone (p ≫= f) s = match alone p s with
                     | Some (Ok a, s') => alone (f a) s'
                     | Some (Throw x, s') => Some (Throw x, s')
                     | Some (Undef, s') => Some (Undef, s')
                     | Some (NoFuel, s') => Some (NoFuel, s')
                     | None => None
                     end.
Proof.
  revert s. induction p as [r|i p IH|i p IH|k c IH|k v c IH|k c IH|g c IH]; intros s.
  - by destruct r.
  - cbn -[spin]. destruct (locks s !! i) as [l|]; [|done]. destruct (spin l) as [[] l']; [apply IH|done].
  - cbn. destruct (locks s !! i) as [l|]; [apply IH|done].
  - apply IH.
  - cbn. destruct (Put _ _ _) as [ok d]. apply IH.
  - cbn. destruct (Delete _ _) as [ok d]. apply IH.
  - cbn. destruct (g _); apply IH.
Qed.

Lemma alone_finally {A} i (p : proc A) s r s' l :
  alone p s = Some (r, s') → locks s' !! i = Some l →
  alone (finally i p) s = Some (r, set_lock i (unlock l) s').
Proof.
  intros Hp Hl. revert s Hp. induction p as [r0|j p IH|j p IH|k c IH|k v c IH|k c IH|g c IH]; intros s; cbn -[spin].
  - intros [= <- <-]. by rewrite Hl.
  - destruct (locks s !! j) as [l'|]; [|done]. destruct (spin l') as [[] l2]; [apply IH|done].
  - destruct (locks s !! j) as [l'|]; [apply IH|done].
  - apply IH.
  - destruct (Put _ _ _) as [ok d]. apply IH.
  - destruct (Delete _ _) as [ok d]. apply IH.
  - destruct (g _); apply IH.
Qed.

(** With the locks as [Q] has them, [p] alone does what [m] does. *)
Definition does {A} (Q : list spinlock → Prop) (p : proc A) (m : op (world D) A) : Prop :=
  ∀ s, Q (locks s) → alone p s = Some ((m (sh_world s)).1.1, set_world (m (sh_world s)).1.2 s).

Definition all_free (ls : list spinlock) : Prop := ls = replicate 1024 new_spinlock.

Lemma does_weaken {A} Q (p : proc A) m : does (λ _, True) p m → does Q p m.
Proof. intros Hp s _. by apply Hp. Qed.

Lemma does_equiv {A} Q (p : proc A) m m' : prog_equiv m m' → does Q p m → does Q p m'.
Proof. intros Hm Hp s Hs. rewrite (Hp s Hs). by rewrite (equiv_at Hm). Qed.

Lemma does_bind {A B} Q (p : proc A) (f : A → proc B) m g :
  does Q p m → (∀ a, does Q (f a) (g a)) → does Q (p ≫= f) (m ≫= g).
Proof.
  intros Hp Hf s Hs. rewrite alone_bind, (Hp s Hs). unfold mbind, op_bind.
  destruct (m (sh_world s)) as [[[a| | |] w] ev]; cbn [fst snd]; [|done..].
  rewrite (Hf a (set_world w s)); [|done]. cbn. by destruct (g a w) as [[r w'] ev'].
Qed.

Lemma does_ret {A} Q (a : A) : does Q (mret a) (mret a).
Proof. by intros [ls w] _. Qed.
Lemma does_lift {A} Q (r : res A) : does Q (p_lift r) (op_lift r).
Proof. by intros [ls w] _. Qed.
Lemma does_get Q k : does Q (p_get k) (db_Get k).
Proof. by intros [ls w] _. Qed.
Lemma does_put Q k v : does Q (p_put k v) (db_Put k v).
Proof. intros [ls w] _. cbn. unfold db_Put. by destruct (Put _ _ _). Qed.
Lemma does_delete Q k : does Q (p_delete k) (db_Delete k).
Proof. intros [ls w] _. cbn. unfold db_Delete. by destruct (Delete _ _). Qed.
Lemma does_rep Q f : does Q (p_rep f) (on_replication f).
Proof. intros [ls w] _. cbn. unfold on_replication. by destruct (f _). Qed.

Lemma lock_of_lt key : (lock_of key < 1024)%nat.
Proof. unfold lock_of. pose proof (key_lock_range std_hash key). lia. Qed.

Lemma does_guarded {A} key (p : proc A) m :
  does (λ _, True) p m → does all_free (guarded (lock_of key) p) m.
Proof.
  intros Hp s Hs. unfold guarded. cbn [alone]. set (i := lock_of key).
  assert (locks s !! i = Some new_spinlock) as Hi.
  { rewrite Hs. apply lookup_replicate_2, lock_of_lt. }
  rewrite Hi. cbn [spin exchange negb value new_spinlock].
  assert (i < length (locks s))%nat as Hlt by (by eapply lookup_lt_Some).
  rewrite (alone_finally i p _ _ _ (Spinlock true) (Hp (set_lock i (Spinlock true) s) I)).
  - unfold set_lock, set_world. cbn. by rewrite list_insert_insert_eq, list_insert_id.
  - cbn. by apply list_lookup_insert_eq.
Qed.
End alone.

Create HintDb does.
#[export] Hint Resolve does_ret does_lift does_get does_put does_delete does_rep does_guarded : does.
#[export] Hint Extern 2 (does _ (_ ≫= _) _) => (apply does_bind; [|intros ?]) : does.

(** ** The handlers, one by one *)

Section handlers.
Context {D : Type} `{LevelDB D} `{HashOrder} `{StringHash}.

Lemma does_put_loop cmd b : does (D := D) all_free (p_put_loop cmd b) (put_loop cmd b).
Proof. revert b. induction cmd as [|[k v] cmd IH]; intros b; cbn [p_put_loop put_loop]; auto with does. Qed.

Lemma does_del_loop cmd result : does (D := D) all_free (p_del_loop cmd result) (del_loop cmd result).
Proof. revert result. induction cmd as [|k cmd IH]; intros result; cbn [p_del_loop del_loop]; auto with does. Qed.

(** The loops of the handlers that lock, cut at the end of the guard. *)
Definition add_item (k v : bytes) (repl : valmap2str) (result : valmap2bool)
    : op (world D) (valmap2str * valmap2bool) :=
  r ← db_Get k;
  match r with
  | Some _ => mret (repl, push_pair result k false)
  | None =>
      ok ← db_Put k v;
      mret (if ok : bool then (push_pair repl k v, push_pair result k true)
            else (repl, push_pair result k false))
  end.

Lemma add_loop_cons k v cmd repl result :
  prog_equiv (add_loop ((k, v) :: cmd) repl result)
             ('(repl, result) ← add_item k v repl result; add_loop (D := D) cmd repl result).
Proof.
  cbn [add_loop]. unfold add_item. rewrite op_bind_assoc. apply op_bind_ext.
  intros [r|]; [by rewrite op_ret_bind|]. rewrite op_bind_assoc. apply op_bind_ext.
  intros []; by rewrite op_ret_bind.
Qed.

Definition inc_item (k : bytes) (n : Z) (result : valmap2raw) : op (world D) valmap2raw :=
  r ← db_Get k;
  match r with
  | Some r =>
      '(val, _) ← op_lift (drop_on_throw (read_number 0 r));
      val ← op_lift (int_op longlong_t (val + n));
      r ← op_lift (write_number val);
      ok ← db_Put k r;
      mret (if ok : bool then push_pair result k r else result)
  | None => mret result
  end.

Lemma inc_loop_cons k n cmd result :
  prog_equiv (inc_loop ((k, n) :: cmd) result) (result ← inc_item k n result; inc_loop (D := D) cmd result).
Proof.
  cbn [inc_loop]. unfold inc_item. rewrite op_bind_assoc. apply op_bind_ext.
  intros [r|]; [|by rewrite op_ret_bind]. rewrite op_bind_assoc. apply op_bind_ext. intros [val ?].
  rewrite op_bind_assoc. apply op_bind_ext. intros val'. rewrite op_bind_assoc. apply op_bind_ext. intros r'.
  rewrite op_bind_assoc. apply op_bind_ext. intros ok. by rewrite op_ret_bind.
Qed.

Definition inc_add_item (k : bytes) (n : Z) (def : valmap2int_map) (result : valmap2raw) : op (world D) valmap2raw :=
  r ← db_Get k;
  val ← op_lift (inc_add_base r def k);
  val ← op_lift (int_op longlong_t (val + n));
  r ← op_lift (write_number val);
  ok ← db_Put k r;
  mret (if ok : bool then push_pair result k r else result).

Lemma inc_add_loop_cons k n cmd def result :
  prog_equiv (inc_add_loop ((k, n) :: cmd) def result)
             (result ← inc_add_item k n def result; inc_add_loop (D := D) cmd def result).
Proof.
  cbn [inc_add_loop]. unfold inc_add_item. rewrite op_bind_assoc. apply op_bind_ext. intros r.
  do 3 (rewrite op_bind_assoc; apply op_bind_ext; intros ?).
  rewrite op_bind_assoc. apply op_bind_ext. intros ok. by rewrite op_ret_bind.
Qed.

Lemma does_add_loop cmd repl result :
  does (D := D) all_free (p_add_loop cmd repl result) (add_loop cmd repl result).
Proof.
  revert repl result. induction cmd as [|[k v] cmd IH]; intros repl result; [apply does_ret|].
  eapply does_equiv; [symmetry; apply add_loop_cons|]. cbn [p_add_loop]. apply does_bind; [|by intros [? ?]].
  apply does_guarded, does_bind; [apply does_get|]. intros [r|]; auto with does.
Qed.

Lemma does_inc_loop cmd result : does (D := D) all_free (p_inc_loop cmd result) (inc_loop cmd result).
Proof.
  revert result. induction cmd as [|[k n] cmd IH]; intros result; [apply does_ret|].
  eapply does_equiv; [symmetry; apply inc_loop_cons|]. cbn [p_inc_loop]. apply does_bind; [|done].
  apply does_guarded, does_bind; [apply does_get|]. intros [r|]; [|auto with does].
  apply does_bind; [auto with does|]. intros [val ?]. auto 10 with does.
Qed.

Lemma does_inc_add_loop cmd def result :
  does (D := D) all_free (p_inc_add_loop cmd def result) (inc_add_loop cmd def result).
Proof.
  revert result. induction cmd as [|[k n] cmd IH]; intros result; [apply does_ret|].
  eapply does_equiv; [symmetry; apply inc_add_loop_cons|]. cbn [p_inc_add_loop]. apply does_bind; [|done].
  apply does_guarded. auto 10 with does.
Qed.

Lemma does_update_packed cmd : does (D := D) all_free (p_update_packed cmd) (update_packed cmd).
Proof.
  apply does_guarded. do 5 (apply does_bind; [auto with does|intros ?]). case_match; auto with does.
Qed.

(** What a thread does alone is what the handler does. *)
Lemma does_update u : does (D := D) all_free (update_proc u) (run_update u).
Proof.
  destruct u as [cmd|cmd|cmd|cmd|cmd|cmd|cmd]; (apply does_bind; [|auto with does]).
  - apply does_bind; [apply does_put_loop|auto with does].
  - destruct cmd as [|kv cmd]; [apply does_ret|]. apply does_bind; [apply does_put_loop|auto with does].
  - apply does_bind; [apply does_del_loop|auto with does].
  - apply does_bind; [apply does_add_loop|]. intros [repl result]. auto with does.
  - apply does_bind; [apply does_inc_loop|auto with does].
  - apply does_bind; [apply does_inc_add_loop|auto with does].
  - apply does_update_packed.
Qed.
End handlers.

(** ** The discipline of the locks

    Where a thread is: outside of the guards, before it read the key, after
    it read the key and before it stored it, and after that. *)

Inductive stage :=
  | Free
  | Locked (k : bytes)
  | Got (k : bytes)
  | Held (k : bytes).

Section serial.
Context `{HashOrder} `{StringHash}.

Inductive serial {A} : stage → proc A → Prop :=
  | serial_end r : serial Free (PEnd r)
  | serial_tell f c : (∀ r, serial Free (c r)) → serial Free (PRep f c)
  | serial_lock k p : serial (Locked k) p → serial Free (PLock (lock_of k) p)
  | serial_get k c : (∀ r, serial (Got k) (c r)) → serial (Locked k) (PGet k c)
  | serial_put k v c : (∀ ok, serial (Held k) (c ok)) → serial (Got k) (PPut k v c)
  | serial_keep k p : serial (Held k) p → serial (Got k) p
  | serial_tell_held k f c : (∀ r, serial (Held k) (c r)) → serial (Held k) (PRep f c)
  | serial_unlock k p : serial Free p → serial (Held k) (PUnlock (lock_of k) p).

Lemma serial_bind {A B} st (p : proc A) (f : A → proc B) :
  serial st p → (∀ a, serial Free (f a)) → serial st (p ≫= f).
Proof.
  intros Hp Hf. induction Hp as [r| | | | | | |]; [|by constructor; auto..].
  destruct r; [apply Hf|apply serial_end..].
Qed.

(** The body of a guard, with the release at its end. *)
Definition rest_of {A} (st : stage) (k : bytes) (p : proc A) : Prop := serial st (finally (lock_of k) p).

Lemma rest_end {A} k (r : res A) : rest_of (Held k) k (PEnd r).
Proof. apply serial_unlock, serial_end. Qed.
Lemma rest_ret {A} k (a : A) : rest_of (Held k) k (mret a).
Proof. apply rest_end. Qed.
Lemma rest_keep {A} k (p : proc A) : rest_of (Held k) k p → rest_of (Got k) k p.
Proof. apply serial_keep. Qed.
Lemma rest_lift {A B} k (r : res A) (f : A → proc B) :
  (∀ a, rest_of (Got k) k (f a)) → rest_of (Got k) k (p_lift r ≫= f).
Proof. intros Hf. destruct r; [apply Hf|apply rest_keep, rest_end..]. Qed.
Lemma rest_put {A} k v (f : bool → proc A) :
  (∀ ok, rest_of (Held k) k (f ok)) → rest_of (Got k) k (p_put k v ≫= f).
Proof. intros Hf. by apply serial_put. Qed.
Lemma rest_tell {A} k g (f : unit → proc A) :
  (∀ u, rest_of (Held k) k (f u)) → rest_of (Held k) k (p_rep g ≫= f).
Proof. intros Hf. apply serial_tell_held. intros [[]| | |]; [apply Hf|apply rest_end..]. Qed.

Lemma serial_item {A} k (f : option bytes → proc A) :
  (∀ r, rest_of (Got k) k (f r)) → serial Free (guarded (lock_of k) (p_get k ≫= f)).
Proof. intros Hf. by apply serial_lock, serial_get. Qed.
End serial.

Create HintDb serial.
#[export] Hint Resolve rest_ret rest_lift rest_put rest_tell serial_item serial_end : serial.
#[export] Hint Resolve rest_keep | 5 : serial.

(** The handlers that lock. *)
Definition locked_update (u : update) : Prop :=
  match u with u_set _ | u_set_range _ | u_del _ => False | _ => True end.

#[export] Instance locked_update_dec u : Decision (locked_update u).
Proof. destruct u; apply _. Defined.

Section locked.
Context `{HashOrder} `{StringHash}.

Lemma serial_told {A} f (a : A) : serial Free (p_rep f;; mret a).
Proof. apply serial_tell. intros [[]| | |]; apply serial_end. Qed.

Lemma serial_add_loop cmd repl result : serial Free (p_add_loop cmd repl result).
Proof.
  revert repl result. induction cmd as [|[k v] cmd IH]; intros repl result; [apply serial_end|].
  cbn [p_add_loop]. apply serial_bind; [|by intros [? ?]]. apply serial_item. intros [r|]; auto with serial.
Qed.

Lemma serial_inc_loop cmd result : serial Free (p_inc_loop cmd result).
Proof.
  revert result. induction cmd as [|[k n] cmd IH]; intros result; [apply serial_end|].
  cbn [p_inc_loop]. apply serial_bind; [|done]. apply serial_item. intros [r|]; [|auto with serial].
  apply rest_lift. intros [val ?]. auto 10 with serial.
Qed.

Lemma serial_inc_add_loop cmd def result : serial Free (p_inc_add_loop cmd def result).
Proof.
  revert result. induction cmd as [|[k n] cmd IH]; intros result; [apply serial_end|].
  cbn [p_inc_add_loop]. apply serial_bind; [|done]. apply serial_item. auto 10 with serial.
Qed.

Lemma serial_update u : locked_update u → serial Free (update_proc u).
Proof.
  destruct u as [cmd|cmd|cmd|cmd|cmd|cmd|cmd]; intros []; (apply serial_bind; [|intros ?; apply serial_end]).
  - apply serial_bind; [apply serial_add_loop|]. intros [? ?]. apply serial_told.
  - apply serial_bind; [apply serial_inc_loop|]. intros ?. apply serial_told.
  - apply serial_bind; [apply serial_inc_add_loop|]. intros ?. apply serial_told.
  - apply serial_item. intros r. do 3 (apply rest_lift; intros ?). apply rest_put. intros []; auto with serial.
Qed.
End locked.

(** ** Who holds which lock *)

Record owned (ls : list spinlock) (os : list (option nat)) : Prop := {
  owned_length : length ls = 1024%nat;
  owned_taken i l : ls !! i = Some l → value l = true ↔ ∃ j, os !! j = Some (Some i);
  owned_once j j' i : os !! j = Some (Some i) → os !! j' = Some (Some i) → j = j';
}.

Lemma owned_nobody n : owned (replicate 1024 new_spinlock) (replicate n None).
Proof.
  split.
  - apply length_replicate.
  - intros i l [-> _]%lookup_replicate. split; [done|]. intros (j & [[=] _]%lookup_replicate).
  - by intros j j' i [[=] _]%lookup_replicate.
Qed.

Lemma owned_same ls os j o : owned ls os → os !! j = Some o → owned ls (<[j := o]> os).
Proof. intros Ho Hj. by rewrite list_insert_id. Qed.

Lemma owned_take ls os i j l :
  owned ls os → ls !! i = Some l → value l = false → os !! j = Some None →
  owned (<[i := Spinlock true]> ls) (<[j := Some i]> os).
Proof.
  intros [Hlen Ht Ho] Hi Hl Hj. pose proof (lookup_lt_Some _ _ _ Hj) as Hjl.
  assert (∀ j', os !! j' ≠ Some (Some i)) as Hno.
  { intros j' Hj'. assert (value l = true) by (apply (Ht i l Hi); eauto). congruence. }
  split; [by rewrite length_insert| |].
  - intros i' l' Hi'. destruct (decide (i' = i)) as [->|Hne].
    + rewrite list_lookup_insert_eq in Hi' by (by eapply lookup_lt_Some). injection Hi' as <-.
      split; [|done]. intros _. exists j. by rewrite list_lookup_insert_eq.
    + rewrite list_lookup_insert_ne in Hi' by done. rewrite (Ht i' l' Hi'). split; intros [j' Hj'].
      * exists j'. rewrite list_lookup_insert_ne; [done|]. intros ->. congruence.
      * destruct (decide (j' = j)) as [->|Hne']; [rewrite list_lookup_insert_eq in Hj'; congruence|].
        rewrite list_lookup_insert_ne in Hj'; [eauto|done].
  - intros j1 j2 i'. destruct (decide (j1 = j)) as [->|], (decide (j2 = j)) as [->|]; [done|..];
      rewrite ?list_lookup_insert_eq, ?list_lookup_insert_ne by done.
    + intros [= <-] H2. by apply Hno in H2.
    + intros H1 [= <-]. by apply Hno in H1.
    + apply Ho.
Qed.

Lemma owned_give ls os i j :
  owned ls os → os !! j = Some (Some i) → owned (<[i := Spinlock false]> ls) (<[j := None]> os).
Proof.
  intros [Hlen Ht Ho] Hj. pose proof (lookup_lt_Some _ _ _ Hj) as Hjl. split; [by rewrite length_insert| |].
  - intros i' l' Hi'. destruct (decide (i' = i)) as [->|Hne].
    + assert (l' = Spinlock false) as ->.
      { rewrite list_lookup_insert in Hi'. case_decide; [by injection Hi' as <-|].
        apply lookup_lt_Some in Hi'. lia. }
      split; [done|]. intros [j' Hj']. exfalso. destruct (decide (j' = j)) as [->|Hne].
      * by rewrite list_lookup_insert_eq in Hj'.
      * rewrite list_lookup_insert_ne in Hj' by done. by apply Hne, (Ho j' j i).
    + rewrite list_lookup_insert_ne in Hi' by done. rewrite (Ht i' l' Hi'). split; intros [j' Hj'].
      * exists j'. rewrite list_lookup_insert_ne; [done|]. intros ->. congruence.
      * destruct (decide (j' = j)) as [->|Hne']; [by rewrite list_lookup_insert_eq in Hj'|].
        rewrite list_lookup_insert_ne in Hj'; [eauto|done].
  - intros j1 j2 i'. destruct (decide (j1 = j)) as [->|], (decide (j2 = j)) as [->|]; [done|..];
      rewrite ?list_lookup_insert_eq, ?list_lookup_insert_ne by done; try done. apply Ho.
Qed.

Lemma owned_free ls os : owned ls os → Forall (eq None) os → ls = replicate 1024 new_spinlock.
Proof.
  intros [Hlen Ht _] Hos. symmetry. apply replicate_as_Forall. split; [done|]. apply Forall_lookup. intros i [[]] Hi; [|done].
  destruct (proj1 (Ht i _ Hi) eq_refl) as [j Hj]. by apply (Forall_lookup_1 _ _ _ _ Hos) in Hj.
Qed.

Lemma owned_lookup ls os i : owned ls os → (i < 1024)%nat → ∃ l, ls !! i = Some l.
Proof. intros Ho Hi. apply lookup_lt_is_Some. by rewrite (owned_length _ _ Ho). Qed.

(** ** No thread waits for ever *)

Section finish.
Context {D : Type} `{LevelDB D} `{HashOrder} `{StringHash}.

(** A procedure that holds at most one lock, and takes none while it does. *)
Inductive locking {A} : option nat → proc A → Prop :=
  | locking_end r : locking None (PEnd r)
  | locking_lock i p : (i < 1024)%nat → locking (Some i) p → locking None (PLock i p)
  | locking_unlock i p : (i < 1024)%nat → locking None p → locking (Some i) (PUnlock i p)
  | locking_get o k c : (∀ r, locking o (c r)) → locking o (PGet k c)
  | locking_put o k v c : (∀ ok, locking o (c ok)) → locking o (PPut k v c)
  | locking_delete o k c : (∀ ok, locking o (c ok)) → locking o (PDelete k c)
  | locking_tell o f c : (∀ r, locking o (c r)) → locking o (PRep f c).

Lemma locking_bind {A B} o (p : proc A) (f : A → proc B) :
  locking o p → (∀ a, locking None (f a)) → locking o (p ≫= f).
Proof.
  intros Hp Hf. induction Hp as [r| | | | | |]; [|by constructor; auto..].
  destruct r; [apply Hf|apply locking_end..].
Qed.

Definition holds (st : stage) : option nat :=
  match st with Free => None | Locked k | Got k | Held k => Some (lock_of k) end.

Lemma serial_locking {A} st (p : proc A) : serial st p → locking (holds st) p.
Proof.
  induction 1; cbn in *; try done; by constructor; auto using lock_of_lt.
Qed.

Lemma locking_put_loop cmd b : locking None (p_put_loop cmd b).
Proof.
  revert b. induction cmd as [|[k v] cmd IH]; intros b; [apply locking_end|]. constructor. intros ok. apply IH.
Qed.

Lemma locking_told {A} f (a : A) : locking None (p_rep f;; mret a).
Proof. apply (locking_bind None (p_rep _)); intros; constructor; intros; constructor. Qed.

Lemma locking_update u : locking None (update_proc u).
Proof.
  destruct (decide (locked_update u)) as [Hu|Hu]; [by apply (serial_locking Free), serial_update|].
  destruct u as [cmd|cmd|cmd|cmd|cmd|cmd|cmd]; try by destruct Hu.
  all: apply locking_bind; [|intros ?; apply locking_end].
  - apply locking_bind; [apply locking_put_loop|intros ?; apply locking_told].
  - destruct cmd as [|kv cmd]; [apply locking_end|].
    apply locking_bind; [apply locking_put_loop|intros ?; apply locking_told].
  - apply locking_bind; [|intros ?; apply locking_told].
    clear Hu. generalize ([] : valmap2bool). induction cmd as [|k cmd IH]; intros b; [apply locking_end|].
    constructor. intros ok. apply IH.
Qed.

Definition threads_ok {A} (x : shared (D := D) * list (proc A)) : Prop :=
  ∃ os, owned (locks x.1) os ∧ Forall2 locking os x.2.

(** A step after which the thread has less to do: the others are rounds of
    the loop of [spinlock::lock]. *)
Definition spins {A} (p : proc A) (s : shared (D := D)) : bool :=
  match p with
  | PLock i _ => match locks s !! i with Some l => value l | None => false end
  | _ => false
  end.

Inductive busy_step {A} : shared (D := D) * list (proc A) → shared (D := D) * list (proc A) → Prop :=
  | busy_step_intro s ps i p p' s' :
      ps !! i = Some p → proc_step p s = Some (p', s') → spins p s = false → busy_step (s, ps) (s', <[i := p']> ps).

Lemma busy_is_step {A} (x y : _ * list (proc A)) : busy_step x y → thread_step x y.
Proof. destruct 1. by eapply thread_step_intro. Qed.

(** One step of one thread, with what it does to the locks. *)
Lemma locking_step {A} o (p p' : proc A) (s s' : shared (D := D)) os j :
  owned (locks s) os → os !! j = Some o → locking o p → proc_step p s = Some (p', s') →
  ∃ o', owned (locks s') (<[j := o']> os) ∧ locking o' p'.
Proof.
  intros Ho Hj Hp. destruct Hp as [r|i p Hi Hp|i p Hi Hp|o k c Hp|o k v c Hp|o k c Hp|o f c Hp]; cbn -[spin].
  - done.
  - destruct (locks s !! i) as [l|] eqn:Hl; [|done]. destruct (value l) eqn:Hv.
    + rewrite spin_taken by done. intros [= <- <-]. exists None. cbn. rewrite list_insert_id by done.
      split; [by apply owned_same|by constructor].
    + rewrite spin_free by done. intros [= <- <-]. exists (Some i). split; [by eapply owned_take|done].
  - destruct (locks s !! i) as [l|] eqn:Hl; [|done]. intros [= <- <-]. exists None. split; [by eapply owned_give|done].
  - intros [= <- <-]. exists o. split; [by apply owned_same|done].
  - destruct (Put _ _ _) as [ok d]. intros [= <- <-]. exists o. split; [by apply owned_same|done].
  - destruct (Delete _ _) as [ok d]. intros [= <- <-]. exists o. split; [by apply owned_same|done].
  - destruct (f _); intros [= <- <-]; exists o; (split; [by apply owned_same|done]).
Qed.

Lemma threads_ok_step {A} (x y : _ * list (proc A)) : threads_ok x → thread_step x y → threads_ok y.
Proof.
  intros (os & Ho & Hps) Hxy. destruct Hxy as [s ps i p p' s' Hi Hstep]. cbn [fst snd] in *.
  destruct (Forall2_lookup_r _ _ _ _ _ Hps Hi) as (o & Hoi & Hp).
  destruct (locking_step o p p' s s' os i Ho Hoi Hp Hstep) as (o' & Ho' & Hp').
  exists (<[i := o']> os). split; [done|]. by apply Forall2_insert.
Qed.

(** The thread that holds a lock can go on; when nobody does, everyone can. *)
Lemma locking_goes_on {A} o (p : proc A) (s : shared (D := D)) os j :
  owned (locks s) os → os !! j = Some o → locking o p → (o = None → Forall (eq None) os) →
  (∃ r, p = PEnd r) ∨ ∃ p' s', proc_step p s = Some (p', s') ∧ spins p s = false.
Proof.
  intros Ho Hj Hp Hnone. destruct Hp as [r|i p Hi Hp|i p Hi Hp|o k c Hp|o k v c Hp|o k c Hp|o f c Hp]; cbn -[spin].
  - left. eauto.
  - right. pose proof (owned_free _ _ Ho (Hnone eq_refl)) as Hfree.
    assert (locks s !! i = Some new_spinlock) as Hl by (rewrite Hfree; by apply lookup_replicate_2).
    rewrite Hl. cbn. eauto.
  - right. destruct (owned_lookup _ _ i Ho Hi) as [l Hl]. rewrite Hl. eauto.
  - right. eauto.
  - right. destruct (Put _ _ _). eauto.
  - right. destruct (Delete _ _). eauto.
  - right. destruct (f _); eauto.
Qed.

Definition ended {A} (p : proc A) : Prop := ∃ r, p = PEnd r.

Lemma threads_go_on {A} (x : _ * list (proc A)) : threads_ok x → Forall ended x.2 ∨ ∃ y, busy_step x y.
Proof.
  destruct x as [s ps]. intros (os & Ho & Hps). cbn [fst snd] in *.
  destruct (decide (Forall (eq None) os)) as [Hnone|Hsome].
  - assert (∀ j p, ps !! j = Some p → ended p ∨ ∃ y, busy_step (s, ps) y) as Hall.
    { intros j p Hj. destruct (Forall2_lookup_r _ _ _ _ _ Hps Hj) as (o & Hoj & Hp).
      destruct (locking_goes_on o p s os j Ho Hoj Hp (λ _, Hnone)) as [|(p' & s' & Hstep & Hb)]; [by left|right].
      eexists. by eapply busy_step_intro. }
    clear Hps. assert (∀ l : list (proc A), (∀ p, p ∈ l → ended p ∨ ∃ y, busy_step (s, ps) y) → Forall ended l ∨ ∃ y, busy_step (s, ps) y) as Hl.
    { induction l as [|p l IH]; intros Hl; [by left|]. destruct (Hl p) as [Hp|]; [left| |by right].
      destruct IH as [|]; [intros; apply Hl; by right|left; by constructor|by right]. }
    apply Hl. intros p [j Hj]%list_elem_of_lookup. by eapply Hall.
  - right. apply not_Forall_Exists in Hsome; [|apply _]. apply Exists_exists in Hsome as (o & Hin & Hne).
    apply list_elem_of_lookup in Hin as [j Hoj]. destruct (Forall2_lookup_l _ _ _ _ _ Hps Hoj) as (p & Hj & Hp).
    destruct (locking_goes_on o p s os j Ho Hoj Hp) as [[r ->]|(p' & s' & Hstep & Hb)]; [by intros ->| |].
    + inversion Hp; subst. done.
    + eexists. by eapply busy_step_intro.
Qed.

(** A busy step leaves a part of the procedure. *)
Inductive part_of {A} : proc A → proc A → Prop :=
  | part_lock i p : part_of p (PLock i p)
  | part_unlock i p : part_of p (PUnlock i p)
  | part_get k c r : part_of (c r) (PGet k c)
  | part_put k v c ok : part_of (c ok) (PPut k v c)
  | part_delete k c ok : part_of (c ok) (PDelete k c)
  | part_tell f c r : part_of (c r) (PRep f c).

Lemma part_of_wf {A} : well_founded (part_of (A := A)).
Proof. intros p. induction p; constructor; intros p' Hp'; inversion Hp'; subst; auto. Qed.

Definition part_of_list {A} (ps' ps : list (proc A)) : Prop :=
  ∃ i p p', ps !! i = Some p ∧ part_of p' p ∧ ps' = <[i := p']> ps.

Lemma part_of_list_wf {A} : well_founded (part_of_list (A := A)).
Proof.
  intros ps. induction ps as [|p ps Hps].
  { constructor. intros ps' (i & p & p' & Hi & _). done. }
  revert ps Hps. induction (part_of_wf p) as [p _ IHp]. intros ps Hps. induction Hps as [ps Hps IHps].
  constructor. intros ps' ([|i] & q & q' & Hi & Hq & ->); cbn in *.
  - injection Hi as <-. apply IHp; [done|]. by constructor.
  - apply IHps. exists i, q, q'. by split_and!.
Qed.

Lemma busy_part {A} (x y : _ * list (proc A)) : busy_step x y → part_of_list y.2 x.2.
Proof.
  destruct 1 as [s ps i p p' s' Hi Hp Hb]. exists i, p, p'. split_and!; [done| |done].
  destruct p as [r|j p|j p|k c|k v c|k c|f c]; cbn -[spin] in *.
  - done.
  - destruct (locks s !! j) as [l|]; [|done]. rewrite (spin_free l Hb) in Hp. injection Hp as <- <-. constructor.
  - destruct (locks s !! j) as [l|]; [|done]. injection Hp as <- <-. constructor.
  - injection Hp as <- <-. constructor.
  - destruct (Put _ _ _). injection Hp as <- <-. constructor.
  - destruct (Delete _ _). injection Hp as <- <-. constructor.
  - destruct (f _); injection Hp as <- <-; constructor.
Qed.

Lemma busy_step_wf {A} : well_founded (flip (busy_step (A := A))).
Proof. eapply (wf_projected part_of_list snd); [|apply part_of_list_wf]. intros x y. apply busy_part. Qed.

Lemma threads_end {A} (x : _ * list (proc A)) : threads_ok x → ∃ y, rtc busy_step x y ∧ Forall ended y.2.
Proof.
  induction (busy_step_wf x) as [x _ IH]. intros Hx. destruct (threads_go_on x Hx) as [|[y Hy]]; [by exists x|].
  destruct (IH y Hy) as (z & Hz & Hend); [by eapply threads_ok_step, busy_is_step|].
  exists z. split; [by eapply rtc_l|done].
Qed.

Lemma start_ok (us : list update) w : threads_ok (new_shared w, update_proc <$> us).
Proof.
  exists (replicate (length us) None). split; [apply owned_nobody|]. cbn.
  induction us as [|u us IH]; [constructor|]. constructor; [apply locking_update|exact IH].
Qed.
End finish.

(** ** The handlers that lock, in one step per key

    The abstract machine: taking the lock, reading the key and storing it is
    one step. *)

Section atomic.
Context {D : Type} `{LevelDBHealthy D} `{HashOrder} `{StringHash}.
Implicit Types s : shared (D := D).

Definition atomic_step {A} (p : proc A) s : option (proc A * shared (D := D)) :=
  match p with
  | PLock i (PGet k c) =>
      match locks s !! i with
      | Some l =>
          let '(got, l') := spin l in
          let s := set_lock i l' s in
          if got : bool then
            match c (Get (w_db (sh_world s)) k) with
            | PPut k' v c' => proc_step (PPut k' v c') s
            | p' => Some (p', s)
            end
          else Some (p, s)
      | None => None
      end
  | _ => proc_step p s
  end.

Inductive atomically {A} : shared (D := D) * list (proc A) → shared (D := D) * list (proc A) → Prop :=
  | atomically_intro s ps i p p' s' :
      ps !! i = Some p → atomic_step p s = Some (p', s') → atomically (s, ps) (s', <[i := p']> ps).

(** Where a thread of the real machine stands and where its counterpart. *)
Definition counterpart {A} (w : world D) (st : stage) (p q : proc A) : Prop :=
  serial st p ∧
  match st with
  | Free | Held _ => q = p
  | Locked k => ∃ c, p = PGet k c ∧ q = PLock (lock_of k) p
  | Got k => ∃ c v c', q = PLock (lock_of k) (PGet k c) ∧ c (Get (w_db w) k) = p ∧ p = PPut k v c'
  end.

(** Only what was stored counts as held by the counterpart. *)
Definition holds_late (st : stage) : option nat :=
  match st with Held k => Some (lock_of k) | _ => None end.

Record matched {A} (x y : shared (D := D) * list (proc A)) (sts : list stage) : Prop := {
  matched_world : sh_world x.1 = sh_world y.1;
  matched_left : length x.2 = length sts;
  matched_right : length y.2 = length sts;
  matched_locks : owned (locks x.1) (holds <$> sts);
  matched_late : owned (locks y.1) (holds_late <$> sts);
  matched_threads j st p q :
    sts !! j = Some st → x.2 !! j = Some p → y.2 !! j = Some q → counterpart (sh_world x.1) st p q;
}.

Lemma spin_taken_id i l s : locks s !! i = Some l → set_lock i l s = s.
Proof. intros Hl. destruct s as [ls w]. unfold set_lock. cbn in *. by rewrite list_insert_id. Qed.

(** The other threads stay where they are when the keys they read stay. *)
Lemma counterpart_world {A} w w' st (p q : proc A) :
  (∀ k, st = Got k → Get (w_db w') k = Get (w_db w) k) → counterpart w st p q → counterpart w' st p q.
Proof.
  intros Hget [Hs Hst]. split; [done|]. destruct st; try done.
  destruct Hst as (c & v & c' & -> & Hc & Hp). exists c, v, c'. by rewrite Hget.
Qed.

Lemma Put_other d k v ok d' k' : Put d k v = (ok, d') → k' ≠ k → Get d' k' = Get d k'.
Proof.
  intros Hput Hne. rewrite !Get_total. pose proof (Put_total d k v) as Hok. rewrite Hput in Hok. cbn in Hok. subst.
  rewrite (Put_ok _ _ _ _ Hput). by rewrite lookup_insert_ne.
Qed.

Lemma matched_move {A} s t ps qs sts s' t' j st st' (p' q' : proc A) :
  matched (s, ps) (t, qs) sts → sts !! j = Some st →
  sh_world s' = sh_world t' →
  owned (locks s') (<[j := holds st']> (holds <$> sts)) →
  owned (locks t') (<[j := holds_late st']> (holds_late <$> sts)) →
  counterpart (sh_world s') st' p' q' →
  (∀ j' k, j' ≠ j → sts !! j' = Some (Got k) → Get (w_db (sh_world s')) k = Get (w_db (sh_world s)) k) →
  matched (s', <[j := p']> ps) (t', <[j := q']> qs) (<[j := st']> sts).
Proof.
  intros Hm Hj Hw Ho Hl Hc Hget. destruct Hm as [Hw0 Hps Hqs _ _ Hth]. cbn [fst snd] in *.
  pose proof (lookup_lt_Some _ _ _ Hj) as Hlt.
  split; cbn [fst snd]; rewrite ?length_insert; try done; [by rewrite list_fmap_insert..|].
  intros j' st1 p1 q1. destruct (decide (j' = j)) as [->|Hne].
  - rewrite !list_lookup_insert_eq by lia. by intros [= <-] [= <-] [= <-].
  - rewrite !list_lookup_insert_ne by done. intros Hst1 Hp1 Hq1. eapply counterpart_world; [|by eapply Hth].
    intros k ->. by eapply Hget.
Qed.

Lemma holds_is (sts : list stage) j st o : sts !! j = Some st → holds st = o → (holds <$> sts) !! j = Some o.
Proof. intros Hj <-. by rewrite list_lookup_fmap, Hj. Qed.
Lemma holds_late_is (sts : list stage) j st o :
  sts !! j = Some st → holds_late st = o → (holds_late <$> sts) !! j = Some o.
Proof. intros Hj <-. by rewrite list_lookup_fmap, Hj. Qed.

(** A thread that has the lock but has stored nothing: its counterpart finds
    the lock free. *)
Lemma late_free {A} s t (ps qs : list (proc A)) sts j st k :
  matched (s, ps) (t, qs) sts → sts !! j = Some st → holds st = Some (lock_of k) → holds_late st = None →
  ∃ l, locks t !! lock_of k = Some l ∧ value l = false.
Proof.
  intros Hm Hj Hst Hlate. destruct Hm as [_ _ _ Ho Hl _]. cbn [fst snd] in *.
  destruct (owned_lookup _ _ (lock_of k) Hl (lock_of_lt k)) as [l Hlk]. exists l. split; [done|].
  destruct (value l) eqn:Hv; [|done]. apply (owned_taken _ _ Hl _ _ Hlk) in Hv as (j' & Hj').
  rewrite list_lookup_fmap in Hj'. destruct (sts !! j') as [st'|] eqn:Hst'; [|done]. cbn in Hj'.
  injection Hj' as Hj'. destruct st' as [|k'|k'|k']; try done.
  assert (j' = j) as ->; [|congruence].
  apply (owned_once _ _ Ho j' j (lock_of k)); by eapply holds_is.
Qed.

Lemma other_key {A} s t (ps qs : list (proc A)) sts j j' k k' :
  matched (s, ps) (t, qs) sts → sts !! j = Some (Got k) → j' ≠ j → sts !! j' = Some (Got k') → k' ≠ k.
Proof.
  intros Hm Hj Hne Hj' ->. apply Hne, (owned_once _ _ (matched_locks _ _ _ Hm) j' j (lock_of k)); by eapply holds_is.
Qed.

(** A step outside of what [atomic_step] joins is made by both machines. *)
Lemma matched_same {A} s t (ps qs : list (proc A)) sts j st (p p' : proc A) s' t' :
  matched (s, ps) (t, qs) sts → sts !! j = Some st → qs !! j = Some p → atomic_step p t = Some (p', t') →
  sh_world s' = sh_world t' → locks s' = locks s → locks t' = locks t → serial st p' → (∀ k, st ≠ Locked k) → (∀ k, st ≠ Got k) →
  w_db (sh_world s') = w_db (sh_world s) →
  ∃ y', rtc atomically (t, qs) y' ∧ matched (s', <[j := p']> ps) y' (<[j := st]> sts).
Proof.
  intros Hm Hj Hq Hstep Hw Hls Hlt Hser Hn1 Hn2 Hdb. exists (t', <[j := p']> qs). split.
  { apply rtc_once. by eapply atomically_intro. }
  eapply matched_move; [done|done|done| | | |].
  - rewrite Hls. apply owned_same; [apply Hm|by eapply holds_is].
  - rewrite Hlt. apply owned_same; [apply Hm|by eapply holds_late_is].
  - split; [done|]. destruct st; [done| | |done]; exfalso; [by eapply Hn1|by eapply Hn2].
  - intros j' k _ _. by rewrite Hdb.
Qed.

(** Telling the slaves is one step of both. *)
Lemma matched_tell {A} s t (ps qs : list (proc A)) sts j st f c (p' : proc A) s' :
  matched (s, ps) (t, qs) sts → sts !! j = Some st → qs !! j = Some (PRep f c) → (∀ r, serial st (c r)) →
  (∀ k, st ≠ Locked k) → (∀ k, st ≠ Got k) → proc_step (PRep f c) s = Some (p', s') →
  ∃ y', rtc atomically (t, qs) y' ∧ matched (s', <[j := p']> ps) y' (<[j := st]> sts).
Proof.
  intros Hm Hj Hq Hc Hn1 Hn2. cbn. pose proof (matched_world _ _ _ Hm) as Hw. cbn [fst] in Hw.
  assert (∀ r, f (w_replication (sh_world s)) = r → f (w_replication (sh_world t)) = r) as Hf by (intros; by rewrite <-Hw).
  destruct (f (w_replication (sh_world s))) as [r| | |] eqn:Hr; intros [= <- <-];
    (eapply matched_same; [done..|cbn; rewrite (Hf _ eq_refl); reflexivity|cbn; by rewrite ?Hw|done|done|by apply Hc|done|done|done]).
Qed.

(** Reading the key, when nothing will be stored. *)
Lemma matched_keep {A} s t (ps qs : list (proc A)) sts j k c :
  matched (s, ps) (t, qs) sts → sts !! j = Some (Locked k) → qs !! j = Some (PLock (lock_of k) (PGet k c)) →
  serial (Held k) (c (Get (w_db (sh_world s)) k)) →
  ∃ y', rtc atomically (t, qs) y' ∧ matched (s, <[j := c (Get (w_db (sh_world s)) k)]> ps) y' (<[j := Held k]> sts).
Proof.
  intros Hm Hj Hq Hser. pose proof (matched_world _ _ _ Hm) as Hw. cbn [fst] in Hw.
  destruct (late_free s t ps qs sts j _ k Hm Hj eq_refl eq_refl) as (l & Hl & Hv).
  assert (atomic_step (PLock (lock_of k) (PGet k c)) t
          = Some (c (Get (w_db (sh_world s)) k), set_lock (lock_of k) (Spinlock true) t)) as Hstep.
  { cbn -[spin]. rewrite Hl, spin_free by done. rewrite <-Hw.
    remember (c (Get (w_db (sh_world s)) k)) as p eqn:Hp. by inversion Hser. }
  eexists. split; [apply rtc_once; by eapply atomically_intro|].
  eapply matched_move; [done|done|done| | |by split|done].
  - apply owned_same; [apply Hm|by eapply holds_is].
  - eapply owned_take; [apply Hm|done|done|by eapply holds_late_is].
Qed.

(** Storing the key: the counterpart does everything now. *)
Lemma matched_put {A} s t (ps qs : list (proc A)) sts j k c v c' ok d :
  matched (s, ps) (t, qs) sts → sts !! j = Some (Got k) → qs !! j = Some (PLock (lock_of k) (PGet k c)) →
  c (Get (w_db (sh_world s)) k) = PPut k v c' → (∀ ok, serial (Held k) (c' ok)) →
  Put (w_db (sh_world s)) k v = (ok, d) →
  ∃ y', rtc atomically (t, qs) y' ∧
        matched (set_world (set_db d (sh_world s)) s, <[j := c' ok]> ps) y' (<[j := Held k]> sts).
Proof.
  intros Hm Hj Hq Hc Hser Hput. pose proof (matched_world _ _ _ Hm) as Hw. cbn [fst] in Hw.
  destruct (late_free s t ps qs sts j _ k Hm Hj eq_refl eq_refl) as (l & Hl & Hv).
  eexists. split.
  { apply rtc_once. eapply atomically_intro; [exact Hq|]. cbn -[spin]. rewrite Hl, spin_free by done. cbn -[proc_step].
    rewrite <-Hw, Hc. cbn. rewrite Hput. reflexivity. }
  eapply matched_move; [done|done|cbn; by rewrite Hw| | |by split|].
  - apply owned_same; [apply Hm|by eapply holds_is].
  - eapply owned_take; [apply Hm|done|done|by eapply holds_late_is].
  - intros j' k' Hne Hj'. cbn. eapply Put_other; [exact Hput|]. by eapply (other_key s t ps qs sts j j' k k').
Qed.

Lemma matched_step {A} (x x' y : _ * list (proc A)) sts :
  matched x y sts → thread_step x x' → ∃ y' sts', rtc atomically y y' ∧ matched x' y' sts'.
Proof.
  destruct y as [t qs]. intros Hm Hxy. destruct Hxy as [s ps j p p' s' Hp Hstep].
  assert (∃ st, sts !! j = Some st) as [st Hj].
  { apply lookup_lt_is_Some. rewrite <-(matched_left _ _ _ Hm). by eapply lookup_lt_Some. }
  assert (∃ q, qs !! j = Some q) as [q Hq].
  { apply lookup_lt_is_Some. change qs with (t, qs).2. rewrite (matched_right _ _ _ Hm). by eapply lookup_lt_Some. }
  destruct (matched_threads _ _ _ Hm j st p q Hj Hp Hq) as [Hser Hst]. cbn [fst snd] in Hst.
  destruct Hser as [r|f c Hc|k p Hser|k c Hc|k v c Hc|k p Hser|k f c Hc|k p Hser].
  - done.
  - subst q. destruct (matched_tell s t ps qs sts j Free f c p' s') as (y' & ? & ?); eauto.
  - subst q. cbn -[spin] in Hstep. destruct (locks s !! lock_of k) as [l|] eqn:Hl; [|done].
    destruct (value l) eqn:Hv.
    + rewrite (spin_taken l Hv), (spin_taken_id _ _ _ Hl) in Hstep. injection Hstep as <- <-.
      exists (t, qs), sts. split; [done|]. by rewrite list_insert_id.
    + rewrite (spin_free l Hv) in Hstep. injection Hstep as <- <-.
      exists (t, <[j := PLock (lock_of k) p]> qs), (<[j := Locked k]> sts). rewrite (list_insert_id qs) by done. split; [done|].
      rewrite <-(list_insert_id qs j _ Hq). eapply matched_move; [done|done|by apply Hm| | | |done].
      * eapply owned_take; [apply Hm|done|done|by eapply holds_is].
      * apply owned_same; [apply Hm|by eapply holds_late_is].
      * split; [done|]. inversion Hser; subst. eauto.
  - destruct Hst as (c0 & [= <-] & ->). cbn in Hstep. injection Hstep as <- <-.
    specialize (Hc (Get (w_db (sh_world s)) k)). inversion Hc as [| | | |k0 v c' Hc' Heq1 Heq2|k0 p0 Hk| |]; subst.
    + exists (t, qs), (<[j := Got k]> sts). split; [done|]. rewrite <-(list_insert_id qs j _ Hq).
      eapply matched_move; [done|done|by apply Hm| | | |done].
      * apply owned_same; [apply Hm|by eapply holds_is].
      * apply owned_same; [apply Hm|by eapply holds_late_is].
      * split; [by apply serial_put|]. by exists c, v, c'.
    + destruct (matched_keep s t ps qs sts j k c) as (y' & ? & ?); eauto.
  - destruct Hst as (c0 & v0 & c' & -> & Hc0 & [= <- <-]). cbn in Hstep.
    destruct (Put (w_db (sh_world s)) k v) as [ok d] eqn:Hput. injection Hstep as <- <-.
    destruct (matched_put s t ps qs sts j k c0 v c ok d) as (y' & ? & ?); eauto.
  - destruct Hst as (c0 & v0 & c' & _ & _ & ->). inversion Hser.
  - subst q. destruct (matched_tell s t ps qs sts j (Held k) f c p' s') as (y' & ? & ?); eauto.
  - subst q. cbn in Hstep. destruct (locks s !! lock_of k) as [l|] eqn:Hl; [|done]. injection Hstep as <- <-.
    destruct (owned_lookup _ _ (lock_of k) (matched_late _ _ _ Hm) (lock_of_lt k)) as [l' Hl']. cbn [fst] in Hl'.
    eexists _, (<[j := Free]> sts). split.
    { apply rtc_once. eapply atomically_intro; [exact Hq|]. cbn. by rewrite Hl'. }
    eapply matched_move; [done|done|by apply Hm| | |by split|done].
    * eapply owned_give; [apply Hm|by eapply holds_is].
    * eapply owned_give; [apply Hm|by eapply holds_late_is].
Qed.

Lemma matched_steps {A} (x x' y : _ * list (proc A)) sts :
  matched x y sts → rtc thread_step x x' → ∃ y' sts', rtc atomically y y' ∧ matched x' y' sts'.
Proof.
  intros Hm Hx. revert y sts Hm. induction Hx as [x|x x1 x' Hx _ IH]; intros y sts Hm; [by exists y, sts|].
  destruct (matched_step x x1 y sts Hm Hx) as (y1 & sts1 & Hy1 & Hm1).
  destruct (IH y1 sts1 Hm1) as (y2 & sts2 & Hy2 & Hm2). exists y2, sts2. split; [by etrans|done].
Qed.

Lemma matched_start {A} w (ps : list (proc A)) :
  Forall (serial Free) ps → matched (new_shared w, ps) (new_shared w, ps) (replicate (length ps) Free).
Proof.
  intros Hps. split; cbn [fst snd]; rewrite ?length_replicate; try done.
  1,2: rewrite fmap_replicate; apply owned_nobody.
  intros j st p q [-> _]%lookup_replicate Hp Hq. rewrite Hp in Hq. injection Hq as <-. split; [|done].
  by eapply (Forall_lookup_1 _ _ _ _ Hps).
Qed.

(** At the end both machines are in the same state. *)
Lemma matched_end {A} (x y : _ * list (proc A)) sts : matched x y sts → Forall ended x.2 → x = y.
Proof.
  destruct x as [s ps], y as [t qs]. intros Hm Hend. pose proof Hm as [Hw Hps Hqs Ho Hl Hth]. cbn [fst snd] in *.
  assert (∀ j st p q, sts !! j = Some st → ps !! j = Some p → qs !! j = Some q → st = Free ∧ q = p) as Hfree.
  { intros j st p q Hj Hp Hq. destruct (Hth j st p q Hj Hp Hq) as [Hser Hst].
    destruct (Forall_lookup_1 _ _ _ _ Hend Hp) as [r ->]. destruct st as [|k|k|k]; [done|..].
    - by destruct Hst as (c & [=] & _).
    - by destruct Hst as (c & v & c' & _ & _ & [=]).
    - inversion Hser. }
  assert (ps = qs) as ->.
  { apply list_eq. intros j. destruct (ps !! j) as [p|] eqn:Hp, (qs !! j) as [q|] eqn:Hq; [| | |done].
    - destruct (lookup_lt_is_Some_2 sts j) as [st Hj]; [rewrite <-Hps; by eapply lookup_lt_Some|].
      by destruct (Hfree j st p q Hj Hp Hq) as [_ ->].
    - exfalso. apply lookup_lt_Some in Hp. apply lookup_ge_None in Hq. lia.
    - exfalso. apply lookup_lt_Some in Hq. apply lookup_ge_None in Hp. lia. }
  assert (∀ f : stage → option nat, f Free = None → Forall (eq None) (f <$> sts)) as Hnone.
  { intros f Hf. apply Forall_fmap, Forall_lookup. intros j st Hj. cbn.
    destruct (lookup_lt_is_Some_2 qs j) as [q Hq]; [rewrite Hqs; by eapply lookup_lt_Some|].
    by destruct (Hfree j st q q Hj Hq Hq) as [-> _]. }
  pose proof (owned_free _ _ Ho (Hnone holds eq_refl)) as Hf1.
  pose proof (owned_free _ _ Hl (Hnone holds_late eq_refl)) as Hf2.
  destruct s, t. cbn in *. by subst.
Qed.
End atomic.

(** ** Counters *)

Fixpoint sum_of {A} (f : A → Z) (l : list A) : Z :=
  match l with [] => 0 | x :: l => f x + sum_of f l end.

Lemma sum_of_insert {A} (f : A → Z) l i x y :
  l !! i = Some x → sum_of f (<[i := y]> l) = sum_of f l - f x + f y.
Proof.
  revert i. induction l as [|z l IH]; intros [|i]; simpl; [done|done| |].
  - intros [= ->]. lia.
  - intros Hi. rewrite (IH i Hi). lia.
Qed.

(** What a request adds to a key, and how far it can move it. *)
Definition total (k : bytes) (cmd : valmap2int) : Z := sum_of (λ kn, if decide (kn.1 = k) then kn.2 else 0) cmd.
Definition weight (k : bytes) (cmd : valmap2int) : Z :=
  sum_of (λ kn, if decide (kn.1 = k) then Z.abs kn.2 else 0) cmd.

Lemma sum_of_pos {A} (f : A → Z) l : (∀ x, 0 <= f x) → 0 <= sum_of f l.
Proof. intros Hf. induction l as [|x l IH]; cbn; [done|]. specialize (Hf x). lia. Qed.
Lemma sum_of_part {A} (f : A → Z) l i x : (∀ x, 0 <= f x) → l !! i = Some x → f x <= sum_of f l.
Proof.
  intros Hf. revert i. induction l as [|z l IH]; intros [|i]; cbn; [done|done| |].
  - intros [= ->]. pose proof (sum_of_pos f l Hf). lia.
  - intros Hi. specialize (IH i Hi). specialize (Hf z). lia.
Qed.

Lemma weight_pos k cmd : 0 <= weight k cmd.
Proof. apply sum_of_pos. intros x. case_decide; lia. Qed.

Section counters.
Context {D : Type} `{LevelDBHealthy D} `{HashOrder} `{StringHash}.
Implicit Types s : shared (D := D).

(** Where the thread of an [inc] stands in the abstract machine. *)
Inductive phase :=
  | Counting (cmd : valmap2int) (result : valmap2raw)
  | Releasing (i : nat) (cmd : valmap2int) (result : valmap2raw)
  | Done (r : res unit).

Definition inc_from (cmd : valmap2int) (result : valmap2raw) : proc unit :=
  (result ← p_inc_loop cmd result; p_rep (rep_set result);; mret (true, result));; mret tt.

Definition inc_thread (ph : phase) : proc unit :=
  match ph with
  | Counting cmd result => inc_from cmd result
  | Releasing i cmd result => PUnlock i (inc_from cmd result)
  | Done r => PEnd r
  end.

Definition left_of (ph : phase) : valmap2int :=
  match ph with Counting cmd _ | Releasing _ cmd _ => cmd | Done _ => [] end.

(** A key that is missing, or holds a number that [m] cannot make overflow. *)
Definition counter (m : Z) (v : option bytes) : Prop :=
  match v with
  | None => True
  | Some t => ∃ z, write_number z = Ok t ∧ Z.abs z + m <= int_max longlong_t
  end.

Lemma counter_roundtrip z : Z.abs z <= int_max longlong_t → roundtrip_int longlong_t z.
Proof.
  intros Hz. split; [apply in_range_spec|intros _ _]; change (int_min longlong_t) with (-9223372036854775808);
    change (int_max longlong_t) with 9223372036854775807 in *; lia.
Qed.

(** One step: nothing counted, or the next pair. *)
Lemma inc_thread_step ph s p' s' :
  (∀ k n, head (left_of ph) = Some (k, n) → counter (Z.abs n) (w_contents (sh_world s) !! k)) →
  atomic_step (inc_thread ph) s = Some (p', s') →
  ∃ ph', p' = inc_thread ph' ∧
    (left_of ph' = left_of ph ∧ w_contents (sh_world s') = w_contents (sh_world s) ∨
     ∃ k n, left_of ph = (k, n) :: left_of ph' ∧
       match w_contents (sh_world s) !! k with
       | None => w_contents (sh_world s') = w_contents (sh_world s)
       | Some t => ∃ z t', Z.abs z <= int_max longlong_t ∧ write_number z = Ok t ∧ write_number (z + n) = Ok t' ∧
                     w_contents (sh_world s') = <[k := t']> (w_contents (sh_world s))
       end).
Proof.
  intros Hc. destruct ph as [[|[k n] cmd] result|i cmd result|r]; cbn [left_of head inc_thread] in *.
  - cbn. destruct (rep_set _ _) as [r'|x| |]; intros [= <- <-].
    1: exists (Done (Ok tt)). 2: exists (Done (Throw x)). 3: exists (Done Undef). 4: exists (Done NoFuel).
    all: split; [done|by left].
  - specialize (Hc k n eq_refl). cbn -[spin proc_step]. destruct (locks s !! lock_of k) as [l|] eqn:Hl; [|done].
    destruct (value l) eqn:Hv; [rewrite (spin_taken l Hv)|rewrite (spin_free l Hv)].
    { intros [= <- <-]. exists (Counting ((k, n) :: cmd) result). split; [done|by left]. }
    rewrite Get_total. change (contents (w_db (sh_world s))) with (w_contents (sh_world s)).
    destruct (w_contents (sh_world s) !! k) as [t|] eqn:Hk; cbn [counter] in Hc.
    + destruct Hc as (z & Hz & Hb). assert (Z.abs z <= int_max longlong_t) as Hzb by lia.
      destruct (number_text z (counter_roundtrip z Hzb)) as (t0 & Ht0 & Hread). rewrite Hz in Ht0. injection Ht0 as <-.
      assert (roundtrip_int longlong_t (z + n)) as Hrt by (apply counter_roundtrip; lia).
      destruct (number_text (z + n) Hrt) as (t' & Ht' & _).
      cbn -[write_number read_number int_op Put Z.add]. rewrite Hread. cbn -[write_number int_op Put Z.add].
      rewrite (proj1 Hrt). cbn -[write_number Put Z.add]. rewrite Ht'. cbn -[Put].
      destruct (Put_healthy (w_db (sh_world s)) k t') as (d' & Hput & Hd'). rewrite Hput. intros [= <- <-].
      exists (Releasing (lock_of k) cmd (push_pair result k t')). split; [done|right]. exists k, n. split; [done|].
      rewrite Hk. exists z, t'. split; [exact Hzb|done].
    + cbn. intros [= <- <-]. exists (Releasing (lock_of k) cmd result). split; [done|right].
      exists k, n. by rewrite Hk.
  - cbn. destruct (locks s !! i) as [l|]; [|done]. intros [= <- <-]. exists (Counting cmd result). split; [done|by left].
  - done.
Qed.

Lemma number_inj z z' t :
  Z.abs z <= int_max longlong_t → Z.abs z' <= int_max longlong_t → write_number z = Ok t → write_number z' = Ok t → z = z'.
Proof.
  intros Hz Hz' Ht Ht'.
  destruct (number_text z (counter_roundtrip z Hz)) as (t1 & E1 & R1).
  destruct (number_text z' (counter_roundtrip z' Hz')) as (t2 & E2 & R2). congruence.
Qed.

(** The counter [k] in the middle of a run: what is stored and what the
    threads have left make the sum; nothing that is left can overflow. *)
Definition counted (k : bytes) (old now : option bytes) (sum : Z) (phs : list phase) : Prop :=
  match old with
  | None => now = None
  | Some t0 => ∃ z0 z t, Z.abs z0 <= int_max longlong_t ∧ write_number z0 = Ok t0 ∧ now = Some t ∧ write_number z = Ok t ∧
                 z + sum_of (λ ph, total k (left_of ph)) phs = z0 + sum ∧
                 Z.abs z + sum_of (λ ph, weight k (left_of ph)) phs <= int_max longlong_t
  end.

Lemma counted_weight k old now sum phs j ph n cmd :
  counted k old now sum phs → phs !! j = Some ph → left_of ph = (k, n) :: cmd → counter (Z.abs n) now.
Proof.
  intros Hk Hj Hph. destruct old as [t0|]; cbn [counted] in Hk; [|by subst]. destruct Hk as (z0 & z & t & _ & _ & -> & Hz & _ & Hb).
  exists z. split; [done|].
  pose proof (sum_of_part (λ ph, weight k (left_of ph)) phs j ph (λ ph, weight_pos k (left_of ph)) Hj) as Hw.
  cbn beta in Hw. rewrite Hph in Hw. unfold weight in Hw at 1. cbn [sum_of fst snd] in Hw. rewrite decide_True in Hw by done.
  pose proof (weight_pos k cmd) as Hp. unfold weight in Hp. lia.
Qed.

Lemma counted_same k old now sum phs j ph ph' :
  counted k old now sum phs → phs !! j = Some ph → left_of ph' = left_of ph →
  counted k old now sum (<[j := ph']> phs).
Proof.
  intros Hk Hj Hph. destruct old as [t0|]; [|done]. destruct Hk as (z0 & z & t & ? & ? & ? & ? & Hs & Hb).
  exists z0, z, t. rewrite !(sum_of_insert _ phs j ph ph' Hj), Hph. split_and!; [done..|lia|lia].
Qed.

(** The pair [(k', n)] of one thread is done. *)
Lemma counted_next k k' n old now now' sum phs j ph ph' :
  counted k old now sum phs → phs !! j = Some ph → left_of ph = (k', n) :: left_of ph' →
  (k = k' → match now with
            | None => now' = None
            | Some t => ∃ z t', Z.abs z <= int_max longlong_t ∧ write_number z = Ok t ∧
                          write_number (z + n) = Ok t' ∧ now' = Some t'
            end) →
  (k ≠ k' → now' = now) →
  counted k old now' sum (<[j := ph']> phs).
Proof.
  intros Hk Hj Hph Heq Hne. destruct old as [t0|]; cbn [counted] in *.
  2:{ subst now. destruct (decide (k = k')) as [E|E]; [by apply Heq|by apply Hne]. }
  destruct Hk as (z0 & z & t & Hzb & Hz0 & -> & Hz & Hs & Hb).
  pose proof (sum_of_pos (λ ph, weight k (left_of ph)) phs (λ ph, weight_pos k (left_of ph))) as Hpos.
  assert (total k (left_of ph) = (if decide (k' = k) then n else 0) + total k (left_of ph')) as Ht by (by rewrite Hph).
  assert (weight k (left_of ph) = (if decide (k' = k) then Z.abs n else 0) + weight k (left_of ph')) as Hw by (by rewrite Hph).
  destruct (decide (k = k')) as [<-|E].
  - rewrite decide_True in Ht, Hw by done. destruct (Heq eq_refl) as (z1 & t' & Hz1 & Hw1 & Hw2 & ->).
    assert (z1 = z) as -> by (apply (number_inj z1 z t); [lia|lia|done|done]).
    exists z0, (z + n), t'. rewrite !(sum_of_insert _ phs j ph ph' Hj). split_and!; [done..|lia|lia].
  - rewrite decide_False in Ht, Hw by congruence. rewrite (Hne E).
    exists z0, z, t. rewrite !(sum_of_insert _ phs j ph ph' Hj). split_and!; [done..|lia|lia].
Qed.

Definition counting (cmds : list valmap2int) (m : gmap bytes bytes) (x : shared (D := D) * list (proc unit)) : Prop :=
  ∃ phs, x.2 = inc_thread <$> phs ∧
    Forall (λ ph, Forall (λ kn, counter (sum_of (weight kn.1) cmds) (m !! kn.1)) (left_of ph)) phs ∧
    ∀ k, counter (sum_of (weight k) cmds) (m !! k) →
         counted k (m !! k) (w_contents (sh_world x.1) !! k) (sum_of (total k) cmds) phs.

Lemma counting_step cmds m x y : counting cmds m x → atomically x y → counting cmds m y.
Proof.
  intros (phs & Hps & Hleft & Hk) Hxy. destruct Hxy as [s ps j p p' s' Hj Hstep]. cbn [fst snd] in *. subst ps.
  apply list_lookup_fmap_Some in Hj as (ph & -> & Hj).
  pose proof (Forall_lookup_1 _ _ _ _ Hleft Hj) as Hkeys. cbn beta in Hkeys.
  destruct (inc_thread_step ph s p' s') as (ph' & -> & Hcase); [|done|].
  { intros k n Hhd. destruct (left_of ph) as [|kn cmd] eqn:Hph; [done|]. injection Hhd as ->.
    apply Forall_cons in Hkeys as [Hkn _]. by eapply counted_weight; [apply Hk|..]. }
  exists (<[j := ph']> phs). split; [by rewrite list_fmap_insert|]. cbn [fst].
  destruct Hcase as [[Hsame Hc]|(k & n & Hph & Hc)].
  - split; [apply Forall_insert; [done|by rewrite Hsame]|]. intros k0 Hk0. rewrite Hc.
    by eapply counted_same; [apply Hk|..].
  - split; [apply Forall_insert; [done|]; rewrite Hph in Hkeys; by apply Forall_cons in Hkeys as [_ ?]|].
    intros k0 Hk0. eapply counted_next; [by apply Hk|done|exact Hph| |].
    + intros <-. destruct (w_contents (sh_world s) !! k0) as [t|] eqn:E.
      * destruct Hc as (z & t' & ? & ? & ? & ->). exists z, t'. by rewrite lookup_insert_eq.
      * by rewrite Hc.
    + intros Hne. destruct (w_contents (sh_world s) !! k) as [t|] eqn:E.
      * destruct Hc as (z & t' & ? & ? & ? & ->). by rewrite lookup_insert_ne.
      * by rewrite Hc.
Qed.

Lemma sum_of_fmap {A B} (g : A → B) (f : B → Z) l : sum_of f (g <$> l) = sum_of (λ x, f (g x)) l.
Proof. induction l as [|x l IH]; [done|]. cbn. by rewrite IH. Qed.

Lemma counting_start cmds w :
  (∀ cmd kn, cmd ∈ cmds → kn ∈ cmd → counter (sum_of (weight kn.1) cmds) (w_contents w !! kn.1)) →
  counting cmds (w_contents w) (new_shared w, update_proc ∘ u_inc <$> cmds).
Proof.
  intros Hkeys. exists ((λ cmd, Counting cmd []) <$> cmds). split_and!.
  - rewrite <-list_fmap_compose. reflexivity.
  - apply Forall_fmap, Forall_forall. intros cmd Hin. apply Forall_forall. intros kn Hkn. by apply Hkeys with cmd.
  - intros k Hk. cbn. destruct (w_contents w !! k) as [t|]; [|done]. destruct Hk as (z & Hz & Hb).
    exists z, z, t. rewrite !sum_of_fmap. cbn [left_of].
    pose proof (sum_of_pos (weight k) cmds (weight_pos k)). split_and!; [lia|done..|exact Hb].
Qed.

Lemma counting_end cmds m x k z t :
  counting cmds m x → Forall ended x.2 → m !! k = Some t → write_number z = Ok t →
  Z.abs z + sum_of (weight k) cmds <= int_max longlong_t →
  ∃ t', w_contents (sh_world x.1) !! k = Some t' ∧ write_number (z + sum_of (total k) cmds) = Ok t'.
Proof.
  intros (phs & Hps & _ & Hk) Hend Ht Hz Hb.
  assert (counter (sum_of (weight k) cmds) (m !! k)) as Hc by (rewrite Ht; by exists z).
  specialize (Hk k Hc). rewrite Ht in Hk. destruct Hk as (z0 & z' & t' & Hzb & Hz0 & Hnow & Hz' & Hs & _).
  pose proof (sum_of_pos (weight k) cmds (weight_pos k)) as Hp.
  assert (z0 = z) as -> by (apply (number_inj z0 z t); [done|lia|done|done]).
  exists t'. split; [done|].
  assert (sum_of (λ ph, total k (left_of ph)) phs = 0) as Hzero; [|rewrite <-Hz'; f_equal; lia].
  rewrite Hps in Hend. clear -Hend. induction phs as [|ph phs IH]; [done|].
  apply Forall_cons in Hend as [[r Hr] Hend]. specialize (IH Hend). cbn. rewrite IH.
  by destruct ph as [[|[k' n] cmd] result|i cmd result|r'].
Qed.
End counters.

Lemma atomically_counting {D} `{LevelDBHealthy D} `{HashOrder} `{StringHash} cmds m (x y : _ * list (proc unit)) :
  rtc (atomically (D := D)) x y → counting cmds m x → counting cmds m y.
Proof. apply rtc_keeps. intros ? ?. apply counting_step. Qed.

(** ** Properties *)

(** C9. The handlers that lock their keys are atomic, key by key.  Whatever
    the threads' turns were, when every request was handled the database, the
    queues of the slaves, the locks and the outcomes are those of a run in
    which each handler takes the lock of a key, reads the key and stores it
    in one step. *)
Theorem handlers_are_atomic {D} `{LevelDBHealthy D} `{HashOrder} `{StringHash} us (w : world D) x :
  Forall locked_update us →
  rtc thread_step (new_shared w, update_proc <$> us) x → Forall ended x.2 →
  rtc atomically (new_shared w, update_proc <$> us) x.
Proof.
  intros Hus Hx Hend.
  assert (Forall (serial Free) (update_proc <$> us)) as Hs.
  { apply Forall_fmap. eapply Forall_impl; [exact Hus|]. apply serial_update. }
  destruct (matched_steps _ _ _ _ (matched_start w _ Hs) Hx) as (y & sts & Hy & Hm).
  by rewrite (matched_end _ _ _ Hm Hend).
Qed.

(** C10. No increment is lost.  Any number of threads increment any keys, in
    any order and however their accesses interleave: a key that held a number
    holds that number and everything that was added to it, as long as the
    sums fit into [long long]. *)
Theorem increments_never_lost {D} `{LevelDBHealthy D} `{HashOrder} `{StringHash} cmds (w : world D) x k z t :
  (∀ cmd kn, cmd ∈ cmds → kn ∈ cmd → counter (sum_of (weight kn.1) cmds) (w_contents w !! kn.1)) →
  w_contents w !! k = Some t → write_number z = Ok t → Z.abs z + sum_of (weight k) cmds <= int_max longlong_t →
  rtc thread_step (new_shared w, update_proc <$> (u_inc <$> cmds)) x → Forall ended x.2 →
  ∃ t', w_contents (sh_world x.1) !! k = Some t' ∧ write_number (z + sum_of (total k) cmds) = Ok t'.
Proof.
  intros Hkeys Ht Hz Hb Hx Hend. eapply counting_end; [|done..].
  assert (Forall (serial Free) (update_proc <$> (u_inc <$> cmds))) as Hs.
  { apply Forall_fmap, Forall_fmap, Forall_true. intros cmd. by apply serial_update. }
  destruct (matched_steps _ _ _ _ (matched_start w _ Hs) Hx) as (y & sts & Hy & Hm).
  rewrite (matched_end _ _ _ Hm Hend). eapply atomically_counting; [exact Hy|].
  rewrite <-list_fmap_compose. by apply counting_start.
Qed.

(** C14. The threads neither deadlock nor run for ever.  Whatever requests
    they handle, in every state they can reach all of them can run to their
    ends, and there is no endless sequence of steps in which no thread goes
    round the loop of [spinlock::lock]. *)
Theorem handlers_finish {D} `{LevelDB D} `{HashOrder} `{StringHash} us (w : world D) x :
  rtc thread_step (new_shared w, update_proc <$> us) x →
  (∃ y, rtc thread_step x y ∧ Forall ended y.2) ∧ Acc (flip busy_step) x.
Proof.
  intros Hx. split; [|apply busy_step_wf].
  destruct (threads_end x) as (y & Hy & Hend).
  - eapply rtc_keeps; [apply threads_ok_step|exact Hx|apply start_ok].
  - exists y. split; [|done]. eapply rtc_subrel; [|exact Hy]. apply busy_is_step.
Qed.

(** *** Runs *)

#[local] Instance length_hash : StringHash := {| std_hash := λ s, Z.of_nat (length s) |}.

(** Two increments of one key, and a second key whose lock is another one. *)
Definition two_incs : list valmap2int := [[(str "a", 2); (str "bb", 1)]; [(str "a", 3)]].
Definition counters : world (gmap bytes bytes) := World {[ str "a" := str "1"; str "bb" := str "-5" ]} replication0 ∅.
Definition start_incs : shared (D := gmap bytes bytes) * list (proc unit) :=
  (new_shared counters, update_proc <$> (u_inc <$> two_incs)).
(** The second thread waits for the lock of [a] while the first holds it. *)
Definition end_incs := run_schedule [0; 1; 0; 1; 0; 0; 1; 0; 1; 0; 1; 0; 1; 0; 0; 1]%nat start_incs.

Lemma end_incs_ended : Forall ended end_incs.2.
Proof.
  assert (end_incs.2 = [PEnd (Ok tt); PEnd (Ok tt)]) as -> by (vm_compute; reflexivity).
  repeat constructor; by eexists.
Qed.

Lemma handlers_are_atomic_witness : rtc atomically start_incs end_incs.
Proof.
  apply (handlers_are_atomic (u_inc <$> two_incs) counters).
  - repeat constructor.
  - apply run_schedule_steps.
  - exact end_incs_ended.
Defined.

Lemma increments_never_lost_witness :
  ∃ t', w_contents (sh_world end_incs.1) !! str "a" = Some t' ∧ write_number (1 + sum_of (total (str "a")) two_incs) = Ok t'.
Proof.
  apply (increments_never_lost two_incs counters end_incs (str "a") 1 (str "1")).
  - intros cmd kn Hcmd Hkn. unfold two_incs in Hcmd.
    repeat (apply elem_of_cons in Hcmd as [->|Hcmd]; [repeat (apply elem_of_cons in Hkn as [->|Hkn])|]);
      try (by apply not_elem_of_nil in Hkn); try (by apply not_elem_of_nil in Hcmd).
    1,3: by exists 1. by exists (-5).
  - vm_compute. reflexivity.
  - vm_compute. reflexivity.
  - vm_compute. discriminate.
  - apply run_schedule_steps.
  - exact end_incs_ended.
Defined.

(** A state in the middle: one thread has the lock, the other spins. *)
Definition mid_incs := run_schedule [0; 1; 1]%nat start_incs.

Lemma handlers_finish_witness :
  (∃ y, rtc thread_step mid_incs y ∧ Forall ended y.2) ∧ Acc (flip busy_step) mid_incs.
Proof. apply (handlers_finish (u_inc <$> two_incs) counters), run_schedule_steps. Defined.

(**  The slaves are not protected.  The lock of a key is given back before
    the slaves are told: of two increments of one key, the one that stored
    first may tell last.  Both answer success, and the running slave, which
    agreed with the master before, ends with the older value for good. *)
Theorem concurrent_incs_diverge :
  let start := (new_shared world1, update_proc <$> [u_inc [(str "a", 1)]; u_inc [(str "a", 1)]]) in
  slave_view [] (queue slave0) = w_contents world1 ∧
  ∃ x c, rtc thread_step start x ∧ x.2 = [PEnd (Ok tt); PEnd (Ok tt)] ∧
    repClients (w_replication (sh_world x.1)) !! str "s" = Some c ∧ state c = running ∧
    w_contents (sh_world x.1) !! str "a" = Some (str "3") ∧ slave_view [] (queue c) !! str "a" = Some (str "2").
Proof.
  intros start. split; [vm_compute; reflexivity|].
  set (x := run_schedule [0; 0; 0; 0; 1; 1; 1; 1; 1; 0]%nat start).
  exists x, (default slave0 (repClients (w_replication (sh_world x.1)) !! str "s")). split; [apply run_schedule_steps|].
  split_and!; vm_compute; reflexivity.
Qed.

(** [set] takes no lock, so an increment that began before it can end
    after it: the value that [set] stored and acknowledged is gone, and what
    is stored is what no order of the two requests gives. *)
Theorem set_is_lost :
  let start := (new_shared world1, update_proc <$> [u_inc [(str "a", 4)]; u_set [(str "a", str "100")]]) in
  ∃ x, rtc thread_step start x ∧ x.2 = [PEnd (Ok tt); PEnd (Ok tt)] ∧
    w_contents (sh_world x.1) !! str "a" = Some (str "5").
Proof.
  intros start. exists (run_schedule [0; 0; 1; 1; 0; 0; 0]%nat start). split; [apply run_schedule_steps|].
  split; vm_compute; reflexivity.
Qed.
