(* ===== verification/Client.v ===== *)
(** * Client: [fas/inet/client.hpp]

    The connection that a slave makes to its master.  [client] adds to a
    connection the making of a socket and of what is written before the
    socket is connected; [mux_client_base] and [mux_client] bring it together
    with the multiplexer.  The rest is the part of [src/daemon.cpp] that keeps
    the slave connected. *)

From S2P Require Import Prelude Hoare Mux MuxFilter.

(** ** The state *)

(** What the kernel answers when a socket is made: none, or one, then what
    [bind] and what [connect] says of it. *)
Inductive os_connect := Connected | Connecting | Refused (x : exn).
Inductive dial := No_socket (x : exn) | Dialled (d : Z) (bound : res unit) (o : os_connect).

(** [dials], [checks] and [sockerrs] are what the next calls of the kernel
    return: making sockets, [check_socket] and [getsockerror]. *)
(* src: fas/inet/client.hpp 523-533 client *)
Record client_part := Client_part {
  _nonblock : bool;
  _nonblock_connect : bool;
  _connect_in_progress : bool;
  _buffers : list bytes;
  _socket : Z;
  _connect_address : bytes;
  _bind_address : bytes;
  dials : list dial;
  checks : list (res bool);
  sockerrs : list Z;
}.

Definition set_nonblocks (a b : bool) (p : client_part) : client_part :=
  Client_part a b (_connect_in_progress p) (_buffers p) (_socket p) (_connect_address p) (_bind_address p) (dials p) (checks p) (sockerrs p).
Definition set_in_progress (v : bool) (p : client_part) : client_part :=
  Client_part (_nonblock p) (_nonblock_connect p) v (_buffers p) (_socket p) (_connect_address p) (_bind_address p) (dials p) (checks p) (sockerrs p).
Definition set_buffers (v : list bytes) (p : client_part) : client_part :=
  Client_part (_nonblock p) (_nonblock_connect p) (_connect_in_progress p) v (_socket p) (_connect_address p) (_bind_address p) (dials p) (checks p) (sockerrs p).
Definition set_socket (v : Z) (p : client_part) : client_part :=
  Client_part (_nonblock p) (_nonblock_connect p) (_connect_in_progress p) (_buffers p) v (_connect_address p) (_bind_address p) (dials p) (checks p) (sockerrs p).
Definition set_addresses (a b : bytes) (p : client_part) : client_part :=
  Client_part (_nonblock p) (_nonblock_connect p) (_connect_in_progress p) (_buffers p) (_socket p) a b (dials p) (checks p) (sockerrs p).
Definition set_dials (v : list dial) (p : client_part) : client_part :=
  Client_part (_nonblock p) (_nonblock_connect p) (_connect_in_progress p) (_buffers p) (_socket p) (_connect_address p) (_bind_address p) v (checks p) (sockerrs p).
Definition set_checks (v : list (res bool)) (p : client_part) : client_part :=
  Client_part (_nonblock p) (_nonblock_connect p) (_connect_in_progress p) (_buffers p) (_socket p) (_connect_address p) (_bind_address p) (dials p) v (sockerrs p).
Definition set_sockerrs (v : list Z) (p : client_part) : client_part :=
  Client_part (_nonblock p) (_nonblock_connect p) (_connect_in_progress p) (_buffers p) (_socket p) (_connect_address p) (_bind_address p) (dials p) (checks p) v.

(* src: fas/inet/client.hpp 121-121 client::client *)
Definition new_client_part : client_part := Client_part false false false [] (-1) [] [] [] [] [].

(** [client::_get_status]: a connection that is being released still has a
    status. *)
(* src: fas/inet/client.hpp 158-161 client::_get_status *)
Definition client_status {M} (s : mux_filter M client_part) : bool :=
  _connect_in_progress (ext s) || negb (released s).

Section release.
Context {M : Type} `{Imux M}.
Abbreviation state := (mux_filter M client_part).
Abbreviation io := (prog event state).

Definition set_part (f : client_part → client_part) : io unit := op_modify (λ s, set_ext (f (ext s)) s).
Definition get_part {A} (f : client_part → A) : io A := op_get (λ s, f (ext s)).

(** [asi::shutdown] ignores what [::shutdown] returns. *)
(* src: fas/inet/client.hpp 370-383 client::_close *)
Definition client_close : io unit :=
  set_part (λ p, set_in_progress false (set_buffers [] p));;
  d ← get_part _socket;
  op_emit (Shutdown d);;
  set_part (set_socket (-1));;
  connection_close.

(** What [_connect_ready] does with an attempt that failed or is given up. *)
(* src: fas/inet/client.hpp 503-514 client::_connect_ready *)
Definition connect_failed (err : Z) : io Z :=
  set_part (set_buffers []);;
  d ← get_part _socket;
  (if negb (d =? 0) then op_emit (Close d) else mret tt);;
  set_part (set_socket (-1));;
  if 0 <? err then op_lift (Throw (runtime_error (str "fas::inet::client::connect ")))
  else if err =? -2 then op_lift (Throw (runtime_error (str "fas::inet::client::connect: ")))
  else mret (-1).

(** [mux_client_base::_release], the override; an attempt in progress is
    given up by [_connect_ready] of its own socket with -1. *)
(* src: fas/inet/client.hpp 798-818 mux_client_base::_release *)
Definition client_release (super : io bool) : io bool :=
  p ← get_part _connect_in_progress;
  (if p : bool then
     _reset_write_handler true;; set_part (set_in_progress false);; connect_failed (-1);; mret tt
   else mret tt);;
  r ← super;
  if r : bool then
    s ← op_get id;
    (if negb (client_status s) then client_close else mret tt);;
    mret true
  else mret false.

#[export] Instance mux_client : Derived M client_part := {| derived_release := client_release |}.
End release.

(** ** Making the connection *)

Section client.
Context {M : Type} `{Imux M}.
Abbreviation state := (mux_filter M client_part).
Abbreviation io := (prog event state).

(** The observer that the client is; [asi::create_address], which looks a
    name up; what the handlers do with data. *)
Variable self : nat.
Variable create_address : bytes → Z → res bytes.
Variable on_read : bytes → list action.

Definition asi_socket : io (Z * res unit * os_connect) :=
  ds ← get_part dials;
  match ds with
  | [] => op_lift (Throw (runtime_error (str "fas::system::inet::socket: ")))
  | No_socket x :: ds => set_part (set_dials ds);; op_lift (Throw x)
  | Dialled d b o :: ds => set_part (set_dials ds);; op_emit (Socket d);; mret (d, b, o)
  end.
Definition check_socket : io bool :=
  cs ← get_part checks;
  match cs with
  | [] => mret false
  | c :: cs => set_part (set_checks cs);; op_lift c
  end.
Definition getsockerror : io Z :=
  es ← get_part sockerrs;
  match es with
  | [] => mret 0
  | e :: es => set_part (set_sockerrs es);; mret e
  end.

(* src: fas/inet/client.hpp 449-458 client::__write_buffer *)
Fixpoint write_each (bufs : list bytes) (write_size : Z) : io Z :=
  match bufs with
  | [] => mret write_size
  | b :: bufs =>
      wr ← _write self b;
      if wr =? size b then write_each bufs (write_size + wr)
      else op_lift (Throw (runtime_error (str "client::__write_buffer: error write buffer")))
  end.

(** What was written before the socket was connected. *)
(* src: fas/inet/client.hpp 442-463 client::__write_buffer *)
Definition __write_buffer : io Z :=
  bufs ← get_part _buffers;
  match bufs with
  | [] => mret (-1)
  | _ => write_size ← write_each bufs 0; set_part (set_buffers []);; mret write_size
  end.

(* src: fas/inet/client.hpp 483-518 client::_connect_ready *)
Definition _connect_ready (d err : Z) : io Z :=
  socket ← get_part _socket;
  if negb (d =? socket) then op_lift (Throw (runtime_error (str "client::_connect_ready: invalid socket")))
  else
    p ← get_part _connect_in_progress;
    if p : bool then
      set_part (set_in_progress false);;
      if err =? 0 then
        connection_assign self socket socket;;
        op_emit On_client_connected;;
        __write_buffer
      else connect_failed err
    else __write_buffer.

(* src: fas/inet/client.hpp 465-477 client::_check_and_write *)
Definition _check_and_write : io Z :=
  ok ← check_socket;
  if ok : bool then
    p ← get_part _connect_in_progress;
    if p : bool then d ← get_part _socket; _connect_ready d 0 else __write_buffer
  else mret (-1).

(* src: fas/inet/client.hpp 412-427 client::_write *)
Definition client_write (d : bytes) : io Z :=
  p ← get_part _connect_in_progress;
  (if p : bool then _check_and_write;; mret tt else mret tt);;
  p ← get_part _connect_in_progress;
  if negb p then _write self d
  else (if 0 <? size d then set_part (λ p, set_buffers (_buffers p ++ [d]) p) else mret tt);; mret (-1).

(* src: fas/inet/client.hpp 429-439 client::_write *)
Definition client_write_buffered : io Z :=
  p ← get_part _connect_in_progress;
  if p : bool then _check_and_write else _write_buffered self.

(* src: fas/inet/client.hpp 399-410 client::_read *)
Definition client_read : io Z :=
  p ← get_part _connect_in_progress;
  (if p : bool then _check_and_write;; mret tt else mret tt);;
  p ← get_part _connect_in_progress;
  if negb p then _read self on_read else mret (-1).

(** The address of the socket itself is not kept. *)
(* src: fas/inet/client.hpp 237-301 client::_connect *)
Definition client_connect (remote baddr : bytes) : io bool :=
  if decide (remote = []) then op_lift (Throw (logic_error (str "fas::inet::client::_connect: remote address is empty")))
  else
    set_part (set_addresses remote baddr);;
    s ← op_get id;
    (if _connect_in_progress (ext s) then _connect_ready (_socket (ext s)) (-1);; mret tt
     else if client_status s then client_close else mret tt);;
    set_part (set_buffers []);;
    '(d, bound, o) ← asi_socket;
    set_part (set_socket d);;
    (match baddr with [] => mret tt | _ => op_lift bound end);;
    nb ← get_part _nonblock;
    nbc ← get_part _nonblock_connect;
    (if nbc : bool then op_emit (Nonblock d) else mret tt);;
    match o with
    | Refused x => op_emit (Close d);; set_part (set_socket (-1));; op_lift (Throw x)
    | _ =>
        let cr := match o with Connected => true | _ => false end in
        set_part (set_in_progress (negb cr));;
        (if nb && negb nbc then op_emit (Nonblock d) else mret tt);;
        (if cr then connection_assign self d d else mret tt);;
        op_emit On_client_connect;;
        (if cr then op_emit On_client_connected else mret tt);;
        mret cr
    end.

(* src: fas/inet/client.hpp 304-313 client::_connect *)
Definition client_connect_port (addr : bytes) (port : Z) (baddr : bytes) (bport : Z) : io bool :=
  remote_address ← op_lift (create_address addr port);
  baddress ← op_lift (if bool_decide (baddr = []) && (bport =? 0) then Ok [] else create_address baddr bport);
  client_connect remote_address baddress.

(* src: fas/inet/client.hpp 151-156 client::set_nonblock *)
Definition set_nonblock (nonblock nonblock_connect : bool) : io unit :=
  set_part (set_nonblocks nonblock nonblock_connect).

(** ** With the multiplexer *)

(** An attempt in progress is given up. *)
(* src: fas/inet/client.hpp 685-692 mux_client_base::_connect *)
Definition cancel_attempt : io unit :=
  _reset_write_handler true;; d ← get_part _socket; _connect_ready d (-1);; mret tt.

(** A soft release, then a hard one. *)
(* src: fas/inet/client.hpp 696-697 mux_client_base::_connect *)
Definition release_hard : io unit := r ← release; if r : bool then mret tt else release;; mret tt.

(** What the overloads do around the [_connect] of the base: nothing when the
    client is still connected, and a socket that is not connected yet waits
    for the multiplexer. *)
(* src: fas/inet/client.hpp 656-678 mux_client_base::_connect *)
Definition with_mux (connect : io bool) : io bool :=
  s ← op_get id;
  if _connect_in_progress (ext s) then mret false
  else if client_status s then mret true
  else
    result ← connect;
    s ← op_get id;
    (if _connect_in_progress (ext s) then
       op_modify (λ s, set_w_status true (set_wd (_socket (ext s)) s));;
       op_modify (λ s, set_r_status true (set_rd (_socket (ext s)) s));;
       _set_write_handler self
     else mret tt);;
    mret result.

(* src: fas/inet/client.hpp 634-678 mux_client_base::_connect *)
Definition mux_connect_address (addr baddr : bytes) : io bool :=
  s ← op_get id;
  (if _connect_in_progress (ext s) then cancel_attempt
   else if client_status s then release_hard else mret tt);;
  with_mux (client_connect addr baddr).

(* src: fas/inet/client.hpp 681-718 mux_client_base::_connect *)
Definition mux_connect (addr : bytes) (port : Z) (baddr : bytes) (bport : Z) : io bool :=
  s ← op_get id;
  (if _connect_in_progress (ext s) then cancel_attempt else mret tt);;
  s ← op_get id;
  (if client_status s then release_hard else mret tt);;
  with_mux (client_connect_port addr port baddr bport).

(* src: fas/inet/client.hpp 760-795 mux_client_base::_reconnect *)
Definition _reconnect (check_and_close : bool) : io bool :=
  s ← op_get id;
  if _connect_in_progress (ext s) then mret false
  else if client_status s && negb check_and_close then mret true
  else
    (if client_status s then release_hard else mret tt);;
    s ← op_get id;
    if _connect_in_progress (ext s) then mret false
    else if client_status s then mret true
    else mux_connect_address (_connect_address (ext s)) (_bind_address (ext s)).

(* src: fas/inet/client.hpp 823-832 mux_client_base::_close *)
Definition _close (hard : bool) : io bool :=
  r ← release;
  (if negb r && hard then release;; mret tt else mret tt);;
  mret r.

(* src: fas/inet/client.hpp 576-584 mux_client_base::_ready_read *)
Definition client_ready_read (d : Z) : io unit :=
  p ← get_part _connect_in_progress;
  if p : bool then op_lift (Throw (logic_error (str "fas::inet::mux_client_base::_ready_read: ready read for progress connect")))
  else _ready_read self on_read d.

(* src: fas/inet/client.hpp 586-600 mux_client_base::_ready_write *)
Definition client_ready_write (d : Z) : io unit :=
  p ← get_part _connect_in_progress;
  if p : bool then _reset_write_handler true;; err ← getsockerror; _connect_ready d err;; mret tt
  else _ready_write self d.

(** A connection attempt that urgent data or an error ends has failed. *)
(* src: fas/inet/client.hpp 606-614 mux_client_base::_ready_urgent *)
Definition attempt_failed (d : Z) : io unit :=
  _reset_write_handler true;;
  err ← getsockerror;
  _connect_ready d (if negb (err =? 0) then err else -2);; mret tt.

(* src: fas/inet/client.hpp 602-617 mux_client_base::_ready_urgent *)
Definition client_ready_urgent (d : Z) : io unit :=
  p ← get_part _connect_in_progress;
  if p : bool then attempt_failed d else _ready_urgent d.

(* src: fas/inet/client.hpp 619-632 mux_client_base::_ready_error *)
Definition client_ready_error (d : Z) : io unit :=
  _ready_error d;;
  p ← get_part _connect_in_progress;
  if p : bool then attempt_failed d else mret tt.

(** ** The slave's connection *)

(** [client.set_mux(&mux)]: there is one multiplexer; once the client has it,
    its state is kept here. *)
Definition attach (m : M) : io unit := op_modify (λ s, if mux s then s else set_mux (Some m) s).

(** [setsockopt] fails when there is no socket. *)
(* src: fas/system/inet.hpp 701-707 keepalive *)
Definition keepalive (d : Z) : io unit :=
  if d =? -1 then op_lift (Throw (runtime_error (str "fas::system::inet::keepalive: ")))
  else op_emit (Keepalive d).

(** [request] is what the caller of [rep_setstate] writes. *)
(* src: src/daemon.cpp 227-234 main *)
Definition connect_to_master (m : M) (host : bytes) (port : Z) (request : bytes) : io unit :=
  _close false;;
  attach m;;
  mux_connect host port [] 0;;
  set_nonblock true false;;
  d ← get_part _socket;
  keepalive d;;
  client_write request;;
  mret tt.

(** [try { m } catch(...) { }] *)
Definition caught (m : io unit) : io unit := λ s,
  match m s with (Throw _, s', ev) => (Ok tt, s', ev) | r => r end.

(** What follows [run_select] in the loop of the thread. *)
(* src: src/daemon.cpp 241-245 main *)
Definition keep_connected (id : bytes) (m : M) (host : bytes) (port : Z) (request : bytes) : io unit :=
  s ← op_get (λ s, s);
  if negb (bool_decide (id = [])) && negb (client_status s) then caught (connect_to_master m host port request)
  else mret tt.
End client.
