(* ===== verification/ClientSpec.v ===== *)
(** * ClientSpec: the slave's connection to its master

    Whenever the client says that it has no connection, every socket it made
    was closed, and the next round of the loop in which the master accepts
    makes a new one.  But there is
    a state in which it says that it has one although the master is gone, and
    a socket is shut down after it was closed. *)

From S2P Require Import Prelude Hoare Mux MuxFilter MuxFilterSpec Client.

(** ** Descriptors *)

Definition sockets (h : list event) : list Z := omap (λ e, match e with Socket d => Some d | _ => None end) h.
Definition closes (h : list event) : list Z := omap (λ e, match e with Close d => Some d | _ => None end) h.

Lemma sockets_app h h' : sockets (h ++ h') = sockets h ++ sockets h'.
Proof. apply omap_app. Qed.
Lemma closes_app h h' : closes (h ++ h') = closes h ++ closes h'.
Proof. apply omap_app. Qed.

(** What concerns descriptors is among the ends of a history. *)
Lemma sockets_ends h : sockets h = sockets (ends h).
Proof.
  induction h as [|e h IH]; [done|]. destruct e; first [exact IH|exact (f_equal (cons _) IH)].
Qed.
Lemma closes_ends h : closes h = closes (ends h).
Proof.
  induction h as [|e h IH]; [done|]. destruct e; first [exact IH|exact (f_equal (cons _) IH)].
Qed.

(** ** The client as a derived class *)

#[export] Instance mux_client_laws {M} `{Imux M} : DerivedLaws M client_part.
Proof.
  refine {| at_rest p := _connect_in_progress p = false ∧ _nonblock_connect p = false;
            ended p := set_socket (-1) (set_in_progress false (set_buffers [] p));
            end_events p := [Shutdown (_socket p)]; given_back := [] |}; [by intros x []|done|..].
  - intros super s s1 ev [Hp _] _ E. cbn. unfold client_release, get_part. rewrite op_get_bind, Hp. cbn iota.
    rewrite op_ret_bind_at, (op_bind_Ok _ _ _ _ _ _ E). cbn. by rewrite app_nil_r.
  - intros super s s1 ev [Hp _] He Hr Hc E. cbn. unfold client_release, get_part. rewrite op_get_bind, Hp. cbn iota.
    rewrite op_ret_bind_at, (op_bind_Ok _ _ _ _ _ _ E). cbn iota. rewrite op_get_bind. cbn [id].
    unfold client_status. rewrite He, Hp, Hr. cbn [orb negb]. destruct s1; cbn in *; subst. reflexivity.
Defined.

Section client.
Context {M : Type} `{ImuxLaws M} (self : nat).

Abbreviation state := (mux_filter M client_part).

(** ** Without a connection *)

Definition down (s : state) : Prop :=
  released s = true ∧ mux_read s = false ∧ mux_write s = false ∧ mux_urgent s = false ∧ swh_count s = 0 ∧
  recursive s = 0 ∧ at_rest (M := M) (ext s).

Lemma done_down d h (s : state) : life self d true 0 Done h s → down s.
Proof.
  intros (Hw & Hrec & Hp). destruct Hw as [_ _ Hu [Hc1 Hc2] Hr]. cbn in Hp. destruct_and? Hp.
  split_and!; try done; [|apply Hr..]. rewrite Hc2 in *. match goal with E : (0 <? _) = false |- _ => apply Z.ltb_ge in E; lia end.
Qed.

Lemma down_status (s : state) : down s → client_status s = false.
Proof. intros (Hr & _ & _ & _ & _ & _ & Hp & _). unfold client_status. by rewrite Hr, Hp. Qed.

Lemma release_down (s : state) : down s → release s = (Ok false, s, []).
Proof.
  intros Hd. apply (derived_soft _ s s []); [apply Hd|done|].
  unfold mux_connection_release, mux_filter_release, mbind, op_bind, op_get. by rewrite (proj1 Hd).
Qed.

Lemma down_ext p (s : state) : down s → at_rest (M := M) p → down (set_ext p s).
Proof. unfold down. naive_solver. Qed.

(** [client_connect] with a socket that is blocking: it throws, with
    everything closed, or comes to the assignment of the descriptor. *)
Definition refused (s : state) (r : res bool * state * list event) : Prop :=
  ∃ x p ev, r = (Throw x, set_ext p s, ev) ∧ at_rest (M := M) p ∧ sockets ev = closes ev ∧ On_assign ∉ ev.

Definition assigns (d : Z) : prog event state bool :=
  connection_assign self d d;; op_emit On_client_connect;; op_emit On_client_connected;; mret true.

Lemma client_connect_run a dl (s : state) :
  down s → dials (ext s) = [dl] → (∀ d b, dl ≠ Dialled d b Connecting) →
  refused s (client_connect self a [] s) ∧ (a = [] ∨ ∀ d b, dl ≠ Dialled d b Connected) ∨
  ∃ d b p ev, dl = Dialled d b Connected ∧ at_rest (M := M) p ∧ _socket p = d ∧
    ev = Socket d :: (if _nonblock (ext s) then [Nonblock d] else []) ∧
    client_connect self a [] s = let '(r, s', ev') := assigns d (set_ext p s) in (r, s', ev ++ ev').
Proof.
  intros Hd Hdl Hno. destruct Hd as (Hst & _ & _ & _ & _ & _ & Hp & Hnbc).
  destruct s as [? ? ? ? ? ? ? ? ? ? ? ? ? ? ? ? ? ? ? [nb nbc inp bufs sock ca ba dls cks errs]].
  cbn in Hp, Hnbc, Hdl, Hst. subst.
  unfold client_connect, client_status, asi_socket, set_part, get_part, refused, assigns.
  unfold mbind, op_bind, op_get, op_modify, op_emit, op_lift, mret, op_ret, id.
  destruct (decide (a = [])).
  { left. split; [|by left]. eexists _, _, []. split; [reflexivity|]. split_and!; [done..|set_solver]. }
  destruct dl as [x|d b [| |x]]; [left|right|by destruct (Hno d b)|left]; cbn -[connection_assign].
  - split; [|by right]. eexists x, _, []. split; [reflexivity|]. split_and!; [done..|set_solver].
  - exists d, b, (Client_part nb false false [] d a [] [] cks errs), (Socket d :: if nb then [Nonblock d] else []).
    split; [done|]. split; [done|]. split; [done|]. split; [done|].
    destruct nb; cbn -[connection_assign];
      change (set_in_progress false _) with (Client_part true false false [] d a [] [] cks errs) ||
      change (set_in_progress false _) with (Client_part false false false [] d a [] [] cks errs);
      by destruct (connection_assign self d d _) as [[[[]| | |] ?] ?].
  - split; [|by right]. eexists x, _, _. split; [reflexivity|]. destruct nb; (split_and!; [done..|set_solver]).
Qed.

(** ** Writing on a connection *)

(** The system call that throws when nothing is in the buffer has used up its
    result, and nothing else has changed. *)
Lemma buf_write_throws l (s : state) x s' ev :
  w_buffer s = [] → buf_write l s = (Throw x, s', ev) → (∃ ws, s' = set_writes ws s) ∧ ends ev = [].
Proof.
  intros Hb. unfold buf_write. rewrite op_get_bind, Hb. change (negb (size [] =? 0)) with false. cbn [orb app].
  assert ((if size l <=? S_ then op_modify (set_w_buffer l) else mret tt : prog event state unit) s = (Ok tt, s, [])) as E.
  { destruct (Z.leb_spec (size l) S_) as [Hl|]; [|done]. unfold size, S_ in Hl.
    assert (l = []) as -> by (destruct l; cbn in Hl; [done|lia]). unfold op_modify. destruct s; cbn in *; by subst. }
  rewrite (op_bind_Ok _ _ _ _ _ _ E), op_get_bind, Hb. change (size [] =? 0) with true. cbn iota.
  destruct (ad_binary_write_run l s) as (ws & st & ev0 & _ & He & [(rt & Ew & _)|(y & Ew & _ & ->)]).
  - rewrite (op_bind_Ok _ _ _ _ _ _ Ew). intros E2. repeat case_match; unfold mbind, op_bind, op_modify, mret, op_ret in *; by simplify_eq.
  - rewrite (op_bind_Throw _ _ _ _ _ _ Ew). intros [= _ <- <-]. split; [|done]. exists ws. by destruct s.
Qed.

(** A write on a connection with an empty buffer, whatever the system call
    returns: it goes on, or nothing of it is kept. *)
Lemma write_any d h l (s : state) : watchable (M := M) d → life self d true 0 Active h s → w_buffer s = [] →
  (∃ rt s' ev, _write self l s = (Ok rt, s', ev) ∧ calm self d (h ++ ev) s') ∨
  (∃ x ws ev, _write self l s = (Throw x, set_writes ws s, ev) ∧ ends ev = []).
Proof.
  intros Hd Hl Hb. assert (ends h = []) as Hh by (destruct Hl as (_ & _ & Hp); cbn in Hp; by destruct_and? Hp).
  pose proof (write_phases self d true 0 Hd l (λ s1, s1 = s) (λ h' s', (∃ ws, s' = set_writes ws s) ∧ ends h' = [])) as Ht.
  assert (triple (λ h' s1, core self d true 0 h' s1 ∧ w_status s1 = true ∧ sent h' ++ (w_buffer s1 ++ l) = given h' ∧ s1 = s)
    (buf_write l) (λ _, between self d true 0) (λ h' s', (∃ ws, s' = set_writes ws s) ∧ ends h' = [])) as Hbuf.
  { intros h' s1 (Hc & Hst & Heq & ->).
    pose proof (triple_wrote self d true 0 _ (λ s, w_buffer s ++ l) (buf_write_run l) h' s (conj Hc (conj Hst Heq))) as Hw.
    destruct (buf_write l s) as [[[rt|x| |] s'] ev] eqn:E; try done.
    destruct (buf_write_throws l s x s' ev Hb E) as [Hs He]. split; [done|]. rewrite ends_app, He, app_nil_r. apply Hc. }
  specialize (Ht Hbuf h s (conj (ex_intro _ Active Hl) eq_refl)).
  destruct (_write self l s) as [[[rt|x| |] s'] ev]; try done; [left; by exists rt, s', ev|right].
  destruct Ht as [[ws ->] He]. rewrite ends_app, Hh in He. by exists x, ws, ev.
Qed.

(** All of it goes out at once. *)
Lemma write_takes d h l ws (s : state) :
  life self d true 0 Active h s → w_buffer s = [] → l ≠ [] → writes s = Took (length l) :: ws →
  ∃ s', _write self l s = (Ok (size l), s', [On_writing l; Sent l; On_write (size l)]) ∧
    released s' = false ∧ releasing s' = false.
Proof.
  intros (Hw & _ & Hp) Hb Hl Hws. cbn in Hp. destruct Hp as (Hrel & Hing & _ & Hst & _).
  unfold _write. rewrite op_get_bind. cbn [id]. rewrite Hing, Hst. cbn [negb].
  set (s1 := set_writes ws s).
  assert (buf_write l s = (Ok (size l), s1, [Sent l; On_write (size l)])) as E.
  { unfold buf_write. rewrite op_get_bind, Hb. unfold S_. change (size [] =? 0) with true. cbn [negb orb].
    assert (0 < size l) as Hpos by (unfold size; destruct l; simpl in *; [done|lia]).
    rewrite (proj2 (Z.leb_gt _ _)) by exact Hpos. rewrite op_ret_bind_at, op_get_bind, Hb. change (size [] =? 0) with true. cbn iota.
    assert (ad_binary_write l s = (Ok (size l), s1, [Sent l; On_write (size l)])) as Ew.
    { unfold ad_binary_write, ad_file_write, system_write, next_write, mbind, op_bind. rewrite Hws, firstn_all. fold (size l).
      cbn -[size]. rewrite (proj2 (Z.eqb_neq _ _)) by lia. cbn -[size]. rewrite (proj2 (Z.eqb_neq _ _)) by lia.
      by rewrite (proj2 (Z.ltb_lt _ _)) by lia. }
    rewrite (op_bind_Ok _ _ _ _ _ _ Ew). rewrite (proj2 (Z.ltb_ge (size l) (size l))) by lia. rewrite andb_false_r.
    by rewrite (proj2 (Z.ltb_ge _ _)) by lia. }
  assert (wired self d s1) as Hw1 by (by apply (wired_same self d s)).
  destruct (reset_write self d s1 false Hw1) as (s2 & E2 & _ & _ & _ & _ & _ & _ & Hrel2 & Hing2 & Hst2 & _ & _).
  assert (_set_write_handler_if_ready self s1 = (Ok tt, s2, [])) as Eh.
  { unfold _set_write_handler_if_ready. rewrite op_get_bind. cbn [id]. change (released s1) with (released s).
    change (w_status s1) with (w_status s). rewrite Hrel, Hst. unfold ready. change (w_buffer s1) with (w_buffer s). rewrite Hb.
    change (negb (size [] =? 0)) with false. cbn iota. rewrite (op_bind_Ok _ _ _ _ _ _ E2), op_get_bind, Hing2.
    change (releasing s1) with (releasing s). by rewrite Hing. }
  exists s2. split; [|by rewrite Hrel2, Hing2].
  unfold mbind at 1, op_bind at 1, op_emit. rewrite (op_bind_Ok _ _ _ _ _ _ E), (op_bind_Ok _ _ _ _ _ _ Eh).
  unfold release_if, mbind, op_bind, op_get. cbn [id]. rewrite Hst2. change (w_status s1) with (w_status s). by rewrite Hst.
Qed.

(** ** One attempt *)

Section session.
Variable create_address : bytes → Z → res bytes.
Hypothesis resolves : ∀ a p, match create_address a p with Ok _ | Throw _ => True | _ => False end.
Variable m0 : M.
Hypothesis Hm0 : mux_ok m0.
Variables host request : bytes.
Variable port : Z.

Definition the_mux (s : state) : M := default m0 (mux s).

(** A socket is a descriptor that nobody watches yet; connect(2) of a blocking
    socket does not return before the connection is made or refused. *)
Definition fresh (s : state) (dl : dial) : Prop :=
  match dl with
  | No_socket _ => True
  | Dialled d _ o => d ≠ -1 ∧ (o = Connecting → _nonblock_connect (ext s) = true) ∧ watchable (M := M) d ∧
      ∀ k, interest (the_mux s) d k = None
  end.

(** The results of the calls of this attempt. *)
Definition answers (dl : dial) (ws : list os_write) (s : state) : state :=
  set_writes ws (set_ext (set_dials [dl] (ext s)) s).

Abbreviation session := (connect_to_master self create_address m0 host port request).

Lemma down_idle d p (s : state) :
  down s → mux_ok (the_mux s) → (∀ k, interest (the_mux s) d k = None) → at_rest (M := M) p →
  idle d (set_ext p (set_mux (Some (the_mux s)) s)).
Proof.
  intros (? & ? & ? & ? & ? & ? & _) Hok Hi Hp. split; [by exists (the_mux s)|]. by split_and!.
Qed.

(** What happens between the socket and the request. *)
Definition opening (d : Z) : list event :=
  [Cleaned; On_assign; On_connection_assign; On_client_connect; On_client_connected; Keepalive d].

Lemma life_opening d p (s : state) :
  life self d true 0 Active [Cleaned; On_assign; On_connection_assign] s → ext s = p → at_rest (M := M) p →
  life self d true 0 Active (opening d) (set_ext (set_nonblocks true false (ext s)) s).
Proof.
  intros (Hw & Hrec & Hp) <- Hr. split; [|split; [exact Hrec|]].
  - destruct Hw as [? ? ? ? _]. split; [done..|]. split; [apply Hr|done].
  - cbn in *. destruct_and? Hp. by split_and!.
Qed.

Definition opened_session (dl : dial) (ws : list os_write) (s : state) : Prop :=
  ∃ d b s1, dl = Dialled d b Connected ∧ life self d true 0 Active (opening d) s1 ∧
    w_buffer s1 = [] ∧ writes s1 = ws ∧
    session (answers dl ws s) =
      let '(r, s', ev) := (client_write self request;; mret tt : prog event state unit) s1 in
      (r, s', (Socket d :: if _nonblock (ext s) then [Nonblock d] else []) ++ opening d ++ ev).

Definition failed_session (dl : dial) (ws : list os_write) (s : state) : Prop :=
  (∃ x p ev, session (answers dl ws s) = (Throw x, set_ext p (set_mux (Some (the_mux s)) (answers dl ws s)), ev) ∧
     at_rest (M := M) p ∧ sockets ev = closes ev ∧ On_assign ∉ ev) ∧
  ∀ a, create_address host port = Ok a → a = [] ∨ ∀ d b, dl ≠ Dialled d b Connected.

Lemma session_run dl ws (s : state) :
  down s → mux_ok (the_mux s) → fresh s dl → opened_session dl ws s ∨ failed_session dl ws s.
Proof.
  intros Hd Hok Hfresh. unfold opened_session, failed_session. set (s0 := answers dl ws s).
  assert (down s0) as Hd0 by done.
  assert (_close false s0 = (Ok false, s0, [])) as E0.
  { unfold _close. by rewrite (op_bind_Ok _ _ _ _ _ _ (release_down s0 Hd0)). }
  set (s1 := set_mux (Some (the_mux s)) s0).
  assert (attach m0 s0 = (Ok tt, s1, [])) as E1.
  { unfold attach, op_modify, s1, the_mux. change (mux s0) with (mux s). destruct (mux s) eqn:Hm; cbn; [|done].
    unfold s0, answers. destruct s; cbn in *; by subst. }
  assert (down s1) as Hd1 by done. pose proof (down_status s1 Hd1) as Hst1.
  assert (_connect_in_progress (ext s1) = false) as Hp1 by apply Hd1.
  assert (∀ r s' ev, client_connect_port self create_address host port [] 0 s1 = (r, s', ev) →
    _connect_in_progress (ext s') = false → mux_connect self create_address host port [] 0 s1 = (r, s', ev)) as Emux.
  { intros r s' ev E Hp. unfold mux_connect, with_mux. rewrite op_get_bind. cbn [id]. rewrite Hp1, op_ret_bind_at, op_get_bind.
    cbn [id]. rewrite Hst1, op_ret_bind_at, op_get_bind. cbn [id]. rewrite Hp1, Hst1. unfold mbind, op_bind. rewrite E.
    destruct r; [|done..]. cbn. rewrite Hp. cbn. by rewrite app_nil_r. }
  assert (session s0 = let '(r, s', ev) := (mux_connect self create_address host port [] 0;; set_nonblock true false;;
    d ← get_part _socket; keepalive d;; client_write self request;; mret tt : prog event state unit) s1 in (r, s', ev)) as Es.
  { unfold connect_to_master. rewrite (op_bind_Ok _ _ _ _ _ _ E0), (op_bind_Ok _ _ _ _ _ _ E1).
    by destruct ((mux_connect self create_address host port [] 0;; _) s1) as [[? ?] ?]. }
  pose proof (resolves host port) as Hres. destruct (create_address host port) as [a|x| |] eqn:Ha; [|..|done|done].
  2:{ right. split; [|done]. exists x, (ext s1), []. rewrite Es. unfold mbind at 1, op_bind at 1.
      rewrite (Emux (Throw x) s1 []); [|..|done]; [|by unfold client_connect_port; rewrite Ha].
      split; [by destruct s1|]. split; [apply Hd1|]. split; [done|set_solver]. }
  assert (client_connect_port self create_address host port [] 0 s1 = client_connect self a [] s1) as Ep.
  { unfold client_connect_port. rewrite Ha. unfold mbind, op_bind, op_lift. cbn -[client_connect].
    by destruct (client_connect self a [] s1) as [[? ?] ?]. }
  destruct (client_connect_run a dl s1 Hd1 eq_refl) as [[(x & p & ev & E & Hp & Hev) Hcase]|(d & b & p & ev & -> & Hp & Hsock & -> & E)].
  - destruct dl as [|d b o]; [done|]. intros d' b' [= -> -> ->]. destruct Hfresh as (_ & Hno & _). destruct Hd as (_ & _ & _ & _ & _ & _ & _ & Hnb).
    specialize (Hno eq_refl). congruence.
  - right. split; [|by intros a' [= <-]]. exists x, p, ev. split; [|done]. fold s0 s1.
    rewrite Es. unfold mbind at 1, op_bind at 1. by rewrite (Emux (Throw x) (set_ext p s1) ev); [|by rewrite Ep|apply Hp].
  - left. destruct Hfresh as (Hneg & _ & Hwatch & Hfree).
    destruct (assign_active self d Hwatch (set_ext p s1)) as (s2 & E2 & Hact & Hext & Hws & Hb);
      [exact (down_idle d p s0 Hd0 Hok Hfree Hp)|].
    change (ext (set_ext p s1)) with p in Hext. change (writes (set_ext p s1)) with ws in Hws.
    change (_nonblock (ext s1)) with (_nonblock (ext s)) in E.
    set (evs := Socket d :: (if _nonblock (ext s) then [Nonblock d] else [])) in *.
    assert (client_connect self a [] s1 = (Ok true, s2,
      evs ++ [Cleaned; On_assign; On_connection_assign; On_client_connect; On_client_connected])) as E3.
    { rewrite E. unfold assigns. by rewrite (op_bind_Ok _ _ _ _ _ _ E2). }
    rewrite <-Ep in E3. apply Emux in E3; [|rewrite Hext; apply Hp].
    set (s3 := set_ext (set_nonblocks true false (ext s2)) s2).
    exists d, b, s3. split; [done|]. split; [|split; [done|split; [done|]]].
    + by apply (life_opening d p).
    + rewrite Es, (op_bind_Ok _ _ _ _ _ _ E3). unfold set_nonblock, set_part, get_part. rewrite op_modify_bind. fold s3.
      rewrite op_get_bind. change (_socket (ext s3)) with (_socket (ext s2)). rewrite Hext, Hsock. unfold keepalive.
      rewrite (proj2 (Z.eqb_neq _ _)) by exact Hneg. unfold mbind at 1, op_bind at 1, op_emit at 1.
      destruct ((client_write self request;; mret tt : prog event state unit) s3) as [[r s'] ev].
      by rewrite <-app_assoc.
Qed.

(** ** The thread of the slave *)

Variable name : bytes.
Hypothesis named : name ≠ [].

Definition round (dl : dial) (ws : list os_write) (s : state) : res unit * state * list event :=
  keep_connected self create_address name m0 host port request (answers dl ws s).

Inductive callback := Cb_read (on_read : bytes → list action) | Cb_write | Cb_urgent | Cb_error.
Definition run_callback (o : callback) (d : Z) : prog event state unit :=
  match o with
  | Cb_read on_read => client_ready_read self on_read d
  | Cb_write => client_ready_write self d
  | Cb_urgent => client_ready_urgent self d
  | Cb_error => client_ready_error self d
  end.

(** From the first connection on the multiplexer may call back, whatever the
    system calls return and the handlers do, and what is thrown is caught
    around [select]; the connections of the server that shares the
    multiplexer set and reset handlers of theirs; and each round of the loop
    looks whether there is a connection. *)
Inductive client_step : list event * state → list event * state → Prop :=
  | step_others h s m m' :
      mux s = Some m → mux_ok m' → (∀ k, interest m' (rd s) k = interest m (rd s) k) →
      client_step (h, s) (h, set_mux (Some m') s)
  | step_callback h s o ws rs r s' ev :
      On_assign ∈ h → run_callback o (rd s) (set_reads rs (set_writes ws s)) = (r, s', ev) →
      match r with Ok _ | Throw _ => True | _ => False end → client_step (h, s) (h ++ ev, s')
  | step_round h s dl ws s' ev :
      fresh s dl → round dl ws s = (Ok tt, s', ev) → client_step (h, s) (h ++ ev, s').

Definition new_client : state :=
  Mux_filter 0 0 false false [] false false [] None 0 0 false false false true false true [] [] new_client_part.

Definition client_reachable (h : list event) (s : state) : Prop := rtc client_step ([], new_client) (h, s).

(** [hc] is the history of the last connection. *)
Definition linked (h : list event) (s : state) : Prop :=
  ∃ d hc, watchable (M := M) d ∧ calm self d hc s ∧ sockets h = closes h ++ (if released s then [] else [d]).
Definition unlinked (h : list event) (s : state) : Prop :=
  down s ∧ mux_ok (the_mux s) ∧ sockets h = closes h ∧ On_assign ∉ h.

Lemma calm_ends d h (s : state) : calm self d h s → ends h = if released s then [Close d] else [].
Proof. intros [p (_ & _ & Hp)]. destruct p; cbn in Hp; destruct_and? Hp; by match goal with E : released s = _ |- _ => rewrite E end. Qed.

(** A step of the connection closes the descriptor when it releases it. *)
Lemma linked_calm d h hc ev (s s' : state) :
  watchable (M := M) d → calm self d hc s → calm self d (hc ++ ev) s' →
  sockets h = closes h ++ (if released s then [] else [d]) → linked (h ++ ev) s'.
Proof.
  intros Hd Hs Hs' Hh. exists d, (hc ++ ev). split; [done|]. split; [done|].
  pose proof (calm_ends d _ s Hs) as E. pose proof (calm_ends d _ s' Hs') as E'.
  rewrite ends_app, E in E'. rewrite sockets_app, closes_app, Hh, (sockets_ends ev), (closes_ends ev).
  destruct (released s), (released s'); cbn in E'; simplify_eq; try (rewrite E'; cbn); by rewrite ?app_nil_r.
Qed.

Lemma calm_rest d h (s : state) : calm self d h s → at_rest (M := M) (ext s) ∧ rd s = d ∧ wd s = d.
Proof. intros [p (Hw & _)]. split; [apply (wired_rest _ _ s Hw)|apply (wired_desc _ _ s Hw)]. Qed.

(** What the phases do not look at. *)
Lemma calm_frame d h p m ws (s : state) :
  calm self d h s → at_rest (M := M) p → mux_ok m → (∀ m1, mux s = Some m1 → ∀ k, interest m d k = interest m1 d k) →
  calm self d h (set_ext p (set_mux (Some m) (set_writes ws s))).
Proof.
  intros [q (Hw & Hrec & Hq)] Hp Hm Hi. exists q. split; [|by split].
  destruct Hw as [(m1 & Hm1 & _ & Hi1) ? ? ? _]. split; [|done..].
  exists m. split; [done|]. split; [done|]. intros k. by rewrite (Hi m1 Hm1), Hi1.
Qed.

Lemma callback_calm o d : watchable (M := M) d → triple (calm self d) (run_callback o d) (λ _, calm self d) (calm self d).
Proof.
  intros Hd. assert (∀ (m : prog event state unit) k, triple (calm self d) m (λ _, calm self d) (calm self d) →
    triple (calm self d) (p ← get_part _connect_in_progress; if p : bool then k else m) (λ _, calm self d) (calm self d)) as Hskip.
  { intros m k Hm h s Hs. unfold get_part. rewrite op_get_bind. rewrite (proj1 (proj1 (calm_rest d h s Hs))). by apply Hm. }
  destruct o; cbn [run_callback].
  - apply Hskip. by apply ready_read_calm.
  - apply Hskip. by apply ready_write_calm.
  - apply Hskip. by apply ready_urgent_calm.
  - eapply triple_bind; [by apply ready_error_calm|]. intros ?. apply Hskip. by apply triple_ret.
Qed.

Lemma status_released (s : state) : at_rest (M := M) (ext s) → client_status s = negb (released s).
Proof. intros [Hp _]. unfold client_status. by rewrite Hp. Qed.

Lemma linked_down h (s : state) : linked h s → released s = true → down s ∧ mux_ok (the_mux s) ∧ sockets h = closes h.
Proof.
  intros (d & hc & _ & [p Hp] & Hh) Hr. rewrite Hr, app_nil_r in Hh. split; [|split; [|done]].
  - apply (done_down d hc). destruct p; [..|done]; destruct Hp as (_ & _ & Hp); cbn in Hp; destruct_and? Hp; congruence.
  - destruct Hp as ([(m & Hm & Hok & _) _ _ _ _] & _). unfold the_mux. by rewrite Hm.
Qed.

Lemma client_write_calm d h p l (s : state) : life self d true 0 p h s → client_write self l s = _write self l s.
Proof.
  intros Hl. assert (_connect_in_progress (ext s) = false) as Hp by apply (wired_rest _ _ s (proj1 Hl)).
  unfold client_write, get_part. by rewrite op_get_bind, Hp, op_ret_bind_at, op_get_bind, Hp.
Qed.

(** The request goes out on the new connection, or the write of it throws. *)
Lemma request_sent d (s1 : state) :
  watchable (M := M) d → life self d true 0 Active (opening d) s1 → w_buffer s1 = [] →
  ∃ r s' ev hc, (client_write self request;; mret tt : prog event state unit) s1 = (r, s', ev) ∧
    calm self d hc s' ∧ ends hc = ends (opening d ++ ev) ∧ ((∃ x, r = Throw x) ∨ r = Ok tt ∧ hc = opening d ++ ev).
Proof.
  intros Hd Hl Hb. pose proof (client_write_calm d _ _ request s1 Hl) as E.
  destruct (write_any d (opening d) request s1 Hd Hl Hb) as [(rt & s' & ev & Ew & Hc)|(x & ws & ev & Ew & He)].
  - exists (Ok tt), s', ev, (opening d ++ ev). rewrite <-E in Ew. rewrite (op_bind_Ok _ _ _ _ _ _ Ew).
    split; [unfold mret, op_ret; by rewrite app_nil_r|]. split; [done|]. split; [done|]. by right.
  - exists (Throw x), (set_writes ws s1), ev, (opening d). rewrite <-E in Ew. rewrite (op_bind_Throw _ _ _ _ _ _ Ew).
    split; [done|]. split; [exists Active; by eapply life_frame; [exact Hl|..]; try done; apply Hl|].
    split; [by rewrite ends_app, He, app_nil_r|]. left. by exists x.
Qed.

Lemma round_down dl ws (s : state) : down s → round dl ws s = caught (session) (answers dl ws s).
Proof.
  intros Hd. unfold round, keep_connected. rewrite op_get_bind.
  rewrite (down_status (answers dl ws s)) by exact Hd. by rewrite bool_decide_false.
Qed.

(** A round without a connection. *)
Lemma round_step h dl ws (s s' : state) ev :
  unlinked h s ∨ linked h s → released s = true → fresh s dl → round dl ws s = (Ok tt, s', ev) →
  unlinked (h ++ ev) s' ∨ linked (h ++ ev) s'.
Proof.
  intros Hs Hrel Hf E.
  assert (down s ∧ mux_ok (the_mux s) ∧ sockets h = closes h) as (Hd & Hok & Hh).
  { destruct Hs as [(? & ? & ? & _)|?]; [done|by apply linked_down]. }
  rewrite (round_down _ _ _ Hd) in E. unfold caught in E.
  destruct (session_run dl ws s Hd Hok Hf) as [(d & b & s1 & -> & Hl & Hb & Hws & Er)|[(x & p & e & Er & Hp & He & Hno) _]]; rewrite Er in E.
  - assert (watchable (M := M) d) as Hwd by apply Hf.
    destruct (request_sent d s1 Hwd Hl Hb) as (r & s2 & ev2 & hc & E2 & Hc & Hhc & Hr). rewrite E2 in E.
    assert (s2 = s' ∧ (Socket d :: (if _nonblock (ext s) then [Nonblock d] else [])) ++ opening d ++ ev2 = ev) as [<- Hev]
      by (destruct Hr as [[x ->]|[-> _]]; by injection E as <- <-).
    right. exists d, hc. split; [done|]. split; [done|].
    pose proof (calm_ends d _ s2 Hc) as Hends. rewrite Hhc in Hends. set (e1 := opening d ++ ev2) in *.
    assert (ev = (Socket d :: if _nonblock (ext s) then [Nonblock d] else []) ++ e1) as -> by (by rewrite <-Hev).
    rewrite !sockets_app, !closes_app, Hh, (sockets_ends e1), (closes_ends e1), Hends.
    by destruct (_nonblock (ext s)), (released s2); cbn; rewrite ?app_nil_r, <-?app_assoc.
  - injection E as <- <-. destruct Hs as [(_ & _ & _ & Hna)|(d & hc & Hwd & Hc & Hh')].
    + left. split; [by apply down_ext|]. split; [exact Hok|].
      split; [by rewrite sockets_app, closes_app, Hh, He|set_solver].
    + right. exists d, hc. split; [done|]. split.
      * apply (calm_frame d hc p (the_mux s) ws s Hc Hp Hok). intros m1 Hm1 k. unfold the_mux. by rewrite Hm1.
      * cbn [released set_ext set_mux answers set_writes]. by rewrite sockets_app, closes_app, Hrel, Hh, He, app_nil_r.
Qed.

Lemma round_up dl ws (s : state) : client_status s = true → round dl ws s = (Ok tt, answers dl ws s, []).
Proof.
  intros Hst. unfold round, keep_connected. rewrite op_get_bind.
  change (client_status (answers dl ws s)) with (client_status s). rewrite Hst. by rewrite andb_false_r.
Qed.

Lemma client_step_ok x y :
  unlinked x.1 x.2 ∨ linked x.1 x.2 → client_step x y → unlinked y.1 y.2 ∨ linked y.1 y.2.
Proof.
  intros Hx Hxy. destruct Hxy as [h s m m' Hm Hok Hi|h s o ws rs r s' ev Ha E Hr|h s dl ws s' ev Hf E]; cbn [fst snd] in *.
  - destruct Hx as [(Hd & _ & Hh & Ha)|(d & hc & Hwd & Hc & Hh)]; [left; by split_and!|right].
    exists d, hc. split; [done|]. split; [|done]. destruct (calm_rest d hc s Hc) as (Hp & Hrd & _). rewrite Hrd in Hi.
    assert (set_mux (Some m') s = set_ext (ext s) (set_mux (Some m') (set_writes (writes s) s))) as -> by (by destruct s).
    apply calm_frame; [done..|]. intros m1 Hm1 k. rewrite Hi. congruence.
  - destruct Hx as [(_ & _ & _ & Hna)|(d & hc & Hwd & Hc & Hh)]; [done|right].
    destruct (calm_rest d hc s Hc) as (_ & Hrd & _). rewrite Hrd in E.
    pose proof (callback_calm o d Hwd hc _ (calm_os self d hc s ws rs Hc)) as Ht. rewrite E in Ht.
    apply (linked_calm d h hc ev s s'); [done..|by destruct r|done].
  - destruct (released s) eqn:Hrel; [by eapply round_step|].
    destruct Hx as [([Hr _] & _)|(d & hc & Hwd & Hc & Hh)]; [congruence|].
    destruct (calm_rest d hc s Hc) as (Hp & _). assert (client_status s = true) as Hst by (by rewrite status_released, Hrel).
    rewrite (round_up _ _ _ Hst) in E. injection E as <- <-. right. rewrite app_nil_r. exists d, hc. split; [done|]. split; [|exact Hh].
    pose proof Hc as [q ([(m & Hm & Hmok & _) _ _ _ _] & _)].
    assert (answers dl ws s = set_ext (set_dials [dl] (ext s)) (set_mux (Some m) (set_writes ws s))) as -> by (destruct s; cbn in *; by subst).
    apply calm_frame; [done..|]. intros m1 Hm1 k. congruence.
Qed.

Lemma client_reachable_ok h s : client_reachable h s → unlinked h s ∨ linked h s.
Proof.
  intros Hr. refine (rtc_keeps (λ x, unlinked x.1 x.2 ∨ linked x.1 x.2) client_step_ok _ _ Hr _).
  left. split; [by split_and!|]. split; [exact Hm0|]. split; [done|set_solver].
Qed.
End session.
End client.

(** ** Properties *)


(** A slave with an [epoller], and a name that always has an address. *)
Abbreviation slave_mux := (epoller (gmap Z Z)).
Definition no_mux : slave_mux := new_epoller ∅.
Definition resolve (addr : bytes) (port : Z) : res bytes := Ok addr.
Abbreviation slave_state := (mux_filter slave_mux client_part).
Abbreviation slave_reachable := (client_reachable 1 resolve no_mux (str "master") (str "hello") 22501 (str "s")).
Abbreviation slave_round := (round 1 resolve no_mux (str "master") (str "hello") 22501 (str "s")).

Lemma no_mux_ok : mux_ok no_mux.
Proof. split; [done|]. intros i _. apply lookup_empty. Qed.

(** The first connection, of whose request the kernel takes [n] bytes. *)
Definition first_round (n : nat) := slave_round (Dialled 5 (Ok tt) Connected) [Took n] new_client.

Lemma first_fresh : fresh no_mux new_client (Dialled 5 (Ok tt) Connected).
Proof. split; [done|]. split; [done|]. split; [by split|]. by intros []. Qed.

Lemma round_reachable n s ev :
  slave_round (Dialled 5 (Ok tt) Connected) [Took n] new_client = (Ok tt, s, ev) → slave_reachable ev s.
Proof.
  intros E. apply rtc_once. refine (step_round _ _ _ _ _ _ _ [] new_client _ _ s ev _ E). exact first_fresh.
Qed.

(** A callback after it. *)
Definition then_called (o : callback) (ws : list os_write) (rs : list os_read) (x : res unit * slave_state * list event) :=
  let '(r, s, ev) := run_callback 1 o (rd x.1.2) (set_reads rs (set_writes ws x.1.2)) in (r, s, x.2 ++ ev).

Lemma then_called_reachable o ws rs x :
  slave_reachable x.2 x.1.2 → On_assign ∈ x.2 → (then_called o ws rs x).1.1 = Ok tt →
  slave_reachable (then_called o ws rs x).2 (then_called o ws rs x).1.2.
Proof.
  intros Hx Ha Hr. eapply rtc_r; [exact Hx|]. unfold then_called in *.
  destruct (run_callback 1 o (rd x.1.2) _) as [[r s] ev] eqn:E. cbn [fst snd] in *. subst r.
  by eapply (step_callback 1 resolve no_mux (str "master") (str "hello") 22501 (str "s") x.2 x.1.2 o ws rs (Ok tt)).
Qed.

(** The master closes the connection. *)
Definition master_closed := then_called (Cb_read (λ _, [])) [] [Got []] (first_round 5).

Lemma master_closed_reachable : slave_reachable master_closed.2 master_closed.1.2.
Proof.
  apply then_called_reachable; [apply (round_reachable 5); vm_compute; reflexivity| |vm_compute; reflexivity].
  apply list_elem_of_In. vm_compute. auto 10.
Qed.


(**  A slave may never reconnect.  When the master goes away while a part
    of the request, or of an answer, is still in the buffer, the connection
    stays in its soft release for ever - neither status is left, nothing
    watches the descriptor -, and as [get_status] only asks whether it was
    released, every further round of the loop finds a connection. *)
Theorem slave_never_reconnects :
  ∃ h s m, slave_reachable h s ∧ r_status s = false ∧ w_status s = false ∧ mux s = Some m ∧
    (∀ k, interest m (rd s) k = None) ∧ watched (_depoll m) (rd s) = None ∧ closes h = [] ∧
    ∀ dl ws, slave_round dl ws s = (Ok tt, answers dl ws s, []).
Proof.
  set (x1 := then_called Cb_write [Write_failed Other_errno] [] (first_round 1)). set (x2 := then_called Cb_write [] [] x1).
  assert (slave_reachable x2.2 x2.1.2) as Hr.
  { apply then_called_reachable; [apply then_called_reachable; [apply (round_reachable 1)| |]| |]; try (vm_compute; reflexivity);
      apply list_elem_of_In; vm_compute; auto 10. }
  eexists x2.2, x2.1.2, _. split; [exact Hr|]. split; [vm_compute; reflexivity|]. split; [vm_compute; reflexivity|].
  split; [vm_compute; reflexivity|]. split; [by intros []; vm_compute|]. split; [vm_compute; reflexivity|].
  split; [vm_compute; reflexivity|]. intros dl ws. apply round_up. vm_compute. reflexivity.
Qed.

(** When the connection ends, the socket is closed first and shut down
    then: [client::_close] runs after [connection::_close].  Another thread
    that gets a descriptor in between gets this number, and its connection is
    shut down. *)
Theorem closed_socket_is_shut_down :
  ∃ h1 h2 s, slave_reachable (h1 ++ [Close 5; On_connection_close; Shutdown 5] ++ h2) s ∧ client_status s = false.
Proof.
  exists (take 14 master_closed.2), [], master_closed.1.2. split; [exact master_closed_reachable|vm_compute; reflexivity].
Qed.

(** [set_nonblock] comes after [connect], so the first connection of a slave
    keeps a blocking socket; the later ones do not. *)
Lemma first_connection_blocks :
  (∃ h s, slave_reachable h s ∧ client_status s = true ∧ ∀ d, Nonblock d ∉ h) ∧
  ∃ s' ev, slave_round (Dialled 6 (Ok tt) Connected) [Took 5] master_closed.1.2 = (Ok tt, s', ev) ∧ Nonblock 6 ∈ ev.
Proof.
  split.
  - exists (first_round 5).2, (first_round 5).1.2. split; [apply (round_reachable 5); vm_compute; reflexivity|].
    split; [vm_compute; reflexivity|]. intros d. rewrite list_elem_of_In. vm_compute. intros Hd. by destruct_or? Hd.
  - set (x := slave_round (Dialled 6 (Ok tt) Connected) [Took 5] master_closed.1.2).
    exists x.1.2, x.2. split; [vm_compute; reflexivity|]. apply list_elem_of_In. vm_compute. auto.
Qed.
