(* ===== verification/Server.v ===== *)
(** * Server: [fas/inet/pool.hpp] and [fas/inet/server.hpp]

    The pool that keeps the connection objects of a server for reuse, and the
    server that accepts descriptors and gives each to an object of the pool.
    Of a connection only this is left here: whether it has a descriptor, and
    that it closes the descriptor and calls [pool::free] exactly once when it
    is done ([MuxFilterSpec] proves that of the objects themselves). *)

From S2P Require Import Prelude Mux.

(** [Close] is what the kernel is told; the others are calls of advices. *)
Inductive event :=
  | Close (d : Z)
  | Assigned (i : nat) (d : Z)
  | On_server_start
  | On_server_accept (d : Z)
  | On_server_accept_error
  | On_server_stop.

Abbreviation io := (prog event).

(** ** The pool *)

(** Objects are named by their addresses; [_next] is what the next [new]
    returns. *)
(* src: fas/inet/pool.hpp 179-185 pool *)
Record pool := Pool {
  _active : gset nat;
  _pooled : gset nat;
  _queue : gset nat;
  _limit : Z;
  _next : nat;
}.

(* src: fas/inet/pool.hpp 42-46 pool::pool *)
Definition new_pool : pool := Pool ∅ ∅ ∅ (int_max ulong_t) 0.

Definition set_active (x : gset nat) (p : pool) : pool := Pool x (_pooled p) (_queue p) (_limit p) (_next p).
Definition set_pooled (x : gset nat) (p : pool) : pool := Pool (_active p) x (_queue p) (_limit p) (_next p).
Definition set_queue (x : gset nat) (p : pool) : pool := Pool (_active p) (_pooled p) x (_limit p) (_next p).
(* src: fas/inet/pool.hpp 171-175 pool::set_limit *)
Definition set_limit (v : Z) (p : pool) : pool := Pool (_active p) (_pooled p) (_queue p) v (_next p).

(** A [std::set] of pointers is walked in the order of the addresses. *)
Definition in_order (x : gset nat) : list nat := merge_sort Nat.le (elements x).
Definition count_of (x : gset nat) : Z := Z.of_nat (size x).

(* src: fas/inet/pool.hpp 159-163 pool::active_count *)
Definition active_count (p : pool) : Z := count_of (_active p).
(* src: fas/inet/pool.hpp 165-169 pool::pooled_count *)
Definition pooled_count (p : pool) : Z := count_of (_pooled p).
(* src: fas/inet/pool.hpp 153-157 pool::size *)
Definition pool_size (p : pool) : Z := active_count p + pooled_count p.

(* src: fas/inet/pool.hpp 98-102 pool::free *)
Definition free (item : nat) : io pool unit := op_modify (λ p, set_queue (_queue p ∪ {[item]}) p).

(** What throws leaves the rest of the queue neither active nor pooled. *)
(* src: fas/inet/pool.hpp 123-131 pool::_process_free *)
Fixpoint free_each (q : list nat) : io pool unit :=
  match q with
  | [] => mret tt
  | item :: q =>
      a ← op_get _active;
      if decide (item ∈ a) then
        op_modify (λ p, set_active (_active p ∖ {[item]}) (set_pooled (_pooled p ∪ {[item]}) p));;
        free_each q
      else op_lift (Throw (runtime_error (str "fas::inet::pool::free: item not found")))
  end.

(* src: fas/inet/pool.hpp 104-134 pool::_process_free *)
Definition process_free : io pool Z :=
  q ← op_get _queue;
  if decide (q = ∅) then op_get active_count
  else
    op_modify (set_queue ∅);;
    free_each (in_order q);;
    op_get active_count.

(* src: fas/inet/pool.hpp 76-96 pool::create *)
Definition create : io pool (option nat) :=
  process_free;;
  p ← op_get id;
  match in_order (_pooled p) with
  | [] =>
      if active_count p <? _limit p then
        let item := _next p in
        op_modify (λ p, Pool (_active p ∪ {[item]}) (_pooled p) (_queue p) (_limit p) (S item));;
        mret (Some item)
      else mret None
  | item :: _ =>
      op_modify (λ p, set_active (_active p ∪ {[item]}) (set_pooled (_pooled p ∖ {[item]}) p));;
      mret (Some item)
  end.

(* src: fas/inet/pool.hpp 71-74 pool::clear_pooled *)
Definition clear_pooled : io pool unit := op_modify (set_pooled ∅).

(** ** The server *)

(** [conns]: the descriptor of each object that has one; [open_fds]: the
    descriptors that the kernel keeps open for the server. *)
(* src: fas/inet/server.hpp 599-609 server_base *)
Record server (M : Type) := Server {
  _started : bool;
  _mux : option M;
  _listen : Z;
  _pool : pool;
  _max_connections : Z;
  conns : gmap nat Z;
  open_fds : gset Z;
}.
Arguments Server {M} _ _ _ _ _ _ _.
Arguments _started {M} _.
Arguments _mux {M} _.
Arguments _listen {M} _.
Arguments _pool {M} _.
Arguments _max_connections {M} _.
Arguments conns {M} _.
Arguments open_fds {M} _.

Section server.
Context {M : Type} `{Imux M}.

(** The observer that the server is. *)
Variable self : nat.

(* src: fas/inet/server.hpp 176-184 server_base::server_base *)
Definition new_server (mux : option M) : server M := Server false mux (-1) new_pool (int_max ulong_t) ∅ ∅.

Definition set_started (b : bool) (s : server M) : server M :=
  Server b (_mux s) (_listen s) (_pool s) (_max_connections s) (conns s) (open_fds s).
Definition set_the_mux (m : option M) (s : server M) : server M :=
  Server (_started s) m (_listen s) (_pool s) (_max_connections s) (conns s) (open_fds s).
Definition set_listen (d : Z) (s : server M) : server M :=
  Server (_started s) (_mux s) d (_pool s) (_max_connections s) (conns s) (open_fds s).
Definition set_pool (p : pool) (s : server M) : server M :=
  Server (_started s) (_mux s) (_listen s) p (_max_connections s) (conns s) (open_fds s).
(* src: fas/inet/server.hpp 229-233 server_base::set_max_connections *)
Definition set_max_connections (v : Z) (s : server M) : server M :=
  Server (_started s) (_mux s) (_listen s) (_pool s) v (conns s) (open_fds s).
Definition set_conns (c : gmap nat Z) (s : server M) : server M :=
  Server (_started s) (_mux s) (_listen s) (_pool s) (_max_connections s) c (open_fds s).
Definition set_open (o : gset Z) (s : server M) : server M :=
  Server (_started s) (_mux s) (_listen s) (_pool s) (_max_connections s) (conns s) o.

(** Calls of members. *)
Definition on_pool {A} (m : io pool A) : io (server M) A := λ s,
  let '(r, p, ev) := m (_pool s) in (r, set_pool p s, ev).
Definition on_mux (m : mux_op M) : io (server M) unit := λ s,
  match _mux s with
  | None => (Undef, s, [])
  | Some x =>
      match m x with
      | (Ok _, x', _) => (Ok tt, set_the_mux (Some x') s, [])
      | (Throw e, x', _) => (Throw e, set_the_mux (Some x') s, [])
      | (Undef, x', _) => (Undef, set_the_mux (Some x') s, [])
      | (NoFuel, x', _) => (NoFuel, set_the_mux (Some x') s, [])
      end
  end.

(** [asi::close]. *)
Definition close_fd (d : Z) : io (server M) unit :=
  op_emit (Close d);; op_modify (λ s, set_open (open_fds s ∖ {[d]}) s).

(** *** The connections *)

Definition assign (i : nat) (d : Z) : io (server M) unit :=
  op_modify (λ s, set_conns (<[i := d]> (conns s)) s);; op_emit (Assigned i d).

(** The object [i] is done: it closes its descriptor and goes back. *)
Definition conn_done (i : nat) : io (server M) unit :=
  c ← op_get conns;
  match c !! i with
  | Some d => op_modify (λ s, set_conns (delete i (conns s)) s);; close_fd d;; on_pool (free i)
  | None => mret tt
  end.

Fixpoint each_done (l : list nat) : io (server M) unit :=
  match l with [] => mret tt | i :: l => conn_done i;; each_done l end.

(** *** Operations *)

(** [socket] and [bound] are the outcomes of making the socket and of
    binding it and listening. *)
(* src: fas/inet/server.hpp 412-453 server_base::_start *)
Definition _start (socket : res Z) (bound : res unit) : io (server M) unit :=
  s ← op_get id;
  if _started s then mret tt
  else
    d ← op_lift socket;
    op_modify (λ s, set_open (open_fds s ∪ {[d]}) (set_listen d s));;
    op_lift bound;;
    s ← op_get id;
    (if bool_decide (is_Some (_mux s)) then on_mux (set_handler ReadK d (Some self)) else mret tt);;
    op_emit On_server_start;;
    op_modify (set_started true).

(* src: fas/inet/server.hpp 341-349 server_base::start_on_same_socket *)
Definition start_on_same_socket (listen : Z) : io (server M) unit :=
  s ← op_get id;
  if _started s then mret tt
  else
    op_modify (set_listen listen);;
    (if bool_decide (is_Some (_mux s)) then on_mux (set_handler ReadK listen (Some self)) else mret tt);;
    op_modify (set_started true).

(** [accepted] is what [asi::accept] returns, [None] being [SOCKET_ERROR].
    The options that are set on the descriptor have no effect here. *)
(* src: fas/inet/server.hpp 468-509 server_base::_accept *)
Definition _accept (accepted : option Z) : io (server M) (option nat) :=
  s ← op_get id;
  if negb (_started s) then mret None
  else match accepted with
  | Some d =>
      op_modify (λ s, set_open (open_fds s ∪ {[d]}) s);;
      if _max_connections s <=? active_count (_pool s) then close_fd d;; mret None
      else
        pc ← on_pool create;
        (match pc with Some i => assign i d | None => mret tt end);;
        op_emit (On_server_accept d);;
        mret pc
  | None => op_emit On_server_accept_error;; mret None
  end.

(** [release] of every object: those with a descriptor are done at once,
    unless they are in [soft]. *)
(* src: fas/inet/pool.hpp 207-211 pool::_release *)
Definition pool_release_items (soft : gset nat) : io (server M) unit :=
  p ← op_get _pool;
  each_done (filter (λ i, i ∉ soft) (in_order (_pooled p) ++ in_order (_active p))).

(* src: fas/inet/pool.hpp 62-69 pool::release *)
Definition pool_release (soft : gset nat) : io (server M) unit :=
  pool_release_items soft;; on_pool process_free;; mret tt.

(** One [_mux->select]: the objects that are done in it, and what it throws:
    the error of [epoll_wait] or what a handler of any client of the
    multiplexer has thrown ([epoller_select], [selector_select] of [Mux] let
    both through).  Without a multiplexer the null pointer is followed. *)
(* src: fas/inet/server.hpp 578-578 server_base::_stop *)
Definition select_call (woken : list nat) (failed : option exn) : io (server M) unit :=
  m ← op_get _mux;
  match m with
  | None => op_lift Undef
  | Some _ => each_done woken;; match failed with Some e => op_lift (Throw e) | None => mret tt end
  end.

(** [while ( _pool.process_free() > 0 ) _mux->select(-1);] where each round
    is the outcome of its [select]. *)
(* src: fas/inet/server.hpp 582-583 server_base::_stop *)
Fixpoint wait_free (rounds : list (list nat * option exn)) : io (server M) unit :=
  n ← on_pool process_free;
  if 0 <? n then
    match rounds with
    | [] => op_lift NoFuel
    | (woken, failed) :: rounds => select_call woken failed;; wait_free rounds
    end
  else mret tt.

(** [soft] are the objects with data left to write when they are released
    first, [woken] and [failed] the outcome of [_mux->select(0)]; a second
    [release] is never soft.  Nothing is caught. *)
(* src: fas/inet/server.hpp 561-596 server_base::_stop *)
Definition _stop (soft : gset nat) (woken : list nat) (failed : option exn)
    (rounds : list (list nat * option exn)) : io (server M) unit :=
  s ← op_get id;
  if negb (_started s) then mret tt
  else
    op_modify (set_started false);;
    (if negb (_listen s =? -1) then
       (if bool_decide (is_Some (_mux s)) then on_mux (reset_handler ReadK (_listen s)) else mret tt);;
       close_fd (_listen s);;
       op_modify (set_listen (-1))
     else mret tt);;
    pool_release soft;;
    (if bool_decide (is_Some (_mux s)) then select_call woken failed else mret tt);;
    n ← on_pool process_free;
    (if 0 <? n then
       pool_release ∅;;
       wait_free rounds;;
       a ← op_get (λ s, active_count (_pool s));
       if 0 <? a then op_lift (Throw (logic_error (str "hard server stop"))) else mret tt
     else mret tt);;
    op_emit On_server_stop.
End server.
