(* ===== verification/ServerSpec.v ===== *)
(** * ServerSpec: what the server does with descriptors and objects

    No object is given away twice, no descriptor is left open, the server
    stops; and two ways in which the limits break it. *)

From S2P Require Import Prelude Mux Server.

(** ** The pool *)

Record pool_ok (p : pool) : Prop := {
  pool_disjoint : _active p ## _pooled p;
  pool_queue : _queue p ⊆ _active p;
  pool_next i : i ∈ _active p ∪ _pooled p → (i < _next p)%nat;
}.

Lemma in_order_elem i x : i ∈ in_order x ↔ i ∈ x.
Proof. unfold in_order. by rewrite merge_sort_Permutation, elem_of_elements. Qed.
Lemma in_order_NoDup x : NoDup (in_order x).
Proof. unfold in_order. rewrite merge_sort_Permutation. apply NoDup_elements. Qed.
Lemma in_order_set x : list_to_set (in_order x) = x.
Proof. apply set_eq. intros i. by rewrite elem_of_list_to_set, in_order_elem. Qed.

Lemma free_each_run q p :
  NoDup q → (∀ i, i ∈ q → i ∈ _active p) →
  free_each q p = (Ok tt, set_active (_active p ∖ list_to_set q) (set_pooled (_pooled p ∪ list_to_set q) p), []).
Proof.
  revert p. induction q as [|i q IH]; intros p Hn Hq.
  { cbn. rewrite difference_empty_L, union_empty_r_L. by destruct p. }
  apply NoDup_cons in Hn as [Hi Hn]. cbn [free_each]. rewrite op_get_bind.
  rewrite decide_True by (apply Hq; left). rewrite op_modify_bind, IH; [|done|].
  - f_equal. f_equal. unfold set_active, set_pooled. cbn. f_equal; set_solver.
  - intros j Hj. cbn. apply elem_of_difference. split; [apply Hq; by right|]. set_solver.
Qed.

(** What [_process_free] leaves. *)
Definition freed (p : pool) : pool := Pool (_active p ∖ _queue p) (_pooled p ∪ _queue p) ∅ (_limit p) (_next p).

Lemma process_free_run p : _queue p ⊆ _active p → process_free p = (Ok (active_count (freed p)), freed p, []).
Proof.
  intros Hq. unfold process_free. rewrite op_get_bind. destruct (decide (_queue p = ∅)) as [He|Hne].
  - cbn. unfold freed, active_count. rewrite He, difference_empty_L, union_empty_r_L. destruct p; cbn in *. by subst.
  - rewrite op_modify_bind.
    assert (∀ i, i ∈ in_order (_queue p) → i ∈ _active (set_queue ∅ p)) as Hin by (intros i Hi%in_order_elem; by apply Hq).
    rewrite (op_bind_Ok _ _ _ _ _ _ (free_each_run _ _ (in_order_NoDup _) Hin)). cbn. by rewrite in_order_set.
Qed.

Lemma freed_ok p : pool_ok p → pool_ok (freed p).
Proof.
  intros [Hd Hq Hn]. split; cbn; [set_solver|set_solver|]. intros i Hi. apply Hn. set_solver.
Qed.

(** The object that [create] hands out: one that nobody has. *)
Lemma create_run p :
  pool_ok p → active_count (freed p) < _limit p →
  ∃ i p', create p = (Ok (Some i), p', []) ∧ pool_ok p' ∧ i ∉ _active (freed p) ∧
    _active p' = _active (freed p) ∪ {[i]} ∧ _queue p' = ∅ ∧ _limit p' = _limit p.
Proof.
  intros Hp Hlim. pose proof (freed_ok p Hp) as [Hd Hq Hn]. unfold create.
  rewrite (op_bind_Ok _ _ _ _ _ _ (process_free_run p (pool_queue _ Hp))), op_get_bind. cbn [id].
  destruct (in_order (_pooled (freed p))) as [|i l] eqn:Hpl.
  - assert (active_count (freed p) <? _limit (freed p) = true) as -> by (by apply Z.ltb_lt).
    assert (_next p ∉ _active (freed p) ∪ _pooled (freed p)) as Hfresh by (intros Hi%Hn; cbn in Hi; lia).
    assert (_pooled (freed p) = ∅) as He by (rewrite <-(in_order_set (_pooled (freed p))); by rewrite Hpl).
    eexists _, _. split; [cbn; reflexivity|]. split_and!; [|set_solver|done|done|done].
    split; cbn in *; [set_solver|set_solver|]. intros i Hi. rewrite He in Hi. destruct (decide (i = _next p)) as [->|]; [lia|].
    assert (i < _next p)%nat; [apply Hn; set_solver|lia].
  - assert (i ∈ _pooled (freed p)) as Hi by (rewrite <-in_order_elem, Hpl; left).
    eexists _, _. split; [cbn; reflexivity|]. split_and!; [|set_solver|done|done|done].
    split; cbn in *; [set_solver|set_solver|]. intros j Hj. apply Hn. set_solver.
Qed.

(** ** The server *)

Definition closes (h : list event) : list Z := omap (λ e, match e with Close d => Some d | _ => None end) h.

Section server.
Context {M : Type} `{ImuxLaws M} (self : nat).
Implicit Types s : server M.

(** Every descriptor that is open is the listening one or belongs to one
    object; the objects that have one are those that are active and have not
    been freed. *)
Record server_ok s : Prop := {
  ok_pool : pool_ok (_pool s);
  ok_dom : dom (conns s) = _active (_pool s) ∖ _queue (_pool s);
  ok_inj i j d : conns s !! i = Some d → conns s !! j = Some d → i = j;
  ok_open d : d ∈ open_fds s ↔ (d = _listen s ∧ d ≠ -1) ∨ ∃ i, conns s !! i = Some d;
  ok_listen i d : conns s !! i = Some d → d ≠ _listen s ∧ d ≠ -1;
  ok_limit : _max_connections s <= _limit (_pool s);
  ok_started : _started s = true → _listen s ≠ -1;
  ok_mux m : _mux s = Some m → mux_ok m ∧ (_started s = true → interest m (_listen s) ReadK = Some self);
}.

(** What stays when connections are done. *)
Definition settled s s' : Prop :=
  _started s' = _started s ∧ _mux s' = _mux s ∧ _listen s' = _listen s ∧ _max_connections s' = _max_connections s ∧
  _active (_pool s') = _active (_pool s) ∧ _limit (_pool s') = _limit (_pool s).

Lemma settled_refl s : settled s s.
Proof. by split_and!. Qed.
Lemma settled_trans s1 s2 s3 : settled s1 s2 → settled s2 s3 → settled s1 s3.
Proof. intros (?&?&?&?&?&?) (?&?&?&?&?&?). split_and!; congruence. Qed.

(** The descriptors that the events close are those that are no longer open. *)
Definition accounts (s : server M) (ev : list event) (s' : server M) : Prop :=
  elements (open_fds s) ≡ₚ closes ev ++ elements (open_fds s').

Lemma accounts_refl s : accounts s [] s.
Proof. by unfold accounts. Qed.
Lemma accounts_trans s1 s2 s3 ev1 ev2 : accounts s1 ev1 s2 → accounts s2 ev2 s3 → accounts s1 (ev1 ++ ev2) s3.
Proof. unfold accounts, closes. intros -> ->. by rewrite omap_app, app_assoc. Qed.

Lemma conn_done_run i s :
  server_ok s → ∃ s' ev, conn_done i s = (Ok tt, s', ev) ∧ server_ok s' ∧ conns s' = delete i (conns s) ∧
    settled s s' ∧ accounts s ev s'.
Proof.
  intros Hs. unfold conn_done. rewrite op_get_bind. destruct (conns s !! i) as [d|] eqn:Hi.
  2:{ exists s, []. split; [done|]. split; [done|]. split; [by rewrite delete_id|]. split; [apply settled_refl|apply accounts_refl]. }
  rewrite op_modify_bind. eexists _, _. split; [cbn; reflexivity|].
  pose proof Hs as [[Hd Hq Hn] Hdom Hinj Hop Hl Hlim Hst Hmux].
  assert (i ∈ _active (_pool s) ∖ _queue (_pool s)) as Hin by (rewrite <-Hdom; by apply elem_of_dom).
  split; [|split; [done|split; [by split_and!|]]].
  - split; cbn; try done.
    + split; cbn; [done|set_solver|done].
    + rewrite dom_delete_L, Hdom. set_solver.
    + intros j j' d' Hj Hj'. rewrite lookup_delete_Some in Hj. rewrite lookup_delete_Some in Hj'. by eapply Hinj; [apply Hj|apply Hj'].
    + intros d'. rewrite elem_of_difference, not_elem_of_singleton, Hop. split.
      * intros [[?|[j Hj]] Hne]; [by left|right]. exists j. apply lookup_delete_Some. split; [|done].
        intros <-. congruence.
      * intros [[-> Hne]|[j Hj]].
        -- split; [by left|]. destruct (Hl i d Hi); congruence.
        -- apply lookup_delete_Some in Hj as [Hne Hj]. split; [right; eauto|]. intros ->. by apply Hne, (Hinj i j d).
    + intros j d' Hj. apply lookup_delete_Some in Hj as [_ Hj]. by eapply Hl.
  - unfold accounts. cbn. assert (d ∈ open_fds s) as Hdo by (apply Hop; right; eauto).
    rewrite (union_difference_L {[d]} (open_fds s)) at 1 by set_solver.
    rewrite elements_disj_union, elements_singleton by set_solver. done.
Qed.

Lemma each_done_run l s :
  server_ok s → ∃ s' ev, each_done l s = (Ok tt, s', ev) ∧ server_ok s' ∧
    (∀ i d, conns s' !! i = Some d ↔ conns s !! i = Some d ∧ i ∉ l) ∧ settled s s' ∧ accounts s ev s'.
Proof.
  revert s. induction l as [|i l IH]; intros s Hs.
  { exists s, []. split; [done|]. split; [done|]. split; [set_solver|]. split; [apply settled_refl|apply accounts_refl]. }
  destruct (conn_done_run i s Hs) as (s1 & ev1 & E1 & Hs1 & Hc1 & Hset1 & Hacc1).
  destruct (IH s1 Hs1) as (s2 & ev2 & E2 & Hs2 & Hc2 & Hset2 & Hacc2).
  exists s2, (ev1 ++ ev2). cbn [each_done]. rewrite (op_bind_Ok _ _ _ _ _ _ E1), E2.
  split; [done|]. split; [done|]. split.
  - intros j d. rewrite Hc2, Hc1, lookup_delete_Some, not_elem_of_cons. naive_solver.
  - split; [by eapply settled_trans|by eapply accounts_trans].
Qed.

(** Changing the pool alone. *)
Lemma pool_changed s p :
  server_ok s → pool_ok p → _active p ∖ _queue p = _active (_pool s) ∖ _queue (_pool s) → _limit p = _limit (_pool s) →
  server_ok (set_pool p s).
Proof. intros [] Hp Hd Hl. split; cbn; try done; congruence. Qed.

Lemma on_pool_run {A} (m : io pool A) s r p ev : m (_pool s) = (r, p, ev) → on_pool m s = (r, set_pool p s, ev).
Proof. intros Hm. unfold on_pool. by rewrite Hm. Qed.

Lemma on_pool_free s :
  server_ok s → on_pool process_free s = (Ok (active_count (freed (_pool s))), set_pool (freed (_pool s)) s, []) ∧
    server_ok (set_pool (freed (_pool s)) s).
Proof.
  intros Hs. split; [by apply on_pool_run, process_free_run, ok_pool|].
  apply pool_changed; [done|by apply freed_ok, ok_pool|cbn; by rewrite difference_empty_L|done].
Qed.

(** What [ready_read] of the listening descriptor does. *)
Lemma accept_run s a :
  server_ok s → (∀ d, a = Some d → d ≠ -1 ∧ d ∉ open_fds s) →
  ∃ r s' ev, _accept a s = (Ok r, s', ev) ∧ server_ok s' ∧
    match r with
    | Some i => _started s = true ∧ ∃ d, a = Some d ∧ conns s !! i = None ∧ conns s' = <[i := d]> (conns s) ∧
                  active_count (_pool s) < _max_connections s ∧ ev = [Assigned i d; On_server_accept d] ∧
                  active_count (_pool s') <= _max_connections s
    | None => conns s' = conns s ∧ _pool s' = _pool s ∧
              (∀ d, _started s = true → a = Some d → ev = [Close d] ∧ _max_connections s <= active_count (_pool s))
    end ∧ _started s' = _started s ∧ _listen s' = _listen s ∧ _max_connections s' = _max_connections s.
Proof.
  intros Hs Ha. unfold _accept. rewrite op_get_bind. cbn [id].
  destruct (_started s) eqn:Hst; cbn [negb].
  2:{ exists None, s, []. split_and!; try done. }
  destruct a as [d|].
  2:{ eexists None, s, _. split; [cbn; reflexivity|]. by split_and!. }
  destruct (Ha d eq_refl) as [Hd1 Hd]. rewrite op_modify_bind.
  set (s1 := set_open (open_fds s ∪ {[d]}) s).
  destruct (Z.leb_spec (_max_connections s) (active_count (_pool s))) as [Hfull|Hroom].
  - eexists None, _, _. split; [cbn; reflexivity|].
    assert (set_open (open_fds s1 ∖ {[d]}) s1 = s) as -> by (destruct s; unfold s1, set_open; cbn in *; f_equal; set_solver).
    split; [done|]. split; [|done]. split; [done|]. split; [done|]. by intros d' _ [= <-].
  - pose proof (ok_pool s Hs) as Hp.
    assert (active_count (freed (_pool s)) <= active_count (_pool s)) as Hle.
    { unfold active_count, count_of. cbn. apply inj_le, subseteq_size. set_solver. }
    destruct (create_run (_pool s) Hp) as (i & p' & Ec & Hp' & Hi & Hact & Hqueue & Hlim).
    { pose proof (ok_limit s Hs). lia. }
    rewrite (op_bind_Ok _ _ _ _ _ _ (on_pool_run create s1 _ _ _ Ec)).
    eexists (Some i), _, _. split; [cbn; reflexivity|].
    assert (conns s !! i = None) as Hci.
    { apply not_elem_of_dom. rewrite (ok_dom s Hs). exact Hi. }
    pose proof Hs as [_ Hdom Hinj Hop Hl Hlimit Hstarted Hmux]. split; [split; cbn|].
    + done.
    + rewrite dom_insert_L, Hdom, Hact, Hqueue. cbn. set_solver.
    + intros j j' d'. rewrite !lookup_insert_Some. intros [ [<- <-] | [Hne Hj] ] [ [<- Hdd] | [Hne2 Hj2] ]; [done|..].
      * exfalso. apply Hd, Hop. right. eauto.
      * subst. exfalso. apply Hd, Hop. right. eauto.
      * by eapply Hinj.
    + intros d'. rewrite elem_of_union, Hop, elem_of_singleton. split.
      * intros [ [?|[j Hj]] | -> ]; [by left|right|right].
        -- exists j. apply lookup_insert_Some. right. split; [congruence|done].
        -- exists i. apply lookup_insert_eq.
      * intros [?|[j Hj]]; [left; by left|]. apply lookup_insert_Some in Hj as [ [_ <-] | [_ Hj] ]; [by right|left; right; eauto].
    + intros j d'. rewrite lookup_insert_Some. intros [ [_ <-] | [_ Hj] ]; [|by eapply Hl].
      split; [|done]. intros ->. apply Hd, Hop. left. split; [done|by apply Hstarted].
    + congruence.
    + done.
    + done.
    + split; [|done]. split; [done|]. exists d. split_and!; [done|done|done|done|done|].
      cbn. unfold active_count, count_of in *. rewrite Hact, size_union by set_solver. rewrite size_singleton. lia.
Qed.

Lemma freed_active p : _queue p = ∅ → freed p = p.
Proof. intros Hq. destruct p; cbn in *. subst. unfold freed; cbn. by rewrite difference_empty_L, union_empty_r_L. Qed.

(** [pool::release]: what is left are the objects that are still writing. *)
Lemma pool_release_run soft s :
  server_ok s → ∃ s' ev, pool_release soft s = (Ok tt, s', ev) ∧ server_ok s' ∧
    (∀ i d, conns s' !! i = Some d ↔ conns s !! i = Some d ∧ i ∈ soft) ∧ _queue (_pool s') = ∅ ∧
    (_started s' = _started s ∧ _mux s' = _mux s ∧ _listen s' = _listen s) ∧ accounts s ev s'.
Proof.
  intros Hs. unfold pool_release, pool_release_items.
  set (l := filter (λ i, i ∉ soft) (in_order (_pooled (_pool s)) ++ in_order (_active (_pool s)))).
  destruct (each_done_run l s Hs) as (s1 & ev & E & Hs1 & Hc & (Hst & Hmux & Hl & _) & Hacc).
  assert ((op_get _pool ≫= λ p, each_done (filter (λ i, i ∉ soft) (in_order (_pooled p) ++ in_order (_active p)))) s
          = (Ok tt, s1, ev)) as E' by (by rewrite op_get_bind).
  rewrite (op_bind_Ok _ _ _ _ _ _ E'). destruct (on_pool_free s1 Hs1) as [Ef Hs2].
  rewrite (op_bind_Ok _ _ _ _ _ _ Ef). eexists _, _. split; [cbn; reflexivity|]. split; [done|]. split_and!; try done.
  - cbn. intros i d. rewrite Hc. split; intros [Hi Hin]; (split; [done|]).
    + destruct (decide (i ∈ soft)) as [|Hn]; [done|]. exfalso. apply Hin. unfold l. apply list_elem_of_filter. split; [done|].
      apply elem_of_app. right. apply in_order_elem. assert (i ∈ dom (conns s)) as Hd by (by apply elem_of_dom).
      rewrite (ok_dom s Hs) in Hd. set_solver.
    + unfold l. rewrite list_elem_of_filter. tauto.
  - unfold accounts. cbn. rewrite app_nil_r. exact Hacc.
Qed.

Lemma no_conns_active s : server_ok s → _queue (_pool s) = ∅ → _active (_pool s) = dom (conns s).
Proof. intros Hs Hq. rewrite (ok_dom s Hs), Hq. set_solver. Qed.

(** The first part of [_stop]: the listening descriptor. *)
Definition stop_listening : io (server M) unit :=
  s ← op_get id;
  op_modify (set_started false);;
  (if negb (_listen s =? -1) then
     (if bool_decide (is_Some (_mux s)) then on_mux (reset_handler ReadK (_listen s)) else mret tt);;
     close_fd (_listen s);;
     op_modify (set_listen (-1))
   else mret tt).

Lemma stop_listening_run s :
  server_ok s → _started s = true →
  ∃ s' ev, stop_listening s = (Ok tt, s', ev) ∧ server_ok s' ∧ _started s' = false ∧ _listen s' = -1 ∧
    conns s' = conns s ∧ (bool_decide (is_Some (_mux s')) = bool_decide (is_Some (_mux s))) ∧ accounts s ev s'.
Proof.
  intros Hs Hst. pose proof Hs as [Hp Hdom Hinj Hop Hl Hlim Hstarted Hmux].
  specialize (Hstarted Hst). unfold stop_listening. rewrite op_get_bind, op_modify_bind. cbn [id].
  destruct (Z.eqb_spec (_listen s) (-1)) as [|_]; [done|]. cbn [negb].
  assert (∃ m', (∀ m, m' = Some m → mux_ok m) ∧ bool_decide (is_Some m') = bool_decide (is_Some (_mux s)) ∧
    ((if bool_decide (is_Some (_mux s)) then on_mux (reset_handler ReadK (_listen s)) else mret tt) : io (server M) unit)
      (set_started false s) = (Ok tt, set_the_mux m' (set_started false s), [])) as (m' & Hm' & Hsome & Em).
  { destruct (_mux s) as [m|] eqn:Hm.
    - destruct (Hmux m eq_refl) as [Hok Hi].
      destruct (reset_ok m ReadK (_listen s) self Hok (Hi Hst)) as (r & m1 & E & Hok1 & _).
      exists (Some m1). split; [by intros ? [= <-]|]. split; [done|]. cbn. unfold on_mux. cbn. by rewrite Hm, E.
    - exists None. split; [done|]. split; [done|]. cbn. unfold set_the_mux, set_started. cbn. by rewrite Hm. }
  rewrite (op_bind_Ok _ _ _ _ _ _ Em). eexists _, _. split; [cbn; reflexivity|]. split; [split; cbn; try done|].
  - intros d. rewrite elem_of_difference, Hop, not_elem_of_singleton. split.
    + intros [[[? _]|[j Hj]] Hne]; [done|right; eauto].
    + intros [[? ?]|[j Hj]]; [congruence|]. split; [right; eauto|]. by eapply Hl.
  - intros j d Hj. split; by eapply Hl.
  - intros m Hm. split; [by apply Hm'|done].
  - split; [done|]. split; [done|]. split; [done|]. split; [done|].
    unfold accounts. cbn. assert (_listen s ∈ open_fds s) as Hlo by (apply Hop; by left).
    rewrite (union_difference_L {[_listen s]} (open_fds s)) at 1 by set_solver.
    by rewrite elements_disj_union, elements_singleton by set_solver.
Qed.

(** The second part: whoever is still writing is closed. *)
Lemma stop_rest_run rounds s :
  server_ok s →
  ∃ s' ev, (n ← on_pool process_free;
            if 0 <? n then
              pool_release ∅;;
              wait_free rounds;;
              a ← op_get (λ s, active_count (_pool s));
              if 0 <? a then op_lift (Throw (logic_error (str "hard server stop"))) else mret tt
            else mret tt) s = (Ok tt, s', ev) ∧
    server_ok s' ∧ conns s' = ∅ ∧ _active (_pool s') = ∅ ∧ _started s' = _started s ∧ _listen s' = _listen s ∧ accounts s ev s'.
Proof.
  intros Hs. destruct (on_pool_free s Hs) as [Ef Hs1]. rewrite (op_bind_Ok _ _ _ _ _ _ Ef).
  set (s1 := set_pool (freed (_pool s)) s) in *.
  assert (_active (_pool s1) = dom (conns s1)) as Hact by (by apply no_conns_active).
  destruct (Z.ltb_spec 0 (active_count (freed (_pool s)))) as [Hpos|Hzero].
  - destruct (pool_release_run ∅ s1 Hs1) as (s2 & ev2 & E2 & Hs2 & Hc2 & Hq2 & (Hst2 & _ & Hl2) & Hacc2).
    assert (conns s2 = ∅) as Hnone.
    { apply map_empty. intros i. destruct (conns s2 !! i) as [d|] eqn:Hi; [|done]. apply Hc2 in Hi as [_ Hi]. set_solver. }
    assert (_active (_pool s2) = ∅) as Hact2 by (rewrite (no_conns_active s2 Hs2 Hq2), Hnone; apply dom_empty_L).
    rewrite (op_bind_Ok _ _ _ _ _ _ E2).
    assert (wait_free rounds s2 = (Ok tt, s2, [])) as Ew.
    { destruct (on_pool_free s2 Hs2) as [Ef2 _].
      assert (set_pool (freed (_pool s2)) s2 = s2) as Hid by (rewrite freed_active by done; by destruct s2).
      rewrite Hid in Ef2. assert (active_count (freed (_pool s2)) = 0) as Hn.
      { unfold active_count, count_of. cbn [freed _active]. rewrite Hact2. by replace (∅ ∖ _queue (_pool s2)) with (∅ : gset nat) by set_solver. }
      destruct rounds; cbn [wait_free]; by rewrite (op_bind_Ok _ _ _ _ _ _ Ef2), Hn. }
    rewrite (op_bind_Ok _ _ _ _ _ _ Ew), op_get_bind.
    unfold active_count at 1, count_of. rewrite Hact2. eexists _, _. split; [cbn; reflexivity|].
    split_and!; try done. unfold accounts in *. rewrite !app_nil_r. exact Hacc2.
  - exists s1, []. split; [done|].
    assert (dom (conns s1) = ∅) as Hd.
    { rewrite <-Hact. apply leibniz_equiv, size_empty_inv. unfold active_count, count_of in Hzero. unfold s1. cbn in *. lia. }
    split; [exact Hs1|]. split; [by apply dom_empty_inv_L in Hd|]. split; [by rewrite Hact|]. split; [done|]. split; [done|].
    apply (accounts_refl s).
Qed.

Lemma select_call_run woken failed s m :
  server_ok s → _mux s = Some m →
  ∃ s' ev, select_call woken failed s = (match failed with Some e => Throw e | None => Ok tt end, s', ev) ∧
    server_ok s' ∧ (∀ i d, conns s' !! i = Some d ↔ conns s !! i = Some d ∧ i ∉ woken) ∧ settled s s' ∧ accounts s ev s'.
Proof.
  intros Hs Hm. destruct (each_done_run woken s Hs) as (s' & ev & E & Hs' & Hc & Hset & Hacc).
  exists s', ev. split; [|done]. unfold select_call. rewrite op_get_bind, Hm, (op_bind_Ok _ _ _ _ _ _ E).
  destruct failed; cbn; by rewrite app_nil_r.
Qed.

(** Only the connections have a descriptor when nothing listens. *)
Lemma unheard_open s d : server_ok s → _listen s = -1 → d ∈ open_fds s ↔ ∃ i, conns s !! i = Some d.
Proof. intros Hs Hl. rewrite (ok_open s Hs). naive_solver. Qed.

Lemma stop_again soft woken failed rounds s :
  _started s = false → _stop soft woken failed rounds s = (Ok tt, s, []).
Proof. intros Hst. unfold _stop. rewrite op_get_bind. cbn [id]. by rewrite Hst. Qed.

(** Everything up to the end of [_mux->select(0)]. *)
Lemma stop_run soft woken failed rounds s :
  server_ok s → _started s = true →
  ∃ r s' ev, _stop soft woken failed rounds s = (r, s', ev) ∧ server_ok s' ∧ _started s' = false ∧ _listen s' = -1 ∧
    accounts s ev s' ∧
    match _mux s, failed with
    | Some _, Some e => r = Throw e ∧ ∀ i d, conns s' !! i = Some d ↔ conns s !! i = Some d ∧ i ∈ soft ∧ i ∉ woken
    | _, _ => r = Ok tt ∧ conns s' = ∅ ∧ _active (_pool s') = ∅
    end.
Proof.
  intros Hs Hst. unfold _stop. rewrite op_get_bind. cbn [id]. rewrite Hst. cbn [negb].
  destruct (stop_listening_run s Hs Hst) as (s1 & ev1 & E1 & Hs1 & Hst1 & Hl1 & Hc1 & Hm1 & Hacc1).
  unfold stop_listening in E1. rewrite op_get_bind in E1. cbn [id] in E1.
  rewrite <-(equiv_at (op_bind_assoc _ _ _)), (op_bind_Ok _ _ _ _ _ _ E1).
  destruct (pool_release_run soft s1 Hs1) as (s2 & ev2 & E2 & Hs2 & Hc2 & Hq2 & (Hst2 & Hm2 & Hl2) & Hacc2).
  rewrite (op_bind_Ok _ _ _ _ _ _ E2).
  pose proof (accounts_trans _ _ _ _ _ Hacc1 Hacc2) as Hacc12.
  set (rest := n ← on_pool process_free; _).
  assert (∀ s3 ev3, (if bool_decide (is_Some (_mux s)) then select_call woken failed else mret tt) s2 = (Ok tt, s3, ev3) →
    server_ok s3 → settled s2 s3 → accounts s2 ev3 s3 →
    ∃ s' ev, ((if bool_decide (is_Some (_mux s)) then select_call woken failed else mret tt) ≫= λ _, rest) s2 = (Ok tt, s', ev) ∧
      server_ok s' ∧ _started s' = false ∧ _listen s' = -1 ∧ accounts s (ev1 ++ ev2 ++ ev) s' ∧
      Ok tt = Ok tt ∧ conns s' = ∅ ∧ _active (_pool s') = ∅) as Hgoes.
  { intros s3 ev3 E3 Hs3 (Hst3 & _ & Hl3 & _) Hacc3. rewrite (op_bind_Ok _ _ _ _ _ _ E3). unfold rest.
    destruct (stop_rest_run rounds s3 Hs3) as (s4 & ev4 & E4 & Hs4 & Hc4 & Ha4 & Hst4 & Hl4 & Hacc4).
    rewrite <-(equiv_at (op_bind_assoc _ _ _)), (op_bind_Ok _ _ _ _ _ _ E4).
    eexists _, _. split; [cbn; reflexivity|]. split_and!; try done; [congruence|congruence|].
    pose proof (accounts_trans _ _ _ _ _ Hacc12 (accounts_trans _ _ _ _ _ Hacc3 Hacc4)) as Hacc.
    unfold accounts, closes in *. rewrite Hacc, !omap_app. cbn. by rewrite !app_nil_r, <-!app_assoc. }
  destruct (_mux s) as [m|] eqn:Hm.
  - assert (∃ m2, _mux s2 = Some m2) as [m2 Hm2'].
    { rewrite Hm2. by apply bool_decide_eq_true in Hm1. }
    destruct (select_call_run woken failed s2 m2 Hs2 Hm2') as (s3 & ev3 & E3 & Hs3 & Hc3 & Hset3 & Hacc3).
    change (bool_decide (is_Some (Some m))) with true in *. destruct failed as [e|].
    + rewrite (op_bind_Throw _ _ _ _ _ _ E3). eexists _, _, _. split; [reflexivity|].
      destruct Hset3 as (Hst3 & _ & Hl3 & _). split_and!; [done|congruence|congruence| |done|].
      * rewrite app_assoc. by eapply accounts_trans.
      * intros i d. rewrite Hc3, Hc2, Hc1. tauto.
    + destruct (Hgoes s3 ev3 E3 Hs3 Hset3 Hacc3) as (s' & ev & E & Hk). rewrite E.
      eexists _, _, _. by split; [reflexivity|exact Hk].
  - change (bool_decide (is_Some (@None M))) with false in *.
    destruct (Hgoes s2 []) as (s' & ev & E & Hk); [done|done|apply settled_refl|apply accounts_refl|].
    rewrite E. eexists _, _, _. by split; [reflexivity|exact Hk].
Qed.
End server.

(** ** Runs *)

Section runs.
Context {M : Type} `{ImuxLaws M} (self : nat).
Implicit Types s : server M.

(** The listening descriptor is ready, or a connection is done. *)
Inductive server_step : list event * server M → list event * server M → Prop :=
  | step_accept h s a r s' ev :
      (∀ d, a = Some d → d ≠ -1 ∧ d ∉ open_fds s) → _accept a s = (r, s', ev) → server_step (h, s) (h ++ ev, s')
  | step_done h s i r s' ev : conn_done i s = (r, s', ev) → server_step (h, s) (h ++ ev, s').

(** A server for at most [v] connections that listens on [d]. *)
Definition started (mux : option M) (v d : Z) : server M :=
  (_start self (Ok d) (Ok tt) (set_max_connections v (new_server mux))).1.2.

Definition startable (mux : option M) (v d : Z) : Prop :=
  0 <= v <= int_max ulong_t ∧ watchable (M := M) d ∧
  ∀ m, mux = Some m → mux_ok m ∧ ∀ k, interest m d k = None.

Lemma started_ok mux v d : startable mux v d → server_ok self (started mux v d) ∧ _started (started mux v d) = true ∧
  _max_connections (started mux v d) = v ∧ _active (_pool (started mux v d)) = ∅.
Proof.
  intros ((Hv1 & Hv2) & Hd & Hm). pose proof Hd as [Hd0 _].
  set (s1 := set_open (∅ ∪ {[d]}) (set_listen d (set_max_connections v (new_server mux)))).
  assert (∃ m', (∀ m, m' = Some m → mux_ok m ∧ interest m d ReadK = Some self) ∧
    ((if bool_decide (is_Some mux) then on_mux (set_handler ReadK d (Some self)) else mret tt) : io (server M) unit) s1
    = (Ok tt, set_the_mux m' s1, [])) as (m' & Hm' & Em).
  { destruct mux as [m|].
    - destruct (Hm m eq_refl) as [Hok Hi]. destruct (set_ok m ReadK d self Hok Hd) as (r & m1 & E & Hok1 & Hi1); [by left|].
      exists (Some m1). split; [|cbn; unfold on_mux; cbn; by rewrite E].
      intros m' [= <-]. split; [done|]. rewrite Hi1. by rewrite decide_True.
    - exists None. by split. }
  assert (started mux v d = Server true m' d new_pool v ∅ (∅ ∪ {[d]})) as ->.
  { unfold started, _start. rewrite op_get_bind. cbn [id _started set_max_connections new_server].
    rewrite (equiv_at (op_lift_bind _ _)), op_modify_bind, (equiv_at (op_lift_bind _ _)), op_get_bind.
    cbn [id]. change (open_fds _) with (∅ : gset Z).
    rewrite (op_bind_Ok _ _ _ _ _ _ Em). reflexivity. }
  split; [|done]. split; cbn [_pool conns open_fds _listen _max_connections _started _mux].
  - split; cbn [new_pool _active _pooled _queue]; [set_solver|set_solver|]. intros i. set_solver.
  - cbn [new_pool _active _queue]. set_solver.
  - intros i j d'. by rewrite lookup_empty.
  - intros d'. rewrite elem_of_union, elem_of_singleton. split.
    + intros [[]%not_elem_of_empty| ->]. left. split; [done|lia].
    + intros [[-> _]|[i Hi]]; [by right|]. by rewrite lookup_empty in Hi.
  - intros i d'. by rewrite lookup_empty.
  - exact Hv2.
  - intros _. lia.
  - intros m Hmm. destruct (Hm' m Hmm). by split.
Qed.

Definition run_ok (v : Z) (x : list event * server M) : Prop :=
  server_ok self x.2 ∧ _started x.2 = true ∧ _max_connections x.2 = v ∧ active_count (_pool x.2) <= v.

Lemma server_step_ok v x y : run_ok v x → server_step x y → run_ok v y.
Proof.
  intros (Hs & Hst & Hmax & Hcount) Hxy. destruct Hxy as [h s a r s' ev Ha E|h s i r s' ev E]; unfold run_ok in *; cbn [snd] in *.
  - destruct (accept_run self s a Hs Ha) as (r0 & s0 & ev0 & E0 & Hs0 & Hr & Hst0 & _ & Hmax0). rewrite E in E0. injection E0 as -> -> ->.
    split; [done|]. split; [congruence|]. split; [congruence|]. destruct r0 as [i|].
    + destruct Hr as (_ & d & _ & _ & _ & _ & _ & Hle). lia.
    + destruct Hr as (_ & -> & _). lia.
  - destruct (conn_done_run self i s Hs) as (s0 & ev0 & E0 & Hs0 & _ & (Hst0 & _ & _ & Hmax0 & Hact & _) & _).
    rewrite E in E0. injection E0 as -> -> ->. split; [done|]. split; [congruence|]. split; [congruence|].
    unfold active_count, count_of in *. by rewrite Hact.
Qed.

Lemma server_run_ok mux v d x : startable mux v d → rtc server_step ([], started mux v d) x → run_ok v x.
Proof.
  intros Hstart Hx. refine (rtc_keeps (run_ok v) (server_step_ok v) _ _ Hx _).
  destruct (started_ok mux v d Hstart) as (Hs & Hst & Hmax & Hact). split; [done|]. split; [done|]. split; [done|].
  unfold active_count, count_of. cbn [snd]. rewrite Hact. destruct Hstart as [[??] _]. by rewrite size_empty.
Qed.

(** Once every object is taken none comes back: only [create] looks at the
    queue of freed objects, and it is called only below the limit. *)
Lemma full_step x y :
  run_ok (active_count (_pool x.2)) x → server_step x y →
  _active (_pool y.2) = _active (_pool x.2) ∧ conns y.2 ⊆ conns x.2.
Proof.
  intros (Hs & Hst & Hmax & _) Hxy. destruct Hxy as [h s a r s' ev Ha E|h s i r s' ev E]; cbn [snd] in *.
  - destruct (accept_run self s a Hs Ha) as (r0 & s0 & ev0 & E0 & Hs0 & Hr & _). rewrite E in E0. injection E0 as -> -> ->.
    destruct r0 as [i|]; [|destruct Hr as (-> & -> & _); done].
    exfalso. destruct Hr as (_ & d & _ & _ & _ & Hlt & _). lia.
  - destruct (conn_done_run self i s Hs) as (s0 & ev0 & E0 & Hs0 & Hc & (_ & _ & _ & _ & Hact & _) & _).
    rewrite E in E0. injection E0 as -> -> ->. rewrite Hc. split; [done|apply delete_subseteq].
Qed.

Lemma full_run v x y :
  run_ok v x → v <= active_count (_pool x.2) → rtc server_step x y →
  _active (_pool y.2) = _active (_pool x.2) ∧ conns y.2 ⊆ conns x.2.
Proof.
  intros Hx Hfull Hxy. revert Hx Hfull. induction Hxy as [x|x y z Hxy _ IH]; intros Hx Hfull; [done|].
  assert (v = active_count (_pool x.2)) as -> by (destruct Hx as (_ & _ & _ & ?); lia).
  destruct (full_step x y Hx Hxy) as [Hact Hc].
  destruct IH as [Hact' Hc']; [by eapply server_step_ok|unfold active_count; by rewrite Hact|].
  split; [congruence|by etrans].
Qed.
End runs.

(** ** Properties *)


(** C18. What [stop] does with the descriptors.  Whichever connections have
    data left to write when they are released, whatever the calls of [select]
    do, each descriptor that the server has open is closed at most once, the
    listening one always, and nothing that was not open is closed.  Unless
    [select(0)] throws everything is closed, no object is left in use and
    [stop] comes to an end without [hard server stop] or a second [select].
    If it throws - nothing catches it - exactly the connections that had data
    left and were not done in it stay open, and for ever as far as the server
    is concerned: [_started] is already reset, and a second [stop] does
    nothing. *)
Theorem server_stops {M} `{ImuxLaws M} self (mux : option M) v d0 h s soft woken failed rounds :
  startable mux v d0 → rtc server_step ([], started self mux v d0) (h, s) →
  ∃ r s' ev, _stop soft woken failed rounds s = (r, s', ev) ∧ _started s' = false ∧
    elements (open_fds s) ≡ₚ closes ev ++ elements (open_fds s') ∧ _listen s ∈ closes ev ∧
    match _mux s, failed with
    | Some _, Some e =>
        r = Throw e ∧
        (∀ d, d ∈ open_fds s' ↔ ∃ i, conns s' !! i = Some d) ∧
        (∀ i d, conns s' !! i = Some d ↔ conns s !! i = Some d ∧ i ∈ soft ∧ i ∉ woken) ∧
        ∀ soft woken failed rounds, _stop soft woken failed rounds s' = (Ok tt, s', [])
    | _, _ => r = Ok tt ∧ open_fds s' = ∅ ∧ conns s' = ∅ ∧ _active (_pool s') = ∅
    end.
Proof.
  intros Hstart Hx. destruct (server_run_ok self mux v d0 _ Hstart Hx) as (Hs & Hst & _). cbn [snd] in *.
  destruct (stop_run self soft woken failed rounds s Hs Hst) as (r & s' & ev & E & Hs' & Hst' & Hl' & Hacc & Hr).
  assert (∀ d, d ∈ open_fds s' ↔ ∃ i, conns s' !! i = Some d) as Hopen by (intros d; by apply (unheard_open self)).
  exists r, s', ev. split_and!; [done|done|done| |].
  - assert (_listen s ∈ open_fds s) as Hin by (apply (ok_open self s Hs); left; split; [done|by apply (ok_started self s Hs)]).
    apply elem_of_elements in Hin. rewrite Hacc, elem_of_app, elem_of_elements, Hopen in Hin.
    destruct Hin as [?|[i Hi]]; [done|]. exfalso.
    assert (conns s !! i = Some (_listen s)) as Hc; [|by destruct (ok_listen self s Hs i _ Hc)].
    destruct (_mux s), failed; [by apply (proj2 Hr) in Hi as [? _]|..]; destruct Hr as (_ & Hr & _); by rewrite Hr in Hi.
  - assert (conns s' = ∅ → open_fds s' = ∅) as Hnone.
    { intros Hc. apply elem_of_equiv_empty_L. intros d Hd. apply Hopen in Hd as [i Hi]. by rewrite Hc in Hi. }
    destruct (_mux s), failed; [|by destruct Hr as (-> & Hc & Ha); rewrite (Hnone Hc)..].
    destruct Hr as [-> Hr]. split; [done|]. split; [exact Hopen|]. split; [exact Hr|]. intros. by apply stop_again.
Qed.

(**  A server that was full once stays full.  The objects that are freed
    are only taken back by [create], which is not called as long as the
    number of objects in use is the limit: when all connections have ended,
    every new one is still turned away. *)
Theorem full_server_stays_full {M} `{ImuxLaws M} self (mux : option M) v d0 h s h' s' d :
  startable mux v d0 → rtc server_step ([], started self mux v d0) (h, s) → v <= active_count (_pool s) →
  rtc server_step (h, s) (h', s') → d ≠ -1 → d ∉ open_fds s' →
  conns s' ⊆ conns s ∧ ∃ s2, _accept (Some d) s' = (Ok None, s2, [Close d]) ∧ conns s2 = conns s'.
Proof.
  intros Hstart Hx Hfull Hx' Hd1 Hd. pose proof (server_run_ok self mux v d0 _ Hstart Hx) as Hok.
  destruct (full_run self v _ _ Hok Hfull Hx') as [Hact Hc]. split; [exact Hc|].
  assert (run_ok self v (h', s')) as (Hs & Hst & Hmax & _) by (refine (rtc_keeps _ (server_step_ok self v) _ _ Hx' Hok)).
  cbn [snd] in *. destruct (accept_run self s' (Some d) Hs) as (r & s2 & ev & E & _ & Hr & _); [by intros ? [= <-]|].
  destruct r as [i|].
  - exfalso. destruct Hr as (_ & d' & _ & _ & _ & Hlt & _). unfold active_count in *. rewrite Hact in Hlt. lia.
  - destruct Hr as (Hcs & _ & Hev). destruct (Hev d Hst eq_refl) as [-> _]. by exists s2.
Qed.

(** *** A server for one connection *)

Definition one : server (epoller (gmap Z Z)) := started 9 (Some (new_epoller ∅)) 1 3.

Lemma one_startable : startable (Some (new_epoller (∅ : gmap Z Z))) 1 3.
Proof.
  split; [vm_compute; split; discriminate|]. split; [by split|]. intros m [= <-].
  split; [|by intros []]. split; [done|]. intros i _. apply lookup_empty.
Qed.

(** Somebody connects and leaves. *)
Definition taken : server (epoller (gmap Z Z)) := (_accept (Some 7) one).1.2.
Definition left_alone : server (epoller (gmap Z Z)) := (conn_done 0 taken).1.2.

Lemma one_taken : rtc server_step ([], one) ([Assigned 0 7; On_server_accept 7], taken).
Proof.
  apply rtc_once. change ([Assigned 0 7; On_server_accept 7]) with ([] ++ [Assigned 0 7; On_server_accept 7]).
  apply (step_accept [] one (Some 7) (Ok (Some 0%nat))); [|vm_compute; reflexivity].
  intros d [= <-]. split; [done|]. apply (bool_decide_unpack _). vm_compute. exact I.
Qed.
Lemma taken_left : server_step ([Assigned 0 7; On_server_accept 7], taken) ([Assigned 0 7; On_server_accept 7] ++ [Close 7], left_alone).
Proof. apply (step_done _ taken 0 (Ok tt)). vm_compute. reflexivity. Qed.


Lemma server_stops_witness :
  let e := runtime_error (str "epoller::select calling epoll_wait:  ") in
  ∃ r s' ev, _stop {[0%nat]} [] (Some e) [] taken = (r, s', ev) ∧ r = Throw e ∧ _listen taken ∈ closes ev ∧
    (∀ d, d ∈ open_fds s' ↔ ∃ i, conns s' !! i = Some d) ∧ conns s' !! 0%nat = Some 7 ∧
    ∀ soft woken failed rounds, _stop soft woken failed rounds s' = (Ok tt, s', []).
Proof.
  intros e. destruct (server_stops 9 (Some (new_epoller ∅)) 1 3 _ taken {[0%nat]} [] (Some e) [] one_startable one_taken)
    as (r & s' & ev & E & _ & _ & Hl & Hr).
  change (_mux taken) with (Some (default (new_epoller ∅) (_mux taken))) in Hr. destruct Hr as (Hr & Hopen & Hc & Hagain).
  exists r, s', ev. split_and!; [exact E|exact Hr|exact Hl|exact Hopen| |exact Hagain].
  apply Hc. split; [vm_compute; reflexivity|]. split; [by apply elem_of_singleton|apply not_elem_of_nil].
Defined.

Lemma full_server_stays_full_witness :
  conns left_alone = ∅ ∧ ∃ s2, _accept (Some 8) left_alone = (Ok None, s2, [Close 8]) ∧ conns s2 = conns left_alone.
Proof.
  split; [vm_compute; reflexivity|].
  apply (full_server_stays_full 9 (Some (new_epoller ∅)) 1 3 [Assigned 0 7; On_server_accept 7] taken
    ([Assigned 0 7; On_server_accept 7] ++ [Close 7]) left_alone 8 one_startable one_taken).
  - vm_compute. discriminate.
  - apply rtc_once, taken_left.
  - done.
  - apply (bool_decide_unpack _). vm_compute. exact I.
Defined.

(** When the limit of the pool itself is reached the descriptor that was
    accepted is neither closed nor given to anybody. *)
Lemma limit_leaks_descriptor :
  let s := set_pool (set_limit 0 (_pool one)) one in
  let '(r, s', ev) := _accept (Some 7) s in
  r = Ok None ∧ 7 ∈ open_fds s' ∧ conns s' = ∅ ∧ closes ev = [].
Proof.
  split; [vm_compute; reflexivity|]. split; [apply (bool_decide_unpack _); vm_compute; exact I|].
  split; vm_compute; reflexivity.
Qed.

(** A server that was started on the socket of another closes it when it
    stops, and the other, which is still started on it, closes the descriptor
    again when it stops: whoever has been given it in between loses it. *)
Lemma shared_socket_closed_twice :
  let other := (start_on_same_socket 10 (_listen one) (new_server (Some (new_epoller (∅ : gmap Z Z))))).1.2 in
  _started other = true ∧ 3 ∉ open_fds other ∧
  closes (_stop ∅ [] None [] other).2 = [3] ∧ closes (_stop ∅ [] None [] one).2 = [3].
Proof.
  split; [vm_compute; reflexivity|]. split; [apply (bool_decide_unpack _); vm_compute; exact I|].
  split; vm_compute; reflexivity.
Qed.
