(* ===== verification/MultiserverRace.v ===== *)
(** * MultiserverRace: a connection that ends while its requests are handled

    [common/multiserver.hpp] again, this time with the thread of a connection
    and the workers that handle its requests running at once.  The connection
    reads any number of requests and notes them in [requests] before it queues
    them; a worker that is done takes its request out.  When the connection
    ends, its cleaner ([ad_invoke_first::clear]) takes the requests away from
    it, unless a worker has them; the connection object is then used for
    another peer. *)

From S2P Require Import Prelude Locks.

(** ** Requests, workers, the connection *)

(** Where a worker is in [threadproc], before the access of that name. *)
Inductive worker :=
  | W_idle          (** the request is not in a queue yet *)
  | W_test          (** [if (req->client)], without the lock *)
  | W_lock          (** [req->mtx.lock()] *)
  | W_test_again    (** [if (req->client)] *)
  | W_write         (** running the method, which answers *)
  | W_lock_client   (** [client->delete_request(this)]: its lock, *)
  | W_erase         (** [requests.erase(req)], *)
  | W_unlock_client
  | W_forget        (** [client = 0] *)
  | W_unlock        (** [mtx.unlock()] *)
  | W_delete        (** [delete req] *)
  | W_end.

(* src: common/multiserver.hpp 16-26 json_rpc_req *)
Record request := Request {
  r_client : bool;       (** [client] is not null *)
  r_mtx : spinlock;
  r_deleted : bool;
  wk : worker;
}.

(** Where the thread of the connection is: between two datagrams, reading the
    request [i], or in the round [n] of the cleaner, with the requests [todo]
    left to look at and [keep] for [rnew]. *)
Inductive conn_thread :=
  | C_open
  | R_lock (i : nat)                 (** [lock_guard lck(mtx)] *)
  | R_insert (i : nat)               (** [requests.insert(req)] *)
  | R_unlock (i : nat)
  | R_push (i : nat)                 (** [server->push_queue(req)] *)
  | C_lock (n : nat)                 (** [lock_guard lck(mtx)] *)
  | C_try (n : nat) (todo : list nat) (keep : gset nat)               (** [req->mtx.try_lock()] *)
  | C_forget (n : nat) (i : nat) (todo : list nat) (keep : gset nat)  (** [req->client = 0] *)
  | C_unlock (n : nat) (i : nat) (todo : list nat) (keep : gset nat)  (** [req->mtx.unlock()] *)
  | C_swap (n : nat) (keep : gset nat)   (** [requests.swap(rnew)] and the end of the scope *)
  | C_warn                           (** the lock for the warning *)
  | C_warned
  | C_closed                         (** [clear] has returned *)
  | C_reused.                        (** another peer has the connection *)

#[export] Instance worker_eq_dec : EqDecision worker.
Proof. solve_decision. Defined.
#[export] Instance conn_thread_eq_dec : EqDecision conn_thread.
Proof. solve_decision. Defined.

(* src: common/multiserver.hpp 99-107 ad_invoke_first *)
Record race := Race {
  reqs : list request;
  c_mtx : spinlock;
  c_requests : gset nat;   (** [requests] *)
  cl : conn_thread;
}.

(** [Answered asked]: a worker writes to the connection, which belongs to the
    peer that asked or to a stranger; [Delete_failed] and [Gave_up]: what
    [delete_request] and [clear] print. *)
Inductive race_event := Answered (asked : bool) | Delete_failed | Gave_up.

#[export] Instance race_event_eq_dec : EqDecision race_event.
Proof. solve_decision. Defined.

(** A connection that nothing was read on. *)
Definition connected_peer : race := Race [] new_spinlock ∅ C_open.

Definition set_wk (w : worker) (r : request) : request := Request (r_client r) (r_mtx r) (r_deleted r) w.
Definition set_req (i : nat) (r : request) (s : race) : race := Race (<[i := r]> (reqs s)) (c_mtx s) (c_requests s) (cl s).
Definition set_c_mtx (l : spinlock) (s : race) : race := Race (reqs s) l (c_requests s) (cl s).
Definition set_requests (q : gset nat) (s : race) : race := Race (reqs s) (c_mtx s) q (cl s).
Definition set_cl (c : conn_thread) (s : race) : race := Race (reqs s) (c_mtx s) (c_requests s) c.

(** A member of a request is used: what follows is undefined when the request
    has been deleted. *)
Definition use {A} (r : request) (x : A) : res A := if r_deleted r then Undef else Ok x.

Definition resting (w : worker) : bool := match w with W_idle | W_end => true | _ => false end.

(** The next access of the worker of the request [i]; it stays where it is
    while it spins. *)
(* src: common/multiserver.hpp 387-415 multiserver::threadproc *)
Definition worker_step (i : nat) (s : race) : res (race * list race_event) :=
  match reqs s !! i with
  | None => Ok (s, [])
  | Some r =>
      if resting (wk r) then Ok (s, [])
      else use r match wk r with
      | W_idle | W_end => (s, [])
      | W_test => (set_req i (set_wk (if r_client r then W_lock else W_delete) r) s, [])
      | W_lock =>
          let '(got, l) := spin (r_mtx r) in
          (set_req i (Request (r_client r) l (r_deleted r) (if got : bool then W_test_again else W_lock)) s, [])
      | W_test_again => (set_req i (set_wk (if r_client r then W_write else W_unlock) r) s, [])
      | W_write => (set_req i (set_wk W_lock_client r) s, [Answered (negb (bool_decide (cl s = C_reused)))])
      | W_lock_client =>
          let '(got, l) := spin (c_mtx s) in
          (set_c_mtx l (set_req i (set_wk (if got : bool then W_erase else W_lock_client) r) s), [])
      | W_erase =>
          (set_requests (c_requests s ∖ {[i]}) (set_req i (set_wk W_unlock_client r) s),
           if decide (i ∈ c_requests s) then [] else [Delete_failed])
      | W_unlock_client => (set_c_mtx (unlock (c_mtx s)) (set_req i (set_wk W_forget r) s), [])
      | W_forget => (set_req i (Request false (r_mtx r) (r_deleted r) W_unlock) s, [])
      | W_unlock => (set_req i (Request (r_client r) (unlock (r_mtx r)) (r_deleted r) W_delete) s, [])
      | W_delete => (set_req i (Request (r_client r) (r_mtx r) true W_end) s, [])
      end
  end.

(** The order in which the cleaner visits a set of pointers is not known. *)
Class VisitOrder := {
  visit : gset nat → list nat;
  visit_perm q : visit q ≡ₚ elements q;
}.
#[export] Instance visit_elements : VisitOrder.
Proof. by refine {| visit := elements |}. Defined.

Section race.
Context `{VisitOrder}.

(** A datagram with a request: it is made, with its client, noted and
    queued. *)
(* src: common/multiserver.hpp 172-195 ad_invoke_first::operator() *)
Definition read_step (s : race) : race :=
  match cl s with
  | C_open => Race (reqs s ++ [Request true new_spinlock false W_idle]) (c_mtx s) (c_requests s) (R_lock (length (reqs s)))
  | R_lock i =>
      let '(got, l) := spin (c_mtx s) in set_c_mtx l (set_cl (if got : bool then R_insert i else R_lock i) s)
  | R_insert i => set_requests ({[i]} ∪ c_requests s) (set_cl (R_unlock i) s)
  | R_unlock i => set_c_mtx (unlock (c_mtx s)) (set_cl (R_push i) s)
  | R_push i =>
      match reqs s !! i with
      | Some r => set_cl C_open (set_req i (set_wk W_test r) s)
      | None => s
      end
  | _ => s
  end.

(** The cleaner, from the end of the connection on. *)
(* src: common/multiserver.hpp 136-170 ad_invoke_first::clear *)
Definition clear_step (s : race) : res (race * list race_event) :=
  match cl s with
  | C_open => Ok (set_cl (C_lock 0) s, [])
  | C_lock n =>
      let '(got, l) := spin (c_mtx s) in
      Ok (set_c_mtx l (set_cl (if got : bool then C_try n (visit (c_requests s)) ∅ else C_lock n) s), [])
  | C_try n (i :: todo) keep =>
      match reqs s !! i with
      | None => Ok (s, [])
      | Some r =>
          let '(got, l) := try_lock (r_mtx r) in
          use r (set_cl (if got : bool then C_forget n i todo keep else C_try n todo ({[i]} ∪ keep))
             (set_req i (Request (r_client r) l (r_deleted r) (wk r)) s), [])
      end
  | C_try n [] keep => Ok (set_cl (C_swap n keep) s, [])
  | C_forget n i todo keep =>
      match reqs s !! i with
      | None => Ok (s, [])
      | Some r => use r (set_cl (C_unlock n i todo keep) (set_req i (Request false (r_mtx r) (r_deleted r) (wk r)) s), [])
      end
  | C_unlock n i todo keep =>
      match reqs s !! i with
      | None => Ok (s, [])
      | Some r =>
          use r (set_cl (C_try n todo keep) (set_req i (Request (r_client r) (unlock (r_mtx r)) (r_deleted r) (wk r)) s), [])
      end
  | C_swap n keep =>
      let s := set_c_mtx (unlock (c_mtx s)) (set_requests keep s) in
      Ok (set_cl (if decide (keep = ∅) then C_closed else if decide (S n < 3)%nat then C_lock (S n) else C_warn) s, [])
  | C_warn =>
      let '(got, l) := spin (c_mtx s) in Ok (set_c_mtx l (set_cl (if got : bool then C_warned else C_warn) s), [])
  | C_warned => Ok (set_c_mtx (unlock (c_mtx s)) (set_cl C_closed s), [Gave_up])
  | C_closed => Ok (set_cl C_reused s, [])
  | _ => Ok (s, [])
  end.

(** Nothing is said of what follows an undefined step. *)
Inductive race_step : list race_event * race → list race_event * race → Prop :=
  | race_worker i h s s' ev : worker_step i s = Ok (s', ev) → race_step (h, s) (h ++ ev, s')
  | race_read h s : race_step (h, s) (h, read_step s)
  | race_clear h s s' ev : clear_step s = Ok (s', ev) → race_step (h, s) (h ++ ev, s').

Definition race_reachable (h : list race_event) (s : race) : Prop := rtc race_step ([], connected_peer) (h, s).

(** Turns of the threads: the one of a request, or the connection's, which
    reads or cleans. *)
Inductive turn := Worker (i : nat) | Reads | Clears.

Definition run_turn (t : turn) (s : race) : res (race * list race_event) :=
  match t with
  | Worker i => worker_step i s
  | Reads => Ok (read_step s, [])
  | Clears => clear_step s
  end.
Fixpoint run_turns (turns : list turn) (x : list race_event * race) : res (list race_event * race) :=
  match turns with
  | [] => Ok x
  | t :: turns => '(s, ev) ← run_turn t x.2; run_turns turns (x.1 ++ ev, s)
  end.

Lemma run_turns_steps turns x y : run_turns turns x = Ok y → rtc race_step x y.
Proof using Type.
  revert x. induction turns as [|t turns IH]; intros [h s]; cbn [run_turns fst snd]; [by intros [= ->]|].
  rewrite bind_Ok. intros ([s1 ev] & E & Hy). eapply rtc_l; [|by apply IH].
  destruct t as [i| |]; cbn [run_turn] in E; [by apply (race_worker i)| |by apply race_clear].
  injection E as <- <-. rewrite app_nil_r. apply race_read.
Qed.
End race.

(** ** What holds as long as the cleaner did not give up *)

(** The worker has the request's lock; the connection's lock; it relies on
    the connection; it has taken its request out. *)
Definition w_has (w : worker) : bool :=
  match w with
  | W_test_again | W_write | W_lock_client | W_erase | W_unlock_client | W_forget | W_unlock => true
  | _ => false
  end.
Definition w_has_client (w : worker) : bool := match w with W_erase | W_unlock_client => true | _ => false end.
Definition w_uses (w : worker) : bool :=
  match w with W_write | W_lock_client | W_erase => true | _ => false end.
Definition taken_out (w : worker) : bool := match w with W_unlock_client | W_forget => true | _ => false end.

(** The connection has the lock of the request [i]; its own lock; it is
    reading the request [i]; it has not noted it yet. *)
Definition c_has (i : nat) (c : conn_thread) : bool :=
  match c with C_forget _ j _ _ | C_unlock _ j _ _ => bool_decide (i = j) | _ => false end.
Definition c_has_client (c : conn_thread) : bool :=
  match c with
  | R_insert _ | R_unlock _ | C_try _ _ _ | C_forget _ _ _ _ | C_unlock _ _ _ _ | C_swap _ _ | C_warned => true
  | _ => false
  end.
Definition reading (i : nat) (c : conn_thread) : bool :=
  match c with R_lock j | R_insert j | R_unlock j | R_push j => bool_decide (i = j) | _ => false end.
Definition unnoted (i : nat) (c : conn_thread) : bool :=
  match c with R_lock j | R_insert j => bool_decide (i = j) | _ => false end.

(** A request that is among [requests] and has its client will be looked at
    by the cleaner, or is kept. *)
Definition covers (i : nat) (c : conn_thread) : Prop :=
  match c with
  | C_try _ todo keep | C_unlock _ _ todo keep => i ∈ todo ∨ i ∈ keep
  | C_forget _ j todo keep => i = j ∨ i ∈ todo ∨ i ∈ keep
  | C_swap _ keep => i ∈ keep
  | C_closed | C_reused => False
  | _ => True
  end.

Record in_order (s : race) : Prop := {
  io_lock i r : reqs s !! i = Some r → w_has (wk r) || c_has i (cl s) = true → value (r_mtx r) = true;
  io_one i r : reqs s !! i = Some r → w_has (wk r) && c_has i (cl s) = false;
  io_client i r : reqs s !! i = Some r → w_has_client (wk r) = true →
    value (c_mtx s) = true ∧ c_has_client (cl s) = false;
  io_conn : c_has_client (cl s) = true → value (c_mtx s) = true;
  io_client_one i j r r' : reqs s !! i = Some r → reqs s !! j = Some r' →
    w_has_client (wk r) = true → w_has_client (wk r') = true → i = j;
  io_noted i r : reqs s !! i = Some r → r_client r = true →
    i ∈ c_requests s ∨ taken_out (wk r) || unnoted i (cl s) = true;
  io_uses i r : reqs s !! i = Some r → w_uses (wk r) = true → r_client r = true;
  io_reading i r : reqs s !! i = Some r → reading i (cl s) = true → wk r = W_idle;
  io_covers i r : reqs s !! i = Some r → r_client r = true → i ∈ c_requests s → covers i (cl s);
}.

(** A step of the worker of [i]: what has to hold of its request, given the
    lock and the set of the connection after it. *)
Lemma in_order_worker i r r' m q s :
  in_order s → reqs s !! i = Some r →
  (w_has (wk r') || c_has i (cl s) = true → value (r_mtx r') = true) →
  w_has (wk r') && c_has i (cl s) = false →
  (w_has_client (wk r') = true → value m = true ∧ c_has_client (cl s) = false ∧
     ∀ j r1, j ≠ i → reqs s !! j = Some r1 → w_has_client (wk r1) = false) →
  (value m = true ∨ c_has_client (cl s) = false ∧ ∀ j r1, j ≠ i → reqs s !! j = Some r1 → w_has_client (wk r1) = false) →
  (r_client r' = true → i ∈ q ∨ taken_out (wk r') || unnoted i (cl s) = true) →
  (w_uses (wk r') = true → r_client r' = true) →
  (reading i (cl s) = true → wk r' = W_idle) →
  (r_client r' = true → r_client r = true) →
  (q = c_requests s ∨ q = c_requests s ∖ {[i]}) →
  in_order (Race (<[i := r']> (reqs s)) m q (cl s)).
Proof.
  intros Hs Hi H1 H2 H3 H4 H5 H6 H7 H8 Hq. pose proof (lookup_lt_Some _ _ _ Hi) as Hlt.
  assert (∀ j r1, <[i := r']> (reqs s) !! j = Some r1 → j = i ∧ r1 = r' ∨ j ≠ i ∧ reqs s !! j = Some r1) as Hcase.
  { intros j r1 Hj. destruct (decide (j = i)) as [->|Hne].
    - rewrite list_lookup_insert_eq in Hj by done. injection Hj as <-. by left.
    - rewrite list_lookup_insert_ne in Hj by done. by right. }
  assert (∀ j, j ≠ i → j ∈ q ↔ j ∈ c_requests s) as Hqj by (intros j Hj; destruct Hq as [->| ->]; set_solver).
  assert (i ∈ q → i ∈ c_requests s) as Hqi by (destruct Hq as [->| ->]; set_solver).
  split; cbn [reqs c_mtx c_requests cl].
  - intros j r1 [[-> ->]|[Hne Hj]]%Hcase; [done|]. by apply (io_lock s Hs).
  - intros j r1 [[-> ->]|[Hne Hj]]%Hcase; [done|]. by apply (io_one s Hs).
  - intros j r1 [[-> ->]|[Hne Hj]]%Hcase Hw; [by destruct (H3 Hw) as (? & ? & _)|].
    destruct (io_client s Hs j r1 Hj Hw) as [_ ?]. destruct H4 as [?|[? Hno]]; [done|].
    by rewrite (Hno j r1) in Hw.
  - intros Hc. destruct H4 as [?|[? _]]; [done|congruence].
  - intros j k r1 r2 [[-> ->]|[Hne Hj]]%Hcase [[-> ->]|[Hne' Hk]]%Hcase Hw Hw'; [done| | |by eapply (io_client_one s Hs)].
    + destruct (H3 Hw) as (_ & _ & Hno). by rewrite (Hno k r2) in Hw'.
    + destruct (H3 Hw') as (_ & _ & Hno). by rewrite (Hno j r1) in Hw.
  - intros j r1 [[-> ->]|[Hne Hj]]%Hcase Hc; [by apply H5|]. rewrite Hqj by done. by apply (io_noted s Hs).
  - intros j r1 [[-> ->]|[Hne Hj]]%Hcase; [done|]. by apply (io_uses s Hs j).
  - intros j r1 [[-> ->]|[Hne Hj]]%Hcase; [done|]. by apply (io_reading s Hs j).
  - intros j r1 [[-> ->]|[Hne Hj]]%Hcase Hc Hin.
    + apply (io_covers s Hs i r Hi); [by apply H8|by apply Hqi].
    + apply (io_covers s Hs j r1 Hj Hc). by apply Hqj.
Qed.

(** What the invariant says of one request. *)
Lemma in_order_at i r s :
  in_order s → reqs s !! i = Some r →
  (w_has (wk r) || c_has i (cl s) = true → value (r_mtx r) = true) ∧
  w_has (wk r) && c_has i (cl s) = false ∧
  (w_has_client (wk r) = true → value (c_mtx s) = true ∧ c_has_client (cl s) = false ∧
     ∀ j r1, j ≠ i → reqs s !! j = Some r1 → w_has_client (wk r1) = false) ∧
  (r_client r = true → i ∈ c_requests s ∨ taken_out (wk r) || unnoted i (cl s) = true) ∧
  (w_uses (wk r) = true → r_client r = true) ∧
  (reading i (cl s) = true → wk r = W_idle) ∧
  (r_client r = true → i ∈ c_requests s → covers i (cl s)).
Proof.
  intros Hs Hi. split; [by apply (io_lock s Hs i)|]. split; [by apply (io_one s Hs)|].
  split; [|split; [by apply (io_noted s Hs)|split; [by apply (io_uses s Hs i)|split;
    [by apply (io_reading s Hs i)|by apply (io_covers s Hs i)]]]].
  intros Hw. destruct (io_client s Hs i r Hi Hw) as [? ?]. split_and!; [done|done|].
  intros j r1 Hne Hj. destruct (w_has_client (wk r1)) eqn:Hw1; [|done].
  by destruct (Hne (io_client_one s Hs j i r1 r Hj Hi Hw1 Hw)).
Qed.

(** The lock of the connection was free: nobody had it. *)
Lemma client_lock_free s :
  in_order s → value (c_mtx s) = false →
  c_has_client (cl s) = false ∧ ∀ j r, reqs s !! j = Some r → w_has_client (wk r) = false.
Proof.
  intros Hs Hv. split.
  - destruct (c_has_client (cl s)) eqn:Hc; [|done]. pose proof (io_conn s Hs Hc). congruence.
  - intros j r Hj. destruct (w_has_client (wk r)) eqn:Hw; [|done]. destruct (io_client s Hs j r Hj Hw). congruence.
Qed.

Lemma unnoted_reading i c : unnoted i c = true → reading i c = true.
Proof. by destruct c. Qed.

(** The steps of a worker that hold neither lock the same as before. *)
Lemma client_lock_kept i s :
  in_order s →
  value (c_mtx s) = true ∨ c_has_client (cl s) = false ∧ ∀ j r1, j ≠ i → reqs s !! j = Some r1 → w_has_client (wk r1) = false.
Proof.
  intros Hs. destruct (value (c_mtx s)) eqn:Hv; [by left|right].
  destruct (client_lock_free s Hs Hv) as [? Hno]. split; [done|]. eauto.
Qed.

Lemma use_Ok {A} r (x y : A) : use r x = Ok y ↔ r_deleted r = false ∧ x = y.
Proof. unfold use. destruct (r_deleted r); naive_solver. Qed.

Lemma worker_step_Ok i s x :
  worker_step i s = Ok x →
  x = (s, []) ∨ ∃ r, reqs s !! i = Some r ∧ resting (wk r) = false ∧ r_deleted r = false.
Proof.
  unfold worker_step. destruct (reqs s !! i) as [r|] eqn:Hi; [|by intros [= <-]; left].
  destruct (resting (wk r)) eqn:Hw; [by intros [= <-]; left|]. intros [Hd _]%use_Ok. right. by exists r.
Qed.

Lemma worker_in_order i s x : in_order s → worker_step i s = Ok x → in_order x.1.
Proof.
  intros Hs. unfold worker_step. destruct (reqs s !! i) as [r|] eqn:Hi; [|by intros [= <-]].
  destruct (in_order_at i r s Hs Hi) as (A1 & A2 & A3 & A4 & A5 & A6 & _).
  pose proof (client_lock_kept i s Hs) as Hkept.
  assert (wk r ≠ W_idle → reading i (cl s) = false ∧ unnoted i (cl s) = false) as Hread.
  { intros Hne. destruct (reading i (cl s)) eqn:Hr; [by destruct (Hne (A6 eq_refl))|]. split; [done|].
    destruct (unnoted i (cl s)) eqn:Hu; [|done]. apply unnoted_reading in Hu. congruence. }
  destruct (wk r) eqn:Hw; cbn [resting]; try (by intros [= <-]); intros [_ <-]%use_Ok; cbn [fst];
    (destruct Hread as [Hrd Hun]; [done|]); unfold set_req, set_c_mtx, set_requests, set_wk; cbn [reqs c_mtx c_requests cl];
    rewrite Hun in A4; destruct (c_has i (cl s)) eqn:Hch; cbn in A1, A2; try done;
    destruct (r_client r) eqn:Hcl, (r_mtx r) as [[]] eqn:Hm, (c_mtx s) as [[]] eqn:Hm';
    cbn [spin exchange negb value fst snd] in *; try (by discriminate (A1 eq_refl));
    apply (in_order_worker i r); try done; rewrite ?Hch, ?Hrd, ?Hun; cbn; try done; try tauto.
Qed.

(** A step of the thread of the connection. *)
Definition request_fits (m : spinlock) (q : gset nat) (c : conn_thread) (i : nat) (r : request) : Prop :=
  (w_has (wk r) || c_has i c = true → value (r_mtx r) = true) ∧
  w_has (wk r) && c_has i c = false ∧
  (w_has_client (wk r) = true → value m = true ∧ c_has_client c = false) ∧
  (r_client r = true → i ∈ q ∨ taken_out (wk r) || unnoted i c = true) ∧
  (w_uses (wk r) = true → r_client r = true) ∧
  (reading i c = true → wk r = W_idle) ∧
  (r_client r = true → i ∈ q → covers i c).

Lemma in_order_fits s i r :
  in_order s → reqs s !! i = Some r → request_fits (c_mtx s) (c_requests s) (cl s) i r.
Proof.
  intros Hs Hi. destruct (in_order_at i r s Hs Hi) as (H1 & H2 & H3 & H4).
  split; [done|]. split; [done|]. split; [|done]. intros Hw. by destruct (H3 Hw) as (? & ? & _).
Qed.

Lemma in_order_conn rs m q c s :
  in_order s →
  (∀ i r, rs !! i = Some r → request_fits m q c i r) →
  (c_has_client c = true → value m = true) →
  (∀ i r, rs !! i = Some r → w_has_client (wk r) = true → ∃ r', reqs s !! i = Some r' ∧ w_has_client (wk r') = true) →
  in_order (Race rs m q c).
Proof.
  intros Hs Hfits Hm Hone. split; cbn [reqs c_mtx c_requests cl];
    try (intros i r Hi; by destruct (Hfits i r Hi) as (?&?&?&?&?&?&?)); [done|].
  intros i j r1 r2 Hi Hj H1 H2. destruct (Hone i r1 Hi H1) as (r1' & Hi' & H1').
  destruct (Hone j r2 Hj H2) as (r2' & Hj' & H2'). by eapply (io_client_one s Hs).
Qed.

(** The other requests when one is changed. *)
Lemma insert_fits (rs : list request) i0 r' m q c :
  request_fits m q c i0 r' → (∀ i r, i ≠ i0 → rs !! i = Some r → request_fits m q c i r) →
  ∀ i r, <[i0 := r']> rs !! i = Some r → request_fits m q c i r.
Proof.
  intros H0 Hne i r Hi. apply list_lookup_insert_Some in Hi as [(<- & <- & _)|[? ?]]; [done|]. by apply Hne.
Qed.

Lemma spin_cases l : value l = true ∧ spin l = (false, l) ∨ value l = false ∧ spin l = (true, Spinlock true).
Proof. destruct l as [[]]; [by left|by right]. Qed.

Lemma in_order_cl_same s : in_order s → in_order (Race (reqs s) (c_mtx s) (c_requests s) (cl s)).
Proof. by destruct s. Qed.

Ltac fits := unfold request_fits in *; cbn [reqs c_mtx c_requests cl r_client r_mtx r_deleted wk
  c_has c_has_client reading unnoted covers value unlock new_spinlock w_has w_has_client w_uses taken_out] in *.

Section steps.
Context `{VisitOrder}.

Lemma read_in_order s : in_order s → in_order (read_step s).
Proof.
  intros Hs. unfold read_step. pose proof (in_order_fits s) as Hf. destruct (cl s) as [|i|i|i|i| | | | | | | | |] eqn:Hc; try done.
  - apply (in_order_conn _ _ _ _ s Hs).
    + intros j r [Hj|[Hj Hr]]%lookup_app_Some.
      * specialize (Hf j r Hs Hj). fits. apply lookup_lt_Some in Hj.
        rewrite bool_decide_false by lia. tauto.
      * apply list_lookup_singleton_Some in Hr as [Hz <-]. fits. assert (j = length (reqs s)) as -> by lia.
        rewrite bool_decide_true by done. split_and!; try done; by right.
    + done.
    + intros j r [Hj|[Hj Hr]]%lookup_app_Some; [by eauto|]. by apply list_lookup_singleton_Some in Hr as [_ <-].
  - destruct (spin_cases (c_mtx s)) as [[Hv ->]|[Hv ->]]; cbn; unfold set_c_mtx, set_cl; cbn.
    + rewrite <-Hc. by apply in_order_cl_same.
    + destruct (client_lock_free s Hs Hv) as [_ Hno]. apply (in_order_conn _ _ _ _ s Hs); [|done|by eauto].
      intros j r Hj. specialize (Hf j r Hs Hj). specialize (Hno j r Hj). fits.
      rewrite Hno. naive_solver.
  - unfold set_requests, set_cl; cbn. apply (in_order_conn _ _ _ _ s Hs); [| |by eauto].
    + intros j r Hj. specialize (Hf j r Hs Hj). fits.
      destruct (decide (j = i)) as [->|Hne]; [rewrite ?bool_decide_true in * by done|rewrite ?bool_decide_false in * by done];
        set_solver.
    + intros _. apply (io_conn s Hs). by rewrite Hc.
  - unfold set_c_mtx, set_cl; cbn. apply (in_order_conn _ _ _ _ s Hs); [|done|by eauto].
    intros j r Hj. specialize (Hf j r Hs Hj). fits. naive_solver.
  - destruct (reqs s !! i) as [r|] eqn:Hi; [|done]. unfold set_cl, set_req, set_wk; cbn.
    apply (in_order_conn _ _ _ _ s Hs).
    + apply insert_fits.
      * specialize (Hf i r Hs Hi). fits. rewrite bool_decide_true in Hf by done.
        destruct Hf as (?&?&?&?&?&Hid&?). rewrite Hid in * by done. cbn in *. naive_solver.
      * intros j r1 Hne Hj. specialize (Hf j r1 Hs Hj). fits. rewrite bool_decide_false in Hf by done.
        naive_solver.
    + done.
    + intros j r1 Hj Hw. apply list_lookup_insert_Some in Hj as [(<- & <- & _)|[? Hj]]; [done|by eauto].
Qed.

(** Only the place of the connection and its lock change. *)
Lemma in_order_moves m q c s :
  in_order s →
  (∀ i r, reqs s !! i = Some r → request_fits (c_mtx s) (c_requests s) (cl s) i r → request_fits m q c i r) →
  (c_has_client c = true → value m = true) →
  in_order (Race (reqs s) m q c).
Proof.
  intros Hs Hfits Hm. apply (in_order_conn _ _ _ _ s Hs); [|done|by eauto].
  intros i r Hi. apply Hfits; [done|]. by apply in_order_fits.
Qed.

(** The request [i0] changes too, but for its worker. *)
Lemma in_order_changes i0 r0 r' c s :
  in_order s → reqs s !! i0 = Some r0 → wk r' = wk r0 →
  (request_fits (c_mtx s) (c_requests s) (cl s) i0 r0 → request_fits (c_mtx s) (c_requests s) c i0 r') →
  (∀ i r, i ≠ i0 → reqs s !! i = Some r → request_fits (c_mtx s) (c_requests s) (cl s) i r →
     request_fits (c_mtx s) (c_requests s) c i r) →
  (c_has_client c = true → c_has_client (cl s) = true) →
  in_order (Race (<[i0 := r']> (reqs s)) (c_mtx s) (c_requests s) c).
Proof.
  intros Hs Hi Hwk H0 Hne Hc. apply (in_order_conn _ _ _ _ s Hs).
  - apply insert_fits; [by apply H0, in_order_fits|]. intros i r Hn Hr. apply Hne; [done..|]. by apply in_order_fits.
  - intros Hcc. by apply (io_conn s Hs), Hc.
  - intros j r Hj Hw. apply list_lookup_insert_Some in Hj as [(<- & <- & _)|[? Hj]]; [|by eauto].
    exists r0. by rewrite <-Hwk.
Qed.

Lemma clear_in_order s x : in_order s → clear_step s = Ok x → Gave_up ∈ x.2 ∨ in_order x.1.
Proof.
  intros Hs E. unfold clear_step in E.
  destruct (cl s) as [|i|i|i|i|n|n [|i todo] keep|n i todo keep|n i todo keep|n keep| | | |] eqn:Hc;
    try (by injection E as <-; right).
  - injection E as <-. right. apply in_order_moves; [done| |done]. rewrite Hc. intros j r Hj. fits. tauto.
  - right. destruct (spin_cases (c_mtx s)) as [[Hv Es]|[Hv Es]]; rewrite Es in E; injection E as <-; cbn.
    + unfold set_c_mtx, set_cl; cbn. rewrite <-Hc. by apply in_order_cl_same.
    + destruct (client_lock_free s Hs Hv) as [_ Hno]. unfold set_c_mtx, set_cl; cbn. apply in_order_moves; [done| |done].
      rewrite Hc. intros j r Hj. specialize (Hno j r Hj). fits. rewrite Hno. intros Hf. split_and!; try done; try tauto.
      intros _ Hin. left. rewrite visit_perm. by apply elem_of_elements.
  - injection E as <-. right. unfold set_cl. apply in_order_moves; [done| |].
    + rewrite Hc. intros j r Hj. fits. set_solver.
    + intros _. apply (io_conn s Hs). by rewrite Hc.
  - destruct (reqs s !! i) as [r|] eqn:Hi; [|by injection E as <-; right]. right. unfold try_lock, exchange in E. cbn in E.
    apply use_Ok in E as [_ <-]. unfold set_cl, set_req; cbn. destruct (r_mtx r) as [[]] eqn:Hm; cbn.
    + apply (in_order_changes i r); [done|done|done| | |]; rewrite ?Hc.
      * fits. rewrite Hm. set_solver.
      * intros j r1 Hne Hj. fits. set_solver.
      * done.
    + apply (in_order_changes i r); [done|done|done| | |]; rewrite ?Hc.
      * fits. rewrite Hm, bool_decide_true by done. destruct (w_has (wk r)) eqn:Hw; [intros (?&_); naive_solver|].
        intros Hf. split_and!; try done; try tauto.
      * intros j r1 Hne Hj. fits. rewrite bool_decide_false by done. set_solver.
      * done.
  - destruct (reqs s !! i) as [r|] eqn:Hi; [|by injection E as <-; right]. right. apply use_Ok in E as [_ <-]. unfold set_cl, set_req; cbn.
    apply (in_order_changes i r); [done|done|done| | |]; rewrite ?Hc.
    + fits. rewrite bool_decide_true by done. destruct (w_has (wk r)) eqn:Hw; [by intros (?&?&_)|].
      assert (w_uses (wk r) = false) as -> by (by destruct (wk r)). naive_solver.
    + intros j r1 Hne Hj. fits. set_solver.
    + done.
  - destruct (reqs s !! i) as [r|] eqn:Hi; [|by injection E as <-; right]. right. apply use_Ok in E as [_ <-]. unfold set_cl, set_req; cbn.
    apply (in_order_changes i r); [done|done|done| | |]; rewrite ?Hc.
    + fits. rewrite bool_decide_true by done. destruct (w_has (wk r)) eqn:Hw; [by intros (?&?&_)|]. naive_solver.
    + intros j r1 Hne Hj. fits. rewrite bool_decide_false by done. tauto.
    + done.
  - injection E as <-. right. unfold set_cl, set_c_mtx, set_requests; cbn. apply in_order_moves; [done| |].
    + rewrite Hc. intros j r Hj. fits. intros (F1 & F2 & F3 & F4 & F5 & F6 & F7).
      assert (w_has_client (wk r) = false) as Hno.
      { destruct (w_has_client (wk r)) eqn:Hw; [|done]. by destruct (F3 eq_refl). }
      rewrite Hno. repeat case_decide; cbn; split_and!; try done; try tauto; set_solver.
    + by repeat case_decide.
  - right. destruct (spin_cases (c_mtx s)) as [[Hv Es]|[Hv Es]]; rewrite Es in E; injection E as <-; cbn; unfold set_c_mtx, set_cl; cbn.
    + rewrite <-Hc. by apply in_order_cl_same.
    + destruct (client_lock_free s Hs Hv) as [_ Hno]. apply in_order_moves; [done| |done].
      rewrite Hc. intros j r Hj. specialize (Hno j r Hj). fits. rewrite Hno. naive_solver.
  - injection E as <-. left. by left.
  - injection E as <-. right. unfold set_cl. apply in_order_moves; [done| |done]. rewrite Hc. intros j r Hj. fits. tauto.
Qed.
End steps.

(** ** No deleted request is used but one

    A request that the cleaner is going to visit, or that the connection still
    knows when it does not clean, has its client and was not taken out; the
    cleaner visits none twice; a worker deletes its request when it ends. *)
Definition pending (i : nat) (q : gset nat) (c : conn_thread) : Prop :=
  match c with
  | C_try _ todo keep | C_unlock _ _ todo keep => i ∈ todo ∨ i ∈ keep
  | C_forget _ j todo keep => i = j ∨ i ∈ todo ∨ i ∈ keep
  | C_swap _ keep => i ∈ keep
  | _ => i ∈ q
  end.
Definition visits_once (c : conn_thread) : Prop :=
  match c with
  | C_try _ todo keep | C_unlock _ _ todo keep => NoDup todo ∧ ∀ j, j ∈ todo → j ∉ keep
  | C_forget _ i todo keep => NoDup (i :: todo) ∧ ∀ j, j ∈ i :: todo → j ∉ keep
  | _ => True
  end.
Definition gone (w : worker) : bool := match w with W_unlock | W_delete | W_end => true | _ => false end.

Record intact (s : race) : Prop := {
  in_pending i : pending i (c_requests s) (cl s) →
    ∃ r, reqs s !! i = Some r ∧ r_client r = true ∧ taken_out (wk r) = false;
  in_reading i : reading i (cl s) = true → ∃ r, reqs s !! i = Some r ∧ r_client r = true ∧ wk r = W_idle;
  in_visits : visits_once (cl s);
  in_gone i r : reqs s !! i = Some r → gone (wk r) = true → r_client r = false;
  in_deleted i r : reqs s !! i = Some r → r_deleted r = true → wk r = W_end;
}.

Lemma pending_free i q c : c_has_client c = false → pending i q c → i ∈ q.
Proof. by destruct c. Qed.
Lemma pending_subset i q q' c : (i ∈ q → i ∈ q') → pending i q c → pending i q' c.
Proof. intros Hq. destruct c; cbn; auto. Qed.

(** The request [i] alone changes, and [requests] by it. *)
Lemma intact_request i r r' m q s :
  intact s → reqs s !! i = Some r →
  (pending i q (cl s) → r_client r' = true ∧ taken_out (wk r') = false) →
  (reading i (cl s) = true → r_client r' = true ∧ wk r' = W_idle) →
  (gone (wk r') = true → r_client r' = false) →
  (r_deleted r' = true → wk r' = W_end) →
  (∀ j, j ≠ i → j ∈ q → j ∈ c_requests s) →
  intact (Race (<[i := r']> (reqs s)) m q (cl s)).
Proof.
  intros Hs Hi H1 H2 H3 H4 Hq. pose proof (lookup_lt_Some _ _ _ Hi) as Hlt.
  assert (∀ (P : request → Prop) j, (j = i → P r') → (j ≠ i → ∃ r1, reqs s !! j = Some r1 ∧ P r1) →
    ∃ r1, <[i := r']> (reqs s) !! j = Some r1 ∧ P r1) as Hex.
  { intros P j He Hne. destruct (decide (j = i)) as [->|Hj]; [exists r'; by rewrite list_lookup_insert_eq; auto|].
    rewrite list_lookup_insert_ne by done. by apply Hne. }
  split; cbn [reqs c_mtx c_requests cl].
  - intros j Hj. apply Hex; [intros ->; by apply H1|]. intros Hne. apply (in_pending s Hs).
    eapply pending_subset; [|exact Hj]. by apply Hq.
  - intros j Hj. apply Hex; [intros ->; by apply H2|]. intros _. by apply (in_reading s Hs).
  - apply (in_visits s Hs).
  - intros j r1 Hj. apply list_lookup_insert_Some in Hj as [(<- & <- & _)|[_ Hj]]; [done|by apply (in_gone s Hs j)].
  - intros j r1 Hj. apply list_lookup_insert_Some in Hj as [(<- & <- & _)|[_ Hj]]; [done|by apply (in_deleted s Hs j)].
Qed.

(** The connection moves on. *)
Lemma intact_moves m q c s :
  intact s →
  (∀ i, pending i q c → pending i (c_requests s) (cl s) ∨ reading i (cl s) = true) →
  (∀ i, reading i c = true → reading i (cl s) = true) → visits_once c →
  intact (Race (reqs s) m q c).
Proof.
  intros Hs Hp Hr Hv. split; cbn [reqs c_mtx c_requests cl]; [|by eauto using in_reading|done|apply (in_gone s Hs)|apply (in_deleted s Hs)].
  intros i [Hi|Hi]%Hp; [by apply (in_pending s Hs)|]. destruct (in_reading s Hs i Hi) as (r & ? & ? & Hw).
  exists r. by rewrite Hw.
Qed.

Lemma worker_intact i s x : in_order s → intact s → worker_step i s = Ok x → intact x.1.
Proof.
  intros Ho Hs. unfold worker_step. destruct (reqs s !! i) as [r|] eqn:Hi; [|by intros [= <-]].
  assert (pending i (c_requests s) (cl s) → r_client r = true ∧ taken_out (wk r) = false) as P1.
  { intros Hp. destruct (in_pending s Hs i Hp) as (r1 & ? & ?). by simplify_eq. }
  assert (reading i (cl s) = true → wk r = W_idle) as P2.
  { intros Hp. destruct (in_reading s Hs i Hp) as (r1 & ? & ? & ?). by simplify_eq. }
  pose proof (in_gone s Hs i r Hi) as P3. pose proof (io_client s Ho i r Hi) as P4.
  destruct (wk r) eqn:Hw; cbn [resting]; try (by intros [= <-]); intros [Hd <-]%use_Ok; cbn [fst];
    unfold set_req, set_c_mtx, set_requests, set_wk; cbn [reqs c_mtx c_requests cl];
    repeat match goal with |- context [spin ?l] => destruct (spin l) as [[] ?] end; cbn [reqs c_mtx c_requests cl];
    apply (intact_request i r); try done; cbn [r_client r_mtx r_deleted wk taken_out gone] in *; rewrite ?Hd; try done;
    try (intros Hr; by specialize (P2 Hr)).
  - intros Hp. by destruct (P1 Hp) as [-> _].
  - by destruct (r_client r).
  - intros Hp. by destruct (P1 Hp) as [-> _].
  - by destruct (r_client r).
  - intros Hp. destruct (P4 eq_refl) as [_ Hf]. apply pending_free in Hp; [|done].
    by apply elem_of_difference in Hp as [_ []%not_elem_of_singleton].
  - intros j _ Hj. by apply elem_of_difference in Hj as [? _].
  - intros Hp. by destruct (P1 Hp).
Qed.

Section intact_steps.
Context `{VisitOrder}.

Lemma read_intact s : intact s → intact (read_step s).
Proof.
  intros Hs. unfold read_step. destruct (cl s) as [|i|i|i|i| | | | | | | | |] eqn:Hc; try done.
  - split; cbn [reqs c_mtx c_requests cl pending reading visits_once].
    + intros j Hj. destruct (in_pending s Hs j) as (r & Hr & ?); [by rewrite Hc|]. exists r. split; [|done]. by apply lookup_app_l_Some.
    + intros j Hj%bool_decide_eq_true. subst j. eexists. split; [by apply list_lookup_middle|done].
    + done.
    + intros j r [Hj|[_ [_ <-]%list_lookup_singleton_Some]]%lookup_app_Some; [by apply (in_gone s Hs j)|done].
    + intros j r [Hj|[_ [_ <-]%list_lookup_singleton_Some]]%lookup_app_Some; [by apply (in_deleted s Hs j)|done].
  - destruct (spin (c_mtx s)) as [[] l]; apply (intact_moves _ _ _ s); cbn; rewrite ?Hc; try done; try (by intros ? ?; left).
  - apply (intact_moves _ _ _ s); cbn; rewrite ?Hc; try done. intros j [->%elem_of_singleton|?]%elem_of_union; [right|by left].
    by apply bool_decide_eq_true.
  - apply (intact_moves _ _ _ s); cbn; rewrite ?Hc; try done; try (by intros ? ?; left).
  - destruct (reqs s !! i) as [r|] eqn:Hi; [|done]. assert (r_client r = true ∧ wk r = W_idle) as [Hcl Hw].
    { destruct (in_reading s Hs i) as (r1 & ? & ? & ?); [rewrite Hc; by apply bool_decide_eq_true|by simplify_eq]. }
    assert (intact (Race (reqs s) (c_mtx s) (c_requests s) C_open)) as Ho.
    { apply (intact_moves _ _ _ s); cbn; rewrite ?Hc; try done; try (by intros ? ?; left). }
    apply (intact_request i r _ _ _ _ Ho); cbn; try done. intros Hd%(in_deleted s Hs i); [congruence|done].
Qed.

(** The cleaner changes a request, but for its worker. *)
Lemma intact_clears i r r' c s :
  intact s → reqs s !! i = Some r → reading i c = false → r_deleted r' = r_deleted r → wk r' = wk r →
  r_client r' = r_client r ∨ r_client r' = false ∧ ¬ pending i (c_requests s) c →
  (∀ j, pending j (c_requests s) c → pending j (c_requests s) (cl s)) →
  (∀ j, reading j c = true → reading j (cl s) = true) → visits_once c →
  intact (set_cl c (set_req i r' s)).
Proof.
  intros Hs Hi Hread Hdel Hwk Hcl Hp Hr Hv.
  assert (intact (Race (reqs s) (c_mtx s) (c_requests s) c)) as Ho by (apply intact_moves; eauto).
  apply (intact_request i r _ _ _ _ Ho); cbn [reqs c_mtx c_requests cl]; rewrite ?Hdel, ?Hwk; try done.
  - intros Hpi. destruct Hcl as [->|[_ Hn]]; [|done]. destruct (in_pending _ Ho i Hpi) as (r1 & H1 & ?). by simplify_eq/=.
  - congruence.
  - intros Hg. destruct Hcl as [->|[? _]]; [by apply (in_gone s Hs i)|done].
  - by apply (in_deleted s Hs i).
Qed.

Lemma clear_intact s x : intact s → clear_step s = Ok x → intact x.1.
Proof.
  intros Hs E. unfold clear_step in E. pose proof (in_visits s Hs) as Hv.
  destruct (cl s) as [|i|i|i|i|n|n [|i todo] keep|n i todo keep|n i todo keep|n keep| | | |] eqn:Hc; cbn in Hv;
    try (by injection E as <-).
  - injection E as <-. apply (intact_moves _ _ _ s); cbn; rewrite ?Hc; try done; try (by intros ? ?; left).
  - destruct (spin (c_mtx s)) as [[] l]; injection E as <-; apply (intact_moves _ _ _ s); cbn; rewrite ?Hc; try done; try (by intros ? ?; left).
    + intros i [Hi|[]%not_elem_of_empty]. left. by rewrite visit_perm, elem_of_elements in Hi.
    + split; [rewrite visit_perm; apply NoDup_elements|]. intros j _. apply not_elem_of_empty.
  - injection E as <-. apply (intact_moves _ _ _ s); cbn; rewrite ?Hc; try done. intros i Hi. left. by right.
  - destruct Hv as [[Hi Hn]%NoDup_cons Hk]. destruct (reqs s !! i) as [r|] eqn:Hr; [|by injection E as <-].
    destruct (try_lock (r_mtx r)) as [[] l]; apply use_Ok in E as [_ <-];
      apply (intact_clears i r); cbn; rewrite ?Hc; try done; try (by left); cbn; try set_solver.
    split; [by apply NoDup_cons|done].
  - destruct Hv as [[Hi Hn]%NoDup_cons Hk]. destruct (reqs s !! i) as [r|] eqn:Hr; [|by injection E as <-].
    apply use_Ok in E as [_ <-]. apply (intact_clears i r); cbn; rewrite ?Hc; try done; cbn; [|naive_solver|].
    + right. split; [done|]. intros [?|?]; [done|]. by apply (Hk i); [left|].
    + split; [done|]. intros j Hj. apply Hk. by right.
  - destruct (reqs s !! i) as [r|] eqn:Hr; [|by injection E as <-]. apply use_Ok in E as [_ <-].
    apply (intact_clears i r); cbn; rewrite ?Hc; try done. by left.
  - injection E as <-. apply (intact_moves _ _ _ s); cbn; rewrite ?Hc; repeat case_decide; cbn; try done; try (by intros ? ?; left).
  - destruct (spin (c_mtx s)) as [[] l]; injection E as <-; apply (intact_moves _ _ _ s); cbn; rewrite ?Hc; try done; try (by intros ? ?; left).
  - injection E as <-. apply (intact_moves _ _ _ s); cbn; rewrite ?Hc; try done; try (by intros ? ?; left).
  - injection E as <-. apply (intact_moves _ _ _ s); cbn; rewrite ?Hc; try done; try (by intros ? ?; left).
Qed.
End intact_steps.

(** No worker uses a deleted request, and the cleaner does only where it
    unlocks one. *)
Lemma worker_defined i s : intact s → ∃ x, worker_step i s = Ok x.
Proof.
  intros Hs. unfold worker_step. destruct (reqs s !! i) as [r|] eqn:Hi; [|by eexists].
  destruct (resting (wk r)) eqn:Hw; [by eexists|]. unfold use. destruct (r_deleted r) eqn:Hd; [|by eexists].
  by rewrite (in_deleted s Hs i r Hi Hd) in Hw.
Qed.
Lemma pending_undeleted i s : intact s → pending i (c_requests s) (cl s) → ∃ r, reqs s !! i = Some r ∧ r_deleted r = false.
Proof.
  intros Hs Hp. destruct (in_pending s Hs i Hp) as (r & Hr & Hcl & _). exists r. split; [done|].
  destruct (r_deleted r) eqn:Hd; [|done]. pose proof (in_deleted s Hs i r Hr Hd) as Hw.
  assert (r_client r = false) by (apply (in_gone s Hs i r Hr); by rewrite Hw). congruence.
Qed.
Lemma clear_defined `{VisitOrder} s :
  intact s → (∃ x, clear_step s = Ok x) ∨
  clear_step s = Undef ∧ ∃ n i todo keep r, cl s = C_unlock n i todo keep ∧ reqs s !! i = Some r ∧ r_deleted r = true.
Proof.
  intros Hs. unfold clear_step. pose proof (λ i, pending_undeleted i s Hs) as Hp.
  destruct (cl s) as [|i|i|i|i|n|n [|i todo] keep|n i todo keep|n i todo keep|n keep| | | |] eqn:Hc;
    try (by left; eexists); try (left; destruct (spin (c_mtx s)); by eexists).
  - destruct (Hp i) as (r & -> & Hd); [left; by left|]. left. destruct (try_lock (r_mtx r)). unfold use. rewrite Hd. by eexists.
  - destruct (Hp i) as (r & -> & Hd); [by left|]. left. unfold use. rewrite Hd. by eexists.
  - destruct (reqs s !! i) as [r|] eqn:Hr; [|left; by eexists]. unfold use. destruct (r_deleted r) eqn:Hd; [right|left; by eexists].
    split; [done|]. by exists n, i, todo, keep, r.
Qed.

(** A worker that answers has not been overtaken, and finds its request where
    it was noted. *)
Definition misdirected (ev : race_event) : bool := match ev with Answered false | Delete_failed => true | _ => false end.

Lemma worker_answers i s x ev : in_order s → worker_step i s = Ok x → ev ∈ x.2 → misdirected ev = false.
Proof.
  intros Hs. unfold worker_step. destruct (reqs s !! i) as [r|] eqn:Hi; [|by intros [= <-] ?%not_elem_of_nil].
  pose proof (in_order_fits s i r Hs Hi) as (_ & _ & _ & F4 & F5 & F6 & F7).
  assert (w_uses (wk r) = true → i ∈ c_requests s ∧ covers i (cl s)) as Huses.
  { intros Hu. specialize (F5 Hu). destruct (F4 F5) as [?|[Ht|Hun]%orb_true_iff]; [by auto|by destruct (wk r)|].
    apply unnoted_reading in Hun. rewrite (F6 Hun) in Hu. done. }
  destruct (wk r) eqn:Hw; cbn [resting]; try (by intros [= <-] ?%not_elem_of_nil); intros [_ <-]%use_Ok; cbn [snd];
    repeat match goal with |- context [spin ?l] => destruct (spin l) end; try (by intros ?%not_elem_of_nil).
  - intros ->%list_elem_of_singleton. destruct (Huses eq_refl) as [_ Hcov]. cbn.
    destruct (bool_decide_reflect (cl s = C_reused)) as [He|]; [|done]. by rewrite He in Hcov.
  - destruct (Huses eq_refl) as [Hin _]. rewrite decide_True by done. by intros ?%not_elem_of_nil.
Qed.

Section reachable.
Context `{VisitOrder}.

Lemma clear_answers s x ev : clear_step s = Ok x → ev ∈ x.2 → misdirected ev = false.
Proof.
  unfold clear_step, use.
  destruct (cl s) as [|i|i|i|i|n|n [|i todo] keep|n i todo keep|n i todo keep|n keep| | | |]; cbn;
    repeat match goal with
    | |- context [spin ?l] => destruct (spin l)
    | |- context [try_lock ?l] => destruct (try_lock l)
    | |- context [reqs s !! i] => destruct (reqs s !! i) as [[? ? [] ?]|]
    end; cbn; intros [= <-]; first [by intros ?%not_elem_of_nil | by intros ->%list_elem_of_singleton].
Qed.

Lemma connected_in_order : in_order connected_peer.
Proof. split; cbn; try done; intros *; by rewrite lookup_nil. Qed.
Lemma connected_intact : intact connected_peer.
Proof. split; cbn; done. Qed.

Lemma reachable_in_order h s :
  race_reachable h s → Gave_up ∈ h ∨ (in_order s ∧ intact s ∧ ∀ ev, ev ∈ h → misdirected ev = false).
Proof.
  intros Hr. set (I := λ x : list race_event * race,
    Gave_up ∈ x.1 ∨ (in_order x.2 ∧ intact x.2 ∧ ∀ ev, ev ∈ x.1 → misdirected ev = false)).
  apply (rtc_keeps I) in Hr; [exact Hr| |right; split; [apply connected_in_order|
    split; [apply connected_intact|by intros ev ?%not_elem_of_nil]]].
  clear. intros x y Hx Hxy. unfold I in *. destruct Hxy as [i h s s' ev0 E|h s|h s s' ev0 E]; cbn [fst snd] in *;
    (destruct Hx as [Hg|(Ho & Hi & Ha)]; [left; first [exact Hg | apply elem_of_app; by left]|]).
  - right. split; [by apply (worker_in_order _ _ _ Ho E)|]. split; [by apply (worker_intact _ _ _ Ho Hi E)|].
    intros ev [?|?]%elem_of_app; [by apply Ha|by apply (worker_answers i s (s', ev0) ev Ho E)].
  - right. split; [by apply read_in_order|]. split; [by apply read_intact|done].
  - destruct (clear_in_order s _ Ho E) as [?|?]; [left; apply elem_of_app; by right|right]. split; [done|].
    split; [by apply (clear_intact _ _ Hi E)|].
    intros ev [?|?]%elem_of_app; [by apply Ha|by apply (clear_answers s (s', ev0) ev E)].
Qed.
End reachable.

(** ** Properties *)

(** C13. As long as the cleaner does not give up, an answer never reaches a
    stranger, however many requests the connection has read and whatever the
    turns of their workers and of the connection, for as long as what they do
    is defined: every answer so far went to the peer that asked, every worker
    found its request among those of the connection, and once the cleaner has
    returned no worker is going to answer.  And what is not defined has one
    place: no worker ever uses a request that was deleted, and the cleaner
    does only where it unlocks a request whose worker has looked at it, and
    deleted it, since the cleaner took its client away
    ([answer_reaches_a_stranger] comes there). *)
Theorem answers_reach_their_peer `{VisitOrder} h s :
  race_reachable h s → Gave_up ∉ h →
  Answered false ∉ h ∧ Delete_failed ∉ h ∧
  (cl s = C_closed ∨ cl s = C_reused → ∀ i r, reqs s !! i = Some r → w_uses (wk r) = false) ∧
  (∀ i, ∃ x, worker_step i s = Ok x) ∧
  ((∃ x, clear_step s = Ok x) ∨
   clear_step s = Undef ∧ ∃ n i todo keep r, cl s = C_unlock n i todo keep ∧ reqs s !! i = Some r ∧ r_deleted r = true).
Proof.
  intros Hr Hg. destruct (reachable_in_order h s Hr) as [?|(Ho & Hin & Ha)]; [done|].
  split; [by intros He%Ha|]. split; [by intros He%Ha|]. split; [|split; [intros i; by apply worker_defined|by apply clear_defined]].
  intros Hcl i r Hi. destruct (in_order_fits s i r Ho Hi) as (_ & _ & _ & F4 & F5 & F6 & F7).
  destruct (w_uses (wk r)) eqn:Hu; [|done]. specialize (F5 eq_refl).
  destruct Hcl as [He|He]; rewrite He in *; cbn in F4, F7; rewrite orb_false_r in F4;
    (destruct (F4 F5) as [Hreq|Ht]; [by destruct (F7 F5 Hreq)|by destruct (wk r)]).
Qed.

(** The state after some turns, all of which are defined. *)
Definition after (turns : list turn) : list race_event * race :=
  match run_turns turns ([], connected_peer) with Ok x => x | _ => ([], connected_peer) end.

Lemma after_reachable turns : race_reachable (after turns).1 (after turns).2.
Proof.
  unfold race_reachable. rewrite <-surjective_pairing. unfold after.
  destruct (run_turns turns ([], connected_peer)) eqn:E; [by eapply run_turns_steps|done..].
Qed.

(** Two requests: the cleaner finds the worker of the first at work once, and
    takes the second away before its worker looks at it. *)
Definition quiet_end : list race_event * race :=
  after (replicate 10 Reads ++ replicate 2 (Worker 0) ++ replicate 8 Clears ++ replicate 8 (Worker 0)
         ++ replicate 4 Clears ++ replicate 2 (Worker 1)).

Lemma answers_reach_their_peer_witness :
  Answered true ∈ quiet_end.1 ∧ cl quiet_end.2 = C_reused ∧ (wk <$> reqs quiet_end.2) = [W_end; W_end] ∧
  Answered false ∉ quiet_end.1 ∧ ∃ x, worker_step 1 quiet_end.2 = Ok x.
Proof.
  split; [vm_compute; by left|]. split; [vm_compute; reflexivity|]. split; [vm_compute; reflexivity|].
  destruct (answers_reach_their_peer quiet_end.1 quiet_end.2) as (Ha & _ & _ & Hw & _).
  - apply after_reachable.
  - apply (bool_decide_unpack _). vm_compute. exact I.
  - split; [exact Ha|exact (Hw 1%nat)].
Defined.

(**  But the cleaner gives up: three times it finds a worker at a request
    and leaves it connected.  The next peer that gets the connection object
    then receives the answer to a request it never sent.  And when the worker
    looks at the request between the two accesses of the cleaner it deletes
    what the cleaner is about to unlock. *)
Theorem answer_reaches_a_stranger :
  (∃ h s, race_reachable h s ∧ Answered false ∈ h) ∧
  ∃ h s, race_reachable h s ∧ Gave_up ∉ h ∧ clear_step s = Undef.
Proof.
  split.
  - set (x := after (replicate 5 Reads ++ replicate 3 (Worker 0) ++ replicate 16 Clears ++ [Worker 0])).
    exists x.1, x.2. split; [apply after_reachable|]. apply (bool_decide_unpack _). vm_compute. exact I.
  - set (x := after (replicate 5 Reads ++ replicate 4 Clears ++ replicate 2 (Worker 0))).
    exists x.1, x.2. split; [apply after_reachable|].
    split; [apply (bool_decide_unpack _); vm_compute; exact I|vm_compute; reflexivity].
Qed.
