(* ===== verification/HttpHeader.v ===== *)
(** * HttpHeader: HTTP messages, [fas/misc/http.hpp]

    The first line and the header of a message are vectors of characters that
    the operations search and edit in place.  An iterator is the suffix of
    the vector that it points to, the past-the-end iterator is the empty
    one. *)

From S2P Require Import Prelude.

(** ** Searching *)

(** [std::find(l, end, c)], and the characters before what it finds. *)
Fixpoint std_find (c : ascii) (l : bytes) : bytes :=
  match l with
  | [] => []
  | a :: l' => if a =?c c then l else std_find c l'
  end.
Fixpoint upto (c : ascii) (l : bytes) : bytes :=
  match l with
  | [] => []
  | a :: l' => if a =?c c then [] else a :: upto c l'
  end.

(** [for (; itr!=end && *itr==' '; ++itr)] *)
Fixpoint skip_spaces (l : bytes) : bytes :=
  match l with
  | a :: l' => if a =?c " "%char then skip_spaces l' else l
  | [] => []
  end.

(** The characters of [l] before the iterator [b] of it, and
    [erase(b, e)]. *)
Definition before (l b : bytes) : bytes := take (length l - length b) l.
Definition erase (l b e : bytes) : bytes := before l b ++ e.

(** ** The first line *)

Definition space : ascii := " "%char.

(* src: fas/misc/http.hpp 55-58 initial_line::_first *)
Definition _first (l : bytes) : bytes := upto space l.

(* src: fas/misc/http.hpp 60-66 initial_line::_second *)
Definition _second (l : bytes) : bytes :=
  match std_find space l with
  | [] => []
  | _ :: itr => upto space itr
  end.

(* src: fas/misc/http.hpp 68-79 initial_line::_thrid *)
Definition _thrid (l : bytes) : bytes :=
  let itr := tail (std_find space l) in
  match itr with
  | [] => []
  | _ =>
      let itr := tail (std_find space itr) in
      match itr with
      | [] => []
      | _ => match std_find CR itr with [] => [] | _ => upto CR itr end
      end
  end.

(* src: fas/misc/http.hpp 23-26 initial_line::request_method *)
Definition request_method : bytes → bytes := _first.
(* src: fas/misc/http.hpp 28-31 initial_line::request_uri *)
Definition request_uri : bytes → bytes := _second.
(* src: fas/misc/http.hpp 33-36 initial_line::request_version *)
Definition request_version : bytes → bytes := _thrid.
(* src: fas/misc/http.hpp 38-41 initial_line::response_version *)
Definition response_version : bytes → bytes := _first.
(* src: fas/misc/http.hpp 43-46 initial_line::response_code *)
Definition response_code : bytes → bytes := _second.
(* src: fas/misc/http.hpp 48-51 initial_line::reason_phrase *)
Definition reason_phrase : bytes → bytes := _thrid.

(** ** A field *)

Definition crlf : bytes := [CR; LF].

(* src: fas/misc/http.hpp 148-156 field::field *)
Definition make_field (name value : bytes) : bytes := name ++ str ": " ++ value ++ crlf.

(* src: fas/misc/http.hpp 142-146 field::field *)
Definition empty_field : bytes := crlf.

(* src: fas/misc/http.hpp 161-166 field::get_name *)
Definition get_name (f : bytes) : bytes :=
  match std_find ":" f with [] => [] | _ => upto ":" f end.

(** The value ends before the CR LF that the field must end with. *)
(* src: fas/misc/http.hpp 168-182 field::get_value *)
Definition get_value (f : bytes) : bytes :=
  match std_find ":" f with
  | [] => []
  | _ :: itr =>
      match skip_spaces itr with
      | [] => []
      | itr =>
          match reverse f with
          | a :: b :: _ => if (a =?c LF) && (b =?c CR) then take (length itr - 2) itr else []
          | _ => []
          end
      end
  end.

(* src: fas/misc/http.hpp 184-192 field::set_name *)
Definition set_name (name f : bytes) : bytes :=
  let f := std_find ":" f in
  name ++ match f with [] => str ": " ++ crlf | _ => f end.

Definition http_error (what : string) : exn := runtime_error (str what).

(** [erase(b, e)] has no meaning when [e] is before [b]: a CR before the
    colon. *)
(* src: fas/misc/http.hpp 194-207 field::set_value *)
Definition set_value (value f : bytes) : res bytes :=
  match std_find ":" f with
  | [] => Throw (http_error "http::head::set_value: cannot set value without name")
  | _ :: b =>
      match skip_spaces b with
      | [] => Throw (http_error "http::head::set_value: cannot set value without name (invalid header)")
      | b =>
          match std_find CR f with
          | [] => Throw (http_error "http::head::set_value: cannot set value without name (invalid header)")
          | e => if (length b <? length e)%nat then Undef else Ok (before f b ++ value ++ e)
          end
      end
  end.

(** ** A header *)

(* src: fas/misc/http.hpp 211-217 header *)
Record header := Header { h_data : bytes; _chunked : bool }.

Definition header0 : header := Header [] false.

(* src: fas/misc/http.hpp 219-223 header::clear *)
Definition header_clear (h : header) : header := header0.

(** The end of the line, past its CR LF. *)
(* src: fas/misc/http.hpp 349-357 header::_next *)
Definition _next (first : bytes) : bytes :=
  match std_find CR first with
  | [] => []
  | _ :: itr => match itr with [] => [] | a :: itr => if a =?c LF then itr else [] end
  end.

(** One round of the loop of [_equal]: letters in either case. *)
(* src: fas/misc/http.hpp 366-380 header::_equal *)
Definition char_match (n b : ascii) : bool :=
  if (65 <=? code n) && (code n <=? 90) then (code n =? code b) || (code n + 32 =? code b)
  else if (97 <=? code n) && (code n <=? 122) then (code n =? code b) || (code n =? code b + 32)
  else code n =? code b.

(** The loop, over the name up to its terminator. *)
(* src: fas/misc/http.hpp 364-384 header::_equal *)
Fixpoint match_name (name beg : bytes) : option bytes :=
  match name with
  | [] => Some beg
  | n :: name' =>
      if n =?c NUL then Some beg
      else match beg with
           | [] => None
           | b :: beg => if char_match n b then match_name name' beg else None
           end
  end.

(** The value of the field at [beg], or the end. *)
(* src: fas/misc/http.hpp 361-390 header::_equal *)
Definition _equal (name beg : bytes) : bytes :=
  match match_name name beg with
  | None => []
  | Some beg => skip_spaces (tail (std_find ":" beg))
  end.

(** Every round of the loop leaves the line behind, so that there are no more
    of them than characters. *)
(* src: fas/misc/http.hpp 342-346 header::_find *)
Fixpoint find_rounds (rounds : nat) (name beg : bytes) : bytes :=
  match rounds with
  | O => beg
  | S rounds =>
      match beg with
      | [] => []
      | _ => match _equal name beg with [] => find_rounds rounds name (_next beg) | _ => beg end
      end
  end.
(* src: fas/misc/http.hpp 339-347 header::_find *)
Definition _find (name l : bytes) : bytes := find_rounds (length l) name l.

(* src: fas/misc/http.hpp 227-229 header::remove *)
Definition remove_data (name l : bytes) : bytes :=
  match _find name l with [] => l | b => erase l b (_next b) end.
(* src: fas/misc/http.hpp 225-230 header::remove *)
Definition remove (name : bytes) (h : header) : header := Header (remove_data name (h_data h)) (_chunked h).

(* src: fas/misc/http.hpp 234-242 header::set *)
Definition set_data (name value l : bytes) : bytes := remove_data name l ++ make_field name value.
(* src: fas/misc/http.hpp 232-243 header::set *)
Definition set (name value : bytes) (h : header) : header := Header (set_data name value (h_data h)) (_chunked h).

(* src: fas/misc/http.hpp 315-321 header::get *)
Definition get (name : bytes) (h : header) : bytes :=
  match _find name (h_data h) with [] => empty_field | b => before b (_next b) end.

(** [atoi] of the text at an iterator: white space, a sign, digits.  It reads
    on behind the end of a vector that ends there ([Undef]), and the value of
    an [int] that is too large is undefined. *)
Definition is_space (c : ascii) : bool := (code c =? 32) || (9 <=? code c) && (code c <=? 13).
Fixpoint atoi_digits (sign acc : Z) (l : bytes) : res Z :=
  match l with
  | [] => Undef
  | c :: l => if is_digit c then atoi_digits sign (10 * acc + (code c - 48)) l else int_op int_t (sign * acc)
  end.
Fixpoint atoi (l : bytes) : res Z :=
  match l with
  | [] => Undef
  | c :: l' =>
      if is_space c then atoi l'
      else if c =?c "-" then atoi_digits (-1) 0 l'
      else if c =?c "+" then atoi_digits 1 0 l'
      else atoi_digits 1 0 l
  end.

(* src: fas/misc/http.hpp 245-255 header::get_content_length *)
Definition get_content_length (h : header) : res Z :=
  match _find (str "Content-Length") (h_data h) with
  | [] => Ok (-1)
  | b => match skip_spaces (tail (std_find ":" b)) with [] => Ok (-1) | b => atoi b end
  end.

(* src: fas/misc/http.hpp 257-261 header::is_chunked *)
Definition is_chunked (h : header) : bool :=
  match _find (str "Transfer-Encoding") (h_data h) with [] => false | _ => true end.

(** [sizeof(con_str) - 1] is the length of the text. *)
(* src: fas/misc/http.hpp 263-279 header::is_keep_alive *)
Definition is_keep_alive (h : header) : bool :=
  match drop (length (str "Connection: ")) (_find (str "Connection: ") (h_data h)) with
  | c :: _ => (c =?c "k") || (c =?c "K")
  | [] => false
  end.

(* src: fas/misc/http.hpp 281-293 header::set_chunked *)
Definition set_chunked (chunked : bool) (h : header) : header :=
  let h := Header (h_data h) chunked in
  if chunked then set (str "Transfer-Encoding") (str "chunked") (remove (str "Content-Length") h)
  else remove (str "Transfer-Encoding") h.

(** The digits from the last one; [v/10] and [v%10] go to zero.  The buffer
    has [n] characters left. *)
(* src: fas/misc/http.hpp 307-309 header::set_content_length *)
Fixpoint put_digits (n : nat) (v : Z) : list Z :=
  match n with
  | O => []
  | S n => if v =? 0 then [] else (48 + Z.rem v 10) :: put_digits n (Z.quot v 10)
  end.

(** [*beg ^= *(cur-1); *(cur-1) ^= *beg; *beg ^= *(cur-1)] at two places of the
    buffer. *)
(* src: fas/misc/http.hpp 311-312 header::set_content_length *)
Definition xor_swap (i j : nat) (buf : list Z) : list Z :=
  let at_ k b := nth k b 0 in
  let buf := <[i := Z.lxor (at_ i buf) (at_ j buf)]> buf in
  let buf := <[j := Z.lxor (at_ j buf) (at_ i buf)]> buf in
  <[i := Z.lxor (at_ i buf) (at_ j buf)]> buf.

(** The loop over [beg] and [cur], places of the buffer. *)
(* src: fas/misc/http.hpp 311-312 header::set_content_length *)
Fixpoint xor_reverse (rounds beg cur : nat) (buf : list Z) : list Z :=
  match rounds with
  | O => buf
  | S rounds => if (1 <? cur - beg)%nat then xor_reverse rounds (beg + 1) (cur - 1) (xor_swap beg (cur - 1) buf) else buf
  end.

(* src: fas/misc/http.hpp 299-312 header::set_content_length *)
Definition length_text (v : Z) : bytes :=
  let buf := if v =? 0 then [48] else put_digits 32 v in
  chr <$> xor_reverse (length buf) 0 (length buf) buf.

(* src: fas/misc/http.hpp 295-313 header::set_content_length *)
Definition set_content_length (v : Z) (h : header) : header :=
  let h := remove (str "Transfer-Encoding") (Header (h_data h) false) in
  set (str "Content-Length") (length_text v) h.

(* src: fas/misc/http.hpp 323-328 header::is_complete *)
Definition is_complete (h : header) : bool :=
  match reverse (h_data h) with
  | a :: b :: c :: d :: _ => (a =?c LF) && (b =?c CR) && (c =?c LF) && (d =?c CR)
  | _ => false
  end.

(* src: fas/misc/http.hpp 330-337 header::complete *)
Definition complete (h : header) : header :=
  if is_complete h then h else Header (h_data h ++ crlf) (_chunked h).

Example header_ex :
  let h := set (str "Host") (str "h") (set_content_length 120 (set_chunked true header0)) in
  h_data (complete h) = str "Content-Length: 120" ++ crlf ++ str "Host: h" ++ crlf ++ crlf ∧
  get_content_length h = Ok 120 ∧ is_chunked h = false ∧ get_value (get (str "hOST") h) = str "h".
Proof. vm_compute. done. Qed.
Example prefix_ex : h_data (set (str "Content") (str "x") (set_content_length 7 header0)) = make_field (str "Content") (str "x").
Proof. reflexivity. Qed.
Example negative_ex : h_data (set_content_length (-12) header0) = make_field (str "Content-Length") (str "/.").
Proof. reflexivity. Qed.
