(* ===== verification/HttpHeaderSpec.v ===== *)
(** * HttpHeaderSpec: what the operations on an HTTP header promise

    A header that was built field by field is the text of a list of fields;
    searching, setting and removing in the text is searching, setting and
    removing in the list.  The number of [set_content_length] is read back by
    [get_content_length]. *)

From S2P Require Import Prelude HttpHeader.

(** ** Searching *)

Lemma eqb_true_eq (a b : ascii) : (a =?c b) = true → a = b.
Proof. apply Ascii.eqb_eq. Qed.
Lemma eqb_ne (a b : ascii) : a ≠ b → (a =?c b) = false.
Proof. apply Ascii.eqb_neq. Qed.

Lemma std_find_app c l r : c ∉ l → std_find c (l ++ c :: r) = c :: r.
Proof.
  induction l as [|a l IH]; intros Hl; simpl; [by rewrite Ascii.eqb_refl|].
  apply not_elem_of_cons in Hl as [Hne Hl]. rewrite eqb_ne by congruence. by apply IH.
Qed.
Lemma upto_app c l r : c ∉ l → upto c (l ++ c :: r) = l.
Proof.
  induction l as [|a l IH]; intros Hl; simpl; [by rewrite Ascii.eqb_refl|].
  apply not_elem_of_cons in Hl as [Hne Hl]. rewrite eqb_ne by congruence. f_equal. by apply IH.
Qed.
Lemma std_find_none c l : c ∉ l → std_find c l = [].
Proof.
  induction l as [|a l IH]; intros Hl; simpl; [done|].
  apply not_elem_of_cons in Hl as [Hne Hl]. rewrite eqb_ne by congruence. by apply IH.
Qed.

Lemma before_app l b : before (l ++ b) b = l.
Proof. unfold before. rewrite length_app, Nat.add_sub. apply take_app_length. Qed.

(** The value starts with something that is not skipped. *)
Definition no_space (v : bytes) : Prop := head v ≠ Some space.
Lemma skip_spaces_id v c r : no_space v → c ≠ space → skip_spaces (v ++ c :: r) = v ++ c :: r.
Proof.
  intros Hv Hc. destruct v as [|a v]; simpl; [by rewrite eqb_ne|]. rewrite eqb_ne; [done|]. intros ->. by apply Hv.
Qed.
Lemma skip_spaces_nonempty v c r : c ≠ space → skip_spaces (v ++ c :: r) ≠ [].
Proof. intros Hc. induction v as [|a v IH]; simpl; [by rewrite eqb_ne|]. by destruct (a =?c " "%char). Qed.

(** ** The abstract header: a list of fields *)

Definition field : Type := bytes * bytes.

Definition good_name (n : bytes) : Prop := n ≠ [] ∧ ":"%char ∉ n ∧ CR ∉ n ∧ NUL ∉ n.
Definition good_field (f : field) : Prop := good_name f.1 ∧ CR ∉ f.2.

Definition render (fs : list field) : bytes := concat ((λ f, make_field f.1 f.2) <$> fs).

(** [name] is how the name [n] begins, letters in either case: what [_equal]
    asks for. *)
Fixpoint begins (name n : bytes) : bool :=
  match name, n with
  | [], _ => true
  | a :: name, b :: n => char_match a b && begins name n
  | _, [] => false
  end.

(** The fields from the first whose name begins so. *)
Fixpoint find_field (name : bytes) (fs : list field) : list field :=
  match fs with
  | [] => []
  | f :: fs' => if begins name f.1 then fs else find_field name fs'
  end.
Fixpoint remove_field (name : bytes) (fs : list field) : list field :=
  match fs with
  | [] => []
  | f :: fs' => if begins name f.1 then fs' else f :: remove_field name fs'
  end.
Definition set_field (name value : bytes) (fs : list field) : list field := remove_field name fs ++ [(name, value)].
Definition get_field (name : bytes) (fs : list field) : bytes :=
  match find_field name fs with f :: _ => make_field f.1 f.2 | [] => empty_field end.

Lemma render_cons f fs : render (f :: fs) = make_field f.1 f.2 ++ render fs.
Proof. done. Qed.
Lemma render_app fs gs : render (fs ++ gs) = render fs ++ render gs.
Proof. unfold render. by rewrite fmap_app, concat_app. Qed.

Lemma make_field_app n v r : make_field n v ++ r = n ++ ":"%char :: (space :: v) ++ CR :: LF :: r.
Proof. unfold make_field, crlf. rewrite <-!app_assoc. done. Qed.

Lemma next_field f r : good_field f → _next (make_field f.1 f.2 ++ r) = r.
Proof.
  intros [(_ & _ & Hn & _) Hv]. rewrite make_field_app. unfold _next.
  assert (f.1 ++ ":"%char :: (space :: f.2) ++ CR :: LF :: r = (f.1 ++ ":"%char :: space :: f.2) ++ CR :: LF :: r) as ->
    by (rewrite <-app_assoc; done).
  rewrite std_find_app; [done|]. rewrite elem_of_app, !elem_of_cons. intros [?|[?|[?|?]]]; done.
Qed.

Lemma colon_match a : char_match a ":" = true → a = ":"%char.
Proof.
  unfold char_match. change (code ":") with 58. pose proof (code_range a). intros Hm. apply code_inj. change (code ":") with 58.
  destruct (Z.leb_spec 65 (code a)), (Z.leb_spec (code a) 90), (Z.leb_spec 97 (code a)), (Z.leb_spec (code a) 122); cbn in Hm; lia.
Qed.

Lemma match_name_spec name n r :
  ":"%char ∉ name → NUL ∉ name →
  match_name name (n ++ ":"%char :: r) = if begins name n then Some (drop (length name) n ++ ":"%char :: r) else None.
Proof.
  revert n. induction name as [|a name IH]; intros n Hc H0; [by rewrite drop_0|].
  apply not_elem_of_cons in Hc as [Ha Hc]. apply not_elem_of_cons in H0 as [Hz H0].
  cbn [match_name]. rewrite eqb_ne by congruence. destruct n as [|b n]; cbn [app begins].
  - destruct (char_match a ":") eqn:Hm; [|done]. by apply colon_match in Hm.
  - destruct (char_match a b); [|done]. cbn [andb]. by rewrite IH.
Qed.

Lemma equal_field name f r :
  good_name name → good_field f →
  _equal name (make_field f.1 f.2 ++ r) = if begins name f.1 then skip_spaces (f.2 ++ CR :: LF :: r) else [].
Proof.
  intros (_ & Hc & _ & H0) [(_ & Hf & _) _]. unfold _equal. rewrite make_field_app, match_name_spec by done.
  destruct (begins name f.1); [|done]. rewrite std_find_app; [done|].
  intros Hin. apply Hf. rewrite <-(take_drop (length name) f.1). apply elem_of_app. by right.
Qed.

Lemma render_nonempty f fs : render (f :: fs) ≠ [].
Proof. rewrite render_cons, make_field_app. by destruct f.1. Qed.
Lemma render_nil fs : render fs = [] → fs = [].
Proof. destruct fs; [done|]. by intros ?%render_nonempty. Qed.

Lemma find_rounds_spec name fs rounds :
  good_name name → Forall good_field fs → (length fs ≤ rounds)%nat →
  find_rounds rounds name (render fs) = render (find_field name fs).
Proof.
  intros Hn Hfs. revert rounds. induction Hfs as [|f fs Hf Hfs IH]; intros rounds Hr; [by destruct rounds|].
  destruct rounds as [|rounds]; [by simpl in Hr; lia|]. cbn [find_rounds find_field].
  destruct (render (f :: fs)) as [|c l] eqn:Hl; [by apply render_nonempty in Hl|]. rewrite <-Hl.
  rewrite render_cons at 1. rewrite equal_field by done. destruct (begins name f.1).
  - destruct (skip_spaces _) as [|x xs] eqn:Hs; [by apply skip_spaces_nonempty in Hs|done].
  - rewrite render_cons, next_field by done. apply IH. simpl in Hr. lia.
Qed.

Lemma render_length fs : (length fs ≤ length (render fs))%nat.
Proof.
  induction fs as [|f fs IH]; [done|]. rewrite render_cons, make_field_app, length_app. cbn [length]. rewrite length_app. cbn [length]. lia.
Qed.

Lemma find_spec name fs :
  good_name name → Forall good_field fs → _find name (render fs) = render (find_field name fs).
Proof. intros Hn Hfs. apply find_rounds_spec; [done|done|apply render_length]. Qed.

Lemma find_field_split name fs :
  ∃ gs, fs = gs ++ find_field name fs ∧
    match find_field name fs with [] => True | f :: fs' => begins name f.1 = true ∧ remove_field name fs = gs ++ fs' end ∧
    (find_field name fs = [] → remove_field name fs = fs).
Proof.
  induction fs as [|f fs (gs & Hfs & Hm & Hn)]; [by exists []|]. cbn [find_field remove_field].
  destruct (begins name f.1) eqn:Hb; [by exists []|]. exists (f :: gs). split_and!; [by rewrite Hfs at 1| |].
  - destruct (find_field name fs); [done|]. destruct Hm as [? ->]. done.
  - intros Hf. by rewrite Hn.
Qed.

(** ** The operations on the text are those on the list *)

(** A header that was built from the fields. *)
Definition header_of (fs : list field) (h : header) : Prop := h_data h = render fs ∧ Forall good_field fs.

Lemma erase_app l b e : erase (l ++ b) b e = l ++ e.
Proof. unfold erase. by rewrite before_app. Qed.

Lemma remove_spec name fs :
  good_name name → Forall good_field fs → remove_data name (render fs) = render (remove_field name fs).
Proof.
  intros Hn Hfs. unfold remove_data. rewrite find_spec by done. destruct (find_field_split name fs) as (gs & Hgs & Hm & Hnil).
  destruct (find_field name fs) as [|f fs'] eqn:Hf; [by rewrite Hnil|]. destruct Hm as [_ ->].
  destruct (render (f :: fs')) as [|c l] eqn:Hl; [by apply render_nonempty in Hl|]. rewrite <-Hl. rewrite Hgs at 1.
  rewrite !render_app, render_cons, next_field, erase_app; [done|].
  rewrite Hgs in Hfs. apply Forall_app in Hfs as [_ Hfs]. by apply Forall_cons in Hfs as [? _].
Qed.

Lemma set_spec name value fs :
  good_name name → Forall good_field fs → set_data name value (render fs) = render (set_field name value fs).
Proof.
  intros Hn Hfs. unfold set_data, set_field. rewrite remove_spec, render_app by done. f_equal. symmetry. apply app_nil_r.
Qed.

Lemma get_spec name fs h :
  good_name name → header_of fs h → get name h = get_field name fs.
Proof.
  intros Hn [Hh Hfs]. unfold get, get_field. rewrite Hh, find_spec by done. destruct (find_field_split name fs) as (gs & Hgs & _ & _).
  destruct (find_field name fs) as [|f fs'] eqn:Hf; [done|].
  destruct (render (f :: fs')) as [|c l] eqn:Hl; [by apply render_nonempty in Hl|]. rewrite <-Hl.
  rewrite render_cons, next_field, before_app; [done|].
  rewrite Hgs in Hfs. apply Forall_app in Hfs as [_ Hfs]. by apply Forall_cons in Hfs as [? _].
Qed.

Lemma remove_field_sub name fs f : f ∈ remove_field name fs → f ∈ fs.
Proof.
  induction fs as [|g fs IH]; [done|]. cbn [remove_field]. destruct (begins name g.1); [by apply list_elem_of_further|].
  rewrite !elem_of_cons. intros [?|?%IH]; auto.
Qed.

Lemma header_of_remove name fs h : good_name name → header_of fs h → header_of (remove_field name fs) (remove name h).
Proof.
  intros Hn [Hh Hfs]. split; [unfold remove; cbn; by rewrite Hh, remove_spec|].
  rewrite Forall_forall in Hfs |- *. intros f Hf. by eapply Hfs, remove_field_sub.
Qed.

Lemma header_of_set name value fs h :
  good_name name → CR ∉ value → header_of fs h → header_of (set_field name value fs) (set name value h).
Proof.
  intros Hn Hv Hh. pose proof (header_of_remove name fs h Hn Hh) as [_ Hg]. destruct Hh as [Hh Hfs].
  split; [unfold set; cbn; by rewrite Hh, set_spec|]. apply Forall_app. split; [done|]. apply Forall_singleton. by split.
Qed.

Lemma header_of_chunked b fs h : header_of fs h → header_of fs (Header (h_data h) b).
Proof. done. Qed.

Lemma is_chunked_spec fs h :
  header_of fs h → is_chunked h = match find_field (str "Transfer-Encoding") fs with [] => false | _ => true end.
Proof.
  intros [Hh Hfs]. unfold is_chunked. rewrite Hh, find_spec; [|by apply (bool_decide_unpack _); vm_compute|done].
  destruct (find_field _ fs) as [|f fs']; [done|]. destruct (render (f :: fs')) eqn:Hl; [by apply render_nonempty in Hl|done].
Qed.

(** ** One field of a name *)

(** At most one field begins with the name. *)
Definition single (name : bytes) (fs : list field) : Prop :=
  (length (filter (λ f : field, begins name f.1 = true) fs) ≤ 1)%nat.
Definition absent (name : bytes) (fs : list field) : Prop := Forall (λ f : field, begins name f.1 = false) fs.

Lemma absent_find name fs : absent name fs → find_field name fs = [].
Proof. induction 1 as [|f fs Hf Hfs IH]; [done|]. cbn. by rewrite Hf. Qed.

Lemma filter_nil_absent name fs : filter (λ f : field, begins name f.1 = true) fs = [] → absent name fs.
Proof.
  induction fs as [|f fs IH]; intros Hf; [constructor|]. rewrite filter_cons in Hf.
  destruct (begins name f.1) eqn:Hb; [by rewrite decide_True in Hf by done|].
  rewrite decide_False in Hf by congruence. constructor; [done|by apply IH].
Qed.

Lemma single_removed name fs : single name fs → absent name (remove_field name fs).
Proof.
  unfold single. induction fs as [|f fs IH]; intros Hs; [constructor|]. rewrite filter_cons in Hs. cbn [remove_field].
  destruct (begins name f.1) eqn:Hb.
  - rewrite decide_True in Hs by done. simpl in Hs. apply filter_nil_absent, length_zero_iff_nil. lia.
  - rewrite decide_False in Hs by congruence. constructor; [done|by apply IH].
Qed.

Lemma find_field_app name fs gs :
  absent name fs → find_field name (fs ++ gs) = find_field name gs.
Proof. induction 1 as [|f fs Hf Hfs IH]; [done|]. cbn. by rewrite Hf. Qed.

Lemma begins_refl name : begins name name = true.
Proof.
  induction name as [|a name IH]; [done|]. cbn. rewrite IH, andb_true_r. unfold char_match.
  destruct (_ && _); [|destruct (_ && _)]; by rewrite Z.eqb_refl.
Qed.

Lemma get_set_field name value fs : single name fs → get_field name (set_field name value fs) = make_field name value.
Proof.
  intros Hs. unfold get_field, set_field. rewrite find_field_app by by apply single_removed. cbn. by rewrite begins_refl.
Qed.

(** Another name: no field that the removal takes. *)
Lemma get_other_field other name value fs :
  begins other name = false → Forall (λ f : field, begins name f.1 = true → begins other f.1 = false) fs →
  get_field other (set_field name value fs) = get_field other fs.
Proof.
  intros Hne Ha. unfold get_field, set_field. induction Ha as [|f fs Hf Hfs IH]; cbn [remove_field find_field app].
  { cbn. by rewrite Hne. }
  destruct (begins name f.1) eqn:Hb.
  - rewrite Hf by done. clear IH. induction fs as [|g fs IH]; [cbn; by rewrite Hne|]. cbn.
    destruct (begins other g.1); [done|]. apply IH. by apply Forall_cons in Hfs as [_ ?].
  - cbn [app find_field]. destruct (begins other f.1); [done|exact IH].
Qed.

Lemma get_value_make n v : good_name n → no_space v → get_value (make_field n v) = v.
Proof.
  intros (_ & Hc & _ & _) Hv. unfold get_value. assert (make_field n v = n ++ ":"%char :: (space :: v) ++ [CR; LF]) as Heq.
  { rewrite <-(app_nil_r (make_field n v)). apply make_field_app. }
  rewrite Heq, std_find_app by done. cbn [app skip_spaces]. change (space =?c " "%char) with true. cbn iota.
  rewrite skip_spaces_id by done. destruct (v ++ [CR; LF]) as [|x xs] eqn:Hx; [by destruct v|]. rewrite <-Hx.
  assert (reverse (n ++ ":"%char :: space :: v ++ [CR; LF]) = LF :: CR :: reverse (n ++ ":"%char :: space :: v)) as ->.
  { assert (n ++ ":"%char :: space :: v ++ [CR; LF] = (n ++ ":"%char :: space :: v) ++ [CR; LF]) as -> by (rewrite <-app_assoc; done).
    by rewrite reverse_app. }
  cbn. rewrite length_app, Nat.add_sub. apply take_app_length.
Qed.

Lemma get_name_make n v : good_name n → get_name (make_field n v) = n.
Proof.
  intros (_ & Hc & _ & _). unfold get_name. rewrite <-(app_nil_r (make_field n v)), make_field_app.
  by rewrite std_find_app, upto_app.
Qed.

(** ** The number of [set_content_length] *)

Lemma insert_middle {A} (l1 : list A) x z r : <[length l1 := z]> (l1 ++ x :: r) = l1 ++ z :: r.
Proof. rewrite insert_app_r_alt by lia. by rewrite Nat.sub_diag. Qed.
Lemma nth_middle_eq (l1 : list Z) x r : nth (length l1) (l1 ++ x :: r) 0 = x.
Proof. rewrite app_nth2 by lia. by rewrite Nat.sub_diag. Qed.

(** Three exclusive ors exchange two places. *)
Lemma xor_swap_app l1 x m y l2 :
  xor_swap (length l1) (length (l1 ++ x :: m)) (l1 ++ x :: m ++ y :: l2) = l1 ++ y :: m ++ x :: l2.
Proof.
  assert (∀ a b, l1 ++ a :: m ++ b :: l2 = (l1 ++ a :: m) ++ b :: l2) as Hsplit by (intros; by rewrite <-app_assoc).
  assert (∀ a, length (l1 ++ a :: m) = length (l1 ++ x :: m)) as Hlen by (intros; by rewrite !length_app).
  assert (∀ a b z, <[length (l1 ++ x :: m) := z]> (l1 ++ a :: m ++ b :: l2) = l1 ++ a :: m ++ z :: l2) as Hj.
  { intros a b z. by rewrite Hsplit, <-(Hlen a), insert_middle, <-Hsplit. }
  assert (∀ a b, nth (length (l1 ++ x :: m)) (l1 ++ a :: m ++ b :: l2) 0 = b) as Nj.
  { intros a b. by rewrite Hsplit, <-(Hlen a), nth_middle_eq. }
  unfold xor_swap. cbn zeta. rewrite nth_middle_eq, Nj, insert_middle, nth_middle_eq, Nj, Hj, nth_middle_eq, Nj, insert_middle.
  assert (Z.lxor y (Z.lxor x y) = x) as -> by (rewrite Z.lxor_comm, Z.lxor_assoc, Z.lxor_nilpotent; apply Z.lxor_0_r).
  do 2 f_equal. rewrite (Z.lxor_comm x y), Z.lxor_assoc, Z.lxor_nilpotent. apply Z.lxor_0_r.
Qed.

Lemma xor_reverse_app rounds l1 m l2 :
  (length m ≤ rounds)%nat →
  xor_reverse rounds (length l1) (length (l1 ++ m)) (l1 ++ m ++ l2) = l1 ++ reverse m ++ l2.
Proof.
  revert l1 m l2. induction rounds as [|rounds IH]; intros l1 m l2 Hr; [destruct m; [done|simpl in Hr; lia]|].
  cbn [xor_reverse]. rewrite length_app. replace (length l1 + length m - length l1)%nat with (length m) by lia.
  destruct m as [|x m]; [done|]. destruct m as [|y m _] using rev_ind; [done|].
  destruct (Nat.ltb_spec 1 (length (x :: m ++ [y]))) as [_|Hle]; [|simpl in Hle; rewrite length_app in Hle; simpl in Hle; lia].
  cbn [length] in *. rewrite length_app in *. cbn [length] in *.
  assert (length l1 + S (length m + 1) - 1 = length (l1 ++ x :: m))%nat as -> by (rewrite length_app; simpl; lia).
  assert (l1 ++ (x :: m ++ [y]) ++ l2 = l1 ++ x :: m ++ y :: l2) as -> by (simpl; by rewrite <-app_assoc).
  rewrite xor_swap_app. assert (l1 ++ y :: m ++ x :: l2 = (l1 ++ [y]) ++ m ++ x :: l2) as -> by (by rewrite <-app_assoc).
  assert (length l1 + 1 = length (l1 ++ [y]))%nat as -> by (by rewrite length_app).
  assert (length (l1 ++ x :: m) = length ((l1 ++ [y]) ++ m)) as -> by (rewrite !length_app; simpl; lia).
  rewrite IH by lia. rewrite reverse_cons, reverse_app. simpl. by rewrite <-!app_assoc.
Qed.

(** The loop of exclusive ors is [std::reverse]. *)
Lemma xor_reverse_spec buf : xor_reverse (length buf) 0 (length buf) buf = reverse buf.
Proof.
  pose proof (xor_reverse_app (length buf) [] buf [] (le_n _)) as Hr. cbn [app length] in Hr. by rewrite !app_nil_r in Hr.
Qed.

Lemma code_48 d : 0 <= d <= 9 → code (chr (48 + d)) = 48 + d.
Proof. intros Hd. rewrite code_chr. apply Z.mod_small. lia. Qed.
Lemma digit_48 d : 0 <= d <= 9 → is_digit (chr (48 + d)) = true.
Proof. intros Hd. unfold is_digit. rewrite code_48 by done. lia. Qed.

Lemma put_digits_value n v acc r :
  0 <= v < 10 ^ Z.of_nat n →
  atoi_digits 1 acc ((chr <$> reverse (put_digits n v)) ++ r)
  = atoi_digits 1 (acc * 10 ^ Z.of_nat (length (put_digits n v)) + v) r.
Proof.
  revert v acc r. induction n as [|n IH]; intros v acc r Hv.
  { assert (v = 0) as -> by (simpl in Hv; lia). cbn. f_equal. lia. }
  cbn [put_digits]. destruct (Z.eqb_spec v 0) as [->|Hne]; [cbn; f_equal; lia|].
  rewrite Nat2Z.inj_succ, Z.pow_succ_r in Hv by lia.
  rewrite Z.quot_div_nonneg, Z.rem_mod_nonneg by lia. pose proof (Z.mod_pos_bound v 10 ltac:(lia)) as Hm.
  rewrite reverse_cons, fmap_app, <-app_assoc. rewrite IH by (split; [apply Z.div_pos|apply Z.div_lt_upper_bound]; lia).
  cbn [fmap list_fmap app]. cbn [atoi_digits]. rewrite digit_48, code_48 by lia. f_equal. cbn [length].
  rewrite Nat2Z.inj_succ, Z.pow_succ_r by lia. pose proof (Z.div_mod v 10). lia.
Qed.

Lemma put_digits_digits n v : 0 <= v → Forall (λ c, is_digit c = true) (chr <$> reverse (put_digits n v)).
Proof.
  intros Hv. apply Forall_fmap, Forall_reverse. revert v Hv. induction n as [|n IH]; intros v Hv; [constructor|].
  cbn [put_digits]. destruct (v =? 0); [constructor|]. rewrite Z.quot_div_nonneg, Z.rem_mod_nonneg by lia.
  pose proof (Z.mod_pos_bound v 10 ltac:(lia)). constructor; [by apply digit_48; lia|]. apply IH, Z.div_pos; lia.
Qed.

Lemma atoi_digit_first l r : Forall (λ c, is_digit c = true) l → l ≠ [] → atoi (l ++ r) = atoi_digits 1 0 (l ++ r).
Proof.
  intros Hl Hne. destruct Hl as [|c l Hc Hl]; [done|]. cbn [app atoi]. unfold is_digit in Hc. unfold is_space.
  destruct ((code c =? 32) || ((9 <=? code c) && (code c <=? 13))) eqn:Hs; [lia|].
  rewrite !eqb_ne; [done| |]; intros ->; vm_compute in Hc; discriminate.
Qed.

Lemma length_text_value v r :
  0 <= v <= int_max int_t → atoi (length_text v ++ CR :: r) = Ok v ∧ Forall (λ c, is_digit c = true) (length_text v) ∧ length_text v ≠ [].
Proof.
  intros Hv. unfold length_text. rewrite xor_reverse_spec. change (int_max int_t) with 2147483647 in Hv.
  destruct (Z.eqb_spec v 0) as [->|Hne]; [by repeat constructor|].
  assert ((chr <$> reverse (put_digits 32 v)) ≠ []) as Hnil.
  { change (put_digits 32 v) with (if v =? 0 then [] else (48 + Z.rem v 10) :: put_digits 31 (Z.quot v 10)).
    destruct (Z.eqb_spec v 0); [done|]. rewrite reverse_cons, fmap_app. by destruct (chr <$> _). }
  pose proof (put_digits_digits 32 v ltac:(lia)) as Hd. split_and!; [|done|done].
  rewrite atoi_digit_first by done. rewrite put_digits_value.
  2:{ change (10 ^ Z.of_nat 32) with 100000000000000000000000000000000. lia. }
  cbn [atoi_digits]. change (is_digit CR) with false. cbn iota. unfold int_op.
  rewrite (proj2 (in_range_spec int_t (1 * (0 * 10 ^ Z.of_nat (length (put_digits 32 v)) + v)))); [f_equal; lia|].
  change (int_min int_t) with (-2147483648). change (int_max int_t) with 2147483647. lia.
Qed.

Definition content_length : bytes := str "Content-Length".
Definition transfer_encoding : bytes := str "Transfer-Encoding".

Lemma good_names : good_name content_length ∧ good_name transfer_encoding.
Proof. by apply (bool_decide_unpack _); vm_compute. Qed.

Lemma digits_no_cr l : Forall (λ c, is_digit c = true) l → CR ∉ l.
Proof. intros Hl Hin. rewrite Forall_forall in Hl. by apply Hl in Hin. Qed.

Lemma digits_no_space l : Forall (λ c, is_digit c = true) l → no_space l.
Proof. intros Hl. destruct Hl as [|c l Hc Hl]; [done|]. intros [= ->]. by vm_compute in Hc. Qed.

Lemma single_remove name other fs : single name fs → single name (remove_field other fs).
Proof.
  unfold single. intros Hs. etrans; [|exact Hs]. clear Hs. induction fs as [|f fs IH]; [done|]. cbn [remove_field].
  rewrite filter_cons. destruct (begins other f.1).
  - destruct (decide _); simpl; lia.
  - rewrite filter_cons. destruct (decide _); simpl; lia.
Qed.

Lemma absent_remove name other fs : absent name fs → absent name (remove_field other fs).
Proof. intros Ha. apply Forall_forall. intros f Hf. eapply (proj1 (Forall_forall _ _) Ha), remove_field_sub, Hf. Qed.

(** The fields after [set_content_length]. *)
Lemma set_content_length_of fs h v :
  header_of fs h → 0 <= v <= int_max int_t →
  header_of (set_field content_length (length_text v) (remove_field transfer_encoding fs)) (set_content_length v h).
Proof.
  intros Hh Hv. destruct good_names as [Hc Ht]. destruct (length_text_value v [] Hv) as (_ & Hd & _).
  apply header_of_set; [done|by apply digits_no_cr|]. by apply header_of_remove.
Qed.

Lemma get_content_length_spec fs h v :
  header_of fs h → 0 <= v <= int_max int_t → get_field content_length fs = make_field content_length (length_text v) →
  get_content_length h = Ok v.
Proof.
  intros [Hh Hfs] Hv Hg. destruct good_names as [Hc _]. unfold get_content_length. fold content_length. rewrite Hh, find_spec by done.
  unfold get_field in Hg. destruct (find_field content_length fs) as [|f fs'] eqn:Hf; [by vm_compute in Hg|].
  destruct (render (f :: fs')) as [|c l] eqn:Hl; [by apply render_nonempty in Hl|]. rewrite <-Hl. clear c l Hl.
  rewrite render_cons, Hg, make_field_app, std_find_app by apply Hc. cbn [tail app skip_spaces].
  change (space =?c " "%char) with true. cbn iota. destruct (length_text_value v (LF :: render fs') Hv) as (Ha & Hd & Hne).
  rewrite skip_spaces_id by (done || by apply digits_no_space). destruct (length_text v ++ CR :: LF :: render fs') as [|x xs] eqn:Hx.
  { by destruct (length_text v). }
  exact Ha.
Qed.

(** The last field, without its CR LF. *)
Lemma render_last fs f : Forall good_field (fs ++ [f]) →
  ∃ l c d x, render (fs ++ [f]) = l ++ crlf ∧ reverse l = c :: d :: x ∧ d ≠ CR.
Proof.
  intros Hfs. apply Forall_app in Hfs as [_ Hf]. apply Forall_singleton in Hf as [(_ & _ & Hn & _) Hv].
  set (t := f.1 ++ str ": " ++ f.2). assert (CR ∉ t) as Ht.
  { subst t. rewrite !elem_of_app. intros [?|[Hin|?]]; [done| |done]. by vm_compute in Hin; set_solver. }
  assert (2 ≤ length (reverse t))%nat as Hlen by (subst t; rewrite length_reverse, !length_app; simpl; lia).
  destruct (reverse t) as [|c [|d x]] eqn:Hr; [simpl in Hlen; lia..|]. exists (render fs ++ t), c, d, (x ++ reverse (render fs)).
  split_and!.
  - rewrite render_app. unfold render at 2. cbn [fmap list_fmap concat]. rewrite app_nil_r. subst t. unfold make_field.
    by rewrite <-!app_assoc.
  - by rewrite reverse_app, Hr.
  - intros ->. apply Ht. rewrite <-elem_of_reverse, Hr. apply list_elem_of_further, list_elem_of_here.
Qed.

Lemma is_complete_render fs h : header_of fs h → is_complete h = false.
Proof.
  intros [Hh Hfs]. unfold is_complete. rewrite Hh. destruct fs as [|f fs _] using rev_ind; [done|].
  destruct (render_last fs f Hfs) as (l & c & d & x & -> & Hr & Hd). rewrite reverse_app, Hr. cbn. by rewrite (eqb_ne d), andb_false_r.
Qed.

Lemma is_complete_after fs h b : header_of fs h → fs ≠ [] → is_complete (Header (h_data h ++ crlf) b) = true.
Proof.
  intros [Hh Hfs] Hne. unfold is_complete. cbn [h_data]. rewrite Hh. destruct fs as [|f fs _] using rev_ind; [done|].
  destruct (render_last fs f Hfs) as (l & c & d & x & -> & _ & _). by rewrite !reverse_app.
Qed.

(** ** Properties *)

(** A header that was built from fields is an ordered list of them:
    [set], [remove], [set_chunked], [set_content_length], [get] and
    [is_chunked] on the text are the corresponding operations on the list,
    and keep it well formed; no search runs over the end. *)
Theorem header_is_a_list_of_fields fs h name value :
  header_of fs h → good_name name → CR ∉ value →
  header_of (set_field name value fs) (set name value h) ∧
  header_of (remove_field name fs) (remove name h) ∧
  get name h = get_field name fs ∧
  is_chunked h = match find_field transfer_encoding fs with [] => false | _ => true end ∧
  (is_complete h = false ∧ is_complete (complete h) = if decide (fs = []) then false else true).
Proof.
  intros Hh Hn Hv. split_and!.
  - by apply header_of_set.
  - by apply header_of_remove.
  - by apply get_spec.
  - by apply is_chunked_spec.
  - by eapply is_complete_render.
  - unfold complete. rewrite (is_complete_render fs h Hh). destruct (decide (fs = [])) as [->|Hne].
    + destruct Hh as [Hh _]. by destruct h as [d b]; cbn in Hh; subst d.
    + by eapply is_complete_after.
Qed.

Definition header1 : header := set (str "Host") (str "h") (set_content_length 120 header0).
Definition fields1 : list field := [(str "Content-Length", str "120"); (str "Host", str "h")].
Lemma header1_of : header_of fields1 header1.
Proof. split; [by vm_compute|by apply (bool_decide_unpack _); vm_compute]. Qed.

Lemma header_is_a_list_of_fields_witness :
  header_of [(str "Content-Length", str "120"); (str "host", str "x")] (set (str "host") (str "x") header1) ∧
  is_complete (complete header1) = true.
Proof.
  destruct (header_is_a_list_of_fields fields1 header1 (str "host") (str "x") header1_of) as (Hs & _ & _ & _ & _ & Hc);
    [by apply (bool_decide_unpack _); vm_compute|by apply (bool_decide_unpack _); vm_compute|]. split; [exact Hs|exact Hc].
Defined.

(** C31.  What was set is read back: [get] and [get_value] give the value that
    [set] was given last, when at most one field was there whose name begins
    so, and the fields of other names are as they were; and
    [get_content_length] gives the number of [set_content_length], which
    leaves no transfer encoding. *)
Theorem header_round_trip fs h name value v :
  header_of fs h → good_name name → CR ∉ value → no_space value → single name fs →
  get_name (get name (set name value h)) = name ∧
  get_value (get name (set name value h)) = value ∧
  (∀ other, good_name other → begins other name = false →
    Forall (λ f : field, begins name f.1 = true → begins other f.1 = false) fs →
    get other (set name value h) = get other h) ∧
  (0 <= v <= int_max int_t → single content_length fs → single transfer_encoding fs →
    get_content_length (set_content_length v h) = Ok v ∧ is_chunked (set_content_length v h) = false).
Proof.
  intros Hh Hn Hv Hsp Hs. pose proof (header_of_set name value fs h Hn Hv Hh) as Hset. split_and!.
  - by rewrite (get_spec name _ _ Hn Hset), get_set_field, get_name_make.
  - by rewrite (get_spec name _ _ Hn Hset), get_set_field, get_value_make.
  - intros other Ho Hb Hf. rewrite (get_spec other _ _ Ho Hset), (get_spec other _ _ Ho Hh). by apply get_other_field.
  - intros Hr Hc Ht. pose proof (set_content_length_of fs h v Hh Hr) as Hlen. split.
    + eapply get_content_length_spec; [exact Hlen|done|]. apply get_set_field. by apply single_remove.
    + rewrite (is_chunked_spec _ _ Hlen). unfold set_field.
      rewrite (find_field_app transfer_encoding); [by vm_compute|]. by apply absent_remove, single_removed.
Qed.

Lemma header_round_trip_witness :
  get_value (get (str "Host") (set (str "Host") (str "x y") header1)) = str "x y" ∧
  get_content_length (set_content_length 2147483647 header1) = Ok 2147483647.
Proof.
  destruct (header_round_trip fields1 header1 (str "Host") (str "x y") 2147483647 header1_of) as (_ & Hv & _ & Hl);
    [by apply (bool_decide_unpack _); vm_compute..|done|unfold single; vm_compute; lia|]. split; [exact Hv|].
  apply Hl; [by vm_compute|unfold single; vm_compute; lia..].
Defined.

(** A name that is only the beginning of a field's name is taken for
    it: setting a field [name] deletes the field of the longer name. *)
Theorem longer_name_is_deleted name rest v value b :
  good_name (name ++ rest) → good_name name → rest ≠ [] → CR ∉ v → CR ∉ value →
  let h := Header (make_field (name ++ rest) v) b in
  get_value (get (name ++ rest) (set name value h)) = [] ∧ h_data (set name value h) = make_field name value.
Proof.
  intros Hr Hn Hne Hv Hval h.
  assert (∀ l, begins name (name ++ l) = true) as Hb.
  { intros l. clear -name. induction name as [|a n IH]; [done|]. cbn. pose proof (begins_refl [a]) as Ha. cbn in Ha.
    rewrite andb_true_r in Ha. by rewrite Ha, IH. }
  assert (∀ n, begins (n ++ rest) n = false) as Hl.
  { intros n. induction n as [|a n IH]; [by destruct rest|]. cbn. by rewrite IH, andb_false_r. }
  assert (header_of [(name ++ rest, v)] h) as Hh.
  { split; [cbn; unfold render; cbn; by rewrite app_nil_r|]. by apply Forall_singleton. }
  pose proof (header_of_set name value _ h Hn Hval Hh) as Hset. split.
  - rewrite (get_spec (name ++ rest) _ _ Hr Hset). unfold get_field, set_field. cbn [remove_field fst]. rewrite Hb. cbn. by rewrite Hl.
  - destruct Hset as [-> _]. unfold set_field. cbn [remove_field fst]. rewrite Hb. cbn. unfold render. cbn. by rewrite app_nil_r.
Qed.

Lemma longer_name_is_deleted_witness :
  h_data (set (str "Accept") (str "*") (Header (make_field (str "Accept-Encoding") (str "gzip")) false)) = make_field (str "Accept") (str "*").
Proof.
  by apply (longer_name_is_deleted (str "Accept") (str "-Encoding") (str "gzip") (str "*") false);
    apply (bool_decide_unpack _); vm_compute.
Defined.
