(* ===== verification/HttpReader.v ===== *)
(** * HttpReader: the readers of HTTP messages, [src/fas/adv/http]

    A connection gives the blocks that it reads to the reader that is the
    current state: the header's, the one of a body with a length, the one of
    a chunked body or the one of no body.  A reader that is done makes
    another the current one ([ad_state], which activates it) and calls it
    with the rest of the block. *)

From S2P Require Import Prelude HttpHeader.

(** ** The state *)

Inductive reader_state := Read_header | Read_chunk | Read_body | Read_nobody.

#[export] Instance reader_state_eq_dec : EqDecision reader_state.
Proof. solve_decision. Defined.

(** The request's first line and header, the current state, the members of
    [ad_header_reader], [ad_body_buf_reader] and [ad_body_chunk_reader]. *)
(* src: fas/adv/http/ad_request_header.hpp 22-24 ad_request_header *)
Record reader := Reader {
  r_line : bytes;
  r_header : header;
  r_state : reader_state;
  hr_buffer : bytes;
  br_length : Z;
  br_buffer : bytes;
  cr_data : bytes;
  cr_size : Z;
}.

Definition reader0 : reader := Reader [] header0 Read_header [] 0 [] [] (-1).

Definition set_request (line : bytes) (h : header) (r : reader) : reader :=
  Reader line h (r_state r) (hr_buffer r) (br_length r) (br_buffer r) (cr_data r) (cr_size r).
Definition set_rstate (s : reader_state) (r : reader) : reader :=
  Reader (r_line r) (r_header r) s (hr_buffer r) (br_length r) (br_buffer r) (cr_data r) (cr_size r).
Definition set_hr_buffer (b : bytes) (r : reader) : reader :=
  Reader (r_line r) (r_header r) (r_state r) b (br_length r) (br_buffer r) (cr_data r) (cr_size r).
Definition set_br (n : Z) (b : bytes) (r : reader) : reader :=
  Reader (r_line r) (r_header r) (r_state r) (hr_buffer r) n b (cr_data r) (cr_size r).
Definition set_cr (d : bytes) (n : Z) (r : reader) : reader :=
  Reader (r_line r) (r_header r) (r_state r) (hr_buffer r) (br_length r) (br_buffer r) d n.

(** What the readers call: [_head_readed_], [_process_uri_] with the address
    of the request and the data, [_body_readed_]. *)
Inductive http_event :=
  | Head_readed
  | Process_uri (uri data : bytes)
  | Body_readed.

#[export] Instance http_event_eq_dec : EqDecision http_event.
Proof. solve_decision. Defined.

Abbreviation rprog := (prog http_event reader).

(** [throw;] where nothing was caught ends the program. *)
Definition terminate {A} : rprog A := op_lift (Throw (thrown_pointer (str "std::terminate"))).

(* src: fas/adv/http/ad_process.hpp 26-35 ad_process::operator() *)
Definition process (data : bytes) : rprog unit :=
  line ← op_get r_line; op_emit (Process_uri (request_uri line) data).

(** ** Activation *)

(* src: fas/adv/http/ad_header_reader.hpp 38-44 ad_header_reader::activate *)
Definition activate_header : rprog unit :=
  op_modify (λ r, set_rstate Read_header (set_hr_buffer [] (set_request [] header0 r))).
(* src: fas/adv/http/ad_body_buf_reader.hpp 26-32 ad_body_buf_reader::activate *)
Definition activate_body : rprog unit :=
  h ← op_get r_header;
  n ← op_lift (get_content_length h);
  op_modify (λ r, set_rstate Read_body (set_br n [] r)).
(* src: fas/adv/http/ad_body_chunk_reader.hpp 29-35 ad_body_chunk_reader::activate *)
Definition activate_chunk : rprog unit := op_modify (λ r, set_rstate Read_chunk (set_cr [] (-1) r)).
(* src: fas/adv/http/ad_nobody_reader.hpp 20-23 ad_nobody_reader::activate *)
Definition activate_nobody : rprog unit := op_modify (set_rstate Read_nobody).

(** ** The header's reader *)

(** The rest of the block behind the end of the line: [None] for 0. *)
(* src: fas/adv/http/ad_header_reader.hpp 23-32 ad_header_reader::_rn *)
Definition _rn (d : bytes) : option bytes :=
  match d with
  | [] => None
  | c :: d' =>
      if c =?c LF then Some d'
      else match std_find CR d with
           | _ :: a :: n => if a =?c LF then Some n else None
           | _ => None
           end
  end.

(** Takes a line; whether the header is complete. *)
(* src: fas/adv/http/ad_request_header.hpp 65-73 ad_request_header::operator() *)
Definition request_header (line : bytes) : rprog bool :=
  op_modify (λ r, match r_line r with
                  | [] => set_request line (r_header r) r
                  | _ => set_request (r_line r) (Header (h_data (r_header r) ++ line) (_chunked (r_header r))) r
                  end);;
  h ← op_get r_header; mret (is_complete h).

(** The loop over the further lines from [n]: what is behind the header, when
    it is complete.  A line is not empty. *)
(* src: fas/adv/http/ad_header_reader.hpp 70-78 ad_header_reader::operator() *)
Fixpoint header_lines (lines : nat) (n : bytes) : rprog (option bytes) :=
  match lines with
  | O => op_lift NoFuel
  | S lines =>
      match _rn n with
      | None => op_modify (λ r, set_hr_buffer (hr_buffer r ++ n) r);; mret None
      | Some n' =>
          complete ← request_header (before n n');
          if complete : bool then mret (Some n') else header_lines lines n'
      end
  end.

(** What follows the header; [k] is the reader that is current by then. *)
(* src: fas/adv/http/ad_header_reader.hpp 80-103 ad_header_reader::operator() *)
Definition header_done (k : bytes → rprog unit) (n : bytes) : rprog unit :=
  h ← op_get r_header;
  content_length ← op_lift (get_content_length h);
  op_emit Head_readed;;
  (if is_chunked h then activate_chunk
   else if 0 <? content_length then activate_body
   else activate_nobody);;
  k n.

(* src: fas/adv/http/ad_header_reader.hpp 46-105 ad_header_reader::operator() *)
Definition header_read (k : bytes → rprog unit) (d : bytes) : rprog unit :=
  match d with
  | [] => mret tt
  | _ =>
      match _rn d with
      | None => op_modify (λ r, set_hr_buffer (hr_buffer r ++ d) r)
      | Some n =>
          buffer ← op_get hr_buffer;
          complete ← request_header (buffer ++ before d n);
          op_modify (set_hr_buffer []);;
          rest ← (if complete : bool then mret (Some n) else header_lines (S (length n)) n);
          match rest with
          | Some n => header_done k n
          | None => mret tt
          end
      end
  end.

(** ** The reader of a body with a length *)

(** [static_cast<size_t>] of the length; it was positive. *)
(* src: fas/adv/http/ad_body_buf_reader.hpp 34-87 ad_body_buf_reader::operator() *)
Definition body_read (k : bytes → rprog unit) (d : bytes) : rprog unit :=
  match d with
  | [] => mret tt
  | _ =>
      content_length ← op_get (λ r, wrap ulong_t (br_length r));
      buffer ← op_get br_buffer;
      if content_length <=? Z.of_nat (length buffer) then terminate
      else
        let needed := Z.to_nat (content_length - Z.of_nat (length buffer)) in
        let '(buffer, tail) :=
          match buffer with
          | _ :: _ =>
              if (needed <? length d)%nat then (buffer ++ take needed d, (length d - needed)%nat)
              else (buffer ++ d, 0%nat)
          | [] => if (length d <? needed)%nat then (d, 0%nat) else ([], (length d - needed)%nat)
          end in
        op_modify (λ r, set_br (br_length r) buffer r);;
        (match buffer with
         | [] => process (take needed d)
         | _ =>
             if Z.of_nat (length buffer) =? content_length then
               process buffer;; op_modify (λ r, set_br (br_length r) [] r)
             else if content_length <? Z.of_nat (length buffer) then terminate
             else mret tt
         end);;
        buffer ← op_get br_buffer;
        if decide (tail ≠ 0%nat ∧ buffer ≠ []) then terminate
        else match buffer with
             | _ :: _ => mret tt
             | [] =>
                 activate_header;;
                 (if decide (tail = 0%nat) then mret tt else k (drop (length d - tail) d));;
                 op_emit Body_readed
             end
  end.

(** ** The reader of no body: the rest of the block is not passed on *)
(* src: fas/adv/http/ad_nobody_reader.hpp 25-30 ad_nobody_reader::operator() *)
Definition nobody_read (d : bytes) : rprog unit := activate_header;; op_emit Body_readed.

(** ** The reader of a chunked body

    Places in the block are offsets, since the code moves them by numbers
    that it reads: the characters at an offset outside of the block are
    undefined. *)

Definition at_offset (d : bytes) (b : Z) : res bytes :=
  if (0 <=? b) && (b <=? Z.of_nat (length d)) then Ok (drop (Z.to_nat b) d) else Undef.

(** [strtol(hex, 0, 16)] of a text that is short enough not to overflow. *)
Definition hex_value (c : ascii) : option Z :=
  if is_digit c then Some (code c - 48)
  else if (97 <=? code c) && (code c <=? 102) then Some (code c - 87)
  else if (65 <=? code c) && (code c <=? 70) then Some (code c - 55)
  else None.
Fixpoint hex_digits (acc : Z) (l : bytes) : Z :=
  match l with
  | [] => acc
  | c :: l => match hex_value c with Some x => hex_digits (16 * acc + x) l | None => acc end
  end.
Definition hex_number (l : bytes) : Z :=
  match l with
  | z :: x :: c :: _ =>
      if (z =?c "0") && ((x =?c "x") || (x =?c "X")) && bool_decide (is_Some (hex_value c)) then hex_digits 0 (drop 2 l)
      else hex_digits 0 l
  | _ => hex_digits 0 l
  end.
Fixpoint strtol16 (l : bytes) : Z :=
  match l with
  | [] => 0
  | c :: l' =>
      if is_space c then strtol16 l'
      else if c =?c "-" then - hex_number l'
      else if c =?c "+" then hex_number l'
      else hex_number l
  end.

(* src: fas/adv/http/ad_body_chunk_reader.hpp 101-109 ad_body_chunk_reader::prepare_chunk_size *)
Definition prepare_chunk_size (l : bytes) : Z :=
  if decide (length l = 0%nat ∨ (8 < length l)%nat) then 0 else strtol16 l.

(* src: fas/adv/http/ad_body_chunk_reader.hpp 186-195 ad_body_chunk_reader::_ready_length *)
Definition _ready_length (data : bytes) : bool :=
  match reverse data with a :: b :: _ => (a =?c LF) && (b =?c CR) | _ => false end.

(** The CR LF behind the chunk counts. *)
(* src: fas/adv/http/ad_body_chunk_reader.hpp 142-144 ad_body_chunk_reader::_process_length *)
Definition chunk_length (l : bytes) : Z :=
  let n := prepare_chunk_size l in if 0 <? n then n + 2 else n.

(* src: fas/adv/http/ad_body_chunk_reader.hpp 119-120 ad_body_chunk_reader::_process_length *)
Fixpoint copy_ready (data l : bytes) (b : Z) : bytes * Z :=
  match l with
  | [] => (data, b)
  | c :: l => if _ready_length data then copy_ready (data ++ [c]) l (b + 1) else (data, b)
  end.

(** The offset behind the length; it is not read when it is known. *)
(* src: fas/adv/http/ad_body_chunk_reader.hpp 111-147 ad_body_chunk_reader::_process_length *)
Definition _process_length (d : bytes) (b : Z) : rprog Z :=
  size ← op_get cr_size;
  if negb (size =? -1) then mret b
  else
    beg ← op_lift (at_offset d b);
    data ← op_get cr_data;
    match data with
    | _ :: _ =>
        let '(data, b) := copy_ready data beg b in
        (if _ready_length data then op_modify (set_cr [] (chunk_length data))
         else op_modify (set_cr data size));;
        mret b
    | [] =>
        let ne := std_find CR beg in
        if (length ne <? 2)%nat then op_modify (set_cr beg size);; mret (Z.of_nat (length d))
        else
          let n := (length beg - length ne + 2)%nat in
          op_modify (set_cr [] (chunk_length (take n beg)));; mret (b + Z.of_nat n)
    end.

(** The offset behind what the chunk has of the block. *)
(* src: fas/adv/http/ad_body_chunk_reader.hpp 149-184 ad_body_chunk_reader::_process_body *)
Definition _process_body (d : bytes) (b : Z) : rprog Z :=
  size ← op_get cr_size;
  data ← op_get cr_data;
  let e := Z.of_nat (length d) in
  if size =? 0 then mret b
  else match data with
       | [] =>
           if size <=? e - b then mret (b + size)
           else beg ← op_lift (at_offset d b); op_modify (set_cr beg size);; mret e
       | _ =>
           beg ← op_lift (at_offset d b);
           if size <=? wrap int_t (e - b + Z.of_nat (length data)) then
             let tail := wrap ulong_t (size - Z.of_nat (length data)) in
             if Z.of_nat (length beg) <? tail then op_lift Undef
             else op_modify (set_cr (data ++ take (Z.to_nat tail) beg) size);; mret (b + tail)
           else op_modify (set_cr (data ++ beg) size);; mret e
       end.

(** Where the chunk is: nowhere yet, in the block or in [_data]. *)
Inductive chunk_place := No_chunk | In_block (b : Z) | In_data.

(** The offset behind it, its place and its length, negative when it is not
    all there. *)
(* src: fas/adv/http/ad_body_chunk_reader.hpp 69-99 ad_body_chunk_reader::_process_chunk *)
Definition _process_chunk (d : bytes) (b : Z) : rprog (Z * chunk_place * Z) :=
  size ← op_get cr_size;
  beg ← (if size =? -1 then _process_length d b else mret b);
  size ← op_get cr_size;
  e ← (if negb (size =? -1) then _process_body d beg else mret (Z.of_nat (length d)));
  data ← op_get cr_data;
  let s := if 1 <? size then size - 2 else size in
  if size =? -1 then mret (e, No_chunk, s)
  else if bool_decide (data = []) && (e - beg =? size) then
    op_modify (set_cr data (-1));; mret (e, In_block beg, s)
  else if (Z.of_nat (length data) =? wrap ulong_t size) && negb (bool_decide (data = [])) then
    op_modify (set_cr data (-1));; mret (e, In_data, s)
  else mret (e, No_chunk, -1).

(** The [s] characters of the chunk. *)
Definition chunk_text (d : bytes) (place : chunk_place) (s : Z) : rprog bytes :=
  match place with
  | In_block b => l ← op_lift (at_offset d b); mret (take (Z.to_nat s) l)
  | In_data => data ← op_get cr_data; mret (take (Z.to_nat s) data)
  | No_chunk => op_lift Undef
  end.

(** The loop over the block.  It goes on behind the last chunk, with what the
    header's reader was given already. *)
(* src: fas/adv/http/ad_body_chunk_reader.hpp 45-62 ad_body_chunk_reader::operator() *)
Fixpoint chunk_loop (rounds : nat) (k : bytes → rprog unit) (d : bytes) (b : Z) : rprog unit :=
  match rounds with
  | O => op_lift NoFuel
  | S rounds =>
      if b =? Z.of_nat (length d) then mret tt
      else
        '(b, place, ss) ← _process_chunk d b;
        (if 0 <? ss then
           body ← chunk_text d place ss;
           process body;;
           op_modify (λ r, set_cr [] (cr_size r) r)
         else if ss =? 0 then
           process [];;
           activate_header;;
           rest ← op_lift (at_offset d b);
           k rest;;
           op_emit Body_readed;;
           op_modify (λ r, set_cr [] (cr_size r) r)
         else mret tt);;
        chunk_loop rounds k d b
  end.

(* src: fas/adv/http/ad_body_chunk_reader.hpp 37-63 ad_body_chunk_reader::operator() *)
Definition chunk_read (rounds : nat) (k : bytes → rprog unit) (d : bytes) : rprog unit :=
  match d with [] => mret tt | _ => chunk_loop rounds k d 0 end.

(** ** The current reader

    [fuel] bounds how deep the readers call each other within a block and how
    often a chunk reader goes round. *)
(* src: fas/adv/ad_state.hpp 81-86 ad_state::operator() *)
Fixpoint http_read (fuel : nat) (d : bytes) : rprog unit :=
  match fuel with
  | O => op_lift NoFuel
  | S fuel =>
      s ← op_get r_state;
      match s with
      | Read_header => header_read (http_read fuel) d
      | Read_chunk => chunk_read (S fuel) (http_read fuel) d
      | Read_body => body_read (http_read fuel) d
      | Read_nobody => nobody_read d
      end
  end.

(** A block that the connection read; there is fuel for every character. *)
Definition http_block (d : bytes) : rprog unit := http_read (S (S (length d))) d.

Fixpoint http_blocks (ds : list bytes) : rprog unit :=
  match ds with
  | [] => mret tt
  | d :: ds => http_block d;; http_blocks ds
  end.

Definition post (body : bytes) : bytes :=
  str "POST /u HTTP/1.1" ++ crlf ++ make_field (str "Content-Length") (length_text (Z.of_nat (length body))) ++ crlf ++ body.
Definition post_chunked (body : bytes) : bytes :=
  str "POST /u HTTP/1.1" ++ crlf ++ make_field (str "Transfer-Encoding") (str "chunked") ++ crlf ++ body.

Example two_posts :
  let '(r, r', ev) := http_blocks [post (str "ab") ++ take 30 (post (str "cde")); drop 30 (post (str "cde"))] reader0 in
  r = Ok tt ∧ r_state r' = Read_header ∧
  ev = [Head_readed; Process_uri (str "/u") (str "ab"); Body_readed; Head_readed; Process_uri (str "/u") (str "cde"); Body_readed].
Proof. vm_compute. done. Qed.
