(* ===== verification/HttpReaderSpec.v ===== *)
(** * HttpReaderSpec: the requests that the readers hand on

    Whatever the blocks that the connection reads, requests whose bodies have
    a length are handed on one after the other; and what goes wrong with the
    chunked ones. *)

From S2P Require Import Prelude HttpHeader HttpHeaderSpec HttpReader.

(** ** Lines *)

Definition line_text (t : bytes) : Prop := CR ∉ t ∧ LF ∉ t.

Lemma line_text_app t1 t2 : line_text (t1 ++ t2) ↔ line_text t1 ∧ line_text t2.
Proof. unfold line_text. rewrite !elem_of_app. naive_solver. Qed.

(** How a line can be cut in two. *)
Lemma line_cut t p q : line_text t → t ++ crlf = p ++ q → q ≠ [] → q = [LF] ∨ ∃ t2, q = t2 ++ crlf ∧ line_text t2.
Proof.
  intros Ht Heq Hq. apply app_eq_inv in Heq as [(k & -> & ->)|(k & -> & Hk)].
  - right. exists k. split; [done|]. by apply line_text_app in Ht as [_ ?].
  - destruct k as [|a [|b k]]; cbn in Hk.
    + right. exists []. split; [done|]. split; apply not_elem_of_nil.
    + left. by injection Hk as _ <-.
    + injection Hk as _ _ Hk. by destruct k.
Qed.

Lemma rn_line t d : line_text t → _rn (t ++ CR :: LF :: d) = Some d.
Proof.
  intros [Hc Hl]. unfold _rn. rewrite (std_find_app CR t (LF :: d) Hc). destruct t as [|a t]; [done|]. cbn [app].
  rewrite eqb_ne; [done|]. intros ->. apply Hl, list_elem_of_here.
Qed.

Lemma rn_some p d t d' :
  line_text t → (length p < length (t ++ crlf))%nat → p ++ d = (t ++ crlf) ++ d' →
  _rn d = Some d' ∧ p ++ before d d' = t ++ crlf.
Proof.
  intros Ht Hlen Heq. symmetry in Heq. apply app_eq_inv in Heq as [(q & Hq & ->)|(k & -> & _)]; [|rewrite length_app in Hlen; lia].
  assert (q ≠ []) as Hne by (intros ->; rewrite Hq, app_nil_r in Hlen; lia). split; [|by rewrite before_app].
  destruct (line_cut t p q Ht Hq Hne) as [->|(t2 & -> & Ht2)]; [done|]. rewrite <-app_assoc. by apply rn_line.
Qed.

Lemma rn_none p d s t : line_text t → d ≠ [] → s ≠ [] → t ++ crlf = p ++ d ++ s → _rn d = None.
Proof.
  intros Ht Hd Hs Heq. destruct (line_cut t p (d ++ s) Ht Heq) as [Hq|(t2 & Hq & Ht2)]; [by destruct d| |].
  { destruct d as [|a [|b d]]; [done|by destruct s|by destruct d]. }
  assert (∀ k, line_text k → _rn k = None ∧ _rn (k ++ [CR]) = None) as Hk.
  { intros k [Hc Hl]. unfold _rn. rewrite std_find_none, std_find_app by done. destruct k as [|a k]; [done|]. cbn [app].
    rewrite eqb_ne; [done|]. intros ->. apply Hl, list_elem_of_here. }
  symmetry in Hq. apply app_eq_inv in Hq as [(k & -> & _)|(k & -> & Hk2)].
  - by apply line_text_app in Ht2 as [? _]; apply Hk.
  - destruct k as [|a [|b k]]; cbn in Hk2.
    + rewrite app_nil_r. by apply Hk.
    + injection Hk2 as <- _. by apply Hk.
    + injection Hk2 as _ _ Hk2. by destruct k, s.
Qed.

(** Whether a text ends in this block: [q] is what of [d] belongs to it. *)
Lemma block_cut (S d T R : bytes) :
  S ++ T = d ++ R → (∃ S', S' ≠ [] ∧ S = d ++ S' ∧ R = S' ++ T) ∨ (∃ d2, d = S ++ d2 ∧ T = d2 ++ R).
Proof.
  intros Heq. apply app_eq_inv in Heq as [(k & -> & ->)|(k & -> & ->)]; [|right; by exists k].
  destruct k as [|a k]; [right|left; by exists (a :: k)]. exists []. by rewrite !app_nil_r.
Qed.

(** ** Requests *)

Record request := Request { q_line : bytes; q_fields : list field; q_body : bytes }.

Definition head_text (m : request) : bytes := render (q_fields m) ++ crlf.
Definition render_request (m : request) : bytes := (q_line m ++ crlf) ++ head_text m ++ q_body m.

(** A first line, at least one field, a body and its length. *)
Record good_request (m : request) : Prop := {
  gq_line : q_line m ≠ [] ∧ line_text (q_line m);
  gq_fields : q_fields m ≠ [] ∧ Forall (λ f, good_field f ∧ LF ∉ f.1 ∧ LF ∉ f.2) (q_fields m);
  gq_chunked : is_chunked (Header (head_text m) false) = false;
  gq_length : get_content_length (Header (head_text m) false) = Ok (Z.of_nat (length (q_body m)));
  gq_body : q_body m ≠ [] ∧ Z.of_nat (length (q_body m)) <= int_max int_t;
}.

(** The line that a field is. *)
Definition field_text (f : field) : bytes := f.1 ++ str ": " ++ f.2.
Lemma make_field_text f : make_field f.1 f.2 = field_text f ++ crlf.
Proof. unfold make_field, field_text. by rewrite <-!app_assoc. Qed.
Lemma field_text_line f : good_field f → LF ∉ f.1 → LF ∉ f.2 → line_text (field_text f).
Proof.
  intros [(_ & _ & Hn & _) Hv] Hn' Hv'. split; unfold field_text; rewrite !elem_of_app; intros [?|[Hin|?]]; try done;
    by vm_compute in Hin; set_solver.
Qed.

(** The next line of the header, when the fields [fs] are left, and what
    follows it. *)
Definition next_line (fs : list field) : bytes := match fs with [] => [] | f :: _ => field_text f end.
Lemma next_line_text fs :
  Forall (λ f : field, good_field f ∧ LF ∉ f.1 ∧ LF ∉ f.2) fs → line_text (next_line fs).
Proof. intros [|f fs' (Hf & Hn & Hv) _]; [split; apply not_elem_of_nil|by apply field_text_line]. Qed.

(** ** The header, line by line *)

Definition with_header (hd : bytes) (r : reader) : reader := set_request (r_line r) (Header hd (_chunked (r_header r))) r.

Lemma runs_request_field {B} line (f : bool → rprog B) r b r2 ev :
  r_line r ≠ [] →
  runs (f (is_complete (Header (h_data (r_header r) ++ line) false))) (with_header (h_data (r_header r) ++ line) r) b r2 ev →
  runs (request_header line ≫= f) r b r2 ev.
Proof.
  intros Hr Hf. eapply (runs_bind _ _ _ _ _ []); [|exact Hf]. unfold request_header. apply runs_modify, runs_get.
  destruct r as [[|c l] h s b1 n b2 d sz]; [done|]. done.
Qed.

Lemma complete_after m fs1 fs2 :
  good_request m → q_fields m = fs1 ++ fs2 →
  is_complete (Header (render fs1) false) = false ∧ is_complete (Header (head_text m) false) = true.
Proof.
  intros [_ [Hne Hf] _ _ _] Hfs. assert (Forall good_field (q_fields m)) as Hg by (eapply Forall_impl; [exact Hf|]; by intros f (? & _ & _)).
  split.
  - apply (is_complete_render fs1). split; [done|]. rewrite Hfs in Hg. by apply Forall_app in Hg as [? _].
  - by apply (is_complete_after (q_fields m) (Header (render (q_fields m)) false) false).
Qed.

Lemma header_lines_spec m fs1 fs2 r n T R rounds :
  good_request m → q_fields m = fs1 ++ fs2 → r_line r ≠ [] → h_data (r_header r) = render fs1 → hr_buffer r = [] →
  (length n < rounds)%nat → (render fs2 ++ crlf) ++ T = n ++ R →
  (∃ fs1' fs2' p S, runs (header_lines rounds n) r None (set_hr_buffer p (with_header (render fs1') r)) [] ∧
     q_fields m = fs1' ++ fs2' ∧ (length p < length (next_line fs2' ++ crlf))%nat ∧ p ++ S = render fs2' ++ crlf ∧ R = S ++ T) ∨
  (∃ d2, runs (header_lines rounds n) r (Some d2) (with_header (head_text m) r) [] ∧ T = d2 ++ R ∧ (length d2 < length n)%nat).
Proof.
  intros Hm. revert fs1 r n rounds. induction fs2 as [|f fs2 IH]; intros fs1 r n rounds Hfs Hr Hh Hb Hlen Heq.
  all: destruct rounds as [|rounds]; [lia|]; cbn [header_lines].
  all: assert (with_header (render fs1) r = r) as Hid by
    (destruct r as [l [hd c] s b1 k b2 d sz]; unfold with_header; cbn in Hh |- *; by subst hd).
  all: pose proof (gq_fields _ Hm) as [_ Hg]; rewrite Hfs in Hg; apply Forall_app in Hg as [_ Hg].
  - destruct (block_cut crlf n T R Heq) as [(S' & HS & Hcut & HR)|(d2 & Hn & HT)].
    + left. exists fs1, [], n, S'. assert (_rn n = None) as Hrn.
      { destruct n as [|a n]; [done|]. by eapply (rn_none [] (a :: n) S' []); [split; apply not_elem_of_nil| | |]. }
      rewrite Hrn. split_and!; [|done| |by rewrite <-Hcut|done].
      * apply runs_modify. rewrite Hb, Hid. apply runs_ret.
      * cbn [next_line app]. rewrite Hcut, length_app. destruct S'; [done|simpl; lia].
    + right. exists d2. destruct (rn_some [] n [] d2) as [Hrn Hbef]; [split; apply not_elem_of_nil|simpl; lia|done|].
      rewrite Hrn. cbn [app] in Hbef. rewrite Hbef. split_and!; [|done|rewrite Hn, length_app; simpl; lia].
      eapply runs_request_field; [done|]. rewrite Hh, app_nil_r in *. cbn [app] in *. subst fs1.
      change (render (q_fields m) ++ crlf) with (head_text m). rewrite (proj2 (complete_after m _ [] Hm (eq_sym (app_nil_r _)))).
      apply runs_ret.
  - apply Forall_cons in Hg as [(Hgf & Hl1 & Hl2) Hg]. pose proof (field_text_line f Hgf Hl1 Hl2) as Hline.
    rewrite render_cons, make_field_text, <-!(assoc_L (++)), (assoc_L (++) (field_text f)) in Heq.
    destruct (block_cut _ n _ R Heq) as [(S' & HS & Hcut & HR)|(d2 & Hn & HT)].
    + left. exists fs1, (f :: fs2), n, (S' ++ render fs2 ++ crlf). assert (_rn n = None) as Hrn.
      { destruct n as [|a n]; [done|]. by eapply (rn_none [] (a :: n) S' (field_text f)). }
      rewrite Hrn. split_and!; [|done| | |by rewrite HR, <-!(assoc_L (++))].
      * apply runs_modify. rewrite Hb, Hid. apply runs_ret.
      * cbn [next_line]. rewrite Hcut, length_app. destruct S'; [done|simpl; lia].
      * rewrite (assoc_L (++)), <-Hcut, render_cons, make_field_text. by rewrite <-!(assoc_L (++)).
    + destruct (rn_some [] n (field_text f) d2) as [Hrn Hbef]; [done|rewrite length_app; simpl; lia|done|].
      rewrite Hrn. cbn [app] in Hbef. rewrite Hbef.
      assert (h_data (r_header r) ++ field_text f ++ crlf = render (fs1 ++ [f])) as Hnew.
      { rewrite Hh, render_app. f_equal. unfold render. cbn [fmap list_fmap concat]. by rewrite app_nil_r, make_field_text. }
      assert (q_fields m = (fs1 ++ [f]) ++ fs2) as Hfs' by (rewrite Hfs, <-app_assoc; done).
      assert (∀ o r' , runs (header_lines rounds d2) (with_header (render (fs1 ++ [f])) r) o r' [] →
        runs (complete ← request_header (field_text f ++ crlf); if complete : bool then mret (Some d2) else header_lines rounds d2) r o r' []) as Hgo.
      { intros o r' Hl. eapply runs_request_field; [done|]. by rewrite Hnew, (proj1 (complete_after m _ _ Hm Hfs')). }
      assert (length n = length (field_text f ++ crlf) + length d2)%nat as Hlen2 by (by rewrite Hn, length_app).
      rewrite length_app in Hlen2. simpl in Hlen2.
      destruct (IH (fs1 ++ [f]) (with_header (render (fs1 ++ [f])) r) d2 rounds Hfs' Hr eq_refl Hb ltac:(lia)) as
        [(fs1' & fs2' & p & S & Hrun & ?)|(d3 & Hrun & ? & ?)].
      * rewrite <-(assoc_L (++)). exact HT.
      * left. exists fs1', fs2', p, S. split; [by apply Hgo|done].
      * right. exists d3. split; [by apply Hgo|]. split; [done|lia].
Qed.

(** ** Where a reader is *)

(** In the middle of the request [m]: [S] is what is to come of it. *)
Inductive inside (m : request) (r : reader) : bytes → Prop :=
  | in_line p S :
      r_state r = Read_header → r_line r = [] → r_header r = header0 → hr_buffer r = p →
      (length p < length (q_line m ++ crlf))%nat → p ++ S = render_request m → inside m r S
  | in_fields fs1 fs2 p S :
      r_state r = Read_header → r_line r = q_line m ++ crlf → r_header r = Header (render fs1) false →
      q_fields m = fs1 ++ fs2 → hr_buffer r = p → (length p < length (next_line fs2 ++ crlf))%nat →
      p ++ S = (render fs2 ++ crlf) ++ q_body m → inside m r S
  | in_body p S :
      r_state r = Read_body → r_line r = q_line m ++ crlf → br_length r = Z.of_nat (length (q_body m)) →
      br_buffer r = p → p ++ S = q_body m → S ≠ [] → inside m r S.

(** Behind the header: what the program does with [d] is what the body's
    reader does with the rest [d2]. *)
Definition hands_over (m : request) (k : bytes → rprog unit) (prog : rprog unit) (r : reader) (d T R : bytes) : Prop :=
  ∃ d2 r2, inside m r2 (q_body m) ∧ r_state r2 = Read_body ∧ q_body m ++ T = d2 ++ R ∧ (length d2 < length d)%nat ∧
    ∀ r' ev, runs (k d2) r2 tt r' ev → runs prog r tt r' (Head_readed :: ev).
Definition stays (m : request) (prog : rprog unit) (r : reader) (T R : bytes) : Prop :=
  ∃ r' S, runs prog r tt r' [] ∧ inside m r' S ∧ R = S ++ T.

Lemma header_done_spec m k r d2 :
  good_request m → r_line r = q_line m ++ crlf → r_header r = Header (head_text m) false →
  ∃ r2, inside m r2 (q_body m) ∧ r_state r2 = Read_body ∧
    ∀ r' ev, runs (k d2) r2 tt r' ev → runs (header_done k d2) r tt r' (Head_readed :: ev).
Proof.
  intros [_ _ Hc Hl [Hb Hmax]] Hline Hh. exists (set_rstate Read_body (set_br (Z.of_nat (length (q_body m))) [] r)). split_and!; [|done|].
  - by eapply (in_body m _ []).
  - intros r' ev Hk. unfold header_done. apply runs_get. rewrite Hh. eapply runs_lift; [exact Hl|].
    eapply (runs_bind _ _ _ _ _ [Head_readed]); [done|]. rewrite Hc.
    destruct (Z.ltb_spec 0 (Z.of_nat (length (q_body m)))) as [_|Hle]; [|destruct (q_body m); [done|simpl in Hle; lia]].
    eapply (runs_bind _ _ _ _ _ []); [|exact Hk]. unfold activate_body. apply runs_get. rewrite Hh.
    eapply runs_lift; [exact Hl|]. done.
Qed.

(** The rest of the header behind one of its lines. *)
Definition header_rest (k : bytes → rprog unit) (complete : bool) (n : bytes) : rprog unit :=
  op_modify (set_hr_buffer []);;
  rest ← (if complete then mret (Some n) else header_lines (S (length n)) n);
  match rest with Some n => header_done k n | None => mret tt end.

Lemma header_rest_spec m k fs1 fs2 r d n T R :
  good_request m → q_fields m = fs1 ++ fs2 → r_state r = Read_header → r_line r = q_line m ++ crlf →
  r_header r = Header (render fs1) false → (length n < length d)%nat → (render fs2 ++ crlf) ++ q_body m ++ T = n ++ R →
  stays m (header_rest k false n) r T R ∨ hands_over m k (header_rest k false n) r d T R.
Proof.
  intros Hm Hfs Hst Hline Hh Hlen Heq.
  assert (r_line r ≠ []) as Hne by (rewrite Hline; destruct (gq_line _ Hm) as [Hq _]; by destruct (q_line m)).
  destruct (header_lines_spec m fs1 fs2 (set_hr_buffer [] r) n (q_body m ++ T) R (S (length n)) Hm Hfs Hne) as
    [(fs1' & fs2' & p & S & Hrun & Hfs' & Hp & HpS & HR)|(d2 & Hrun & HT & Hd2)]; [by cbn; rewrite Hh|done|lia|done| |].
  - left. eexists _, (S ++ q_body m). split_and!; [| |by rewrite HR, <-(assoc_L (++))].
    + unfold header_rest. apply runs_modify. eapply (runs_bind _ _ _ _ _ [] _ _ []); [exact Hrun|apply runs_ret].
    + eapply (in_fields m _ fs1' fs2' p); try done; [cbn; by rewrite Hh|]. by rewrite (assoc_L (++) p), HpS.
  - right. destruct (header_done_spec m k (with_header (head_text m) (set_hr_buffer [] r)) d2 Hm Hline) as (r2 & Hin & Hs2 & Hk).
    { cbn. by rewrite Hh. }
    exists d2, r2. split_and!; [done|done|done|lia|]. intros r' ev Hrun'. unfold header_rest. apply runs_modify.
    eapply (runs_bind _ _ _ _ _ []); [exact Hrun|]. by apply Hk.
Qed.

(** A block for the header's reader. *)
Lemma header_read_spec m k r S d T R :
  good_request m → inside m r S → r_state r = Read_header → d ≠ [] → S ++ T = d ++ R →
  stays m (header_read k d) r T R ∨ hands_over m k (header_read k d) r d T R.
Proof.
  intros Hm Hin Hst Hd Heq. destruct (gq_line _ Hm) as [Hq Hqt].
  assert (header_read k d = match _rn d with
      | None => op_modify (λ r, set_hr_buffer (hr_buffer r ++ d) r)
      | Some n => buffer ← op_get hr_buffer; complete ← request_header (buffer ++ before d n); header_rest k complete n
      end) as Hdef by by destruct d.
  assert (∀ p t U, line_text t → (length p < length (t ++ crlf))%nat → p ++ S = (t ++ crlf) ++ U →
    (∃ S', S' ≠ [] ∧ _rn d = None ∧ (length (p ++ d) < length (t ++ crlf))%nat ∧ (p ++ d) ++ S' = t ++ crlf ∧ R = (S' ++ U) ++ T) ∨
    (∃ n, _rn d = Some n ∧ p ++ before d n = t ++ crlf ∧ U ++ T = n ++ R ∧ (length n < length d)%nat)) as Hcut.
  { intros p t U Ht Hp HpS. assert (((t ++ crlf) ++ U) ++ T = (p ++ d) ++ R) as HE by (rewrite <-HpS, <-!(assoc_L (++)), Heq; done).
    rewrite <-(assoc_L (++)) in HE.
    destruct (block_cut (t ++ crlf) (p ++ d) (U ++ T) R HE) as [(S' & HS' & Hc & HR)|(n & Hn & HU)].
    - left. exists S'. split_and!; [done| | |done|by rewrite HR, <-!(assoc_L (++))].
      + rewrite <-(assoc_L (++)) in Hc. by apply (rn_none p d S' t).
      + rewrite Hc, (length_app _ S'). destruct S'; [done|simpl; lia].
    - right. exists n. destruct (rn_some p d t n Ht Hp Hn) as [? Hbef]. split_and!; [done|done|done|].
      apply (f_equal length) in Hn. rewrite !length_app in Hn. rewrite length_app in Hp. lia. }
  rewrite Hdef. clear Hdef. destruct Hin as [p S _ Hl Hh Hb Hp HpS|fs1 fs2 p S _ Hl Hh Hfs Hb Hp HpS|p S Hs]; [| |congruence].
  - destruct (Hcut p (q_line m) (head_text m ++ q_body m) Hqt Hp HpS) as [(S' & HS' & -> & Hlen & Hcat & HR)|(n & -> & Hbef & HU & Hn)].
    + left. exists (set_hr_buffer (p ++ d) r), (S' ++ head_text m ++ q_body m). split_and!; [by unfold runs, op_modify; rewrite Hb| |done].
      eapply (in_line m _ (p ++ d)); try done. unfold render_request. by rewrite <-Hcat, <-!(assoc_L (++)).
    + set (r1 := set_request (q_line m ++ crlf) header0 r).
      assert (∀ r' ev, runs (header_rest k false n) r1 tt r' ev →
        runs (buffer ← op_get hr_buffer; complete ← request_header (buffer ++ before d n); header_rest k complete n) r tt r' ev) as Hgo.
      { intros r' ev Hrun. apply runs_get. rewrite Hb, Hbef. eapply (runs_bind _ _ _ false r1 []); [|exact Hrun].
        unfold request_header. apply runs_modify, runs_get. rewrite Hl, Hh. done. }
      rewrite <-(assoc_L (++)) in HU.
      destruct (header_rest_spec m k [] (q_fields m) r1 d n T R Hm eq_refl Hst eq_refl eq_refl Hn HU) as
        [(r' & S' & Hrun & ?)|(d2 & r2 & Hin & Hs2 & HT & Hlen & Hk)].
      * left. exists r', S'. split; [by apply Hgo|done].
      * right. exists d2, r2. split_and!; try done. intros r' ev Hrun. by apply Hgo, Hk.
  - assert (line_text (next_line fs2)) as Hnt.
    { apply next_line_text. pose proof (gq_fields _ Hm) as [_ Hg]. rewrite Hfs in Hg. by apply Forall_app in Hg as [_ ?]. }
    set (U := match fs2 with [] => [] | _ :: fs => render fs ++ crlf end).
    assert (render fs2 ++ crlf = (next_line fs2 ++ crlf) ++ U) as HU.
    { destruct fs2 as [|f fs]; [done|]. subst U. cbn [next_line]. rewrite render_cons, make_field_text. by rewrite <-!(assoc_L (++)). }
    rewrite HU, <-(assoc_L (++)) in HpS.
    destruct (Hcut p (next_line fs2) (U ++ q_body m) Hnt Hp HpS) as [(S' & HS' & -> & Hlen & Hcat & HR)|(n & -> & Hbef & HUT & Hn)].
    + left. exists (set_hr_buffer (p ++ d) r), (S' ++ U ++ q_body m). split_and!; [by unfold runs, op_modify; rewrite Hb| |done].
      eapply (in_fields m _ fs1 fs2 (p ++ d)); try done. by rewrite HU, <-Hcat, <-!(assoc_L (++)).
    + assert (r_line r ≠ []) as Hne by (rewrite Hl; by destruct (q_line m)). rewrite <-(assoc_L (++)) in HUT.
      assert (∀ c r' ev, is_complete (Header (h_data (r_header r) ++ next_line fs2 ++ crlf) false) = c →
        runs (header_rest k c n) (with_header (h_data (r_header r) ++ next_line fs2 ++ crlf) r) tt r' ev →
        runs (buffer ← op_get hr_buffer; complete ← request_header (buffer ++ before d n); header_rest k complete n) r tt r' ev) as Hgo.
      { intros c r' ev <- Hrun. apply runs_get. rewrite Hb, Hbef. by apply runs_request_field. }
      destruct fs2 as [|f fs2]; cbn [next_line app] in *.
      * right. rewrite app_nil_r in Hfs. assert (h_data (r_header r) ++ crlf = head_text m) as Hfull by (rewrite Hh; cbn; by rewrite <-Hfs).
        rewrite Hfull in Hgo. destruct (header_done_spec m k (set_hr_buffer [] (with_header (head_text m) r)) n Hm Hl) as (r2 & Hin & Hs2 & Hk).
        { cbn. by rewrite Hh. }
        exists n, r2. split_and!; [done|done|done|done|]. intros r' ev Hrun.
        apply (Hgo true); [apply (complete_after m (q_fields m) []); [done|by rewrite app_nil_r]|].
        unfold header_rest. apply runs_modify. eapply (runs_bind _ _ _ _ _ []); [apply runs_ret|]. by apply Hk.
      * assert (h_data (r_header r) ++ field_text f ++ crlf = render (fs1 ++ [f])) as Hnew.
        { rewrite Hh, render_app. cbn. f_equal. unfold render. cbn [fmap list_fmap concat]. by rewrite app_nil_r, make_field_text. }
        rewrite Hnew in Hgo. assert (q_fields m = (fs1 ++ [f]) ++ fs2) as Hfs' by (rewrite Hfs, <-(assoc_L (++)); done).
        destruct (header_rest_spec m k (fs1 ++ [f]) fs2 (with_header (render (fs1 ++ [f])) r) d n T R Hm Hfs' Hst Hl) as
          [(r' & S' & Hrun & ?)|(d2 & r2 & Hin & Hs2 & HT & Hlen & Hk)]; [by cbn; rewrite Hh|done|exact HUT| |].
        -- left. exists r', S'. split; [|done]. apply (Hgo false); [by apply (complete_after m _ fs2)|exact Hrun].
        -- right. exists d2, r2. split_and!; try done. intros r' ev Hrun.
           apply (Hgo false); [by apply (complete_after m _ fs2)|by apply Hk].
Qed.

(** ** The body *)

(** Before the first line of a request. *)
Definition fresh (r : reader) : Prop :=
  r_state r = Read_header ∧ r_line r = [] ∧ r_header r = header0 ∧ hr_buffer r = [].

Lemma fresh_inside m r : good_request m → fresh r → inside m r (render_request m).
Proof.
  intros Hm (Hs & Hl & Hh & Hb). eapply (in_line m r []); try done. rewrite length_app. simpl. lia.
Qed.

Definition processed (m : request) : http_event := Process_uri (request_uri (q_line m ++ crlf)) (q_body m).

(** What is done when the body is there: [prog] is what follows. *)
Definition body_end (k : bytes → rprog unit) (tail : nat) (d : bytes) : rprog unit :=
  buffer ← op_get br_buffer;
  if decide (tail ≠ 0%nat ∧ buffer ≠ []) then terminate
  else match buffer with
       | _ :: _ => mret tt
       | [] =>
           activate_header;;
           (if decide (tail = 0%nat) then mret tt else k (drop (length d - tail) d));;
           op_emit Body_readed
       end.

Lemma body_end_spec k r S d2 :
  br_buffer r = [] →
  ∃ r2, fresh r2 ∧ ∀ r' ev, (if decide (d2 = []) then r' = r2 ∧ ev = [] else runs (k d2) r2 tt r' ev) →
    runs (body_end k (length d2) (S ++ d2)) r tt r' (ev ++ [Body_readed]).
Proof.
  intros Hb. exists (set_rstate Read_header (set_hr_buffer [] (set_request [] header0 r))). split; [done|].
  intros r' ev Hk. unfold body_end. apply runs_get. rewrite Hb, decide_False by naive_solver. unfold activate_header. apply runs_modify.
  eapply runs_bind; [|done]. rewrite length_app, Nat.add_sub, drop_app_length.
  destruct (decide (d2 = [])) as [->|Hne]; [destruct Hk as [-> ->]; by rewrite decide_True|].
  rewrite decide_False; [done|]. by destruct d2.
Qed.

Lemma body_length m : good_request m → wrap ulong_t (Z.of_nat (length (q_body m))) = Z.of_nat (length (q_body m)).
Proof.
  intros [_ _ _ _ [_ Hmax]]. apply wrap_in_range; [unfold std_types; set_solver|].
  apply in_range_spec. change (int_max int_t) with 2147483647 in Hmax. change (int_min ulong_t) with 0. change (int_max ulong_t) with 18446744073709551615. lia.
Qed.

Lemma body_read_spec m k r S d T R :
  good_request m → inside m r S → r_state r = Read_body → d ≠ [] → S ++ T = d ++ R →
  stays m (body_read k d) r T R ∨
  ∃ d2 r2, fresh r2 ∧ T = d2 ++ R ∧ (length d2 < length d)%nat ∧
    ∀ r' ev, (if decide (d2 = []) then r' = r2 ∧ ev = [] else runs (k d2) r2 tt r' ev) →
      runs (body_read k d) r tt r' (processed m :: ev ++ [Body_readed]).
Proof.
  intros Hm Hin Hst Hd Heq. destruct Hin as [p S Hs|fs1 fs2 p S Hs|p S _ Hl Hlen Hb HpS HS]; [congruence..|].
  pose proof (body_length m Hm) as Hw.
  assert (length (q_body m) = length p + length S)%nat as HlenS by (rewrite <-HpS; apply length_app).
  assert (0 < length S)%nat as Hpos by (destruct S; [done|simpl; lia]).
  set (nb := match p with
    | _ :: _ => if (length S <? length d)%nat then (p ++ take (length S) d, (length d - length S)%nat) else (p ++ d, 0%nat)
    | [] => if (length d <? length S)%nat then (d, 0%nat) else ([], (length d - length S)%nat) end).
  assert (∀ r' ev, runs (op_modify (λ r, set_br (br_length r) nb.1 r);;
      (match nb.1 with
       | [] => process (take (length S) d)
       | _ => if Z.of_nat (length nb.1) =? Z.of_nat (length (q_body m)) then process nb.1;; op_modify (λ r, set_br (br_length r) [] r)
              else if Z.of_nat (length (q_body m)) <? Z.of_nat (length nb.1) then terminate else mret tt
       end);; body_end k nb.2 d) r tt r' ev → runs (body_read k d) r tt r' ev) as Hdef.
  { intros r' ev Hrun. unfold body_read. destruct d as [|c d']; [done|]. apply runs_get, runs_get. rewrite Hlen, Hb, Hw.
    destruct (Z.leb_spec (Z.of_nat (length (q_body m))) (Z.of_nat (length p))) as [|_]; [lia|].
    replace (Z.to_nat (Z.of_nat (length (q_body m)) - Z.of_nat (length p))) with (length S) by lia. cbn zeta.
    fold nb. clearbody nb. destruct nb as [b1 t1]. exact Hrun. }
  assert (∀ b, runs (process b) (set_br (Z.of_nat (length (q_body m))) nb.1 r) tt (set_br (Z.of_nat (length (q_body m))) nb.1 r)
    [Process_uri (request_uri (q_line m ++ crlf)) b]) as Hproc.
  { intros b. unfold process. apply runs_get. cbn. by rewrite Hl. }
  destruct (block_cut S d T R Heq) as [(S' & HS' & Hcut & HR)|(d2 & Hn & HT)].
  - left. assert (0 < length S')%nat as HS'pos by (destruct S'; [done|simpl; lia]). assert (nb = (p ++ d, 0%nat)) as Hnb.
    { subst nb. rewrite Hcut, length_app. destruct p as [|y p].
      - by destruct (Nat.ltb_spec (length d) (length d + length S')); [|lia].
      - by destruct (Nat.ltb_spec (length d + length S') (length d)); [lia|]. }
    assert (p ++ d ≠ []) as Hne by (destruct p, d; done).
    assert (length (q_body m) = length (p ++ d) + length S')%nat as Hl2 by (rewrite HlenS, Hcut, !length_app; lia).
    exists (set_br (br_length r) (p ++ d) r), S'. split_and!; [| |done].
    + apply Hdef. rewrite Hnb. cbn [fst snd]. apply runs_modify. eapply (runs_bind _ _ _ tt _ [] tt _ []).
      * destruct (p ++ d) as [|x xs] eqn:Hx; [done|]. rewrite <-Hx in *.
        destruct (Z.eqb_spec (Z.of_nat (length (p ++ d))) (Z.of_nat (length (q_body m)))); [lia|].
        destruct (Z.ltb_spec (Z.of_nat (length (q_body m))) (Z.of_nat (length (p ++ d)))); [lia|]. apply runs_ret.
      * unfold body_end. apply runs_get. cbn [set_br br_buffer]. rewrite decide_False by naive_solver.
        destruct (p ++ d); [done|]. apply runs_ret.
    + eapply (in_body m _ (p ++ d) S'); try done. by rewrite <-HpS, Hcut, (assoc_L (++)).
  - right. exists d2. assert (nb = (match p with [] => [] | _ => q_body m end, length d2)) as Hnb.
    { subst nb. rewrite Hn, length_app, take_app_length. destruct p as [|y p].
      - destruct (Nat.ltb_spec (length S + length d2) (length S)); [lia|]. f_equal. lia.
      - destruct (Nat.ltb_spec (length S) (length S + length d2)); [rewrite HpS; f_equal; lia|].
        destruct d2; [|simpl in *; lia]. by rewrite app_nil_r, HpS. }
    destruct (body_end_spec k (set_br (br_length r) [] r) S d2 eq_refl) as (r2 & Hf & Hend). exists r2.
    split_and!; [done|done|rewrite Hn, length_app; lia|]. intros r' ev Hk. apply Hdef. rewrite Hnb. cbn [fst snd].
    apply runs_modify. eapply (runs_bind _ _ _ tt (set_br (br_length r) [] r) [processed m]); [|by rewrite Hn; apply Hend].
    rewrite Hnb in Hproc. cbn [fst] in Hproc. rewrite <-Hlen in Hproc. rewrite Hn, take_app_length. unfold processed.
    destruct p as [|y p]; cbn [app] in HpS; [subst S; apply Hproc|].
    destruct (q_body m) as [|x xs] eqn:Hx; [done|]. rewrite Z.eqb_refl.
    eapply (runs_bind _ _ _ _ _ [_] _ _ []); [apply Hproc|]. done.
Qed.

(** ** A stream of requests *)

(** The requests [ms] are still to be handed on, [R] is to come. *)
Definition at_stream (r : reader) (ms : list request) (R : bytes) : Prop :=
  match ms with
  | [] => fresh r ∧ R = []
  | m :: ms => ∃ S, inside m r S ∧ R = S ++ concat (render_request <$> ms)
  end.

Definition is_process (e : http_event) : Prop := match e with Process_uri _ _ => True | _ => False end.
#[export] Instance is_process_dec e : Decision (is_process e).
Proof. destruct e; apply _. Defined.

Lemma fresh_stream r ms : Forall good_request ms → fresh r → at_stream r ms (concat (render_request <$> ms)).
Proof.
  intros Hms Hf. destruct Hms as [|m ms Hm Hms]; [done|]. exists (render_request m). split; [by apply fresh_inside|done].
Qed.

Lemma inside_state m r S : inside m r S → r_state r = Read_header ∨ r_state r = Read_body.
Proof. intros []; auto. Qed.

Lemma http_read_stream n d fuel r ms R :
  (length d ≤ n)%nat → (length d < fuel)%nat → Forall good_request ms → at_stream r ms (d ++ R) →
  ∃ r' ev ms1 ms2, ms = ms1 ++ ms2 ∧ runs (http_read fuel d) r tt r' ev ∧ filter is_process ev = processed <$> ms1 ∧ at_stream r' ms2 R.
Proof.
  revert d fuel r ms. induction n as [|n IH]; intros d fuel r ms Hn Hfuel Hms Hat.
  all: destruct fuel as [|fuel]; [lia|].
  all: assert (at_stream r ms R → d = [] → ∃ r' ev ms1 ms2, ms = ms1 ++ ms2 ∧ runs (http_read (S fuel) d) r tt r' ev ∧
    filter is_process ev = processed <$> ms1 ∧ at_stream r' ms2 R) as Hnil
    by (intros Hat' ->; exists r, [], [], ms; split_and!; [done| |done|done];
        assert (r_state r = Read_header ∨ r_state r = Read_body) as [Hs|Hs] by
          (destruct ms; [left; apply Hat'|destruct Hat' as (S' & Hin & _); by eapply inside_state]);
        cbn [http_read]; apply runs_get; rewrite Hs; apply runs_ret).
  { destruct d; [by apply Hnil|simpl in Hn; lia]. }
  destruct (decide (d = [])) as [->|Hd]; [by apply Hnil|]. clear Hnil.
  destruct Hms as [|m ms Hm Hms]; [destruct Hat as [_ Hnil]; by destruct d|]. destruct Hat as (S' & Hin & Heq). symmetry in Heq.
  assert (∀ prog, stays m prog r (concat (render_request <$> ms)) R → runs (http_read (S fuel) d) r = runs prog r →
    ∃ r' ev ms1 ms2, m :: ms = ms1 ++ ms2 ∧ runs (http_read (S fuel) d) r tt r' ev ∧ filter is_process ev = processed <$> ms1 ∧ at_stream r' ms2 R) as Hstays.
  { intros prog (r' & S2 & Hrun & Hin' & HR) Hsame. exists r', [], [], (m :: ms). rewrite Hsame. split_and!; try done. by exists S2. }
  destruct (inside_state m r S' Hin) as [Hs|Hs].
  - assert (runs (http_read (S fuel) d) r = runs (header_read (http_read fuel) d) r) as Hsame.
    { unfold runs. cbn [http_read]. rewrite op_get_bind, Hs. done. }
    destruct (header_read_spec m (http_read fuel) r S' d _ R Hm Hin Hs Hd Heq) as [Hst|(d2 & r2 & Hin2 & Hs2 & HT & Hlen & Hk)];
      [by eapply Hstays|].
    destruct (IH d2 fuel r2 (m :: ms)) as (r' & ev & ms1 & ms2 & Hsplit & Hrun & Hev & Hat'); [lia|lia|by constructor|by exists (q_body m)|].
    exists r', (Head_readed :: ev), ms1, ms2. rewrite Hsame. split_and!; [done|by apply Hk| |done].
    rewrite filter_cons_False by (by intros []). exact Hev.
  - assert (runs (http_read (S fuel) d) r = runs (body_read (http_read fuel) d) r) as Hsame.
    { unfold runs. cbn [http_read]. rewrite op_get_bind, Hs. done. }
    destruct (body_read_spec m (http_read fuel) r S' d _ R Hm Hin Hs Hd Heq) as [Hst|(d2 & r2 & Hf & HT & Hlen & Hk)];
      [by eapply Hstays|].
    assert (at_stream r2 ms (d2 ++ R)) as Hat2 by (rewrite <-HT; by apply fresh_stream).
    assert (∃ r' ev ms1 ms2, ms = ms1 ++ ms2 ∧ (if decide (d2 = []) then r' = r2 ∧ ev = [] else runs (http_read fuel d2) r2 tt r' ev) ∧
      filter is_process ev = processed <$> ms1 ∧ at_stream r' ms2 R) as (r' & ev & ms1 & ms2 & -> & Hrun & Hev & Hat').
    { destruct (decide (d2 = [])) as [->|Hd2]; [by exists r2, [], [], ms|]. by apply IH; [lia|lia| |]. }
    exists r', (processed m :: ev ++ [Body_readed]), (m :: ms1), ms2. rewrite Hsame. split_and!; [done|by apply Hk| |done].
    rewrite filter_cons_True by done. rewrite filter_app, Hev. cbn [fmap list_fmap]. f_equal.
    rewrite filter_cons_False by (by intros []). apply app_nil_r.
Qed.

Lemma http_blocks_stream ds r ms R :
  Forall good_request ms → at_stream r ms (concat ds ++ R) →
  ∃ r' ev ms1 ms2, ms = ms1 ++ ms2 ∧ runs (http_blocks ds) r tt r' ev ∧ filter is_process ev = processed <$> ms1 ∧ at_stream r' ms2 R.
Proof.
  revert r ms. induction ds as [|d ds IH]; intros r ms Hms Hat; [by exists r, [], [], ms|].
  cbn [concat] in Hat. rewrite <-(assoc_L (++)) in Hat.
  destruct (http_read_stream (length d) d (S (S (length d))) r ms _ (le_n _) ltac:(lia) Hms Hat) as (r1 & ev1 & ms1 & ms2 & -> & Hrun & Hev & Hat1).
  apply Forall_app in Hms as [_ Hms]. destruct (IH r1 ms2 Hms Hat1) as (r' & ev & ms3 & ms4 & -> & Hrun2 & Hev2 & Hat2).
  exists r', (ev1 ++ ev), (ms1 ++ ms3), ms4. split_and!; [by rewrite (assoc_L (++))| | |done].
  - cbn [http_blocks]. by eapply runs_bind.
  - by rewrite filter_app, Hev, Hev2, fmap_app.
Qed.

(** ** Requests by their fields *)

Lemma cr_match a : char_match a CR = true → a = CR.
Proof.
  unfold char_match. change (code CR) with 13. pose proof (code_range a). intros Hm. apply code_inj. change (code CR) with 13.
  destruct (Z.leb_spec 65 (code a)), (Z.leb_spec (code a) 90), (Z.leb_spec 97 (code a)), (Z.leb_spec (code a) 122); cbn in Hm; lia.
Qed.

Lemma equal_end name : good_name name → _equal name crlf = [].
Proof.
  intros (Hne & _ & Hc & H0). unfold _equal, crlf. destruct name as [|a name]; [done|].
  apply not_elem_of_cons in Hc as [Hc _]. apply not_elem_of_cons in H0 as [H0 _]. cbn [match_name]. rewrite eqb_ne by congruence.
  destruct (char_match a CR) eqn:Hm; [|done]. by apply cr_match in Hm.
Qed.

(** The search in a header that is complete. *)
Lemma find_complete name fs :
  good_name name → Forall good_field fs →
  _find name (render fs ++ crlf) = match find_field name fs with [] => [] | gs => render gs ++ crlf end.
Proof.
  intros Hn Hfs. unfold _find. assert (length fs < length (render fs ++ crlf))%nat as Hr
    by (pose proof (render_length fs); rewrite length_app; simpl; lia).
  revert Hr. generalize (length (render fs ++ crlf)) as rounds. induction Hfs as [|f fs Hf Hfs IH]; intros rounds Hr.
  - destruct rounds as [|rounds]; [simpl in Hr; lia|]. cbn [render fmap list_fmap concat app find_rounds find_field].
    rewrite equal_end by done. by destruct rounds.
  - destruct rounds as [|rounds]; [lia|]. cbn [find_rounds find_field].
    destruct (render (f :: fs) ++ crlf) as [|c l] eqn:Hl.
    { apply app_eq_nil in Hl as [Hl _]. by apply render_nonempty in Hl. }
    rewrite <-Hl. rewrite render_cons, <-(assoc_L (++)) at 1. rewrite equal_field by done. destruct (begins name f.1).
    + destruct (skip_spaces _) as [|x xs] eqn:Hs; [by apply skip_spaces_nonempty in Hs|done].
    + rewrite render_cons, <-(assoc_L (++)), next_field by done. apply IH. simpl in Hr. lia.
Qed.

(** Whole requests leave nothing behind. *)
Lemma requests_read ds ms :
  Forall good_request ms → concat ds = concat (render_request <$> ms) →
  ∃ r ev, http_blocks ds reader0 = (Ok tt, r, ev) ∧ filter is_process ev = processed <$> ms ∧ fresh r.
Proof.
  intros Hms Heq. destruct (http_blocks_stream ds reader0 ms [] Hms) as (r & ev & ms1 & ms2 & -> & Hrun & Hev & Hat).
  { rewrite app_nil_r, Heq. by apply fresh_stream. }
  exists r, ev. destruct ms2 as [|m ms2]; [rewrite app_nil_r; split_and!; [done|done|apply Hat]|].
  destruct Hat as (S & Hin & Hnil). symmetry in Hnil. apply app_eq_nil in Hnil as [HS _]. subst S. exfalso.
  apply Forall_app in Hms as [_ Hms]. apply Forall_cons in Hms as [Hm _].
  assert (length (q_body m) ≠ 0%nat) as Hb by (destruct (gq_body _ Hm) as [Hb _]; by destruct (q_body m)).
  inversion Hin as [p S Hs Hl Hh Hb1 Hp HpS|fs1 fs2 p S Hs Hl Hh Hfs Hb1 Hp HpS|p S Hs Hl Hlen Hb1 HpS HS]; [| |done].
  - rewrite app_nil_r in HpS. subst p. rewrite HpS in Hp. unfold render_request in Hp. rewrite !length_app in Hp. lia.
  - rewrite app_nil_r in HpS. rewrite HpS in Hp. destruct fs2 as [|f fs2]; cbn [next_line render fmap list_fmap concat] in Hp.
    + rewrite !length_app in Hp. simpl in Hp. lia.
    + rewrite make_field_text, !length_app in Hp. lia.
Qed.

(** A request whose header was built with [set_content_length] and [set]. *)
Lemma request_by_fields m :
  (q_line m ≠ [] ∧ line_text (q_line m)) →
  (q_fields m ≠ [] ∧ Forall (λ f, good_field f ∧ LF ∉ f.1 ∧ LF ∉ f.2) (q_fields m)) →
  (q_body m ≠ [] ∧ Z.of_nat (length (q_body m)) <= int_max int_t) →
  absent transfer_encoding (q_fields m) →
  get_field content_length (q_fields m) = make_field content_length (length_text (Z.of_nat (length (q_body m)))) →
  good_request m.
Proof.
  intros Hl Hf Hb Ha Hg. destruct good_names as [Hc Ht].
  assert (Forall good_field (q_fields m)) as Hgood by (eapply Forall_impl; [apply Hf|]; by intros f (? & _ & _)). split; [done|done| | |done].
  - unfold is_chunked, head_text. fold transfer_encoding. cbn [h_data]. by rewrite find_complete, absent_find.
  - unfold get_content_length, head_text. fold content_length. cbn [h_data]. rewrite find_complete by done.
    unfold get_field in Hg. destruct (find_field content_length (q_fields m)) as [|f fs'] eqn:Hfind; [by vm_compute in Hg|].
    destruct (render (f :: fs') ++ crlf) as [|c l] eqn:Hr.
    { apply app_eq_nil in Hr as [Hr _]. by apply render_nonempty in Hr. }
    rewrite <-Hr. clear c l Hr. rewrite render_cons, Hg, <-(assoc_L (++)), make_field_app, std_find_app by apply Hc.
    cbn [tail app skip_spaces]. change (space =?c " "%char) with true. cbn iota.
    destruct (length_text_value (Z.of_nat (length (q_body m))) (LF :: render fs' ++ crlf) ltac:(split; [lia|apply Hb])) as (Hat & Hd & Hne).
    rewrite skip_spaces_id by (done || by apply digits_no_space).
    destruct (length_text (Z.of_nat (length (q_body m))) ++ CR :: LF :: render fs' ++ crlf) as [|x xs] eqn:Hx; [by destruct (length_text _)|].
    exact Hat.
Qed.

(** ** The chunk's reader *)

Definition chunk_start (r : reader) : Prop := r_state r = Read_chunk ∧ cr_data r = [] ∧ cr_size r = -1.

(** A length that was not all in its block: every later block is skipped. *)
Lemma length_never_ready d : d ≠ [] → (length (std_find CR d) < 2)%nat → _ready_length d = false.
Proof.
  intros Hd Hc. unfold _ready_length. destruct d as [|b d _] using rev_ind; [done|]. rewrite reverse_app. cbn.
  destruct d as [|a d _] using rev_ind; [done|]. rewrite reverse_app. cbn.
  destruct (Ascii.eqb_spec b LF) as [->|]; [|done]. destruct (Ascii.eqb_spec a CR) as [->|]; [|done]. exfalso.
  revert Hc. clear. induction d as [|x d IH]; [cbn; lia|]. cbn [app std_find]. destruct (x =?c CR); [|exact IH].
  intros Hlen. simpl in Hlen. rewrite !length_app in Hlen. simpl in Hlen. lia.
Qed.

Definition chunk_stuck (r : reader) : Prop :=
  r_state r = Read_chunk ∧ cr_data r ≠ [] ∧ _ready_length (cr_data r) = false ∧ cr_size r = -1.

Lemma stuck_skips r d : chunk_stuck r → runs (http_block d) r tt r [].
Proof.
  intros (Hs & Hd & Hr & Hz). unfold http_block. cbn [http_read]. apply runs_get. rewrite Hs. unfold chunk_read.
  destruct d as [|c d]; [apply runs_ret|]. set (l := c :: d). cbn [chunk_loop]. assert ((0 =? Z.of_nat (length l)) = false) as -> by (subst l; simpl; lia).
  eapply (runs_bind _ _ _ (Z.of_nat (length l), No_chunk, -1) r [] _ _ []).
  - unfold _process_chunk. apply runs_get. rewrite Hz. change (-1 =? -1) with true. cbn iota.
    eapply (runs_bind _ _ _ 0 r []).
    + unfold _process_length. apply runs_get. rewrite Hz. change (negb (-1 =? -1)) with false. cbn iota.
      eapply (runs_lift l); [unfold at_offset; by destruct (Z.leb_spec 0 (Z.of_nat (length l))); [|lia]|]. apply runs_get.
      destruct (cr_data r) as [|x data] eqn:Hx; [done|].
      assert (copy_ready (x :: data) l 0 = (x :: data, 0)) as -> by (subst l; cbn [copy_ready]; by rewrite Hr). rewrite Hr.
      apply runs_modify. assert (set_cr (x :: data) (-1) r = r) as -> by (rewrite <-Hx, <-Hz; by destruct r). apply runs_ret.
    + apply runs_get. rewrite Hz. change (negb (-1 =? -1)) with false. cbn iota.
      eapply (runs_bind _ _ _ _ r []); [apply runs_ret|]. apply runs_get. apply runs_ret.
  - cbn [Z.ltb Z.compare Z.eqb]. eapply (runs_bind _ _ _ _ _ [] _ _ []); [apply runs_ret|]. cbn [chunk_loop length].
    rewrite Z.eqb_refl. apply runs_ret.
Qed.

(** The first block of such a length. *)
Lemma length_cut_off r d :
  chunk_start r → d ≠ [] → (length (std_find CR d) < 2)%nat →
  runs (http_block d) r tt (set_cr d (-1) r) [] ∧ chunk_stuck (set_cr d (-1) r).
Proof.
  intros (Hs & Hd & Hz) Hne Hc. split; [|split_and!; [done|done|by apply length_never_ready|done]].
  unfold http_block. cbn [http_read]. apply runs_get. rewrite Hs. unfold chunk_read. destruct d as [|c d]; [done|]. set (l := c :: d) in *.
  cbn [chunk_loop]. assert ((0 =? Z.of_nat (length l)) = false) as -> by (subst l; simpl; lia).
  eapply (runs_bind _ _ _ (Z.of_nat (length l), No_chunk, -1) (set_cr l (-1) r) [] _ _ []).
  - unfold _process_chunk. apply runs_get. rewrite Hz. change (-1 =? -1) with true. cbn iota.
    eapply (runs_bind _ _ _ (Z.of_nat (length l)) (set_cr l (-1) r) []).
    + unfold _process_length. apply runs_get. rewrite Hz. change (negb (-1 =? -1)) with false. cbn iota.
      eapply (runs_lift l); [unfold at_offset; by destruct (Z.leb_spec 0 (Z.of_nat (length l))); [|lia]|]. apply runs_get. rewrite Hd.
      destruct (Nat.ltb_spec (length (std_find CR l)) 2); [|lia]. apply runs_modify, runs_ret.
    + apply runs_get. cbn [set_cr cr_size]. change (negb (-1 =? -1)) with false. cbn iota.
      eapply (runs_bind _ _ _ _ _ []); [apply runs_ret|]. apply runs_get, runs_ret.
  - cbn [Z.ltb Z.compare Z.eqb]. eapply (runs_bind _ _ _ _ _ [] _ _ []); [apply runs_ret|]. cbn [chunk_loop length].
    rewrite Z.eqb_refl. apply runs_ret.
Qed.

Lemma stuck_skips_all r ds : chunk_stuck r → runs (http_blocks ds) r tt r [].
Proof.
  intros Hr. induction ds as [|d ds IH]; [apply runs_ret|]. cbn [http_blocks].
  eapply (runs_bind _ _ _ _ _ [] _ _ []); [by apply stuck_skips|exact IH].
Qed.

(** Round after round at the same place. *)
Lemma minus_four_again rounds k r rest :
  chunk_start r → (chunk_loop rounds k (str "-4" ++ crlf ++ rest) 0 r).1.1 = NoFuel.
Proof.
  intros (Hs & Hd & Hz). induction rounds as [|rounds IH]; [done|]. set (d := str "-4" ++ crlf ++ rest) in *.
  assert (runs (_process_chunk d 0) r (0, In_block 4, -4) r []) as Hrun.
  { assert (set_cr [] (-1) r = r) as Hid by (rewrite <-Hd, <-Hz; by destruct r).
    assert (length d = 4 + length rest)%nat as Hlen by done.
    unfold _process_chunk. apply runs_get. rewrite Hz. change (-1 =? -1) with true. cbn iota.
    eapply (runs_bind _ _ _ 4 (set_cr [] (-4) r) []).
    - unfold _process_length. apply runs_get. rewrite Hz. change (negb (-1 =? -1)) with false. cbn iota.
      eapply (runs_lift d); [unfold at_offset; by destruct (Z.leb_spec 0 (Z.of_nat (length d))); [|lia]|]. apply runs_get. rewrite Hd.
      assert (std_find CR d = CR :: LF :: rest) as -> by done.
      assert ((length (CR :: LF :: rest) <? 2)%nat = false) as -> by done. cbn zeta.
      assert (length d - length (CR :: LF :: rest) + 2 = 4)%nat as -> by (rewrite Hlen; simpl; lia).
      assert (chunk_length (take 4 d) = -4) as -> by done. apply runs_modify, runs_ret.
    - apply runs_get. cbn [set_cr cr_size]. change (negb (-4 =? -1)) with true. cbn iota.
      eapply (runs_bind _ _ _ 0 _ []).
      + unfold _process_body. apply runs_get, runs_get. cbn [set_cr cr_size cr_data]. change (-4 =? 0) with false. cbn iota.
        destruct (Z.leb_spec (-4) (Z.of_nat (length d) - 4)); [apply runs_ret|lia].
      + apply runs_get. cbn [set_cr cr_data]. change (-4 =? -1) with false. cbn iota.
        rewrite bool_decide_true by done. change (0 - 4 =? -4) with true. cbn [andb]. cbn iota. apply runs_modify.
        unfold set_cr. cbn. fold (set_cr [] (-1) r). rewrite Hid. apply runs_ret. }
  cbn [chunk_loop]. assert ((0 =? Z.of_nat (length d)) = false) as -> by (subst d; simpl; lia).
  rewrite (op_bind_Ok _ _ _ _ _ _ Hrun). change (0 <? -4) with false. change (-4 =? 0) with false. cbn iota.
  rewrite op_ret_bind_at. destruct (chunk_loop rounds k d 0 r) as [[a r'] ev]. exact IH.
Qed.

(** ** Properties *)

(** C29.  Requests whose bodies have a length, one after the other on a
    connection, are handed on in order, each once and with its own address
    and body, whatever the blocks in which they are read - cut in a line, in
    a CR LF, in a body, or several in one block; the readers end on every
    block and throw nothing, and the connection is then ready for the next
    request. *)
Theorem requests_in_any_blocks ds ms :
  Forall good_request ms → concat ds = concat (render_request <$> ms) →
  ∃ r ev, http_blocks ds reader0 = (Ok tt, r, ev) ∧ filter is_process ev = processed <$> ms ∧ fresh r.
Proof. apply requests_read. Qed.

Definition request1 : request := Request (str "POST /a HTTP/1.1") [(str "Content-Length", str "2")] (str "xy").
Definition request2 : request := Request (str "POST /b HTTP/1.1") [(str "Host", str "h"); (str "Content-Length", str "3")] (str "zzz").
Definition stream12 : bytes := render_request request1 ++ render_request request2.

Lemma requests_in_any_blocks_witness :
  ∃ r ev, http_blocks [take 17 stream12; take 60 (drop 17 stream12); []; drop 77 stream12] reader0 = (Ok tt, r, ev) ∧
    filter is_process ev = [Process_uri (str "/a") (str "xy"); Process_uri (str "/b") (str "zzz")] ∧ fresh r.
Proof.
  apply (requests_in_any_blocks _ [request1; request2]); [|by vm_compute].
  repeat constructor; try (by apply (bool_decide_unpack _); vm_compute); by vm_compute.
Defined.

(** A chunk whose length says -4 keeps the thread of the connection in
    the loop of the chunk's reader for ever: the place in the block is moved
    back to where the length begins, whatever follows. *)
Theorem negative_chunk_hangs fuel r rest :
  chunk_start r → (http_read fuel (str "-4" ++ crlf ++ rest) r).1.1 = NoFuel.
Proof.
  intros Hr. destruct fuel as [|fuel]; [done|]. cbn [http_read]. rewrite op_get_bind, (proj1 Hr). by apply minus_four_again.
Qed.

(** The state behind the header of a chunked request. *)
Definition chunked_head : reader := (http_block (post_chunked []) reader0).1.2.

Lemma negative_chunk_hangs_witness : (http_read 1000 (str "-4" ++ crlf ++ str "abc") chunked_head).1.1 = NoFuel.
Proof. by apply negative_chunk_hangs; vm_compute. Defined.

(** When a block ends within the length of a chunk, or between its CR and
    LF, nothing that comes after it is handed on, whatever it is. *)
Theorem split_length_silences r d ds :
  chunk_start r → d ≠ [] → (length (std_find CR d) < 2)%nat → ∃ r', http_blocks (d :: ds) r = (Ok tt, r', []).
Proof.
  intros Hr Hd Hc. destruct (length_cut_off r d Hr Hd Hc) as [Hrun Hst]. eexists. cbn [http_blocks].
  eapply (runs_bind _ _ _ _ _ [] _ _ []); [exact Hrun|by apply stuck_skips_all].
Qed.

(** The end of a chunked body is handed on twice when it is in one block. *)
Example chunk_end_twice :
  (http_block (post_chunked (str "2" ++ crlf ++ str "ab" ++ crlf ++ str "0" ++ crlf ++ crlf)) reader0).2
  = [Head_readed; Process_uri (str "/u") (str "ab"); Process_uri (str "/u") []; Body_readed; Process_uri [] []; Body_readed].
Proof. vm_compute. reflexivity. Qed.

(** A request without fields has no end: what follows is taken for its
    header. *)
Example no_fields_no_end :
  let '(r, r', ev) := http_blocks [str "GET / HTTP/1.0" ++ crlf ++ crlf; render_request request1] reader0 in
  r = Ok tt ∧ filter is_process ev = [Process_uri (str "/") (str "xy")] ∧ request_uri (r_line r') = [].
Proof. vm_compute. done. Qed.

(** Of two requests without a body in one block the second is lost. *)
Example second_get_lost :
  let get u := str "GET " ++ u ++ str " HTTP/1.1" ++ crlf ++ make_field (str "Host") (str "h") ++ crlf in
  (http_block (get (str "/a") ++ get (str "/b")) reader0).2 = [Head_readed; Body_readed].
Proof. vm_compute. reflexivity. Qed.
