(* ===== verification/HttpWriter.v ===== *)
(** * HttpWriter: the writers of HTTP messages, [src/fas/adv/http]

    What an application sends goes through [ad_incoming], which puts the
    length into the header, to the writer that is the current state: the
    initial one, the header's, the one of a body with a length, of a chunked
    body or of no body.  They write to [ad_writer], which gives what it
    collected to [_output_] when it is flushed.  A client has the same
    writers: its request is what they call the response header. *)

From S2P Require Import Prelude HttpHeader.

(** ** The state *)

Inductive writer_state := Write_initial | Write_header | Write_chunk | Write_body | Write_nobody.

#[export] Instance writer_state_eq_dec : EqDecision writer_state.
Proof. solve_decision. Defined.

(** The first line and the header of the message, the current state, the
    members of [ad_writer], [ad_body_buf_writer] and [ad_incoming]. *)
(* src: fas/adv/http/ad_response_header.hpp 17-20 ad_response_header *)
Record writer := Writer {
  w_line : bytes;
  w_header : header;
  w_state : writer_state;
  w_buffer : bytes;
  bw_length : Z;
  bw_buffer : bytes;
  in_header : header;
  _use_buff : bool;
  in_data : bytes;
}.

Definition writer0 : writer := Writer [] header0 Write_initial [] 0 [] header0 false [].

Definition set_w_line (l : bytes) (w : writer) : writer :=
  Writer l (w_header w) (w_state w) (w_buffer w) (bw_length w) (bw_buffer w) (in_header w) (_use_buff w) (in_data w).
Definition set_w_header (h : header) (w : writer) : writer :=
  Writer (w_line w) h (w_state w) (w_buffer w) (bw_length w) (bw_buffer w) (in_header w) (_use_buff w) (in_data w).
Definition set_w_state (s : writer_state) (w : writer) : writer :=
  Writer (w_line w) (w_header w) s (w_buffer w) (bw_length w) (bw_buffer w) (in_header w) (_use_buff w) (in_data w).
Definition set_w_buffer (b : bytes) (w : writer) : writer :=
  Writer (w_line w) (w_header w) (w_state w) b (bw_length w) (bw_buffer w) (in_header w) (_use_buff w) (in_data w).
Definition set_bw (n : Z) (b : bytes) (w : writer) : writer :=
  Writer (w_line w) (w_header w) (w_state w) (w_buffer w) n b (in_header w) (_use_buff w) (in_data w).
Definition set_in_header (h : header) (w : writer) : writer :=
  Writer (w_line w) (w_header w) (w_state w) (w_buffer w) (bw_length w) (bw_buffer w) h (_use_buff w) (in_data w).
Definition set_in (use : bool) (d : bytes) (w : writer) : writer :=
  Writer (w_line w) (w_header w) (w_state w) (w_buffer w) (bw_length w) (bw_buffer w) (in_header w) use d.

(** What the writers call. *)
Inductive http_out := Output (d : bytes) | Body_writed.

#[export] Instance http_out_eq_dec : EqDecision http_out.
Proof. solve_decision. Defined.

Abbreviation wprog := (prog http_out writer).

(** [throw;] where nothing was caught ends the program. *)
Definition w_terminate {A} : wprog A := op_lift (Throw (thrown_pointer (str "std::terminate"))).

(** ** [ad_writer] *)

(* src: fas/adv/http/ad_writer.hpp 34-41 ad_writer::operator() *)
Definition writer_put (d : bytes) : wprog unit := op_modify (λ w, set_w_buffer (w_buffer w ++ d) w).

(* src: fas/adv/http/ad_writer.hpp 43-51 ad_writer::flush *)
Definition writer_flush : wprog unit :=
  buffer ← op_get w_buffer;
  (match buffer with [] => mret tt | _ => op_emit (Output buffer) end);;
  op_modify (set_w_buffer []).

(** ** Activation *)

(* src: fas/adv/http/ad_initial_writer.hpp 22-26 ad_initial_writer::activate *)
Definition activate_initial : wprog unit := op_modify (set_w_state Write_initial);; writer_flush.
(* src: fas/adv/http/ad_header_writer.hpp 22-30 ad_header_writer::activate *)
Definition activate_whead : wprog unit :=
  op_modify (set_w_state Write_header);;
  line ← op_get w_line;
  match line with [] => mret tt | _ => writer_put line end.
(* src: fas/adv/http/ad_body_buf_writer.hpp 29-35 ad_body_buf_writer::activate *)
Definition activate_wbody : wprog unit :=
  h ← op_get w_header;
  n ← op_lift (get_content_length h);
  op_modify (λ w, set_w_state Write_body (set_bw n [] w)).
(* src: fas/adv/http/ad_body_chunk_writer.hpp 25-33 ad_body_chunk_writer::activate *)
Definition activate_wchunk : wprog unit := op_modify (set_w_state Write_chunk).
(* src: fas/adv/http/ad_nobody_writer.hpp 24-27 ad_nobody_writer::activate *)
Definition activate_wnobody : wprog unit := op_modify (set_w_state Write_nobody).

(** ** The writers

    [k] is the writer that is current when it is called. *)

(* src: fas/adv/http/ad_initial_writer.hpp 28-34 ad_initial_writer::operator() *)
Definition initial_write (k : bytes → wprog unit) (d : bytes) : wprog unit := activate_whead;; k d.

(* src: fas/adv/http/ad_header_writer.hpp 32-56 ad_header_writer::operator() *)
Definition header_write (k : bytes → wprog unit) (d : bytes) : wprog unit :=
  op_modify (λ w, set_w_header (complete (w_header w)) w);;
  h ← op_get w_header;
  (match h_data h with [] => mret tt | _ => writer_put (h_data h) end);;
  content_length ← op_lift (get_content_length h);
  (if is_chunked h then activate_wchunk
   else if 0 <? content_length then activate_wbody
   else activate_wnobody);;
  k d.

(** The first [n] characters at [d], of which there are too few when the
    block is empty. *)
Definition first_of (n : nat) (d : bytes) : res bytes := if (length d <? n)%nat then Undef else Ok (take n d).

(* src: fas/adv/http/ad_body_buf_writer.hpp 37-87 ad_body_buf_writer::operator() *)
Definition body_write (k : bytes → wprog unit) (d : bytes) : wprog unit :=
  content_length ← op_get bw_length;
  buffer ← op_get bw_buffer;
  if content_length <=? wrap int_t (Z.of_nat (length buffer)) then w_terminate
  else
    let needed := Z.to_nat (wrap ulong_t (content_length - Z.of_nat (length buffer))) in
    let '(buffer, tail) :=
      match buffer with
      | _ :: _ =>
          if (needed <? length d)%nat then (buffer ++ take needed d, (length d - needed)%nat)
          else (buffer ++ d, 0%nat)
      | [] => if (length d <? needed)%nat then (d, 0%nat) else ([], (length d - needed)%nat)
      end in
    op_modify (set_bw content_length buffer);;
    (match buffer with
     | [] => l ← op_lift (first_of needed d); writer_put l
     | _ =>
         if wrap int_t (Z.of_nat (length buffer)) =? content_length then
           writer_put buffer;; op_modify (set_bw content_length [])
         else if content_length <? wrap int_t (Z.of_nat (length buffer)) then w_terminate
         else mret tt
     end);;
    buffer ← op_get bw_buffer;
    if decide (tail ≠ 0%nat ∧ buffer ≠ []) then w_terminate
    else match buffer with
         | _ :: _ => mret tt
         | [] =>
             activate_initial;;
             (if decide (tail = 0%nat) then mret tt else k (drop (length d - tail) d));;
             op_emit Body_writed
         end.

(** [sprintf(ch, "%x")] of an [unsigned int]. *)
Definition hex_digit (x : Z) : ascii := chr (if x <? 10 then 48 + x else 87 + x).
Fixpoint hex_text (digits : nat) (v : Z) (acc : bytes) : bytes :=
  match digits with
  | O => acc
  | S digits =>
      let acc := hex_digit (v mod 16) :: acc in
      if v / 16 =? 0 then acc else hex_text digits (v / 16) acc
  end.
Definition chunk_size_text (s : Z) : bytes := hex_text 8 (wrap uint_t s) [].

(* src: fas/adv/http/ad_body_chunk_writer.hpp 35-58 ad_body_chunk_writer::operator() *)
Definition chunk_write (d : bytes) : wprog unit :=
  writer_put (chunk_size_text (Z.of_nat (length d)) ++ crlf);;
  match d with
  | _ :: _ => writer_put d;; writer_put crlf;; writer_flush
  | [] => writer_put crlf;; writer_flush;; activate_initial;; op_emit Body_writed
  end.

(* src: fas/adv/http/ad_nobody_writer.hpp 29-37 ad_nobody_writer::operator() *)
Definition nobody_write (d : bytes) : wprog unit := activate_initial;; op_emit Body_writed.

(** [fuel] bounds how deep the writers call each other: a body's writer that
    is given more than the length begins the next message with the rest. *)
(* src: fas/adv/ad_state.hpp 81-86 ad_state::operator() *)
Fixpoint http_write (fuel : nat) (d : bytes) : wprog unit :=
  match fuel with
  | O => op_lift NoFuel
  | S fuel =>
      s ← op_get w_state;
      match s with
      | Write_initial => initial_write (http_write fuel) d
      | Write_header => header_write (http_write fuel) d
      | Write_chunk => chunk_write d
      | Write_body => body_write (http_write fuel) d
      | Write_nobody => nobody_write d
      end
  end.

(** Three writers for a message, and every message takes a character. *)
Definition http_put (d : bytes) : wprog unit := http_write (3 + 3 * length d) d.

(** ** [ad_incoming] *)

(** The header of the message with the length [s], an [int] by then. *)
(* src: fas/adv/http/ad_incoming.hpp 79-81 ad_incoming::operator() *)
Definition incoming_header (s : nat) : wprog unit :=
  op_modify (λ w, set_w_header (in_header w) w);;
  h ← op_get in_header;
  if is_chunked h then mret tt
  else op_modify (λ w, set_w_header (set_content_length (wrap int_t (Z.of_nat s)) (w_header w)) w).

(* src: fas/adv/http/ad_incoming.hpp 70-84 ad_incoming::operator() *)
Definition incoming (d : bytes) : wprog unit :=
  use ← op_get _use_buff;
  if use : bool then op_modify (λ w, set_in true (in_data w ++ d) w)
  else incoming_header (length d);; http_put d.

(* src: fas/adv/http/ad_incoming.hpp 38-41 ad_incoming::begin_buffering *)
Definition begin_buffering : wprog unit := op_modify (λ w, set_in true (in_data w) w).

(* src: fas/adv/http/ad_incoming.hpp 43-67 ad_incoming::flush *)
Definition incoming_flush : wprog unit :=
  use ← op_get _use_buff;
  data ← op_get in_data;
  (if use : bool then
     op_modify (λ w, set_in false (in_data w) w);; incoming_header (length data);; http_put data
   else mret tt);;
  op_modify (λ w, set_in (_use_buff w) [] w).

(** ** The cleaner: [clear] of the state, of the header and of
    [ad_incoming], whose own header stays *)
(* src: fas/adv/ad_state.hpp 33-38 ad_state::clear *)
Definition clear_state : wprog unit := activate_initial.
(* src: fas/adv/http/ad_response_header.hpp 41-57 ad_response_header::clear *)
Definition clear_header : wprog unit := op_modify (λ w, set_w_line [] (set_w_header header0 w)).
(* src: fas/adv/http/ad_incoming.hpp 32-32 ad_incoming::clear *)
Definition clear_incoming : wprog unit := op_modify (set_in false []).

(** An application that sends a message: a first line, its header, a body. *)
Definition send_message (line : bytes) (h : header) (body : bytes) : wprog unit :=
  op_modify (λ w, set_in_header h (set_w_line line w));; incoming body.

(** What leaves the writers, in one piece. *)
Definition outputs (ev : list http_out) : bytes :=
  concat ((λ e, match e with Output d => d | Body_writed => [] end) <$> ev).

Example write_ex :
  let '(r, w, ev) := send_message (str "POST /u HTTP/1.1" ++ crlf) (set (str "Host") (str "h") header0) (str "abc") writer0 in
  r = Ok tt ∧ w_state w = Write_initial ∧
  ev = [Output (str "POST /u HTTP/1.1" ++ crlf ++ str "Host: h" ++ crlf ++ str "Content-Length: 3" ++ crlf ++ crlf ++ str "abc"); Body_writed].
Proof. vm_compute. done. Qed.
Example write_chunks_ex :
  let h := set_chunked true header0 in
  let '(r, w, ev) := (send_message (str "HTTP/1.1 200 OK" ++ crlf) h (str "0123456789abc");; incoming []) writer0 in
  r = Ok tt ∧ w_state w = Write_initial ∧
  ev = [Output (str "HTTP/1.1 200 OK" ++ crlf ++ str "Transfer-Encoding: chunked" ++ crlf ++ crlf ++ str "d" ++ crlf ++ str "0123456789abc" ++ crlf);
        Output (str "0" ++ crlf ++ crlf); Body_writed].
Proof. vm_compute. done. Qed.
