(* ===== verification/HttpWriterSpec.v ===== *)
(** * HttpWriterSpec: what the readers make of what the writers write

    A message with a body goes out in one piece as [render_request] says, and
    the readers at the other end hand it on. *)

From S2P Require Import Prelude HttpHeader HttpHeaderSpec HttpReader HttpReaderSpec HttpWriter.

(** A length fits. *)
Lemma int_small z : 0 <= z <= int_max int_t → wrap int_t z = z.
Proof.
  intros Hz. apply wrap_in_range; [unfold std_types; set_solver|]. apply in_range_spec.
  change (int_min int_t) with (-2147483648). lia.
Qed.
Lemma ulong_small z : 0 <= z <= int_max int_t → wrap ulong_t z = z.
Proof.
  intros Hz. apply wrap_in_range; [unfold std_types; set_solver|]. apply in_range_spec.
  change (int_min ulong_t) with 0. change (int_max ulong_t) with 18446744073709551615.
  change (int_max int_t) with 2147483647 in Hz. lia.
Qed.

(** ** One message *)

(** Between two messages. *)
Definition idle (w : writer) : Prop := w_state w = Write_initial ∧ w_buffer w = [] ∧ _use_buff w = false.
Definition ready (w : writer) : Prop := idle w ∧ in_data w = [].

(** The fields that are sent for the fields of the application. *)
Definition sent_fields (fs : list field) (n : nat) : list field :=
  set_field content_length (length_text (Z.of_nat n)) (remove_field transfer_encoding fs).
Definition sent (m : request) : request := Request (q_line m) (sent_fields (q_fields m) (length (q_body m))) (q_body m).

(** A message that an application may send: lines that are lines, at most one
    length, which is replaced, and a body. *)
Record good_message (m : request) : Prop := {
  gm_line : q_line m ≠ [] ∧ line_text (q_line m);
  gm_fields : Forall (λ f, good_field f ∧ LF ∉ f.1 ∧ LF ∉ f.2) (q_fields m);
  gm_length : single content_length (q_fields m);
  gm_chunked : absent transfer_encoding (q_fields m);
  gm_body : q_body m ≠ [] ∧ Z.of_nat (length (q_body m)) <= int_max int_t;
}.

Lemma good_fields m : good_message m → Forall good_field (q_fields m).
Proof. intros Hm. eapply Forall_impl; [apply Hm|]. by intros f (? & _ & _). Qed.

Lemma digits_no_lf l : Forall (λ c, is_digit c = true) l → LF ∉ l.
Proof. intros Hl Hin. rewrite Forall_forall in Hl. specialize (Hl _ Hin). by vm_compute in Hl. Qed.

Lemma sent_good m : good_message m → good_request (sent m).
Proof.
  intros Hm. pose proof (good_fields m Hm) as Hg. destruct Hm as [Hl Hf Hs Ha Hb]. destruct good_names as [Hc Ht].
  destruct (length_text_value (Z.of_nat (length (q_body m))) [] ltac:(split; [lia|apply Hb])) as (_ & Hd & _).
  apply request_by_fields; cbn [sent q_line q_fields q_body]; [done| |done| |].
  - split; [unfold sent_fields, set_field; by destruct (remove_field _ _)|]. unfold sent_fields, set_field.
    apply Forall_app. split.
    + apply Forall_forall. intros f Hin. eapply (proj1 (Forall_forall _ _) Hf). by do 2 eapply remove_field_sub.
    + apply Forall_singleton. split_and!; [split; [done|by apply digits_no_cr]|by apply (bool_decide_unpack _); vm_compute|by apply digits_no_lf].
  - unfold sent_fields, set_field. apply Forall_app. split; [by do 2 apply absent_remove|]. by apply Forall_singleton.
  - apply get_set_field. by apply single_remove.
Qed.

(** The header that the message gets. *)
Lemma sent_header m b :
  good_message m →
  is_chunked (Header (render (q_fields m)) b) = false ∧
  complete (set_content_length (wrap int_t (Z.of_nat (length (q_body m)))) (Header (render (q_fields m)) b))
    = Header (head_text (sent m)) false.
Proof.
  intros Hm. pose proof (good_fields m Hm) as Hg. destruct Hm as [_ _ _ Ha [_ Hb]].
  assert (header_of (q_fields m) (Header (render (q_fields m)) b)) as Hh by done.
  split.
  - rewrite (is_chunked_spec (q_fields m)) by done. fold transfer_encoding. by rewrite absent_find.
  - rewrite int_small by lia.
    assert (header_of (sent_fields (q_fields m) (length (q_body m))) (set_content_length (Z.of_nat (length (q_body m))) (Header (render (q_fields m)) b)))
      as Hs by (apply set_content_length_of; [done|lia]).
    unfold complete. rewrite (is_complete_render _ _ Hs). destruct Hs as [Hs _]. unfold head_text. cbn [sent q_fields]. by rewrite Hs.
Qed.

(** Going back to the initial writer sends what was collected. *)
Lemma activate_initial_runs w :
  w_buffer w ≠ [] → runs activate_initial w tt (set_w_buffer [] (set_w_state Write_initial w)) [Output (w_buffer w)].
Proof. intros Hb. destruct w as [line h st [|c buf] n bb ih use idata]; [done|reflexivity]. Qed.

(** A first line or a header goes to [ad_writer]. *)
Lemma put_runs l w :
  l ≠ [] → runs match l with [] => mret tt | _ => writer_put l end w tt (set_w_buffer (w_buffer w ++ l) w) [].
Proof. by destruct l. Qed.

(** The body's writer on the whole body at once: the rest of a message. *)
Lemma body_write_whole k w d :
  bw_length w = Z.of_nat (length d) → bw_buffer w = [] → d ≠ [] → Z.of_nat (length d) <= int_max int_t →
  w_state w = Write_body → _use_buff w = false →
  ∃ w', runs (body_write k d) w tt w' [Output (w_buffer w ++ d); Body_writed] ∧ idle w' ∧ in_data w' = in_data w.
Proof.
  intros Hn Hb Hd Hmax Hs Hu. destruct w as [line h st buf n bb ih use idata]. cbn in Hn, Hb, Hs, Hu. subst n bb st use.
  assert (length d ≠ 0)%nat as Hlen by (by destruct d).
  exists (Writer line h Write_initial [] (Z.of_nat (length d)) [] ih false idata). split; [|done]. unfold body_write. apply runs_get, runs_get. cbn [bw_length bw_buffer length].
  change (wrap int_t (Z.of_nat 0)) with 0. destruct (Z.leb_spec (Z.of_nat (length d)) 0); [lia|].
  rewrite Z.sub_0_r, ulong_small by lia.
  rewrite Nat2Z.id, Nat.ltb_irrefl, Nat.sub_diag. apply runs_modify. cbn [set_bw w_line w_header w_state w_buffer in_header _use_buff in_data].
  eapply (runs_bind _ _ _ _ _ [] _ _ [_; _]).
  { eapply (runs_lift d); [unfold first_of; by rewrite Nat.ltb_irrefl, firstn_all|]. reflexivity. }
  cbn [set_w_buffer w_line w_header w_state w_buffer bw_length bw_buffer in_header _use_buff in_data].
  apply runs_get. cbn [bw_buffer]. rewrite decide_False by naive_solver.
  eapply (runs_bind _ _ _ _ _ [_] _ _ [_]).
  { apply activate_initial_runs. cbn. by destruct buf, d. }
  rewrite decide_True by done. reflexivity.
Qed.

(** The whole message. *)
Lemma put_whole w d h :
  idle w → w_line w ≠ [] →
  complete (w_header w) = h → h_data h ≠ [] → is_chunked h = false → get_content_length h = Ok (Z.of_nat (length d)) →
  d ≠ [] → Z.of_nat (length d) <= int_max int_t →
  ∃ w', runs (http_put d) w tt w' [Output (w_line w ++ h_data h ++ d); Body_writed] ∧ idle w' ∧ in_data w' = in_data w.
Proof.
  intros (Hs & Hb & Hu) Hl Hh Hhd Hc Hg Hd Hmax. destruct w as [line h0 st buf n bb ih use idata]. cbn in Hs, Hb, Hu, Hl, Hh. subst st buf use.
  assert (length d ≠ 0)%nat as Hlen by (by destruct d).
  destruct (body_write_whole (http_write (3 * length d)) (Writer line h Write_body (line ++ h_data h) (Z.of_nat (length d)) [] ih false idata) d)
    as (w' & Hrun & Hready); try done. exists w'. split; [|done]. cbn [w_buffer] in Hrun. rewrite <-app_assoc in Hrun.
  unfold http_put. change (3 + 3 * length d)%nat with (S (S (S (3 * length d)))). cbn [http_write]. apply runs_get. cbn [w_state].
  unfold initial_write. eapply (runs_bind _ _ _ _ _ [] _ _ [_; _]).
  { unfold activate_whead. apply runs_modify, runs_get. by apply put_runs. }
  apply runs_get. cbn [set_w_buffer set_w_state w_state w_line w_header w_buffer bw_length bw_buffer in_header _use_buff in_data app].
  unfold header_write. apply runs_modify, runs_get. cbn [set_w_header set_w_state set_w_buffer w_state w_line w_header w_buffer bw_length bw_buffer in_header _use_buff in_data].
  rewrite Hh. eapply (runs_bind _ _ _ _ _ [] _ _ [_; _]).
  { by apply put_runs. }
  eapply runs_lift; [exact Hg|]. rewrite Hc. destruct (Z.ltb_spec 0 (Z.of_nat (length d))); [|lia].
  eapply (runs_bind _ _ _ _ _ [] _ _ [_; _]).
  { unfold activate_wbody. apply runs_get. eapply runs_lift; [exact Hg|]. reflexivity. }
  apply runs_get. exact Hrun.
Qed.

(** ** Messages of an application *)

(** What [ad_incoming] does with the whole body of a message. *)
Lemma incoming_runs m w b :
  good_message m → idle w → w_line w = q_line m ++ crlf → in_header w = Header (render (q_fields m)) b →
  ∃ w', runs (incoming_header (length (q_body m));; http_put (q_body m)) w tt w' [Output (render_request (sent m)); Body_writed] ∧
    idle w' ∧ in_data w' = in_data w.
Proof.
  intros Hm Hi Hl Hh. destruct (sent_header m b Hm) as [Hc Hcomp]. destruct (sent_good m Hm) as [_ _ Hch Hlen _].
  pose proof (gm_body m Hm) as [Hb Hmax].
  set (w1 := set_w_header (set_content_length (wrap int_t (Z.of_nat (length (q_body m)))) (in_header w)) w).
  destruct (put_whole w1 (q_body m) (Header (head_text (sent m)) false)) as (w' & Hrun & Hw'); try done.
  - subst w1. cbn [set_w_header w_line]. rewrite Hl. by intros [_ ?]%app_eq_nil.
  - subst w1. cbn [set_w_header w_header]. by rewrite Hh.
  - cbn [h_data]. unfold head_text. by intros [_ ?]%app_eq_nil.
  - exists w'. split; [|exact Hw']. eapply (runs_bind _ _ _ tt w1 [] _ _ [_; _]).
    + unfold incoming_header. apply runs_modify, runs_get. cbn [set_w_header in_header]. rewrite <-Hh in Hc. by rewrite Hc.
    + subst w1. cbn [set_w_header w_line h_data] in Hrun. rewrite Hl in Hrun. exact Hrun.
Qed.

(** The application gives a body at once, or lets [ad_incoming] collect its
    pieces. *)
Inductive sending := At_once (m : request) | In_pieces (m : request) (pieces : list bytes).
Definition message (x : sending) : request := match x with At_once m | In_pieces m _ => m end.
Definition whole (x : sending) : Prop := match x with At_once _ => True | In_pieces m ps => concat ps = q_body m end.

Fixpoint incoming_all (ps : list bytes) : wprog unit :=
  match ps with
  | [] => mret tt
  | p :: ps => incoming p;; incoming_all ps
  end.
Definition message_header (m : request) : header := Header (render (q_fields m)) false.
Definition send (x : sending) : wprog unit :=
  match x with
  | At_once m => send_message (q_line m ++ crlf) (message_header m) (q_body m)
  | In_pieces m ps =>
      op_modify (λ w, set_in_header (message_header m) (set_w_line (q_line m ++ crlf) w));;
      begin_buffering;; incoming_all ps;; incoming_flush
  end.
Fixpoint send_all (xs : list sending) : wprog unit :=
  match xs with
  | [] => mret tt
  | x :: xs => send x;; send_all xs
  end.

Lemma incoming_all_runs ps w :
  _use_buff w = true → runs (incoming_all ps) w tt (set_in true (in_data w ++ concat ps) w) [].
Proof.
  revert w. induction ps as [|p ps IH]; intros w Hu; cbn [incoming_all concat].
  - rewrite app_nil_r. destruct w. cbn in Hu. by subst.
  - eapply (runs_bind _ _ _ _ (set_in true (in_data w ++ p) w) [] _ _ []).
    + unfold incoming. apply runs_get. by rewrite Hu.
    + specialize (IH (set_in true (in_data w ++ p) w) eq_refl). cbn [set_in in_data] in IH. by rewrite app_assoc.
Qed.

Lemma send_runs x w :
  good_message (message x) → whole x → ready w →
  ∃ w', runs (send x) w tt w' [Output (render_request (sent (message x))); Body_writed] ∧ ready w'.
Proof.
  intros Hm Hx [(Hs & Hb & Hu) Hd]. destruct x as [m|m ps]; cbn [message] in *; cbn [send].
  - destruct (incoming_runs m (set_in_header (message_header m) (set_w_line (q_line m ++ crlf) w)) false) as (w' & Hrun & Hi & Hin); try done.
    exists w'. split; [|split; [done|by rewrite Hin]]. unfold send_message. apply runs_modify. unfold incoming. apply runs_get.
    cbn [set_in_header set_w_line _use_buff]. rewrite Hu. exact Hrun.
  - set (w1 := set_in_header (message_header m) (set_w_line (q_line m ++ crlf) w)).
    destruct (incoming_runs m (set_in false (q_body m) w1) false) as (w' & Hrun & Hi & Hin); try done.
    exists (set_in (_use_buff w') [] w'). split; [|done]. apply runs_modify. fold w1. unfold begin_buffering. apply runs_modify.
    eapply (runs_bind _ _ _ _ _ [] _ _ [_; _]); [by apply incoming_all_runs|]. subst w1. cbn [set_in set_in_header set_w_line in_data].
    rewrite Hd, Hx. unfold incoming_flush. apply runs_get, runs_get. cbn [_use_buff in_data]. cbn [app] in *.
    eapply (runs_bind _ _ _ _ _ [_; _] _ _ []); [apply runs_modify; exact Hrun|done].
Qed.

Lemma send_all_runs xs w :
  Forall (λ x, good_message (message x) ∧ whole x) xs → ready w →
  ∃ w' ev, runs (send_all xs) w tt w' ev ∧ ready w' ∧ outputs ev = concat (render_request <$> (sent <$> (message <$> xs))).
Proof.
  intros Hxs. revert w. induction Hxs as [|x xs [Hm Hx] Hxs IH]; intros w Hw; [by exists w, []|].
  destruct (send_runs x w Hm Hx Hw) as (w1 & Hrun & Hw1). destruct (IH w1 Hw1) as (w2 & ev & Hruns & Hw2 & Hev).
  exists w2, ([Output (render_request (sent (message x))); Body_writed] ++ ev). split_and!; [by eapply runs_bind|done|].
  unfold outputs in *. rewrite fmap_app, concat_app, Hev. cbn [fmap list_fmap concat app]. by rewrite app_nil_r.
Qed.

(** What is on the wire for a message, read off from what the application
    gave: its first line, its fields in their order but for a length, the
    length of the body in its place, the empty line and the body. *)
Definition wire (m : request) : bytes :=
  q_line m ++ crlf
  ++ render (filter (λ f : field, begins content_length f.1 = false) (q_fields m)
             ++ [(content_length, length_text (Z.of_nat (length (q_body m))))])
  ++ crlf ++ q_body m.

Lemma absent_kept name fs : absent name fs → remove_field name fs = fs.
Proof. induction 1 as [|f fs Hf Hfs IH]; [done|]. cbn. by rewrite Hf, IH. Qed.
Lemma remove_filter name fs : single name fs → remove_field name fs = filter (λ f : field, begins name f.1 = false) fs.
Proof.
  intros Hs. transitivity (filter (λ f : field, begins name f.1 = false) (remove_field name fs)).
  - induction (single_removed name fs Hs) as [|f l Hf _ IH]; [done|]. by rewrite filter_cons, decide_True, <-IH.
  - clear Hs. induction fs as [|f fs IH]; [done|]. cbn [remove_field]. rewrite (filter_cons _ f fs).
    destruct (begins name f.1) eqn:Hb; [by rewrite decide_False|]. rewrite filter_cons, Hb, !decide_True by done. by rewrite IH.
Qed.

Lemma render_wire m : good_message m → render_request (sent m) = wire m.
Proof.
  intros Hm. unfold render_request, head_text, wire. cbn [sent q_line q_fields q_body]. unfold sent_fields, set_field.
  rewrite (absent_kept _ _ (gm_chunked m Hm)), (remove_filter _ _ (gm_length m Hm)). by rewrite <-!app_assoc.
Qed.

(** C30. What the writers write is what the readers read.  The messages that
    an application sends one after the other - each body at once or collected
    in pieces - go out without a throw, byte for byte as their first line,
    every field of the application in its order but for a length it gave
    itself, a field with the length of the body, and the body.  The readers at
    the other end, in whatever blocks they get it, hand on every body once and
    in order under its address; both ends are then ready for the next
    message. *)
Theorem messages_are_read_as_sent xs w :
  Forall (λ x, good_message (message x) ∧ whole x) xs → ready w →
  ∃ w' ev, send_all xs w = (Ok tt, w', ev) ∧ ready w' ∧ outputs ev = concat (wire <$> (message <$> xs)) ∧
    ∀ ds, concat ds = outputs ev →
      ∃ r rev, http_blocks ds reader0 = (Ok tt, r, rev) ∧ filter is_process rev = processed <$> (message <$> xs) ∧ fresh r.
Proof.
  intros Hxs Hw. destruct (send_all_runs xs w Hxs Hw) as (w' & ev & Hrun & Hw' & Hev). exists w', ev. split_and!; [exact Hrun|done| |].
  - rewrite Hev. f_equal. rewrite <-!list_fmap_compose. apply Forall_fmap_ext. eapply Forall_impl; [exact Hxs|].
    intros x [Hm _]. by apply render_wire.
  - intros ds Hds. destruct (requests_read ds (sent <$> (message <$> xs))) as (r & rev & Hr & Hp & Hf).
    + apply Forall_fmap, Forall_fmap. eapply Forall_impl; [exact Hxs|]. intros x [Hm _]. by apply sent_good.
    + by rewrite Hds.
    + exists r, rev. split_and!; [done| |done]. rewrite Hp, <-list_fmap_compose. by apply list_fmap_ext.
Qed.

Definition posted1 : request := Request (str "POST /a HTTP/1.1") [(str "Host", str "h"); (str "Content-Length", str "77")] (str "xy").
Definition posted2 : request := Request (str "POST /b HTTP/1.1") [] (str "0123456789ab").

Lemma messages_are_read_as_sent_witness :
  ∃ w' ev, send_all [At_once posted1; In_pieces posted2 [str "0123"; []; str "456789ab"]] writer0 = (Ok tt, w', ev) ∧ ready w' ∧
    outputs ev = str "POST /a HTTP/1.1" ++ crlf ++ str "Host: h" ++ crlf ++ str "Content-Length: 2" ++ crlf ++ crlf ++ str "xy"
      ++ str "POST /b HTTP/1.1" ++ crlf ++ str "Content-Length: 12" ++ crlf ++ crlf ++ str "0123456789ab" ∧
    ∀ ds, concat ds = outputs ev →
      ∃ r rev, http_blocks ds reader0 = (Ok tt, r, rev) ∧
        filter is_process rev = [Process_uri (str "/a") (str "xy"); Process_uri (str "/b") (str "0123456789ab")] ∧ fresh r.
Proof.
  apply (messages_are_read_as_sent [At_once posted1; In_pieces posted2 [str "0123"; []; str "456789ab"]] writer0); [|done].
  repeat constructor; try (by apply (bool_decide_unpack _); vm_compute); by vm_compute.
Defined.

(** An empty block for a body that has a length: the body's writer copies that
    many characters from where there are none. *)
Example empty_block_undefined : (http_put [] (set_w_header (set_content_length 3 header0) writer0)).1.1 = Undef.
Proof. vm_compute. reflexivity. Qed.

(** The cleaner keeps the header that the application gave: the message of
    the next connection goes out with the fields of the last one. *)
Example header_outlives_connection :
  let first := send_message (str "HTTP/1.1 200 OK" ++ crlf) (set (str "Set-Cookie") (str "secret") header0) (str "a") in
  outputs ((first;; clear_state;; clear_header;; clear_incoming;;
    op_modify (set_w_line (str "HTTP/1.1 200 OK" ++ crlf));; incoming (str "b")) writer0).2
  = outputs (first writer0).2 ++
    str "HTTP/1.1 200 OK" ++ crlf ++ str "Set-Cookie: secret" ++ crlf ++ str "Content-Length: 1" ++ crlf ++ crlf ++ str "b".
Proof. vm_compute. reflexivity. Qed.

(** A message without a body is sent, but the readers take what follows its
    header in the same block for nothing: see [second_get_lost]. *)
Example no_body_ex :
  (http_put [] (set_w_line (str "GET / HTTP/1.1" ++ crlf) (set_w_header (set (str "Host") (str "h") header0) writer0))).2
  = [Output (str "GET / HTTP/1.1" ++ crlf ++ str "Host: h" ++ crlf ++ crlf); Body_writed].
Proof. vm_compute. reflexivity. Qed.
